(* ===== verification/_CoqProject ===== *)
-Q . S2P
Prelude.v
GoLib.v
Sha256.v
Merkle.v
Types.v
Strconv.v
Text.v
Json.v
JsonPrint.v
Utf8.v
JsonCodec.v
TxTags.v
Economics.v
Address.v
CanonicalTx.v
FairOrdering.v
Mempool.v
MempoolDag.v
Validator.v
SignBytes.v
DataAvailability.v
Gf256.v
GfMatrix.v
Erasure.v
Sampling.v
StateProof.v
ProofJson.v
Store.v
Staged.v
Bank.v
Ante.v
Events.v
App.v
BlockExecution.v
ProposalChecks.v
Registry.v
StoreRegistry.v
StoreRegistryLaws.v
Finality.v
BlockTree.v
Evidence.v
Slashing.v
Staking.v
StakingStore.v
StakingLedger.v
StakingFees.v
StakingRun.v
StakingSlash.v
Ibc.v
IbcModule.v
IbcLaws.v
IbcRun.v
IbcPackets.v
IbcLife.v
IbcExample.v
StakingExample.v
Supply.v
Timeouts.v
StateMachine.v
StateMachineInv.v
Certificates.v
Commits.v
Proposals.v
MachineExample.v
