(* ===== verification/Prelude.v ===== *)
(** * Verification of vexo-consensus

    vexo-consensus is a Byzantine fault tolerant replicated state machine in Go:
    validators run a chained, three-phase consensus with quorum certificates;
    committed blocks are executed by an application of modules over a key-value
    store; light clients check finality proofs, data availability proofs and
    state proofs.  This library models the deterministic core of the program and
    proves what makes it correct.

    ** How the parts interact

    The registry of validators gives the validator set of a height.  The
    consensus state machine takes proposals, votes and timeout votes, checks
    them against the set, keeps a tree of blocks, builds certificates, moves its
    lock and commits by the three-chain rule.  Proposals carry transactions in
    the fair order and a data availability commitment.  Certificates travel in
    finality proofs; the finality verifier and the attack detector check them.
    Transactions are parsed and signed in a text format and wait in a pool, which
    a graph of batches and a log make durable.  The application runtime prepares
    and judges proposals and executes blocks: every transaction passes the ante
    checks (signature, fee, gas, nonce) and is handed to a module.  A block runs
    on a staged store whose writes are committed in one batch and whose root
    light clients query with proofs.  The modules are the bank, staking, which
    locks coins of the bank and is called when a validator is slashed, and the
    inter-chain module, which sends packets to other chains and checks query
    proofs of their state.

    ** Files

    - Prelude.v: errors and the [result] monad, machine integers, Go contexts and
      map orders, tactics and generic lemmas.
    - GoLib.v, Strconv.v, Text.v, Utf8.v, Sha256.v: the parts of Go's standard
      library the program uses: bytes, big-endian integers, string functions,
      hexadecimal, decimal and base64 text, big integers, UTF-8 repair, SHA-256
      (executable, tested on the standard vectors).
    - Json.v, JsonPrint.v, JsonCodec.v: [encoding/json]: parser, printer, and the
      records of the program as instances of [JsonRecord] with the round trip
      as the law [LawfulJson].
    - Merkle.v: the Merkle trees that dataavailability and stateproof share.
    - Types.v: [types/types.go].
    - TxTags.v: the transaction tags of [mempool/priority.go].
    - Economics.v: [economics/amount.go], [economics/base_fee.go].
    - Address.v: [address/bech32.go], [address/address.go].
    - CanonicalTx.v: [app/canonical_tx.go], [app/signed_tx.go].
    - FairOrdering.v: [fairordering/fairordering.go].
    - Mempool.v: [mempool/fifo.go], [hash.go], [priority.go]; MempoolDag.v:
      [mempool/dag.go], [mempool/wal.go].
    - Validator.v, Registry.v: [validator/] (sets, proposer, admission; in-memory
      registry).  StoreRegistry.v: [validator/store_registry.go], the persistent
      registry; StoreRegistryLaws.v: it refines the one in memory.
    - SignBytes.v: [finality/finality.go], [consensus/consensus.go], [hash.go],
      [signbytes.go], [crypto/domain.go].
    - DataAvailability.v: [dataavailability/dataavailability.go]: encoding, chunks
      and commitments.  Gf256.v: its field of 256 elements; GfMatrix.v: its
      elimination; Erasure.v: parity chunks and recovery; Sampling.v: planned
      samples and their verification.
    - StateProof.v: [stateproof/stateproof.go], [queryproof/queryproof.go];
      ProofJson.v: its [Encode] and [Decode].
    - Store.v: the interface of [app/app.go] and the key-value part of
      [store/leveldb.go]; Staged.v: [app/staged_store.go].
    - Bank.v: [app/gas.go], [modules/bank/bank.go]; Ante.v: [app/account.go],
      [app/ante.go]; Events.v: [events/events.go].
    - App.v: [app/app.go], [app/router.go], [app/runtime.go].  BlockExecution.v:
      staged and direct execution agree; ProposalChecks.v: preparing against
      judging proposals.
    - Finality.v: [finality/proof.go], [builder.go], [verifier.go],
      [attack_detector.go].
    - BlockTree.v: [consensus/block_tree.go], [commit_rule.go],
      [internal/safety/commit_index.go]; Evidence.v: [slashing/slashing.go] and
      the vote part of [consensus/evidence.go]; Timeouts.v:
      [consensus/pacemaker.go], [consensus/timeout.go].
    - Slashing.v: the penalty receipts of [slashing/].  Staking.v:
      [modules/staking/staking.go].  StakingStore.v, StakingLedger.v,
      StakingFees.v, StakingRun.v, StakingSlash.v: its theorems;
      StakingExample.v: concrete runs.
    - Ibc.v: [ibc/ibc.go]; IbcModule.v: [modules/ibc/ibc.go].  IbcLaws.v,
      IbcRun.v, IbcPackets.v, IbcLife.v: their theorems; IbcExample.v: concrete
      runs.
    - Supply.v: the coins of a chain with bank, staking and inter-chain modules.
    - StateMachine.v: [consensus/state_machine.go].  StateMachineInv.v,
      Certificates.v, Commits.v, Proposals.v: its theorems.  MachineExample.v:
      concrete runs.

    ** How code becomes definitions

    A definition keeps the name of the Go function, with the receiver in front
    where names clash ([Ante_CheckTx] is [AnteKeeper.CheckTx]).  A method that
    changes its receiver returns the new receiver with its result, also on the
    error paths, so partial effects of a failing call are visible.  Errors are
    values of [error] compared with [errors_is], which follows wrapping.  A
    [uint64] is a [Z]; wrap-around is written [wrap64].  Hashes are vectors of
    32 bytes.  Go maps are [gmap]s; wherever the code ranges over a map the
    order is an argument of type [MapOrder], and the theorems hold for every
    order.  A [context.Context] is the error its [Err] method returns, if any.
    Mutexes make methods atomic and are left out.  Slices are values and the
    defensive copies of the code are identities, except where the pool sorts a
    slice that its index refers to.  Interfaces are classes: [ModuleOps] is
    [Module] with its optional interfaces as options.

    Parameters: aggregate signatures and the signature scheme, the encoding of
    evidence payloads ([EvidenceCodec]), the log file of the pool ([WalFile],
    [LawfulWal]), and the LevelDB library (the classes [LevelDB], [LawfulDB],
    [ReliableDB]).  Theorems name what they assume of them, and the witnesses
    instantiate them.

    ** What is proved

    - Safety of consensus.  Two valid certificates for different blocks of one
      round share signers of more than a third of the voting power
      ([accountable_safety]); a machine builds at most one certificate per round
      ([one_certificate_per_round]), its certificates pass the verifier
      ([built_certificate_verifies]); commits are unique per height, ordered,
      final and backed by three-chains ([commits_are_final],
      [commit_history_consistent], [proposal_commits_chains]); locks only move
      forward and accepted votes respect them; a created proposal is accepted;
      conflicting votes leave evidence; timeout certificates advance the round.
      [Extends] decides ancestry and terminates.  All of these are about every
      sequence of calls from a new machine.
    - Finality proofs: strict proofs are three-chains, the detector catches
      conflicting proofs, and what the verifier does not bind.
    - Validator registry: sets are well formed, events commit to the changes,
      joins take effect at their height, leaving undoes joining.  The persistent
      registry does what the one in memory does, also after it is opened again
      ([persistent_registry_refines]), and updates staged with a block are
      committed as staged ([staged_updates_commit]).
    - Ordering: fair order is canonical and keeps nonces.
    - Encodings: sign bytes are unambiguous, header hashes commit to headers,
      addresses, canonical transactions and amounts round trip.
    - Commitments: chunk, state and query proofs are complete and sound up to an
      exhibited SHA-256 collision.
    - Data availability: recovery repairs the losses the code can repair and
      never returns other transactions ([recover_complete], [recover_sound]);
      planned samples verify, and verified samples are the committed chunks
      ([sampling_complete], [sampling_sound]).
    - Mempool: the pool keeps its books and does not admit a transaction twice,
      batches form a graph without cycles, the log recovers the pool.
    - Application: executing a block on a staged store and committing it is
      executing it on the database, for every module that keeps the contract
      [LawfulModule], as bank, staking and inter-chain modules do
      ([staged_block_refines]); a prepared proposal is accepted
      ([prepared_accepted]); transfers conserve money, transactions are authentic
      and not replayed, block nonces are consecutive, the base fee stays in its
      bounds.
    - Coins: over a chain of blocks balances, stakes, unbonding amounts and
      rewards together change only by what is computed to be issued
      ([chain_supply]); staking alone conserves them ([staking_conserves]), and a
      penalty scales every stake of a validator exactly once
      ([slash_scales_once]).
    - Inter-chain packets: a packet is sent once, then acknowledged or timed out
      at most once and never both ([packet_lifecycle]); the sweep of a block
      times out what expires at its height ([timeouts_swept]); an accepted proof
      of an acknowledgement shows the acknowledged receipt in the counterparty's
      state ([ack_proof_sound]); query proofs survive their JSON encoding
      ([proof_travels]).
    - Flaws that modelling showed, each as a theorem: a forged justification
      commits ([forged_justification_commits]), finality proofs do not bind
      their header ([finality_header_unbound]), compact absence proofs can be
      forged ([absence_forgeable]), a bank send checks no signer and creates
      money when sender and receiver agree ([deliver_send]), two transactions
      with one nonce make a proposer reject its own block
      ([same_nonce_rejected]), and with three parity shards some losses of three
      chunks cannot be repaired ([erasure_gap]).

    No theorem assumes SHA-256 injective: where collision resistance matters the
    conclusion is a disjunction with two different messages, members of explicit
    finite lists, that have the same hash.

    ** Fuel

    [Extends] follows parent links with the size of the tree as fuel:
    [Extends_correct] shows that it answers whenever the loop of the source ends,
    and [Extends_terminates] that it ends on a tree without cycles.  The loops
    over the levels of a Merkle tree have the number of leaves as fuel ([root_loop_single]); decoding transactions has the length of
    the data; merging the chains of the fair order, the number of transactions;
    regrouping the bits of an address, the number of pending bits
    ([drain_spec]); compacting the log of the pool, the number of batches; the
    JSON parser, twice the length of the text, with Go's bound on the nesting
    (the laws [LawfulJson] show that printed records are parsed in full).  The
    loop that draws sample indices until enough are found takes its fuel as an
    argument, and [plan_ends] says exactly when it is enough.  All other recursion is structural.

    ** Not modelled

    Goroutines, timers, sockets, files and command lines (node, runtime, p2p,
    transport, rpc, cmd, consensus drivers and write-ahead log); cryptographic
    back ends, which wrap third-party libraries; the Ethereum module, an adapter
    around go-ethereum; block, history and upgrade records of the store; slashing and governance keepers, committee selection. *)

From Stdlib Require Export ZArith Lia.
From Stdlib Require Export Strings.Byte Strings.Ascii Strings.String.
From stdpp Require Export sorting relations.
From stdpp Require Export base tactics gmap strings pretty vector numbers list.

#[global] Open Scope string_scope.
#[global] Open Scope list_scope.
#[global] Open Scope Z_scope.
#[global] Unset Lia Cache.

(** ** Errors and results

    A Go [error] is a sentinel (a package level [errors.New], named here by its
    Go variable), or a [fmt.Errorf] that wraps errors with [%w].  The formatted
    arguments of a message are not kept. *)

Inductive error : Type :=
| ErrNew (name : string)
| ErrWrap (wrapped : list error) (msg : string).

Fixpoint error_eqb (e1 e2 : error) {struct e1} : bool :=
  match e1, e2 with
  | ErrNew n1, ErrNew n2 => bool_decide (n1 = n2)
  | ErrWrap l1 m1, ErrWrap l2 m2 =>
      (fix go (l1 l2 : list error) {struct l1} : bool :=
         match l1, l2 with
         | [], [] => true
         | x :: l1, y :: l2 => error_eqb x y && go l1 l2
         | _, _ => false
         end) l1 l2 && bool_decide (m1 = m2)
  | _, _ => false
  end.

(** [errors.Is err target] for a sentinel [target]: the target is the error
    itself or occurs in the chain of errors it wraps. *)
Fixpoint errors_is (e target : error) {struct e} : bool :=
  error_eqb e target ||
  match e with
  | ErrNew _ => false
  | ErrWrap l _ =>
      (fix go (l : list error) {struct l} : bool :=
         match l with [] => false | x :: l => errors_is x target || go l end) l
  end.

Inductive result (A : Type) : Type :=
| Ok (a : A)
| Err (e : error).
Arguments Ok {A} a.
Arguments Err {A} e.

#[global] Instance Ok_inj {A} : Inj (=) (=) (@Ok A).
Proof. by intros a b [= ->]. Qed.

#[global] Instance result_ret : MRet result := λ A a, Ok a.
#[global] Instance result_bind : MBind result := λ A B f r,
  match r with Ok a => f a | Err e => Err e end.
#[global] Instance result_fmap : FMap result := λ A B f r,
  match r with Ok a => Ok (f a) | Err e => Err e end.

(** [check e b] is the early return [if !b { return e }]. *)
Definition check (e : error) (b : bool) : result unit := if b then Ok tt else Err e.

(** A [context.Context] as seen by a handler that polls [ctx.Done()] on entry:
    [None] when it is live, [Some err] with [ctx.Err()] when it is done. *)
Abbreviation Ctx := (option error).

Definition ctx_guard (ctx : Ctx) : result unit :=
  match ctx with None => Ok tt | Some e => Err e end.

Definition is_ok {A} (r : result A) : bool := match r with Ok _ => true | Err _ => false end.

Lemma bind_Ok {A B} (r : result A) (f : A → result B) b :
  r ≫= f = Ok b ↔ ∃ a, r = Ok a ∧ f a = Ok b.
Proof. destruct r; naive_solver. Qed.

Lemma check_Ok e b u : check e b = Ok u ↔ b = true.
Proof. destruct b, u; naive_solver. Qed.

Lemma ctx_guard_Ok ctx u : ctx_guard ctx = Ok u ↔ ctx = None.
Proof. destruct ctx, u; naive_solver. Qed.

(** Invert a hypothesis [m = Ok _] where [m] is built with [bind] and [check]. *)
Ltac result_inv H :=
  lazymatch type of H with
  | (_ ≫= _) = Ok _ =>
      let x := fresh "r" in let H1 := fresh H in
      apply bind_Ok in H as [x [H1 H]]; result_inv H1; result_inv H
  | check _ _ = Ok _ => apply check_Ok in H
  | ctx_guard _ = Ok _ => apply ctx_guard_Ok in H
  | Ok _ = Ok _ => injection H as H
  | _ => idtac
  end.

(** Case analysis on the first [match] of a hypothesis, simplifying after. *)
Ltac case_in H :=
  lazymatch type of H with
  | context [match ?x with _ => _ end] => destruct x eqn:?; simplify_eq/=
  end.

(** Evaluate the [bool_decide]s of the goal that the hypotheses settle. *)
Ltac bool_decide_all :=
  repeat match goal with
  | |- context [bool_decide ?P] =>
      first [ rewrite (bool_decide_eq_true_2 P) by (assumption || congruence || lia)
            | rewrite (bool_decide_eq_false_2 P) by (assumption || congruence || lia) ]
  end.

(** ** Machine integers

    A [uint64] is a [Z] in [0, 2^64); the wrap-around of Go's operators is
    written with [wrap64]. *)

Definition two64 : Z := 18446744073709551616.
Definition max_u64 : Z := 18446744073709551615.
Definition is_u64 (z : Z) : Prop := 0 ≤ z < two64.
Definition wrap64 (z : Z) : Z := z mod two64.

#[global] Instance is_u64_dec z : Decision (is_u64 z).
Proof. unfold is_u64. apply _. Defined.

Lemma wrap64_small z : is_u64 z → wrap64 z = z.
Proof. intros. by apply Z.mod_small. Qed.

Lemma wrap64_u64 z : is_u64 (wrap64 z).
Proof. unfold is_u64, wrap64. by apply Z.mod_pos_bound. Qed.

Lemma two64_eq : two64 = 2 ^ 64. Proof. reflexivity. Qed.

(** ** Sums of voting powers *)

Definition sumZ (l : list Z) : Z := foldr Z.add 0 l.
#[global] Arguments sumZ _ : simpl never.

Lemma sumZ_cons x l : sumZ (x :: l) = x + sumZ l.
Proof. done. Qed.

Lemma sumZ_app l1 l2 : sumZ (l1 ++ l2) = sumZ l1 + sumZ l2.
Proof. induction l1 as [|x l1 IH]; [done|]. rewrite <-app_comm_cons, !sumZ_cons. lia. Qed.

#[global] Instance sumZ_perm : Proper ((≡ₚ) ==> (=)) sumZ.
Proof. intros l1 l2 H. induction H; rewrite ?sumZ_cons in *; lia. Qed.

Lemma sumZ_nonneg l : Forall (λ x, 0 ≤ x) l → 0 ≤ sumZ l.
Proof. induction 1; rewrite ?sumZ_cons; [done|lia]. Qed.

Section weights.
Context {A : Type} `{EqDecision A} (w : A → Z) (Hw : ∀ a, 0 ≤ w a).

(** The weight of a list of keys. *)
Definition weight (l : list A) : Z := sumZ (w <$> l).

Lemma weight_nil : weight [] = 0. Proof. done. Qed.
Lemma weight_cons a l : weight (a :: l) = w a + weight l. Proof. done. Qed.
Lemma weight_app l1 l2 : weight (l1 ++ l2) = weight l1 + weight l2.
Proof. unfold weight. by rewrite fmap_app, sumZ_app. Qed.

#[global] Instance weight_perm : Proper ((≡ₚ) ==> (=)) weight.
Proof. intros l1 l2 H. unfold weight. by rewrite H. Qed.

Lemma weight_nonneg l : 0 ≤ weight l.
Proof. induction l; rewrite ?weight_cons; [done|]. specialize (Hw a). lia. Qed.

Lemma weight_subset l1 l2 : NoDup l1 → l1 ⊆ l2 → weight l1 ≤ weight l2.
Proof.
  intros Hnd. revert l2. induction Hnd as [|a l1 Ha Hnd IH]; intros l2 Hsub.
  { apply weight_nonneg. }
  assert (a ∈ l2) as [l2' Hl2]%elem_of_Permutation by set_solver.
  rewrite Hl2, !weight_cons. apply Z.add_le_mono_l, IH.
  intros x Hx. assert (x ∈ l2) as Hx2 by set_solver.
  rewrite Hl2 in Hx2. set_solver.
Qed.

(** Inclusion-exclusion over a universe: two duplicate-free lists inside [u]
    have a common part of weight at least [weight l1 + weight l2 - weight u]. *)
Lemma weight_intersection u l1 l2 :
  NoDup l1 → NoDup l2 → NoDup u → l1 ⊆ u → l2 ⊆ u →
  weight l1 + weight l2 - weight u ≤ weight (filter (.∈ l2) l1).
Proof.
  intros Hn1 Hn2 Hnu H1 H2.
  assert (weight l1 = weight (filter (.∈ l2) l1) + weight (filter (λ x, x ∉ l2) l1))
    as Hsplit.
  { rewrite <-weight_app. apply weight_perm. clear.
    induction l1 as [|a l1 IH]; [done|].
    rewrite !filter_cons. destruct (decide (a ∈ l2)).
    - rewrite decide_False by tauto. simpl. by rewrite IH at 1.
    - rewrite decide_True by done. rewrite IH at 1. by rewrite Permutation_middle. }
  assert (weight (filter (λ x, x ∉ l2) l1 ++ l2) ≤ weight u) as Hle.
  { apply weight_subset.
    - apply NoDup_app. split_and!; [by apply NoDup_filter| |done].
      intros x [??]%list_elem_of_filter. done.
    - intros x [[??]%list_elem_of_filter|?]%elem_of_app; set_solver. }
  rewrite weight_app in Hle. lia.
Qed.
End weights.
#[global] Arguments weight : simpl never.

(** ** Sorting by a key *)

Lemma StronglySorted_fmap_inv {A B} (f : A → B) (R1 : relation A) (R2 : relation B) l :
  (∀ a b, R2 (f a) (f b) → R1 a b) → StronglySorted R2 (f <$> l) → StronglySorted R1 l.
Proof.
  intros HR. induction l as [|a l IH]; intros HS; [constructor|]. inversion HS as [|?? Hl Ha]; subst.
  constructor; [by apply IH|]. rewrite Forall_fmap in Ha. eapply Forall_impl; [exact Ha|].
  intros b. apply HR.
Qed.

Section sort_by.
Context {A K : Type} (key : A → K) (R : relation K) `{!RelDecision R}.

Definition key_le (a b : A) : Prop := R (key a) (key b).

#[global] Instance key_le_dec : RelDecision key_le := λ a b, decide (R (key a) (key b)).

(** [sort.Slice] with the comparison [key a < key b]. *)
Definition sort_by (l : list A) : list A := merge_sort key_le l.

Lemma sort_by_perm l : sort_by l ≡ₚ l.
Proof. apply merge_sort_Permutation. Qed.

Lemma sort_by_length l : length (sort_by l) = length l.
Proof. by rewrite sort_by_perm. Qed.

Lemma elem_of_sort_by a l : a ∈ sort_by l ↔ a ∈ l.
Proof. by rewrite sort_by_perm. Qed.

Context `{!Transitive R, !Total R}.

Lemma sort_by_key_sorted l : StronglySorted key_le (sort_by l).
Proof.
  apply StronglySorted_merge_sort.
  - intros a b c. unfold key_le. apply transitivity.
  - intros a b. unfold key_le. apply total, _.
Qed.

Lemma sort_by_sorted l : StronglySorted R (key <$> sort_by l).
Proof. apply (StronglySorted_fmap key key_le R); [done|]. apply sort_by_key_sorted. Qed.

(** Two orders of the same elements sort alike when the keys are distinct:
    the result does not depend on the iteration order of a Go map. *)
Lemma key_sorted_unique `{!AntiSymm (=) R} l1 l2 :
  NoDup (key <$> l1) → l1 ≡ₚ l2 →
  StronglySorted key_le l1 → StronglySorted key_le l2 → l1 = l2.
Proof.
  intros Hnd Hp Hs1 Hs2. apply (StronglySorted_unique_strong key_le); [|done..].
  intros a b Ha Hb Hab Hba. rewrite <-Hp in Hb.
  apply list_elem_of_lookup_1 in Ha as [i Hi].
  apply list_elem_of_lookup_1 in Hb as [j Hj].
  assert (key a = key b) as Hk by (by apply (anti_symm R)).
  assert (i = j) as ->.
  { eapply (NoDup_lookup (key <$> l1)); [done|..];
      rewrite list_lookup_fmap, ?Hi, ?Hj; simpl; by rewrite ?Hk. }
  congruence.
Qed.

Lemma sort_by_unique `{!AntiSymm (=) R} l1 l2 :
  NoDup (key <$> l1) → l1 ≡ₚ l2 → sort_by l1 = sort_by l2.
Proof.
  intros Hnd Hp. apply key_sorted_unique; [|by rewrite !sort_by_perm|apply sort_by_key_sorted..].
  by rewrite sort_by_perm.
Qed.

(** The same for keys that determine the element, duplicates included. *)
Lemma sort_by_inj `{!AntiSymm (=) R, !Inj (=) (=) key} l1 l2 :
  l1 ≡ₚ l2 → sort_by l1 = sort_by l2.
Proof.
  intros Hp. apply (StronglySorted_unique_strong key_le);
    [|apply sort_by_key_sorted..|by rewrite !sort_by_perm].
  intros a b _ _ Hab Hba. apply (inj key). by apply (anti_symm R).
Qed.

(** Sorting a sorted list changes nothing. *)
Lemma sort_by_id `{!AntiSymm (=) R} l :
  NoDup (key <$> l) → StronglySorted key_le l → sort_by l = l.
Proof.
  intros Hnd Hs. apply key_sorted_unique; [|apply sort_by_perm|apply sort_by_key_sorted|done].
  by rewrite sort_by_perm.
Qed.
End sort_by.

(** A Go [range] over a map visits the entries in an unspecified order: a
    [MapOrder] is one such order for every map. *)
Record MapOrder (K V : Type) `{Countable K} := {
  map_range :> gmap K V → list (K * V);
  map_range_perm : ∀ m, map_range m ≡ₚ map_to_list m
}.
Arguments map_range {_ _ _ _} _ _.
Arguments map_range_perm {_ _ _ _} _ _.

(** The order of [map_to_list], used for evaluation. *)
Program Definition canonical_order {K V} `{Countable K} : MapOrder K V :=
  {| map_range m := map_to_list m |}.
Next Obligation. done. Qed.

(** A loop that updates a map once per key. *)
Section updates.
Context {E K V : Type} `{Countable K} (active : E → bool) (key : E → K) (val : E → option V).

Definition map_update (m : gmap K V) (e : E) : gmap K V :=
  if active e then partial_alter (λ _, val e) (key e) m else m.

Lemma map_updates_lookup entries m k :
  NoDup (key <$> filter (λ e, active e = true) entries) →
  (∀ e, e ∈ entries → active e = true → key e = k → foldl map_update m entries !! k = val e) ∧
  ((∀ e, e ∈ entries → active e = true → key e ≠ k) → foldl map_update m entries !! k = m !! k).
Proof.
  revert m. induction entries as [|e entries IH]; intros m; cbn [foldl].
  { intros _. split; [intros e He; by apply elem_of_nil in He|done]. }
  rewrite filter_cons. unfold map_update at 2 4. case_decide as Ha.
  - rewrite Ha. intros [He Hnd]%NoDup_cons.
    destruct (IH (partial_alter (λ _, val e) (key e) m) Hnd) as [IH1 IH2].
    assert (∀ e', e' ∈ entries → active e' = true → key e' ≠ key e) as Hother.
    { intros e' He' Ha' Heq. apply He. rewrite <-Heq. apply list_elem_of_fmap_2, list_elem_of_filter.
      by split. }
    split.
    + intros e' [->|He']%elem_of_cons Ha' Hk; [|by apply IH1]. subst k.
      by rewrite IH2, lookup_partial_alter_eq.
    + intros Hn. rewrite IH2 by (intros e' He'; apply Hn; by right).
      apply lookup_partial_alter_ne, Hn; [by left|done].
  - apply not_true_is_false in Ha as Hf. rewrite Hf. intros Hnd. destruct (IH m Hnd) as [IH1 IH2]. split.
    + intros e' [->|He']%elem_of_cons Ha' Hk; [congruence|by apply IH1].
    + intros Hn. apply IH2. intros e' He'. apply Hn. by right.
Qed.
End updates.

Section map_order.
Context {K V : Type} `{Countable K} (o : MapOrder K V).

Lemma elem_of_map_range m k v : (k, v) ∈ o m ↔ m !! k = Some v.
Proof. by rewrite map_range_perm, elem_of_map_to_list. Qed.

Lemma map_range_NoDup m : NoDup (o m).*1.
Proof. rewrite map_range_perm. apply NoDup_fst_map_to_list. Qed.
End map_order.
