(* ===== verification/GoLib.v ===== *)
(** * The parts of Go's standard library the program uses

    Byte slices and fixed-size arrays, [encoding/binary] big-endian integers,
    [crypto/sha256], [strings.Join]/[Split], [bytes.Compare] and
    [strconv.FormatUint], as executable definitions with the round-trip and
    injectivity lemmas the components use. *)

From S2P Require Import Prelude.

(** ** Bytes *)

#[global] Instance byte_eq_dec : EqDecision byte := Byte.byte_eq_dec.
#[global] Instance byte_countable : Countable byte :=
  inj_countable Byte.to_N Byte.of_N Byte.of_to_N.

Abbreviation bytes := (list byte).

Definition byte_to_Z (b : byte) : Z := Z.of_N (Byte.to_N b).
Definition byte_of_Z (z : Z) : byte := default x00 (Byte.of_N (Z.to_N (z mod 256))).

Lemma byte_to_Z_range b : 0 ≤ byte_to_Z b < 256.
Proof. unfold byte_to_Z. pose proof (Byte.to_N_bounded b). lia. Qed.

Lemma byte_of_Z_to_Z b : byte_of_Z (byte_to_Z b) = b.
Proof.
  unfold byte_of_Z. rewrite Z.mod_small by apply byte_to_Z_range.
  unfold byte_to_Z. by rewrite N2Z.id, Byte.of_to_N.
Qed.

Lemma byte_to_Z_inj b1 b2 : byte_to_Z b1 = byte_to_Z b2 → b1 = b2.
Proof. intros H. by rewrite <-(byte_of_Z_to_Z b1), H, byte_of_Z_to_Z. Qed.

Lemma byte_to_Z_of_Z z : byte_to_Z (byte_of_Z z) = z mod 256.
Proof.
  unfold byte_of_Z, byte_to_Z.
  assert (0 ≤ z mod 256 < 256) as Hz by (by apply Z.mod_pos_bound).
  destruct (Byte.of_N (Z.to_N (z mod 256))) as [b|] eqn:E; simpl.
  - apply Byte.to_of_N in E. rewrite E. lia.
  - apply Byte.of_N_None_iff in E. lia.
Qed.

(** ** Big-endian integers ([binary.BigEndian]) *)

Fixpoint be_encode (n : nat) (z : Z) : bytes :=
  match n with
  | O => []
  | S n => byte_of_Z (z / 256 ^ Z.of_nat n) :: be_encode n z
  end.

Fixpoint be_decode (l : bytes) : Z :=
  match l with
  | [] => 0
  | b :: l => byte_to_Z b * 256 ^ Z.of_nat (length l) + be_decode l
  end.

(** [binary.BigEndian.PutUint64], [AppendUint64] and [Uint64]. *)
Definition be64 (z : Z) : bytes := be_encode 8 z.

Lemma be_encode_length n z : length (be_encode n z) = n.
Proof. induction n; simpl; congruence. Qed.

Lemma be64_length z : length (be64 z) = 8%nat.
Proof. apply be_encode_length. Qed.

Lemma be_decode_encode n z : be_decode (be_encode n z) = z mod 256 ^ Z.of_nat n.
Proof.
  induction n as [|n IH]; simpl be_encode; simpl be_decode.
  { by rewrite Z.mod_1_r. }
  rewrite be_encode_length, byte_to_Z_of_Z, IH.
  rewrite Nat2Z.inj_succ, Z.pow_succ_r, (Z.mul_comm 256) by lia.
  rewrite Z.rem_mul_r by (try apply Z.pow_nonzero; lia). lia.
Qed.

Lemma be64_decode z : is_u64 z → be_decode (be64 z) = z.
Proof. intros. unfold be64. rewrite be_decode_encode. by apply Z.mod_small. Qed.

Lemma be64_inj x y : is_u64 x → is_u64 y → be64 x = be64 y → x = y.
Proof. intros Hx Hy H. by rewrite <-(be64_decode x), H, be64_decode. Qed.

Lemma be_decode_range l : 0 ≤ be_decode l < 256 ^ Z.of_nat (length l).
Proof.
  induction l as [|b l IH]; cbn [be_decode length]; [done|].
  rewrite Nat2Z.inj_succ, Z.pow_succ_r by lia.
  pose proof (byte_to_Z_range b). nia.
Qed.

(** ** Fixed-size arrays *)

(** [types.Hash] is [[32]byte]. *)
Abbreviation Hash := (vec byte 32).

(** Hashes are map keys: their bytes, with a decoder that evaluates. *)
Fixpoint vec_of_list {A} (n : nat) (l : list A) : option (vec A n) :=
  match n, l with
  | O, [] => Some [#]
  | S n, x :: l => v ← vec_of_list n l; Some (x ::: v)
  | _, _ => None
  end.

Lemma vec_of_list_to_list {A} n (v : vec A n) : vec_of_list n (vec_to_list v) = Some v.
Proof. induction v as [|x n v IH]; simpl; [done|]. by rewrite IH. Qed.

#[global] Instance vec_list_countable {A} `{Countable A} n : Countable (vec A n) | 0 :=
  inj_countable vec_to_list (vec_of_list n) (vec_of_list_to_list n).

Definition zero_hash : Hash := vreplicate 32 x00.

(** [hash[:]] *)
Definition hash_bytes (h : Hash) : bytes := vec_to_list h.

(** [var h Hash; copy(h[:], b)] *)
Definition hash_of_bytes (b : bytes) : Hash :=
  fun_to_vec (λ i : fin 32, default x00 (b !! (fin_to_nat i))).

Lemma hash_bytes_length h : length (hash_bytes h) = 32%nat.
Proof. apply length_vec_to_list. Qed.

#[global] Instance hash_bytes_inj : Inj (=) (=) hash_bytes.
Proof. intros h1 h2 H. by apply vec_to_list_inj2. Qed.

(** ** Strings *)

(** [[]byte(s)] and [string(b)] *)
Definition bytes_of_string (s : string) : bytes := String.list_byte_of_string s.
Definition string_of_bytes (b : bytes) : string := String.string_of_list_byte b.

Lemma string_of_bytes_of_string s : string_of_bytes (bytes_of_string s) = s.
Proof. apply String.string_of_list_byte_of_string. Qed.

Lemma bytes_of_string_of_bytes b : bytes_of_string (string_of_bytes b) = b.
Proof. apply String.list_byte_of_string_of_list_byte. Qed.

#[global] Instance bytes_of_string_inj : Inj (=) (=) bytes_of_string.
Proof. intros s1 s2 H. by rewrite <-(string_of_bytes_of_string s1), H, string_of_bytes_of_string. Qed.

#[global] Instance string_of_bytes_inj : Inj (=) (=) string_of_bytes.
Proof. intros s1 s2 H. by rewrite <-(bytes_of_string_of_bytes s1), H, bytes_of_string_of_bytes. Qed.

(** [bytes.Compare a b <= 0]; Go orders strings and byte slices byte by byte. *)
Definition bytes_le (a b : bytes) : Prop := String.le (string_of_bytes a) (string_of_bytes b).

#[global] Instance bytes_le_dec : RelDecision bytes_le.
Proof. intros a b. unfold bytes_le. apply _. Defined.
#[global] Instance bytes_le_trans : Transitive bytes_le.
Proof. intros a b c. unfold bytes_le. apply transitivity. Qed.
#[global] Instance bytes_le_total : Total bytes_le.
Proof. intros a b. unfold bytes_le. apply (total String.le). Qed.
#[global] Instance bytes_le_antisymm : AntiSymm (=) bytes_le.
Proof. intros a b ??. apply (inj string_of_bytes). by apply (anti_symm String.le). Qed.
#[global] Instance bytes_le_refl : Reflexive bytes_le.
Proof. intros a. unfold bytes_le. reflexivity. Qed.

Lemma bytes_le_app p a b : bytes_le (p ++ a) (p ++ b) ↔ bytes_le a b.
Proof.
  unfold bytes_le, String.le, String.leb. induction p as [|x p IH]; [done|]. cbn.
  assert (∀ c, Ascii.compare c c = Eq) as ->; [|exact IH].
  intros c. unfold Ascii.compare. apply N.compare_refl.
Qed.

(** [strconv.FormatUint(x, 10)] *)
Definition format_uint (x : Z) : string := pretty (Z.to_N x).

Lemma format_uint_inj x y : 0 ≤ x → 0 ≤ y → format_uint x = format_uint y → x = y.
Proof. unfold format_uint. intros ?? H%(inj pretty). lia. Qed.

(** [strings.Join] *)
Fixpoint str_join (sep : string) (l : list string) : string :=
  match l with
  | [] => ""
  | [s] => s
  | s :: l => (s ++ sep ++ str_join sep l)%string
  end.

(** [strings.Split(s, sep)] for a one-byte separator. *)
Fixpoint str_split (sep : ascii) (s : string) : list string :=
  match s with
  | EmptyString => [""]
  | String a s =>
      if bool_decide (a = sep) then "" :: str_split sep s
      else match str_split sep s with
           | w :: ws => String a w :: ws
           | [] => [String a ""]
           end
  end.

Fixpoint str_elem (c : ascii) (s : string) : bool :=
  match s with
  | EmptyString => false
  | String a s => bool_decide (a = c) || str_elem c s
  end.

Lemma str_split_free sep s : str_elem sep s = false → str_split sep s = [s].
Proof.
  induction s as [|a s IH]; simpl; [done|]. intros [H1 H2]%orb_false_iff.
  by rewrite H1, (IH H2).
Qed.

Lemma str_split_app sep s t :
  str_elem sep s = false →
  str_split sep (s ++ String sep t)%string = s :: str_split sep t.
Proof.
  induction s as [|a s IH]; simpl.
  { intros _. by rewrite bool_decide_eq_true_2. }
  intros [H1 H2]%orb_false_iff. rewrite H1.
  change (String.append s (String sep t)) with (s ++ String sep t)%string.
  by rewrite (IH H2).
Qed.

(** [Split] undoes [Join] on a non-empty list of fields free of the separator. *)
Lemma str_split_join sep l :
  l ≠ [] → Forall (λ s, str_elem sep s = false) l →
  str_split sep (str_join (String sep "") l) = l.
Proof.
  intros Hl Hf. induction Hf as [|s l Hs Hf IH]; [done|].
  destruct l as [|s' l]; [by apply str_split_free|].
  change (str_join (String sep "") (s :: s' :: l))
    with (s ++ String sep (str_join (String sep "") (s' :: l)))%string.
  rewrite str_split_app by done. by rewrite IH.
Qed.
