(* ===== verification/Sha256.v ===== *)
(** * SHA-256 ([crypto/sha256], FIPS 180-4)

    The digest every hash of the program is built from, as an executable
    function checked on the standard test vectors.  No theorem of the
    development assumes it injective: statements that need collision
    resistance speak about the finite list of messages they hash. *)

From S2P Require Import Prelude GoLib.

Module Sha256.

(** 32-bit words *)
Definition mask32 : N := 4294967295%N.
Definition w32 (x : N) : N := N.land x mask32.
Definition add32 (x y : N) : N := w32 (x + y)%N.
Definition rotr (x n : N) : N :=
  N.lor (N.shiftr x n) (w32 (N.shiftl x (32 - n)%N)).
Definition not32 (x : N) : N := N.lxor x mask32.

Definition ch (x y z : N) : N := N.lxor (N.land x y) (N.land (not32 x) z).
Definition maj (x y z : N) : N :=
  N.lxor (N.lxor (N.land x y) (N.land x z)) (N.land y z).
Definition bsig0 (x : N) : N := N.lxor (N.lxor (rotr x 2) (rotr x 13)) (rotr x 22).
Definition bsig1 (x : N) : N := N.lxor (N.lxor (rotr x 6) (rotr x 11)) (rotr x 25).
Definition ssig0 (x : N) : N := N.lxor (N.lxor (rotr x 7) (rotr x 18)) (N.shiftr x 3).
Definition ssig1 (x : N) : N := N.lxor (N.lxor (rotr x 17) (rotr x 19)) (N.shiftr x 10).

Definition K : list N :=
  [1116352408; 1899447441; 3049323471; 3921009573; 961987163; 1508970993; 2453635748; 2870763221;
   3624381080; 310598401; 607225278; 1426881987; 1925078388; 2162078206; 2614888103; 3248222580;
   3835390401; 4022224774; 264347078; 604807628; 770255983; 1249150122; 1555081692; 1996064986;
   2554220882; 2821834349; 2952996808; 3210313671; 3336571891; 3584528711; 113926993; 338241895;
   666307205; 773529912; 1294757372; 1396182291; 1695183700; 1986661051; 2177026350; 2456956037;
   2730485921; 2820302411; 3259730800; 3345764771; 3516065817; 3600352804; 4094571909; 275423344;
   430227734; 506948616; 659060556; 883997877; 958139571; 1322822218; 1537002063; 1747873779;
   1955562222; 2024104815; 2227730452; 2361852424; 2428436474; 2756734187; 3204031479; 3329325298]%N.

Definition IV : list N :=
  [1779033703; 3144134277; 1013904242; 2773480762; 1359893119; 2600822924; 528734635; 1541459225]%N.

(** The padded message: 0x80, zeros, and the bit length as 64 bits. *)
Definition pad (m : bytes) : bytes :=
  m ++ [x80] ++ replicate ((119 - length m mod 64) mod 64)%nat x00
    ++ be64 (8 * Z.of_nat (length m)).

Fixpoint words (l : bytes) : list N :=
  match l with
  | a :: b :: c :: d :: l =>
      (Byte.to_N a * 16777216 + Byte.to_N b * 65536 + Byte.to_N c * 256 + Byte.to_N d)%N
        :: words l
  | _ => []
  end.

(** The message schedule: [w] holds the last sixteen words, newest first. *)
Fixpoint schedule (n : nat) (w : list N) : list N :=
  match n with
  | O => []
  | S n =>
      let wt := add32 (add32 (ssig1 (nth 1 w 0%N)) (nth 6 w 0%N))
                      (add32 (ssig0 (nth 14 w 0%N)) (nth 15 w 0%N)) in
      wt :: schedule n (wt :: firstn 15 w)
  end.

Fixpoint rounds (ks ws : list N) (a b c d e f g h : N) : list N :=
  match ks, ws with
  | k :: ks, w :: ws =>
      let t1 := add32 (add32 (add32 h (bsig1 e)) (add32 (ch e f g) k)) w in
      let t2 := add32 (bsig0 a) (maj a b c) in
      rounds ks ws (add32 t1 t2) a b c (add32 d t1) e f g
  | _, _ => [a; b; c; d; e; f; g; h]
  end.

Definition compress (h : list N) (block : list N) : list N :=
  match h with
  | [a; b; c; d; e; f; g; i] =>
      let ws := block ++ schedule 48 (rev block) in
      zip_with add32 h (rounds K ws a b c d e f g i)
  | _ => h
  end.

Fixpoint blocks (fuel : nat) (ws : list N) (h : list N) : list N :=
  match fuel with
  | O => h
  | S fuel =>
      match ws with
      | [] => h
      | _ => blocks fuel (skipn 16 ws) (compress h (firstn 16 ws))
      end
  end.

Definition digest (m : bytes) : bytes :=
  let p := pad m in
  concat (map (λ w, be_encode 4 (Z.of_N w)) (blocks (S (length p / 64)) (words p) IV)).

End Sha256.

(** [sha256.Sum256], and [hasher.Sum(nil)] copied into a [types.Hash] after the
    concatenation of the written slices. *)
Definition sha256 (m : bytes) : Hash := hash_of_bytes (Sha256.digest m).

#[global] Opaque sha256.

Module Sha256Vectors.

Example sha256_abc :
  map byte_to_Z (firstn 8 (hash_bytes (sha256 (bytes_of_string "abc")))) =
  [186; 120; 22; 191; 143; 1; 207; 234].
Proof. vm_compute. reflexivity. Qed.

Example sha256_empty :
  map byte_to_Z (hash_bytes (sha256 [])) =
  [227; 176; 196; 66; 152; 252; 28; 20; 154; 251; 244; 200; 153; 111; 185; 36;
   39; 174; 65; 228; 100; 155; 147; 76; 164; 149; 153; 27; 120; 82; 184; 85].
Proof. vm_compute. reflexivity. Qed.

Example sha256_two_blocks :
  map byte_to_Z (firstn 8 (hash_bytes (sha256 (bytes_of_string
    "abcdbcdecdefdefgefghfghighijhijkijkljklmklmnlmnomnopnopq")))) =
  [36; 141; 106; 97; 210; 6; 56; 184].
Proof. vm_compute. reflexivity. Qed.

End Sha256Vectors.
