(* ===== verification/Merkle.v ===== *)
(** * Binary Merkle trees over SHA-256

    The two Merkle trees of the program ([src/dataavailability] and
    [src/stateproof]) share this construction: leaves are hashed pairwise level
    by level; an odd last node is paired with itself ([dup]) or promoted.  The
    section proves that the path of a leaf verifies, and that a verified path
    leads to a leaf of the tree unless two different messages in two explicit
    finite lists have the same SHA-256 hash. *)

From S2P Require Import Prelude GoLib Sha256.

(** Two different messages, one of each list, with the same hash. *)
Definition collision (ms1 ms2 : list bytes) : Prop :=
  ∃ m1 m2, m1 ∈ ms1 ∧ m2 ∈ ms2 ∧ m1 ≠ m2 ∧ sha256 m1 = sha256 m2.

Lemma collision_or_eq ms1 ms2 m1 m2 :
  m1 ∈ ms1 → m2 ∈ ms2 → sha256 m1 = sha256 m2 → m1 = m2 ∨ collision ms1 ms2.
Proof.
  intros ???. destruct (decide (m1 = m2)); [by left|right]. by exists m1, m2.
Qed.

Lemma collision_mono ms1 ms2 ms1' ms2' :
  ms1 ⊆ ms1' → ms2 ⊆ ms2' → collision ms1 ms2 → collision ms1' ms2'.
Proof. intros H1 H2 (m1 & m2 & ? & ? & ? & ?). exists m1, m2. auto. Qed.

Section merkle.
Context (node_msg : Hash → Hash → bytes) (dup : bool).

Definition node (left right : Hash) : Hash := sha256 (node_msg left right).

(** One pass of the level loop. *)
Fixpoint level_up (level : list Hash) : list Hash :=
  match level with
  | [] => []
  | [a] => [if dup then node a a else a]
  | a :: b :: rest => node a b :: level_up rest
  end.

(** [for len(level) > 1 { level = next }] *)
Fixpoint root_loop (fuel : nat) (level : list Hash) : list Hash :=
  match fuel with
  | O => level
  | S fuel =>
      if bool_decide (1 < length level)%nat then root_loop fuel (level_up level) else level
  end.

Definition merkle_root (leaves : list Hash) : Hash :=
  default zero_hash (root_loop (length leaves) leaves !! 0%nat).

(** The step of a path from position [index] of a level: whether the sibling
    is on the left, and its hash; a promoted node has no step. *)
Definition path_step (level : list Hash) (index : nat) : list (bool * Hash) :=
  if Nat.even index then
    match level !! S index with
    | Some h => [(false, h)]
    | None => if dup then [(false, default zero_hash (level !! index))] else []
    end
  else [(true, default zero_hash (level !! (index - 1)%nat))].

Fixpoint path_loop (fuel : nat) (level : list Hash) (index : nat) : list (bool * Hash) :=
  match fuel with
  | O => []
  | S fuel =>
      if bool_decide (1 < length level)%nat
      then path_step level index ++ path_loop fuel (level_up level) (index / 2)
      else []
  end.

Definition merkle_path (leaves : list Hash) (index : nat) : list (bool * Hash) :=
  path_loop (length leaves) leaves index.

(** Folding a path from a leaf hash. *)
Definition apply_step (current : Hash) (step : bool * Hash) : Hash :=
  if step.1 then node step.2 current else node current step.2.

Definition apply_path (leaf : Hash) (path : list (bool * Hash)) : Hash :=
  foldl apply_step leaf path.

(** ** Levels *)

(** Induction two elements at a time, as the level loop proceeds. *)
Lemma list_pair_ind {A} (P : list A → Prop) :
  P [] → (∀ a, P [a]) → (∀ a b l, P l → P (a :: b :: l)) → ∀ l, P l.
Proof.
  intros H0 H1 H2 l. enough (P l ∧ ∀ a, P (a :: l)) by tauto.
  induction l as [|a l [IH1 IH2]]; auto.
Qed.

Lemma level_up_length l : length (level_up l) = ((length l + 1) / 2)%nat.
Proof.
  induction l as [|a|a b l IH] using list_pair_ind; [done|done|]. simpl level_up.
  cbn [length]. rewrite IH. replace (S (S (length l)) + 1)%nat with (length l + 1 + 1 * 2)%nat by lia.
  rewrite Nat.div_add by lia. lia.
Qed.

Lemma level_up_shorter l : (1 < length l)%nat → (0 < length (level_up l) < length l)%nat.
Proof.
  intros Hl. rewrite level_up_length. pose proof (Nat.div_mod (length l + 1) 2).
  pose proof (Nat.mod_upper_bound (length l + 1) 2). lia.
Qed.

Lemma level_up_lookup l i :
  level_up l !! i =
    match l !! (2 * i)%nat, l !! S (2 * i) with
    | Some a, Some b => Some (node a b)
    | Some a, None => Some (if dup then node a a else a)
    | None, _ => None
    end.
Proof.
  revert i. induction l as [|a|a b l IH] using list_pair_ind; intros i; [done|by destruct i|].
  destruct i as [|i]; [done|]. simpl level_up. simpl. rewrite IH.
  by replace (i + S (i + 0))%nat with (S (2 * i)) by lia.
Qed.

(** The fuel is enough: the loop ends with a single hash. *)
Lemma root_loop_single fuel l :
  (0 < length l ≤ fuel)%nat → ∃ h, root_loop fuel l = [h].
Proof.
  revert l. induction fuel as [|fuel IH]; intros l Hl; simpl; [lia|].
  case_bool_decide as Hlen.
  - apply IH. pose proof (level_up_shorter l Hlen). lia.
  - destruct l as [|h [|? l]]; simpl in *; [lia|by exists h|lia].
Qed.

(** ** Completeness *)

Lemma path_step_up l i h :
  l !! i = Some h → (1 < length l)%nat →
  level_up l !! (i / 2)%nat = Some (apply_path h (path_step l i)).
Proof.
  intros Hi Hl. rewrite level_up_lookup. unfold path_step, apply_path.
  pose proof (Nat.div_mod i 2 ltac:(lia)) as Hdm.
  destruct (Nat.even i) eqn:He.
  - assert (i mod 2 = 0)%nat as Hm.
    { apply Nat.even_spec in He as [k ->]. rewrite Nat.mul_comm. by apply Nat.Div0.mod_mul. }
    replace (2 * (i / 2))%nat with i by lia. rewrite Hi.
    destruct (l !! S i) as [b|]; [done|]. by destruct dup.
  - assert (i mod 2 = 1)%nat as Hm.
    { pose proof (Nat.mod_upper_bound i 2). rewrite <-Nat.negb_odd in He.
      apply negb_false_iff, Nat.odd_spec in He as [k ->].
      rewrite Nat.add_mod, Nat.mul_comm, Nat.Div0.mod_mul by lia. done. }
    replace (S (2 * (i / 2)))%nat with i by lia. rewrite Hi.
    replace (2 * (i / 2))%nat with (i - 1)%nat by lia.
    destruct (lookup_lt_is_Some_2 l (i - 1)) as [a Ha].
    { apply lookup_lt_Some in Hi. lia. }
    by rewrite Ha.
Qed.

Lemma path_loop_root fuel l i h :
  l !! i = Some h → (length l ≤ fuel)%nat →
  root_loop fuel l = [apply_path h (path_loop fuel l i)].
Proof.
  revert l i h. induction fuel as [|fuel IH]; intros l i h Hi Hl;
    pose proof (lookup_lt_Some _ _ _ Hi) as Hlt; simpl; [lia|].
  case_bool_decide as Hlen.
  - unfold apply_path. rewrite foldl_app. apply IH.
    + by apply path_step_up.
    + pose proof (level_up_shorter l Hlen). lia.
  - destruct l as [|x [|? l]]; simpl in *; [lia| |lia]. destruct i; [|lia].
    by injection Hi as ->.
Qed.

(** The path of a leaf leads to the root. *)
Lemma merkle_path_complete l i h :
  l !! i = Some h → apply_path h (merkle_path l i) = merkle_root l.
Proof.
  intros Hi. unfold merkle_root, merkle_path.
  by rewrite (path_loop_root (length l) l i h Hi) by done.
Qed.
(** ** Soundness *)

(** The messages hashed by one level, by the whole tree above the leaves, and
    by the verification of a path. *)
Fixpoint pair_messages (level : list Hash) : list bytes :=
  match level with
  | [] => []
  | [a] => if dup then [node_msg a a] else []
  | a :: b :: rest => node_msg a b :: pair_messages rest
  end.

Fixpoint tree_messages (fuel : nat) (level : list Hash) : list bytes :=
  match fuel with
  | O => []
  | S fuel =>
      if bool_decide (1 < length level)%nat
      then pair_messages level ++ tree_messages fuel (level_up level) else []
  end.

Definition step_message (current : Hash) (step : bool * Hash) : bytes :=
  if step.1 then node_msg step.2 current else node_msg current step.2.

Fixpoint path_messages (current : Hash) (path : list (bool * Hash)) : list bytes :=
  match path with
  | [] => []
  | step :: path => step_message current step :: path_messages (apply_step current step) path
  end.

(** A hash the tree is built from, with the messages that produced it. *)
Inductive known (leaves : list Hash) (msgs : list bytes) : Hash → Prop :=
| known_leaf h : h ∈ leaves → known leaves msgs h
| known_node a b :
    node_msg a b ∈ msgs → known leaves msgs a → known leaves msgs b →
    known leaves msgs (node a b).

Lemma level_up_known leaves msgs l :
  Forall (known leaves msgs) l → pair_messages l ⊆ msgs →
  Forall (known leaves msgs) (level_up l).
Proof.
  induction l as [|a|a b l IH] using list_pair_ind; intros Hl Hsub; simpl; [done| |].
  - apply Forall_singleton. rewrite Forall_singleton in Hl.
    simpl in Hsub. destruct dup; [|done]. constructor; [set_solver|done..].
  - apply Forall_cons in Hl as [Ha Hl]. apply Forall_cons in Hl as [Hb Hl].
    simpl in Hsub. apply Forall_cons. split; [constructor; [set_solver|done..]|].
    apply IH; [done|set_solver].
Qed.

Lemma root_loop_known leaves msgs fuel l :
  Forall (known leaves msgs) l → tree_messages fuel l ⊆ msgs →
  Forall (known leaves msgs) (root_loop fuel l).
Proof.
  revert l. induction fuel as [|fuel IH]; intros l Hl Hsub; simpl in *; [done|].
  case_bool_decide; [|done]. apply IH; [apply level_up_known; [done|set_solver]|set_solver].
Qed.

Lemma merkle_root_known leaves :
  leaves ≠ [] →
  known leaves (tree_messages (length leaves) leaves) (merkle_root leaves).
Proof.
  intros Hne. unfold merkle_root.
  destruct (root_loop_single (length leaves) leaves) as [h Hh].
  { destruct leaves; simpl; [done|lia]. }
  pose proof (root_loop_known leaves (tree_messages (length leaves) leaves)
    (length leaves) leaves) as Hk.
  rewrite Hh in *. simpl. rewrite Forall_singleton in Hk. apply Hk; [|done].
  apply Forall_forall. intros. by constructor.
Qed.

(** The verification of a tree's own path hashes messages of the tree. *)
Lemma path_step_messages l i h :
  l !! i = Some h → path_messages h (path_step l i) ⊆ pair_messages l.
Proof.
  revert i. induction l as [|a|a b l IH] using list_pair_ind; intros i Hi m.
  - done.
  - destruct i as [|[|i]]; simpl in Hi; [|done..]. injection Hi as ->.
    unfold path_step. simpl. by destruct dup.
  - destruct i as [|[|i]]; simpl in Hi.
    + injection Hi as ->. unfold path_step. simpl. rewrite list_elem_of_singleton.
      intros ->. by left.
    + injection Hi as ->. unfold path_step. simpl. rewrite list_elem_of_singleton.
      intros ->. by left.
    + intros Hm. simpl. right. apply (IH i Hi). revert Hm.
      unfold path_step. cbn [Nat.even]. destruct (Nat.even i) eqn:He; [done|].
      destruct i as [|i]; [done|]. simpl. by rewrite Nat.sub_0_r.
Qed.

Lemma path_messages_app h p1 p2 :
  path_messages h (p1 ++ p2) = path_messages h p1 ++ path_messages (apply_path h p1) p2.
Proof. revert h. induction p1 as [|s p1 IH]; intros h; [done|]. simpl. by rewrite IH. Qed.

Lemma path_loop_messages fuel l i h :
  l !! i = Some h → path_messages h (path_loop fuel l i) ⊆ tree_messages fuel l.
Proof.
  revert l i h. induction fuel as [|fuel IH]; intros l i h Hi m; simpl; [done|].
  case_bool_decide as Hlen; [|done]. rewrite path_messages_app, !elem_of_app.
  intros [Hm|Hm]; [left; by eapply path_step_messages|right].
  eapply IH; [|done]. by apply path_step_up.
Qed.

Context (node_msg_inj : ∀ a b c d, node_msg a b = node_msg c d → a = c ∧ b = d).

(** Descending a path from a hash of the tree stays in the tree or exhibits a
    collision; [leaf_msgs] are the messages of the leaves. *)
Lemma apply_path_known leaf_msgs msgs h path :
  (∀ m a b, m ∈ leaf_msgs → m ≠ node_msg a b) →
  known (sha256 <$> leaf_msgs) msgs (apply_path h path) →
  known (sha256 <$> leaf_msgs) msgs h ∨
  collision (path_messages h path) (leaf_msgs ++ msgs).
Proof using node_msg_inj.
  intros Hsep. revert h. induction path as [|[side s] path IH]; intros h Hk; [by left|].
  cbn [apply_path foldl] in Hk. destruct (IH _ Hk) as [Hk'|Hc]; last first.
  { right. eapply collision_mono; [|done|done]. intros x Hx. by right. }
  clear IH Hk. cbn [path_messages]. set (m := step_message h (side, s)).
  assert (apply_step h (side, s) = sha256 m) as Hm by (by destruct side).
  rewrite Hm in Hk'. remember (sha256 m) as x eqn:Hx. destruct Hk' as [x Hin|a b Hab Ha Hb].
  - apply list_elem_of_fmap in Hin as (ml & -> & Hml). right.
    exists m, ml. split_and!; [by left|apply elem_of_app; by left| |exact (eq_sym Hx)].
    unfold m. destruct side; apply not_eq_sym; by apply Hsep.
  - destruct (collision_or_eq (m :: path_messages (apply_step h (side, s)) path)
      (leaf_msgs ++ msgs) m (node_msg a b)) as [Heq|Hc];
      [by left|apply elem_of_app; by right|exact (eq_sym Hx)| |by right].
    left. unfold m in Heq. destruct side; apply node_msg_inj in Heq as [??]; by subst.
Qed.

(** A path that leads from the hash of [m] to the root of the tree over the
    hashes of [leaf_msgs]: [m] is one of them, or there is a collision. *)
Lemma merkle_path_sound leaf_msgs m path :
  leaf_msgs ≠ [] →
  (∀ ml a b, ml ∈ m :: leaf_msgs → ml ≠ node_msg a b) →
  apply_path (sha256 m) path = merkle_root (sha256 <$> leaf_msgs) →
  m ∈ leaf_msgs ∨
  collision (m :: path_messages (sha256 m) path)
    (leaf_msgs ++ tree_messages (length leaf_msgs) (sha256 <$> leaf_msgs)).
Proof using node_msg_inj.
  intros Hne Hsep Heq.
  pose proof (merkle_root_known (sha256 <$> leaf_msgs)) as Hk.
  rewrite length_fmap, <-Heq in Hk.
  specialize (Hk ltac:(by intros ?%fmap_nil_inv)).
  apply apply_path_known in Hk as [Hk|Hc];
    [|right; eapply collision_mono; [|done|done]; intros x Hx; by right
     |intros ml a b Hml; apply Hsep; by right].
  - remember (sha256 m) as x eqn:Hx. destruct Hk as [x Hin|a b Hab _ _].
    + apply list_elem_of_fmap in Hin as (ml & -> & Hml).
      destruct (collision_or_eq (m :: path_messages (sha256 ml) path)
        (leaf_msgs ++ tree_messages (length leaf_msgs) (sha256 <$> leaf_msgs)) m ml)
        as [->|Hc]; [by left|apply elem_of_app; by left|exact (eq_sym Hx)|by left|by right].
    + right. exists m, (node_msg a b).
      split_and!; [by left|apply elem_of_app; by right| |exact (eq_sym Hx)].
      apply Hsep. by left.
Qed.
End merkle.
