(* ===== verification/Types.v ===== *)
(** * Shared types and quorum arithmetic ([src/types/types.go])

    Heights, rounds and voting powers are [uint64]; identifiers are Go strings;
    hashes are [[32]byte].  The quorum threshold is computed on machine
    integers, and the section on quorums relates it to exact arithmetic. *)

From S2P Require Import Prelude GoLib Sha256.

Abbreviation Address := string.
Abbreviation ValidatorID := string.
Abbreviation Tx := (list byte).
Abbreviation Height := Z.
Abbreviation Round := Z.
Abbreviation VotingPower := Z.
Abbreviation Signature := (list byte).
Abbreviation PublicKey := (list byte).
Abbreviation AggregateSignature := (list byte).
Abbreviation Bitmap := (list byte).

Definition ErrVotingPowerOverflow := ErrNew "types.ErrVotingPowerOverflow".

Record ValidatorUpdate := mkValidatorUpdate {
  Update_ID : ValidatorID;
  Update_Address : Address;
  Update_PublicKey : PublicKey;
  Update_VotingPower : VotingPower;
  Update_Stake : Z;
  Update_Metadata : gmap string string
}.

Record Header := mkHeader {
  Header_ChainID : string;
  Header_Height : Height;
  Header_TimeUnixNano : Z;
  Header_PreviousBlockHash : Hash;
  Header_AppHash : Hash;
  Header_ValidatorSetHash : Hash;
  Header_ConsensusHash : Hash;
  Header_TxRoot : Hash
}.

Record Block := mkBlock {
  Block_Header : Header;
  Block_Txs : list Tx
}.

Record Result := mkResult {
  Result_Code : Z;
  Result_Log : string;
  Result_Data : bytes;
  Result_GasUsed : Z;
  Result_FeePaid : Z
}.

#[global] Instance Header_eq_dec : EqDecision Header.
Proof. solve_decision. Defined.
#[global] Instance Block_eq_dec : EqDecision Block.
Proof. solve_decision. Defined.
#[global] Instance Result_eq_dec : EqDecision Result.
Proof. solve_decision. Defined.

(** [bits.Add64(x, y, 0)]: the sum modulo 2^64 and the carry. *)
Definition Add64 (x y : Z) : Z * Z := (wrap64 (x + y), (x + y) / two64).

Definition AddVotingPower (left right : VotingPower) : result VotingPower :=
  let '(sum, carry) := Add64 left right in
  if bool_decide (carry ≠ 0) then Err ErrVotingPowerOverflow else Ok sum.

Definition AddUint64 (left right : Z) : result Z :=
  let '(sum, carry) := Add64 left right in
  if bool_decide (carry ≠ 0) then Err ErrVotingPowerOverflow else Ok sum.

Definition MustAddUint64Saturating (left right : Z) : Z :=
  match AddUint64 left right with Ok sum => sum | Err _ => max_u64 end.

Definition MustAddVotingPowerSaturating (left right : VotingPower) : VotingPower :=
  match AddVotingPower left right with Ok sum => sum | Err _ => max_u64 end.

Definition TwoThirdsQuorumThreshold (total : VotingPower) : VotingPower :=
  if bool_decide (total = 0) then 0
  else
    let base := wrap64 (total / 3 * 2) in
    let remainder := total mod 3 in
    let extra := if bool_decide (0 < remainder) then wrap64 (remainder * 2 + 2) / 3 else 0 in
    MustAddVotingPowerSaturating base extra.

Definition HasTwoThirdsQuorum (power total : VotingPower) : bool :=
  if bool_decide (total = 0) then false
  else bool_decide (TwoThirdsQuorumThreshold total ≤ power).

(** ** Exact behaviour of the machine additions *)

Lemma AddVotingPower_spec x y :
  is_u64 x → is_u64 y →
  AddVotingPower x y =
    if bool_decide (x + y < two64) then Ok (x + y) else Err ErrVotingPowerOverflow.
Proof.
  intros [??] [??]. unfold AddVotingPower, Add64.
  destruct (decide (x + y < two64)) as [Hlt|Hge].
  - rewrite Z.div_small, (bool_decide_eq_true_2 (_ < _)) by lia.
    rewrite bool_decide_eq_false_2 by lia. f_equal. apply wrap64_small. split; lia.
  - rewrite (bool_decide_eq_false_2 (_ < _)) by lia.
    rewrite bool_decide_eq_true_2; [done|].
    pose proof (Z.div_le_lower_bound (x + y) two64 1). unfold two64 in *. lia.
Qed.

Lemma AddVotingPower_Ok x y z :
  is_u64 x → is_u64 y → AddVotingPower x y = Ok z → z = x + y ∧ is_u64 z.
Proof.
  intros Hx Hy. rewrite AddVotingPower_spec by done.
  case_bool_decide; intros; simplify_eq. unfold is_u64 in *. lia.
Qed.

Lemma MustAddVotingPowerSaturating_spec x y :
  is_u64 x → is_u64 y → MustAddVotingPowerSaturating x y = Z.min (x + y) max_u64.
Proof.
  intros Hx Hy. unfold MustAddVotingPowerSaturating.
  rewrite AddVotingPower_spec by done. unfold is_u64, two64, max_u64 in *.
  case_bool_decide; lia.
Qed.

Lemma AddUint64_eq : AddUint64 = AddVotingPower.
Proof. done. Qed.

(** ** Quorums *)

(** The threshold is the exact ceiling of two thirds; nothing overflows. *)
Lemma TwoThirdsQuorumThreshold_ceil total :
  is_u64 total → TwoThirdsQuorumThreshold total = (2 * total + 2) / 3.
Proof.
  intros Ht. unfold TwoThirdsQuorumThreshold. unfold is_u64, two64 in Ht.
  case_bool_decide as H0; [by subst|].
  pose proof (Z.div_mod total 3 ltac:(lia)) as Hdm.
  pose proof (Z.mod_pos_bound total 3 ltac:(lia)) as Hm.
  set (q := total / 3) in *. set (m := total mod 3) in *.
  rewrite (wrap64_small (q * 2)) by (unfold is_u64, two64; lia).
  rewrite (wrap64_small (m * 2 + 2)) by (unfold is_u64, two64; lia).
  rewrite MustAddVotingPowerSaturating_spec;
    [unfold max_u64|unfold is_u64, two64; lia|
     case_bool_decide; unfold is_u64, two64; [|lia];
     assert (m = 1 ∨ m = 2) as [-> | ->] by lia; by vm_compute].
  assert (m = 0 ∨ m = 1 ∨ m = 2) as [Hm0|[Hm0|Hm0]] by lia; rewrite Hm0 in *.
  all: case_bool_decide; try lia.
  - replace (2 * total + 2) with (2 + (2 * q) * 3) by lia. rewrite Z.div_add by lia.
    change (2 / 3) with 0. lia.
  - replace (2 * total + 2) with (4 + (2 * q) * 3) by lia. rewrite Z.div_add by lia.
    change ((1 * 2 + 2) / 3) with 1. change (4 / 3) with 1. lia.
  - replace (2 * total + 2) with (6 + (2 * q) * 3) by lia. rewrite Z.div_add by lia.
    change ((2 * 2 + 2) / 3) with 2. change (6 / 3) with 2. lia.
Qed.

Lemma HasTwoThirdsQuorum_iff power total :
  is_u64 total →
  HasTwoThirdsQuorum power total = true ↔ 0 < total ∧ 2 * total ≤ 3 * power.
Proof.
  intros Ht. unfold HasTwoThirdsQuorum. rewrite TwoThirdsQuorumThreshold_ceil by done.
  unfold is_u64 in Ht.
  pose proof (Z.div_mod (2 * total + 2) 3 ltac:(lia)).
  pose proof (Z.mod_pos_bound (2 * total + 2) 3 ltac:(lia)).
  case_bool_decide; [lia|]. rewrite bool_decide_eq_true. lia.
Qed.
