(* ===== verification/Strconv.v ===== *)
(** * Go's [strings], [strconv] and [encoding/base64]

    Prefixes, cutting and decimal numbers of strings, and base64 with its round
    trip. *)

From S2P Require Import Prelude GoLib.

(** ** [strings] and [strconv] *)

Definition has_prefix (s prefix : string) : bool := String.prefix prefix s.

Lemma has_prefix_app p s : has_prefix (p ++ s) p = true.
Proof.
  unfold has_prefix. induction p as [|a p IH]; [by destruct s|].
  change (String a p ++ s)%string with (String a (p ++ s)). cbn [String.prefix].
  by destruct (ascii_dec a a).
Qed.

(** [strings.TrimPrefix] of a string that has the prefix. *)
Definition trim_prefix (s prefix : string) : string :=
  if has_prefix s prefix
  then String.substring (String.length prefix) (String.length s - String.length prefix) s
  else s.

(** [strings.Cut(s, sep)] for a one-byte separator. *)
Fixpoint str_cut (sep : ascii) (s : string) : option (string * string) :=
  match s with
  | EmptyString => None
  | String a s =>
      if bool_decide (a = sep) then Some (EmptyString, s)
      else '(before, after) ← str_cut sep s; Some (String a before, after)
  end.

Definition digit_value (a : ascii) : option Z :=
  let n := Z.of_N (N_of_ascii a) in
  if bool_decide (48 ≤ n ≤ 57) then Some (n - 48) else None.

Fixpoint parse_digits (acc : Z) (s : string) : option Z :=
  match s with
  | EmptyString => Some acc
  | String a s =>
      d ← digit_value a;
      let acc := acc * 10 + d in
      if bool_decide (max_u64 < acc) then None else parse_digits acc s
  end.

(** [strconv.ParseUint(s, 10, 64)]: [None] on a syntax or range error. *)
Definition parse_uint (s : string) : option Z :=
  match s with EmptyString => None | _ => parse_digits 0 s end.

(** ** [base64.StdEncoding.DecodeString] *)

Definition base64_value (b : byte) : option Z :=
  let n := byte_to_Z b in
  if bool_decide (65 ≤ n ≤ 90) then Some (n - 65)
  else if bool_decide (97 ≤ n ≤ 122) then Some (n - 71)
  else if bool_decide (48 ≤ n ≤ 57) then Some (n + 4)
  else if bool_decide (n = 43) then Some 62
  else if bool_decide (n = 47) then Some 63
  else None.

(** The decoder skips carriage returns and newlines. *)
Definition base64_significant (b : byte) : bool :=
  negb (bool_decide (byte_to_Z b = 10) || bool_decide (byte_to_Z b = 13)).

(** Quanta of four symbols; padding only at the end, and the unused low bits
    of the last symbol are not checked. *)
Fixpoint base64_quanta (data : bytes) : option bytes :=
  match data with
  | [] => Some []
  | c0 :: c1 :: c2 :: c3 :: rest =>
      v0 ← base64_value c0;
      v1 ← base64_value c1;
      let n01 := v0 * 64 + v1 in
      match base64_value c2, base64_value c3 with
      | Some v2, Some v3 =>
          let n := (n01 * 64 + v2) * 64 + v3 in
          out ← base64_quanta rest;
          Some (be_encode 3 n ++ out)
      | Some v2, None =>
          if bool_decide (byte_to_Z c3 = 61) && bool_decide (rest = [])
          then Some (take 2 (be_encode 3 ((n01 * 64 + v2) * 64))) else None
      | None, _ =>
          if bool_decide (byte_to_Z c2 = 61) && bool_decide (byte_to_Z c3 = 61)
             && bool_decide (rest = [])
          then Some (take 1 (be_encode 3 (n01 * 64 * 64))) else None
      end
  | _ => None
  end.

Definition base64_decode (s : string) : option bytes :=
  base64_quanta (filter (λ b, base64_significant b = true) (bytes_of_string s)).

Module Base64Vectors.
Example base64_foobar : base64_decode "Zm9vYmFy" = Some (bytes_of_string "foobar").
Proof. reflexivity. Qed.
Example base64_foob : base64_decode "Zm9vYg==" = Some (bytes_of_string "foob").
Proof. reflexivity. Qed.
Example base64_fooba : base64_decode "Zm9vYmE=" = Some (bytes_of_string "fooba").
Proof. reflexivity. Qed.
Example base64_bad : base64_decode "Zm9vYg=" = None.
Proof. reflexivity. Qed.
End Base64Vectors.

(** ** [base64.StdEncoding.EncodeToString] *)

Definition base64_char (v : Z) : ascii :=
  ascii_of_N (Z.to_N (if bool_decide (v < 26) then 65 + v
    else if bool_decide (v < 52) then 71 + v
    else if bool_decide (v < 62) then v - 4
    else if bool_decide (v = 62) then 43 else 47)).

Fixpoint base64_encode (data : bytes) : string :=
  match data with
  | [] => EmptyString
  | [a] =>
      let n := byte_to_Z a * 16 in
      String (base64_char (n / 64)) (String (base64_char (n mod 64)) "==")
  | [a; b] =>
      let n := (byte_to_Z a * 256 + byte_to_Z b) * 4 in
      String (base64_char (n / 4096))
        (String (base64_char (n / 64 mod 64)) (String (base64_char (n mod 64)) "="))
  | a :: b :: c :: rest =>
      let n := (byte_to_Z a * 256 + byte_to_Z b) * 256 + byte_to_Z c in
      String (base64_char (n / 262144))
        (String (base64_char (n / 4096 mod 64))
           (String (base64_char (n / 64 mod 64))
              (String (base64_char (n mod 64)) (base64_encode rest))))
  end.

(** ** Base64 round trip *)

Lemma bytes_of_string_cons a s : bytes_of_string (String a s) = byte_of_ascii a :: bytes_of_string s.
Proof. done. Qed.

Definition base64_char_ok (v : Z) : bool :=
  bool_decide (base64_value (byte_of_ascii (base64_char v)) = Some v) &&
  base64_significant (byte_of_ascii (base64_char v)).

Lemma base64_char_spec v :
  0 ≤ v < 64 →
  base64_value (byte_of_ascii (base64_char v)) = Some v ∧
  base64_significant (byte_of_ascii (base64_char v)) = true.
Proof.
  intros Hv. assert (forallb base64_char_ok (seqZ 0 64) = true) as Hall by (vm_compute; reflexivity).
  rewrite forallb_forall in Hall. specialize (Hall v).
  unfold base64_char_ok in Hall. rewrite andb_true_iff, bool_decide_eq_true in Hall.
  apply Hall, list_elem_of_In, elem_of_seqZ. lia.
Qed.

Lemma be_encode_decode l : be_encode (length l) (be_decode l) = l.
Proof.
  induction l as [|b l IH]; [done|]. cbn [length be_encode be_decode].
  pose proof (be_decode_range l) as Hr. pose proof (byte_to_Z_range b) as Hb.
  rewrite Z.div_add_l, Z.div_small, Z.add_0_r, byte_of_Z_to_Z by lia. f_equal.
  trans (be_encode (length l) (be_decode l)); [|exact IH]. generalize (be_decode l) as z. intros z.
  assert (∀ n z k, (n ≤ k)%nat → be_encode n (byte_to_Z b * 256 ^ Z.of_nat k + z) = be_encode n z) as Hshift.
  { clear. induction n as [|n IH]; intros z k Hk; [done|]. cbn [be_encode]. rewrite IH by lia. f_equal.
    replace (Z.of_nat k) with (Z.of_nat n + 1 + Z.of_nat (k - n - 1)) by lia.
    rewrite !Z.pow_add_r by lia. unfold byte_of_Z. do 3 f_equal.
    replace (byte_to_Z b * (256 ^ Z.of_nat n * 256 ^ 1 * 256 ^ Z.of_nat (k - n - 1)) + z)
      with (byte_to_Z b * 256 ^ Z.of_nat (k - n - 1) * 256 * 256 ^ Z.of_nat n + z) by ring.
    rewrite Z.div_add_l by (apply Z.pow_nonzero; lia).
    by rewrite Z.add_comm, Z.mod_add by lia. }
  by apply Hshift.
Qed.

Lemma filter_significant c l :
  base64_significant c = true →
  filter (λ b, base64_significant b = true) (c :: l) =
    c :: filter (λ b, base64_significant b = true) l.
Proof. intros Hc. by rewrite filter_cons_True. Qed.

(** Linear arithmetic with division by constants. *)
Ltac div_lia := Z.div_mod_to_equations; lia.

(** The symbols of one quantum. *)
Ltac base64_symbols :=
  repeat match goal with
  | |- context [filter _ (byte_of_ascii (base64_char ?v) :: _)] =>
      rewrite (filter_significant (byte_of_ascii (base64_char v)) _
        (proj2 (base64_char_spec v ltac:(div_lia))))
  end;
  cbn [base64_quanta];
  repeat match goal with
  | |- context [base64_value (byte_of_ascii (base64_char ?v))] =>
      rewrite (proj1 (base64_char_spec v ltac:(div_lia)))
  end; cbn [mbind option_bind].

Lemma base64_decode_encode data : base64_decode (base64_encode data) = Some data.
Proof.
  unfold base64_decode.
  assert (∀ n data, (length data ≤ n)%nat →
    base64_quanta (filter (λ b, base64_significant b = true)
      (bytes_of_string (base64_encode data))) = Some data) as Hgen; [|by eapply Hgen].
  clear data. induction n as [|n IH]; intros [|a [|b [|c rest]]] Hlen; cbn [length] in Hlen; try lia;
    [done|done|..]; cbn [base64_encode]; rewrite !bytes_of_string_cons;
    pose proof (byte_to_Z_range a) as Ha.
  - set (n0 := byte_to_Z a * 16). assert (0 ≤ n0 < 4096) as Hn by lia.
    base64_symbols.
    change (filter _ (byte_of_ascii "=" :: _)) with [x3d; x3d]. cbn beta iota.
    change (base64_value x3d) with (@None Z). change (bool_decide (byte_to_Z x3d = 61)) with true.
    cbn [andb bool_decide decide]. rewrite bool_decide_eq_true_2 by done.
    replace ((n0 / 64 * 64 + n0 mod 64) * 64 * 64) with (be_decode [a; x00; x00])
      by (cbn [be_decode length]; change (byte_to_Z x00) with 0; div_lia).
    change 3%nat with (length [a; x00; x00]). by rewrite be_encode_decode.
  - pose proof (byte_to_Z_range b) as Hb.
    set (n0 := (byte_to_Z a * 256 + byte_to_Z b) * 4). assert (0 ≤ n0 < 262144) as Hn by lia.
    base64_symbols. change (filter _ (byte_of_ascii "=" :: _)) with [x3d]. cbn beta iota.
    base64_symbols.
    change (base64_value x3d) with (@None Z). change (bool_decide (byte_to_Z x3d = 61)) with true.
    cbn [andb]. rewrite bool_decide_eq_true_2 by done.
    replace (((n0 / 4096 * 64 + n0 / 64 mod 64) * 64 + n0 mod 64) * 64) with (be_decode [a; b; x00])
      by (cbn [be_decode length]; change (byte_to_Z x00) with 0; div_lia).
    change 3%nat with (length [a; b; x00]). by rewrite be_encode_decode.
  - pose proof (byte_to_Z_range b) as Hb. pose proof (byte_to_Z_range c) as Hc.
    set (n0 := (byte_to_Z a * 256 + byte_to_Z b) * 256 + byte_to_Z c).
    assert (0 ≤ n0 < 16777216) as Hn by lia.
    base64_symbols. rewrite IH by (cbn in Hlen; lia). cbn [mbind option_bind].
    replace (((n0 / 262144 * 64 + n0 / 4096 mod 64) * 64 + n0 / 64 mod 64) * 64 + n0 mod 64)
      with (be_decode [a; b; c]) by (cbn [be_decode length]; div_lia).
    change 3%nat with (length [a; b; c]). by rewrite be_encode_decode.
Qed.


(** ** [base64.RawStdEncoding] *)

(** Quanta without padding. *)
Fixpoint base64_raw_quanta (data : bytes) : option bytes :=
  match data with
  | [] => Some []
  | c0 :: c1 :: rest =>
      v0 ← base64_value c0;
      v1 ← base64_value c1;
      match rest with
      | [] => Some (take 1 (be_encode 3 ((v0 * 64 + v1) * 64 * 64)))
      | c2 :: rest =>
          v2 ← base64_value c2;
          match rest with
          | [] => Some (take 2 (be_encode 3 (((v0 * 64 + v1) * 64 + v2) * 64)))
          | c3 :: rest =>
              v3 ← base64_value c3;
              out ← base64_raw_quanta rest;
              Some (be_encode 3 (((v0 * 64 + v1) * 64 + v2) * 64 + v3) ++ out)
          end
      end
  | _ => None
  end.

Definition base64_raw_decode (s : string) : option bytes :=
  base64_raw_quanta (filter (λ b, base64_significant b = true) (bytes_of_string s)).

(** The text of [StdEncoding] without its padding. *)
Fixpoint base64_raw_encode (data : bytes) : string :=
  match data with
  | [] => EmptyString
  | [a] =>
      let n := byte_to_Z a * 16 in String (base64_char (n / 64)) (String (base64_char (n mod 64)) "")
  | [a; b] =>
      let n := (byte_to_Z a * 256 + byte_to_Z b) * 4 in
      String (base64_char (n / 4096))
        (String (base64_char (n / 64 mod 64)) (String (base64_char (n mod 64)) ""))
  | a :: b :: c :: rest =>
      let n := (byte_to_Z a * 256 + byte_to_Z b) * 256 + byte_to_Z c in
      String (base64_char (n / 262144))
        (String (base64_char (n / 4096 mod 64))
           (String (base64_char (n / 64 mod 64))
              (String (base64_char (n mod 64)) (base64_raw_encode rest))))
  end.

Module RawBase64Vectors.
Example raw_foob : base64_raw_decode "Zm9vYg" = Some (bytes_of_string "foob").
Proof. reflexivity. Qed.
Example raw_fooba : base64_raw_decode (base64_raw_encode (bytes_of_string "fooba")) = Some (bytes_of_string "fooba").
Proof. reflexivity. Qed.
Example raw_padded : base64_raw_decode "Zm9vYg==" = None.
Proof. reflexivity. Qed.
End RawBase64Vectors.
