(* ===== verification/Text.v ===== *)
(** * More of Go's [strings], [encoding/hex] and [math/big]

    Text functions used by the application layer: hexadecimal encoding, white
    space and case, suffixes, decimal numbers and the byte form of big
    integers. *)

From S2P Require Import Prelude GoLib Strconv.

(** ** [encoding/hex] *)

Definition hex_digit (z : Z) : ascii :=
  ascii_of_N (Z.to_N (if bool_decide (z < 10) then 48 + z else 87 + z)).

(** [hex.EncodeToString] *)
Fixpoint hex_encode (b : bytes) : string :=
  match b with
  | [] => EmptyString
  | x :: b =>
      String (hex_digit (byte_to_Z x / 16)) (String (hex_digit (byte_to_Z x mod 16)) (hex_encode b))
  end.

Definition unhex (a : ascii) : option Z :=
  let n := Z.of_N (N_of_ascii a) in
  if bool_decide (48 ≤ n ≤ 57) then Some (n - 48)
  else if bool_decide (97 ≤ n ≤ 102) then Some (n - 87)
  else if bool_decide (65 ≤ n ≤ 70) then Some (n - 55)
  else None.

(** [hex.DecodeString]; an odd length is an error. *)
Fixpoint hex_decode (s : string) : option bytes :=
  match s with
  | EmptyString => Some []
  | String a (String b s) =>
      hi ← unhex a; lo ← unhex b; rest ← hex_decode s;
      Some (byte_of_Z (hi * 16 + lo) :: rest)
  | String _ EmptyString => None
  end.

(** Every byte survives the two hexadecimal digits. *)
Lemma hex_byte x :
  unhex (hex_digit (byte_to_Z x / 16)) = Some (byte_to_Z x / 16) ∧
  unhex (hex_digit (byte_to_Z x mod 16)) = Some (byte_to_Z x mod 16).
Proof. destruct x; vm_compute; done. Qed.

Lemma hex_decode_encode b : hex_decode (hex_encode b) = Some b.
Proof.
  induction b as [|x b IH]; [done|]. cbn [hex_encode hex_decode].
  destruct (hex_byte x) as [-> ->]. cbn [mbind option_bind]. rewrite IH. cbn [mbind option_bind].
  rewrite Z.mul_comm, <-Z.div_mod by lia. by rewrite byte_of_Z_to_Z.
Qed.

#[global] Instance hex_encode_inj : Inj (=) (=) hex_encode.
Proof.
  intros b1 b2 H. pose proof (hex_decode_encode b1) as H1. rewrite H, hex_decode_encode in H1.
  congruence.
Qed.

(** No hexadecimal digit is a colon. *)
Lemma hex_encode_no_colon b : str_elem ":" (hex_encode b) = false.
Proof. induction b as [|x b IH]; [done|]. cbn. rewrite IH. by destruct x. Qed.

Lemma hex_encode_length b : String.length (hex_encode b) = (2 * length b)%nat.
Proof. induction b as [|x b IH]; [done|]. cbn [hex_encode String.length length]. lia. Qed.

(** ** White space, case and suffixes *)

(** The UTF-8 encodings of the runes with [unicode.IsSpace]. *)
Definition space_runes : list bytes :=
  [[x09]; [x0a]; [x0b]; [x0c]; [x0d]; [x20]; [xc2; x85]; [xc2; xa0]; [xe1; x9a; x80];
   [xe2; x80; x80]; [xe2; x80; x81]; [xe2; x80; x82]; [xe2; x80; x83]; [xe2; x80; x84];
   [xe2; x80; x85]; [xe2; x80; x86]; [xe2; x80; x87]; [xe2; x80; x88]; [xe2; x80; x89];
   [xe2; x80; x8a]; [xe2; x80; xa8]; [xe2; x80; xa9]; [xe2; x80; xaf]; [xe2; x81; x9f];
   [xe3; x80; x80]].

(** The rest of [l] after one of the runes, if it starts with one. *)
Fixpoint strip_rune (runes : list bytes) (l : bytes) : option bytes :=
  match runes with
  | [] => None
  | r :: runes =>
      if bool_decide (take (length r) l = r) then Some (drop (length r) l) else strip_rune runes l
  end.

Fixpoint trim_runes (runes : list bytes) (fuel : nat) (l : bytes) : bytes :=
  match fuel with
  | O => l
  | S fuel =>
      match strip_rune runes l with Some l => trim_runes runes fuel l | None => l end
  end.

(** [strings.TrimSpace]; every rune has at least one byte, so the length of
    the string is enough fuel. *)
Definition trim_space_bytes (l : bytes) : bytes :=
  let l := trim_runes space_runes (length l) l in
  reverse (trim_runes (reverse <$> space_runes) (length l) (reverse l)).
Definition trim_space (s : string) : string :=
  string_of_bytes (trim_space_bytes (bytes_of_string s)).

(** [strings.ToLower] on the letters A to Z.  The runes outside ASCII that lower
    to ASCII letters give i and k, which no amount and no unit contains. *)
Definition lower_ascii (a : ascii) : ascii :=
  let n := N_of_ascii a in
  if bool_decide (65 ≤ n ≤ 90)%N then ascii_of_N (n + 32)%N else a.
Fixpoint to_lower (s : string) : string :=
  match s with
  | EmptyString => EmptyString
  | String a s => String (lower_ascii a) (to_lower s)
  end.

(** [strings.CutSuffix] *)
Definition cut_suffix (s suffix : string) : option string :=
  let n := (String.length s - String.length suffix)%nat in
  if bool_decide (String.length suffix ≤ String.length s)%nat &&
     bool_decide (String.substring n (String.length suffix) s = suffix)
  then Some (String.substring 0 n s) else None.

(** ** Decimal numbers *)

(** A non-empty string of decimal digits. *)
Fixpoint all_digits (s : string) : bool :=
  match s with
  | EmptyString => true
  | String a s => bool_decide (is_Some (digit_value a)) && all_digits s
  end.

(** [new(big.Int).SetString(s, 10)] on a string of digits. *)
Fixpoint big_digits (acc : Z) (s : string) : Z :=
  match s with
  | EmptyString => acc
  | String a s => big_digits (acc * 10 + default 0 (digit_value a)) s
  end.
Definition big_of_string (s : string) : Z := big_digits 0 s.

(** [strings.Repeat] of a one-byte string *)
Fixpoint str_repeat (a : ascii) (n : nat) : string :=
  match n with O => EmptyString | S n => String a (str_repeat a n) end.

Lemma big_digits_app acc s t : big_digits acc (s ++ t) = big_digits (big_digits acc s) t.
Proof. revert acc. induction s as [|a s IH]; intros acc; [done|]. apply IH. Qed.

Lemma big_digits_shift acc s :
  big_digits acc s = acc * 10 ^ Z.of_nat (String.length s) + big_of_string s.
Proof.
  unfold big_of_string. revert acc. induction s as [|a s IH]; intros acc; cbn [big_digits].
  { cbn. lia. }
  rewrite IH, (IH (0 * 10 + _)). cbn [String.length].
  rewrite Nat2Z.inj_succ, Z.pow_succ_r by lia. ring.
Qed.

Lemma big_digits_zeros acc n :
  big_digits acc (str_repeat "0" n) = acc * 10 ^ Z.of_nat n.
Proof.
  revert acc. induction n as [|n IH]; intros acc; cbn [str_repeat big_digits]; [cbn; lia|].
  rewrite IH. change (digit_value "0") with (Some 0). cbn [default from_option id].
  rewrite Nat2Z.inj_succ, Z.pow_succ_r by lia. ring.
Qed.

Lemma big_digits_nonneg acc s : 0 ≤ acc → 0 ≤ big_digits acc s.
Proof.
  revert acc. induction s as [|a s IH]; intros acc Ha; cbn [big_digits]; [done|]. apply IH.
  unfold digit_value. case_bool_decide; cbn; lia.
Qed.

(** ** Bytes of a big integer *)

Definition byte_length (z : Z) : nat := Z.to_nat ((Z.log2 z + 8) / 8).

(** [big.Int.Bytes] of a non-negative integer: big-endian, without leading
    zeros. *)
Definition big_bytes (z : Z) : bytes :=
  if bool_decide (z ≤ 0) then [] else be_encode (byte_length z) z.

(** [big.Int.BitLen] *)
Definition bit_len (z : Z) : Z := if bool_decide (z = 0) then 0 else Z.log2 (Z.abs z) + 1.

Lemma byte_length_bound z : 0 < z → z < 256 ^ Z.of_nat (byte_length z).
Proof.
  intros Hz. unfold byte_length. pose proof (Z.log2_nonneg z) as Hn.
  pose proof (Z.div_pos (Z.log2 z + 8) 8 ltac:(lia) ltac:(lia)).
  rewrite Z2Nat.id by done. destruct (Z.log2_spec z Hz) as [_ Hl].
  eapply Z.lt_le_trans; [exact Hl|]. change 256 with (2 ^ 8). rewrite <-Z.pow_mul_r by lia.
  apply Z.pow_le_mono_r; [lia|]. pose proof (Z.div_mod (Z.log2 z + 8) 8 ltac:(lia)).
  pose proof (Z.mod_pos_bound (Z.log2 z + 8) 8 ltac:(lia)). lia.
Qed.

Lemma big_bytes_decode z : 0 ≤ z → be_decode (big_bytes z) = z.
Proof.
  intros Hz. unfold big_bytes. case_bool_decide as H; [cbn; lia|].
  rewrite be_decode_encode. apply Z.mod_small. split; [done|]. apply byte_length_bound. lia.
Qed.

Lemma bit_len_le z n : 0 ≤ z → 0 ≤ n → bit_len z ≤ n ↔ z < 2 ^ n.
Proof.
  intros Hz Hn. unfold bit_len. case_bool_decide as H.
  { subst z. pose proof (Z.pow_pos_nonneg 2 n). lia. }
  rewrite Z.abs_eq by done. rewrite Z.log2_lt_pow2 by lia. lia.
Qed.

Lemma big_bytes_length z : 0 ≤ z < 2 ^ 256 → (length (big_bytes z) ≤ 32)%nat.
Proof.
  intros [Hz Hb]. unfold big_bytes. case_bool_decide as H; [cbn; lia|].
  rewrite be_encode_length. unfold byte_length.
  assert (Z.log2 z < 256) as Hl by (apply Z.log2_lt_pow2; lia).
  assert ((Z.log2 z + 8) / 8 ≤ 32) by (apply Z.lt_succ_r, Z.div_lt_upper_bound; lia). lia.
Qed.

(** ** Lemmas on strings *)

Lemma bytes_of_string_app s t :
  bytes_of_string (s ++ t)%string = bytes_of_string s ++ bytes_of_string t.
Proof.
  induction s as [|a s IH]; [done|]. change (String a s ++ t)%string with (String a (s ++ t)).
  by rewrite !bytes_of_string_cons, IH.
Qed.

Lemma string_app_nil_r (s : string) : (s ++ "")%string = s.
Proof. induction s as [|a s IH]; [done|exact (f_equal (String a) IH)]. Qed.

Lemma string_app_comp (s t u : string) : (s ++ (t ++ u))%string = ((s ++ t) ++ u)%string.
Proof. induction s as [|a s IH]; [done|exact (f_equal (String a) IH)]. Qed.

Lemma string_length_app s t : String.length (s ++ t) = (String.length s + String.length t)%nat.
Proof. induction s as [|a s IH]; [done|exact (f_equal S IH)]. Qed.

Lemma substring_suffix s t : String.substring (String.length s) (String.length t) (s ++ t) = t.
Proof.
  induction s as [|a s IH]; [|exact IH].
  induction t as [|b t IH]; [done|exact (f_equal (String b) IH)].
Qed.

Lemma substring_prefix s t : String.substring 0 (String.length s) (s ++ t) = s.
Proof. induction s as [|a s IH]; [by destruct t|exact (f_equal (String a) IH)]. Qed.

(** Cutting a suffix of the same length. *)
Lemma cut_suffix_app s t suffix :
  String.length t = String.length suffix →
  cut_suffix (s ++ t) suffix = if bool_decide (t = suffix) then Some s else None.
Proof.
  intros Hl. unfold cut_suffix. rewrite string_length_app, <-Hl.
  replace (String.length s + String.length t - String.length t)%nat with (String.length s) by lia.
  rewrite substring_suffix, substring_prefix, bool_decide_eq_true_2 by lia. done.
Qed.

Lemma to_lower_app s t : to_lower (s ++ t) = (to_lower s ++ to_lower t)%string.
Proof. induction s as [|a s IH]; [done|exact (f_equal (String (lower_ascii a)) IH)]. Qed.

Lemma all_digits_app s t : all_digits (s ++ t) = all_digits s && all_digits t.
Proof.
  induction s as [|a s IH]; [done|]. change (String a s ++ t)%string with (String a (s ++ t)).
  cbn [all_digits]. by rewrite <-andb_assoc, <-IH.
Qed.

Lemma digit_ascii a : is_Some (digit_value a) → (48 ≤ N_of_ascii a ≤ 57)%N.
Proof. unfold digit_value. intros [d Hd]. case_bool_decide; [lia|done]. Qed.

Lemma to_lower_digits s : all_digits s = true → to_lower s = s.
Proof.
  induction s as [|a s IH]; [done|]. cbn [all_digits to_lower].
  intros [Ha%bool_decide_eq_true Hs]%andb_true_iff. rewrite (IH Hs). f_equal.
  apply digit_ascii in Ha. unfold lower_ascii. rewrite bool_decide_eq_false_2 by lia. done.
Qed.

Lemma str_cut_digits sep w f :
  all_digits w = true → digit_value sep = None → str_cut sep (w ++ String sep f) = Some (w, f).
Proof.
  intros Hw Hsep. induction w as [|a w IH].
  { change ("" ++ String sep f)%string with (String sep f). cbn [str_cut].
    by rewrite bool_decide_eq_true_2. }
  change (String a w ++ String sep f)%string with (String a (w ++ String sep f)). cbn [str_cut].
  cbn in Hw. apply andb_true_iff in Hw as [Ha%bool_decide_eq_true Hw].
  rewrite bool_decide_eq_false_2 by (intros ->; rewrite Hsep in Ha; by destruct Ha).
  by rewrite (IH Hw).
Qed.

(** A part without the separator is not cut. *)
Lemma str_cut_none sep w : all_digits w = true → digit_value sep = None → str_cut sep w = None.
Proof.
  intros Hw Hsep. induction w as [|a w IH]; [done|]. cbn [str_cut].
  cbn in Hw. apply andb_true_iff in Hw as [Ha%bool_decide_eq_true Hw].
  rewrite bool_decide_eq_false_2 by (intros ->; rewrite Hsep in Ha; by destruct Ha).
  by rewrite (IH Hw).
Qed.

(** Trimming stops at a byte that starts no white space rune. *)
Lemma strip_rune_none runes b l :
  Forall (λ r, r ≠ [] ∧ head r ≠ Some b) runes → strip_rune runes (b :: l) = None.
Proof.
  induction 1 as [|r runes [Hne Hh] _ IH]; [done|]. cbn [strip_rune].
  rewrite bool_decide_eq_false_2; [done|]. intros Ht. destruct r as [|c r]; [done|].
  cbn in Ht. injection Ht as -> _. done.
Qed.

Definition edge_byte (b : byte) : bool :=
  forallb (λ r, bool_decide (r ≠ []) && bool_decide (head r ≠ Some b) &&
                bool_decide (head (reverse r) ≠ Some b)) space_runes.

Lemma trim_space_id s a t b :
  bytes_of_string s = a :: t → last (a :: t) = Some b →
  edge_byte a = true → edge_byte b = true → trim_space s = s.
Proof.
  intros Hs Hl Ha Hb. unfold trim_space, trim_space_bytes. rewrite Hs.
  assert (∀ c, edge_byte c = true →
    Forall (λ r, r ≠ [] ∧ head r ≠ Some c) space_runes ∧
    Forall (λ r, r ≠ [] ∧ head r ≠ Some c) (reverse <$> space_runes)) as Hedge.
  { clear. intros c Hc. unfold edge_byte in Hc. rewrite forallb_forall in Hc.
    rewrite Forall_fmap, !Forall_forall. split; intros r Hr%list_elem_of_In; apply Hc in Hr;
      rewrite !andb_true_iff, !bool_decide_eq_true in Hr; destruct Hr as [[H1 H2] H3]; [done|].
    cbn. split; [|done]. intros Hn. apply H1. by rewrite <-(reverse_involutive r), Hn. }
  cbn [length trim_runes]. rewrite strip_rune_none by (by apply Hedge).
  apply last_Some in Hl as [l' Hl']. rewrite Hl', reverse_app. cbn [reverse].
  change (reverse [b]) with [b]. cbn [app].
  destruct (length (l' ++ [b])) eqn:E; [by rewrite length_app in E; cbn in E; lia|].
  cbn [trim_runes]. rewrite strip_rune_none by (by apply Hedge).
  rewrite reverse_cons, reverse_involutive, <-Hl', <-Hs. apply string_of_bytes_of_string.
Qed.

(** Strings whose first and last byte belong to no white space rune. *)
Definition head_edge (s : string) : bool :=
  match head (bytes_of_string s) with Some b => edge_byte b | None => false end.
Definition last_edge (s : string) : bool :=
  match last (bytes_of_string s) with Some b => edge_byte b | None => false end.

Lemma trim_space_edges s : head_edge s = true → last_edge s = true → trim_space s = s.
Proof.
  unfold head_edge, last_edge. intros Hh Hl.
  destruct (bytes_of_string s) as [|a t] eqn:E; [done|].
  destruct (last (a :: t)) as [b|] eqn:El; [|done]. by apply (trim_space_id s a t b).
Qed.

Lemma head_edge_app s t : head_edge s = true → head_edge (s ++ t) = true.
Proof.
  unfold head_edge. rewrite bytes_of_string_app. by destruct (bytes_of_string s).
Qed.

Lemma last_edge_app s t : last_edge t = true → last_edge (s ++ t) = true.
Proof.
  unfold last_edge. rewrite bytes_of_string_app, last_app. by destruct (last (bytes_of_string t)).
Qed.

Lemma digit_edge a : is_Some (digit_value a) → edge_byte (byte_of_ascii a) = true.
Proof.
  assert (negb (bool_decide (is_Some (digit_value a))) || edge_byte (byte_of_ascii a) = true) as H.
  { destruct a as [[] [] [] [] [] [] [] []]; vm_compute; reflexivity. }
  intros Ha. by rewrite bool_decide_eq_true_2 in H.
Qed.

Lemma digits_edges s : s ≠ "" → all_digits s = true → head_edge s = true ∧ last_edge s = true.
Proof.
  intros Hne Hs. split.
  - destruct s as [|a s]; [done|]. cbn in Hs. apply andb_true_iff in Hs as [Ha%bool_decide_eq_true _].
    by apply digit_edge.
  - induction s as [|a s IH]; [done|]. cbn in Hs.
    apply andb_true_iff in Hs as [Ha%bool_decide_eq_true Hs]. destruct s as [|b s].
    + by apply digit_edge.
    + change (String a (String b s)) with (String a "" ++ String b s)%string.
      by apply last_edge_app, IH.
Qed.
