(* ===== verification/Json.v ===== *)
(** * JSON documents ([encoding/json])

    The part of Go's [encoding/json] that the stored records rely on: the
    syntax check and parser of [Unmarshal], decoding into unsigned integers,
    slices of them and structs of them.
    Strings are decoded as Go decodes them: escapes, surrogate pairs, and
    U+FFFD for bytes that are not UTF-8. *)

From S2P Require Import Prelude GoLib Types Strconv Text.

Inductive json :=
| JNull
| JBool (b : bool)
| JNumber (literal : string)
| JString (value : string)
| JArray (elements : list json)
| JObject (fields : list (string * json)).

(** ** Scanner *)

Definition code (a : ascii) : Z := Z.of_N (N_of_ascii a).
Definition is_digit (a : ascii) : bool := bool_decide (48 ≤ code a ≤ 57).

Fixpoint skip_space (s : string) : string :=
  match s with
  | String a rest =>
      if bool_decide (code a = 32 ∨ code a = 9 ∨ code a = 13 ∨ code a = 10) then skip_space rest else s
  | EmptyString => s
  end.

Fixpoint span_digits (s : string) : string * string :=
  match s with
  | String a rest =>
      if is_digit a then let '(digits, rest) := span_digits rest in (String a digits, rest) else ("", s)
  | EmptyString => ("", s)
  end.

(** Zero, or digits that do not start with zero. *)
Definition parse_int (s : string) : option (string * string) :=
  match s with
  | String "0" rest => Some ("0", rest)
  | String a _ => if is_digit a then Some (span_digits s) else None
  | EmptyString => None
  end.

Definition parse_frac (s : string) : option (string * string) :=
  match s with
  | String "." rest =>
      let '(digits, rest) := span_digits rest in
      if bool_decide (digits = "") then None else Some (String "." digits, rest)
  | _ => Some ("", s)
  end.

Definition parse_exp (s : string) : option (string * string) :=
  match s with
  | String a rest =>
      if bool_decide (a = "e"%char ∨ a = "E"%char) then
        let '(sign, rest) :=
          match rest with
          | String "+" rest => ("+", rest)
          | String "-" rest => ("-", rest)
          | _ => ("", rest)
          end in
        let '(digits, rest) := span_digits rest in
        if bool_decide (digits = "") then None else Some (String a (sign ++ digits), rest)
      else Some ("", s)
  | EmptyString => Some ("", s)
  end.

Definition parse_number (s : string) : option (string * string) :=
  let '(sign, s) := match s with String "-" rest => ("-", rest) | _ => ("", s) end in
  '(int, s) ← parse_int s;
  '(frac, s) ← parse_frac s;
  '(exp, s) ← parse_exp s;
  Some (sign ++ int ++ frac ++ exp, s)%string.

(** ** Strings *)

Definition ascii_of_code (z : Z) : ascii := ascii_of_N (Z.to_N z).

(** [utf8.EncodeRune] *)
Definition encode_rune (r : Z) : string :=
  let tail shift := ascii_of_code (128 + Z.land (Z.shiftr r shift) 63) in
  if bool_decide (r < 128) then String (ascii_of_code r) ""
  else if bool_decide (r < 2048) then
    String (ascii_of_code (192 + Z.shiftr r 6)) (String (tail 0) "")
  else if bool_decide (r < 65536) then
    String (ascii_of_code (224 + Z.shiftr r 12)) (String (tail 6) (String (tail 0) ""))
  else
    String (ascii_of_code (240 + Z.shiftr r 18)) (String (tail 12) (String (tail 6) (String (tail 0) ""))).

Definition replacement : string := encode_rune 65533.

Definition is_cont (a : ascii) : bool := bool_decide (128 ≤ code a < 192).

(** The lengths of the well-formed sequences of UTF-8, by their first bytes. *)
Definition utf8_two (a b : ascii) : bool := bool_decide (194 ≤ code a ≤ 223) && is_cont b.
Definition utf8_three (a b c : ascii) : bool :=
  bool_decide (224 ≤ code a ≤ 239) && is_cont b && is_cont c &&
  negb (bool_decide (code a = 224 ∧ code b < 160)) && negb (bool_decide (code a = 237 ∧ 160 ≤ code b)).
Definition utf8_four (a b c d : ascii) : bool :=
  bool_decide (240 ≤ code a ≤ 244) && is_cont b && is_cont c && is_cont d &&
  negb (bool_decide (code a = 240 ∧ code b < 144)) && negb (bool_decide (code a = 244 ∧ 144 ≤ code b)).

Definition hex4 (a b c d : ascii) : option Z :=
  x ← unhex a; y ← unhex b; z ← unhex c; w ← unhex d;
  Some (((x * 16 + y) * 16 + z) * 16 + w).

Definition is_surrogate (r : Z) : bool := bool_decide (55296 ≤ r < 57344).

(** [utf16.DecodeRune] of two halves that form a pair. *)
Definition surrogate_pair (r1 r2 : Z) : option Z :=
  if bool_decide (55296 ≤ r1 < 56320) && bool_decide (56320 ≤ r2 < 57344)
  then Some ((r1 - 55296) * 1024 + (r2 - 56320) + 65536) else None.

(** The character an escape letter stands for. *)
Definition escaped (a : ascii) : option ascii :=
  match a with
  | "034"%char => Some "034"%char
  | "\"%char => Some "\"%char
  | "/"%char => Some "/"%char
  | "b"%char => Some "008"%char
  | "f"%char => Some "012"%char
  | "n"%char => Some "010"%char
  | "r"%char => Some "013"%char
  | "t"%char => Some "009"%char
  | _ => None
  end.

Definition prepend (s : string) (r : option (string * string)) : option (string * string) :=
  '(value, rest) ← r; Some (s ++ value, rest)%string.

(** The first six characters as an escape [\uXXXX]. *)
Definition unicode_escape (s : string) : option (Z * string) :=
  match s with
  | String "\" (String "u" (String a (String b (String c (String d rest))))) =>
      r ← hex4 a b c d; Some (r, rest)
  | _ => None
  end.

(** The value of a string literal after its opening quote, and what follows. *)
Fixpoint parse_chars (s : string) : option (string * string) :=
  match s with
  | EmptyString => None
  | String a s1 =>
      if bool_decide (a = "034"%char) then Some ("", s1)
      else if bool_decide (a = "\"%char) then
        match s1 with
        | EmptyString => None
        | String e s2 =>
            if bool_decide (e = "u"%char) then
              match s2 with
              | String h1 (String h2 (String h3 (String h4 s6))) =>
                  r ← hex4 h1 h2 h3 h4;
                  if negb (is_surrogate r) then prepend (encode_rune r) (parse_chars s6)
                  else
                    match s6 with
                    | String _ (String _ (String _ (String _ (String _ (String _ s12))))) =>
                        match '(r2, _) ← unicode_escape s6; surrogate_pair r r2 with
                        | Some r => prepend (encode_rune r) (parse_chars s12)
                        | None => prepend replacement (parse_chars s6)
                        end
                    | _ => prepend replacement (parse_chars s6)
                    end
              | _ => None
              end
            else c ← escaped e; prepend (String c "") (parse_chars s2)
        end
      else if bool_decide (code a < 32) then None
      else if bool_decide (code a < 128) then prepend (String a "") (parse_chars s1)
      else
        match s1 with
        | EmptyString => None
        | String b s2 =>
            if utf8_two a b then prepend (String a (String b "")) (parse_chars s2)
            else
              match s2 with
              | EmptyString => prepend replacement (parse_chars s1)
              | String c s3 =>
                  if utf8_three a b c then prepend (String a (String b (String c ""))) (parse_chars s3)
                  else
                    match s3 with
                    | EmptyString => prepend replacement (parse_chars s1)
                    | String d s4 =>
                        if utf8_four a b c d
                        then prepend (String a (String b (String c (String d "")))) (parse_chars s4)
                        else prepend replacement (parse_chars s1)
                    end
              end
        end
  end.

(** ** Parser *)

Definition maxNestingDepth : Z := 10000.

(** A value and what follows it.  Every second step consumes a character, so
    twice the length of the document is enough fuel. *)
Fixpoint parse_value (fuel : nat) (depth : Z) (s : string) : option (json * string) :=
  match fuel with
  | O => None
  | S fuel =>
      match skip_space s with
      | String "{" s =>
          if bool_decide (maxNestingDepth ≤ depth) then None
          else
            match skip_space s with
            | String "}" s => Some (JObject [], s)
            | s => '(fields, s) ← parse_fields fuel (depth + 1) s; Some (JObject fields, s)
            end
      | String "[" s =>
          if bool_decide (maxNestingDepth ≤ depth) then None
          else
            match skip_space s with
            | String "]" s => Some (JArray [], s)
            | s => '(elements, s) ← parse_elements fuel (depth + 1) s; Some (JArray elements, s)
            end
      | String "034" s => '(value, s) ← parse_chars s; Some (JString value, s)
      | String "t" (String "r" (String "u" (String "e" s))) => Some (JBool true, s)
      | String "f" (String "a" (String "l" (String "s" (String "e" s)))) => Some (JBool false, s)
      | String "n" (String "u" (String "l" (String "l" s))) => Some (JNull, s)
      | s => '(literal, s) ← parse_number s; Some (JNumber literal, s)
      end
  end
(** Elements separated by commas, up to the closing bracket. *)
with parse_elements (fuel : nat) (depth : Z) (s : string) : option (list json * string) :=
  match fuel with
  | O => None
  | S fuel =>
      '(value, s) ← parse_value fuel depth s;
      match skip_space s with
      | String "," s => '(values, s) ← parse_elements fuel depth s; Some (value :: values, s)
      | String "]" s => Some ([value], s)
      | _ => None
      end
  end
(** Members separated by commas, up to the closing brace. *)
with parse_fields (fuel : nat) (depth : Z) (s : string) : option (list (string * json) * string) :=
  match fuel with
  | O => None
  | S fuel =>
      match skip_space s with
      | String "034" s =>
          '(key, s) ← parse_chars s;
          match skip_space s with
          | String ":" s =>
              '(value, s) ← parse_value fuel depth s;
              match skip_space s with
              | String "," s =>
                  '(fields, s) ← parse_fields fuel depth s; Some ((key, value) :: fields, s)
              | String "}" s => Some ([(key, value)], s)
              | _ => None
              end
          | _ => None
          end
      | _ => None
      end
  end.

(** The document a byte slice holds, or [None] when its syntax is wrong. *)
Definition parse_document (data : bytes) : option json :=
  let s := string_of_bytes data in
  '(value, rest) ← parse_value (2 * String.length s + 2) 0 s;
  if bool_decide (skip_space rest = "") then Some value else None.

(** ** Decoding *)

(** [Unmarshal] into a [uint64] that holds [current]. *)
Definition decode_uint (current : Z) (value : json) : option Z :=
  match value with
  | JNull => Some current
  | JNumber literal => parse_uint literal
  | _ => None
  end.

(** [Unmarshal] into a [[]uint64]. *)
Definition decode_uints (value : json) : option (list Z) :=
  match value with
  | JNull => Some []
  | JArray elements => mapM (decode_uint 0) elements
  | _ => None
  end.

(** [foldName]: names are compared without case; the long s and the Kelvin sign
    fold to letters. *)
Fixpoint fold_name (s : string) : string :=
  match s with
  | String "197" (String "191" s) => String "S" (fold_name s)
  | String "226" (String "132" (String "170" s)) => String "K" (fold_name s)
  | String a s =>
      String (if bool_decide (97 ≤ code a ≤ 122) then ascii_of_code (code a - 32) else a) (fold_name s)
  | EmptyString => ""
  end.

(** The field of a struct a member is for: by its name, or by its folded name. *)
Definition find_field (names : list string) (key : string) : option string :=
  match list_find (λ name, name = key) names with
  | Some (_, name) => Some name
  | None => snd <$> list_find (λ name, fold_name name = fold_name key) names
  end.

(** [Unmarshal] into a struct of [uint64] fields. *)
Fixpoint decode_members (names : list string) (fields : list (string * json)) (values : gmap string Z)
    : option (gmap string Z) :=
  match fields with
  | [] => Some values
  | (key, value) :: fields =>
      match find_field names key with
      | None => decode_members names fields values
      | Some name =>
          v ← decode_uint (default 0 (values !! name)) value;
          decode_members names fields (<[name := v]> values)
      end
  end.

Definition decode_uint_struct (names : list string) (value : json) : option (gmap string Z) :=
  match value with
  | JNull => Some ∅
  | JObject fields => decode_members names fields ∅
  | _ => None
  end.

(** ** Output *)

Definition quote (s : string) : string := (String "034" s ++ String "034" "")%string.

(** ** Decimal numbers *)

Lemma pretty_digit x : (x < 10)%N → digit_value (pretty_N_char x) = Some (Z.of_N x) ∧ is_digit (pretty_N_char x) = true.
Proof.
  intros Hx. assert (x = 0 ∨ x = 1 ∨ x = 2 ∨ x = 3 ∨ x = 4 ∨ x = 5 ∨ x = 6 ∨ x = 7 ∨ x = 8 ∨ x = 9)%N as Hc by lia.
  by repeat (destruct Hc as [->|Hc]; [done|]); subst x.
Qed.

Lemma parse_digits_app acc s t :
  parse_digits acc (s ++ t) = parse_digits acc s ≫= λ acc, parse_digits acc t.
Proof.
  revert acc. induction s as [|a s IH]; intros acc; [done|].
  change (String a s ++ t)%string with (String a (s ++ t)). cbn [parse_digits].
  destruct (digit_value a); cbn [mbind option_bind]; [|done]. by case_bool_decide.
Qed.

Fixpoint str_forall (p : ascii → bool) (s : string) : bool :=
  match s with EmptyString => true | String a s => p a && str_forall p s end.

Lemma str_forall_app p s t : str_forall p (s ++ t) = str_forall p s && str_forall p t.
Proof.
  induction s as [|a s IH]; [done|]. change (String a s ++ t)%string with (String a (s ++ t)). cbn [str_forall].
  by rewrite IH, andb_assoc.
Qed.

(** The digits of a positive number: they parse back, and the first is not zero. *)
Lemma pretty_N_digits x :
  (0 < x)%N → Z.of_N x ≤ max_u64 →
  ∃ a d, (∀ s, pretty_N_go x s = (String a d ++ s)%string) ∧ a ≠ "0"%char ∧
    str_forall is_digit (String a d) = true ∧ parse_digits 0 (String a d) = Some (Z.of_N x).
Proof.
  induction x as [x IH] using (well_founded_induction N.lt_wf_0). intros Hx Hm.
  pose proof (N.mod_lt x 10 ltac:(lia)) as Hmod. destruct (pretty_digit (x mod 10) Hmod) as [Hv Hd].
  destruct (decide (x < 10)%N) as [Hs|Hl].
  - exists (pretty_N_char x), "". rewrite N.mod_small in Hv, Hd by done. split_and!.
    + intros s. rewrite pretty_N_go_step by done.
      rewrite N.div_small, N.mod_small by done. by rewrite pretty_N_go_0.
    + intros H0. rewrite H0 in Hv. injection Hv as Hv. lia.
    + cbn. by rewrite Hd.
    + cbn [parse_digits]. rewrite Hv. cbn. rewrite bool_decide_eq_false_2 by lia. by f_equal; lia.
  - pose proof (N.div_lt x 10 ltac:(lia) ltac:(lia)) as Hlt.
    pose proof (N.div_mod x 10 ltac:(lia)) as Hdm.
    destruct (IH (x / 10)%N Hlt) as (a & d & Hgo & Ha & Hf & Hp); [lia..|].
    exists a, (d ++ String (pretty_N_char (x mod 10)) "")%string. split_and!; [|done|..].
    + intros s. rewrite pretty_N_go_step, Hgo by done. change (String a (d ++ ?t)) with (String a d ++ t)%string. by rewrite <-string_app_comp.
    + change (String a (d ++ ?t)) with (String a d ++ t)%string. rewrite str_forall_app, Hf. cbn. by rewrite Hd.
    + change (String a (d ++ ?t)) with (String a d ++ t)%string. rewrite parse_digits_app, Hp. cbn.
      rewrite Hv. cbn. rewrite bool_decide_eq_false_2 by lia. f_equal. lia.
Qed.

Lemma format_uint_digits x :
  is_u64 x → ∃ a d, format_uint x = String a d ∧ str_forall is_digit (String a d) = true ∧
    (a ≠ "0"%char ∨ d = "") ∧ parse_digits 0 (String a d) = Some x.
Proof.
  intros [H0 Hm]. unfold two64 in Hm. unfold format_uint, pretty, pretty_N. case_decide as Hz.
  - exists "0"%char, "". split_and!; [done..|by right|]. assert (x = 0) as -> by lia. done.
  - destruct (pretty_N_digits (Z.to_N x)) as (a & d & Hgo & Ha & Hf & Hp); [lia|unfold max_u64; lia|].
    exists a, d. rewrite Hgo, string_app_nil_r. split_and!; [done..|by left|]. rewrite Hp. f_equal. lia.
Qed.

(** [strconv.ParseUint] reads what [strconv.FormatUint] writes. *)
Lemma parse_uint_format x : is_u64 x → parse_uint (format_uint x) = Some x.
Proof. intros Hx. by destruct (format_uint_digits x Hx) as (a & d & -> & _ & _ & Hp). Qed.

(** What may follow a number in a document. *)
Definition stops (s : string) : bool :=
  match s with
  | EmptyString => true
  | String a _ =>
      negb (is_digit a || bool_decide (a = "."%char) || bool_decide (a = "e"%char ∨ a = "E"%char))
  end.

Lemma span_digits_app d rest :
  str_forall is_digit d = true → stops rest = true → span_digits (d ++ rest) = (d, rest).
Proof.
  intros Hd Hr. induction d as [|a d IH].
  - destruct rest as [|a rest]; [done|]. cbn in Hr. change ("" ++ ?t)%string with t. cbn [span_digits].
    by destruct (is_digit a).
  - cbn [str_forall] in Hd. apply andb_true_iff in Hd as [Ha Hd].
    change (String a d ++ rest)%string with (String a (d ++ rest)). cbn [span_digits].
    by rewrite Ha, IH.
Qed.

Lemma digit_cases (P : ascii → Prop) a :
  is_digit a = true →
  P "0"%char → P "1"%char → P "2"%char → P "3"%char → P "4"%char →
  P "5"%char → P "6"%char → P "7"%char → P "8"%char → P "9"%char → P a.
Proof. by destruct a as [[] [] [] [] [] [] [] []]. Qed.

Lemma parse_frac_stops rest : stops rest = true → parse_frac rest = Some ("", rest).
Proof.
  destruct rest as [|a rest]; [done|]. cbn [stops]. rewrite negb_true_iff, !orb_false_iff.
  intros [[_ Hd] _]. apply bool_decide_eq_false in Hd. by destruct a as [[] [] [] [] [] [] [] []].
Qed.

Lemma parse_exp_stops rest : stops rest = true → parse_exp rest = Some ("", rest).
Proof.
  destruct rest as [|a rest]; [done|]. cbn [stops]. rewrite negb_true_iff, !orb_false_iff.
  intros [_ He]. unfold parse_exp. by rewrite He.
Qed.

Lemma parse_int_digits a d rest :
  str_forall is_digit (String a d) = true → a ≠ "0"%char ∨ d = "" → stops rest = true →
  parse_int (String a d ++ rest) = Some (String a d, rest).
Proof.
  intros Hf H0 Hr. pose proof (span_digits_app _ rest Hf Hr) as Hs. cbn [str_forall] in Hf.
  apply andb_true_iff in Hf as [Ha _]. change (String a d ++ rest)%string with (String a (d ++ rest)) in *.
  revert Hs H0. pattern a. apply (digit_cases _ a Ha); intros Hs H0; try exact (f_equal Some Hs).
  destruct H0 as [H0 | ->]; [done|]. done.
Qed.

Lemma parse_value_uint fuel depth x rest :
  is_u64 x → stops rest = true →
  parse_value (S fuel) depth (format_uint x ++ rest) = Some (JNumber (format_uint x), rest).
Proof.
  intros Hx Hr. destruct (format_uint_digits x Hx) as (a & d & -> & Hf & H0 & _).
  pose proof (parse_int_digits a d rest Hf H0 Hr) as Hi. cbn [str_forall] in Hf.
  apply andb_true_iff in Hf as [Ha _]. change (String a d ++ rest)%string with (String a (d ++ rest)) in *.
  assert (parse_number (String a (d ++ rest)) = Some (String a d, rest)) as Hn.
  { unfold parse_number.
    assert (match String a (d ++ rest) with String "-" r => ("-", r) | _ => ("", String a (d ++ rest)) end
      = ("", String a (d ++ rest))) as -> by (pattern a; by apply (digit_cases _ a Ha)).
    rewrite Hi. cbn. rewrite parse_frac_stops by done. cbn. rewrite parse_exp_stops by done. cbn.
    by rewrite string_app_nil_r. }
  cbn [parse_value].
  assert (skip_space (String a (d ++ rest)) = String a (d ++ rest)) as ->
    by (pattern a; by apply (digit_cases _ a Ha)).
  clear H0 Hi. revert Hn. pattern a. by apply (digit_cases _ a Ha); intros ->.
Qed.

(** ** Decoding of numbers *)

Lemma skip_digit a t : is_digit a = true → skip_space (String a t) = String a t.
Proof. intros Ha. pattern a. by apply (digit_cases _ a Ha). Qed.

Lemma mapM_decode_uints xs :
  Forall is_u64 xs → mapM (decode_uint 0) (JNumber ∘ format_uint <$> xs) = Some xs.
Proof.
  induction 1 as [|x xs Hx Hxs IH]; [done|]. cbn. rewrite parse_uint_format by done. cbn. by rewrite IH.
Qed.

Lemma quote_app name rest : (quote name ++ rest)%string = String "034" (name ++ String "034" rest).
Proof.
  unfold quote. rewrite <-string_app_comp. by change (String "034" name ++ ?t)%string with (String "034" (name ++ t)).
Qed.

Lemma decode_members_uints names fields m :
  Forall (λ field, field.1 ∈ names ∧ is_u64 field.2) fields →
  decode_members names (prod_map id (JNumber ∘ format_uint) <$> fields) m =
    Some (foldl (λ m field, <[field.1 := field.2]> m) m fields).
Proof.
  intros Hf. revert m. induction Hf as [|[name v] fields [Hn Hv] Hf IH]; intros m; [done|].
  cbn in Hn, Hv. cbn [fmap list_fmap prod_map fst snd id decode_members compose].
  assert (find_field names name = Some name) as ->.
  { unfold find_field. destruct (list_find (λ n, n = name) names) as [[i n]|] eqn:E.
    - by apply list_find_Some in E as (_ & -> & _).
    - exfalso. rewrite list_find_None, Forall_forall in E. by apply (E name). }
  cbn [decode_uint]. rewrite parse_uint_format by done. cbn. apply IH.
Qed.
