(* ===== verification/JsonPrint.v ===== *)
(** * Output of JSON documents ([encoding/json])

    [json.Marshal] for values that were turned into documents: the escapes of
    strings, bytes that are not UTF-8, and the nesting of arrays and objects.
    The parser reads back what the printer wrote. *)

From S2P Require Import Prelude GoLib Types Strconv Text Json.

(** ** Strings *)

Definition quote_char : ascii := "034"%char.
Definition backslash : ascii := "\"%char.

Definition escape (a : ascii) : string := String backslash (String a "").
Definition escape_hex (a : ascii) : string :=
  String backslash
    (String "u" (String "0" (String "0"
      (String (hex_digit (code a / 16)) (String (hex_digit (code a mod 16)) ""))))).

(** [appendString] of one byte below [utf8.RuneSelf], with HTML escapes. *)
Definition render_ascii (a : ascii) : string :=
  if bool_decide (a = quote_char ∨ a = backslash) then escape a
  else if bool_decide (code a = 8) then escape "b"
  else if bool_decide (code a = 12) then escape "f"
  else if bool_decide (code a = 10) then escape "n"
  else if bool_decide (code a = 13) then escape "r"
  else if bool_decide (code a = 9) then escape "t"
  else if bool_decide (code a < 32 ∨ a = "<"%char ∨ a = ">"%char ∨ a = "&"%char) then escape_hex a
  else String a "".

Definition render_bad : string := String backslash "ufffd".

(** The line and paragraph separators are escaped. *)
Definition render_three (a b c : ascii) : string :=
  if bool_decide (code a = 226 ∧ code b = 128 ∧ (code c = 168 ∨ code c = 169))
  then String backslash (String "u" (String "2" (String "0" (String "2" (String (hex_digit (code c mod 16)) "")))))
  else String a (String b (String c "")).

(** The characters of a string literal; a byte that starts no well-formed
    sequence of UTF-8 becomes U+FFFD. *)
Fixpoint render_chars (s : string) : string :=
  match s with
  | EmptyString => ""
  | String a s1 =>
      if bool_decide (code a < 128) then render_ascii a ++ render_chars s1
      else
        match s1 with
        | EmptyString => render_bad
        | String b s2 =>
            if utf8_two a b then String a (String b "") ++ render_chars s2
            else
              match s2 with
              | EmptyString => render_bad ++ render_chars s1
              | String c s3 =>
                  if utf8_three a b c then render_three a b c ++ render_chars s3
                  else
                    match s3 with
                    | EmptyString => render_bad ++ render_chars s1
                    | String d s4 =>
                        if utf8_four a b c d
                        then String a (String b (String c (String d ""))) ++ render_chars s4
                        else render_bad ++ render_chars s1
                    end
              end
        end
  end%string.

(** The string a reader gets: bytes that are not UTF-8 are replaced. *)
Fixpoint sanitize (s : string) : string :=
  match s with
  | EmptyString => ""
  | String a s1 =>
      if bool_decide (code a < 128) then String a (sanitize s1)
      else
        match s1 with
        | EmptyString => replacement
        | String b s2 =>
            if utf8_two a b then String a (String b (sanitize s2))
            else
              match s2 with
              | EmptyString => replacement ++ sanitize s1
              | String c s3 =>
                  if utf8_three a b c then String a (String b (String c (sanitize s3)))
                  else
                    match s3 with
                    | EmptyString => replacement ++ sanitize s1
                    | String d s4 =>
                        if utf8_four a b c d then String a (String b (String c (String d (sanitize s4))))
                        else replacement ++ sanitize s1
                    end
              end
        end
  end%string.

(** ** Documents *)

Definition render_string (s : string) : string := quote (render_chars s).

Fixpoint render (j : json) : string :=
  match j with
  | JNull => "null"
  | JBool b => if b then "true" else "false"
  | JNumber literal => literal
  | JString s => render_string s
  | JArray l => "[" ++ str_join "," (render <$> l) ++ "]"
  | JObject fields =>
      "{" ++ str_join "," ((λ field, render_string field.1 ++ ":" ++ render field.2) <$> fields) ++ "}"
  end%string.

Definition marshal (j : json) : bytes := bytes_of_string (render j).

(** ** Reading strings back *)

Lemma parse_ascii a t :
  code a < 128 → parse_chars (render_ascii a ++ t) = prepend (String a "") (parse_chars t).
Proof. destruct a as [[] [] [] [] [] [] [] []]; intros Ha; try reflexivity; by vm_compute in Ha. Qed.

Lemma parse_bad t : parse_chars (render_bad ++ t) = prepend replacement (parse_chars t).
Proof. reflexivity. Qed.

(** The first byte of a longer sequence is none of the characters the parser
    treats specially. *)
Lemma parse_high a : ¬ code a < 128 →
  a ≠ "034"%char ∧ a ≠ "\"%char ∧ ¬ code a < 32 ∧ ¬ code a < 128.
Proof. intros Ha. split_and!; [intros ->; by apply Ha..|lia|done]. Qed.

Lemma parse_two a b t :
  ¬ code a < 128 → utf8_two a b = true →
  parse_chars (String a (String b "") ++ t) = prepend (String a (String b "")) (parse_chars t).
Proof.
  intros (Hq & Hb & H32 & H128)%parse_high Hu.
  change (String a (String b "") ++ t)%string with (String a (String b t)). cbn [parse_chars].
  by rewrite !bool_decide_eq_false_2, Hu by done.
Qed.

Lemma parse_three a b c t :
  ¬ code a < 128 → utf8_two a b = false → utf8_three a b c = true →
  parse_chars (render_three a b c ++ t) = prepend (String a (String b (String c ""))) (parse_chars t).
Proof.
  intros Ha H2 H3. unfold render_three. case_bool_decide as Hsep.
  - destruct Hsep as (Ea & Eb & Ec).
    assert (∀ x n, code x = n → x = ascii_of_code n) as Hcode.
    { intros x n <-. unfold ascii_of_code, code. by rewrite N2Z.id, ascii_N_embedding. }
    apply Hcode in Ea as ->, Eb as ->. by destruct Ec as [Ec|Ec]; apply Hcode in Ec as ->.
  - apply parse_high in Ha as (Hq & Hb & H32 & H128).
    change (String a (String b (String c "")) ++ t)%string with (String a (String b (String c t))).
    cbn [parse_chars]. by rewrite !bool_decide_eq_false_2, H2, H3 by done.
Qed.

Lemma parse_four a b c d t :
  ¬ code a < 128 → utf8_two a b = false → utf8_three a b c = false → utf8_four a b c d = true →
  parse_chars (String a (String b (String c (String d ""))) ++ t) =
    prepend (String a (String b (String c (String d "")))) (parse_chars t).
Proof.
  intros (Hq & Hb & H32 & H128)%parse_high H2 H3 H4.
  change (String a (String b (String c (String d ""))) ++ t)%string with (String a (String b (String c (String d t)))).
  cbn [parse_chars]. by rewrite !bool_decide_eq_false_2, H2, H3, H4 by done.
Qed.

(** A string literal is read back, with bytes that are not UTF-8 replaced. *)
Lemma parse_render_chars s rest :
  parse_chars (render_chars s ++ String quote_char rest) = Some (sanitize s, rest).
Proof.
  remember (String.length s) as n eqn:En. revert s En.
  induction n as [n IH] using lt_wf_ind. intros s ->.
  destruct s as [|a s1]; [done|]. cbn [render_chars sanitize].
  assert (∀ s', (String.length s' < String.length (String a s1))%nat → ∀ p,
    prepend p (parse_chars (render_chars s' ++ String quote_char rest)) = Some (p ++ sanitize s', rest)%string) as Hrec.
  { intros s' Hl p. by rewrite (IH _ Hl s' eq_refl). }
  case_bool_decide as Ha; [rewrite <-string_app_comp, parse_ascii, Hrec; [done|cbn; lia|done]|].
  destruct s1 as [|b s2]; [by rewrite parse_bad|].
  destruct (utf8_two a b) eqn:H2; [rewrite <-string_app_comp, parse_two, Hrec; [done|cbn; lia|done..]|].
  destruct s2 as [|c s3]; [rewrite <-string_app_comp, parse_bad, Hrec; [done|cbn; lia]|].
  destruct (utf8_three a b c) eqn:H3; [rewrite <-string_app_comp, parse_three, Hrec; [done|cbn; lia|done..]|].
  destruct s3 as [|d s4]; [rewrite <-string_app_comp, parse_bad, Hrec; [done|cbn; lia]|].
  destruct (utf8_four a b c d) eqn:H4; [rewrite <-string_app_comp, parse_four, Hrec; [done|cbn; lia|done..]|].
  rewrite <-string_app_comp, parse_bad, Hrec; [done|cbn; lia].
Qed.

Lemma sanitize_bad s : sanitize (replacement ++ s) = (replacement ++ sanitize s)%string.
Proof. reflexivity. Qed.

Lemma sanitize_idem s : sanitize (sanitize s) = sanitize s.
Proof.
  remember (String.length s) as n eqn:En. revert s En.
  induction n as [n IH] using lt_wf_ind. intros s ->. destruct s as [|a s1]; [done|]. cbn [sanitize].
  assert (∀ s', (String.length s' < String.length (String a s1))%nat → sanitize (sanitize s') = sanitize s') as Hrec
    by (intros s' Hl; by apply (IH _ Hl s')). clear IH.
  case_bool_decide as Ha; [cbn [sanitize]; rewrite bool_decide_eq_true_2, Hrec; [done|cbn; lia|done]|].
  destruct s1 as [|b s2]; [done|].
  destruct (utf8_two a b) eqn:H2.
  { cbn [sanitize]. rewrite bool_decide_eq_false_2, H2, Hrec; [done|cbn; lia|done]. }
  destruct s2 as [|c s3]; [rewrite sanitize_bad, Hrec; [done|cbn; lia]|].
  destruct (utf8_three a b c) eqn:H3.
  { cbn [sanitize]. rewrite bool_decide_eq_false_2, H2, H3, Hrec; [done|cbn; lia|done]. }
  destruct s3 as [|d s4]; [rewrite sanitize_bad, Hrec; [done|cbn; lia]|].
  destruct (utf8_four a b c d) eqn:H4.
  { cbn [sanitize]. rewrite bool_decide_eq_false_2, H2, H3, H4, Hrec; [done|cbn; lia|done]. }
  rewrite sanitize_bad, Hrec; [done|cbn; lia].
Qed.

(** ** Reading documents back *)

Lemma json_nested_ind (P : json → Prop) :
  P JNull → (∀ b, P (JBool b)) → (∀ l, P (JNumber l)) → (∀ s, P (JString s)) →
  (∀ l, Forall P l → P (JArray l)) → (∀ fields, Forall (λ field, P field.2) fields → P (JObject fields)) →
  ∀ j, P j.
Proof.
  intros Hn Hb Hnum Hs Ha Ho. fix IH 1. intros [ | b | l | s | l | fields].
  - apply Hn.
  - apply Hb.
  - apply Hnum.
  - apply Hs.
  - apply Ha. induction l as [|j l IHl]; constructor; [apply IH|exact IHl].
  - apply Ho. induction fields as [|[k j] fields IHl]; constructor; [apply IH|exact IHl].
Qed.

(** How deep arrays and objects are nested. *)
Fixpoint nesting (j : json) : Z :=
  match j with
  | JArray l => 1 + foldr Z.max 0 (nesting <$> l)
  | JObject fields => 1 + foldr Z.max 0 ((λ field, nesting field.2) <$> fields)
  | _ => 0
  end.

(** Numbers the printer writes: integers of at most 64 bits. *)
Definition number_ok (literal : string) : Prop :=
  ∃ x, is_u64 x ∧ (literal = format_uint x ∨ literal = (String "-" (format_uint x))).

(** Documents with such numbers. *)
Fixpoint printable (j : json) : Prop :=
  match j with
  | JNumber literal => number_ok literal
  | JArray l => foldr and True (printable <$> l)
  | JObject fields => foldr and True ((λ field, printable field.2) <$> fields)
  | _ => True
  end.

(** The document a reader gets: its strings are UTF-8. *)
Fixpoint clean (j : json) : json :=
  match j with
  | JString s => JString (sanitize s)
  | JArray l => JArray (clean <$> l)
  | JObject fields => JObject ((λ field, (sanitize field.1, clean field.2)) <$> fields)
  | _ => j
  end.

Lemma foldr_and {A} (P : A → Prop) l : foldr and True (P <$> l) ↔ Forall P l.
Proof. induction l as [|x l IH]; cbn; [done|]. by rewrite Forall_cons, IH. Qed.

Lemma foldr_max {A} (f : A → Z) l d : 0 ≤ d → foldr Z.max 0 (f <$> l) ≤ d ↔ Forall (λ x, f x ≤ d) l.
Proof. intros Hd. induction l as [|x l IH]; cbn; [done|]. rewrite Forall_cons, <-IH. lia. Qed.

(** What follows a value inside a document or at its end. *)
Definition closes (s : string) : Prop :=
  match s with
  | EmptyString => True
  | String a _ => a = ","%char ∨ a = "]"%char ∨ a = "}"%char
  end.

Lemma closes_stops s : closes s → stops s = true.
Proof. destruct s as [|a s]; [done|]. by intros [->|[->| ->]]. Qed.

Lemma parse_number_ok literal rest :
  number_ok literal → closes rest → parse_number (literal ++ rest) = Some (literal, rest).
Proof.
  intros (x & Hx & Hl) Hr%closes_stops. destruct (format_uint_digits x Hx) as (a & d & Hf & Hd & H0 & _).
  pose proof (parse_int_digits a d rest Hd H0 Hr) as Hi. rewrite <-Hf in Hi.
  destruct Hl as [->| ->].
  - unfold parse_number. cbn [str_forall] in Hd. apply andb_true_iff in Hd as [Ha _].
    assert (match (format_uint x ++ rest)%string with String "-" r => ("-", r) | _ => ("", (format_uint x ++ rest)%string) end
      = ("", format_uint x ++ rest)%string) as ->.
    { rewrite Hf. change (String a d ++ rest)%string with (String a (d ++ rest)).
      pattern a. by apply (digit_cases _ a Ha). }
    rewrite Hi. cbn. rewrite parse_frac_stops by done. cbn. rewrite parse_exp_stops by done. cbn.
    by rewrite string_app_nil_r.
  - change (String "-" (format_uint x) ++ rest)%string with (String "-" (format_uint x ++ rest)).
    unfold parse_number. rewrite Hi. cbn. rewrite parse_frac_stops by done. cbn.
    rewrite parse_exp_stops by done. cbn. by rewrite string_app_nil_r.
Qed.

Lemma parse_value_number fuel depth literal rest :
  number_ok literal → closes rest →
  parse_value (S fuel) depth (literal ++ rest) = Some (JNumber literal, rest).
Proof.
  intros Hl Hr. pose proof (parse_number_ok literal rest Hl Hr) as Hn. destruct Hl as (x & Hx & Hl).
  destruct (format_uint_digits x Hx) as (a & d & Hf & Hd & _). cbn [str_forall] in Hd.
  apply andb_true_iff in Hd as [Ha _]. rewrite Hf in Hl. destruct Hl as [->| ->].
  - change (String a d ++ rest)%string with (String a (d ++ rest)) in *. revert Hn. pattern a.
    apply (digit_cases _ a Ha); intros Hn; cbn [parse_value];
      match goal with |- context [skip_space ?t] => change (skip_space t) with t end; cbv iota beta; by rewrite Hn.
  - change (String "-" (String a d) ++ rest)%string with (String "-" (String a d ++ rest)) in *.
    cbn [parse_value]. change (skip_space (String "-" ?t)) with (String "-" t). cbv iota beta. by rewrite Hn.
Qed.

(** The characters a value starts with. *)
Definition starts (a : ascii) : bool :=
  is_digit a || bool_decide (a ∈ ["n"; "t"; "f"; "-"; "034"; "["; "{"]%char).

Lemma starts_cases (P : ascii → Prop) a :
  starts a = true → (is_digit a = true → P a) →
  P "n"%char → P "t"%char → P "f"%char → P "-"%char → P "034"%char → P "["%char → P "{"%char → P a.
Proof.
  unfold starts. intros [Hd|Hin%bool_decide_eq_true]%orb_true_iff HP; intros; [by apply HP|].
  rewrite !elem_of_cons, elem_of_nil in Hin. by repeat destruct Hin as [->|Hin].
Qed.

Lemma render_head j : printable j → ∃ a t, render j = String a t ∧ starts a = true.
Proof.
  destruct j as [ | [] | l | s | l | fields]; try (by intros; eexists _, _).
  intros (x & Hx & Hl). destruct (format_uint_digits x Hx) as (a & d & Hf & Hd & _). cbn [str_forall] in Hd.
  apply andb_true_iff in Hd as [Ha _]. rewrite Hf in Hl. destruct Hl as [->| ->]; eexists _, _; (split; [done|]); [|done].
  unfold starts. by rewrite Ha.
Qed.

Lemma skip_starts a t : starts a = true → skip_space (String a t) = String a t.
Proof. intros Ha. pattern a. apply (starts_cases _ a Ha); try done. by apply skip_digit. Qed.

Lemma render_length j : printable j → (1 ≤ String.length (render j))%nat.
Proof. intros Hj. destruct (render_head j Hj) as (a & t & -> & _). cbn. lia. Qed.

(** The values of a document are read back from what the printer wrote. *)
Definition reads_back (j : json) : Prop :=
  ∀ fuel depth rest, (2 * String.length (render j) ≤ fuel)%nat → depth + nesting j ≤ maxNestingDepth →
    closes rest → parse_value fuel depth (render j ++ rest) = Some (clean j, rest).

Lemma join_cons x l : str_join "," (x :: l) = match l with [] => x | _ => (x ++ "," ++ str_join "," l)%string end.
Proof. by destruct l. Qed.

Lemma parse_elements_render l depth rest fuel :
  l ≠ [] → Forall (λ j, reads_back j ∧ depth + nesting j ≤ maxNestingDepth) l →
  (2 * String.length (str_join "," (render <$> l)) + 1 ≤ fuel)%nat →
  parse_elements fuel depth (str_join "," (render <$> l) ++ String "]" rest) = Some (clean <$> l, rest).
Proof.
  revert fuel. induction l as [|j l IH]; [done|]. intros fuel _ [[Hj Hn] Hl]%Forall_cons Hf.
  destruct fuel as [|fuel]; [lia|]. cbn [fmap list_fmap] in *. rewrite join_cons in *.
  destruct l as [|j2 l]; cbn [fmap list_fmap] in *.
  - cbn [parse_elements]. rewrite Hj; [done|lia|done|by right; left].
  - rewrite !string_length_app in Hf. change (String.length ",") with 1%nat in Hf.
    rewrite <-!string_app_comp. change ("," ++ ?t)%string with (String "," t). cbn [parse_elements].
    rewrite Hj; [|lia|done|by left]. cbn [mbind option_bind].
    change (skip_space (String "," ?t)) with (String "," t). cbv iota beta. by rewrite IH by (done || lia).
Qed.

Abbreviation clean_field := (λ field, (sanitize field.1, clean field.2)).
Abbreviation render_field := (λ field, (render_string field.1 ++ ":" ++ render field.2)%string).

Lemma parse_fields_render fields depth rest fuel :
  fields ≠ [] →
  Forall (λ field, reads_back field.2 ∧ depth + nesting field.2 ≤ maxNestingDepth) fields →
  (2 * String.length (str_join "," (render_field <$> fields)) + 1 ≤ fuel)%nat →
  parse_fields fuel depth
    (str_join "," (render_field <$> fields) ++ String "}" rest) =
    Some (clean_field <$> fields, rest).
Proof.
  revert fuel. induction fields as [|[k j] fields IH]; [done|]. intros fuel _ [[Hj Hn] Hl]%Forall_cons Hf.
  cbn [fst snd] in *. destruct fuel as [|fuel]; [lia|]. cbn [fmap list_fmap] in *. rewrite join_cons in *.
  assert (∀ r, closes r → (2 * String.length (render j) ≤ fuel)%nat →
    parse_fields (S fuel) depth (render_string k ++ ":" ++ render j ++ r)%string =
      match skip_space r with
      | String "," s => '(fields, s) ← parse_fields fuel depth s; Some ((sanitize k, clean j) :: fields, s)
      | String "}" s => Some ([(sanitize k, clean j)], s)
      | _ => None
      end) as Hstep.
  { intros r Hr Hfuel. unfold render_string. rewrite quote_app. cbn [parse_fields].
    change (skip_space (String "034" ?t)) with (String "034" t). cbv iota beta.
    rewrite (parse_render_chars k). cbn [mbind option_bind].
    change (skip_space (":" ++ ?t)) with (String ":" t). cbv iota beta. by rewrite Hj. }
  destruct fields as [|[k2 j2] fields]; cbn [fmap list_fmap fst snd] in *.
  - rewrite !string_length_app in Hf. rewrite <-!string_app_comp. rewrite Hstep; [done|by right; right|lia].
  - rewrite !string_length_app in Hf. change (String.length ",") with 1%nat in Hf.
    change (String.length ":") with 1%nat in Hf.
    rewrite <-!string_app_comp. change ("," ++ ?t)%string with (String "," t).
    rewrite Hstep; [|by left|lia]. change (skip_space (String "," ?t)) with (String "," t). cbv iota beta.
    by rewrite IH by (done || rewrite ?string_length_app; lia).
Qed.

(** An array or an object that is not empty. *)
Lemma parse_value_array fuel depth l a t rest :
  depth < maxNestingDepth → starts a = true →
  parse_elements fuel (depth + 1) (String a t) = Some (l, rest) →
  parse_value (S fuel) depth (String "[" (String a t)) = Some (JArray l, rest).
Proof.
  intros Hd Ha HE. cbn [parse_value]. change (skip_space (String "[" ?t)) with (String "[" t). cbv iota beta.
  rewrite bool_decide_eq_false_2 by lia. rewrite skip_starts by done. revert HE. pattern a.
  apply (starts_cases _ a Ha); intros HE; try by rewrite HE.
  pattern a. by apply (digit_cases _ a HE); intros ->.
Qed.

Lemma parse_value_object fuel depth fields t rest :
  depth < maxNestingDepth →
  parse_fields fuel (depth + 1) (String "034" t) = Some (fields, rest) →
  parse_value (S fuel) depth (String "{" (String "034" t)) = Some (JObject fields, rest).
Proof.
  intros Hd HE. cbn [parse_value]. change (skip_space (String "{" ?t)) with (String "{" t). cbv iota beta.
  rewrite bool_decide_eq_false_2 by lia. change (skip_space (String "034" ?t)) with (String "034" t).
  cbv iota beta. by rewrite HE.
Qed.

Lemma parse_render_array l fuel depth rest :
  Forall (λ j, reads_back j ∧ printable j ∧ depth + 1 + nesting j ≤ maxNestingDepth) l → depth < maxNestingDepth →
  (2 * String.length (str_join "," (render <$> l)) + 1 ≤ fuel)%nat →
  parse_value (S fuel) depth ("[" ++ str_join "," (render <$> l) ++ String "]" rest) = Some (clean (JArray l), rest).
Proof.
  intros Hl Hd Hf. change ("[" ++ ?t)%string with (String "[" t). destruct l as [|j l].
  { cbn [parse_value]. change (skip_space (String "[" ?t)) with (String "[" t). cbv iota beta.
    by rewrite bool_decide_eq_false_2 by lia. }
  assert (parse_elements fuel (depth + 1) (str_join "," (render <$> j :: l) ++ String "]" rest) =
    Some (clean <$> j :: l, rest)) as HE.
  { apply parse_elements_render; [done| |done]. eapply Forall_impl; [exact Hl|]. by intros x (? & _ & ?). }
  apply Forall_cons in Hl as [(_ & Hp & _) _]. destruct (render_head j Hp) as (a & t & Ea & Ha).
  assert (∃ t', (str_join "," (render <$> j :: l) ++ String "]" rest)%string = String a t') as [t' Et].
  { cbn [fmap list_fmap]. rewrite join_cons, Ea. destruct (render <$> l); by eexists. }
  rewrite Et in *. by apply parse_value_array.
Qed.

Lemma parse_render_object fields fuel depth rest :
  Forall (λ field, reads_back field.2 ∧ depth + 1 + nesting field.2 ≤ maxNestingDepth) fields →
  depth < maxNestingDepth →
  (2 * String.length (str_join "," (render_field <$> fields)) + 1 ≤ fuel)%nat →
  parse_value (S fuel) depth ("{" ++ str_join "," (render_field <$> fields) ++ String "}" rest) =
    Some (clean (JObject fields), rest).
Proof.
  intros Hl Hd Hf. change ("{" ++ ?t)%string with (String "{" t). destruct fields as [|[k j] fields].
  { cbn [parse_value]. change (skip_space (String "{" ?t)) with (String "{" t). cbv iota beta.
    by rewrite bool_decide_eq_false_2 by lia. }
  pose proof (parse_fields_render ((k, j) :: fields) (depth + 1) rest fuel ltac:(done) Hl Hf) as HE.
  assert (∃ t', (str_join "," (render_field <$> (k, j) :: fields) ++ String "}" rest)%string = String "034" t')
    as [t' Et].
  { cbn [fmap list_fmap]. rewrite join_cons. destruct (render_field <$> fields); by eexists. }
  rewrite Et in *. by apply parse_value_object.
Qed.

Lemma max_nonneg l : 0 ≤ foldr Z.max 0 l.
Proof. induction l; cbn; lia. Qed.

Lemma parse_render j : printable j → reads_back j.
Proof.
  induction j as [ | b | literal | s | l IH | fields IH] using json_nested_ind; intros Hp fuel depth rest Hf Hn Hr;
    (destruct fuel as [|fuel]; [pose proof (render_length _ Hp); lia|]).
  - done.
  - by destruct b.
  - by apply parse_value_number.
  - cbn [render printable] in *. unfold render_string. rewrite quote_app.
    cbn [parse_value]. change (skip_space (String "034" ?t)) with (String "034" t). cbv iota beta.
    by rewrite (parse_render_chars s).
  - cbn [render printable nesting] in *. rewrite foldr_and in Hp. rewrite !string_length_app in Hf.
    pose proof (max_nonneg (nesting <$> l)) as H0. rewrite <-!string_app_comp.
    apply parse_render_array; [|lia|cbn [String.length] in Hf; lia].
    pose proof (proj1 (foldr_max nesting l (maxNestingDepth - depth - 1) ltac:(lia)) ltac:(lia)) as Hd.
    rewrite Forall_forall in IH, Hp, Hd |- *. intros x Hx. specialize (Hd x Hx).
    split; [by apply IH, Hp|]. split; [by apply Hp|lia].
  - cbn [render printable nesting] in *. rewrite foldr_and in Hp. rewrite !string_length_app in Hf.
    pose proof (max_nonneg ((λ field, nesting field.2) <$> fields)) as H0. rewrite <-!string_app_comp.
    apply parse_render_object; [|lia|cbn [String.length] in Hf; lia].
    pose proof (proj1 (foldr_max (λ field, nesting field.2) fields (maxNestingDepth - depth - 1) ltac:(lia)) ltac:(lia)) as Hd.
    rewrite Forall_forall in IH, Hp, Hd |- *. intros x Hx. specialize (Hd x Hx). split; [by apply IH, Hp|lia].
Qed.

(** A document is read back from its JSON. *)
Lemma parse_marshal j : printable j → nesting j ≤ maxNestingDepth → parse_document (marshal j) = Some (clean j).
Proof.
  intros Hp Hn. unfold parse_document, marshal. rewrite string_of_bytes_of_string.
  pose proof (parse_render j Hp (2 * String.length (render j) + 2)%nat 0 "" ltac:(lia) ltac:(lia) I) as HR.
  rewrite string_app_nil_r in HR. rewrite HR. done.
Qed.

(** ** Integers *)

(** [Marshal] of a non-nil [[]uint64]. *)
Definition marshal_uints (values : list Z) : bytes := marshal (JArray (JNumber ∘ format_uint <$> values)).

(** [Marshal] of a struct of [uint64] fields. *)
Definition marshal_uint_struct (fields : list (string * Z)) : bytes :=
  marshal (JObject (prod_map id (JNumber ∘ format_uint) <$> fields)).

Lemma number_uint x : is_u64 x → number_ok (format_uint x).
Proof. intros Hx. exists x. auto. Qed.

(** Arrays and objects of shallow values. *)
Lemma nesting_array l d : 0 ≤ d → Forall (λ j, nesting j ≤ d) l → nesting (JArray l) ≤ 1 + d.
Proof. intros Hd Hl. cbn [nesting]. apply foldr_max in Hl; [lia|done]. Qed.

Lemma nesting_object fields d :
  0 ≤ d → Forall (λ field, nesting field.2 ≤ d) fields → nesting (JObject fields) ≤ 1 + d.
Proof. intros Hd Hl. cbn [nesting]. apply foldr_max in Hl; [lia|done]. Qed.

Lemma marshal_uints_length xs : (0 < length (marshal_uints xs))%nat.
Proof.
  unfold marshal_uints, marshal. cbn [render]. change ("[" ++ ?t)%string with (String "[" t).
  rewrite bytes_of_string_cons. cbn. lia.
Qed.

(** A slice of integers is read back from its JSON. *)
Lemma decode_marshal_uints xs :
  Forall is_u64 xs → parse_document (marshal_uints xs) ≫= decode_uints = Some xs.
Proof.
  intros Hxs. unfold marshal_uints. rewrite parse_marshal.
  - cbn [mbind option_bind clean decode_uints]. rewrite <-list_fmap_compose. by apply mapM_decode_uints.
  - cbn [printable]. rewrite foldr_and, Forall_fmap. eapply Forall_impl; [exact Hxs|]. apply number_uint.
  - etrans; [apply (nesting_array _ 0); [done|]|done]. by apply Forall_fmap, Forall_true.
Qed.

Definition plain_field (field : string * Z) : Prop := sanitize field.1 = field.1 ∧ is_u64 field.2.

(** A struct of integers is read back from its JSON. *)
Lemma decode_marshal_struct fields :
  Forall plain_field fields →
  parse_document (marshal_uint_struct fields) ≫= decode_uint_struct fields.*1 =
    Some (foldl (λ m field, <[field.1 := field.2]> m) ∅ fields).
Proof.
  intros Hf. unfold marshal_uint_struct. rewrite parse_marshal.
  - cbn [mbind option_bind clean decode_uint_struct]. rewrite <-list_fmap_compose.
    rewrite (list_fmap_ext _ (prod_map id (JNumber ∘ format_uint)) fields); last first.
    { intros ? [name x] Hin%list_elem_of_lookup_2. rewrite Forall_forall in Hf.
      destruct (Hf _ Hin) as [Hn _]. cbn in *. by rewrite Hn. }
    apply decode_members_uints. rewrite Forall_forall in Hf |- *.
    intros field Hin. split; [by apply list_elem_of_fmap_2|by apply Hf].
  - cbn [printable]. rewrite foldr_and, Forall_fmap. eapply Forall_impl; [exact Hf|].
    intros [name x] [Hn Hx]. by apply number_uint.
  - etrans; [apply (nesting_object _ 0); [done|]|done]. by apply Forall_fmap, Forall_true.
Qed.
