(* ===== verification/Utf8.v ===== *)
(** * UTF-8 text

    Text that is UTF-8 stays UTF-8 when it is cut at an ASCII separator. *)

From S2P Require Import Prelude GoLib Types Strconv Text Json JsonPrint.

Lemma string_cons_app a (s t : string) : (String a s ++ t = String a (s ++ t))%string.
Proof. done. Qed.

Lemma string_app_assoc (a b c : string) : ((a ++ b) ++ c = a ++ b ++ c)%string.
Proof. induction a as [|x a IH]; [done|]. by rewrite !string_cons_app, IH. Qed.

Lemma string_app_length (s t : string) : (String.length (s ++ t) = String.length s + String.length t)%nat.
Proof. induction s as [|a s IH]; [done|]. rewrite string_cons_app. cbn. by rewrite IH. Qed.

(** An ASCII character is no part of a longer sequence. *)
Lemma ascii_not_cont a : code a < 128 → is_cont a = false.
Proof. intros Ha. unfold is_cont. apply bool_decide_eq_false. lia. Qed.

Lemma sanitize_app_ascii s a t :
  code a < 128 → sanitize (s ++ String a t) = (sanitize s ++ String a (sanitize t))%string.
Proof.
  intros Ha. pose proof (ascii_not_cont a Ha) as Hc.
  assert (sanitize (String a t) = String a (sanitize t)) as Ht by (cbn [sanitize]; by rewrite bool_decide_eq_true_2).
  assert (∀ b, utf8_two b a = false) as H2 by (intros; unfold utf8_two; by rewrite Hc, andb_false_r).
  assert (∀ b c, utf8_three b a c = false) as H3 by (intros; unfold utf8_three; by rewrite Hc, andb_false_r).
  assert (∀ b c, utf8_three b c a = false) as H3' by (intros; unfold utf8_three; by rewrite Hc, andb_false_r).
  assert (∀ b c d, utf8_four b a c d = false) as H4 by (intros; unfold utf8_four; by rewrite Hc, andb_false_r).
  assert (∀ b c d, utf8_four b c a d = false) as H4' by (intros; unfold utf8_four; by rewrite Hc, andb_false_r).
  assert (∀ b c d, utf8_four b c d a = false) as H4'' by (intros; unfold utf8_four; by rewrite Hc, andb_false_r).
  remember (String.length s) as n eqn:En. revert s En. induction n as [n IH] using lt_wf_ind. intros s ->.
  assert (∀ s', (String.length s' < String.length s)%nat →
    sanitize (s' ++ String a t) = (sanitize s' ++ String a (sanitize t))%string) as Hrec by (intros s' Hl; by apply (IH _ Hl)).
  clear IH. destruct s as [|x s1]; [exact Ht|]. rewrite string_cons_app. cbn [sanitize].
  destruct (bool_decide (code x < 128)); [rewrite Hrec by (cbn; lia); done|].
  destruct s1 as [|y s2].
  { change ("" ++ String a t)%string with (String a t). cbv beta iota. rewrite H2.
    destruct t as [|c [|d t]]; rewrite ?H3, ?H4, ?Ht; done. }
  rewrite string_cons_app. destruct (utf8_two x y); [rewrite Hrec by (cbn; lia); done|].
  pose proof (Hrec (String y s2) ltac:(cbn; lia)) as H1. rewrite string_cons_app in H1.
  destruct s2 as [|z s3].
  { change ("" ++ String a t)%string with (String a t) in *. cbv beta iota. rewrite H3', H1.
    destruct t as [|d t]; rewrite ?H4', string_app_assoc; done. }
  rewrite string_cons_app in *. destruct (utf8_three x y z); [rewrite Hrec by (cbn; lia); done|].
  destruct s3 as [|w s4].
  { change ("" ++ String a t)%string with (String a t) in *. cbv beta iota. by rewrite H4'', H1, string_app_assoc. }
  rewrite string_cons_app in *. destruct (utf8_four x y z w); [rewrite Hrec by (cbn; lia); done|].
  by rewrite H1, string_app_assoc.
Qed.

(** Replacing ill-formed bytes never shortens a text. *)
Lemma sanitize_length s : (String.length s ≤ String.length (sanitize s))%nat.
Proof.
  remember (String.length s) as n eqn:En. revert s En. induction n as [n IH] using lt_wf_ind. intros s ->.
  assert (∀ s', (String.length s' < String.length s)%nat → (String.length s' ≤ String.length (sanitize s'))%nat) as Hrec
    by (intros s' Hl; by apply (IH _ Hl)). clear IH.
  destruct s as [|x s1]; [done|]. cbn [sanitize].
  pose proof (Hrec s1 ltac:(cbn; lia)) as H1.
  assert (String.length (String x s1) ≤ String.length (replacement ++ sanitize s1))%nat as Hbad.
  { rewrite string_app_length. change (String.length replacement) with 3%nat. cbn [String.length]. lia. }
  destruct (bool_decide (code x < 128)); [cbn; lia|].
  destruct s1 as [|y s2]; [change (1 ≤ 3)%nat; lia|]. pose proof (Hrec s2 ltac:(cbn; lia)) as H2.
  destruct (utf8_two x y); [cbn; lia|].
  destruct s2 as [|z s3]; [exact Hbad|]. pose proof (Hrec s3 ltac:(cbn; lia)) as H3.
  destruct (utf8_three x y z); [cbn; lia|].
  destruct s3 as [|w s4]; [exact Hbad|]. pose proof (Hrec s4 ltac:(cbn; lia)) as H4.
  destruct (utf8_four x y z w); [cbn; lia|]. exact Hbad.
Qed.

Lemma string_app_inv_length (s1 s2 t1 t2 : string) :
  String.length s1 = String.length s2 → (s1 ++ t1 = s2 ++ t2)%string → s1 = s2 ∧ t1 = t2.
Proof.
  revert s2. induction s1 as [|a s1 IH]; intros [|b s2]; try done. cbn [String.length]. intros [= Hl].
  rewrite !string_cons_app. intros [= -> Heq]. by destruct (IH s2 Hl Heq) as [-> ->].
Qed.

(** The parts of a UTF-8 text are UTF-8. *)
Lemma utf8_parts s a t :
  code a < 128 → sanitize (s ++ String a t) = (s ++ String a t)%string → sanitize s = s ∧ sanitize t = t.
Proof.
  intros Ha. rewrite sanitize_app_ascii by done. intros Heq.
  pose proof (f_equal String.length Heq) as Hl. rewrite !string_app_length in Hl. cbn in Hl.
  pose proof (sanitize_length s). pose proof (sanitize_length t).
  apply string_app_inv_length in Heq as [-> [= ->]]; [done|lia].
Qed.

Lemma str_split_cases sep s :
  str_split sep s = [s] ∨ ∃ w t, str_elem sep w = false ∧ s = (w ++ String sep t)%string.
Proof.
  induction s as [|a s IH]; [by left|]. destruct (decide (a = sep)) as [->|Ha].
  { right. by exists "", s. }
  destruct IH as [Hs|(w & t & Hw & ->)].
  - left. cbn. rewrite bool_decide_eq_false_2 by done. by rewrite Hs.
  - right. exists (String a w), t. split; [|done]. cbn. by rewrite bool_decide_eq_false_2.
Qed.

Lemma utf8_split sep s :
  code sep < 128 → sanitize s = s → Forall (λ w, sanitize w = w) (str_split sep s).
Proof.
  intros Hsep. remember (String.length s) as n eqn:En. revert s En. induction n as [n IH] using lt_wf_ind. intros s -> Hs.
  destruct (str_split_cases sep s) as [->|(w & t & Hw & ->)]; [by apply Forall_singleton|].
  apply utf8_parts in Hs as [Hw' Ht]; [|done]. rewrite str_split_app by done. apply Forall_cons. split; [done|].
  apply (IH (String.length t)); [rewrite string_app_length; cbn; lia|done|done].
Qed.
