(* ===== verification/JsonCodec.v ===== *)
(** * Records in JSON ([encoding/json])

    [json.Marshal] and [json.Unmarshal] of structs: how a member of a document
    is decoded into a field of each type the records use, members that are
    unknown, repeated or in another case, and a class of records with the
    round trip through their JSON. *)

From S2P Require Import Prelude GoLib Types Strconv Text Json JsonPrint.

Definition ErrJSON := ErrNew "json".

(** ** Decoding into a field that holds a value *)

Definition decode_string (current : string) (value : json) : option string :=
  match value with
  | JNull => Some current
  | JString s => Some s
  | _ => None
  end.

Definition decode_bool (current : bool) (value : json) : option bool :=
  match value with
  | JNull => Some current
  | JBool b => Some b
  | _ => None
  end.

(** [int64] and [int]: a number with an optional sign. *)
Definition decode_int (current : Z) (value : json) : option Z :=
  match value with
  | JNull => Some current
  | JNumber (String "-" literal) =>
      n ← parse_uint literal; if bool_decide (n ≤ 2 ^ 63) then Some (- n) else None
  | JNumber literal => n ← parse_uint literal; if bool_decide (n < 2 ^ 63) then Some n else None
  | _ => None
  end.

(** An unsigned integer below a bound, [uint8] or [uint64]. *)
Definition decode_byte (current : byte) (value : json) : option byte :=
  n ← decode_uint (byte_to_Z current) value;
  if bool_decide (n < 256) then Some (byte_of_Z n) else None.

(** [[]byte]: base64 in a string, or an array of numbers. *)
Definition decode_bytes (value : json) : option bytes :=
  match value with
  | JNull => Some []
  | JString s => base64_decode s
  | JArray l => mapM (decode_byte x00) l
  | _ => None
  end.

(** [[32]byte]: elements beyond the array are skipped, missing ones are zero. *)
Definition decode_hash (current : Hash) (value : json) : option Hash :=
  match value with
  | JNull => Some current
  | JArray l =>
      hash_of_bytes <$> mapM (λ '(b, j), decode_byte b j) (zip (hash_bytes current) (take 32 l))
  | _ => None
  end.

(** ** Structs *)

(** The fields of a struct: the name of a member, and how it is decoded. *)
Definition field_decoder (R : Type) : Type := json → R → option R.

Definition field_of {R A} (decode : A → json → option A) (get : R → A) (set : R → A → R) : field_decoder R :=
  λ value r, set r <$> decode (get r) value.

(** The decoder of the field a member is for. *)
Definition find_decoder {R} (fields : list (string * field_decoder R)) (key : string) : option (field_decoder R) :=
  name ← find_field fields.*1 key; (λ p, p.2.2) <$> list_find (λ field, field.1 = name) fields.

(** Members one after the other; unknown ones are skipped. *)
Fixpoint decode_object {R} (fields : list (string * field_decoder R)) (members : list (string * json)) (r : R)
    : option R :=
  match members with
  | [] => Some r
  | (key, value) :: members =>
      match find_decoder fields key with
      | None => decode_object fields members r
      | Some decode => r ← decode value r; decode_object fields members r
      end
  end.

Definition decode_struct {R} (fields : list (string * field_decoder R)) (value : json) (r : R) : option R :=
  match value with
  | JNull => Some r
  | JObject members => decode_object fields members r
  | _ => None
  end.

(** ** Encoding *)

Definition json_uint (n : Z) : json := JNumber (format_uint n).
Definition json_int (n : Z) : json :=
  JNumber (if bool_decide (n < 0) then String "-" (format_uint (- n)) else format_uint n).

(** A nil slice is [null]; the records keep no slice that is empty but not nil. *)
Definition json_bytes (b : bytes) : json := if bool_decide (b = []) then JNull else JString (base64_encode b).

Definition json_hash (h : Hash) : json := JArray (json_uint ∘ byte_to_Z <$> hash_bytes h).

(** A member with [omitempty]. *)
Definition unless (empty : bool) (key : string) (value : json) : list (string * json) :=
  if empty then [] else [(key, value)].

(** ** Maps *)

(** A [map[string]string]: members in the order of their keys. *)
Definition json_map (m : gmap string string) : json :=
  if bool_decide (m = ∅) then JNull
  else JObject ((λ '(key, value), (key, JString value)) <$> sort_by fst String.le (map_to_list m)).

Fixpoint decode_map_members (m : gmap string string) (members : list (string * json)) : option (gmap string string) :=
  match members with
  | [] => Some m
  | (key, value) :: members => s ← decode_string "" value; decode_map_members (<[key := s]> m) members
  end.

Definition decode_map (current : gmap string string) (value : json) : option (gmap string string) :=
  match value with
  | JNull => Some ∅
  | JObject members => decode_map_members current members
  | _ => None
  end.

(** ** Records *)

Class JsonRecord (R : Type) := {
  json_fields : list (string * field_decoder R);
  json_zero : R;
  json_members : R → list (string * json)
}.

Section records.
Context {R : Type} `{!JsonRecord R}.

Definition to_json (r : R) : json := JObject (json_members r).
Definition of_json (value : json) (r : R) : option R := decode_struct json_fields value r.

(** [json.Marshal], which does not fail on such records. *)
Definition marshal_json (r : R) : bytes := marshal (to_json r).

(** [json.Unmarshal] into a new record. *)
Definition unmarshal_json (data : bytes) : result R :=
  match parse_document data ≫= λ value, of_json value json_zero with
  | Some r => Ok r
  | None => Err ErrJSON
  end.
End records.

(** What a record promises: its document can be printed, and decoding the
    document a reader gets gives the record with its strings as UTF-8. *)
Class LawfulJson (R : Type) `{!JsonRecord R} := {
  json_ok : R → Prop;
  clean_record : R → R;
  json_depth : Z;
  json_printable r : json_ok r → printable (to_json r);
  json_shallow r : nesting (to_json r) ≤ json_depth;
  json_depth_ok : 0 ≤ json_depth ≤ maxNestingDepth;
  json_decodes r : json_ok r → of_json (clean (to_json r)) json_zero = Some (clean_record r)
}.

(** A record is read back from its JSON. *)
Lemma unmarshal_marshal_json {R} `{LawfulJson R} (r : R) :
  json_ok r → unmarshal_json (marshal_json r) = Ok (clean_record r).
Proof.
  intros Hr. unfold unmarshal_json, marshal_json. rewrite parse_marshal.
  - cbn [mbind option_bind]. by rewrite json_decodes.
  - by apply json_printable.
  - pose proof (json_shallow r). pose proof json_depth_ok. lia.
Qed.

(** ** Slices and pointers of records *)

(** [Unmarshal] into a slice of structs. *)
Definition decode_slice {R} `{!JsonRecord R} (value : json) : option (list R) :=
  match value with
  | JNull => Some []
  | JArray l => mapM (λ element, of_json element json_zero) l
  | _ => None
  end.

(** A slice of structs; a nil slice is [null]. *)
Definition json_slice {R} `{!JsonRecord R} (l : list R) : json :=
  if bool_decide (length l = 0%nat) then JNull else JArray (to_json <$> l).

(** [json.Unmarshal] into a slice. *)
Definition unmarshal_with {A} (decode : json → option A) (data : bytes) : result A :=
  match parse_document data ≫= decode with Some a => Ok a | None => Err ErrJSON end.

(** [Unmarshal] into a pointer to a struct. *)
Definition decode_pointer {R} `{!JsonRecord R} (current : option R) (value : json) : option (option R) :=
  match value with
  | JNull => Some None
  | _ => Some <$> of_json value (default json_zero current)
  end.

(** A pointer with [omitempty]. *)
Definition json_pointer {R} `{!JsonRecord R} (key : string) (value : option R) : list (string * json) :=
  match value with None => [] | Some r => [(key, to_json r)] end.

(** ** Values that are read back *)

Lemma sanitize_ascii s : str_forall (λ a, bool_decide (code a < 128)) s = true → sanitize s = s.
Proof.
  induction s as [|a s IH]; [done|]. cbn [str_forall sanitize]. intros [Ha Hs]%andb_true_iff.
  by rewrite Ha, IH.
Qed.

Lemma base64_char_ascii n : bool_decide (code (base64_char n) < 128) = true.
Proof.
  apply bool_decide_eq_true. unfold base64_char, code.
  match goal with |- context [Z.to_N ?e] => set (x := e) end. assert (x < 128) as Hx by (unfold x; repeat case_bool_decide; lia).
  rewrite N_ascii_embedding; lia.
Qed.

Lemma base64_encode_ascii b : str_forall (λ a, bool_decide (code a < 128)) (base64_encode b) = true.
Proof.
  remember (length b) as n eqn:En. revert b En. induction n as [n IH] using lt_wf_ind. intros b ->.
  destruct b as [|x [|y [|z b]]]; [done|cbn..]; rewrite !base64_char_ascii; [done..|].
  cbn. apply (IH (length b)); [cbn; lia|done].
Qed.

Lemma decode_bytes_json b : decode_bytes (clean (json_bytes b)) = Some b.
Proof.
  unfold json_bytes. case_bool_decide as Hb; [by rewrite Hb|]. cbn [clean decode_bytes].
  rewrite sanitize_ascii by apply base64_encode_ascii. apply base64_decode_encode.
Qed.

Lemma decode_uint_json current n : is_u64 n → decode_uint current (clean (json_uint n)) = Some n.
Proof. intros Hn. cbn. by apply parse_uint_format. Qed.

Definition is_i64 (n : Z) : Prop := - 2 ^ 63 ≤ n < 2 ^ 63.

Lemma decode_int_json current n : is_i64 n → decode_int current (clean (json_int n)) = Some n.
Proof.
  unfold is_i64. intros Hn. unfold json_int. cbn [clean]. case_bool_decide as H0.
  - assert (is_u64 (- n)) as Hu by (unfold is_u64, two64; lia). cbn [decode_int].
    rewrite parse_uint_format by done. cbn. rewrite bool_decide_eq_true_2 by lia. f_equal. lia.
  - assert (is_u64 n) as Hu by (unfold is_u64, two64; lia). pose proof (parse_uint_format n Hu) as HP.
    destruct (format_uint_digits n Hu) as (a & d & Ef & Hd & _). rewrite Ef in *. cbn [str_forall] in Hd.
    apply andb_true_iff in Hd as [Ha _]. revert HP. pattern a. apply (digit_cases _ a Ha); intros HP; cbn [decode_int];
      rewrite HP; cbn; by rewrite bool_decide_eq_true_2 by lia.
Qed.

Lemma printable_int n : is_i64 n → printable (json_int n).
Proof.
  unfold is_i64, json_int. intros Hn. cbn [printable]. case_bool_decide.
  - exists (- n). split; [unfold is_u64, two64; lia|by right].
  - exists n. split; [unfold is_u64, two64; lia|by left].
Qed.

Lemma byte_u64 b : is_u64 (byte_to_Z b).
Proof. pose proof (byte_to_Z_range b). unfold is_u64, two64. lia. Qed.

Lemma decode_byte_json current b : decode_byte current (clean (json_uint (byte_to_Z b))) = Some b.
Proof.
  unfold decode_byte. rewrite decode_uint_json by apply byte_u64. cbn [mbind option_bind].
  pose proof (byte_to_Z_range b). rewrite bool_decide_eq_true_2 by lia. by rewrite byte_of_Z_to_Z.
Qed.

Lemma hash_of_hash_bytes h : hash_of_bytes (hash_bytes h) = h.
Proof.
  apply vec_eq. intros i. unfold hash_of_bytes, hash_bytes. rewrite lookup_fun_to_vec.
  by rewrite (proj1 (vlookup_lookup h i (h !!! i)) eq_refl).
Qed.

Lemma decode_hash_json current h : decode_hash current (clean (json_hash h)) = Some h.
Proof.
  unfold json_hash. cbn [clean decode_hash]. rewrite <-list_fmap_compose.
  rewrite take_ge by (by rewrite length_fmap, hash_bytes_length).
  assert (∀ cur l, length cur = length l →
    mapM (λ '(b, j), decode_byte b j) (zip cur ((clean ∘ (json_uint ∘ byte_to_Z)) <$> l)) = Some l) as Hm.
  { intros cur l. revert cur. induction l as [|b l IH]; intros [|c cur] Hl; try done.
    cbn [fmap list_fmap zip_with mapM]. change ((clean ∘ _) b) with (clean (json_uint (byte_to_Z b))).
    rewrite (decode_byte_json c b). cbn [mbind option_bind]. by rewrite IH by (by injection Hl). }
  rewrite Hm by (by rewrite !hash_bytes_length). exact (f_equal Some (hash_of_hash_bytes h)).
Qed.

Lemma printable_bytes b : printable (json_bytes b).
Proof. unfold json_bytes. by case_bool_decide. Qed.

Lemma printable_hash h : printable (json_hash h).
Proof.
  unfold json_hash. cbn [printable]. rewrite foldr_and, Forall_fmap. apply Forall_true.
  intros b. apply number_uint, byte_u64.
Qed.

Lemma printable_uint n : is_u64 n → printable (json_uint n).
Proof. apply number_uint. Qed.

Lemma nesting_hash h : nesting (json_hash h) ≤ 1.
Proof. apply (nesting_array _ 0); [done|]. by apply Forall_fmap, Forall_true. Qed.

Lemma nesting_bytes b : nesting (json_bytes b) ≤ 1.
Proof. unfold json_bytes. by case_bool_decide. Qed.

(** ** Structs that are read back *)

Section structs.
Context {R : Type} (fields : list (string * field_decoder R)).

Lemma decode_member key value members r decode r1 x :
  sanitize key = key → find_decoder fields key = Some decode → decode (clean value) r = Some r1 →
  decode_object fields (clean_field <$> members) r1 = Some x →
  decode_object fields (clean_field <$> (key, value) :: members) r = Some x.
Proof. intros Hk Hd H1 Hx. cbn. by rewrite Hk, Hd, H1. Qed.

(** A member that is left out when its value is the one the field has. *)
Lemma decode_unless (empty : bool) key value members r decode r1 x :
  sanitize key = key → find_decoder fields key = Some decode →
  (empty = false → decode (clean value) r = Some r1) → (empty = true → r1 = r) →
  decode_object fields (clean_field <$> members) r1 = Some x →
  decode_object fields (clean_field <$> unless empty key value ++ members) r = Some x.
Proof.
  intros Hk Hd H1 H0 Hx. unfold unless. destruct empty; [by rewrite <-H0|].
  change ([(key, value)] ++ members) with ((key, value) :: members). eapply decode_member; eauto.
Qed.

Lemma decode_unless_last (empty : bool) key value r decode r1 x :
  sanitize key = key → find_decoder fields key = Some decode →
  (empty = false → decode (clean value) r = Some r1) → (empty = true → r1 = r) → r1 = x →
  decode_object fields (clean_field <$> unless empty key value) r = Some x.
Proof. intros ???? <-. rewrite <-(app_nil_r (unless _ _ _)). by eapply decode_unless. Qed.
End structs.

Lemma field_of_Some {R A} (decode : A → json → option A) (get : R → A) set r value x :
  decode (get r) value = Some x → field_of decode get set value r = Some (set r x).
Proof. unfold field_of. by intros ->. Qed.

Lemma decode_string_json current s : decode_string current (clean (JString s)) = Some (sanitize s).
Proof. done. Qed.

Lemma decode_bool_json current b : decode_bool current (clean (JBool b)) = Some b.
Proof. done. Qed.

Lemma decode_slice_json {R} `{LawfulJson R} (l : list R) :
  Forall json_ok l → decode_slice (clean (JArray (to_json <$> l))) = Some (clean_record <$> l).
Proof.
  intros Hl. cbn [clean decode_slice]. induction Hl as [|r l Hr Hl IH]; [done|].
  cbn [fmap list_fmap mapM]. cbv beta. by rewrite json_decodes, IH by done.
Qed.

Lemma decode_pointer_json {R} `{LawfulJson R} (r : R) :
  json_ok r → decode_pointer None (clean (to_json r)) = Some (Some (clean_record r)).
Proof.
  intros Hr. change (decode_pointer None (clean (to_json r))) with (Some <$> of_json (clean (to_json r)) json_zero).
  by rewrite json_decodes.
Qed.

Section pointers.
Context {R A : Type} (fields : list (string * field_decoder R)) `{LawfulJson A}.
Context (get : R → option A) (set : R → option A → R).

Lemma decode_pointer_member key (value : option A) members r x :
  sanitize key = key → find_decoder fields key = Some (field_of decode_pointer get set) →
  get r = None → set r None = r → from_option json_ok True value →
  decode_object fields (clean_field <$> members) (set r (clean_record <$> value)) = Some x →
  decode_object fields (clean_field <$> json_pointer key value ++ members) r = Some x.
Proof.
  intros Hk Hd Hg Hs Hv Hx. destruct value as [a|]; cbn [json_pointer]; [|by cbn in Hx; rewrite Hs in Hx].
  change ([(key, to_json a)] ++ members) with ((key, to_json a) :: members).
  eapply decode_member; [done|done| |exact Hx]. unfold field_of. rewrite Hg.
  by rewrite decode_pointer_json.
Qed.

Lemma decode_pointer_last key (value : option A) r x :
  sanitize key = key → find_decoder fields key = Some (field_of decode_pointer get set) →
  get r = None → set r None = r → from_option json_ok True value → set r (clean_record <$> value) = x →
  decode_object fields (clean_field <$> json_pointer key value) r = Some x.
Proof. intros ????? <-. rewrite <-(app_nil_r (json_pointer _ _)). by eapply decode_pointer_member. Qed.
End pointers.

(** The members of a map, each key once. *)
Lemma decode_map_members_json m l :
  NoDup l.*1 → decode_map_members m ((λ '(key, value), (key, JString value)) <$> l) = Some (list_to_map l ∪ m).
Proof.
  revert m. induction l as [|[k v] l IH]; intros m Hnd; [by rewrite list_to_map_nil, (left_id_L ∅ (∪))|].
  cbn [fmap list_fmap fst] in Hnd. apply NoDup_cons in Hnd as [Hk Hnd].
  cbn [fmap list_fmap decode_map_members decode_string mbind option_bind]. rewrite IH by done. f_equal.
  rewrite list_to_map_cons, <-insert_union_l, <-insert_union_r; [done|]. by apply not_elem_of_list_to_map_1.
Qed.

(** A map whose keys and values are UTF-8. *)
Definition utf8_map (m : gmap string string) : Prop := map_Forall (λ k v, sanitize k = k ∧ sanitize v = v) m.

Lemma decode_map_json m : utf8_map m → decode_map ∅ (clean (json_map m)) = Some m.
Proof.
  intros Hm. unfold json_map. case_bool_decide as H0; [by rewrite H0|]. cbn [clean decode_map].
  rewrite <-list_fmap_compose.
  assert (sort_by fst String.le (map_to_list m) ≡ₚ map_to_list m) as Hp by apply sort_by_perm.
  rewrite (list_fmap_ext _ (λ '(key, value), (key, JString value))).
  - rewrite decode_map_members_json by (rewrite Hp; apply NoDup_fst_map_to_list).
    rewrite (right_id_L ∅ (∪)). f_equal. rewrite (list_to_map_proper _ (map_to_list m)); [apply list_to_map_to_list|rewrite Hp; apply NoDup_fst_map_to_list|done].
  - intros i [k v] Hi%list_elem_of_lookup_2. rewrite Hp, elem_of_map_to_list in Hi.
    destruct (Hm k v Hi) as [Hk Hv]. cbn. by rewrite Hk, Hv.
Qed.

Lemma printable_map m : printable (json_map m).
Proof.
  unfold json_map. case_bool_decide; [done|]. cbn [printable]. rewrite foldr_and, Forall_fmap.
  apply Forall_true. by intros [k v].
Qed.

Lemma nesting_map m : nesting (json_map m) ≤ 1.
Proof.
  unfold json_map. case_bool_decide; [done|]. apply (nesting_object _ 0); [done|]. apply Forall_fmap, Forall_true.
  by intros [k v].
Qed.

Lemma decode_json_slice {R} `{LawfulJson R} (l : list R) :
  Forall json_ok l → decode_slice (clean (json_slice l)) = Some (clean_record <$> l).
Proof.
  intros Hl. unfold json_slice. case_bool_decide as H0; [|by apply decode_slice_json].
  by apply length_zero_iff_nil in H0 as ->.
Qed.

(** ** Documents of structs *)

Lemma printable_object members : Forall (λ m, printable m.2) members → printable (JObject members).
Proof. cbn [printable]. by rewrite foldr_and. Qed.

Lemma printable_array {R} `{LawfulJson R} (l : list R) : Forall json_ok l → printable (JArray (to_json <$> l)).
Proof.
  intros Hl. cbn [printable]. rewrite foldr_and, Forall_fmap. eapply Forall_impl; [exact Hl|]. apply json_printable.
Qed.

Lemma nesting_records {R} `{LawfulJson R} (l : list R) : nesting (JArray (to_json <$> l)) ≤ 1 + json_depth (R:=R).
Proof.
  apply nesting_array; [apply json_depth_ok|]. apply Forall_fmap, Forall_true. apply json_shallow.
Qed.

Lemma printable_slice {R} `{LawfulJson R} (l : list R) : Forall json_ok l → printable (json_slice l).
Proof. intros Hl. unfold json_slice. case_bool_decide; [done|by apply printable_array]. Qed.

Lemma nesting_slice {R} `{LawfulJson R} (l : list R) : nesting (json_slice l) ≤ 1 + json_depth (R:=R).
Proof.
  unfold json_slice. case_bool_decide; [|apply nesting_records]. pose proof (json_depth_ok (R:=R)). cbn [nesting]. lia.
Qed.

(** A slice is read back. *)
Lemma unmarshal_slice {R} `{LawfulJson R} (l : list R) :
  Forall json_ok l → json_depth (R:=R) < maxNestingDepth →
  unmarshal_with decode_slice (marshal (json_slice l)) = Ok (clean_record <$> l).
Proof.
  intros Hl Hd. unfold unmarshal_with. rewrite parse_marshal; [|by apply printable_slice|].
  - cbn [mbind option_bind]. by rewrite decode_json_slice.
  - pose proof (nesting_slice l). lia.
Qed.

Lemma Forall_unless (P : string * json → Prop) empty key value :
  (empty = false → P (key, value)) → Forall P (unless empty key value).
Proof. unfold unless. destruct empty; [done|]. intros HP. apply Forall_singleton. by apply HP. Qed.

Lemma printable_pointer {A} `{LawfulJson A} key (value : option A) :
  from_option json_ok True value → Forall (λ m, printable m.2) (json_pointer key value).
Proof. destruct value as [a|]; [|done]. intros Ha. by apply Forall_singleton, json_printable. Qed.

Lemma nesting_pointer {A} `{LawfulJson A} d key (value : option A) :
  json_depth (R:=A) ≤ d → Forall (λ m, nesting m.2 ≤ d) (json_pointer key value).
Proof.
  destruct value as [a|]; [|done]. intros Hd. apply Forall_singleton. cbn [snd]. pose proof (json_shallow a). lia.
Qed.

Create HintDb json.
#[global] Hint Resolve printable_bytes printable_hash printable_uint printable_int printable_array json_printable
  printable_map printable_slice I : json.
#[global] Hint Resolve field_of_Some decode_string_json decode_bool_json decode_uint_json decode_int_json decode_bytes_json
  decode_hash_json decode_slice_json decode_pointer_json decode_map_json decode_json_slice : json.

(** Decode the members of a record one by one. *)
Ltac json_value :=
  cbn [fst snd]; cbv beta; eapply field_of_Some; first [by eauto with json | by apply json_decodes | idtac].
Ltac json_open :=
  unfold of_json, to_json;
  lazymatch goal with |- context [@json_members _ ?I _] => unfold I end;
  cbn [json_members clean decode_struct json_zero app].
Ltac json_decode :=
  json_open;
  repeat
    lazymatch goal with
    | |- decode_object _ (_ <$> []) _ = _ => reflexivity
    | |- decode_object _ (_ <$> (_, _) :: _) _ = _ =>
        eapply decode_member; [reflexivity|reflexivity|json_value|]
    | |- decode_object _ (_ <$> unless _ _ _ ++ _) _ = _ =>
        eapply decode_unless; [reflexivity|reflexivity|intros _; json_value| |]
    | |- decode_object _ (_ <$> unless _ _ _) _ = _ =>
        eapply decode_unless_last; [reflexivity|reflexivity|intros _; json_value| |]
    | |- decode_object _ (_ <$> json_pointer _ _ ++ _) _ = _ =>
        eapply decode_pointer_member; [reflexivity..|done|]
    | |- decode_object _ (_ <$> json_pointer _ _) _ = _ =>
        eapply decode_pointer_last; [reflexivity..|done|]
    end.

(** Show that all members of a record have a property. *)
Ltac json_members tac :=
  lazymatch goal with |- context [@json_members _ ?I _] => unfold I end; cbn [json_members];
  repeat lazymatch goal with
    | |- Forall _ (_ ++ _) => apply Forall_app; split
    | |- Forall _ (_ :: _) => apply Forall_cons; split
    | |- Forall _ [] => apply Forall_nil_2
    | |- Forall _ (unless _ _ _) => apply Forall_unless; intros _
    | |- Forall _ (json_pointer _ _) => first [apply printable_pointer | apply nesting_pointer]
    end; cbn [snd]; tac.

Ltac json_printable := unfold to_json; apply printable_object; json_members ltac:(by eauto with json).

(** The nesting of a record whose members are nested less. *)
Ltac json_nesting :=
  unfold to_json;
  lazymatch goal with |- nesting _ ≤ ?d => apply (nesting_object _ (d - 1)); [done|] end;
  json_members ltac:(first [done | etrans; [first [apply nesting_hash | apply nesting_bytes | apply json_shallow |
    apply nesting_records | apply nesting_map | apply nesting_slice]|done]]).

(** A member left out has the value of the new record. *)
Ltac json_left_out :=
  let He := fresh in intros He;
  first [apply bool_decide_eq_true in He | apply negb_true_iff in He]; rewrite He; reflexivity.

Ltac json_record := json_decode; first [json_left_out | done].
