(* ===== verification/TxTags.v ===== *)
(** * Transaction tags ([src/mempool/priority.go], [src/economics/amount.go])

    The mempool and the fair-ordering rule read the signer, nonce, fee and
    priority of a transaction from [key=value] parts of its payload.  The
    payload of a ["signed:"] transaction is inside a base64 JSON envelope. *)

From S2P Require Import Prelude GoLib Sha256 Types Strconv Text Json JsonPrint JsonCodec.

(** The struct [mempoolTxPayload] decodes the envelope into. *)
Record MempoolEnvelope := mkMempoolEnvelope {
  MEnv_SchemaVersion : string;
  MEnv_Payload : string
}.

#[global] Instance mempool_envelope_json : JsonRecord MempoolEnvelope := {|
  json_zero := mkMempoolEnvelope "" "";
  json_fields :=
    [("schema_version",
      field_of decode_string MEnv_SchemaVersion (λ '(mkMempoolEnvelope _ b) x, mkMempoolEnvelope x b));
     ("payload", field_of decode_string MEnv_Payload (λ '(mkMempoolEnvelope a _) x, mkMempoolEnvelope a x))];
  json_members e := [("schema_version", JString (MEnv_SchemaVersion e)); ("payload", JString (MEnv_Payload e))]
|}.

Definition mempoolTxPayload (tx : Tx) : Tx :=
  let s := string_of_bytes tx in
  if negb (has_prefix s "signed:") then tx
  else match base64_decode (trim_prefix s "signed:") with
  | None => tx
  | Some document =>
      match unmarshal_json document with
      | Err _ => tx
      | Ok envelope =>
          if bool_decide (MEnv_SchemaVersion envelope ≠ "v1") || bool_decide (MEnv_Payload envelope = "") then tx
          else match base64_decode (MEnv_Payload envelope) with
               | None => tx
               | Some payload => payload
               end
      end
  end.

(** The value of the first part [key=value] of the payload. *)
Fixpoint first_tag (key : string) (parts : list string) : option string :=
  match parts with
  | [] => None
  | part :: parts =>
      match str_cut "=" part with
      | Some (tagKey, tagValue) =>
          if bool_decide (tagKey = key) then Some tagValue else first_tag key parts
      | None => first_tag key parts
      end
  end.

Definition txStringTag (tx : Tx) (key : string) : option string :=
  first_tag key (str_split ":" (string_of_bytes (mempoolTxPayload tx))).

Definition txNumericTagFound (tx : Tx) (key : string) : option Z :=
  txStringTag tx key ≫= parse_uint.

Definition txNumericTag (tx : Tx) (key : string) : Z := default 0 (txNumericTagFound tx key).

Definition TxPriority (tx : Tx) : Z := txNumericTag tx "priority".
Definition TxNonce (tx : Tx) : option Z := txNumericTagFound tx "nonce".
Definition TxSigner (tx : Tx) : option string := txStringTag tx "signer".

Definition ReplacementKey (tx : Tx) : option string :=
  signer ← TxSigner tx;
  if bool_decide (signer = "") then None
  else
    nonce ← TxNonce tx;
    Some (signer ++ "/" ++ format_uint nonce)%string.
