(* ===== verification/Economics.v ===== *)
(** * Amounts and base fee ([src/economics])

    Amounts are decimal numbers with an optional unit, parsed into exact
    integers; the base fee moves with the gas used by the last block. *)

From S2P Require Import Prelude GoLib Types Strconv TxTags Text.

Definition ErrInvalidAmount := ErrNew "economics.ErrInvalidAmount".

(** ** Amounts *)

Definition AtomicDenom : string := "avxo".
Definition GigaDenom : string := "gvxo".
Definition DisplayDenom : string := "vexo".
Definition GigaFactor : Z := 1000000000.
Definition DisplayFactor : Z := 1000000000000000000.

Record DenomUnit := mkUnit {
  Unit_Denom : string;
  Unit_Exponent : Z;
  Unit_Factor : Z
}.

Definition Units : list DenomUnit :=
  [mkUnit DisplayDenom 18 DisplayFactor; mkUnit GigaDenom 9 GigaFactor; mkUnit AtomicDenom 0 1].

Definition decimalDigits (value : string) : bool :=
  if bool_decide (value = "") then false else all_digits value.

Definition parseDecimalAmountBig (number : string) (unit : DenomUnit) : result Z :=
  let number := trim_space number in
  check ErrInvalidAmount
    (negb (bool_decide (number = "") || has_prefix number "-" || has_prefix number "+")) ≫= λ _,
  let '(whole, fraction, hasFraction) :=
    match str_cut "." number with
    | Some (whole, fraction) => (whole, fraction, true)
    | None => (number, "", false)
    end in
  let whole := if bool_decide (whole = "") then "0" else whole in
  check ErrInvalidAmount (decimalDigits whole) ≫= λ _,
  check ErrInvalidAmount (negb (hasFraction && negb (decimalDigits fraction))) ≫= λ _,
  check ErrInvalidAmount
    (negb (bool_decide (Unit_Exponent unit < Z.of_nat (String.length fraction)))) ≫= λ _,
  let amount := big_of_string whole * Unit_Factor unit in
  if negb hasFraction || bool_decide (fraction = "") then Ok amount
  else
    let padded :=
      (fraction ++ str_repeat "0" (Z.to_nat (Unit_Exponent unit) - String.length fraction))%string in
    Ok (amount + big_of_string padded).

(** The loop over the units. *)
Fixpoint parse_units (value : string) (units : list DenomUnit) : result Z :=
  match units with
  | [] => Err ErrInvalidAmount
  | unit :: units =>
      match cut_suffix value (Unit_Denom unit) with
      | None => parse_units value units
      | Some number => parseDecimalAmountBig number unit
      end
  end.

Definition ParseAmountBig (input : string) : result Z :=
  let value := trim_space (to_lower input) in
  if bool_decide (value = "") then Err ErrInvalidAmount
  else if decimalDigits value then Ok (big_of_string value)
  else parse_units value Units.

(** [ParseAmount]: amounts that fit a [uint64]. *)
Definition ParseAmount (input : string) : result Z :=
  match ParseAmountBig input with
  | Ok amount => if bool_decide (is_u64 amount) then Ok amount else Err ErrInvalidAmount
  | Err _ => Err ErrInvalidAmount
  end.

(** [DenomFactor] *)
Fixpoint find_factor (normalized : string) (units : list DenomUnit) : option Z :=
  match units with
  | [] => None
  | unit :: units =>
      if bool_decide (Unit_Denom unit = normalized) then Some (Unit_Factor unit)
      else find_factor normalized units
  end.
Definition DenomFactor (denom : string) : option Z := find_factor (trim_space (to_lower denom)) Units.

(** ** Base fee *)

Record BaseFeeParams := mkBaseFeeParams {
  CurrentBaseFee : Z;
  BF_GasUsed : Z;
  TargetGas : Z;
  ChangeDenominator : Z;
  MinBaseFee : Z;
  MaxBaseFee : Z
}.

Definition baseFeeDelta (current gasDelta targetGas denominator : Z) : Z :=
  if bool_decide (current = 0) || bool_decide (gasDelta = 0) || bool_decide (targetGas = 0) ||
     bool_decide (denominator = 0) then 0
  else if bool_decide (max_u64 / gasDelta < current) then max_u64 / denominator
  else (wrap64 (current * gasDelta) / targetGas) / denominator.

Definition clampBaseFee (value minBaseFee maxBaseFee : Z) : Z :=
  let value := if bool_decide (value < minBaseFee) then minBaseFee else value in
  if bool_decide (0 < maxBaseFee) && bool_decide (maxBaseFee < value) then maxBaseFee else value.

Definition NextBaseFee (params : BaseFeeParams) : Z :=
  let current := CurrentBaseFee params in
  let clamp value := clampBaseFee value (MinBaseFee params) (MaxBaseFee params) in
  let gas := BF_GasUsed params in let target := TargetGas params in
  let denominator := ChangeDenominator params in
  if bool_decide (current = 0) || bool_decide (target = 0) || bool_decide (denominator = 0)
  then current
  else if bool_decide (gas = target) then clamp current
  else if bool_decide (target < gas) then
    let delta := baseFeeDelta current (wrap64 (gas - target)) target denominator in
    let delta := if bool_decide (delta = 0) then 1 else delta in
    if bool_decide (wrap64 (max_u64 - delta) < current) then clamp max_u64
    else clamp (wrap64 (current + delta))
  else
    let delta := baseFeeDelta current (wrap64 (target - gas)) target denominator in
    if bool_decide (current ≤ delta) then clamp 0
    else clamp (wrap64 (current - delta)).

(** ** Amounts are exact *)

Lemma unit_factor unit : unit ∈ Units → Unit_Factor unit = 10 ^ Unit_Exponent unit.
Proof. intros H. repeat (apply elem_of_cons in H as [->|H]; [reflexivity|]). by apply elem_of_nil in H. Qed.

(** The units have four letters of their own, none of them a digit. *)
Lemma unit_denom unit :
  unit ∈ Units →
  to_lower (Unit_Denom unit) = Unit_Denom unit ∧ all_digits (Unit_Denom unit) = false ∧
  last_edge (Unit_Denom unit) = true ∧ 0 ≤ Unit_Exponent unit ∧
  (∀ s, parse_units (s ++ Unit_Denom unit) Units = parseDecimalAmountBig s unit).
Proof.
  intros H. repeat (apply elem_of_cons in H as [->|H]; [split_and!; try done|]);
    [..|by apply elem_of_nil in H];
    intros s; cbn [parse_units Units Unit_Denom]; by rewrite !cut_suffix_app.
Qed.

(** Number and unit are separated and trimmed as written. *)
Lemma ParseAmountBig_unit s unit :
  unit ∈ Units → head_edge s = true → to_lower s = s →
  ParseAmountBig (s ++ Unit_Denom unit) = parseDecimalAmountBig s unit.
Proof.
  intros Hu Hh Hl. destruct (unit_denom unit Hu) as (Hlow & Hnd & Hle & _ & Hparse).
  unfold ParseAmountBig. rewrite to_lower_app, Hl, Hlow.
  rewrite trim_space_edges by (by apply head_edge_app || by apply last_edge_app).
  rewrite bool_decide_eq_false_2; last first.
  { intros Heq. apply (head_edge_app s (Unit_Denom unit)) in Hh. by rewrite Heq in Hh. }
  unfold decimalDigits. destruct (bool_decide _); [apply Hparse|].
  rewrite all_digits_app, Hnd, andb_false_r. apply Hparse.
Qed.

Lemma digits_no_sign s : s ≠ "" → all_digits s = true → ∀ t,
  bool_decide ((s ++ t)%string = "") || has_prefix (s ++ t) "-" || has_prefix (s ++ t) "+" = false.
Proof.
  intros Hne Hs t. destruct s as [|a s]; [done|]. cbn in Hs.
  apply andb_true_iff in Hs as [Ha%bool_decide_eq_true _].
  change (String a s ++ t)%string with (String a (s ++ t)).
  destruct a as [[] [] [] [] [] [] [] []]; try (vm_compute in Ha; by destruct Ha); done.
Qed.

Lemma decimalDigits_digits s : s ≠ "" → all_digits s = true → decimalDigits s = true.
Proof. intros Hne Hs. unfold decimalDigits. by rewrite bool_decide_eq_false_2. Qed.

Lemma ParseAmountBig_whole unit whole :
  unit ∈ Units → whole ≠ "" → all_digits whole = true →
  ParseAmountBig (whole ++ Unit_Denom unit) = Ok (big_of_string whole * Unit_Factor unit).
Proof.
  intros Hu Hw Hdw. destruct (unit_denom unit Hu) as (_ & _ & _ & He & _).
  destruct (digits_edges whole Hw Hdw) as [Hwh Hwl].
  rewrite ParseAmountBig_unit by (done || by apply to_lower_digits).
  unfold parseDecimalAmountBig. rewrite trim_space_edges by done.
  pose proof (digits_no_sign whole Hw Hdw "") as Hs. rewrite string_app_nil_r in Hs.
  rewrite Hs, str_cut_none by done. cbn [negb check mbind result_bind].
  rewrite (bool_decide_eq_false_2 (whole = "")), (decimalDigits_digits whole) by done.
  cbn [negb andb check mbind result_bind String.length].
  by rewrite (bool_decide_eq_false_2 (_ < _)) by lia.
Qed.

Lemma ParseAmountBig_fraction unit whole fraction :
  unit ∈ Units → whole ≠ "" → fraction ≠ "" →
  all_digits whole = true → all_digits fraction = true →
  ParseAmountBig (whole ++ String "." fraction ++ Unit_Denom unit) =
  if bool_decide (Z.of_nat (String.length fraction) ≤ Unit_Exponent unit) then
    Ok (big_of_string whole * Unit_Factor unit +
        big_of_string fraction * 10 ^ (Unit_Exponent unit - Z.of_nat (String.length fraction)))
  else Err ErrInvalidAmount.
Proof.
  intros Hu Hw Hf Hdw Hdf. set (s := (whole ++ String "." fraction)%string).
  assert (whole ++ String "." fraction ++ Unit_Denom unit = s ++ Unit_Denom unit)%string as ->.
  { apply (string_app_comp whole (String "." fraction)). }
  destruct (unit_denom unit Hu) as (_ & _ & _ & He & _).
  destruct (digits_edges whole Hw Hdw) as [Hwh _], (digits_edges fraction Hf Hdf) as [_ Hfl].
  assert (head_edge s = true) as Hsh by (by apply head_edge_app).
  assert (last_edge s = true) as Hsl.
  { unfold s. apply last_edge_app. change (String "." fraction) with ("." ++ fraction)%string.
    by apply last_edge_app. }
  rewrite ParseAmountBig_unit; [|done|done|].
  2:{ unfold s. rewrite to_lower_app. cbn [to_lower]. by rewrite !to_lower_digits. }
  unfold parseDecimalAmountBig. rewrite trim_space_edges by done. unfold s.
  rewrite digits_no_sign, str_cut_digits by done. cbn [negb check mbind result_bind].
  rewrite (bool_decide_eq_false_2 (whole = "")), !decimalDigits_digits by done.
  cbn [negb andb check mbind result_bind orb].
  destruct (decide (Z.of_nat (String.length fraction) ≤ Unit_Exponent unit)) as [Hlen|Hlen];
    [rewrite (bool_decide_eq_true_2 _ Hlen)
    |by rewrite (bool_decide_eq_false_2 _ Hlen), (bool_decide_eq_true_2 (_ < _)) by lia].
  rewrite (bool_decide_eq_false_2 (_ < _)), (bool_decide_eq_false_2 (fraction = "")) by (done || lia).
  cbn [negb check mbind result_bind]. unfold big_of_string at 2.
  rewrite big_digits_app, big_digits_zeros. do 4 f_equal. lia.
Qed.

(** Amounts are parsed without rounding.  A whole number of units gives
    exactly that many times the factor of the unit; with a decimal fraction of
    at most the unit's digits the result is the exact integer equal to the
    written number times the factor, and a longer fraction is refused. *)
Theorem amount_exact unit whole fraction :
  unit ∈ Units → whole ≠ "" → fraction ≠ "" →
  all_digits whole = true → all_digits fraction = true →
  ParseAmountBig (whole ++ Unit_Denom unit) = Ok (big_of_string whole * Unit_Factor unit) ∧
  let input := (whole ++ String "." fraction ++ Unit_Denom unit)%string in
  if bool_decide (Z.of_nat (String.length fraction) ≤ Unit_Exponent unit) then
    ∃ amount, ParseAmountBig input = Ok amount ∧
      amount * 10 ^ Z.of_nat (String.length fraction) =
        big_of_string (whole ++ fraction) * Unit_Factor unit
  else ParseAmountBig input = Err ErrInvalidAmount.
Proof.
  intros Hu Hw Hf Hdw Hdf. split; [by apply ParseAmountBig_whole|]. cbn zeta.
  rewrite ParseAmountBig_fraction by done. case_bool_decide as Hlen; [|done].
  eexists. split; [reflexivity|]. unfold big_of_string at 3. rewrite big_digits_app.
  rewrite big_digits_shift. fold (big_of_string whole). rewrite (unit_factor unit Hu).
  set (l := Z.of_nat (String.length fraction)) in *.
  assert (10 ^ Unit_Exponent unit = 10 ^ (Unit_Exponent unit - l) * 10 ^ l) as Hpow.
  { rewrite <-Z.pow_add_r by lia. f_equal. lia. }
  rewrite Hpow. ring.
Qed.

Lemma amount_exact_witness :
  ParseAmountBig "12gvxo" = Ok 12000000000 ∧
  ∃ amount, ParseAmountBig "12.034gvxo" = Ok amount ∧ amount * 10 ^ 3 = 12034 * GigaFactor.
Proof.
  destruct (amount_exact (mkUnit GigaDenom 9 GigaFactor) "12" "034") as [H1 H2];
    [right; left|done..|]. split; [exact H1|exact H2].
Defined.

(** ** Base fee *)

(** Parameters of an adjusting fee: machine integers, and a current fee within
    its bounds; a maximum of zero is no maximum. *)
Record fee_params_ok (params : BaseFeeParams) : Prop := {
  fee_u64 : Forall is_u64 [CurrentBaseFee params; BF_GasUsed params; TargetGas params;
                           ChangeDenominator params; MinBaseFee params; MaxBaseFee params];
  fee_adjusts : CurrentBaseFee params ≠ 0 ∧ TargetGas params ≠ 0 ∧ ChangeDenominator params ≠ 0;
  fee_min : MinBaseFee params ≤ CurrentBaseFee params;
  fee_max : MaxBaseFee params = 0 ∨ CurrentBaseFee params ≤ MaxBaseFee params
}.

(** Clamping keeps a fee between its bounds and moves it no farther from a fee
    that is within them. *)
Lemma clampBaseFee_spec value current min max :
  is_u64 value → is_u64 current → is_u64 min → is_u64 max →
  min ≤ current → (max = 0 ∨ current ≤ max) →
  let next := clampBaseFee value min max in
  is_u64 next ∧ min ≤ next ∧ (0 < max → next ≤ max) ∧
  (value ≤ current → value ≤ next ≤ current) ∧ (current ≤ value → current ≤ next ≤ value).
Proof.
  unfold clampBaseFee, is_u64. intros Hv Hc Hmin Hmax H1 H2. cbn zeta.
  repeat case_bool_decide; cbn [andb]; lia.
Qed.

Lemma baseFeeDelta_spec current gasDelta target denominator :
  is_u64 current → 0 < gasDelta < two64 → is_u64 target → is_u64 denominator →
  current ≠ 0 → target ≠ 0 → denominator ≠ 0 →
  let delta := baseFeeDelta current gasDelta target denominator in
  is_u64 delta ∧
  (current * gasDelta ≤ max_u64 → delta = current * gasDelta / target / denominator) ∧
  (max_u64 < current * gasDelta → delta = max_u64 / denominator).
Proof.
  unfold is_u64, baseFeeDelta. intros Hc Hg Ht Hd H1 H2 H3.
  rewrite !(bool_decide_eq_false_2 (_ = 0)) by lia. cbn [orb].
  assert (max_u64 / gasDelta < current ↔ max_u64 < current * gasDelta) as Hov.
  { pose proof (Z.div_mod max_u64 gasDelta ltac:(lia)).
    pose proof (Z.mod_pos_bound max_u64 gasDelta ltac:(lia)). split; nia. }
  case_bool_decide as Hb; rewrite Hov in Hb.
  - pose proof (Z.div_pos max_u64 denominator ltac:(done) ltac:(lia)).
    assert (max_u64 / denominator ≤ max_u64)
      by (apply Z.div_le_upper_bound; unfold max_u64 in *; lia).
    split_and!; unfold max_u64, two64 in *; lia.
  - rewrite wrap64_small by (unfold is_u64, max_u64, two64 in *; nia).
    assert (0 ≤ current * gasDelta / target / denominator ≤ current * gasDelta).
    { assert (0 ≤ current * gasDelta / target) by (apply Z.div_pos; nia).
      split; [apply Z.div_pos; lia|].
      trans (current * gasDelta / target); apply Z.div_le_upper_bound; nia. }
    split_and!; unfold max_u64, two64 in *; lia.
Qed.


Definition sample_fee : BaseFeeParams := mkBaseFeeParams 100 2000 1000 8 1 0.

Lemma sample_fee_ok : fee_params_ok sample_fee.
Proof. split; [by repeat constructor|done|done|by left]. Qed.

