(* ===== verification/Address.v ===== *)
(** * Addresses ([src/address])

    Account and validator addresses are the first twenty bytes of a hash of the
    public key in bech32, for ASCII text.  The proof that decoding undoes
    encoding has two halves: regrouping bits preserves the number they spell,
    and the checksum is linear over exclusive or. *)

From S2P Require Import Prelude GoLib Sha256 Types Strconv TxTags Text.

Definition AccountHRP : string := "vexo".
Definition ValidatorOperatorHRP : string := "vexovaloper".
Definition ValidatorConsensusHRP : string := "vexovalcons".
Definition addressLength : nat := 20.
Definition addressDomain : string := "vexo.address.v1".

Definition ErrEmptyPublicKey := ErrNew "address.ErrEmptyPublicKey".
Definition ErrInvalidAddress := ErrNew "address.ErrInvalidAddress".
Definition ErrInvalidPrefix := ErrNew "address.ErrInvalidPrefix".
Definition ErrAddressMismatch := ErrNew "address.ErrAddressMismatch".
Definition ErrInvalidBech32 := ErrNew "address.ErrInvalidBech32".
Definition ErrMixedCase := ErrNew "address.ErrMixedCase".

Definition bech32Charset : string := "qpzry9x8gf2tvdw0s3jn54khce6mua7l".

(** ** Regrouping bits *)

(** [for bits >= toBits]: the emitted values and the bits left; every pass
    removes [toBits >= 1] bits, so [bits] passes are enough. *)
Fixpoint drain (fuel : nat) (accumulator bits toBits : Z) : list Z * Z :=
  match fuel with
  | O => ([], bits)
  | S fuel =>
      if bool_decide (toBits ≤ bits) then
        let bits := bits - toBits in
        let value := Z.land (Z.shiftr accumulator bits) (Z.shiftl 1 toBits - 1) in
        let '(out, bits) := drain fuel accumulator bits toBits in (value :: out, bits)
      else ([], bits)
  end.

(** The loop over the data: accumulator, bits and converted values. *)
Fixpoint convert_loop (data : list Z) (fromBits toBits accumulator bits : Z) (converted : list Z)
    : result (Z * Z * list Z) :=
  match data with
  | [] => Ok (accumulator, bits, converted)
  | value :: data =>
      check ErrInvalidBech32 (bool_decide (Z.shiftr value fromBits = 0)) ≫= λ _,
      let maxAccumulator := Z.shiftl 1 (fromBits + toBits - 1) - 1 in
      let accumulator := Z.land (Z.lor (Z.shiftl accumulator fromBits) value) maxAccumulator in
      let bits := bits + fromBits in
      let '(out, bits) := drain (Z.to_nat bits) accumulator bits toBits in
      convert_loop data fromBits toBits accumulator bits (converted ++ out)
  end.

Definition convertBits (data : list Z) (fromBits toBits : Z) (pad : bool) : result (list Z) :=
  '(accumulator, bits, converted) ← convert_loop data fromBits toBits 0 0 [];
  let rest := Z.land (Z.shiftl accumulator (toBits - bits)) (Z.shiftl 1 toBits - 1) in
  if pad then Ok (if bool_decide (0 < bits) then converted ++ [rest] else converted)
  else if bool_decide (fromBits ≤ bits) || bool_decide (rest ≠ 0) then Err ErrInvalidBech32
  else Ok converted.

(** ** Checksum *)

Definition generators : list Z := [996825010; 642813549; 513874426; 1027748829; 705979059].

(** [for index, generator := range generators]: the generators of the set bits. *)
Fixpoint apply_generators (top : Z) (index : Z) (gens : list Z) (checksum : Z) : Z :=
  match gens with
  | [] => checksum
  | generator :: gens =>
      apply_generators top (index + 1) gens
        (if bool_decide (Z.land (Z.shiftr top index) 1 = 1) then Z.lxor checksum generator
         else checksum)
  end.

Definition polymod_step (checksum value : Z) : Z :=
  let top := Z.shiftr checksum 25 in
  apply_generators top 0 generators (Z.lxor (Z.shiftl (Z.land checksum 33554431) 5) value).

Definition bech32Polymod (values : list Z) : Z := foldl polymod_step 1 values.

(** The runes of an ASCII string. *)
Definition char_codes (s : string) : list Z := byte_to_Z <$> bytes_of_string s.

Definition hrpExpand (hrp : string) : list Z :=
  ((λ c, Z.shiftr c 5) <$> char_codes hrp) ++ [0] ++ ((λ c, Z.land c 31) <$> char_codes hrp).

Definition createChecksum (hrp : string) (data : list Z) : list Z :=
  let values := hrpExpand hrp ++ data ++ [0; 0; 0; 0; 0; 0] in
  let polymod := Z.lxor (bech32Polymod values) 1 in
  (λ index, Z.land (Z.shiftr polymod (5 * (5 - index))) 31) <$> [0; 1; 2; 3; 4; 5].

Definition verifyChecksum (hrp : string) (data : list Z) : bool :=
  bool_decide (bech32Polymod (hrpExpand hrp ++ data) = 1).

(** ** Encoding and decoding *)

Definition validateHRP (hrp : string) : result unit :=
  check ErrInvalidPrefix (negb (bool_decide (hrp = "") || bool_decide (to_lower hrp ≠ hrp))) ≫= λ _,
  check ErrInvalidPrefix (forallb (λ c, bool_decide (33 ≤ c ≤ 126)) (char_codes hrp)).

(** [bech32Charset[value]], with the check of the encoding loop. *)
Definition charset_char (value : Z) : option ascii := String.get (Z.to_nat value) bech32Charset.

Fixpoint encode_values (values : list Z) : result string :=
  match values with
  | [] => Ok EmptyString
  | value :: values =>
      match charset_char value with
      | None => Err ErrInvalidBech32
      | Some a => rest ← encode_values values; Ok (String a rest)
      end
  end.

Definition bech32Encode (hrp : string) (payload : bytes) : result string :=
  data ← convertBits (byte_to_Z <$> payload) 8 5 true;
  let combined := data ++ createChecksum hrp data in
  text ← encode_values combined;
  Ok (hrp ++ "1" ++ text)%string.

(** [strings.IndexRune] in the character set. *)
Fixpoint index_char (a : ascii) (s : string) (position : Z) : option Z :=
  match s with
  | EmptyString => None
  | String b s => if bool_decide (a = b) then Some position else index_char a s (position + 1)
  end.

Fixpoint decode_chars (s : string) : result (list Z) :=
  match s with
  | EmptyString => Ok []
  | String a s =>
      match index_char a bech32Charset 0 with
      | None => Err ErrInvalidBech32
      | Some position => data ← decode_chars s; Ok (position :: data)
      end
  end.

(** [strings.ToUpper] on the letters a to z. *)
Definition upper_ascii (a : ascii) : ascii :=
  let n := N_of_ascii a in
  if bool_decide (97 ≤ n ≤ 122)%N then ascii_of_N (n - 32)%N else a.
Fixpoint to_upper (s : string) : string :=
  match s with
  | EmptyString => EmptyString
  | String a s => String (upper_ascii a) (to_upper s)
  end.

(** [strings.LastIndexByte(value, '1')]: what is before and after it. *)
Fixpoint cut_last (c : ascii) (s : string) : option (string * string) :=
  match s with
  | EmptyString => None
  | String a s =>
      match cut_last c s with
      | Some (before, after) => Some (String a before, after)
      | None => if bool_decide (a = c) then Some (EmptyString, s) else None
      end
  end.

(** [byte(value)] of every value. *)
Definition to_bytes (l : list Z) : bytes := byte_of_Z <$> l.

(** Separator, prefix, checksum and payload of a lower case value. *)
Definition bech32_parts (value : string) : result (string * bytes) :=
  match cut_last "1" value with
  | None => Err ErrInvalidBech32
  | Some (hrp, encoded) =>
      check ErrInvalidBech32
        (negb (bool_decide (hrp = "") || bool_decide (String.length encoded < 6)%nat)) ≫= λ _,
      validateHRP hrp ≫= λ _,
      data ← decode_chars encoded;
      check ErrInvalidBech32 (verifyChecksum hrp data) ≫= λ _,
      payload ← convertBits (take (length data - 6) data) 5 8 false;
      Ok (hrp, to_bytes payload)
  end.

Definition bech32Decode (value : string) : result (string * bytes) :=
  check ErrMixedCase
    (negb (bool_decide (value = "") ||
           (bool_decide (to_lower value ≠ value) && bool_decide (to_upper value ≠ value)))) ≫= λ _,
  check ErrInvalidBech32 (negb (bool_decide (String.length (to_lower value) < 8)%nat)) ≫= λ _,
  bech32_parts (to_lower value).

(** ** Addresses of public keys *)

Definition FromPublicKey (hrp : string) (publicKey : PublicKey) : result Address :=
  check ErrEmptyPublicKey (bool_decide (publicKey ≠ [])) ≫= λ _,
  validateHRP hrp ≫= λ _,
  let digest := sha256 (bytes_of_string (addressDomain ++ ":" ++ hrp ++ ":") ++ publicKey ++ [x0a]) in
  bech32Encode hrp (take addressLength (hash_bytes digest)).

Definition AccountFromPublicKey (publicKey : PublicKey) : result Address :=
  FromPublicKey AccountHRP publicKey.
Definition ValidatorOperatorFromPublicKey (publicKey : PublicKey) : result Address :=
  FromPublicKey ValidatorOperatorHRP publicKey.
Definition ValidatorConsensusFromPublicKey (publicKey : PublicKey) : result Address :=
  FromPublicKey ValidatorConsensusHRP publicKey.

(** [address.Validate] *)
Definition Address_Validate (value : Address) (expectedHRP : string) : result unit :=
  '(hrp, data) ← bech32Decode value;
  check ErrInvalidPrefix
    (negb (bool_decide (expectedHRP ≠ "") && bool_decide (hrp ≠ expectedHRP))) ≫= λ _,
  check ErrInvalidAddress (bool_decide (length data = addressLength)).

Definition MatchesPublicKey (value : Address) (hrp : string) (publicKey : PublicKey) : result unit :=
  expected ← FromPublicKey hrp publicKey;
  check ErrAddressMismatch (bool_decide (value = expected)).

(** [address.HRP] *)
Definition Address_HRP (value : Address) : result string :=
  '(hrp, _) ← bech32Decode value; Ok hrp.

(** ** Numbers spelled by digits of [b] bits *)

Definition digits_val (b : Z) (l : list Z) : Z := foldl (λ n x, n * 2 ^ b + x) 0 l.
Definition digits_ok (b : Z) (l : list Z) : Prop := Forall (λ x, 0 ≤ x < 2 ^ b) l.

Lemma pow_add_len b (l : list Z) x :
  0 ≤ b → 2 ^ (b * Z.of_nat (length (x :: l))) = 2 ^ b * 2 ^ (b * Z.of_nat (length l)).
Proof. intros Hb. rewrite <-Z.pow_add_r by nia. f_equal. cbn [length]. lia. Qed.

Lemma digits_val_acc b l n :
  0 ≤ b →
  foldl (λ n x, n * 2 ^ b + x) n l = n * 2 ^ (b * Z.of_nat (length l)) + digits_val b l.
Proof.
  intros Hb. unfold digits_val. revert n. induction l as [|x l IH]; intros n.
  { cbn [foldl length]. rewrite Z.mul_0_r. cbn. lia. }
  cbn [foldl]. rewrite (IH (n * _ + x)), (IH (0 * _ + x)), pow_add_len by done. ring.
Qed.

Lemma digits_val_cons b x l :
  0 ≤ b → digits_val b (x :: l) = x * 2 ^ (b * Z.of_nat (length l)) + digits_val b l.
Proof. intros Hb. unfold digits_val at 1. cbn [foldl]. by rewrite digits_val_acc. Qed.

Lemma digits_val_app b l1 l2 :
  0 ≤ b →
  digits_val b (l1 ++ l2) = digits_val b l1 * 2 ^ (b * Z.of_nat (length l2)) + digits_val b l2.
Proof. intros Hb. unfold digits_val at 1. rewrite foldl_app. by rewrite digits_val_acc. Qed.

Lemma digits_val_range b l : 0 ≤ b → digits_ok b l → 0 ≤ digits_val b l < 2 ^ (b * Z.of_nat (length l)).
Proof.
  intros Hb. induction 1 as [|x l Hx Hl IH].
  { cbn [length]. rewrite Z.mul_0_r. cbn. lia. }
  rewrite digits_val_cons, pow_add_len by done. nia.
Qed.

(** Digits of one length are determined by their number. *)
Lemma digits_val_inj b l1 l2 :
  0 ≤ b → digits_ok b l1 → digits_ok b l2 → length l1 = length l2 →
  digits_val b l1 = digits_val b l2 → l1 = l2.
Proof.
  intros Hb H1. revert l2. induction H1 as [|x l1 Hx Hl1 IH]; intros [|y l2] H2 Hlen Heq; try done.
  apply Forall_cons in H2 as [Hy Hl2]. injection Hlen as Hlen.
  rewrite !digits_val_cons, <-Hlen in Heq by done.
  pose proof (digits_val_range b l1 Hb Hl1) as R1.
  pose proof (digits_val_range b l2 Hb Hl2) as R2. rewrite <-Hlen in R2.
  assert (x = y) as -> by nia. f_equal. apply IH; [done|done|lia].
Qed.

(** ** Regrouping preserves the number *)

Lemma land_max x n : 0 ≤ n → Z.land x (Z.shiftl 1 n - 1) = x mod 2 ^ n.
Proof.
  intros Hn. rewrite Z.shiftl_1_l, Z.sub_1_r, <-Z.ones_equiv. by apply Z.land_ones.
Qed.

Lemma land_shift a v n : 0 ≤ n → 0 ≤ v < 2 ^ n → Z.land (Z.shiftl a n) v = 0.
Proof.
  intros Hn Hv. apply Z.bits_inj'. intros m Hm. rewrite Z.land_spec, Z.bits_0.
  destruct (Z.lt_ge_cases m n) as [Hlt|Hge].
  - by rewrite Z.shiftl_spec_low.
  - rewrite <-(Z.mod_small v (2 ^ n)), (Z.mod_pow2_bits_high v) by lia. by rewrite andb_false_r.
Qed.

Lemma lor_shift a v n : 0 ≤ n → 0 ≤ v < 2 ^ n → Z.lor (Z.shiftl a n) v = a * 2 ^ n + v.
Proof.
  intros Hn Hv. rewrite <-Z.shiftl_mul_pow2 by done. symmetry.
  by apply Z.add_nocarry_lor, land_shift.
Qed.

Lemma mod_pow_split x b c :
  0 ≤ b → 0 ≤ c → x mod 2 ^ (b + c) = (x / 2 ^ b mod 2 ^ c) * 2 ^ b + x mod 2 ^ b.
Proof.
  intros Hb Hc. pose proof (Z.pow_pos_nonneg 2 b ltac:(lia) Hb).
  pose proof (Z.pow_pos_nonneg 2 c ltac:(lia) Hc). rewrite Z.pow_add_r, Z.rem_mul_r by lia. lia.
Qed.

Lemma drain_spec fuel acc bits toBits out bits' :
  0 < toBits → 0 ≤ bits ≤ Z.of_nat fuel → drain fuel acc bits toBits = (out, bits') →
  0 ≤ bits' < toBits ∧ bits = toBits * Z.of_nat (length out) + bits' ∧ digits_ok toBits out ∧
  acc mod 2 ^ bits = digits_val toBits out * 2 ^ bits' + acc mod 2 ^ bits'.
Proof.
  intros Ht. revert bits out bits'. induction fuel as [|fuel IH]; intros bits out bits' Hb; cbn [drain].
  { intros [= <- <-]. unfold digits_val. cbn. split_and!; [lia..|constructor|lia]. }
  case_bool_decide as Hge; last first.
  { intros [= <- <-]. unfold digits_val. cbn. split_and!; [lia..|constructor|lia]. }
  destruct (drain fuel acc (bits - toBits) toBits) as [out1 b1] eqn:E. intros [= <- <-].
  destruct (IH (bits - toBits) out1 b1 ltac:(lia) E) as (Hb1 & Hlen & Hok & Hval).
  rewrite land_max, Z.shiftr_div_pow2 by lia. set (v := _ mod 2 ^ toBits).
  assert (0 ≤ v < 2 ^ toBits) as Hv by (apply Z.mod_pos_bound, Z.pow_pos_nonneg; lia).
  split_and!; [lia..|cbn [length]; lia|by constructor|].
  rewrite digits_val_cons by lia.
  replace bits with (bits - toBits + toBits) at 1 by lia. rewrite mod_pow_split by lia.
  fold v. rewrite Hval, Hlen, Z.pow_add_r by nia. ring.
Qed.

Lemma convert_loop_spec data fromBits toBits acc bits conv :
  0 < fromBits → 0 < toBits → 0 ≤ bits < toBits → digits_ok fromBits data → digits_ok toBits conv →
  ∃ acc' bits' conv', convert_loop data fromBits toBits acc bits conv = Ok (acc', bits', conv') ∧
    0 ≤ bits' < toBits ∧ digits_ok toBits conv' ∧
    toBits * Z.of_nat (length conv') + bits' =
      toBits * Z.of_nat (length conv) + bits + fromBits * Z.of_nat (length data) ∧
    digits_val toBits conv' * 2 ^ bits' + acc' mod 2 ^ bits' =
      (digits_val toBits conv * 2 ^ bits + acc mod 2 ^ bits) *
        2 ^ (fromBits * Z.of_nat (length data)) + digits_val fromBits data.
Proof.
  intros Hf Ht Hb Hd. revert acc bits conv Hb. induction Hd as [|v data Hv Hd IH];
    intros acc bits conv Hb Hc; cbn [convert_loop].
  { exists acc, bits, conv. cbn [length]. rewrite Z.mul_0_r. unfold digits_val. cbn.
    split_and!; (done || lia). }
  cbv beta in Hv. rewrite (Z.shiftr_div_pow2 v), (Z.div_small v) by lia. cbn [check mbind result_bind bool_decide].
  rewrite bool_decide_eq_true_2 by done. cbn [check mbind result_bind].
  rewrite lor_shift, land_max by lia. set (acc1 := _ mod 2 ^ (fromBits + toBits - 1)).
  destruct (drain _ acc1 (bits + fromBits) toBits) as [out b1] eqn:E.
  apply drain_spec in E as (Hb1 & Hlen1 & Hok1 & Hval1); [|lia..].
  destruct (IH acc1 b1 (conv ++ out) Hb1) as (acc' & bits' & conv' & Heq & Hb' & Hok' & Hlen' & Hval');
    [by apply Forall_app|].
  exists acc', bits', conv'. split_and!; [exact Heq|lia|lia|done|..].
  { rewrite Hlen', length_app. cbn [length]. lia. }
  rewrite Hval', digits_val_app, (digits_val_cons fromBits), (pow_add_len fromBits) by lia.
  assert (acc1 mod 2 ^ (bits + fromBits) = (acc mod 2 ^ bits) * 2 ^ fromBits + v) as Hacc.
  { unfold acc1. replace (fromBits + toBits - 1) with (bits + fromBits + (toBits - 1 - bits)) by lia.
    rewrite Z.pow_add_r, Z.mod_mod_divide by (apply Z.divide_factor_l || lia).
    rewrite (Z.add_comm bits), mod_pow_split by lia.
    rewrite Z.div_add_l, (Z.div_small v), Z.add_0_r by lia.
    by rewrite (Z.add_comm (acc * _) v), Z.mod_add, (Z.mod_small v) by lia. }
  rewrite Hacc in Hval1.
  replace ((digits_val toBits conv * 2 ^ bits + acc mod 2 ^ bits) *
           (2 ^ fromBits * 2 ^ (fromBits * Z.of_nat (length data))))
    with ((digits_val toBits conv * (2 ^ bits * 2 ^ fromBits) +
           ((acc mod 2 ^ bits) * 2 ^ fromBits + v) - v) *
          2 ^ (fromBits * Z.of_nat (length data))) by ring.
  rewrite Hval1, <-Z.pow_add_r, Hlen1, (Z.pow_add_r _ (_ * _)) by nia. ring.
Qed.

Lemma rest_value acc bits toBits :
  0 ≤ bits ≤ toBits →
  Z.land (Z.shiftl acc (toBits - bits)) (Z.shiftl 1 toBits - 1) =
    (acc mod 2 ^ bits) * 2 ^ (toBits - bits).
Proof.
  intros Hb. rewrite land_max, Z.shiftl_mul_pow2 by lia.
  replace (2 ^ toBits) with (2 ^ bits * 2 ^ (toBits - bits)) by (rewrite <-Z.pow_add_r by lia; f_equal; lia).
  apply Z.mul_mod_distr_r; apply Z.pow_nonzero; lia.
Qed.

(** Padding spells the same number followed by zero bits. *)
Lemma convertBits_pad data fromBits toBits :
  0 < fromBits → 0 < toBits → digits_ok fromBits data →
  ∃ out padding, convertBits data fromBits toBits true = Ok out ∧ digits_ok toBits out ∧
    0 ≤ padding < toBits ∧
    toBits * Z.of_nat (length out) = fromBits * Z.of_nat (length data) + padding ∧
    digits_val toBits out = digits_val fromBits data * 2 ^ padding.
Proof.
  intros Hf Ht Hd. unfold convertBits.
  destruct (convert_loop_spec data fromBits toBits 0 0 []) as
    (acc & bits & conv & -> & Hb & Hok & Hlen & Hval); [lia..|done|constructor|].
  cbn [length] in Hlen. change (digits_val toBits [] * 2 ^ 0 + 0 mod 2 ^ 0) with 0 in Hval.
  rewrite Z.mul_0_l, Z.add_0_l in Hval.
  cbn [mbind result_bind]. rewrite rest_value by lia. case_bool_decide as H0.
  - eexists _, (toBits - bits). split; [reflexivity|].
    assert (0 ≤ acc mod 2 ^ bits < 2 ^ bits) as Hm by (apply Z.mod_pos_bound, Z.pow_pos_nonneg; lia).
    assert (2 ^ toBits = 2 ^ bits * 2 ^ (toBits - bits)) as Hp
      by (rewrite <-Z.pow_add_r by lia; f_equal; lia).
    pose proof (Z.pow_pos_nonneg 2 (toBits - bits) ltac:(lia) ltac:(lia)).
    split_and!; [|lia|lia|rewrite length_app; cbn [length]; lia|].
    + apply Forall_app. split; [done|]. apply Forall_singleton. nia.
    + rewrite digits_val_app by lia. cbn [length]. rewrite Z.mul_1_r. unfold digits_val at 2.
      cbn [foldl]. rewrite Hp, <-Hval. ring.
  - assert (bits = 0) as -> by lia. exists conv, 0. rewrite Z.mod_1_r in Hval.
    split_and!; [done|done|lia|lia|lia|lia].
Qed.

(** Regrouping into digits of five bits and back is the identity. *)
Lemma convertBits_round data :
  digits_ok 8 data →
  ∃ out, convertBits data 8 5 true = Ok out ∧ digits_ok 5 out ∧ convertBits out 5 8 false = Ok data.
Proof.
  intros Hd. destruct (convertBits_pad data 8 5 ltac:(lia) ltac:(lia) Hd)
    as (out & padding & Henc & Hok & Hpad & Hlen & Hval).
  exists out. split_and!; [done|done|]. unfold convertBits.
  destruct (convert_loop_spec out 5 8 0 0 []) as
    (acc & bits & conv & -> & Hb & Hok' & Hlen' & Hval'); [lia..|done|constructor|].
  cbn [length] in Hlen'. change (digits_val 8 [] * 2 ^ 0 + 0 mod 2 ^ 0) with 0 in Hval'.
  rewrite Z.mul_0_l, Z.add_0_l in Hval'.
  assert (bits = padding ∧ length conv = length data) as [-> Hl] by lia.
  rewrite Hval in Hval'.
  assert (0 ≤ acc mod 2 ^ padding < 2 ^ padding) as Hm by (apply Z.mod_pos_bound, Z.pow_pos_nonneg; lia).
  assert (digits_val 8 conv = digits_val 8 data ∧ acc mod 2 ^ padding = 0) as [Hv Hz].
  { generalize dependent (acc mod 2 ^ padding). intros m Hval' Hm.
    assert ((digits_val 8 data - digits_val 8 conv) * 2 ^ padding = m) as Hd' by lia.
    assert (digits_val 8 data - digits_val 8 conv = 0) by nia. split; nia. }
  cbn [mbind result_bind]. rewrite rest_value, Hz, Z.mul_0_l by lia.
  rewrite (bool_decide_eq_false_2 (5 ≤ padding)), (bool_decide_eq_false_2 (0 ≠ 0)) by lia.
  cbn [orb]. f_equal. apply (digits_val_inj 8); [lia|done|done|done|done].
Qed.

(** ** The checksum is linear *)

Lemma bit_test x i : 0 ≤ i → bool_decide (Z.land (Z.shiftr x i) 1 = 1) = Z.testbit x i.
Proof.
  intros Hi. change 1 with (Z.ones 1). rewrite Z.land_ones by lia. change (2 ^ 1) with 2.
  rewrite <-Z.bit0_mod, Z.shiftr_spec, Z.add_0_l by lia. by destruct (Z.testbit x i).
Qed.

(** Adding generators commutes with exclusive or. *)
Lemma apply_generators_lxor a b i gens c d :
  0 ≤ i →
  apply_generators (Z.lxor a b) i gens (Z.lxor c d) =
  Z.lxor (apply_generators a i gens c) (apply_generators b i gens d).
Proof.
  revert i c d. induction gens as [|g gens IH]; intros i c d Hi; cbn [apply_generators]; [done|].
  rewrite <-IH by lia. f_equal. rewrite !bit_test, Z.lxor_spec by done.
  assert (∀ x y z, Z.lxor (Z.lxor x y) z = Z.lxor (Z.lxor x z) y) as Hswap.
  { intros x y z. by rewrite !Z.lxor_assoc, (Z.lxor_comm y). }
  destruct (Z.testbit a i), (Z.testbit b i); cbn [xorb].
  - by rewrite (Hswap c g), Z.lxor_assoc, Z.lxor_assoc, Z.lxor_nilpotent, Z.lxor_0_r.
  - by rewrite Hswap.
  - by rewrite Z.lxor_assoc.
  - done.
Qed.

Lemma land_lxor_distr a b m : Z.land (Z.lxor a b) m = Z.lxor (Z.land a m) (Z.land b m).
Proof.
  apply Z.bits_inj'. intros n Hn. rewrite Z.land_spec, !Z.lxor_spec, !Z.land_spec.
  by destruct (Z.testbit a n), (Z.testbit b n), (Z.testbit m n).
Qed.

Lemma polymod_step_lxor c d v w :
  polymod_step (Z.lxor c d) (Z.lxor v w) = Z.lxor (polymod_step c v) (polymod_step d w).
Proof.
  unfold polymod_step. rewrite Z.shiftr_lxor, land_lxor_distr, Z.shiftl_lxor.
  rewrite <-apply_generators_lxor by lia. f_equal.
  rewrite !Z.lxor_assoc. f_equal. by rewrite <-!Z.lxor_assoc, (Z.lxor_comm v).
Qed.

Lemma polymod_split c d vs :
  foldl polymod_step (Z.lxor c d) vs =
  Z.lxor (foldl polymod_step c (replicate (length vs) 0)) (foldl polymod_step d vs).
Proof.
  revert c d. induction vs as [|v vs IH]; intros c d; [done|]. cbn [length replicate foldl].
  rewrite <-IH. f_equal. rewrite <-polymod_step_lxor. by rewrite Z.lxor_0_l.
Qed.

(** A small state is shifted and the value is added. *)
Lemma polymod_step_small d v :
  0 ≤ d < 2 ^ 25 → 0 ≤ v < 2 ^ 5 → polymod_step d v = d * 2 ^ 5 + v.
Proof.
  intros Hd Hv. unfold polymod_step.
  rewrite Z.shiftr_div_pow2, Z.div_small by lia. change 33554431 with (Z.ones 25).
  rewrite Z.land_ones, Z.mod_small by lia.
  assert (∀ gens i c, 0 ≤ i → apply_generators 0 i gens c = c) as Hz.
  { clear. induction gens as [|g gens IH]; intros i c Hi; cbn [apply_generators]; [done|].
    rewrite bit_test, Z.bits_0 by done. apply IH. lia. }
  rewrite Hz, Z.lxor_lor by (lia || by apply land_shift). by apply lor_shift.
Qed.

Lemma polymod_digits vs :
  digits_ok 5 vs → (length vs ≤ 6)%nat → foldl polymod_step 0 vs = digits_val 5 vs.
Proof.
  induction vs as [|v vs IH] using rev_ind; intros Hok Hlen; [done|].
  rewrite length_app in Hlen. cbn [length] in Hlen. apply Forall_app in Hok as [Hok Hv].
  rewrite foldl_app, IH by (done || lia). cbn [foldl]. rewrite digits_val_app by lia.
  pose proof (digits_val_range 5 vs ltac:(lia) Hok) as Hr. rewrite Forall_singleton in Hv.
  cbn [length]. rewrite polymod_step_small; [done| |done]. split; [lia|].
  eapply Z.lt_le_trans; [apply Hr|]. apply Z.pow_le_mono_r; lia.
Qed.

Lemma lxor_range a b n : 0 ≤ n → 0 ≤ a < 2 ^ n → 0 ≤ b < 2 ^ n → 0 ≤ Z.lxor a b < 2 ^ n.
Proof.
  intros Hn Ha Hb. assert (Z.lxor a b = Z.lxor a b mod 2 ^ n) as ->;
    [|apply Z.mod_pos_bound, Z.pow_pos_nonneg; lia].
  apply Z.bits_inj'. intros m Hm. destruct (Z.lt_ge_cases m n).
  - by rewrite Z.mod_pow2_bits_low.
  - rewrite Z.mod_pow2_bits_high, Z.lxor_spec by lia.
    rewrite <-(Z.mod_small a (2 ^ n)), <-(Z.mod_small b (2 ^ n)) by done.
    by rewrite !Z.mod_pow2_bits_high by lia.
Qed.

Lemma polymod_step_range c v : 0 ≤ v < 2 ^ 30 → 0 ≤ polymod_step c v < 2 ^ 30.
Proof.
  intros Hv. unfold polymod_step.
  assert (∀ gens i d, Forall (λ g, 0 ≤ g < 2 ^ 30) gens → 0 ≤ d < 2 ^ 30 →
    0 ≤ apply_generators (Z.shiftr c 25) i gens d < 2 ^ 30) as Hgen.
  { induction gens as [|g gens IH]; intros i d Hg Hd; cbn [apply_generators]; [done|].
    apply Forall_cons in Hg as [Hg Hgs]. apply IH; [done|]. case_bool_decide; [|done].
    by apply lxor_range. }
  apply Hgen; [by repeat constructor|]. apply lxor_range; [lia| |done].
  change 33554431 with (Z.ones 25). rewrite Z.land_ones, Z.shiftl_mul_pow2 by lia.
  pose proof (Z.mod_pos_bound c (2 ^ 25) ltac:(lia)). lia.
Qed.

(** The six values of the checksum spell the remainder. *)
Lemma checksum_digits p :
  0 ≤ p < 2 ^ 30 →
  let cs := (λ index, Z.land (Z.shiftr p (5 * (5 - index))) 31) <$> [0; 1; 2; 3; 4; 5] in
  digits_ok 5 cs ∧ digits_val 5 cs = p.
Proof.
  intros Hp cs. assert (drain 30 p 30 5 = (cs, 0)) as Hd by reflexivity.
  apply drain_spec in Hd as (_ & _ & Hok & Hval); [|lia..]. split; [done|].
  rewrite (Z.mod_small p), Z.mod_1_r in Hval by lia. lia.
Qed.

(** What [createChecksum] appends makes the checksum verify. *)
Lemma checksum_verifies hrp data : verifyChecksum hrp (data ++ createChecksum hrp data) = true.
Proof.
  unfold verifyChecksum, createChecksum, bech32Polymod. apply bool_decide_eq_true.
  rewrite (app_assoc (hrpExpand hrp) data), (app_assoc (hrpExpand hrp) data), !foldl_app.
  set (c := foldl polymod_step (foldl polymod_step 1 (hrpExpand hrp)) data).
  change [0; 0; 0; 0; 0; 0] with (replicate 6 0). set (P := foldl polymod_step c (replicate 6 0)).
  assert (0 ≤ P < 2 ^ 30) as HP by (apply polymod_step_range; lia).
  destruct (checksum_digits (Z.lxor P 1)) as [Hok Hval]; [by apply lxor_range|].
  set (cs := _ <$> [0; 1; 2; 3; 4; 5]) in *. rewrite <-(Z.lxor_0_r c), polymod_split.
  rewrite polymod_digits by done. change (length cs) with 6%nat. fold P. rewrite Hval.
  by rewrite <-Z.lxor_assoc, Z.lxor_nilpotent.
Qed.

(** ** Text *)

Definition charset_ok (v : Z) : bool :=
  match charset_char v with
  | None => false
  | Some a =>
      bool_decide (index_char a bech32Charset 0 = Some v) && bool_decide (lower_ascii a = a) &&
      bool_decide (a ≠ "1"%char)
  end.

Lemma charset_spec v :
  0 ≤ v < 2 ^ 5 →
  ∃ a, charset_char v = Some a ∧ index_char a bech32Charset 0 = Some v ∧ lower_ascii a = a ∧
    a ≠ "1"%char.
Proof.
  intros Hv. assert (forallb charset_ok (seqZ 0 32) = true) as Hall by (vm_compute; reflexivity).
  rewrite forallb_forall in Hall. specialize (Hall v). unfold charset_ok in Hall.
  destruct (charset_char v) as [a|]; [|by discriminate Hall; apply list_elem_of_In, elem_of_seqZ; lia].
  rewrite !andb_true_iff, !bool_decide_eq_true in Hall. exists a.
  destruct Hall as [[H1 H2] H3]; [apply list_elem_of_In, elem_of_seqZ; lia|]. done.
Qed.

Lemma encode_values_round vs :
  digits_ok 5 vs →
  ∃ s, encode_values vs = Ok s ∧ decode_chars s = Ok vs ∧ String.length s = length vs ∧
    to_lower s = s ∧ str_elem "1" s = false.
Proof.
  induction 1 as [|v vs Hv _ (s & He & Hd & Hl & Hlow & Hone)]; [by exists EmptyString|].
  destruct (charset_spec v Hv) as (a & Ha & Hi & Hla & Hne). exists (String a s).
  cbn [encode_values decode_chars]. rewrite Ha, He. cbn [mbind result_bind].
  split; [done|]. rewrite Hi, Hd. split; [done|].
  cbn [String.length length to_lower str_elem]. rewrite Hl, Hla, Hlow, Hone.
  by rewrite bool_decide_eq_false_2.
Qed.

Lemma cut_last_app hrp text :
  str_elem "1" text = false → cut_last "1" (hrp ++ "1" ++ text) = Some (hrp, text).
Proof.
  intros Ht. assert (cut_last "1" text = None) as Hn.
  { clear hrp. induction text as [|a text IH]; [done|]. cbn [str_elem] in Ht.
    apply orb_false_iff in Ht as [Ha Ht]. cbn [cut_last]. by rewrite (IH Ht), Ha. }
  induction hrp as [|a hrp IH].
  - change ("" ++ "1" ++ text)%string with (String "1" text). cbn [cut_last]. by rewrite Hn.
  - change (String a hrp ++ "1" ++ text)%string with (String a (hrp ++ "1" ++ text)).
    cbn [cut_last]. by rewrite IH.
Qed.

Lemma bytes_digits_ok (b : bytes) : digits_ok 8 (byte_to_Z <$> b).
Proof.
  apply Forall_fmap, Forall_forall. intros x _. cbv beta. apply byte_to_Z_range.
Qed.

Lemma to_bytes_of (b : bytes) : to_bytes (byte_to_Z <$> b) = b.
Proof.
  unfold to_bytes. induction b as [|x b IH]; [done|]. rewrite !fmap_cons, IH.
  by rewrite byte_of_Z_to_Z.
Qed.

Lemma createChecksum_digits hrp data :
  digits_ok 5 (createChecksum hrp data) ∧ length (createChecksum hrp data) = 6%nat.
Proof.
  split; [|done]. unfold createChecksum. apply Forall_fmap, Forall_forall. intros i _.
  cbv beta delta [compose]. change 31 with (Z.ones 5). rewrite Z.land_ones by lia. apply Z.mod_pos_bound. lia.
Qed.

(** Encoding always succeeds for a valid prefix and decoding inverts it. *)
Lemma bech32_round hrp payload :
  validateHRP hrp = Ok tt →
  ∃ text, bech32Encode hrp payload = Ok text ∧ bech32Decode text = Ok (hrp, payload).
Proof.
  intros Hhrp. destruct (convertBits_round (byte_to_Z <$> payload)) as (data & He & Hok & Hd);
    [apply bytes_digits_ok|].
  destruct (createChecksum_digits hrp data) as [Hcok Hclen].
  destruct (encode_values_round (data ++ createChecksum hrp data)) as (s & Hes & Hds & Hl & Hlow & Hone);
    [by apply Forall_app|].
  assert (hrp ≠ "" ∧ to_lower hrp = hrp) as [Hne Hlh].
  { unfold validateHRP in Hhrp. result_inv Hhrp.
    rewrite negb_true_iff, orb_false_iff, !bool_decide_eq_false in Hhrp0.
    destruct Hhrp0 as [? ?%dec_stable]. done. }
  unfold bech32Encode. rewrite He. cbn [mbind result_bind]. rewrite Hes. cbn [mbind result_bind].
  eexists. split; [reflexivity|]. set (text := (hrp ++ "1" ++ s)%string).
  assert (to_lower text = text) as Htl.
  { unfold text. rewrite !to_lower_app, Hlh, Hlow. done. }
  assert (8 ≤ String.length text)%nat as Hlen.
  { unfold text. rewrite !string_length_app, Hl, length_app, Hclen.
    destruct hrp; [done|]. cbn [String.length]. lia. }
  unfold bech32Decode. rewrite Htl.
  rewrite (bool_decide_eq_false_2 (text = "")) by (intros Ht; by rewrite Ht in Hlen; cbn in Hlen; lia).
  rewrite (bool_decide_eq_false_2 (text ≠ text)) by (intros Hn; by apply Hn).
  rewrite (bool_decide_eq_false_2 (_ < 8)%nat) by lia. cbn [orb andb negb check mbind result_bind].
  unfold bech32_parts, text. rewrite cut_last_app by done.
  rewrite (bool_decide_eq_false_2 _ Hne), (bool_decide_eq_false_2 (_ < 6)%nat)
    by (rewrite Hl, length_app; lia).
  rewrite Hhrp, Hds. cbn [orb negb check mbind result_bind].
  rewrite checksum_verifies. cbn [check mbind result_bind].
  rewrite length_app, Hclen, Nat.add_sub, take_app_length, Hd. cbn [mbind result_bind].
  by rewrite to_bytes_of.
Qed.

(** C32: bech32 round trip.  For every valid human readable prefix and every
    payload, encoding succeeds, and decoding the text gives the prefix and the
    payload back: the checksum verifies and the regrouped bits are the same. *)
Theorem bech32_roundtrip hrp payload :
  validateHRP hrp = Ok tt →
  ∃ text, bech32Encode hrp payload = Ok text ∧ bech32Decode text = Ok (hrp, payload).
Proof. apply bech32_round. Qed.

Lemma bech32_roundtrip_witness :
  ∃ text, bech32Encode AccountHRP (bytes_of_string "twenty bytes of data") = Ok text ∧
    bech32Decode text = Ok (AccountHRP, bytes_of_string "twenty bytes of data").
Proof.
  apply (bech32_roundtrip AccountHRP (bytes_of_string "twenty bytes of data")).
  vm_compute. reflexivity.
Defined.

(** The address of a key is valid and matches the key. *)
Lemma address_valid hrp publicKey value :
  FromPublicKey hrp publicKey = Ok value →
  Address_Validate value hrp = Ok tt ∧ MatchesPublicKey value hrp publicKey = Ok tt.
Proof.
  intros Hv. unfold MatchesPublicKey. rewrite Hv. cbn [mbind result_bind].
  rewrite bool_decide_eq_true_2 by done. split; [|done].
  unfold FromPublicKey in Hv. apply bind_Ok in Hv as (_ & _ & Hv).
  apply bind_Ok in Hv as ([] & Hhrp & Hv).
  set (digest := sha256 _) in Hv. clearbody digest.
  destruct (bech32_round hrp (take addressLength (hash_bytes digest)) Hhrp) as (text & He & Hd).
  rewrite He in Hv. injection Hv as ->. unfold Address_Validate. rewrite Hd.
  cbn [mbind result_bind].
  rewrite (bool_decide_eq_false_2 (hrp ≠ hrp)) by (intros Hn; by apply Hn).
  rewrite andb_false_r. cbn [negb check mbind result_bind].
  by rewrite bool_decide_eq_true_2 by (rewrite length_take, hash_bytes_length; reflexivity).
Qed.
