(* ===== verification/CanonicalTx.v ===== *)
(** * Canonical and signed transactions ([src/app/canonical_tx.go],
      [src/app/signed_tx.go])

    A transaction is [module:action] followed by arguments and [key=value] tags,
    or a ["signed:"] envelope around such a payload.  The signature
    scheme is a parameter. *)

From S2P Require Import Prelude GoLib Sha256 Types Strconv Text Json JsonPrint JsonCodec TxTags Economics Address.

Definition ErrInvalidCanonicalTx := ErrNew "app.ErrInvalidCanonicalTx".
Definition ErrMissingTxModule := ErrNew "app.ErrMissingTxModule".
Definition ErrMissingTxAction := ErrNew "app.ErrMissingTxAction".
Definition ErrInvalidSignedTx := ErrNew "app.ErrInvalidSignedTx".
Definition ErrInvalidTxSignature := ErrNew "app.ErrInvalidTxSignature".
Definition ErrSignerAddressMismatch := ErrNew "app.ErrSignerAddressMismatch".

(** ** Envelopes *)

Record SignedTxEnvelope := mkEnvelope {
  Env_SchemaVersion : string;
  Env_ChainID : string;
  Env_Payload : string;
  Env_PublicKey : string;
  Env_Signature : string
}.

(** [json.Marshal] and [json.Unmarshal] of the envelope. *)
#[global] Instance signed_envelope_json : JsonRecord SignedTxEnvelope := {|
  json_zero := mkEnvelope "" "" "" "" "";
  json_fields :=
    [("schema_version", field_of decode_string Env_SchemaVersion (λ '(mkEnvelope _ b c d e) x, mkEnvelope x b c d e));
     ("chain_id", field_of decode_string Env_ChainID (λ '(mkEnvelope a _ c d e) x, mkEnvelope a x c d e));
     ("payload", field_of decode_string Env_Payload (λ '(mkEnvelope a b _ d e) x, mkEnvelope a b x d e));
     ("public_key", field_of decode_string Env_PublicKey (λ '(mkEnvelope a b c _ e) x, mkEnvelope a b c x e));
     ("signature", field_of decode_string Env_Signature (λ '(mkEnvelope a b c d _) x, mkEnvelope a b c d x))];
  json_members e :=
    [("schema_version", JString (Env_SchemaVersion e)); ("chain_id", JString (Env_ChainID e));
     ("payload", JString (Env_Payload e)); ("public_key", JString (Env_PublicKey e));
     ("signature", JString (Env_Signature e))]
|}.

#[global] Program Instance signed_envelope_lawful : LawfulJson SignedTxEnvelope := {|
  json_ok _ := True;
  clean_record e := mkEnvelope (sanitize (Env_SchemaVersion e)) (sanitize (Env_ChainID e)) (sanitize (Env_Payload e))
    (sanitize (Env_PublicKey e)) (sanitize (Env_Signature e));
  json_depth := 1
|}.
Next Obligation. intros e _. json_printable. Qed.
Next Obligation. intros e. json_nesting. Qed.
Next Obligation. done. Qed.
Next Obligation. intros e _. json_record. Qed.

(** [TxSignatureVerifier]; [None] is a nil interface. *)
Abbreviation TxVerifier := (option (PublicKey → bytes → Signature → bool)).

(** [crypto.Signer] *)
Record TxSigner_ := mkTxSigner {
  signer_PublicKey : PublicKey;
  signer_Sign : bytes → result Signature
}.

(** ** Payloads *)

Definition signedTxPrefix : string := "signed:".

Definition IsSignedTx (tx : Tx) : bool := has_prefix (string_of_bytes tx) signedTxPrefix.

(** [base64.DecodeString] with the error of the caller. *)
Definition decode64 (e : error) (s : string) : result bytes :=
  match base64_decode s with Some b => Ok b | None => Err e end.

Definition DecodeSignedTx (tx : Tx) : result (SignedTxEnvelope * Tx) :=
  check ErrInvalidSignedTx (IsSignedTx tx) ≫= λ _,
  document ← decode64 ErrInvalidSignedTx (trim_prefix (string_of_bytes tx) signedTxPrefix);
  match unmarshal_json document with
  | Err _ => Err ErrInvalidSignedTx
  | Ok envelope =>
      check ErrInvalidSignedTx
        (negb (bool_decide (Env_SchemaVersion envelope ≠ "v1") ||
               bool_decide (Env_Payload envelope = "") ||
               bool_decide (Env_PublicKey envelope = "") ||
               bool_decide (Env_Signature envelope = ""))) ≫= λ _,
      payload ← decode64 ErrInvalidSignedTx (Env_Payload envelope);
      Ok (envelope, payload)
  end.

Definition TxPayload (tx : Tx) : Tx :=
  match DecodeSignedTx tx with Ok (_, payload) => payload | Err _ => tx end.

Definition SignedTxSignBytes (chainID : string) (payload : Tx) : bytes :=
  bytes_of_string "vexo:signed-tx:v1" ++ [x0a] ++ bytes_of_string chainID ++ [x0a] ++ payload.

(** ** Canonical transactions *)

Record CanonicalTx := mkCanonicalTx {
  CTx_Module : string;
  CTx_Action : string;
  CTx_Args : list string;
  CTx_Tags : gmap string string
}.

(** The loop over the parts after module and action. *)
Fixpoint scan_parts (parts : list string) (args : list string) (tags : gmap string string)
    : result (list string * gmap string string) :=
  match parts with
  | [] => Ok (args, tags)
  | part :: parts =>
      match str_cut "=" part with
      | Some (key, value) =>
          check ErrInvalidCanonicalTx (bool_decide (key ≠ "")) ≫= λ _,
          scan_parts parts args (<[key := value]> tags)
      | None => scan_parts parts (args ++ [part]) tags
      end
  end.

Definition parse_canonical (parts : list string) : result CanonicalTx :=
  match parts with
  | module :: action :: rest =>
      check ErrMissingTxModule (bool_decide (module ≠ "")) ≫= λ _,
      check ErrMissingTxAction (bool_decide (action ≠ "")) ≫= λ _,
      '(args, tags) ← scan_parts rest [] ∅;
      Ok (mkCanonicalTx module action args tags)
  | _ => Err ErrMissingTxModule
  end.

Definition ParseCanonicalTx (tx : Tx) : result CanonicalTx :=
  parse_canonical (str_split ":" (string_of_bytes (TxPayload tx))).

Definition tagSortRank (key : string) : Z :=
  if bool_decide (key = "fee") then 10
  else if bool_decide (key = "gas") then 20
  else if bool_decide (key = "gas_limit") then 21
  else if bool_decide (key = "signer") then 30
  else if bool_decide (key = "nonce") then 40
  else if bool_decide (key = "priority") then 50
  else 100.

(** The order of tags: by rank, then by name. *)
Definition tag_le (a b : string) : Prop :=
  tagSortRank a < tagSortRank b ∨ (tagSortRank a = tagSortRank b ∧ String.le a b).

#[global] Instance tag_le_dec : RelDecision tag_le.
Proof. intros a b. unfold tag_le. apply _. Defined.

Definition CanonicalTagKeys (order : MapOrder string string) (tags : gmap string string)
    : list string := sort_by id tag_le (order tags).*1.

Definition BuildCanonicalTx (order : MapOrder string string) (tx : CanonicalTx) : result Tx :=
  check ErrMissingTxModule (bool_decide (CTx_Module tx ≠ "")) ≫= λ _,
  check ErrMissingTxAction (bool_decide (CTx_Action tx ≠ "")) ≫= λ _,
  let tags := (λ key, key ++ "=" ++ default "" (CTx_Tags tx !! key))%string <$>
              CanonicalTagKeys order (CTx_Tags tx) in
  Ok (bytes_of_string (str_join ":" (CTx_Module tx :: CTx_Action tx :: CTx_Args tx ++ tags))).

(** [app.TxTag] and the typed readers *)
Definition TxTag (tx : Tx) (key : string) : option string :=
  match ParseCanonicalTx tx with Ok canonical => CTx_Tags canonical !! key | Err _ => None end.

Definition TxUintTag (tx : Tx) (key : string) : option Z := TxTag tx key ≫= parse_uint.

Definition TxAmountBigTag (tx : Tx) (key : string) : option Z :=
  value ← TxTag tx key;
  match ParseAmountBig value with Ok amount => Some amount | Err _ => None end.

Definition TxAmountTag (tx : Tx) (key : string) : option Z :=
  amount ← TxAmountBigTag tx key; if bool_decide (is_u64 amount) then Some amount else None.

(** ** Signing and verifying *)

Definition validatePayloadSignerAddress (payload : Tx) (publicKey : PublicKey) : result unit :=
  match TxTag payload "signer" with
  | None => Ok tt
  | Some signer =>
      if bool_decide (signer = "") then Ok tt
      else
        expected ← AccountFromPublicKey publicKey;
        check ErrSignerAddressMismatch (bool_decide (signer = expected))
  end.

Definition SignTx (chainID : string) (payload : Tx) (signer : TxSigner_) : result Tx :=
  validatePayloadSignerAddress payload (signer_PublicKey signer) ≫= λ _,
  signature ← signer_Sign signer (SignedTxSignBytes chainID payload);
  let encoded := marshal_json (mkEnvelope "v1" chainID (base64_encode payload)
                   (base64_encode (signer_PublicKey signer)) (base64_encode signature)) in
  Ok (bytes_of_string (signedTxPrefix ++ base64_encode encoded)).

Definition VerifySignedTx (chainID : string) (tx : Tx) (verifier : TxVerifier) : result unit :=
  '(envelope, payload) ← DecodeSignedTx tx;
  match verifier with
  | None => Err ErrInvalidTxSignature
  | Some verify =>
      check ErrInvalidSignedTx (bool_decide (Env_ChainID envelope = chainID)) ≫= λ _,
      publicKey ← decode64 ErrInvalidSignedTx (Env_PublicKey envelope);
      signature ← decode64 ErrInvalidSignedTx (Env_Signature envelope);
      check ErrInvalidTxSignature (verify publicKey (SignedTxSignBytes chainID payload) signature)
        ≫= λ _,
      validatePayloadSignerAddress payload publicKey
  end.

(** ** Canonical round trip *)

(** The fields of a canonical transaction fit its text. *)
Record canonical_wf (tx : CanonicalTx) : Prop := {
  wf_module : CTx_Module tx ≠ "" ∧ CTx_Module tx ≠ "signed" ∧ str_elem ":" (CTx_Module tx) = false;
  wf_action : CTx_Action tx ≠ "" ∧ str_elem ":" (CTx_Action tx) = false;
  wf_args : Forall (λ a, str_elem ":" a = false ∧ str_elem "=" a = false) (CTx_Args tx);
  wf_tags : map_Forall (λ k v, k ≠ "" ∧ str_elem ":" k = false ∧ str_elem "=" k = false ∧
                               str_elem ":" v = false) (CTx_Tags tx)
}.

Lemma str_cut_free sep s : str_elem sep s = false → str_cut sep s = None.
Proof.
  induction s as [|a s IH]; [done|]. cbn [str_elem str_cut].
  intros [Ha Hs]%orb_false_iff. by rewrite Ha, (IH Hs).
Qed.

Lemma str_cut_at sep k v : str_elem sep k = false → str_cut sep (k ++ String sep v) = Some (k, v).
Proof.
  induction k as [|a k IH]; intros Hk.
  - change ("" ++ String sep v)%string with (String sep v). cbn [str_cut].
    by rewrite bool_decide_eq_true_2.
  - cbn [str_elem] in Hk. apply orb_false_iff in Hk as [Ha Hk].
    change (String a k ++ String sep v)%string with (String a (k ++ String sep v)).
    cbn [str_cut]. by rewrite Ha, (IH Hk).
Qed.

Lemma str_elem_app c s t : str_elem c (s ++ t) = str_elem c s || str_elem c t.
Proof.
  induction s as [|a s IH]; [done|]. change (String a s ++ t)%string with (String a (s ++ t)).
  cbn [str_elem]. by rewrite IH, orb_assoc.
Qed.

Lemma has_prefix_inv s p : has_prefix s p = true → ∃ t, s = (p ++ t)%string.
Proof.
  unfold has_prefix. revert s. induction p as [|a p IH]; intros s Hp; [by exists s|].
  destruct s as [|b s]; [done|]. cbn in Hp. destruct (ascii_dec a b) as [->|]; [|done].
  destruct (IH s Hp) as [t ->]. by exists t.
Qed.


Lemma TxPayload_unsigned tx : IsSignedTx tx = false → TxPayload tx = tx.
Proof. intros Hs. unfold TxPayload, DecodeSignedTx. by rewrite Hs. Qed.

Lemma scan_parts_args args rest acc tags :
  Forall (λ a, str_elem "=" a = false) args →
  scan_parts (args ++ rest) acc tags = scan_parts rest (acc ++ args) tags.
Proof.
  intros Ha. revert acc. induction Ha as [|a args Ha _ IH]; intros acc; [by rewrite app_nil_r|].
  cbn [app scan_parts]. rewrite str_cut_free by done. by rewrite IH, <-app_assoc.
Qed.

Lemma parse_parts_tags (values : gmap string string) keys args tags :
  Forall (λ k, k ≠ "" ∧ str_elem "=" k = false) keys →
  scan_parts ((λ k, k ++ "=" ++ default "" (values !! k))%string <$> keys) args tags =
    Ok (args, foldl (λ m k, <[k := default "" (values !! k)]> m) tags keys).
Proof.
  intros Hk. revert tags. induction Hk as [|k keys [Hne Hk] _ IH]; intros tags; [done|].
  rewrite fmap_cons. cbn [scan_parts foldl].
  change ("=" ++ default "" (values !! k))%string with (String "=" (default "" (values !! k))).
  rewrite str_cut_at by done.
  rewrite (bool_decide_eq_true_2 _ Hne). cbn [check mbind result_bind]. by rewrite IH.
Qed.

Lemma foldl_insert_lookup (values : gmap string string) keys (m : gmap string string) k :
  foldl (λ m k, <[k := default "" (values !! k)]> m) m keys !! k =
    if decide (k ∈ keys) then Some (default "" (values !! k)) else m !! k.
Proof.
  revert m. induction keys as [|k' keys IH]; intros m; [done|]. cbn [foldl]. rewrite IH.
  destruct (decide (k = k')) as [->|Hne].
  - rewrite lookup_insert_eq, (decide_True (P:=k' ∈ k' :: keys)) by (by left). by case_decide.
  - rewrite lookup_insert_ne by done. destruct (decide (k ∈ keys)) as [Hin|Hn].
    + by rewrite decide_True by (by right).
    + rewrite decide_False; [done|]. by intros [?|?]%elem_of_cons.
Qed.

Lemma CanonicalTagKeys_elem (order : MapOrder string string) tags k :
  k ∈ CanonicalTagKeys order tags ↔ is_Some (tags !! k).
Proof.
  unfold CanonicalTagKeys. rewrite elem_of_sort_by, list_elem_of_fmap. split.
  - intros ([k' v] & -> & Hin). apply elem_of_map_range in Hin. by exists v.
  - intros [v Hv]. exists (k, v). split; [done|]. by apply elem_of_map_range.
Qed.

Lemma foldl_insert_tags (order : MapOrder string string) tags :
  foldl (λ m k, <[k := default "" (tags !! k)]> m) ∅ (CanonicalTagKeys order tags) = tags.
Proof.
  apply map_eq. intros k. rewrite foldl_insert_lookup. case_decide as Hd.
  - apply CanonicalTagKeys_elem in Hd as [v Hv]. by rewrite Hv.
  - rewrite lookup_empty. destruct (tags !! k) as [v|] eqn:E; [|done].
    exfalso. apply Hd, CanonicalTagKeys_elem. by exists v.
Qed.

Lemma unsigned_text m rest :
  m ≠ "signed" → str_elem ":" m = false →
  IsSignedTx (bytes_of_string (m ++ String ":" rest)) = false.
Proof.
  intros Hne Hm. unfold IsSignedTx. rewrite string_of_bytes_of_string.
  apply not_true_iff_false. intros Hp. apply has_prefix_inv in Hp as [t Heq].
  apply (f_equal (str_split ":")) in Heq. rewrite str_split_app in Heq by done.
  change (signedTxPrefix ++ t)%string with ("signed" ++ String ":" t)%string in Heq.
  rewrite str_split_app in Heq by done. by injection Heq.
Qed.

(** Building a canonical transaction and parsing it back gives the same
    transaction, for every iteration order of the tag map and every transaction
    whose fields fit the text format. *)
Theorem canonical_roundtrip (order : MapOrder string string) tx :
  canonical_wf tx →
  ∃ text, BuildCanonicalTx order tx = Ok text ∧ ParseCanonicalTx text = Ok tx.
Proof.
  intros [(Hm & Hsig & Hmc) (Ha & Hac) Hargs Htags].
  unfold BuildCanonicalTx. rewrite (bool_decide_eq_true_2 _ Hm), (bool_decide_eq_true_2 _ Ha).
  cbn [check mbind result_bind]. eexists. split; [reflexivity|].
  set (tags := (λ key, (key ++ "=" ++ default "" (CTx_Tags tx !! key))%string) <$> _).
  assert (Forall (λ k, k ≠ "" ∧ str_elem "=" k = false ∧ str_elem ":" k = false ∧
    str_elem ":" (default "" (CTx_Tags tx !! k)) = false) (CanonicalTagKeys order (CTx_Tags tx)))
    as Hkeys.
  { apply Forall_forall. intros k [v Hv]%CanonicalTagKeys_elem.
    destruct (Htags k v Hv) as (?&?&?&?). by rewrite Hv. }
  unfold ParseCanonicalTx. rewrite TxPayload_unsigned; last first.
  { destruct (CTx_Args tx ++ tags) as [|p parts]; apply unsigned_text; done. }
  rewrite string_of_bytes_of_string, (str_split_join ":"); [|done|].
  2:{ repeat constructor; [done|done|]. apply Forall_app. split.
      - eapply Forall_impl; [exact Hargs|]. by intros a [? _].
      - apply Forall_fmap. eapply Forall_impl; [exact Hkeys|]. intros k (_ & _ & Hk & Hv).
        cbv beta delta [compose]. by rewrite !str_elem_app, Hk, Hv. }
  cbn [parse_canonical]. rewrite (bool_decide_eq_true_2 _ Hm), (bool_decide_eq_true_2 _ Ha).
  cbn [check mbind result_bind]. rewrite scan_parts_args; last first.
  { eapply Forall_impl; [exact Hargs|]. by intros a [_ ?]. }
  unfold tags. rewrite parse_parts_tags; last first.
  { eapply Forall_impl; [exact Hkeys|]. by intros k (? & ? & _). }
  cbn [mbind result_bind app]. rewrite foldl_insert_tags. by destruct tx.
Qed.

(** ** Signed transactions *)

Lemma has_prefix_self p t : has_prefix (p ++ t) p = true.
Proof.
  unfold has_prefix. induction p as [|a p IH]; [by destruct t|].
  change (String a p ++ t)%string with (String a (p ++ t)). cbn [String.prefix].
  by destruct (ascii_dec a a).
Qed.

Lemma trim_prefix_app p t : trim_prefix (p ++ t) p = t.
Proof.
  unfold trim_prefix. rewrite has_prefix_self, string_length_app.
  replace (String.length p + String.length t - String.length p)%nat with (String.length t) by lia.
  apply substring_suffix.
Qed.

Lemma base64_encode_nonempty data : data ≠ [] → base64_encode data ≠ "".
Proof. by destruct data as [|a [|b [|c rest]]]. Qed.

Lemma decode64_encode e data : decode64 e (base64_encode data) = Ok data.
Proof. unfold decode64. by rewrite base64_decode_encode. Qed.


(** What [DecodeSignedTx] reads back from an envelope. *)
Lemma DecodeSignedTx_envelope chainID payload publicKey signature :
  payload ≠ [] → publicKey ≠ [] → signature ≠ [] → sanitize chainID = chainID →
  let envelope := mkEnvelope "v1" chainID (base64_encode payload) (base64_encode publicKey)
                    (base64_encode signature) in
  DecodeSignedTx (bytes_of_string (signedTxPrefix ++ base64_encode (marshal_json envelope))) = Ok (envelope, payload).
Proof.
  intros Hp Hk Hs Hc envelope. unfold DecodeSignedTx, IsSignedTx.
  rewrite string_of_bytes_of_string, has_prefix_self, trim_prefix_app. cbn [check mbind result_bind].
  rewrite decode64_encode. cbn [mbind result_bind]. rewrite unmarshal_marshal_json by done.
  assert (clean_record envelope = envelope) as ->.
  { unfold envelope. cbn. by rewrite Hc, !sanitize_ascii by apply base64_encode_ascii. }
  unfold envelope. cbn [Env_SchemaVersion Env_Payload Env_PublicKey Env_Signature].
  rewrite (bool_decide_eq_false_2 ("v1" ≠ "v1")) by (intros Hn; by apply Hn).
  rewrite !(bool_decide_eq_false_2 (base64_encode _ = "")) by (by apply base64_encode_nonempty).
  cbn [orb negb check mbind result_bind]. by rewrite decode64_encode.
Qed.

(** Verification says who signed what: a key, whose address is the signer tag,
    verifies a signature over the chain and the payload. *)
Lemma VerifySignedTx_sound chainID tx verify :
  VerifySignedTx chainID tx (Some verify) = Ok tt →
  ∃ publicKey signature,
    verify publicKey (SignedTxSignBytes chainID (TxPayload tx)) signature = true ∧
    ∀ signer, TxTag (TxPayload tx) "signer" = Some signer → signer ≠ "" →
      AccountFromPublicKey publicKey = Ok signer.
Proof.
  intros HV. unfold VerifySignedTx in HV. apply bind_Ok in HV as ([envelope payload] & HD & HV).
  unfold TxPayload. rewrite HD. apply bind_Ok in HV as (_ & _ & HV).
  apply bind_Ok in HV as (publicKey & _ & HV). apply bind_Ok in HV as (signature & _ & HV).
  apply bind_Ok in HV as (_ & Hs%check_Ok & HV). exists publicKey, signature. split; [done|].
  intros signer Ht Hne. unfold validatePayloadSignerAddress in HV. rewrite Ht in HV.
  rewrite (bool_decide_eq_false_2 _ Hne) in HV. apply bind_Ok in HV as (expected & -> & HV).
  apply check_Ok, bool_decide_eq_true in HV. by rewrite HV.
Qed.

(** C31: on a chain whose identifier is UTF-8, a transaction that [SignTx] produced verifies on its chain and carries
    its payload, and whatever transaction verifies was signed, for this chain
    and over exactly the payload that is executed, by a key whose account
    address is the signer named in the payload. *)
Theorem signed_tx_authentic chainID payload signer verify tx :
  payload ≠ [] → signer_PublicKey signer ≠ [] →
  (∀ message signature, signer_Sign signer message = Ok signature →
     signature ≠ [] ∧ verify (signer_PublicKey signer) message signature = true) →
  sanitize chainID = chainID →
  SignTx chainID payload signer = Ok tx →
  (TxPayload tx = payload ∧ VerifySignedTx chainID tx (Some verify) = Ok tt) ∧
  ∀ tx', VerifySignedTx chainID tx' (Some verify) = Ok tt →
    ∃ publicKey signature,
      verify publicKey (SignedTxSignBytes chainID (TxPayload tx')) signature = true ∧
      ∀ signer, TxTag (TxPayload tx') "signer" = Some signer → signer ≠ "" →
        AccountFromPublicKey publicKey = Ok signer.
Proof.
  intros Hp Hk Hsign Hc HS. split; [|intros tx'; apply VerifySignedTx_sound].
  unfold SignTx in HS. apply bind_Ok in HS as ([] & Hval & HS).
  apply bind_Ok in HS as (signature & Hsig & HS).
  match type of HS with Ok ?t = Ok _ => assert (tx = t) as -> by congruence end.
  destruct (Hsign _ _ Hsig) as [Hs Hv].
  pose proof (DecodeSignedTx_envelope chainID payload _ signature Hp Hk Hs Hc) as HD.
  unfold TxPayload, VerifySignedTx. rewrite HD. split; [done|]. cbn [mbind result_bind].
  cbn [Env_ChainID Env_PublicKey Env_Signature]. rewrite bool_decide_eq_true_2 by done.
  rewrite !decode64_encode. cbn [check mbind result_bind].
  by rewrite Hv.
Qed.

(** ** Concrete transactions *)

Module TxExample.
Definition payload : Tx := bytes_of_string "bank:send:alice:bob:5:nonce=1".
Definition signer : TxSigner_ := mkTxSigner [x07] (λ m, Ok (x01 :: m)).
Definition verify (publicKey message : bytes) (signature : Signature) : bool :=
  bool_decide (signature = x01 :: message).
Definition signed : Tx :=
  match SignTx "vexo-1" payload signer with Ok tx => tx | Err _ => [] end.

Lemma signed_ok : SignTx "vexo-1" payload signer = Ok signed.
Proof. vm_compute. reflexivity. Qed.

Lemma signer_verifies message signature :
  signer_Sign signer message = Ok signature →
  signature ≠ [] ∧ verify (signer_PublicKey signer) message signature = true.
Proof. intros [= <-]. split; [done|]. by apply bool_decide_eq_true. Qed.

Lemma signed_tx_authentic_witness :
  TxPayload signed = payload ∧ VerifySignedTx "vexo-1" signed (Some verify) = Ok tt.
Proof.
  destruct (signed_tx_authentic "vexo-1" payload signer verify signed) as [H _];
    [done|done|exact signer_verifies|reflexivity|exact signed_ok|exact H].
Defined.

Definition send_tx : CanonicalTx :=
  mkCanonicalTx "bank" "send" ["alice"; "bob"; "5vexo"] {["nonce" := "1"; "fee" := "2"]}.

Lemma send_tx_wf : canonical_wf send_tx.
Proof.
  split; [by split_and!|by split|by repeat constructor|].
  apply map_Forall_insert_2; [by split_and!|]. by apply map_Forall_singleton.
Qed.

Lemma canonical_roundtrip_witness :
  ∃ text, BuildCanonicalTx canonical_order send_tx = Ok text ∧ ParseCanonicalTx text = Ok send_tx.
Proof. exact (canonical_roundtrip canonical_order send_tx send_tx_wf). Defined.
End TxExample.
