(* ===== verification/FairOrdering.v ===== *)
(** * Fair transaction ordering ([src/fairordering/fairordering.go])

    Transactions without a signer or nonce are chains of one; those of a
    signer form one chain sorted by nonce.  The chains are merged by repeatedly
    taking the chain whose head has the least salted hash.  The queue is a list
    of the chains' remaining transactions; [container/heap]'s [Pop] removes a
    minimum of [Less]. *)

From S2P Require Import Prelude GoLib Sha256 Types Strconv TxTags.

Definition HashTxWithSalt (salt : bytes) (tx : Tx) : Hash := sha256 (salt ++ tx).

(** [fairordering.HashTx] *)
Definition fair_HashTx (tx : Tx) : Hash := HashTxWithSalt [] tx.

Definition HeightSalt (chainID : string) (height : Height) : bytes :=
  hash_bytes (sha256 (bytes_of_string chainID ++ [x00] ++ be64 height)).

(** ** Lexicographic orders *)

Section lex.
Context {A B : Type} `{EqDecision A} (RA : relation A) (RB : relation B)
  `{!RelDecision RA, !RelDecision RB}.

Definition lex (x y : A * B) : Prop :=
  if decide (x.1 = y.1) then RB x.2 y.2 else RA x.1 y.1.

#[global] Instance lex_dec : RelDecision lex.
Proof. intros x y. unfold lex. case_decide; apply _. Defined.

Context `{!Transitive RA, !AntiSymm (=) RA, !Total RA, !Transitive RB, !AntiSymm (=) RB, !Total RB}.

#[global] Instance lex_trans : Transitive lex.
Proof.
  intros [a1 b1] [a2 b2] [a3 b3]. unfold lex. simpl. intros H1 H2.
  repeat case_decide; simplify_eq; try done; try (by etrans).
  match goal with N : _ ≠ _ |- _ => destruct N; by apply (anti_symm RA) end.
Qed.

#[global] Instance lex_antisymm : AntiSymm (=) lex.
Proof.
  intros [a1 b1] [a2 b2]. unfold lex. simpl. intros H1 H2.
  destruct (decide (a1 = a2)) as [->|N1].
  - rewrite decide_True in H2 by done. f_equal. by apply (anti_symm RB).
  - rewrite decide_False in H2 by congruence. destruct N1. by apply (anti_symm RA).
Qed.

#[global] Instance lex_total : Total lex.
Proof.
  intros [a1 b1] [a2 b2]. unfold lex. simpl. destruct (decide (a1 = a2)) as [->|N1].
  - rewrite (decide_True (P := a2 = a2)) by done. apply (total RB).
  - rewrite (decide_False (P := a2 = a1)) by congruence. apply (total RA).
Qed.
End lex.

Section ordering.
Context (salt : bytes).

(** [Less] on candidates: the salted hash, then the bytes. *)
Definition cand_key (tx : Tx) : bytes * bytes := (hash_bytes (HashTxWithSalt salt tx), tx).
Definition cand_le : relation (bytes * bytes) := lex bytes_le bytes_le.

(** The comparison of [transactionChains]: nonce, then salted hash, then bytes. *)
Definition nonce_key (tx : Tx) : Z * (bytes * bytes) := (default 0 (TxNonce tx), cand_key tx).
Definition nonce_le : relation (Z * (bytes * bytes)) := lex Z.le cand_le.

#[global] Instance cand_le_dec : RelDecision cand_le.
Proof. unfold cand_le. apply _. Defined.
#[global] Instance nonce_le_dec : RelDecision nonce_le.
Proof. unfold nonce_le. apply _. Defined.

(** Transactions with both a signer and a nonce. *)
Definition chain_signer (tx : Tx) : option string :=
  signer ← TxSigner tx; _ ← TxNonce tx; Some signer.

(** The map [bySigner] and the single chains, in the order of the list. *)
Definition bySigner (txs : list Tx) (signer : string) : list Tx :=
  filter (λ tx, chain_signer tx = Some signer) txs.
Definition singles (txs : list Tx) : list (list Tx) :=
  (λ tx, [tx]) <$> filter (λ tx, chain_signer tx = None) txs.
Definition signers (txs : list Tx) : list string :=
  sort_by id String.le (remove_dups (omap chain_signer txs)).

Definition transactionChains (txs : list Tx) : list (list Tx) :=
  singles txs ++
  ((λ signer, sort_by nonce_key nonce_le (bySigner txs signer)) <$> signers txs).

(** [heap.Pop]: a chain whose head is least, and the other chains. *)
Definition head_key (chain : list Tx) : bytes * bytes := cand_key (default [] (head chain)).

Fixpoint pop_min (queue : list (list Tx)) : option (list Tx * list (list Tx)) :=
  match queue with
  | [] => None
  | chain :: queue =>
      match pop_min queue with
      | None => Some (chain, [])
      | Some (m, rest) =>
          if bool_decide (cand_le (head_key chain) (head_key m)) then Some (chain, queue)
          else Some (m, chain :: rest)
      end
  end.

(** The merge loop; each iteration emits one transaction, so the number of
    transactions is enough fuel. *)
Fixpoint merge_loop (fuel : nat) (queue : list (list Tx)) : list Tx :=
  match fuel with
  | O => []
  | S fuel =>
      match pop_min queue with
      | None => []
      | Some (chain, queue) =>
          match chain with
          | [] => []
          | tx :: [] => tx :: merge_loop fuel queue
          | tx :: chain => tx :: merge_loop fuel (queue ++ [chain])
          end
      end
  end.

Definition SortTxsWithSalt (txs : list Tx) : list Tx :=
  merge_loop (length txs) (transactionChains txs).

Definition IsOrderedWithSalt (txs : list Tx) : bool :=
  bool_decide (Forall2 eq txs (take (length txs) (SortTxsWithSalt txs))).
End ordering.

Definition SortTxs (txs : list Tx) : list Tx := SortTxsWithSalt [] txs.
Definition IsOrdered (txs : list Tx) : bool := IsOrderedWithSalt [] txs.

(** ** The merge *)

Section ordering_proofs.
Context (salt : bytes).

#[local] Instance cand_le_trans : Transitive cand_le.
Proof. unfold cand_le. apply _. Qed.
#[local] Instance cand_le_antisymm : AntiSymm (=) cand_le.
Proof. unfold cand_le. apply _. Qed.
#[local] Instance cand_le_total : Total cand_le.
Proof. unfold cand_le. apply _. Qed.
#[local] Instance nonce_le_trans : Transitive nonce_le.
Proof. unfold nonce_le. apply _. Qed.
#[local] Instance nonce_le_antisymm : AntiSymm (=) nonce_le.
Proof. unfold nonce_le. apply _. Qed.
#[local] Instance nonce_le_total : Total nonce_le.
Proof. unfold nonce_le. apply _. Qed.
#[local] Instance cand_key_inj : Inj (=) (=) (cand_key salt).
Proof. intros t1 t2 Heq. exact (f_equal snd Heq). Qed.
#[local] Instance nonce_key_inj : Inj (=) (=) (nonce_key salt).
Proof. intros t1 t2 Heq. exact (f_equal (λ k, k.2.2) Heq). Qed.

#[local] Opaque cand_le nonce_le cand_key nonce_key chain_signer HashTxWithSalt.

Lemma pop_min_None q : pop_min salt q = None ↔ q = [].
Proof.
  destruct q as [|c q]; [done|]. simpl.
  destruct (pop_min salt q) as [[m r]|]; [case_bool_decide|]; done.
Qed.

Lemma cand_le_refl k : cand_le k k.
Proof. destruct (total cand_le k k); done. Qed.

Lemma pop_min_Some q m r :
  pop_min salt q = Some (m, r) →
  q ≡ₚ m :: r ∧ Forall (λ c, cand_le (head_key salt m) (head_key salt c)) q.
Proof.
  revert m r. induction q as [|c q IH]; intros m r; [done|]. simpl.
  destruct (pop_min salt q) as [[m' r']|] eqn:E; last first.
  { apply pop_min_None in E as ->. intros [= <- <-]. split; [done|].
    apply Forall_singleton, cand_le_refl. }
  destruct (IH m' r' eq_refl) as [Hp Hmin]. case_bool_decide as Hle; intros [= <- <-].
  - split; [done|]. apply Forall_cons. split; [apply cand_le_refl|].
    eapply Forall_impl; [exact Hmin|]. intros d Hd. exact (cand_le_trans _ _ _ Hle Hd).
  - split; [by rewrite Hp; constructor|]. apply Forall_cons. split; [|done].
    destruct (total cand_le (head_key salt c) (head_key salt m')) as [Hcm|Hmc];
      [destruct (Hle Hcm)|exact Hmc].
Qed.

(** The signer of a chain. *)
Definition chain_sig (chain : list Tx) : option string := head chain ≫= chain_signer.

(** A chain is one unsigned transaction, or transactions of one signer. *)
Definition chain_ok (chain : list Tx) : Prop :=
  chain ≠ [] ∧
  match chain_sig chain with
  | None => length chain = 1%nat
  | Some s => Forall (λ tx, chain_signer tx = Some s) chain
  end.

(** The queue holds at most one chain per signer. *)
Definition coherent (q : list (list Tx)) : Prop :=
  Forall chain_ok q ∧ NoDup (omap chain_sig q).

#[local] Instance coherent_perm : Proper ((≡ₚ) ==> (↔)) coherent.
Proof. intros q1 q2 Hp. unfold coherent. by rewrite Hp. Qed.

(** Chains of a coherent queue with the same head are the same. *)
Lemma coherent_head m r c :
  coherent (m :: r) → c ∈ m :: r → head_key salt m = head_key salt c → m = c.
Proof.
  intros [Hok Hnd] Hc Hk. rewrite Forall_forall in Hok.
  pose proof (Hok m ltac:(by left)) as [Hm Hm']. pose proof (Hok c Hc) as [Hc1 Hc2].
  assert (head m = head c) as Hh.
  { unfold head_key in Hk. apply (inj (cand_key salt)) in Hk. destruct m, c; simpl in *; congruence. }
  assert (chain_sig m = chain_sig c) as Hs by (unfold chain_sig; by rewrite Hh).
  rewrite <-Hs in Hc2. destruct (chain_sig m) as [s|] eqn:Esm.
  - rewrite elem_of_cons in Hc. destruct Hc as [->|Hin]; [done|]. exfalso.
    simpl in Hnd. rewrite Esm in Hnd. apply NoDup_cons in Hnd as [Hni _]. apply Hni.
    apply list_elem_of_omap. exists c. split; [exact Hin|]. symmetry. exact Hs.
  - destruct m as [|t [|? m]], c as [|u [|? c]]; simpl in *; congruence.
Qed.

Definition step_queue (chain : list Tx) (q : list (list Tx)) : list (list Tx) :=
  match tail chain with [] => q | _ => q ++ [tail chain] end.

Lemma merge_loop_step fuel q m r :
  pop_min salt q = Some (m, r) → m ≠ [] →
  merge_loop salt (S fuel) q = default [] (head m) :: merge_loop salt fuel (step_queue m r).
Proof. intros E Hm. simpl. rewrite E. by destruct m as [|t [|u m]]. Qed.

Lemma step_queue_concat m r :
  m ≠ [] → m ++ concat r ≡ₚ default [] (head m) :: concat (step_queue m r).
Proof.
  intros Hm. unfold step_queue. destruct m as [|t [|u m]]; [done|done|]. simpl.
  rewrite concat_app. simpl. rewrite app_nil_r. constructor.
  by rewrite (Permutation_app_comm (concat r)).
Qed.

Lemma step_queue_coherent m r : coherent (m :: r) → coherent (step_queue m r).
Proof.
  intros [[[Hne Hm] Hr]%Forall_cons Hnd]. unfold step_queue.
  destruct m as [|t [|u m]]; [done| |]; simpl in *.
  - split; [done|]. unfold chain_sig in Hnd. simpl in Hnd.
    destruct (chain_signer t); [by apply NoDup_cons in Hnd as [_ ?]|done].
  - unfold chain_sig in Hm at 1. simpl in Hm. unfold chain_sig in Hnd at 1. simpl in Hnd.
    destruct (chain_signer t) as [s|] eqn:Et; [|done].
    apply Forall_cons in Hm as [_ Hm]. pose proof Hm as [Hu _]%Forall_cons.
    rewrite Permutation_app_comm. split.
    + simpl. apply Forall_cons. split; [|done]. split; [done|]. unfold chain_sig. simpl.
      by rewrite Hu.
    + simpl. unfold chain_sig at 1. simpl. by rewrite Hu.
Qed.
(** Popping a coherent queue gives a coherent queue and one transaction. *)
Lemma pop_coherent q m r :
  coherent q → pop_min salt q = Some (m, r) →
  m ≠ [] ∧ coherent (m :: r) ∧ coherent (step_queue m r) ∧
  concat q ≡ₚ default [] (head m) :: concat (step_queue m r).
Proof.
  intros Hc E. apply pop_min_Some in E as [Hp _]. rewrite Hp in Hc.
  pose proof Hc as [[[Hm _] _]%Forall_cons _]. split_and!; [exact Hm|exact Hc| |].
  - by apply step_queue_coherent.
  - rewrite Hp. simpl. by apply step_queue_concat.
Qed.

Lemma merge_loop_perm fuel q :
  coherent q → (length (concat q) ≤ fuel)%nat → merge_loop salt fuel q ≡ₚ concat q.
Proof.
  revert q. induction fuel as [|fuel IH]; intros q Hc Hl.
  { destruct (concat q) eqn:E; simpl in *; [done|lia]. }
  destruct (pop_min salt q) as [[m r]|] eqn:E; last first.
  { simpl. rewrite E. apply pop_min_None in E as ->. done. }
  destruct (pop_coherent q m r Hc E) as (Hm & _ & Hc' & Hp).
  rewrite (merge_loop_step fuel q m r E Hm), Hp. rewrite Hp in Hl. simpl in Hl.
  constructor. apply IH; [exact Hc'|lia].
Qed.

(** The merge does not depend on the order of the queue. *)
Lemma merge_loop_invariant fuel q1 q2 :
  coherent q1 → q1 ≡ₚ q2 → merge_loop salt fuel q1 = merge_loop salt fuel q2.
Proof.
  revert q1 q2. induction fuel as [|fuel IH]; intros q1 q2 Hc Hq; [done|].
  destruct (pop_min salt q1) as [[m1 r1]|] eqn:E1; last first.
  { apply pop_min_None in E1 as ->. apply Permutation_nil_l in Hq as ->. done. }
  destruct (pop_min salt q2) as [[m2 r2]|] eqn:E2; last first.
  { apply pop_min_None in E2 as ->. apply Permutation_nil_r in Hq as ->. done. }
  assert (coherent q2) as Hc2 by (by rewrite <-Hq).
  destruct (pop_coherent q1 m1 r1 Hc E1) as (Hm1 & Hcm & Hc1' & _).
  destruct (pop_coherent q2 m2 r2 Hc2 E2) as (Hm2 & _ & _ & _).
  pose proof (pop_min_Some _ _ _ E1) as [Hp1 Hmin1]. pose proof (pop_min_Some _ _ _ E2) as [Hp2 Hmin2].
  assert (m2 ∈ m1 :: r1) as Hin by (rewrite <-Hp1, Hq, Hp2; by left).
  assert (m1 ∈ m2 :: r2) as Hin' by (rewrite <-Hp2, <-Hq, Hp1; by left).
  assert (m1 = m2) as Hm.
  { apply (coherent_head m1 r1); [exact Hcm|exact Hin|]. apply (anti_symm cand_le).
    - rewrite Forall_forall in Hmin1. apply Hmin1. rewrite Hp1. exact Hin.
    - rewrite Forall_forall in Hmin2. apply Hmin2. rewrite Hp2. exact Hin'. }
  rewrite (merge_loop_step fuel q1 m1 r1 E1 Hm1), (merge_loop_step fuel q2 m2 r2 E2 Hm2).
  rewrite <-Hm. f_equal. apply IH; [exact Hc1'|].
  assert (r1 ≡ₚ r2) as Hr.
  { apply (Permutation_cons_inv (a := m1)). rewrite <-Hp1, Hq, Hp2, Hm. done. }
  unfold step_queue. destruct (tail m1); by rewrite Hr.
Qed.

(** *** The chains *)

Definition signer_chain (txs : list Tx) (signer : string) : list Tx :=
  sort_by (nonce_key salt) nonce_le (bySigner txs signer).

Lemma elem_of_signer_chain txs s t :
  t ∈ signer_chain txs s ↔ chain_signer t = Some s ∧ t ∈ txs.
Proof. unfold signer_chain, bySigner. by rewrite elem_of_sort_by, list_elem_of_filter. Qed.

Lemma elem_of_signers txs s : s ∈ signers txs ↔ ∃ tx, tx ∈ txs ∧ chain_signer tx = Some s.
Proof. unfold signers. by rewrite elem_of_sort_by, elem_of_remove_dups, list_elem_of_omap. Qed.

Lemma signers_nodup txs : NoDup (signers txs).
Proof. unfold signers. rewrite sort_by_perm. apply NoDup_remove_dups. Qed.

Lemma signer_chain_ok txs s :
  s ∈ signers txs → chain_ok (signer_chain txs s) ∧ chain_sig (signer_chain txs s) = Some s.
Proof.
  intros (tx & Htx & Hsig)%elem_of_signers.
  assert (chain_sig (signer_chain txs s) = Some s) as Hs.
  { unfold chain_sig. destruct (signer_chain txs s) as [|t c] eqn:Ec.
    - exfalso. apply (not_elem_of_nil tx). rewrite <-Ec. by apply elem_of_signer_chain.
    - simpl. assert (t ∈ signer_chain txs s) as Ht by (rewrite Ec; by left).
      apply elem_of_signer_chain in Ht. tauto. }
  split; [|exact Hs]. split.
  - intros Hnil. by rewrite Hnil in Hs.
  - rewrite Hs. apply Forall_forall. intros t Ht. apply elem_of_signer_chain in Ht. tauto.
Qed.

Lemma transactionChains_coherent txs : coherent (transactionChains salt txs).
Proof.
  unfold transactionChains. split.
  - apply Forall_app. split; apply Forall_fmap, Forall_forall.
    + intros tx Htx. apply list_elem_of_filter in Htx as [Htx _]. split; [done|].
      unfold chain_sig. simpl. by rewrite Htx.
    + intros s Hs. by apply signer_chain_ok.
  - rewrite omap_app.
    assert (omap chain_sig (singles txs) = []) as ->.
    { unfold singles. induction txs as [|tx txs IH]; [done|]. rewrite filter_cons.
      case_decide as Htx; [|exact IH]. simpl. unfold chain_sig at 1. simpl. by rewrite Htx. }
    simpl. enough (omap chain_sig (signer_chain txs <$> signers txs) = signers txs) as Heq.
    { unfold signer_chain in Heq. rewrite Heq. apply signers_nodup. }
    assert (Forall (.∈ signers txs) (signers txs)) as Hall by (by apply Forall_forall).
    revert Hall. generalize (signers txs) at 2 3 4 as l.
    induction l as [|s l IH]; intros Hall; [done|]. apply Forall_cons in Hall as [Hs Hall].
    csimpl. rewrite (proj2 (signer_chain_ok txs s Hs)). f_equal. by apply IH.
Qed.

Lemma transactionChains_perm txs1 txs2 :
  txs1 ≡ₚ txs2 → transactionChains salt txs1 ≡ₚ transactionChains salt txs2.
Proof.
  intros Hp. unfold transactionChains.
  assert (signers txs1 = signers txs2) as ->.
  { unfold signers. apply (sort_by_inj id String.le).
    apply NoDup_Permutation; [apply NoDup_remove_dups..|]. intros s.
    rewrite !elem_of_remove_dups. by rewrite Hp. }
  apply Permutation_app.
  - unfold singles. by rewrite Hp.
  - apply Permutation_refl'. apply list_fmap_ext. intros i s _.
    apply sort_by_inj; [apply _..|]. unfold bySigner. by rewrite Hp.
Qed.

(** Distributing one more transaction of a signer over the signers' lists. *)
Lemma bind_cons_signer (f : string → list Tx) l s tx :
  NoDup l → s ∈ l →
  (l ≫= λ x, if decide (x = s) then tx :: f x else f x) ≡ₚ tx :: (l ≫= f).
Proof.
  intros Hnd [l' Hl]%elem_of_Permutation. rewrite Hl in Hnd |- *.
  apply NoDup_cons in Hnd as [Hs _]. simpl. rewrite decide_True by done. simpl. constructor.
  apply Permutation_app_head, Permutation_refl'. clear Hl.
  induction l' as [|x l' IH]; [done|]. apply not_elem_of_cons in Hs as [Hne Hs].
  simpl. rewrite decide_False by done. by rewrite IH.
Qed.

Lemma chains_concat_perm txs l :
  NoDup l → (∀ tx s, tx ∈ txs → chain_signer tx = Some s → s ∈ l) →
  filter (λ tx, chain_signer tx = None) txs ++ (l ≫= bySigner txs) ≡ₚ txs.
Proof.
  intros Hnd. induction txs as [|tx txs IH]; intros Hl.
  { simpl. clear. induction l; simpl; auto. }
  assert (filter (λ tx, chain_signer tx = None) txs ++ (l ≫= bySigner txs) ≡ₚ txs) as IH'.
  { apply IH. intros t s Ht. apply Hl. by right. }
  rewrite filter_cons. destruct (chain_signer tx) as [s|] eqn:Etx.
  - rewrite decide_False by done.
    assert (l ≫= bySigner (tx :: txs) =
      l ≫= λ x, if decide (x = s) then tx :: bySigner txs x else bySigner txs x) as ->.
    { clear -Etx. induction l as [|x l IHl]; [done|]. rewrite !bind_cons, IHl. f_equal.
      unfold bySigner. rewrite filter_cons, Etx.
      destruct (decide (x = s)) as [->|]; [by rewrite decide_True|].
      by rewrite decide_False by congruence. }
    rewrite bind_cons_signer; [|done|by apply (Hl tx); [left|]].
    rewrite <-Permutation_middle. by constructor.
  - rewrite decide_True by done. simpl. constructor.
    assert (l ≫= bySigner (tx :: txs) = l ≫= bySigner txs) as ->; [|exact IH'].
    clear -Etx. induction l as [|x l IHl]; [done|]. rewrite !bind_cons, IHl. f_equal.
    unfold bySigner. rewrite filter_cons, Etx. by rewrite decide_False by congruence.
Qed.

Lemma transactionChains_concat txs : concat (transactionChains salt txs) ≡ₚ txs.
Proof.
  rewrite <-(chains_concat_perm txs (signers txs) (signers_nodup txs)) at 2.
  - unfold transactionChains. rewrite concat_app. apply Permutation_app.
    + unfold singles. induction (filter _ txs) as [|t l IH]; [done|]. simpl. by constructor.
    + induction (signers txs) as [|s l IH]; [done|]. simpl. by rewrite IH, sort_by_perm.
  - intros tx s Htx Hs. apply elem_of_signers. by exists tx.
Qed.
Lemma SortTxs_perm txs : SortTxsWithSalt salt txs ≡ₚ txs.
Proof.
  unfold SortTxsWithSalt. rewrite merge_loop_perm.
  - apply transactionChains_concat.
  - apply transactionChains_coherent.
  - by rewrite transactionChains_concat.
Qed.

Lemma SortTxs_invariant txs1 txs2 :
  txs1 ≡ₚ txs2 → SortTxsWithSalt salt txs1 = SortTxsWithSalt salt txs2.
Proof.
  intros Hp. unfold SortTxsWithSalt. rewrite (Permutation_length Hp).
  apply merge_loop_invariant; [apply transactionChains_coherent|by apply transactionChains_perm].
Qed.

Lemma IsOrdered_iff txs : IsOrderedWithSalt salt txs = true ↔ SortTxsWithSalt salt txs = txs.
Proof.
  unfold IsOrderedWithSalt. rewrite bool_decide_eq_true.
  rewrite take_ge by (by rewrite SortTxs_perm). rewrite list_eq_Forall2. done.
Qed.

(** *** Nonce order *)

(** [l] is what is left of the chain of signer [s]. *)
Definition remains (s : string) (l : list Tx) (q : list (list Tx)) : Prop :=
  (l = [] ∧ ∀ c, c ∈ q → chain_sig c ≠ Some s) ∨ (l ∈ q ∧ chain_sig l = Some s).

Lemma remains_perm s l q1 q2 : q1 ≡ₚ q2 → remains s l q1 → remains s l q2.
Proof. unfold remains. intros Hp. setoid_rewrite Hp. done. Qed.

Lemma remains_other s l m r :
  coherent (m :: r) → chain_sig m ≠ Some s → remains s l (m :: r) → remains s l (step_queue m r).
Proof.
  intros [[[Hne Hm] _]%Forall_cons _] Hs Hrem.
  assert (∀ c, c ∈ step_queue m r → c ∈ r ∨ chain_sig c = chain_sig m) as Hstep.
  { unfold step_queue. destruct m as [|t [|u m]]; simpl; [done|auto|]. intros c Hc.
    apply elem_of_app in Hc as [Hc|Hc]; [by left|right]. apply list_elem_of_singleton in Hc as ->.
    unfold chain_sig in *. simpl in *. destruct (chain_signer t) as [s'|] eqn:Et; [|done].
    rewrite !Forall_cons in Hm. tauto. }
  assert (∀ c, c ∈ r → c ∈ step_queue m r) as Hr.
  { unfold step_queue. intros c Hc. destruct (tail m); [done|]. apply elem_of_app. by left. }
  destruct Hrem as [[-> Hno]|[Hin Hl]].
  - left. split; [done|]. intros c Hc. apply Hstep in Hc as [Hc|Hc]; [|by rewrite Hc].
    apply Hno. by right.
  - right. split; [|done]. apply elem_of_cons in Hin as [->|Hin]; [done|auto].
Qed.

Lemma remains_own s l m r :
  coherent (m :: r) → chain_sig m = Some s → remains s l (m :: r) →
  l = m ∧ remains s (tail m) (step_queue m r).
Proof.
  intros Hc Hs Hrem. pose proof Hc as [[[Hne Hm] _]%Forall_cons Hnd].
  simpl in Hnd. rewrite Hs in Hnd, Hm. apply NoDup_cons in Hnd as [Hni _].
  assert (∀ c, c ∈ r → chain_sig c ≠ Some s) as Hno.
  { intros c Hcr Hcs. apply Hni, list_elem_of_omap. by exists c. }
  split.
  - destruct Hrem as [[_ Hno']|[Hin Hl]]; [by destruct (Hno' m ltac:(by left))|].
    apply elem_of_cons in Hin as [->|Hin]; [done|]. by destruct (Hno l Hin).
  - unfold step_queue. destruct m as [|t [|u m]]; [done|by left|]. right. simpl. split.
    + apply elem_of_app. right. by left.
    + unfold chain_sig. simpl. rewrite !Forall_cons in Hm. tauto.
Qed.

Lemma merge_loop_signer fuel q s l :
  coherent q → (length (concat q) ≤ fuel)%nat → remains s l q →
  filter (λ tx, chain_signer tx = Some s) (merge_loop salt fuel q) = l.
Proof.
  revert q l. induction fuel as [|fuel IH]; intros q l Hc Hl Hrem.
  { destruct Hrem as [[-> _]|[Hin Hs]]; [done|]. destruct Hc as [Hok _].
    rewrite Forall_forall in Hok. destruct (Hok l Hin) as [Hne _].
    apply elem_of_Permutation in Hin as [q' Hq]. rewrite Hq in Hl. simpl in Hl.
    rewrite length_app in Hl. destruct l; simpl in *; [done|lia]. }
  destruct (pop_min salt q) as [[m r]|] eqn:E; last first.
  { simpl. rewrite E. apply pop_min_None in E as ->.
    destruct Hrem as [[-> _]|[Hin _]]; [done|by apply elem_of_nil in Hin]. }
  destruct (pop_coherent q m r Hc E) as (Hm & Hcm & Hc' & Hp).
  pose proof (proj1 (pop_min_Some _ _ _ E)) as Hq.
  rewrite (merge_loop_step fuel q m r E Hm), filter_cons.
  apply (remains_perm _ _ _ _ Hq) in Hrem.
  rewrite Hp in Hl. simpl in Hl.
  destruct m as [|t m]; [done|]. simpl. destruct (decide (chain_signer t = Some s)) as [Ht|Ht].
  - destruct (remains_own s l (t :: m) r Hcm Ht Hrem) as [-> Hrem'].
    f_equal. apply IH; [exact Hc'|lia|exact Hrem'].
  - apply IH; [exact Hc'|lia|]. by apply remains_other.
Qed.

Lemma SortTxs_signer txs s :
  filter (λ tx, chain_signer tx = Some s) (SortTxsWithSalt salt txs) = signer_chain txs s.
Proof.
  unfold SortTxsWithSalt. apply merge_loop_signer; [apply transactionChains_coherent| |].
  - by rewrite transactionChains_concat.
  - destruct (decide (s ∈ signers txs)) as [Hs|Hs].
    + right. split; [|by apply signer_chain_ok]. unfold transactionChains. apply elem_of_app.
      right. apply list_elem_of_fmap. by exists s.
    + left. split.
      * apply elem_of_nil_inv. intros t [Ht Hin]%elem_of_signer_chain. apply Hs, elem_of_signers.
        by exists t.
      * intros c Hc Hsig. unfold transactionChains in Hc. apply elem_of_app in Hc as [Hc|Hc].
        -- apply list_elem_of_fmap in Hc as (t & -> & Ht). apply list_elem_of_filter in Ht as [Ht _].
           unfold chain_sig in Hsig. simpl in Hsig. congruence.
        -- apply list_elem_of_fmap in Hc as (s' & -> & Hs'). fold (signer_chain txs s') in Hsig.
           rewrite (proj2 (signer_chain_ok txs s' Hs')) in Hsig. congruence.
Qed.
End ordering_proofs.

(** C16: the fair order is canonical.  Sorting returns a permutation of the
    transactions, the result passes the validators' check, and it is the only
    permutation that does, so a proposer has no freedom in ordering a block. *)
Theorem fair_order_canonical salt txs :
  SortTxsWithSalt salt txs ≡ₚ txs ∧
  IsOrderedWithSalt salt (SortTxsWithSalt salt txs) = true ∧
  (∀ txs', txs' ≡ₚ txs → IsOrderedWithSalt salt txs' = true →
     txs' = SortTxsWithSalt salt txs).
Proof.
  split_and!.
  - apply SortTxs_perm.
  - apply IsOrdered_iff, SortTxs_invariant, SortTxs_perm.
  - intros txs' Hp Ho. apply IsOrdered_iff in Ho. rewrite <-Ho at 1.
    by apply SortTxs_invariant.
Qed.

(** The fair order keeps every signer's nonces in order: the transactions
    of a signer appear in a sorted block by non-decreasing nonce, and all of
    them appear. *)
Theorem fair_order_nonces salt txs signer :
  let own := filter (λ tx, chain_signer tx = Some signer) (SortTxsWithSalt salt txs) in
  own ≡ₚ filter (λ tx, chain_signer tx = Some signer) txs ∧
  StronglySorted (λ t1 t2, default 0 (TxNonce t1) ≤ default 0 (TxNonce t2)) own.
Proof.
  intros own. unfold own. rewrite SortTxs_signer. split.
  - unfold signer_chain. by rewrite sort_by_perm.
  - pose proof (sort_by_key_sorted (nonce_key salt) nonce_le (bySigner txs signer)) as Hs.
    fold (signer_chain salt txs signer) in Hs.
    induction Hs as [|t l Hs IH Hall]; constructor; [exact IH|].
    eapply Forall_impl; [exact Hall|]. intros u Hu.
    unfold key_le, nonce_le, lex in Hu. simpl in Hu. case_decide; lia.
Qed.
