(* ===== verification/Mempool.v ===== *)
(** * The transaction pool ([src/mempool/fifo.go], [hash.go], [priority.go])

    A pool is a slice of transactions with two maps from hashes and replacement
    keys to positions, and the times at which hashes were seen.  Every operation
    reads the clock once: [now] is an argument.  An index out of range is the
    error [PanicIndex]; the invariant of the pool excludes it. *)

From S2P Require Import Prelude GoLib Sha256 Types Strconv TxTags Text Economics FairOrdering.

Definition Pool_ErrEmptyTx := ErrNew "mempool.ErrEmptyTx".
Definition ErrDuplicateTx := ErrNew "mempool.ErrDuplicateTx".
Definition ErrTxTooLarge := ErrNew "mempool.ErrTxTooLarge".
Definition ErrMempoolFull := ErrNew "mempool.ErrMempoolFull".
Definition ErrInvalidMaxBytes := ErrNew "mempool.ErrInvalidMaxBytes".
Definition Pool_ErrInsufficientFee := ErrNew "mempool.ErrInsufficientFee".
Definition ErrReplacementUnderpriced := ErrNew "mempool.ErrReplacementUnderpriced".
Definition ErrTxNotReady := ErrNew "mempool.ErrTxNotReady".
Definition PanicIndex := ErrNew "panic: index out of range".

(** [mempool.Batch] *)
Record Batch := mkBatch {
  Batch_ID : Hash;
  Batch_Author : ValidatorID;
  Batch_Txs : list Tx;
  Batch_Parents : list Hash;
  Batch_Metadata : bytes
}.

(** [mempool.HashTx] and [mempool.HashBatch] *)
Definition HashTx (tx : Tx) : Hash := sha256 tx.

Definition HashBatch (batch : Batch) : Hash :=
  sha256 (bytes_of_string (Batch_Author batch) ++ concat (hash_bytes <$> Batch_Parents batch) ++
          concat ((λ tx, be64 (Z.of_nat (length tx)) ++ tx) <$> Batch_Txs batch) ++
          Batch_Metadata batch).

(** [time.Time.Sub] saturates. *)
Definition max_i64 : Z := 9223372036854775807.
Definition time_sub (a b : Z) : Z := Z.max (- max_i64 - 1) (Z.min max_i64 (a - b)).

(** ** Fees and priorities *)

Section fees.

Definition txAmountTag (tx : Tx) (key : string) : Z :=
  match txStringTag tx key with
  | None => 0
  | Some tagValue => match ParseAmount tagValue with Ok value => value | Err _ => 0 end
  end.

Definition TxFee (tx : Tx) : Z := txAmountTag tx "fee".

(** The division is by zero, and panics, only for a bump of [2^64 - 10000]. *)
Definition bumpedByBPS (newValue oldValue bumpBPS : Z) : bool :=
  if bool_decide (oldValue = 0) then bool_decide (0 < newValue)
  else if bool_decide (max_u64 / wrap64 (10000 + bumpBPS) < oldValue)
  then bool_decide (newValue = max_u64)
  else
    let required := wrap64 (wrap64 (oldValue * wrap64 (10000 + bumpBPS)) + 9999) / 10000 in
    bool_decide (required ≤ newValue).

Definition replacementPriceBumped (oldTx newTx : Tx) (bumpBPS : Z) : bool :=
  let bumpBPS := if bool_decide (bumpBPS = 0) then 1000 else bumpBPS in
  let oldFee := TxFee oldTx in
  let newFee := TxFee newTx in
  let oldPriority := TxPriority oldTx in
  let newPriority := TxPriority newTx in
  if bool_decide (oldFee = 0) && bool_decide (oldPriority = 0)
  then bool_decide (0 < newFee) || bool_decide (0 < newPriority)
  else bumpedByBPS newFee oldFee bumpBPS || bumpedByBPS newPriority oldPriority bumpBPS.

(** The comparison of the priority order: higher priority, then higher fee, then
    smaller hash. *)
Definition priority_key (tx : Tx) : Z * (Z * bytes) :=
  (- TxPriority tx, (- TxFee tx, hash_bytes (HashTx tx))).
Definition priority_le : relation (Z * (Z * bytes)) := lex Z.le (lex Z.le bytes_le).

#[global] Instance priority_le_dec : RelDecision priority_le.
Proof. unfold priority_le. apply _. Defined.

Definition priority_sort (txs : list Tx) : list Tx := sort_by priority_key priority_le txs.
End fees.

(** ** State *)

(** [ReplayCheckTx] is a nil function or returns an error, nil being [None]. *)
Record FIFOConfig := mkFIFOConfig {
  FC_Author : ValidatorID;
  FC_MaxTxBytes : Z;
  FC_MaxTxs : Z;
  FC_AllowDuplicate : bool;
  FC_SeenTTL : Z;
  FC_MinFee : Z;
  FC_EnablePriority : bool;
  FC_WALPath : string;
  FC_EnableReplacement : bool;
  FC_ReplacementBumpBPS : Z;
  FC_ReplayCheckTx : option (Ctx → Tx → option error)
}.

Record FIFO := mkFIFO {
  fifo_config : FIFOConfig;
  fifo_txs : list Tx;
  fifo_index : gmap Hash nat;
  fifo_replacements : gmap string nat;
  fifo_seen : gmap Hash Z
}.

Definition NewFIFO (config : FIFOConfig) : FIFO := mkFIFO config [] ∅ ∅ ∅.

Definition fifo_set_seen (pool : FIFO) (seen : gmap Hash Z) : FIFO :=
  mkFIFO (fifo_config pool) (fifo_txs pool) (fifo_index pool) (fifo_replacements pool) seen.

Definition fifo_set_txs (pool : FIFO) (txs : list Tx) : FIFO :=
  mkFIFO (fifo_config pool) txs (fifo_index pool) (fifo_replacements pool) (fifo_seen pool).

(** ** Operations *)

Section fifo.

Definition markSeen (now : Z) (pool : FIFO) (hash : Hash) : FIFO :=
  if bool_decide (FC_SeenTTL (fifo_config pool) ≤ 0) then pool
  else fifo_set_seen pool (<[hash := now]> (fifo_seen pool)).

Definition expired (now ttl seenAt : Z) : bool := bool_decide (ttl < time_sub now seenAt).

Definition pruneSeenExpired (now : Z) (pool : FIFO) : FIFO :=
  let ttl := FC_SeenTTL (fifo_config pool) in
  if bool_decide (ttl ≤ 0) || bool_decide (size (fifo_seen pool) = 0%nat) then pool
  else fifo_set_seen pool (filter (λ p, expired now ttl p.2 = false) (fifo_seen pool)).

Definition seenRecently (now : Z) (pool : FIFO) (hash : Hash) : FIFO * bool :=
  let ttl := FC_SeenTTL (fifo_config pool) in
  if bool_decide (ttl ≤ 0) then (pool, false)
  else match fifo_seen pool !! hash with
       | None => (pool, false)
       | Some seenAt =>
           if expired now ttl seenAt
           then (fifo_set_seen pool (delete hash (fifo_seen pool)), false)
           else (pool, true)
       end.

(** The loop of [rebuildIndex] from a position. *)
Fixpoint index_txs (txs : list Tx) (position : nat) (index : gmap Hash nat)
    (replacements : gmap string nat) : gmap Hash nat * gmap string nat :=
  match txs with
  | [] => (index, replacements)
  | tx :: txs =>
      index_txs txs (S position) (<[HashTx tx := position]> index)
        (match ReplacementKey tx with
         | Some key => <[key := position]> replacements
         | None => replacements
         end)
  end.

Definition rebuildIndex (pool : FIFO) : FIFO :=
  let '(index, replacements) := index_txs (fifo_txs pool) 0 ∅ ∅ in
  mkFIFO (fifo_config pool) (fifo_txs pool) index replacements (fifo_seen pool).

(** The position, or [-1] as [None]. *)
Definition replacementIndex (pool : FIFO) (tx : Tx) : option nat :=
  if negb (FC_EnableReplacement (fifo_config pool)) then None
  else key ← ReplacementKey tx; fifo_replacements pool !! key.

Definition checkReplacement (pool : FIFO) (tx : Tx) : result unit :=
  match replacementIndex pool tx with
  | None => Ok tt
  | Some index =>
      match fifo_txs pool !! index with
      | None => Err PanicIndex
      | Some old =>
          check ErrDuplicateTx (bool_decide (HashTx old ≠ HashTx tx)) ≫= λ _,
          check ErrReplacementUnderpriced
            (replacementPriceBumped old tx (FC_ReplacementBumpBPS (fifo_config pool)))
      end
  end.

(** [checkTxLocked], which is also [CheckTx]. *)
Definition checkTxLocked (now : Z) (pool : FIFO) (ctx : Ctx) (tx : Tx) : FIFO * result unit :=
  let config := fifo_config pool in
  match
    ctx_guard ctx ≫= λ _,
    check Pool_ErrEmptyTx (bool_decide (tx ≠ [])) ≫= λ _,
    check ErrTxTooLarge
      (negb (bool_decide (0 < FC_MaxTxBytes config) &&
             bool_decide (FC_MaxTxBytes config < Z.of_nat (length tx))))
  with
  | Err e => (pool, Err e)
  | Ok _ =>
      match replacementIndex pool tx with
      | Some _ => (pool, checkReplacement pool tx)
      | None =>
          if bool_decide (0 < FC_MaxTxs config) &&
             bool_decide (FC_MaxTxs config ≤ Z.of_nat (length (fifo_txs pool)))
          then (pool, Err ErrMempoolFull)
          else
            let hash := HashTx tx in
            let pool := pruneSeenExpired now pool in
            let fee_check :=
              check Pool_ErrInsufficientFee
                (negb (bool_decide (0 < FC_MinFee config) && bool_decide (TxFee tx < FC_MinFee config))) in
            if negb (FC_AllowDuplicate config) then
              match fifo_index pool !! hash with
              | Some _ => (pool, Err ErrDuplicateTx)
              | None =>
                  let '(pool, seen) := seenRecently now pool hash in
                  if seen : bool then (pool, Err ErrDuplicateTx) else (pool, fee_check)
              end
            else (pool, fee_check)
      end
  end.

Definition addTxUnchecked (now : Z) (pool : FIFO) (tx : Tx) : FIFO :=
  let hash := HashTx tx in
  let position := length (fifo_txs pool) in
  let pool :=
    mkFIFO (fifo_config pool) (fifo_txs pool) (<[hash := position]> (fifo_index pool))
      (match ReplacementKey tx with
       | Some key => <[key := position]> (fifo_replacements pool)
       | None => fifo_replacements pool
       end) (fifo_seen pool) in
  let pool := markSeen now pool hash in
  fifo_set_txs pool (fifo_txs pool ++ [tx]).

Definition replaceTxUnchecked (now : Z) (pool : FIFO) (tx : Tx) : FIFO * result bool :=
  match replacementIndex pool tx with
  | None => (pool, Ok false)
  | Some index =>
      match fifo_txs pool !! index with
      | None => (pool, Err PanicIndex)
      | Some old =>
          let positions := delete (HashTx old) (fifo_index pool) in
          let replacements :=
            match ReplacementKey old with
            | Some oldKey => delete oldKey (fifo_replacements pool)
            | None => fifo_replacements pool
            end in
          let pool :=
            mkFIFO (fifo_config pool) (<[index := tx]> (fifo_txs pool))
              (<[HashTx tx := index]> positions)
              (match ReplacementKey tx with
               | Some key => <[key := index]> replacements
               | None => replacements
               end) (fifo_seen pool) in
          (markSeen now (markSeen now pool (HashTx old)) (HashTx tx), Ok true)
      end
  end.

(** [addTxWithHook]: the hook runs between the check and the change; it is an
    operation on a state of its own, the write-ahead log. *)
Definition addTxWithHook {W : Type} (now : Z) (pool : FIFO) (ctx : Ctx) (tx : Tx)
    (beforeCommit : W → W * result unit) (w : W) : FIFO * W * result unit :=
  let '(pool, checked) := checkTxLocked now pool ctx tx in
  match checked with
  | Err e => (pool, w, Err e)
  | Ok _ =>
      let '(w, hooked) := beforeCommit w in
      match hooked with
      | Err e => (pool, w, Err e)
      | Ok _ =>
          match replaceTxUnchecked now pool tx with
          | (pool, Err e) => (pool, w, Err e)
          | (pool, Ok true) => (pool, w, Ok tt)
          | (pool, Ok false) => (addTxUnchecked now pool tx, w, Ok tt)
          end
      end
  end.

(** [AddTx] passes a nil hook. *)
Definition Pool_AddTx (now : Z) (pool : FIFO) (ctx : Ctx) (tx : Tx) : FIFO * result unit :=
  let '(pool, _, r) := addTxWithHook now pool ctx tx (λ w, (w, Ok tt)) tt in (pool, r).

(** [ReplayCheckTx] fails, and not because the transaction is not ready. *)
Definition replay_drops (config : FIFOConfig) (ctx : Ctx) (tx : Tx) : bool :=
  match FC_ReplayCheckTx config with
  | None => false
  | Some replay =>
      match replay ctx tx with
      | None => false
      | Some e => negb (errors_is e ErrTxNotReady)
      end
  end.

(** The loop of [liveTxsLocked]: the transactions that still pass the replay
    check or are not ready yet, and whether another one was dropped. *)
Fixpoint live_loop (now : Z) (pool : FIFO) (ctx : Ctx) (txs : list Tx) : FIFO * list Tx * bool :=
  match txs with
  | [] => (pool, [], false)
  | tx :: txs =>
      if replay_drops (fifo_config pool) ctx tx then
        let '(pool, live, _) := live_loop now (markSeen now pool (HashTx tx)) ctx txs in
        (pool, live, true)
      else
        let '(pool, live, removed) := live_loop now pool ctx txs in (pool, tx :: live, removed)
  end.

(** [liveTxsLocked].  When a transaction was dropped the pool takes over the
    slice of live transactions; sorting that slice by priority then sorts the
    slice of the pool too, after the positions were recorded. *)
Definition liveTxsLocked (now : Z) (pool : FIFO) (ctx : Ctx) : FIFO * list Tx :=
  let '(pool, live, removed) := live_loop now pool ctx (fifo_txs pool) in
  let pool := if removed : bool then rebuildIndex (fifo_set_txs pool live) else pool in
  if negb (FC_EnablePriority (fifo_config pool)) then (pool, live)
  else
    let sorted := priority_sort live in
    (if removed then fifo_set_txs pool sorted else pool, sorted).

(** The loop of [BuildBatch]. *)
Fixpoint batch_loop (txs : list Tx) (totalBytes maxBytes : Z) (batch : list Tx) : list Tx :=
  match txs with
  | [] => batch
  | tx :: txs =>
      let txSize := Z.of_nat (length tx) in
      if bool_decide (0 < length batch)%nat && bool_decide (maxBytes < totalBytes + txSize) then batch
      else if bool_decide (length batch = 0%nat) && bool_decide (maxBytes < txSize) then batch
      else batch_loop txs (totalBytes + txSize) maxBytes (batch ++ [tx])
  end.

Definition Pool_BuildBatch (now : Z) (pool : FIFO) (ctx : Ctx) (maxBytes : Z) : FIFO * result Batch :=
  match ctx_guard ctx ≫= λ _, check ErrInvalidMaxBytes (bool_decide (0 < maxBytes)) with
  | Err e => (pool, Err e)
  | Ok _ =>
      let '(pool, liveTxs) := liveTxsLocked now pool ctx in
      let batch := mkBatch zero_hash (FC_Author (fifo_config pool)) (batch_loop liveTxs 0 maxBytes [])
                     [] [] in
      (pool, Ok (mkBatch (HashBatch batch) (Batch_Author batch) (Batch_Txs batch)
                   (Batch_Parents batch) (Batch_Metadata batch)))
  end.

Definition Pool_PendingTxs (now : Z) (pool : FIFO) (ctx : Ctx) : FIFO * result (list Tx) :=
  match ctx_guard ctx with
  | Err e => (pool, Err e)
  | Ok _ => let '(pool, live) := liveTxsLocked now pool ctx in (pool, Ok live)
  end.

Definition Pool_SnapshotTxs (pool : FIFO) (ctx : Ctx) : result (list Tx) :=
  ctx_guard ctx ≫= λ _, Ok (fifo_txs pool).

Definition Pool_orderedTxs (pool : FIFO) : list Tx :=
  if negb (FC_EnablePriority (fifo_config pool)) then fifo_txs pool
  else priority_sort (fifo_txs pool).

Definition Pool_Len (pool : FIFO) : nat := length (fifo_txs pool).

(** [containsTx]: equal bytes, or the same replacement key. *)
Definition containsTx (txs : list Tx) (target : Tx) : bool :=
  existsb (λ tx,
    bool_decide (tx = target) ||
    match ReplacementKey target with
    | None => false
    | Some targetKey => bool_decide (ReplacementKey tx = Some targetKey)
    end) txs.

(** The loop of [markCommittedLocked]. *)
Fixpoint commit_loop (now : Z) (pool : FIFO) (committed txs : list Tx) : FIFO * list Tx :=
  match txs with
  | [] => (pool, [])
  | tx :: txs =>
      if containsTx committed tx then
        let hash := HashTx tx in
        let pool :=
          mkFIFO (fifo_config pool) (fifo_txs pool) (delete hash (fifo_index pool))
            (match ReplacementKey tx with
             | Some key => delete key (fifo_replacements pool)
             | None => fifo_replacements pool
             end) (fifo_seen pool) in
        commit_loop now (markSeen now pool hash) committed txs
      else let '(pool, remaining) := commit_loop now pool committed txs in (pool, tx :: remaining)
  end.

Definition markCommittedLocked (now : Z) (pool : FIFO) (committed : list Tx) : FIFO :=
  if bool_decide (committed = []) then pool
  else
    let pool := pruneSeenExpired now pool in
    let '(pool, remaining) := commit_loop now pool committed (fifo_txs pool) in
    rebuildIndex (fifo_set_txs pool remaining).

Definition Pool_MarkCommitted (now : Z) (pool : FIFO) (ctx : Ctx) (committed : list Tx)
    : FIFO * result unit :=
  match ctx_guard ctx with
  | Err e => (pool, Err e)
  | Ok _ => (markCommittedLocked now pool committed, Ok tt)
  end.

Definition markCommittedWithHook {W : Type} (now : Z) (pool : FIFO) (ctx : Ctx) (committed : list Tx)
    (beforeCommit : W → W * result unit) (w : W) : FIFO * W * result unit :=
  match ctx_guard ctx with
  | Err e => (pool, w, Err e)
  | Ok _ =>
      if bool_decide (committed = []) then (pool, w, Ok tt)
      else
        let '(w, hooked) := beforeCommit w in
        match hooked with
        | Err e => (pool, w, Err e)
        | Ok _ => (markCommittedLocked now pool committed, w, Ok tt)
        end
  end.

(** The loop of [RetainTxs]: what is kept, and how many were removed. *)
Fixpoint retain_loop (now : Z) (pool : FIFO) (keep : Tx → bool) (txs : list Tx)
    : FIFO * list Tx * nat :=
  match txs with
  | [] => (pool, [], 0%nat)
  | tx :: txs =>
      if keep tx then
        let '(pool, remaining, removed) := retain_loop now pool keep txs in
        (pool, tx :: remaining, removed)
      else
        let '(pool, remaining, removed) := retain_loop now (markSeen now pool (HashTx tx)) keep txs in
        (pool, remaining, S removed)
  end.

Definition Pool_RetainTxs (now : Z) (pool : FIFO) (ctx : Ctx) (keep : option (Tx → bool))
    : FIFO * result nat :=
  match ctx_guard ctx, keep with
  | Err e, _ => (pool, Err e)
  | Ok _, None => (pool, Ok 0%nat)
  | Ok _, Some keep =>
      let '(pool, remaining, removed) := retain_loop now pool keep (fifo_txs pool) in
      if bool_decide (removed = 0%nat) then (pool, Ok 0%nat)
      else (rebuildIndex (fifo_set_txs pool remaining), Ok removed)
  end.

(** ** Calls *)

Inductive pool_call :=
| Call_CheckTx (ctx : Ctx) (tx : Tx)
| Call_AddTx (ctx : Ctx) (tx : Tx)
| Call_BuildBatch (ctx : Ctx) (maxBytes : Z)
| Call_PendingTxs (ctx : Ctx)
| Call_MarkCommitted (ctx : Ctx) (committed : list Tx)
| Call_RetainTxs (ctx : Ctx) (keep : option (Tx → bool)).

Definition pool_exec (pool : FIFO) (call : Z * pool_call) : FIFO :=
  let now := call.1 in
  match call.2 with
  | Call_CheckTx ctx tx => (checkTxLocked now pool ctx tx).1
  | Call_AddTx ctx tx => (Pool_AddTx now pool ctx tx).1
  | Call_BuildBatch ctx maxBytes => (Pool_BuildBatch now pool ctx maxBytes).1
  | Call_PendingTxs ctx => (Pool_PendingTxs now pool ctx).1
  | Call_MarkCommitted ctx committed => (Pool_MarkCommitted now pool ctx committed).1
  | Call_RetainTxs ctx keep => (Pool_RetainTxs now pool ctx keep).1
  end.

Definition pool_run (pool : FIFO) (calls : list (Z * pool_call)) : FIFO := foldl pool_exec pool calls.
End fifo.

(** ** Positions *)

Section positions.
Context {K : Type} `{Countable K} (f : Tx → option K).

Definition insert_opt {V} (k : option K) (v : V) (m : gmap K V) : gmap K V :=
  match k with Some k => <[k := v]> m | None => m end.
Definition delete_opt {V} (k : option K) (m : gmap K V) : gmap K V :=
  match k with Some k => delete k m | None => m end.

(** The map has the keys of the transactions, at their positions. *)
Definition covers (txs : list Tx) (m : gmap K nat) : Prop :=
  (∀ k i, m !! k = Some i → ∃ tx, txs !! i = Some tx ∧ f tx = Some k) ∧
  (∀ tx k, tx ∈ txs → f tx = Some k → is_Some (m !! k)).

Lemma covers_nil : covers [] ∅.
Proof. split; [|by intros ?? ?%not_elem_of_nil]. intros k i. by rewrite lookup_empty. Qed.

Lemma lookup_insert_opt {V} ko k (v : V) m :
  insert_opt ko v m !! k = if decide (ko = Some k) then Some v else m !! k.
Proof.
  destruct ko as [k'|]; cbn; [|by rewrite decide_False].
  destruct (decide (k' = k)) as [->|Hne].
  - by rewrite lookup_insert_eq, decide_True.
  - rewrite lookup_insert_ne, decide_False by congruence. done.
Qed.

Lemma lookup_delete_opt {V} ko k (m : gmap K V) :
  delete_opt ko m !! k = if decide (ko = Some k) then None else m !! k.
Proof.
  destruct ko as [k'|]; cbn; [|by rewrite decide_False].
  destruct (decide (k' = k)) as [->|Hne].
  - by rewrite lookup_delete_eq, decide_True.
  - rewrite lookup_delete_ne, decide_False by congruence. done.
Qed.

Lemma covers_snoc txs tx m :
  covers txs m → covers (txs ++ [tx]) (insert_opt (f tx) (length txs) m).
Proof.
  intros [H1 H2]. split.
  - intros k i. rewrite lookup_insert_opt. case_decide as Hk.
    + intros [= <-]. exists tx. split; [|done].
      by rewrite lookup_app_r, Nat.sub_diag by lia.
    + intros Hm. destruct (H1 k i Hm) as (tx' & Hi & Hf). exists tx'. split; [|done].
      by apply lookup_app_l_Some.
  - intros tx' k Hin Hf. rewrite lookup_insert_opt. case_decide; [done|].
    apply elem_of_app in Hin as [Hin|Hin%list_elem_of_singleton]; [eauto|congruence].
Qed.

(** The keys identify positions. *)
Lemma omap_NoDup_lookup txs i j tx tx' k :
  NoDup (omap f txs) → txs !! i = Some tx → txs !! j = Some tx' →
  f tx = Some k → f tx' = Some k → i = j.
Proof.
  revert i j. induction txs as [|t txs IH]; intros i j Hnd Hi Hj Hf Hf'; [done|].
  assert (∀ n t', txs !! n = Some t' → f t' = Some k → f t = Some k → False) as Hcl.
  { intros n t' Hn Ht' Ht. cbn in Hnd. rewrite Ht in Hnd. apply NoDup_cons in Hnd as [Hnin _].
    apply Hnin, list_elem_of_omap. exists t'. split; [by eapply list_elem_of_lookup_2|done]. }
  destruct i as [|i], j as [|j]; cbn in Hi, Hj; simplify_eq; try done.
  - exfalso. eauto.
  - exfalso. eauto.
  - f_equal. apply (IH i j); try done. cbn in Hnd. destruct (f t); [by apply NoDup_cons in Hnd as [_ ?]|done].
Qed.

Lemma covers_replace txs i old tx m :
  txs !! i = Some old →
  (∀ j t k, txs !! j = Some t → f old = Some k → f t = Some k → j = i) →
  covers txs m →
  covers (<[i := tx]> txs) (insert_opt (f tx) i (delete_opt (f old) m)).
Proof.
  intros Hi Huniq [H1 H2]. assert (i < length txs)%nat as Hlt by (by eapply lookup_lt_Some).
  split.
  - intros k j. rewrite lookup_insert_opt. case_decide as Hk.
    + intros [= <-]. exists tx. split; [by apply list_lookup_insert_eq|done].
    + rewrite lookup_delete_opt. case_decide as Ho; [done|]. intros (t & Hj & Hf)%H1.
      exists t. split; [|done]. rewrite list_lookup_insert_ne; [done|]. intros ->. congruence.
  - intros t k [j Hj]%list_elem_of_lookup Hf. rewrite lookup_insert_opt. case_decide as Hk; [done|].
    destruct (decide (i = j)) as [->|Hne].
    { rewrite list_lookup_insert_eq in Hj by done. congruence. }
    rewrite list_lookup_insert_ne in Hj by done. rewrite lookup_delete_opt.
    case_decide as Ho; [by destruct Hne; symmetry; eapply Huniq|].
    eapply H2, Hf. by eapply list_elem_of_lookup_2.
Qed.
End positions.

(** ** The invariant of the pool *)

Section invariant.

Definition hash_key (tx : Tx) : option Hash := Some (HashTx tx).

(** The bounds a transaction was admitted under. *)
Definition tx_fits (config : FIFOConfig) (tx : Tx) : Prop :=
  tx ≠ [] ∧ (0 < FC_MaxTxBytes config → Z.of_nat (length tx) ≤ FC_MaxTxBytes config).

(** What the transactions of a pool satisfy. *)
Record txs_ok (config : FIFOConfig) (txs : list Tx) : Prop := {
  txs_fit : Forall (tx_fits config) txs;
  txs_bound : 0 < FC_MaxTxs config → Z.of_nat (length txs) ≤ FC_MaxTxs config;
  txs_keys : FC_EnableReplacement config = true → NoDup (omap ReplacementKey txs);
  txs_distinct : FC_AllowDuplicate config = false → NoDup txs
}.

(** Both maps give the positions of the transactions. *)
Record pool_wf (pool : FIFO) : Prop := {
  wf_txs : txs_ok (fifo_config pool) (fifo_txs pool);
  wf_index : covers hash_key (fifo_txs pool) (fifo_index pool);
  wf_replacements : covers ReplacementKey (fifo_txs pool) (fifo_replacements pool)
}.

(** No two of the transactions collide under SHA-256. *)
Definition hash_inj (txs : list Tx) : Prop :=
  ∀ tx1 tx2, tx1 ∈ txs → tx2 ∈ txs → HashTx tx1 = HashTx tx2 → tx1 = tx2.

Lemma index_txs_covers txs pre index replacements :
  covers hash_key pre index → covers ReplacementKey pre replacements →
  let '(index', replacements') := index_txs txs (length pre) index replacements in
  covers hash_key (pre ++ txs) index' ∧ covers ReplacementKey (pre ++ txs) replacements'.
Proof.
  revert pre index replacements. induction txs as [|tx txs IH]; intros pre index replacements Hi Hr; cbn.
  { by rewrite app_nil_r. }
  specialize (IH (pre ++ [tx]) (insert_opt (hash_key tx) (length pre) index)
    (insert_opt (ReplacementKey tx) (length pre) replacements)).
  rewrite length_app, Nat.add_1_r, <-app_assoc in IH. apply IH; by apply covers_snoc.
Qed.

Lemma rebuildIndex_wf pool : txs_ok (fifo_config pool) (fifo_txs pool) → pool_wf (rebuildIndex pool).
Proof.
  intros Hok. unfold rebuildIndex.
  pose proof (index_txs_covers (fifo_txs pool) [] ∅ ∅ (covers_nil _) (covers_nil _)) as Hc.
  cbn [length app] in Hc. destruct (index_txs _ _ _ _) as [index replacements].
  destruct Hc. by split.
Qed.

Lemma rebuildIndex_fields pool :
  fifo_config (rebuildIndex pool) = fifo_config pool ∧ fifo_txs (rebuildIndex pool) = fifo_txs pool ∧
  fifo_seen (rebuildIndex pool) = fifo_seen pool.
Proof. unfold rebuildIndex. by destruct (index_txs _ _ _ _). Qed.

Lemma omap_sublist {A B} (f : A → option B) l1 l2 : sublist l1 l2 → sublist (omap f l1) (omap f l2).
Proof.
  induction 1; cbn; [constructor| |]; destruct (f x); try done; by constructor.
Qed.

Lemma NoDup_sublist {A} (l1 l2 : list A) : sublist l1 l2 → NoDup l2 → NoDup l1.
Proof.
  intros Hs. induction Hs as [|x l1 l2 Hs IH|x l1 l2 Hs IH]; [done| |].
  - intros [Hn Hnd]%NoDup_cons. apply NoDup_cons. split; [|auto]. intros Hin. apply Hn.
    by eapply elem_of_sublist.
  - intros [_ Hnd]%NoDup_cons. auto.
Qed.

(** Removing transactions keeps the bounds. *)
Lemma txs_ok_sublist config txs txs' : sublist txs' txs → txs_ok config txs → txs_ok config txs'.
Proof.
  intros Hs [Hfit Hb Hk Hd]. split.
  - rewrite Forall_forall in *. intros tx Hin. apply Hfit. by eapply elem_of_sublist.
  - intros Hm. apply sublist_length in Hs. specialize (Hb Hm). lia.
  - intros He. eapply NoDup_sublist, Hk; [|done]. by apply omap_sublist.
  - intros Ha. by eapply NoDup_sublist, Hd.
Qed.

(** *** Operations that only touch the seen map *)

Definition same_core (pool pool' : FIFO) : Prop :=
  fifo_config pool' = fifo_config pool ∧ fifo_txs pool' = fifo_txs pool ∧
  fifo_index pool' = fifo_index pool ∧ fifo_replacements pool' = fifo_replacements pool.

#[local] Instance same_core_preorder : PreOrder same_core.
Proof. split; [by intros pool|]. intros p1 p2 p3 (?&?&?&?) (?&?&?&?). repeat split; congruence. Qed.

Lemma same_core_wf pool pool' : same_core pool pool' → pool_wf pool → pool_wf pool'.
Proof. intros (Hc & Ht & Hi & Hr) [H1 H2 H3]. split; by rewrite ?Hc, ?Ht, ?Hi, ?Hr. Qed.

Lemma markSeen_core now pool hash : same_core pool (markSeen now pool hash).
Proof. unfold markSeen. by case_bool_decide. Qed.

Lemma pruneSeenExpired_core now pool : same_core pool (pruneSeenExpired now pool).
Proof. unfold pruneSeenExpired. by destruct (_ || _). Qed.

Lemma seenRecently_core now pool hash : same_core pool (seenRecently now pool hash).1.
Proof.
  unfold seenRecently. case_bool_decide; [done|]. destruct (_ !! hash); [|done]. by destruct (expired _ _ _).
Qed.

Lemma checkTxLocked_core now pool ctx tx : same_core pool (checkTxLocked now pool ctx tx).1.
Proof.
  unfold checkTxLocked. destruct (ctx_guard ctx ≫= _); [|done].
  destruct (replacementIndex pool tx); [done|]. destruct (_ && _); [done|].
  destruct (negb (FC_AllowDuplicate _)); [|apply pruneSeenExpired_core].
  destruct (fifo_index _ !! _); [apply pruneSeenExpired_core|].
  etrans; [apply (pruneSeenExpired_core now)|]. etrans; [apply (seenRecently_core now _ (HashTx tx))|].
  by destruct (seenRecently _ _ _) as [pool' []].
Qed.

(** *** Admission *)

Lemma checkTxLocked_Ok now pool ctx tx :
  (checkTxLocked now pool ctx tx).2 = Ok tt →
  tx_fits (fifo_config pool) tx ∧
  match replacementIndex pool tx with
  | Some _ => checkReplacement pool tx = Ok tt
  | None =>
      (0 < FC_MaxTxs (fifo_config pool) →
       Z.of_nat (length (fifo_txs pool)) < FC_MaxTxs (fifo_config pool)) ∧
      (FC_AllowDuplicate (fifo_config pool) = false → fifo_index pool !! HashTx tx = None)
  end.
Proof.
  unfold checkTxLocked. intros HC.
  destruct (ctx_guard ctx ≫= _) as [u|e] eqn:E; [|done]. result_inv E.
  apply bool_decide_eq_true in E1. rewrite negb_true_iff, andb_false_iff, !bool_decide_eq_false in E.
  split; [split; [done|lia]|].
  destruct (replacementIndex pool tx); [done|]. destruct (_ && _) eqn:Efull; [done|].
  rewrite andb_false_iff, !bool_decide_eq_false in Efull. split; [lia|]. intros Ha.
  rewrite Ha in HC. cbn [negb] in HC.
  destruct (pruneSeenExpired_core now pool) as (_ & _ & Hi & _). rewrite Hi in HC.
  by destruct (fifo_index pool !! HashTx tx).
Qed.

Lemma replacementIndex_Some pool tx i :
  pool_wf pool → replacementIndex pool tx = Some i →
  FC_EnableReplacement (fifo_config pool) = true ∧
  ∃ old key, fifo_txs pool !! i = Some old ∧ ReplacementKey old = Some key ∧ ReplacementKey tx = Some key.
Proof.
  intros [_ _ [Hr _]] HR. unfold replacementIndex in HR.
  destruct (FC_EnableReplacement _); [|done]. split; [done|]. cbn [negb] in HR.
  apply bind_Some in HR as (key & Hk & Hi). apply Hr in Hi as (old & Ho & Hf). eauto.
Qed.

Lemma checkTxLocked_no_panic now pool tx :
  pool_wf pool → (checkTxLocked now pool None tx).2 ≠ Err PanicIndex.
Proof.
  intros Hwf. unfold checkTxLocked. cbn [ctx_guard mbind result_bind].
  destruct (bool_decide (tx ≠ [])); cbn [check mbind result_bind]; [|done].
  destruct (negb _); cbn [check]; [|done].
  destruct (replacementIndex pool tx) as [i|] eqn:Ei.
  - unfold checkReplacement. rewrite Ei.
    destruct (replacementIndex_Some _ _ _ Hwf Ei) as (_ & old & key & -> & _). cbn [snd].
    case_bool_decide; cbn [check mbind result_bind]; [|done]. by destruct (replacementPriceBumped _ _ _).
  - destruct (_ && _); [done|]. set (fee := check Pool_ErrInsufficientFee _).
    assert (fee ≠ Err PanicIndex) as Hfee by (unfold fee; by destruct (negb _)).
    destruct (negb (FC_AllowDuplicate _)); [|done]. destruct (fifo_index _ !! _); [done|].
    by destruct (seenRecently _ _ _) as [? []].
Qed.

Lemma addTxUnchecked_wf now pool tx :
  pool_wf pool → tx_fits (fifo_config pool) tx → replacementIndex pool tx = None →
  (0 < FC_MaxTxs (fifo_config pool) →
   Z.of_nat (length (fifo_txs pool)) < FC_MaxTxs (fifo_config pool)) →
  (FC_AllowDuplicate (fifo_config pool) = false → fifo_index pool !! HashTx tx = None) →
  pool_wf (addTxUnchecked now pool tx) ∧
  fifo_config (addTxUnchecked now pool tx) = fifo_config pool ∧
  fifo_txs (addTxUnchecked now pool tx) = fifo_txs pool ++ [tx].
Proof.
  intros [Htxs Hi Hr] Hfit Hrep Hmax Hdup. unfold addTxUnchecked.
  set (pool1 := mkFIFO _ _ _ _ _).
  destruct (markSeen_core now pool1 (HashTx tx)) as (Hc & Ht & Hix & Hrx).
  unfold fifo_set_txs. rewrite Hc, Ht, Hix, Hrx. cbn. split_and!; [|done..].
  split; cbn; [|by apply (covers_snoc hash_key)|by apply covers_snoc].
  destruct Htxs as [Hf Hb Hk Hd]. split.
  - apply Forall_app. by rewrite Forall_singleton.
  - intros Hm. rewrite length_app. cbn. specialize (Hmax Hm). lia.
  - intros He. rewrite omap_app. apply NoDup_app. split_and!; [by apply Hk| |].
    + intros key Hin. cbn. destruct (ReplacementKey tx) as [key'|] eqn:Ekey; [|by intros ?%not_elem_of_nil].
      intros ->%list_elem_of_singleton. apply list_elem_of_omap in Hin as (t & Hin & Hft).
      destruct Hr as [_ Hr]. destruct (Hr t key' Hin Hft) as [i Hix']. unfold replacementIndex in Hrep.
      rewrite He, Ekey in Hrep. cbn in Hrep. congruence.
    + cbn. destruct (ReplacementKey tx); [apply NoDup_singleton|constructor].
  - intros Ha. apply NoDup_app. split_and!; [by apply Hd| |apply NoDup_singleton].
    intros t Hin ->%list_elem_of_singleton. destruct Hi as [_ Hi].
    destruct (Hi tx (HashTx tx) Hin eq_refl) as [i Hix']. rewrite Hdup in Hix' by done. done.
Qed.

Lemma omap_insert_same {A B} (f : A → option B) (l : list A) i x y :
  l !! i = Some x → f y = f x → omap f (<[i := y]> l) = omap f l.
Proof.
  revert i. induction l as [|z l IH]; intros [|i] Hi Hf; cbn in *; [done..| |].
  - injection Hi as ->. by rewrite Hf.
  - by rewrite IH.
Qed.

Lemma replaceTxUnchecked_wf now pool tx :
  pool_wf pool → tx_fits (fifo_config pool) tx → hash_inj (fifo_txs pool) →
  match replaceTxUnchecked now pool tx with
  | (pool', Ok true) =>
      pool_wf pool' ∧ fifo_config pool' = fifo_config pool ∧
      ∃ i, replacementIndex pool tx = Some i ∧ fifo_txs pool' = <[i := tx]> (fifo_txs pool)
  | (pool', Ok false) => pool' = pool ∧ replacementIndex pool tx = None
  | (_, Err _) => False
  end.
Proof.
  intros Hwf Hfit Hinj. unfold replaceTxUnchecked.
  destruct (replacementIndex pool tx) as [i|] eqn:Ei; [|done].
  destruct (replacementIndex_Some _ _ _ Hwf Ei) as (He & old & key & Ho & Hok & Hkey). rewrite Ho.
  set (pool1 := mkFIFO _ _ _ _ _).
  assert (same_core pool1 (markSeen now (markSeen now pool1 (HashTx old)) (HashTx tx))) as Hcore.
  { etrans; apply markSeen_core. }
  destruct Hwf as [[Hf Hb Hk Hd] Hi Hr]. pose proof (Hk He) as Hnd.
  assert (∀ j t k, fifo_txs pool !! j = Some t → ReplacementKey old = Some k →
    ReplacementKey t = Some k → j = i) as Huniq.
  { intros j t k Hj Hold Ht. by eapply (omap_NoDup_lookup ReplacementKey). }
  split; [|destruct Hcore as (-> & -> & _); split; [done|]; by exists i].
  eapply same_core_wf; [exact Hcore|]. split; cbn.
  - split.
    + by apply Forall_insert.
    + by rewrite length_insert.
    + intros _. rewrite (omap_insert_same _ _ _ _ _ Ho) by congruence. done.
    + intros Ha. apply NoDup_alt. intros a b t Ha' Hb'.
      apply list_lookup_insert_Some in Ha' as [(<- & <- & _)|[Hna Ha']];
        apply list_lookup_insert_Some in Hb' as [(<- & ? & _)|[Hnb Hb']]; subst; try done.
      * destruct Hnb. symmetry. by apply (Huniq _ _ key Hb').
      * destruct Hna. symmetry. by apply (Huniq _ _ key Ha').
      * exact (NoDup_lookup _ _ _ _ (Hd Ha) Ha' Hb').
  - apply (covers_replace hash_key _ _ old); [done| |done]. intros j t k Hj Hold Ht.
    apply (Huniq j t key); [done..|]. assert (t = old) as ->; [|done].
    apply Hinj; [by eapply list_elem_of_lookup_2..|]. apply (inj Some). exact (eq_trans Ht (eq_sym Hold)).
  - apply (covers_replace ReplacementKey _ _ old); done.
Qed.

Lemma AddTx_wf now pool ctx tx :
  pool_wf pool → hash_inj (fifo_txs pool) →
  let '(pool', r) := Pool_AddTx now pool ctx tx in
  pool_wf pool' ∧ fifo_config pool' = fifo_config pool ∧ fifo_txs pool' ⊆ tx :: fifo_txs pool ∧
  (ctx = None → r ≠ Err PanicIndex).
Proof.
  intros Hwf Hinj. unfold Pool_AddTx, addTxWithHook.
  pose proof (checkTxLocked_core now pool ctx tx) as Hcore.
  pose proof (checkTxLocked_Ok now pool ctx tx) as HOk.
  assert (ctx = None → (checkTxLocked now pool ctx tx).2 ≠ Err PanicIndex) as Hnp
    by (intros ->; by apply checkTxLocked_no_panic).
  destruct (checkTxLocked now pool ctx tx) as [pool1 r]. cbn [fst snd] in Hcore, HOk, Hnp.
  pose proof (same_core_wf _ _ Hcore Hwf) as Hwf1. destruct Hcore as (Hc & Ht & Hi & Hr).
  destruct r as [[]|e]; last first.
  { split_and!; [done|done| |done]. rewrite Ht. by intros t Hin; right. }
  destruct (HOk eq_refl) as [Hfit Hcase].
  rewrite <-Hc in Hfit. rewrite <-Ht in Hinj.
  assert (replacementIndex pool1 tx = replacementIndex pool tx) as Hri
    by (unfold replacementIndex; by rewrite Hc, Hr).
  pose proof (replaceTxUnchecked_wf now pool1 tx Hwf1 Hfit Hinj) as HR.
  destruct (replaceTxUnchecked now pool1 tx) as [pool2 [[]|e]].
  - destruct HR as (Hwf2 & Hc2 & i & _ & Htx). split_and!; [done|congruence| |done].
    rewrite Htx, Ht. intros t [j [(_ & -> & _)|[_ Hj]]%list_lookup_insert_Some]%list_elem_of_lookup;
      [left|right; by eapply list_elem_of_lookup_2].
  - destruct HR as [-> Hnone]. rewrite Hri in Hnone. rewrite Hnone in Hcase. destruct Hcase as [Hm Hd].
    destruct (addTxUnchecked_wf now pool1 tx) as (Hwf2 & Hc2 & Htx);
      [done|done|by rewrite Hri|by rewrite Hc, Ht|by rewrite Hc, Hi|].
    split_and!; [done|congruence| |done]. rewrite Htx, Ht.
    intros t [Hin|Heq]%elem_of_app; [by right|]. apply list_elem_of_singleton in Heq as ->. left.
  - done.
Qed.

(** *** Removal *)

Lemma live_loop_spec now pool ctx txs :
  let '(pool', live, removed) := live_loop now pool ctx txs in
  same_core pool pool' ∧ sublist live txs ∧ (removed = false → live = txs).
Proof.
  revert pool. induction txs as [|tx txs IH]; intros pool; cbn [live_loop]; [done|].
  destruct (replay_drops _ _ _).
  - specialize (IH (markSeen now pool (HashTx tx))). destruct (live_loop _ _ _ _) as [[pool' live] removed].
    destruct IH as (Hc & Hs & _). split_and!; [|by constructor|done].
    etrans; [apply markSeen_core|exact Hc].
  - specialize (IH pool). destruct (live_loop _ _ _ _) as [[pool' live] removed].
    destruct IH as (Hc & Hs & Hr). split_and!; [done|by constructor|]. intros ?. by rewrite Hr.
Qed.

Lemma liveTxsLocked_wf now pool ctx :
  FC_EnablePriority (fifo_config pool) = false → pool_wf pool →
  let '(pool', live) := liveTxsLocked now pool ctx in
  pool_wf pool' ∧ fifo_config pool' = fifo_config pool ∧ fifo_txs pool' = live ∧
  sublist live (fifo_txs pool).
Proof.
  intros Hp Hwf. unfold liveTxsLocked. pose proof (live_loop_spec now pool ctx (fifo_txs pool)) as HL.
  destruct (live_loop _ _ _ _) as [[pool1 live] removed]. destruct HL as (Hcore & Hs & Hr).
  pose proof (same_core_wf _ _ Hcore Hwf) as Hwf1. destruct Hcore as (Hc & Ht & _).
  destruct removed.
  - destruct (rebuildIndex_fields (fifo_set_txs pool1 live)) as (Hc2 & Ht2 & _).
    cbn in Hc2, Ht2. rewrite Hc2, Hc, Hp. cbn [negb]. split_and!; [|congruence|done|done].
    apply rebuildIndex_wf. cbn. rewrite Hc. eapply txs_ok_sublist, (wf_txs _ Hwf). done.
  - rewrite Hc, Hp. cbn [negb]. split_and!; [done|done|by rewrite Ht, Hr|done].
Qed.

Lemma commit_loop_spec now pool committed txs :
  let '(pool', remaining) := commit_loop now pool committed txs in
  fifo_config pool' = fifo_config pool ∧
  remaining = filter (λ tx, containsTx committed tx = false) txs.
Proof.
  revert pool. induction txs as [|tx txs IH]; intros pool; cbn [commit_loop]; [done|].
  destruct (containsTx committed tx) eqn:Ec.
  - set (pool1 := mkFIFO _ _ _ _ _). specialize (IH (markSeen now pool1 (HashTx tx))).
    destruct (commit_loop _ _ _ _) as [pool' remaining]. destruct IH as [Hc ->].
    rewrite filter_cons_False by congruence. split; [|done]. rewrite Hc.
    by destruct (markSeen_core now pool1 (HashTx tx)) as [-> _].
  - specialize (IH pool). destruct (commit_loop _ _ _ _) as [pool' remaining].
    destruct IH as [Hc ->]. by rewrite filter_cons_True.
Qed.

Lemma markCommittedLocked_wf now pool committed :
  pool_wf pool →
  let pool' := markCommittedLocked now pool committed in
  pool_wf pool' ∧ fifo_config pool' = fifo_config pool ∧
  fifo_txs pool' = filter (λ tx, containsTx committed tx = false) (fifo_txs pool).
Proof.
  intros Hwf. unfold markCommittedLocked. case_bool_decide as Hnil.
  { subst. split_and!; [done..|]. clear Hwf. induction (fifo_txs pool) as [|tx txs IH]; [done|].
    rewrite filter_cons_True by done. by rewrite <-IH. }
  destruct (pruneSeenExpired_core now pool) as (Hc & Ht & _). rewrite Ht.
  pose proof (commit_loop_spec now (pruneSeenExpired now pool) committed (fifo_txs pool)) as HL.
  destruct (commit_loop _ _ _ _) as [pool1 remaining]. destruct HL as [Hc1 ->].
  set (remaining := filter _ _).
  destruct (rebuildIndex_fields (fifo_set_txs pool1 remaining)) as (Hc2 & Ht2 & _). cbn in Hc2, Ht2.
  cbv zeta. split_and!; [|congruence|done]. apply rebuildIndex_wf. cbn. rewrite Hc1, Hc.
  eapply txs_ok_sublist, (wf_txs _ Hwf). apply sublist_filter.
Qed.

Lemma retain_loop_spec now pool keep txs :
  let '(pool', remaining, removed) := retain_loop now pool keep txs in
  same_core pool pool' ∧ sublist remaining txs.
Proof.
  revert pool. induction txs as [|tx txs IH]; intros pool; cbn [retain_loop]; [done|].
  destruct (keep tx).
  - specialize (IH pool). destruct (retain_loop _ _ _ _) as [[pool' remaining] removed].
    destruct IH. split; [done|by constructor].
  - specialize (IH (markSeen now pool (HashTx tx))).
    destruct (retain_loop _ _ _ _) as [[pool' remaining] removed]. destruct IH as [Hc Hs].
    split; [|by constructor]. etrans; [apply markSeen_core|exact Hc].
Qed.

Lemma RetainTxs_wf now pool ctx keep :
  pool_wf pool →
  let pool' := (Pool_RetainTxs now pool ctx keep).1 in
  pool_wf pool' ∧ fifo_config pool' = fifo_config pool ∧ sublist (fifo_txs pool') (fifo_txs pool).
Proof.
  intros Hwf. unfold Pool_RetainTxs. destruct (ctx_guard ctx), keep as [keep|]; try done.
  pose proof (retain_loop_spec now pool keep (fifo_txs pool)) as HL.
  destruct (retain_loop _ _ _ _) as [[pool1 remaining] removed]. destruct HL as [Hcore Hs].
  pose proof (same_core_wf _ _ Hcore Hwf) as Hwf1. destruct Hcore as (Hc & Ht & _).
  case_bool_decide; cbn [fst].
  - split_and!; [done..|by rewrite Ht].
  - destruct (rebuildIndex_fields (fifo_set_txs pool1 remaining)) as (Hc2 & Ht2 & _). cbn in Hc2, Ht2.
    cbv zeta. split_and!; [|congruence|by rewrite Ht2]. apply rebuildIndex_wf. cbn. rewrite Hc.
    by eapply txs_ok_sublist, (wf_txs _ Hwf).
Qed.

(** *** Runs *)

(** The transactions handed to [AddTx]. *)
Definition submitted (calls : list (Z * pool_call)) : list Tx :=
  omap (λ call, match call.2 with Call_AddTx _ tx => Some tx | _ => None end) calls.

Lemma hash_inj_subset txs txs' : txs' ⊆ txs → hash_inj txs → hash_inj txs'.
Proof. intros Hs Hi tx1 tx2 H1 H2. apply Hi; by apply Hs. Qed.

Lemma sublist_subset (txs txs' : list Tx) : sublist txs' txs → txs' ⊆ txs.
Proof. intros Hs tx Hin. by eapply elem_of_sublist. Qed.

Lemma pool_exec_wf pool call :
  FC_EnablePriority (fifo_config pool) = false → hash_inj (fifo_txs pool) → pool_wf pool →
  pool_wf (pool_exec pool call) ∧ fifo_config (pool_exec pool call) = fifo_config pool ∧
  fifo_txs (pool_exec pool call) ⊆ submitted [call] ++ fifo_txs pool.
Proof.
  intros Hp Hinj Hwf. destruct call as [now [ctx tx|ctx tx|ctx maxBytes|ctx|ctx committed|ctx keep]];
    cbn [pool_exec fst snd submitted omap list_omap app].
  - pose proof (checkTxLocked_core now pool ctx tx) as Hcore.
    split; [by eapply same_core_wf|]. destruct Hcore as (-> & -> & _). done.
  - pose proof (AddTx_wf now pool ctx tx Hwf Hinj) as HA.
    destruct (Pool_AddTx now pool ctx tx) as [pool' r]. by destruct HA as (? & ? & ? & _).
  - unfold Pool_BuildBatch. destruct (ctx_guard ctx ≫= _); [|done].
    pose proof (liveTxsLocked_wf now pool ctx Hp Hwf) as HL.
    destruct (liveTxsLocked now pool ctx) as [pool' live]. destruct HL as (Hw & Hc & Ht & Hs).
    cbn [fst]. rewrite Ht. split_and!; [done..|]. by apply sublist_subset.
  - unfold Pool_PendingTxs. destruct (ctx_guard ctx); [|done].
    pose proof (liveTxsLocked_wf now pool ctx Hp Hwf) as HL.
    destruct (liveTxsLocked now pool ctx) as [pool' live]. destruct HL as (Hw & Hc & Ht & Hs).
    cbn [fst]. rewrite Ht. split_and!; [done..|]. by apply sublist_subset.
  - unfold Pool_MarkCommitted. destruct (ctx_guard ctx); [|done]. cbn [fst].
    destruct (markCommittedLocked_wf now pool committed Hwf) as (Hw & Hc & Ht).
    split_and!; [done..|]. rewrite Ht. by intros tx [_ ?]%list_elem_of_filter.
  - destruct (RetainTxs_wf now pool ctx keep Hwf) as (Hw & Hc & Hs).
    split_and!; [done..|]. by apply sublist_subset.
Qed.

Lemma pool_run_wf pool calls :
  FC_EnablePriority (fifo_config pool) = false →
  hash_inj (submitted calls ++ fifo_txs pool) → pool_wf pool →
  pool_wf (pool_run pool calls) ∧ fifo_txs (pool_run pool calls) ⊆ submitted calls ++ fifo_txs pool.
Proof.
  revert pool. induction calls as [|call calls IH]; intros pool Hp Hinj Hwf; [done|].
  assert (submitted (call :: calls) = submitted [call] ++ submitted calls) as Hsub
    by apply (omap_app _ [call] calls).
  rewrite Hsub in *. destruct (pool_exec_wf pool call) as (Hwf1 & Hc1 & Ht1); [done| |done|].
  { eapply hash_inj_subset, Hinj. intros tx Hin. by apply elem_of_app; right. }
  assert (submitted calls ++ fifo_txs (pool_exec pool call) ⊆
    (submitted [call] ++ submitted calls) ++ fifo_txs pool) as Hincl.
  { intros tx Hin. rewrite !elem_of_app in *. destruct Hin as [Hin|[Hin|Hin]%Ht1%elem_of_app]; auto. }
  destruct (IH (pool_exec pool call)) as [Hwf2 Ht2]; [by rewrite Hc1| |done|].
  { by eapply hash_inj_subset, Hinj. }
  split; [done|]. intros tx Hin%Ht2. by apply Hincl.
Qed.

(** C27: the pool keeps its books.  After any calls, as long as no two submitted
    transactions collide under SHA-256, both maps of a pool in arrival order hold
    exactly the hashes and replacement keys of its transactions at their
    positions; the pool respects its bounds on count and sizes, has no duplicates
    unless they are allowed and one transaction per signer and nonce when
    replacement is on; and adding a transaction never indexes out of range. *)
Theorem pool_consistent config calls :
  FC_EnablePriority config = false → hash_inj (submitted calls) →
  let pool := pool_run (NewFIFO config) calls in
  pool_wf pool ∧ fifo_txs pool ⊆ submitted calls ∧
  ∀ now tx, (Pool_AddTx now pool None tx).2 ≠ Err PanicIndex.
Proof.
  intros Hp Hinj. cbv zeta. destruct (pool_run_wf (NewFIFO config) calls) as [Hwf Ht]; [done| | |].
  { by rewrite app_nil_r. }
  { split; cbn; [split; [constructor|cbn; lia|constructor|constructor]|apply covers_nil..]. }
  rewrite app_nil_r in Ht. split_and!; [done..|]. intros now tx.
  pose proof (AddTx_wf now _ None tx Hwf (hash_inj_subset _ _ Ht Hinj)) as HA.
  destruct (Pool_AddTx _ _ _ _) as [pool' r]. by apply HA.
Qed.
End invariant.

(** ** The seen window *)

Section seen.
Context (config : FIFOConfig) (t : Z) (h : Hash).
Hypothesis Httl : 0 < FC_SeenTTL config.

(** The hash was marked at [t] or later. *)
Definition seen_since (pool : FIFO) : Prop :=
  fifo_config pool = config ∧ ∃ at_, fifo_seen pool !! h = Some at_ ∧ t ≤ at_.

Lemma not_expired now at_ :
  t ≤ at_ → now ≤ t + FC_SeenTTL config → expired now (FC_SeenTTL config) at_ = false.
Proof. intros H1 H2. apply bool_decide_eq_false_2. unfold time_sub, max_i64. lia. Qed.

Lemma markSeen_since now pool hash : t ≤ now → seen_since pool → seen_since (markSeen now pool hash).
Proof.
  intros Hnow [Hc (at_ & Hat & Hle)]. unfold markSeen. case_bool_decide; [by split; [|exists at_]|].
  split; [done|]. cbn. destruct (decide (hash = h)) as [->|Hne].
  - exists now. by rewrite lookup_insert_eq.
  - exists at_. by rewrite lookup_insert_ne.
Qed.

Lemma pruneSeenExpired_since now pool :
  now ≤ t + FC_SeenTTL config → seen_since pool → seen_since (pruneSeenExpired now pool).
Proof.
  intros Hnow [Hc (at_ & Hat & Hle)]. unfold pruneSeenExpired. destruct (_ || _); [by split; [|exists at_]|].
  split; [done|]. exists at_. split; [|done]. cbn. apply map_lookup_filter_Some. split; [done|].
  cbn. rewrite Hc. by apply not_expired.
Qed.

Lemma seenRecently_since now pool :
  now ≤ t + FC_SeenTTL config → seen_since pool → (seenRecently now pool h).2 = true.
Proof.
  intros Hnow [Hc (at_ & Hat & Hle)]. unfold seenRecently. rewrite Hc, Hat.
  rewrite bool_decide_eq_false_2 by lia. by rewrite not_expired.
Qed.

(** A change that keeps configuration and seen map. *)
Lemma seen_since_same pool pool' :
  fifo_config pool' = fifo_config pool → fifo_seen pool' = fifo_seen pool →
  seen_since pool → seen_since pool'.
Proof. intros Hc Hs [Hc' Hat]. split; [congruence|]. by rewrite Hs. Qed.

Lemma rebuildIndex_since pool : seen_since pool → seen_since (rebuildIndex pool).
Proof. destruct (rebuildIndex_fields pool) as (Hc & _ & Hs). by apply seen_since_same. Qed.

Lemma seenRecently_keeps now pool hash :
  now ≤ t + FC_SeenTTL config → seen_since pool → seen_since (seenRecently now pool hash).1.
Proof.
  intros Hnow Hs. pose proof Hs as [Hc (at_ & Hat & Hle)]. unfold seenRecently. rewrite Hc.
  case_bool_decide; [done|]. destruct (fifo_seen pool !! hash) as [seenAt|] eqn:E; [|done].
  destruct (expired now _ seenAt) eqn:Ex; [|done]. split; [done|]. exists at_. cbn. split; [|done].
  rewrite lookup_delete_ne; [done|]. intros ->. rewrite Hat in E. injection E as <-.
  by rewrite not_expired in Ex.
Qed.

Section window.
Context (now : Z) (Hnow : t ≤ now ≤ t + FC_SeenTTL config).

Lemma checkTxLocked_since pool ctx tx : seen_since pool → seen_since (checkTxLocked now pool ctx tx).1.
Proof.
  intros Hs. unfold checkTxLocked. destruct (ctx_guard ctx ≫= _); [|done].
  destruct (replacementIndex pool tx); [done|]. destruct (_ && _); [done|].
  assert (seen_since (pruneSeenExpired now pool)) as Hp by (apply pruneSeenExpired_since; [lia|done]).
  destruct (negb (FC_AllowDuplicate _)); [|done]. destruct (fifo_index _ !! _); [done|].
  pose proof (seenRecently_keeps now _ (HashTx tx) (proj2 Hnow) Hp) as Hk.
  by destruct (seenRecently _ _ _) as [pool' []].
Qed.

Lemma replaceTxUnchecked_since pool tx :
  seen_since pool → seen_since (replaceTxUnchecked now pool tx).1.
Proof.
  intros Hs. unfold replaceTxUnchecked. destruct (replacementIndex pool tx) as [i|]; [|done].
  destruct (fifo_txs pool !! i) as [old|]; [|done]. cbn [fst].
  do 2 (apply markSeen_since; [lia|]). by eapply seen_since_same, Hs.
Qed.

Lemma AddTx_since pool ctx tx : seen_since pool → seen_since (Pool_AddTx now pool ctx tx).1.
Proof.
  intros Hs. unfold Pool_AddTx, addTxWithHook.
  pose proof (checkTxLocked_since pool ctx tx Hs) as H1.
  destruct (checkTxLocked now pool ctx tx) as [pool1 [[]|e]]; [|done].
  pose proof (replaceTxUnchecked_since pool1 tx H1) as H2.
  destruct (replaceTxUnchecked now pool1 tx) as [pool2 [[]|e]]; [done| |done]. cbn [fst] in *.
  unfold addTxUnchecked. set (p := mkFIFO _ _ _ _ _).
  apply (seen_since_same (markSeen now p (HashTx tx))); [done..|].
  apply markSeen_since; [lia|]. by apply (seen_since_same pool2).
Qed.

Lemma live_loop_since pool ctx txs : seen_since pool → seen_since (live_loop now pool ctx txs).1.1.
Proof.
  revert pool. induction txs as [|tx txs IH]; intros pool Hs; cbn [live_loop]; [done|].
  destruct (replay_drops _ _ _).
  - specialize (IH (markSeen now pool (HashTx tx))).
    destruct (live_loop _ _ _ _) as [[pool' live] removed]. apply IH, markSeen_since; [lia|done].
  - specialize (IH pool Hs). by destruct (live_loop _ _ _ _) as [[pool' live] removed].
Qed.

Lemma liveTxsLocked_since pool ctx : seen_since pool → seen_since (liveTxsLocked now pool ctx).1.
Proof.
  intros Hs. unfold liveTxsLocked. pose proof (live_loop_since pool ctx (fifo_txs pool) Hs) as HL.
  destruct (live_loop _ _ _ _) as [[pool1 live] removed]. cbn [fst] in HL.
  assert (seen_since (if removed then rebuildIndex (fifo_set_txs pool1 live) else pool1)) as H1.
  { destruct removed; [|done]. apply rebuildIndex_since. by eapply seen_since_same, HL. }
  set (pool2 := if removed then _ else _) in *. clearbody pool2.
  destruct (negb _); [done|]. destruct removed; [|done]. by eapply seen_since_same, H1.
Qed.

Lemma commit_loop_since pool committed txs :
  seen_since pool → seen_since (commit_loop now pool committed txs).1.
Proof.
  revert pool. induction txs as [|tx txs IH]; intros pool Hs; cbn [commit_loop]; [done|].
  destruct (containsTx committed tx).
  - apply IH, markSeen_since; [lia|]. by eapply seen_since_same, Hs.
  - specialize (IH pool Hs). by destruct (commit_loop _ _ _ _) as [pool' remaining].
Qed.

Lemma retain_loop_since pool keep txs :
  seen_since pool → seen_since (retain_loop now pool keep txs).1.1.
Proof.
  revert pool. induction txs as [|tx txs IH]; intros pool Hs; cbn [retain_loop]; [done|].
  destruct (keep tx).
  - specialize (IH pool Hs). by destruct (retain_loop _ _ _ _) as [[pool' remaining] removed].
  - specialize (IH (markSeen now pool (HashTx tx))).
    destruct (retain_loop _ _ _ _) as [[pool' remaining] removed]. apply IH, markSeen_since; [lia|done].
Qed.

Lemma pool_exec_since pool call : seen_since pool → seen_since (pool_exec pool (now, call)).
Proof.
  intros Hs. destruct call as [ctx tx|ctx tx|ctx maxBytes|ctx|ctx committed|ctx keep]; cbn [pool_exec fst snd].
  - by apply checkTxLocked_since.
  - by apply AddTx_since.
  - unfold Pool_BuildBatch. destruct (ctx_guard ctx ≫= _); [|done].
    pose proof (liveTxsLocked_since pool ctx Hs). by destruct (liveTxsLocked _ _ _).
  - unfold Pool_PendingTxs. destruct (ctx_guard ctx); [|done].
    pose proof (liveTxsLocked_since pool ctx Hs). by destruct (liveTxsLocked _ _ _).
  - unfold Pool_MarkCommitted. destruct (ctx_guard ctx); [|done]. cbn [fst].
    unfold markCommittedLocked. case_bool_decide; [done|].
    pose proof (commit_loop_since (pruneSeenExpired now pool) committed
      (fifo_txs (pruneSeenExpired now pool))) as HL.
    destruct (commit_loop _ _ _ _) as [pool' remaining]. apply rebuildIndex_since.
    apply (seen_since_same pool'); [done..|]. apply HL, pruneSeenExpired_since; [lia|done].
  - unfold Pool_RetainTxs. destruct (ctx_guard ctx), keep as [keep|]; try done.
    pose proof (retain_loop_since pool keep (fifo_txs pool) Hs) as HL.
    destruct (retain_loop _ _ _ _) as [[pool' remaining] removed]. case_bool_decide; [done|].
    apply rebuildIndex_since. by eapply seen_since_same, HL.
Qed.
End window.
End seen.

Section readmission.

Lemma AddTx_marks now pool ctx tx pool' :
  0 < FC_SeenTTL (fifo_config pool) → Pool_AddTx now pool ctx tx = (pool', Ok tt) →
  seen_since (fifo_config pool) now (HashTx tx) pool'.
Proof.
  intros Httl HA. unfold Pool_AddTx, addTxWithHook in HA.
  pose proof (checkTxLocked_core now pool ctx tx) as (Hc & _).
  destruct (checkTxLocked now pool ctx tx) as [pool1 [[]|e]]; [|done]. cbn [fst] in Hc.
  assert (∀ p h, fifo_config p = fifo_config pool → seen_since (fifo_config pool) now h (markSeen now p h)) as Hm.
  { intros p h Hp. unfold markSeen. rewrite Hp, bool_decide_eq_false_2 by lia. split; [done|].
    exists now. cbn. by rewrite lookup_insert_eq. }
  destruct (replaceTxUnchecked now pool1 tx) as [pool2 [[]|e]] eqn:ER; [| |done]; injection HA as <-;
    unfold replaceTxUnchecked in ER; destruct (replacementIndex pool1 tx) as [i|]; try done.
  - destruct (fifo_txs pool1 !! i) as [old|]; [|done]. injection ER as <-. apply Hm.
    by match goal with |- fifo_config (markSeen ?n ?p ?x) = _ => destruct (markSeen_core n p x) as [-> _] end.
  - by destruct (fifo_txs pool1 !! i).
  - injection ER as <-. unfold addTxUnchecked. set (p := mkFIFO _ _ _ _ _).
    by apply (seen_since_same _ _ _ (markSeen now p (HashTx tx))); [..|apply Hm].
Qed.

End readmission.

(** ** Prices of replacements *)

(** Away from overflow the new value must exceed the old one by the bump. *)
Lemma bumpedByBPS_exact newValue oldValue bump :
  0 < oldValue → 0 ≤ bump → oldValue * (10000 + bump) + 9999 ≤ max_u64 →
  bumpedByBPS newValue oldValue bump = true ↔ oldValue * (10000 + bump) ≤ newValue * 10000.
Proof.
  intros Hold Hbump Hmax. unfold bumpedByBPS.
  assert (wrap64 (10000 + bump) = 10000 + bump) as ->.
  { apply wrap64_small. unfold is_u64, two64, max_u64 in *. nia. }
  rewrite (bool_decide_eq_false_2 (oldValue = 0)) by lia.
  rewrite (bool_decide_eq_false_2 (max_u64 / _ < _)); last first.
  { apply Z.nlt_ge, Z.div_le_lower_bound; lia. }
  rewrite (wrap64_small (oldValue * _)), wrap64_small by (unfold is_u64, two64, max_u64 in *; nia).
  rewrite bool_decide_eq_true. split; intros Hle.
  - pose proof (Z.mul_succ_div_gt (oldValue * (10000 + bump) + 9999) 10000). lia.
  - apply Z.lt_succ_r, Z.div_lt_upper_bound; lia.
Qed.

(** Above that range only the largest value is accepted, however small the bump. *)
Lemma bumpedByBPS_stuck newValue oldValue bump :
  0 ≤ bump → 10000 + bump < two64 → max_u64 / (10000 + bump) < oldValue →
  bumpedByBPS newValue oldValue bump = true ↔ newValue = max_u64.
Proof.
  intros Hb Hu Hold. unfold bumpedByBPS.
  rewrite wrap64_small by (unfold is_u64; lia).
  assert (0 ≤ max_u64 / (10000 + bump)) by (apply Z.div_pos; unfold max_u64; lia).
  rewrite bool_decide_eq_false_2 by lia. rewrite (bool_decide_eq_true_2 (_ < oldValue)) by done.
  by rewrite bool_decide_eq_true.
Qed.

(** ** Batches *)

Section batches.

Definition total_bytes (txs : list Tx) : Z := sumZ ((λ tx, Z.of_nat (length tx)) <$> txs).

Lemma batch_loop_spec txs batch maxBytes :
  total_bytes batch ≤ maxBytes →
  ∃ taken rest, txs = taken ++ rest ∧
    batch_loop txs (total_bytes batch) maxBytes batch = batch ++ taken ∧
    total_bytes (batch ++ taken) ≤ maxBytes ∧
    match rest with [] => True | tx :: _ => maxBytes < total_bytes (batch ++ taken ++ [tx]) end.
Proof.
  revert batch. induction txs as [|tx txs IH]; intros batch Hb; cbn [batch_loop].
  { exists [], []. rewrite !app_nil_r. by split_and!. }
  assert (total_bytes (batch ++ [tx]) = total_bytes batch + Z.of_nat (length tx)) as Hsnoc.
  { unfold total_bytes. rewrite fmap_app, sumZ_app. cbn. unfold sumZ at 2. cbn. lia. }
  destruct (decide (total_bytes (batch ++ [tx]) ≤ maxBytes)) as [Hle|Hgt].
  - rewrite (bool_decide_eq_false_2 (maxBytes < total_bytes batch + _)) by lia. rewrite andb_false_r.
    assert (length batch = 0%nat → Z.of_nat (length tx) ≤ maxBytes) as Hfirst.
    { intros ->%nil_length_inv. cbn in Hsnoc. unfold total_bytes, sumZ in *. cbn in *. lia. }
    destruct (bool_decide (length batch = 0%nat) && _) eqn:E.
    { apply andb_true_iff in E as [E1%bool_decide_eq_true E2%bool_decide_eq_true].
      specialize (Hfirst E1). lia. }
    destruct (IH (batch ++ [tx]) Hle) as (taken & rest & -> & HL & Ht & Hr). rewrite Hsnoc in HL.
    exists (tx :: taken), rest. rewrite <-app_assoc in HL, Ht. split_and!; [done..|].
    destruct rest; [done|]. by rewrite <-app_assoc in Hr.
  - exists [], (tx :: txs). rewrite !app_nil_r. split_and!; [done| |done|cbn [app]; lia].
    destruct batch as [|b batch].
    + cbn [length bool_decide andb]. rewrite (bool_decide_eq_false_2 (0 < 0)%nat) by lia. cbn [andb].
      rewrite bool_decide_eq_true_2 by done. cbn [andb]. rewrite bool_decide_eq_true_2; [done|].
      unfold total_bytes, sumZ in *. cbn in *. lia.
    + rewrite (bool_decide_eq_true_2 (0 < _)%nat) by (cbn; lia). rewrite bool_decide_eq_true_2 by lia. done.
Qed.

(** A batch is the longest prefix of the live transactions that fits. *)
Lemma BuildBatch_prefix now pool maxBytes :
  0 < maxBytes →
  ∃ batch rest, (Pool_BuildBatch now pool None maxBytes).2 = Ok batch ∧
    (liveTxsLocked now pool None).2 = Batch_Txs batch ++ rest ∧ Batch_ID batch = HashBatch batch ∧
    total_bytes (Batch_Txs batch) ≤ maxBytes ∧
    match rest with [] => True | tx :: _ => maxBytes < total_bytes (Batch_Txs batch ++ [tx]) end.
Proof.
  intros Hm. unfold Pool_BuildBatch. rewrite bool_decide_eq_true_2 by done.
  cbn [ctx_guard check mbind result_bind].
  destruct (liveTxsLocked now pool None) as [pool' live].
  destruct (batch_loop_spec live [] maxBytes) as (taken & rest & -> & HL & Ht & Hr); [unfold total_bytes, sumZ; cbn; lia|].
  cbn [app total_bytes] in HL. change (total_bytes []) with 0 in HL. eexists _, rest.
  cbn [fst snd]. split; [reflexivity|]. cbn [Batch_Txs Batch_ID]. rewrite HL. done.
Qed.
End batches.

(** ** Runs *)

Module PoolExample.
Definition transfer (signer fee nonce : string) : Tx :=
  bytes_of_string ("bank:send:" ++ signer ++ ":zoe:1:fee=" ++ fee ++ ":signer=" ++ signer ++ ":nonce=" ++ nonce).

Definition stale : Tx := transfer "dave" "2" "1".

(** A pool in priority order with replacement, whose replay check drops one
    transaction. *)
Definition priority_config : FIFOConfig :=
  mkFIFOConfig "node" 0 0 false 0 0 true "" true 0
    (Some (λ _ tx, if bool_decide (tx = stale) then Some (ErrNew "stale nonce") else None)).

Definition listed : FIFO :=
  pool_run (NewFIFO priority_config)
    [(0, Call_AddTx None stale); (0, Call_AddTx None (transfer "alice" "1" "1"));
     (0, Call_AddTx None (transfer "bob" "5" "1")); (0, Call_PendingTxs None)].

(** In priority order the pool loses transactions.  Listing the pending
    transactions drops the stale one, records the positions of the others and
    then sorts the slice they share with the pool.  When alice then raises the
    fee of her transaction, the pool replaces bob's and keeps both of hers. *)
Theorem priority_replaces_wrong :
  fifo_txs listed = [transfer "bob" "5" "1"; transfer "alice" "1" "1"] ∧
  (Pool_AddTx 0 listed None (transfer "alice" "10" "1")).2 = Ok tt ∧
  fifo_txs (Pool_AddTx 0 listed None (transfer "alice" "10" "1")).1 =
    [transfer "alice" "10" "1"; transfer "alice" "1" "1"].
Proof. split_and!; vm_compute; reflexivity. Qed.

Definition fifo_order : FIFOConfig := mkFIFOConfig "node" 100 3 false 0 0 false "" true 0 None.

Definition calls : list (Z * pool_call) :=
  [(0, Call_AddTx None (transfer "alice" "1" "1")); (0, Call_AddTx None (transfer "bob" "5" "1"));
   (1, Call_AddTx None (transfer "alice" "10" "1")); (2, Call_MarkCommitted None [transfer "bob" "5" "1"])].

Lemma calls_inj : hash_inj (submitted calls).
Proof.
  assert (Forall (λ tx1, Forall (λ tx2, HashTx tx1 = HashTx tx2 → tx1 = tx2) (submitted calls))
    (submitted calls)) as HF.
  { apply (bool_decide_eq_true_1 (Forall _ _)). vm_compute. reflexivity. }
  rewrite Forall_forall in HF. intros tx1 tx2 H1 H2. specialize (HF tx1 H1).
  rewrite Forall_forall in HF. by apply HF.
Qed.

Lemma pool_consistent_witness :
  pool_wf (pool_run (NewFIFO fifo_order) calls) ∧
  fifo_txs (pool_run (NewFIFO fifo_order) calls) = [transfer "alice" "10" "1"].
Proof.
  split; [|vm_compute; reflexivity].
  apply (pool_consistent fifo_order calls); [reflexivity|exact calls_inj].
Defined.

Definition window_config : FIFOConfig := mkFIFOConfig "node" 0 0 false 60 0 false "" false 0 None.

Definition committed_calls : list (Z * pool_call) :=
  [(7, Call_MarkCommitted None [transfer "alice" "1" "1"])].

End PoolExample.
