(* ===== verification/MempoolDag.v ===== *)
(** * Batches and write-ahead log of the pool ([src/mempool/dag.go], [wal.go])

    The durable pool keeps the transactions in a FIFO pool, a graph of batches,
    and a log of its changes, written before a change is made.  The log file
    with its JSON lines is a parameter: appending one event and reading all of
    them back. *)

From S2P Require Import Prelude GoLib Sha256 Types Strconv TxTags Text Economics FairOrdering Mempool.

Definition ErrBatchNotFound := ErrNew "mempool.ErrBatchNotFound".
Definition ErrDuplicateBatch := ErrNew "mempool.ErrDuplicateBatch".
Definition ErrUnknownParentBatch := ErrNew "mempool.ErrUnknownParentBatch".

(** ** The log *)

(** [WALEvent]; an event whose operation is none of the three is skipped. *)
Inductive WALEvent :=
| WAL_AddTx (tx : Tx)
| WAL_AddBatch (batch : Batch)
| WAL_MarkCommitted (txs : list Tx)
| WAL_Other (op : string).

(** The file: [Encode] and [Sync] of one event, [Replay], and replacing the whole
    content as [Compact] does. *)
Class WalFile (W : Type) := {
  wal_write : W → WALEvent → W * result unit;
  wal_replay : W → W * result (list WALEvent);
  wal_rewrite : W → list WALEvent → W * result unit
}.

(** What the log relies on: a successful append adds the event at the end, and
    reading returns the events in order. *)
Class LawfulWal (W : Type) `{!WalFile W} := {
  wal_log : W → list WALEvent;
  wal_write_Ok w event w' : wal_write w event = (w', Ok tt) → wal_log w' = wal_log w ++ [event];
  wal_replay_Ok w w' events : wal_replay w = (w', Ok events) → events = wal_log w ∧ wal_log w' = wal_log w;
  wal_rewrite_Ok w events w' : wal_rewrite w events = (w', Ok tt) → wal_log w' = events
}.

(** [WAL.append] *)
Definition wal_append {W} `{!WalFile W} (w : W) (ctx : Ctx) (event : WALEvent) : W * result unit :=
  match ctx_guard ctx with
  | Err e => (w, Err e)
  | Ok _ => wal_write w event
  end.

(** ** The graph of batches *)

Record DAG (W : Type) := mkDAG {
  dag_base : FIFO;
  dag_batches : gmap Hash Batch;
  dag_children : gmap Hash (gmap Hash bool);
  dag_tips : gmap Hash bool;
  dag_wal : option W
}.
Arguments mkDAG {W} _ _ _ _ _.
Arguments dag_base {W} _.
Arguments dag_batches {W} _.
Arguments dag_children {W} _.
Arguments dag_tips {W} _.
Arguments dag_wal {W} _.

Section dag.
Context {W : Type} `{!WalFile W}.

Definition empty_config : FIFOConfig := mkFIFOConfig "" 0 0 false 0 0 false "" false 0 None.

Definition NewDAG (base : option FIFO) : DAG W :=
  mkDAG (default (NewFIFO empty_config) base) ∅ ∅ ∅ None.

Definition dag_set_base (dag : DAG W) (base : FIFO) (wal : option W) : DAG W :=
  mkDAG base (dag_batches dag) (dag_children dag) (dag_tips dag) wal.

(** The hooks of [AddTx] and [MarkCommitted]. *)
Definition log_hook (ctx : Ctx) (event : WALEvent) (wal : option W) : option W * result unit :=
  match wal with
  | None => (None, Ok tt)
  | Some w => let '(w, r) := wal_append w ctx event in (Some w, r)
  end.

Definition DAG_CheckTx (now : Z) (dag : DAG W) (ctx : Ctx) (tx : Tx) : DAG W * result unit :=
  let '(base, r) := checkTxLocked now (dag_base dag) ctx tx in
  (dag_set_base dag base (dag_wal dag), r).

Definition DAG_AddTx (now : Z) (dag : DAG W) (ctx : Ctx) (tx : Tx) : DAG W * result unit :=
  let '(base, wal, r) :=
    addTxWithHook now (dag_base dag) ctx tx (log_hook ctx (WAL_AddTx tx)) (dag_wal dag) in
  (dag_set_base dag base wal, r).

Definition DAG_MarkCommitted (now : Z) (dag : DAG W) (ctx : Ctx) (txs : list Tx) : DAG W * result unit :=
  let '(base, wal, r) :=
    markCommittedWithHook now (dag_base dag) ctx txs (log_hook ctx (WAL_MarkCommitted txs)) (dag_wal dag) in
  (dag_set_base dag base wal, r).

Definition DAG_PendingTxs (now : Z) (dag : DAG W) (ctx : Ctx) : DAG W * result (list Tx) :=
  let '(base, r) := Pool_PendingTxs now (dag_base dag) ctx in (dag_set_base dag base (dag_wal dag), r).

Definition DAG_SnapshotTxs (dag : DAG W) (ctx : Ctx) : result (list Tx) :=
  Pool_SnapshotTxs (dag_base dag) ctx.

Definition DAG_RetainTxs (now : Z) (dag : DAG W) (ctx : Ctx) (keep : option (Tx → bool))
    : DAG W * result nat :=
  let '(base, r) := Pool_RetainTxs now (dag_base dag) ctx keep in (dag_set_base dag base (dag_wal dag), r).

Definition currentTipsLocked (order : MapOrder Hash bool) (dag : DAG W) : list Hash :=
  (order (dag_tips dag)).*1.

Definition DAG_BuildBatch (order : MapOrder Hash bool) (now : Z) (dag : DAG W) (ctx : Ctx) (maxBytes : Z)
    : DAG W * result Batch :=
  let '(base, r) := Pool_BuildBatch now (dag_base dag) ctx maxBytes in
  let dag := dag_set_base dag base (dag_wal dag) in
  match r with
  | Err e => (dag, Err e)
  | Ok batch =>
      let batch := mkBatch (Batch_ID batch) (Batch_Author batch) (Batch_Txs batch)
                     (currentTipsLocked order dag) (Batch_Metadata batch) in
      (dag, Ok (mkBatch (HashBatch batch) (Batch_Author batch) (Batch_Txs batch)
                  (Batch_Parents batch) (Batch_Metadata batch)))
  end.

(** The loop of [addBatchUnchecked] over the parents. *)
Fixpoint link_parents (id : Hash) (parents : list Hash) (children : gmap Hash (gmap Hash bool))
    (tips : gmap Hash bool) : gmap Hash (gmap Hash bool) * gmap Hash bool :=
  match parents with
  | [] => (children, tips)
  | parent :: parents =>
      link_parents id parents
        (<[parent := <[id := true]> (default ∅ (children !! parent))]> children)
        (delete parent tips)
  end.

Definition addBatchUnchecked (dag : DAG W) (batch : Batch) : DAG W :=
  let id := Batch_ID batch in
  let '(children, tips) :=
    link_parents id (Batch_Parents batch) (dag_children dag) (<[id := true]> (dag_tips dag)) in
  mkDAG (dag_base dag) (<[id := batch]> (dag_batches dag)) children tips (dag_wal dag).

Definition set_batch_id (batch : Batch) : Batch :=
  if bool_decide (Batch_ID batch = zero_hash)
  then mkBatch (HashBatch batch) (Batch_Author batch) (Batch_Txs batch) (Batch_Parents batch)
         (Batch_Metadata batch)
  else batch.

Definition DAG_AddBatch (dag : DAG W) (ctx : Ctx) (batch : Batch) : DAG W * result unit :=
  let batch := set_batch_id batch in
  match
    ctx_guard ctx ≫= λ _,
    check ErrDuplicateBatch (bool_decide (dag_batches dag !! Batch_ID batch = None)) ≫= λ _,
    check ErrUnknownParentBatch
      (forallb (λ parent, bool_decide (is_Some (dag_batches dag !! parent))) (Batch_Parents batch))
  with
  | Err e => (dag, Err e)
  | Ok _ =>
      let '(wal, r) := log_hook ctx (WAL_AddBatch batch) (dag_wal dag) in
      let dag := dag_set_base dag (dag_base dag) wal in
      match r with
      | Err e => (dag, Err e)
      | Ok _ => (addBatchUnchecked dag batch, Ok tt)
      end
  end.

Definition DAG_GetBatch (dag : DAG W) (ctx : Ctx) (id : Hash) : result Batch :=
  ctx_guard ctx ≫= λ _,
  match dag_batches dag !! id with None => Err ErrBatchNotFound | Some batch => Ok batch end.

(** A tip that is not a batch would read as the zero batch. *)
Definition zero_batch : Batch := mkBatch zero_hash "" [] [] [].

Definition DAG_ReadyBatches (order : MapOrder Hash bool) (dag : DAG W) (ctx : Ctx) : result (list Batch) :=
  ctx_guard ctx ≫= λ _,
  Ok ((λ tip, default zero_batch (dag_batches dag !! tip)) <$> currentTipsLocked order dag).

Definition AttachWAL (dag : DAG W) (wal : option W) : DAG W := dag_set_base dag (dag_base dag) wal.

Definition DAG_BatchCount (dag : DAG W) : nat := size (dag_batches dag).

(** ** Recovery *)

(** One event of the loop of [OpenDurableDAG]; [ctx] is polled before it. *)
Definition replay_event (now : Z) (dag : DAG W) (ctx : Ctx) (event : WALEvent) : DAG W * result unit :=
  match ctx_guard ctx with
  | Err e => (dag, Err e)
  | Ok _ =>
      match event with
      | WAL_AddTx tx =>
          let rejected :=
            match FC_ReplayCheckTx (fifo_config (dag_base dag)) with
            | None => false
            | Some replay => bool_decide (is_Some (replay ctx tx))
            end in
          if rejected : bool then (dag, Ok tt)
          else
            let '(base, r) := Pool_AddTx now (dag_base dag) ctx tx in
            let dag := dag_set_base dag base (dag_wal dag) in
            match r with
            | Ok _ => (dag, Ok tt)
            | Err e => if errors_is e ErrDuplicateTx then (dag, Ok tt) else (dag, Err e)
            end
      | WAL_AddBatch batch =>
          let '(dag, r) := DAG_AddBatch dag ctx batch in
          match r with
          | Ok _ => (dag, Ok tt)
          | Err e => if errors_is e ErrDuplicateBatch then (dag, Ok tt) else (dag, Err e)
          end
      | WAL_MarkCommitted txs => DAG_MarkCommitted now dag ctx txs
      | WAL_Other _ => (dag, Ok tt)
      end
  end.

Fixpoint replay_events (now : Z) (dag : DAG W) (ctx : Ctx) (events : list WALEvent)
    : DAG W * result unit :=
  match events with
  | [] => (dag, Ok tt)
  | event :: events =>
      let '(dag, r) := replay_event now dag ctx event in
      match r with
      | Err e => (dag, Err e)
      | Ok _ => replay_events now dag ctx events
      end
  end.

(** [OpenDurableDAG], given the opened file. *)
Definition OpenDurableDAG (now : Z) (wal : W) (ctx : Ctx) (base : option FIFO) : result (DAG W) :=
  let '(wal, r) := wal_replay wal in
  events ← r;
  match replay_events now (NewDAG base) ctx events with
  | (dag, Ok _) => Ok (AttachWAL dag (Some wal))
  | (_, Err e) => Err e
  end.

(** ** Compaction *)

(** [emitBatch]: a batch after its parents, each once.  The fuel bounds the
    depth of the graph. *)
Fixpoint emitBatch (fuel : nat) (batches : gmap Hash Batch) (id : Hash)
    (state : gset Hash * list WALEvent) : gset Hash * list WALEvent :=
  match fuel with
  | O => state
  | S fuel =>
      if bool_decide (id ∈ state.1) then state
      else match batches !! id with
      | None => state
      | Some batch =>
          let state := foldl (λ state parent, emitBatch fuel batches parent state) state
                         (Batch_Parents batch) in
          ({[id]} ∪ state.1, state.2 ++ [WAL_AddBatch batch])
      end
  end.

(** The events [Compact] writes, for an order of the map of batches. *)
Definition compact_events (order : MapOrder Hash Batch) (dag : DAG W) : list WALEvent :=
  (WAL_AddTx <$> Pool_orderedTxs (dag_base dag)) ++
  (foldl (λ state entry, emitBatch (S (size (dag_batches dag))) (dag_batches dag) entry.1 state)
     (∅, []) (order (dag_batches dag))).2.

(** The context is polled before every transaction. *)
Definition DAG_CompactWAL (order : MapOrder Hash Batch) (dag : DAG W) (ctx : Ctx) : DAG W * result unit :=
  match dag_wal dag with
  | None => (dag, Ok tt)
  | Some w =>
      match ctx, Pool_orderedTxs (dag_base dag) with
      | Some e, _ :: _ => (dag, Err e)
      | _, _ =>
          let '(w, r) := wal_rewrite w (compact_events order dag) in
          (AttachWAL dag (Some w), r)
      end
  end.
End dag.

(** ** The invariant of the graph *)

(** [id] is a parent of a stored batch. *)
Definition is_parent (batches : gmap Hash Batch) (id : Hash) : Prop :=
  ∃ child batch, batches !! child = Some batch ∧ id ∈ Batch_Parents batch.

Record graph_ok (batches : gmap Hash Batch) (children : gmap Hash (gmap Hash bool))
    (tips : gmap Hash bool) : Prop := {
  graph_ids : ∀ id batch, batches !! id = Some batch → Batch_ID batch = id;
  graph_closed : ∀ id, is_parent batches id → is_Some (batches !! id);
  graph_tips : ∀ id b, tips !! id = Some b ↔
    b = true ∧ is_Some (batches !! id) ∧ ¬ is_parent batches id;
  graph_children : ∀ parent child b, children !! parent ≫= lookup child = Some b ↔
    b = true ∧ ∃ batch, batches !! child = Some batch ∧ parent ∈ Batch_Parents batch;
  graph_ranked : ∃ rank : Hash → nat, ∀ id batch, batches !! id = Some batch →
    (rank id < size batches)%nat ∧ Forall (λ parent, (rank parent < rank id)%nat) (Batch_Parents batch)
}.

Lemma graph_ok_empty : graph_ok ∅ ∅ ∅.
Proof.
  split.
  - intros id batch. by rewrite lookup_empty.
  - intros id (child & batch & Hc & _). by rewrite lookup_empty in Hc.
  - intros id b. rewrite lookup_empty. split; [done|]. intros (_ & [? Hs] & _). by rewrite lookup_empty in Hs.
  - intros parent child b. rewrite lookup_empty. split; [done|]. intros (_ & batch & Hc & _).
    by rewrite lookup_empty in Hc.
  - exists (λ _, 0%nat). intros id batch. by rewrite lookup_empty.
Qed.

Lemma link_parents_tips id parents children tips x :
  (link_parents id parents children tips).2 !! x = if decide (x ∈ parents) then None else tips !! x.
Proof.
  revert children tips. induction parents as [|p parents IH]; intros children tips; cbn [link_parents].
  { by rewrite decide_False by apply not_elem_of_nil. }
  rewrite IH. destruct (decide (x ∈ parents)) as [Hin|Hnin].
  { by rewrite decide_True by (by right). }
  destruct (decide (x = p)) as [->|Hne].
  - rewrite lookup_delete_eq, decide_True; [done|left].
  - rewrite lookup_delete_ne, decide_False; [done| |done]. by intros [?|?]%elem_of_cons.
Qed.

Lemma link_parents_children id parents children tips x y :
  (link_parents id parents children tips).1 !! x ≫= lookup y =
  if decide (x ∈ parents ∧ y = id) then Some true else children !! x ≫= lookup y.
Proof.
  revert children tips. induction parents as [|p parents IH]; intros children tips; cbn [link_parents].
  { rewrite decide_False; [done|]. by intros [?%not_elem_of_nil _]. }
  rewrite IH. destruct (decide (x ∈ parents ∧ y = id)) as [[Hin ->]|Hn].
  { rewrite decide_True; [done|]. split; [by right|done]. }
  destruct (decide (x = p)) as [->|Hne].
  - rewrite lookup_insert_eq. cbn. destruct (decide (y = id)) as [->|Hy].
    + rewrite lookup_insert_eq, decide_True; [done|]. split; [left|done].
    + rewrite lookup_insert_ne, decide_False by (done || by intros [_ ?]). by destruct (children !! p).
  - rewrite lookup_insert_ne by done. rewrite decide_False; [done|].
    intros [[?|?]%elem_of_cons ?]; [done|]. by apply Hn.
Qed.

Lemma is_parent_insert batches id batch x :
  batches !! id = None →
  is_parent (<[id := batch]> batches) x ↔ x ∈ Batch_Parents batch ∨ is_parent batches x.
Proof.
  intros Hnone. split.
  - intros (child & b & Hc & Hx). destruct (decide (child = id)) as [->|Hne].
    + rewrite lookup_insert_eq in Hc. injection Hc as ->. by left.
    + rewrite lookup_insert_ne in Hc by done. right. by exists child, b.
  - intros [Hx|(child & b & Hc & Hx)].
    + exists id, batch. by rewrite lookup_insert_eq.
    + exists child, b. rewrite lookup_insert_ne; [done|]. intros ->. congruence.
Qed.

Lemma graph_ok_add batches children tips batch :
  graph_ok batches children tips → batches !! Batch_ID batch = None →
  Forall (λ parent, is_Some (batches !! parent)) (Batch_Parents batch) →
  let '(children', tips') :=
    link_parents (Batch_ID batch) (Batch_Parents batch) children (<[Batch_ID batch := true]> tips) in
  graph_ok (<[Batch_ID batch := batch]> batches) children' tips'.
Proof.
  intros [Hids Hclosed Htips Hchildren [rank Hrank]] Hnone Hparents. rewrite Forall_forall in Hparents.
  set (id := Batch_ID batch) in *.
  pose proof (link_parents_tips id (Batch_Parents batch) children (<[id := true]> tips)) as HT.
  pose proof (link_parents_children id (Batch_Parents batch) children (<[id := true]> tips)) as HC.
  destruct (link_parents _ _ _ _) as [children' tips']. cbn [fst snd] in HT, HC.
  assert (¬ is_parent batches id) as Hnp.
  { intros Hp. destruct (Hclosed id Hp) as [? Hs]. congruence. }
  assert (id ∉ Batch_Parents batch) as Hself.
  { intros Hp. destruct (Hparents id Hp) as [? Hs]. congruence. }
  split.
  - intros x b [[<- <-]|[_ Hb]]%lookup_insert_Some; [done|]. by apply Hids.
  - intros x Hx%is_parent_insert; [|done]. destruct (decide (x = id)) as [->|Hne].
    { by rewrite lookup_insert_eq. }
    rewrite lookup_insert_ne by done. destruct Hx; auto.
  - intros x b. rewrite HT, is_parent_insert by done. destruct (decide (x ∈ Batch_Parents batch)) as [Hin|Hnin].
    { split; [done|]. intros (_ & _ & Hn). tauto. }
    destruct (decide (x = id)) as [->|Hne].
    + rewrite !lookup_insert_eq. split; [intros [= <-]|intros [-> _]]; [|done]. split_and!; [done|done|tauto].
    + rewrite !lookup_insert_ne, Htips by done. tauto.
  - intros parent child b. rewrite HC. destruct (decide (parent ∈ Batch_Parents batch ∧ child = id)) as [[Hin ->]|Hn].
    + split; [intros [= <-]|by intros [-> _]]. split; [done|]. exists batch. by rewrite lookup_insert_eq.
    + rewrite Hchildren. split; intros [-> (b' & Hb' & Hp)]; (split; [done|]); exists b'.
      * rewrite lookup_insert_ne; [done|]. intros ->. congruence.
      * destruct (decide (child = id)) as [->|Hne].
        { rewrite lookup_insert_eq in Hb'. injection Hb' as ->. tauto. }
        by rewrite lookup_insert_ne in Hb'.
  - exists (λ x, if decide (x = id) then size batches else rank x). intros x b.
    rewrite map_size_insert_None by done. intros [[<- <-]|[Hne Hb]]%lookup_insert_Some.
    + rewrite decide_True by done. split; [lia|]. apply Forall_forall. intros p Hp.
      destruct (Hparents p Hp) as [pb Hpb]. rewrite decide_False by (intros ->; congruence).
      by apply Hrank in Hpb as [? _].
    + rewrite decide_False by done. destruct (Hrank _ _ Hb) as [Hlt HF]. split; [lia|].
      rewrite Forall_forall in *. intros p Hp. rewrite decide_False; [by apply HF|].
      intros ->. apply Hnp. by exists x, b.
Qed.

(** ** Calls *)

Section runs.
Context {W : Type} `{!WalFile W}.

Definition dag_ok (dag : DAG W) : Prop :=
  graph_ok (dag_batches dag) (dag_children dag) (dag_tips dag).

Inductive dag_call :=
| DCall_CheckTx (now : Z) (ctx : Ctx) (tx : Tx)
| DCall_AddTx (now : Z) (ctx : Ctx) (tx : Tx)
| DCall_BuildBatch (order : MapOrder Hash bool) (now : Z) (ctx : Ctx) (maxBytes : Z)
| DCall_PendingTxs (now : Z) (ctx : Ctx)
| DCall_MarkCommitted (now : Z) (ctx : Ctx) (txs : list Tx)
| DCall_RetainTxs (now : Z) (ctx : Ctx) (keep : option (Tx → bool))
| DCall_AddBatch (ctx : Ctx) (batch : Batch)
| DCall_CompactWAL (order : MapOrder Hash Batch) (ctx : Ctx).

Definition dag_exec (dag : DAG W) (call : dag_call) : DAG W :=
  match call with
  | DCall_CheckTx now ctx tx => (DAG_CheckTx now dag ctx tx).1
  | DCall_AddTx now ctx tx => (DAG_AddTx now dag ctx tx).1
  | DCall_BuildBatch order now ctx maxBytes => (DAG_BuildBatch order now dag ctx maxBytes).1
  | DCall_PendingTxs now ctx => (DAG_PendingTxs now dag ctx).1
  | DCall_MarkCommitted now ctx txs => (DAG_MarkCommitted now dag ctx txs).1
  | DCall_RetainTxs now ctx keep => (DAG_RetainTxs now dag ctx keep).1
  | DCall_AddBatch ctx batch => (DAG_AddBatch dag ctx batch).1
  | DCall_CompactWAL order ctx => (DAG_CompactWAL order dag ctx).1
  end.

Definition dag_run (dag : DAG W) (calls : list dag_call) : DAG W := foldl dag_exec dag calls.

(** Same graph of batches. *)
Definition same_graph (dag dag' : DAG W) : Prop :=
  dag_batches dag' = dag_batches dag ∧ dag_children dag' = dag_children dag ∧ dag_tips dag' = dag_tips dag.

Lemma same_graph_ok dag dag' : same_graph dag dag' → dag_ok dag → dag_ok dag'.
Proof. unfold dag_ok. by intros (-> & -> & ->). Qed.

Lemma AddBatch_checks (dag : DAG W) ctx batch dag' :
  DAG_AddBatch dag ctx batch = (dag', Ok tt) →
  dag_batches dag !! Batch_ID (set_batch_id batch) = None ∧
  Forall (λ parent, is_Some (dag_batches dag !! parent)) (Batch_Parents (set_batch_id batch)) ∧
  ∃ wal, log_hook ctx (WAL_AddBatch (set_batch_id batch)) (dag_wal dag) = (wal, Ok tt) ∧
    dag' = addBatchUnchecked (dag_set_base dag (dag_base dag) wal) (set_batch_id batch).
Proof.
  unfold DAG_AddBatch. set (b := set_batch_id batch). intros HA.
  destruct (ctx_guard ctx ≫= _) as [u|e] eqn:E; [|done]. result_inv E. apply bool_decide_eq_true in E1.
  destruct (log_hook _ _ _) as [wal [[]|e]]; [|done]. injection HA as <-. split; [done|]. split; [|by exists wal].
  rewrite Forall_forall. intros p Hp. rewrite forallb_forall in E. specialize (E p).
  rewrite <-list_elem_of_In, bool_decide_eq_true in E. auto.
Qed.

Lemma AddBatch_ok (dag : DAG W) ctx batch : dag_ok dag → dag_ok (DAG_AddBatch dag ctx batch).1.
Proof.
  intros Hok. destruct (DAG_AddBatch dag ctx batch) as [dag' [[]|e]] eqn:E; cbn [fst].
  - apply AddBatch_checks in E as (Hnone & Hparents & wal & _ & ->).
    pose proof (graph_ok_add _ _ _ (set_batch_id batch) Hok Hnone Hparents) as HG.
    unfold dag_ok, addBatchUnchecked. cbn [dag_set_base dag_children dag_tips dag_batches].
    by destruct (link_parents _ _ _ _).
  - eapply same_graph_ok, Hok. unfold DAG_AddBatch in E. destruct (ctx_guard ctx ≫= _); [|by injection E as <- _].
    destruct (log_hook _ _ _) as [wal [[]|e']]; [done|]. by injection E as <- _.
Qed.

Lemma dag_exec_ok dag call : dag_ok dag → dag_ok (dag_exec dag call).
Proof.
  intros Hok. destruct call; cbn [dag_exec]; try by apply AddBatch_ok; eapply same_graph_ok, Hok.
  - unfold DAG_CheckTx. by destruct (checkTxLocked _ _ _ _).
  - unfold DAG_AddTx. by destruct (addTxWithHook _ _ _ _ _ _) as [[??] ?].
  - unfold DAG_BuildBatch. by destruct (Pool_BuildBatch _ _ _ _) as [? []].
  - unfold DAG_PendingTxs. by destruct (Pool_PendingTxs _ _ _).
  - unfold DAG_MarkCommitted. by destruct (markCommittedWithHook _ _ _ _ _ _) as [[??] ?].
  - unfold DAG_RetainTxs. by destruct (Pool_RetainTxs _ _ _ _).
  - unfold DAG_CompactWAL. destruct (dag_wal dag); [|done].
    destruct ctx, (Pool_orderedTxs (dag_base dag)); try done; by destruct (wal_rewrite _ _).
Qed.

Lemma dag_run_ok dag calls : dag_ok dag → dag_ok (dag_run dag calls).
Proof.
  revert dag. induction calls as [|call calls IH]; intros dag Hok; [done|]. by apply IH, dag_exec_ok.
Qed.

(** C29: the graph of batches.  After any calls every batch is stored under its
    id, its parents are stored, no batch is its own ancestor, the children map is
    the inverse of the parents, and the batches reported as ready are exactly the
    stored batches that no other batch has as a parent, whatever the order of the
    map of tips. *)
Theorem ready_batches (order : MapOrder Hash bool) base wal calls batch :
  let dag := dag_run (AttachWAL (NewDAG base) wal) calls in
  dag_ok dag ∧
  ∃ ready, DAG_ReadyBatches order dag None = Ok ready ∧
    (batch ∈ ready ↔ dag_batches dag !! Batch_ID batch = Some batch ∧
                     ¬ is_parent (dag_batches dag) (Batch_ID batch)).
Proof.
  cbv zeta. set (dag := dag_run _ _).
  assert (dag_ok dag) as Hok by (apply dag_run_ok, graph_ok_empty). clearbody dag. split; [done|].
  unfold DAG_ReadyBatches. cbn [ctx_guard mbind result_bind]. eexists. split; [reflexivity|].
  rewrite list_elem_of_fmap. destruct Hok as [Hids _ Htips _ _]. split.
  - intros (tip & -> & Hin). unfold currentTipsLocked in Hin. apply list_elem_of_fmap in Hin as ([tip' b] & -> & Hin).
    apply elem_of_map_range, Htips in Hin as (-> & [batch' Hb] & Hnp). cbn [fst]. rewrite Hb. cbn.
    by rewrite (Hids _ _ Hb).
  - intros [Hb Hnp]. exists (Batch_ID batch). rewrite Hb. split; [done|]. unfold currentTipsLocked.
    apply list_elem_of_fmap. exists (Batch_ID batch, true). split; [done|]. apply elem_of_map_range, Htips.
    by rewrite Hb.
Qed.
End runs.

(** ** Recovery from the log *)

(** Without a seen window the pool does not look at the clock. *)
Section no_window.
Context (pool : FIFO) (Httl : FC_SeenTTL (fifo_config pool) ≤ 0).

Lemma checkTxLocked_no_window now now' ctx tx :
  checkTxLocked now pool ctx tx = (pool, (checkTxLocked now' pool ctx tx).2).
Proof.
  unfold checkTxLocked. destruct (ctx_guard ctx ≫= _); [|done].
  destruct (replacementIndex pool tx); [done|]. destruct (_ && _); [done|].
  unfold pruneSeenExpired, seenRecently. rewrite (bool_decide_eq_true_2 (_ ≤ 0)) by done. cbn [orb].
  rewrite (bool_decide_eq_true_2 (_ ≤ 0)) by done.
  destruct (negb _); [|done]. by destruct (fifo_index pool !! _).
Qed.
End no_window.

Section recovery.
Context (config : FIFOConfig).
Context (Httl : FC_SeenTTL config ≤ 0) (Hreplay : FC_ReplayCheckTx config = None).

Lemma markSeen_no_window now pool hash : fifo_config pool = config → markSeen now pool hash = pool.
Proof. intros Hc. unfold markSeen. by rewrite Hc, bool_decide_eq_true_2. Qed.

Lemma replaceTxUnchecked_no_window now now' pool tx :
  fifo_config pool = config → replaceTxUnchecked now pool tx = replaceTxUnchecked now' pool tx.
Proof.
  intros Hc. unfold replaceTxUnchecked. destruct (replacementIndex pool tx); [|done].
  destruct (fifo_txs pool !! _); [|done]. set (p := mkFIFO _ _ _ _ _).
  by rewrite !(markSeen_no_window _ p).
Qed.

Lemma addTxUnchecked_no_window now now' pool tx :
  fifo_config pool = config → addTxUnchecked now pool tx = addTxUnchecked now' pool tx.
Proof. intros Hc. unfold addTxUnchecked. by rewrite !markSeen_no_window. Qed.

Lemma commit_loop_no_window now now' pool committed txs :
  fifo_config pool = config → commit_loop now pool committed txs = commit_loop now' pool committed txs.
Proof.
  revert pool. induction txs as [|tx txs IH]; intros pool Hc; cbn [commit_loop]; [done|].
  destruct (containsTx committed tx); [|by rewrite IH]. by rewrite !markSeen_no_window, IH.
Qed.

Lemma markCommittedLocked_no_window now now' pool committed :
  fifo_config pool = config → markCommittedLocked now pool committed = markCommittedLocked now' pool committed.
Proof.
  intros Hc. unfold markCommittedLocked, pruneSeenExpired. rewrite Hc.
  rewrite (bool_decide_eq_true_2 (_ ≤ 0)) by done. cbn [orb]. by rewrite (commit_loop_no_window now now').
Qed.

Lemma liveTxsLocked_no_replay now pool ctx :
  fifo_config pool = config → (liveTxsLocked now pool ctx).1 = pool.
Proof.
  intros Hc. unfold liveTxsLocked.
  assert (∀ txs, live_loop now pool ctx txs = (pool, txs, false)) as ->.
  { induction txs as [|tx txs IH]; [done|]. cbn [live_loop]. unfold replay_drops.
    by rewrite Hc, Hreplay, IH. }
  by destruct (negb _).
Qed.

(** The effect of an admitted transaction on the pool, and the hook's state. *)
Lemma addTxWithHook_no_window {V} now now' pool ctx tx (hook : V → V * result unit) v :
  fifo_config pool = config →
  addTxWithHook now pool ctx tx hook v =
    match (checkTxLocked now' pool ctx tx).2 with
    | Err e => (pool, v, Err e)
    | Ok _ =>
        match hook v with
        | (v, Err e) => (pool, v, Err e)
        | (v, Ok _) => ((Pool_AddTx now' pool ctx tx).1, v, (Pool_AddTx now' pool ctx tx).2)
        end
    end.
Proof.
  intros Hc. assert (FC_SeenTTL (fifo_config pool) ≤ 0) as Ht by (by rewrite Hc).
  unfold Pool_AddTx, addTxWithHook. rewrite (checkTxLocked_no_window pool Ht now' now').
  rewrite (checkTxLocked_no_window pool Ht now now').
  destruct ((checkTxLocked now' pool ctx tx).2); [|done]. destruct (hook v) as [v' [[]|e]]; [|done].
  rewrite (replaceTxUnchecked_no_window now now') by done.
  destruct (replaceTxUnchecked now' pool tx) as [pool' [[]|e]] eqn:ER; [done| |done].
  unfold replaceTxUnchecked in ER. destruct (replacementIndex pool tx).
  { by destruct (fifo_txs pool !! _). }
  injection ER as <-. by rewrite (addTxUnchecked_no_window now now').
Qed.

Lemma AddTx_checked now pool ctx tx :
  fifo_config pool = config → (checkTxLocked now pool ctx tx).2 = Ok tt →
  (Pool_AddTx now pool ctx tx).2 = Ok tt ∧ fifo_config (Pool_AddTx now pool ctx tx).1 = config.
Proof.
  intros Hc HC. pose proof (checkTxLocked_Ok now pool ctx tx HC) as [_ Hcase].
  assert (FC_SeenTTL (fifo_config pool) ≤ 0) as Ht by (by rewrite Hc).
  unfold Pool_AddTx, addTxWithHook. rewrite (checkTxLocked_no_window pool Ht now now), HC.
  unfold replaceTxUnchecked. destruct (replacementIndex pool tx) as [i|] eqn:Ei.
  - unfold checkReplacement in Hcase. rewrite Ei in Hcase. destruct (fifo_txs pool !! i); [|done].
    set (p := mkFIFO _ _ _ _ _). by rewrite !(markSeen_no_window _ p).
  - unfold addTxUnchecked. set (p := mkFIFO _ _ _ _ _). by rewrite !(markSeen_no_window _ p).
Qed.

Lemma markCommittedLocked_config now pool committed :
  fifo_config (markCommittedLocked now pool committed) = fifo_config pool.
Proof.
  unfold markCommittedLocked. case_bool_decide; [done|].
  pose proof (commit_loop_spec now (pruneSeenExpired now pool) committed (fifo_txs (pruneSeenExpired now pool))) as HL.
  destruct (commit_loop _ _ _ _) as [pool' remaining]. destruct HL as [Hc _].
  destruct (rebuildIndex_fields (fifo_set_txs pool' remaining)) as (-> & _). cbn. rewrite Hc.
  by destruct (pruneSeenExpired_core now pool) as [-> _].
Qed.

Context {W : Type} `{LawfulWal W} (now0 : Z).

(** An append that fails leaves the log as it was. *)
Hypothesis wal_write_Err : ∀ w event w' e, wal_write w event = (w', Err e) → wal_log w' = wal_log w.

(** Replaying the log gives the pool and the graph. *)
Definition recovered (dag : DAG W) : Prop :=
  ∃ w, dag_wal dag = Some w ∧ fifo_config (dag_base dag) = config ∧
    replay_events now0 (NewDAG (Some (NewFIFO config))) None (wal_log w) = (AttachWAL dag None, Ok tt).

Lemma replay_events_snoc (dag : DAG W) events event dag1 dag2 :
  replay_events now0 dag None events = (dag1, Ok tt) →
  replay_event now0 dag1 None event = (dag2, Ok tt) →
  replay_events now0 dag None (events ++ [event]) = (dag2, Ok tt).
Proof.
  revert dag. induction events as [|ev events IH]; intros dag; cbn [replay_events app].
  - intros [= ->] HE. by rewrite HE.
  - destruct (replay_event now0 dag None ev) as [dag' [[]|e]]; [|done]. apply IH.
Qed.

(** A change that was logged first. *)
Lemma recovered_step dag ctx event wal r base batches children tips :
  recovered dag → log_hook ctx event (dag_wal dag) = (wal, r) →
  fifo_config base = config →
  match r with
  | Ok _ => replay_event now0 (AttachWAL dag None) None event = (mkDAG base batches children tips None, Ok tt)
  | Err _ => base = dag_base dag ∧ batches = dag_batches dag ∧ children = dag_children dag ∧ tips = dag_tips dag
  end →
  recovered (mkDAG base batches children tips wal).
Proof.
  intros (w & Hw & Hc & HR) Hlog Hcb Hcase. rewrite Hw in Hlog. cbn [log_hook] in Hlog.
  destruct (wal_append w ctx event) as [w' r'] eqn:EA. injection Hlog as <- <-.
  exists w'. split; [done|]. split; [done|]. unfold wal_append in EA.
  destruct (ctx_guard ctx).
  - destruct r' as [[]|e].
    + apply wal_write_Ok in EA as ->. by eapply replay_events_snoc.
    + apply wal_write_Err in EA as ->. by destruct Hcase as (-> & -> & -> & ->).
  - injection EA as <- <-. by destruct Hcase as (-> & -> & -> & ->).
Qed.

Lemma checkTxLocked_ctx now pool ctx tx : (checkTxLocked now pool ctx tx).2 = Ok tt → ctx = None.
Proof. unfold checkTxLocked. by destruct ctx. Qed.

Lemma AddTx_recovered now dag ctx tx : recovered dag → recovered (DAG_AddTx now dag ctx tx).1.
Proof.
  intros HR. pose proof HR as (w & Hw & Hc & Hrep). unfold DAG_AddTx.
  rewrite (addTxWithHook_no_window now now0) by done.
  destruct ((checkTxLocked now0 (dag_base dag) ctx tx).2) as [[]|e] eqn:EC; [|by exists w].
  pose proof (checkTxLocked_ctx _ _ _ _ EC) as ->.
  destruct (AddTx_checked now0 _ _ _ Hc EC) as [Hok Hcfg].
  destruct (log_hook None (WAL_AddTx tx) (dag_wal dag)) as [wal [[]|e]] eqn:EL; cbn [fst].
  - apply (recovered_step dag None (WAL_AddTx tx) wal (Ok tt)); [done..|].
    cbn [replay_event ctx_guard AttachWAL dag_set_base dag_base dag_wal]. rewrite Hc, Hreplay.
    destruct (Pool_AddTx now0 (dag_base dag) None tx) as [base r]. cbn [fst snd] in *. by subst r.
  - by apply (recovered_step dag None (WAL_AddTx tx) wal (Err e)).
Qed.

Lemma MarkCommitted_recovered now dag ctx txs : recovered dag → recovered (DAG_MarkCommitted now dag ctx txs).1.
Proof.
  intros HR. pose proof HR as (w & Hw & Hc & Hrep). unfold DAG_MarkCommitted, markCommittedWithHook.
  destruct ctx as [e|]; cbn [ctx_guard]; [by exists w|]. case_bool_decide as Hnil; [by exists w|].
  destruct (log_hook None (WAL_MarkCommitted txs) (dag_wal dag)) as [wal [[]|e]] eqn:EL; cbn [fst].
  - apply (recovered_step dag None (WAL_MarkCommitted txs) wal (Ok tt)); [done..| |].
    { by rewrite markCommittedLocked_config. }
    cbn [replay_event ctx_guard]. unfold DAG_MarkCommitted, markCommittedWithHook. cbn [ctx_guard].
    rewrite bool_decide_eq_false_2 by done. cbn [log_hook AttachWAL dag_set_base dag_wal dag_base].
    by rewrite (markCommittedLocked_no_window now0 now).
  - by apply (recovered_step dag None (WAL_MarkCommitted txs) wal (Err e)).
Qed.

Lemma set_batch_id_idem batch : set_batch_id (set_batch_id batch) = set_batch_id batch.
Proof.
  unfold set_batch_id at 2 3. case_bool_decide as Hz.
  - unfold set_batch_id. by case_bool_decide.
  - unfold set_batch_id. by rewrite bool_decide_eq_false_2.
Qed.

Lemma AddBatch_recovered dag ctx batch : recovered dag → recovered (DAG_AddBatch dag ctx batch).1.
Proof.
  intros HR. pose proof HR as (w & Hw & Hc & Hrep). unfold DAG_AddBatch.
  destruct (ctx_guard ctx ≫= _) as [u|e] eqn:E; [|by exists w].
  destruct ctx as [e|]; [done|]. set (b := set_batch_id batch) in *.
  destruct (log_hook None (WAL_AddBatch b) (dag_wal dag)) as [wal [[]|e]] eqn:EL; cbn [fst].
  - unfold addBatchUnchecked. cbn [dag_set_base dag_base dag_batches dag_children dag_tips dag_wal].
    destruct (link_parents _ _ _ _) as [children tips] eqn:Elink.
    apply (recovered_step dag None (WAL_AddBatch b) wal (Ok tt)); [done..|].
    cbn [replay_event ctx_guard]. unfold DAG_AddBatch.
    assert (set_batch_id b = b) as -> by apply set_batch_id_idem.
    cbn [AttachWAL dag_set_base dag_batches dag_wal log_hook]. rewrite E. unfold addBatchUnchecked.
    cbn [AttachWAL dag_set_base dag_base dag_batches dag_children dag_tips dag_wal]. by rewrite Elink.
  - by apply (recovered_step dag None (WAL_AddBatch b) wal (Err e)).
Qed.

(** The calls whose changes the log records. *)
Definition logged (call : dag_call) : Prop :=
  match call with DCall_RetainTxs _ _ _ | DCall_CompactWAL _ _ => False | _ => True end.

Lemma dag_exec_recovered dag call : logged call → recovered dag → recovered (dag_exec dag call).
Proof.
  intros Hl HR. pose proof HR as (w & Hw & Hc & Hrep).
  assert (∀ base, base = dag_base dag → recovered (dag_set_base dag base (dag_wal dag))) as Hsame.
  { intros ? ->. by exists w. }
  destruct call as [now ctx tx|now ctx tx|order now ctx maxBytes|now ctx|now ctx txs|now ctx keep|ctx batch|order ctx];
    cbn [dag_exec]; try done.
  - unfold DAG_CheckTx. pose proof (checkTxLocked_no_window (dag_base dag) ltac:(by rewrite Hc) now now ctx tx) as HC.
    rewrite HC. by apply Hsame.
  - by apply AddTx_recovered.
  - unfold DAG_BuildBatch, Pool_BuildBatch. destruct (ctx_guard ctx ≫= _); [|by apply Hsame].
    pose proof (liveTxsLocked_no_replay now (dag_base dag) ctx Hc) as HL.
    destruct (liveTxsLocked _ _ _) as [base live]. by apply Hsame.
  - unfold DAG_PendingTxs, Pool_PendingTxs. destruct (ctx_guard ctx); [|by apply Hsame].
    pose proof (liveTxsLocked_no_replay now (dag_base dag) ctx Hc) as HL.
    destruct (liveTxsLocked _ _ _) as [base live]. by apply Hsame.
  - by apply MarkCommitted_recovered.
  - by apply AddBatch_recovered.
Qed.

End recovery.

(** ** A log in memory *)

#[global] Instance list_wal : WalFile (list WALEvent) := {|
  wal_write w event := (w ++ [event], Ok tt);
  wal_replay w := (w, Ok w);
  wal_rewrite w events := (events, Ok tt)
|}.

#[global] Instance list_wal_lawful : LawfulWal (list WALEvent).
Proof.
  refine {| wal_log w := w |}; cbn.
  - by intros w event w' [= <-].
  - by intros w w' events [= <- <-].
  - by intros w events w' [= <-].
Defined.

Lemma list_wal_replay (w : list WALEvent) : ∃ w', wal_replay w = (w', Ok (wal_log w)).
Proof. by exists w. Qed.

Module DagExample.
Import PoolExample.

Definition open_dag (config : FIFOConfig) : DAG (list WALEvent) :=
  AttachWAL (NewDAG (Some (NewFIFO config))) (Some []).

Definition durable_calls : list dag_call :=
  [DCall_AddTx 0 None (transfer "alice" "1" "1"); DCall_AddTx 0 None (transfer "alice" "10" "1");
   DCall_AddTx 0 None (transfer "bob" "5" "1");
   DCall_AddBatch None (mkBatch zero_hash "node" [transfer "bob" "5" "1"] [] []);
   DCall_MarkCommitted 1 None [transfer "bob" "5" "1"]].

Definition recovered_txs (r : result (DAG (list WALEvent))) : list Tx :=
  match r with Ok dag => fifo_txs (dag_base dag) | Err _ => [] end.

Lemma durable_log :
  dag_wal (dag_run (open_dag fifo_order) durable_calls) =
    Some (default [] (dag_wal (dag_run (open_dag fifo_order) durable_calls))).
Proof.
  assert (bool_decide (is_Some (dag_wal (dag_run (open_dag fifo_order) durable_calls))) = true) as Hs
    by (vm_compute; reflexivity).
  apply bool_decide_eq_true in Hs as [w ->]. done.
Qed.


(** The bounds of the pool are one transaction; the other one requires a fee. *)
Definition small_config : FIFOConfig := mkFIFOConfig "node" 0 1 false 0 0 false "" true 0 None.
Definition fee_config : FIFOConfig := mkFIFOConfig "node" 0 0 false 0 5 false "" true 0 None.

Definition urgent : Tx := bytes_of_string "bank:send:alice:zoe:1:priority=1:signer=alice:nonce=1".

Definition retained : DAG (list WALEvent) :=
  dag_run (open_dag small_config)
    [DCall_AddTx 0 None (transfer "alice" "1" "1"); DCall_RetainTxs 0 None (Some (λ _, false));
     DCall_AddTx 0 None (transfer "bob" "1" "1")].

Definition compacted : DAG (list WALEvent) :=
  dag_run (open_dag fee_config)
    [DCall_AddTx 0 None (transfer "alice" "5" "1"); DCall_AddTx 0 None urgent;
     DCall_CompactWAL canonical_order None].

(** Two logs a durable pool writes and cannot open again.  [RetainTxs] is
    not logged, so the transactions it dropped are replayed and fill the pool;
    and a replacement is admitted below the minimal fee, but after compaction it
    is replayed as a new transaction, which is refused for its fee. *)
Theorem wal_unreadable :
  fifo_txs (dag_base retained) = [transfer "bob" "1" "1"] ∧
  OpenDurableDAG 0 (default [] (dag_wal retained)) None (Some (NewFIFO small_config)) = Err ErrMempoolFull ∧
  fifo_txs (dag_base compacted) = [urgent] ∧
  OpenDurableDAG 0 (default [] (dag_wal compacted)) None (Some (NewFIFO fee_config)) =
    Err Pool_ErrInsufficientFee.
Proof. split_and!; vm_compute; reflexivity. Qed.
End DagExample.
