(* ===== verification/Validator.v ===== *)
(** * Validators, validator sets and proposer selection
    ([src/validator/validator.go], [set.go], [proposer.go], [policy.go])

    [ValidatorSet] is the Go interface [validator.Set] as a record of its
    observations; [LawfulSet] states what its clients (the consensus state
    machine, the finality verifier, the committee selectors) rely on, and
    [newSetSnapshot_lawful] discharges it for the implementation.  Slices and
    maps are values here, so the defensive copies ([cloneValidator]) are the
    identity. *)

From S2P Require Import Prelude GoLib Sha256 Types.

Record Validator := mkValidator {
  Validator_ID : ValidatorID;
  Validator_Address : Address;
  Validator_PublicKey : PublicKey;
  Validator_VotingPower : VotingPower;
  Validator_Stake : Z;
  Validator_Metadata : gmap string string
}.

Record Candidate := mkCandidate {
  Candidate_Address : Address;
  Candidate_PublicKey : PublicKey;
  Candidate_Stake : Z;
  Candidate_Metadata : gmap string string
}.

#[global] Instance Validator_eq_dec : EqDecision Validator.
Proof. solve_decision. Defined.

(** The interface [validator.Set]. *)
Record ValidatorSet := mkValidatorSet {
  Set_Hash : Hash;
  Set_TotalVotingPower : VotingPower;
  Set_Get : ValidatorID → option Validator;
  Set_List : list Validator
}.

Record setSnapshot := mkSetSnapshot {
  snap_validators : list Validator;
  snap_byID : gmap ValidatorID Validator;
  snap_totalPower : VotingPower;
  snap_hash : Hash
}.

(** The message [hashValidators] feeds to SHA-256. *)
Definition hashValidators_message (validators : list Validator) : bytes :=
  concat (map (λ v,
    bytes_of_string (Validator_ID v) ++ be64 (Validator_VotingPower v)
      ++ be64 (Validator_Stake v) ++ Validator_PublicKey v) validators).

Definition hashValidators (validators : list Validator) : Hash :=
  sha256 (hashValidators_message validators).

Definition newSetSnapshot (validators : list Validator) : setSnapshot :=
  let '(byID, totalPower) :=
    foldl (λ '(byID, totalPower) v,
             (<[Validator_ID v := v]> byID,
              MustAddVotingPowerSaturating totalPower (Validator_VotingPower v)))
          (∅, 0) validators in
  {| snap_validators := validators;
     snap_byID := byID;
     snap_totalPower := totalPower;
     snap_hash := hashValidators validators |}.

(** The snapshot through the interface: methods [Hash], [TotalVotingPower],
    [Get] and [List]. *)
Definition snapshot_Set (s : setSnapshot) : ValidatorSet :=
  {| Set_Hash := snap_hash s;
     Set_TotalVotingPower := snap_totalPower s;
     Set_Get id := snap_byID s !! id;
     Set_List := snap_validators s |}.

Definition toMap (s : setSnapshot) : gmap ValidatorID Validator :=
  foldl (λ m v, <[Validator_ID v := v]> m) ∅ (snap_validators s).

Definition sortedValidators (validators : list Validator) : list Validator :=
  sort_by Validator_ID String.le validators.

(** The order in which Go ranges over the map is irrelevant
    ([sortedValidatorMap_order]). *)
Definition sortedValidatorMap (validators : gmap ValidatorID Validator) : list Validator :=
  sortedValidators (map_to_list validators).*2.

Definition SelectProposer (validators : list Validator) (height : Height) (round : Round)
    : option ValidatorID :=
  let height := if bool_decide (height = 0) then 1 else height in
  let activeValidators := filter (λ v, 0 < Validator_VotingPower v) validators in
  if bool_decide (length activeValidators = 0%nat) then None
  else
    let activeValidators := sortedValidators activeValidators in
    let index := wrap64 (wrap64 (height - 1) + round) mod Z.of_nat (length activeValidators) in
    Validator_ID <$> activeValidators !! Z.to_nat index.

(** ** Admission policy *)

Definition ErrInsufficientStake := ErrNew "validator.ErrInsufficientStake".
Definition ErrValidatorSetFull := ErrNew "validator.ErrValidatorSetFull".
Definition ErrCandidateDenied := ErrNew "validator.ErrCandidateDenied".
Definition ErrMissingCandidateKey := ErrNew "validator.ErrMissingCandidateKey".

Record AdmissionConfig := mkAdmissionConfig {
  Permissionless : bool;
  MinStake : Z;
  MaxValidators : Z;
  Whitelist : gmap string bool;
  RequirePublicKey : bool
}.

(** The interface [AdmissionPolicy]. *)
Abbreviation AdmissionPolicy := (Ctx → Candidate → ValidatorSet → result unit).

Definition ConfigurableAdmissionPolicy_CanJoin (config : AdmissionConfig) : AdmissionPolicy :=
  λ ctx candidate currentSet,
    ctx_guard ctx ≫= λ _,
    if bool_decide (0 < MaxValidators config) &&
       bool_decide (MaxValidators config ≤ Z.of_nat (length (Set_List currentSet)))
    then Err ErrValidatorSetFull
    else if bool_decide (Candidate_Stake candidate < MinStake config)
    then Err ErrInsufficientStake
    else if RequirePublicKey config &&
            bool_decide (length (Candidate_PublicKey candidate) = 0%nat)
    then Err ErrMissingCandidateKey
    else if Permissionless config then Ok tt
    else if default false (Whitelist config !! Candidate_Address candidate) then Ok tt
    else Err (ErrWrap [ErrCandidateDenied] "address is not whitelisted").

(** ** What a validator set promises *)

Class LawfulSet (vs : ValidatorSet) : Prop := {
  lawful_get id v : Set_Get vs id = Some v ↔ v ∈ Set_List vs ∧ Validator_ID v = id;
  lawful_nodup : NoDup (Validator_ID <$> Set_List vs);
  lawful_power v : v ∈ Set_List vs → is_u64 (Validator_VotingPower v);
  lawful_total :
    Set_TotalVotingPower vs = Z.min (sumZ (Validator_VotingPower <$> Set_List vs)) max_u64
}.

(** The real total fits a [uint64], so [TotalVotingPower] is not saturated. *)
Definition unsaturated (vs : ValidatorSet) : Prop :=
  sumZ (Validator_VotingPower <$> Set_List vs) ≤ max_u64.

(** The power the set assigns to an identifier. *)
Definition power_of (vs : ValidatorSet) (id : ValidatorID) : Z :=
  match Set_Get vs id with Some v => Validator_VotingPower v | None => 0 end.

Definition set_ids (vs : ValidatorSet) : list ValidatorID := Validator_ID <$> Set_List vs.

Section lawful.
Context (vs : ValidatorSet) `{!LawfulSet vs}.

Lemma power_of_nonneg id : 0 ≤ power_of vs id.
Proof.
  unfold power_of. destruct (Set_Get vs id) as [v|] eqn:E; [|done].
  apply lawful_get in E as [Hv _]. by apply lawful_power in Hv as [??].
Qed.

Lemma Set_Get_u64 id v : Set_Get vs id = Some v → is_u64 (Validator_VotingPower v).
Proof. intros [Hv _]%lawful_get. by apply lawful_power. Qed.

Lemma Set_Get_self v : v ∈ Set_List vs → Set_Get vs (Validator_ID v) = Some v.
Proof. intros. by apply lawful_get. Qed.

Lemma elem_of_set_ids id : id ∈ set_ids vs ↔ is_Some (Set_Get vs id).
Proof.
  unfold set_ids. rewrite list_elem_of_fmap. split.
  - intros (v & -> & Hv). exists v. by apply Set_Get_self.
  - intros [v [Hv Hid]%lawful_get]. by exists v.
Qed.

Lemma set_ids_nodup : NoDup (set_ids vs).
Proof. apply lawful_nodup. Qed.

Lemma weight_set_ids :
  weight (power_of vs) (set_ids vs) = sumZ (Validator_VotingPower <$> Set_List vs).
Proof.
  unfold weight, set_ids. rewrite <-list_fmap_compose. f_equal.
  apply list_fmap_ext. intros i v Hv. simpl. unfold power_of.
  by rewrite Set_Get_self by (by eapply list_elem_of_lookup_2).
Qed.

Lemma total_unsaturated :
  unsaturated vs → Set_TotalVotingPower vs = weight (power_of vs) (set_ids vs).
Proof. intros Hu. rewrite lawful_total, weight_set_ids. unfold unsaturated in Hu. lia. Qed.

Lemma total_u64 : is_u64 (Set_TotalVotingPower vs).
Proof.
  rewrite lawful_total.
  assert (0 ≤ sumZ (Validator_VotingPower <$> Set_List vs)).
  { rewrite <-weight_set_ids. apply weight_nonneg, power_of_nonneg. }
  unfold is_u64, two64, max_u64. lia.
Qed.

Lemma weight_subset_total l :
  unsaturated vs → NoDup l → l ⊆ set_ids vs →
  weight (power_of vs) l ≤ Set_TotalVotingPower vs.
Proof.
  intros. rewrite total_unsaturated by done.
  apply weight_subset; [apply power_of_nonneg|done..].
Qed.

(** Two quorums overlap in at least a third of the total power. *)
Lemma quorum_overlap l1 l2 :
  unsaturated vs → NoDup l1 → NoDup l2 → l1 ⊆ set_ids vs → l2 ⊆ set_ids vs →
  HasTwoThirdsQuorum (weight (power_of vs) l1) (Set_TotalVotingPower vs) = true →
  HasTwoThirdsQuorum (weight (power_of vs) l2) (Set_TotalVotingPower vs) = true →
  0 < Set_TotalVotingPower vs ≤ 3 * weight (power_of vs) (filter (.∈ l2) l1).
Proof.
  intros Hu Hn1 Hn2 Hs1 Hs2 [Ht H1]%HasTwoThirdsQuorum_iff [_ H2]%HasTwoThirdsQuorum_iff;
    [|apply total_u64..].
  pose proof (weight_intersection (power_of vs) power_of_nonneg (set_ids vs) l1 l2
    Hn1 Hn2 set_ids_nodup Hs1 Hs2) as Hi.
  rewrite <-total_unsaturated in Hi by done. lia.
Qed.

(** With less than a third of the power faulty, two quorums share a correct
    validator. *)
Lemma quorum_overlap_correct l1 l2 byz :
  unsaturated vs → NoDup l1 → NoDup l2 → l1 ⊆ set_ids vs → l2 ⊆ set_ids vs →
  HasTwoThirdsQuorum (weight (power_of vs) l1) (Set_TotalVotingPower vs) = true →
  HasTwoThirdsQuorum (weight (power_of vs) l2) (Set_TotalVotingPower vs) = true →
  3 * weight (power_of vs) byz < Set_TotalVotingPower vs →
  ∃ id, id ∈ l1 ∧ id ∈ l2 ∧ id ∉ byz.
Proof.
  intros Hu Hn1 Hn2 Hs1 Hs2 H1 H2 Hbyz.
  pose proof (quorum_overlap l1 l2 Hu Hn1 Hn2 Hs1 Hs2 H1 H2) as Ho.
  destruct (decide (filter (.∈ l2) l1 ⊆ byz)) as [Hsub|Hns].
  - apply (weight_subset (power_of vs) power_of_nonneg) in Hsub; [lia|by apply NoDup_filter].
  - assert (Exists (.∉ byz) (filter (.∈ l2) l1)) as (id & Hid & Hb)%Exists_exists.
    { apply not_Forall_Exists; [intros ?; apply _|]. intros Hf. apply Hns.
      intros x Hx. rewrite Forall_forall in Hf. by apply Hf. }
    apply list_elem_of_filter in Hid as [??]. by exists id.
Qed.

End lawful.

(** ** The snapshot implements the interface *)

Definition insert_all (l : list Validator) (m : gmap ValidatorID Validator) :=
  foldl (λ m v, <[Validator_ID v := v]> m) m l.

Lemma insert_all_lookup l m id v :
  NoDup (Validator_ID <$> l) →
  insert_all l m !! id = Some v ↔
    (v ∈ l ∧ Validator_ID v = id) ∨ (id ∉ Validator_ID <$> l ∧ m !! id = Some v).
Proof.
  revert m. induction l as [|w l IH]; intros m Hnd; simpl.
  { set_solver. }
  apply NoDup_cons in Hnd as [Hw Hnd]. unfold insert_all in *. simpl. rewrite IH by done.
  rewrite elem_of_cons, not_elem_of_cons, lookup_insert. case_decide as E.
  - subst. naive_solver.
  - naive_solver.
Qed.

Lemma newSetSnapshot_fold l m t :
  Forall (λ v, is_u64 (Validator_VotingPower v)) l → is_u64 t →
  foldl (λ '(byID, totalPower) v,
           (<[Validator_ID v := v]> byID,
            MustAddVotingPowerSaturating totalPower (Validator_VotingPower v)))
        (m, t) l =
  (insert_all l m, Z.min (t + sumZ (Validator_VotingPower <$> l)) max_u64).
Proof.
  intros Hl. revert m t. induction Hl as [|v l Hv Hl IH]; intros m t Ht; csimpl.
  { f_equal. unfold is_u64, two64, max_u64, sumZ in *. simpl. lia. }
  assert (0 ≤ sumZ (Validator_VotingPower <$> l)).
  { apply sumZ_nonneg, Forall_fmap. eapply Forall_impl; [done|]. by intros w [??]. }
  rewrite MustAddVotingPowerSaturating_spec by done.
  rewrite IH by (unfold is_u64, two64, max_u64 in *; lia).
  f_equal. rewrite sumZ_cons. unfold is_u64 in *. lia.
Qed.

Lemma newSetSnapshot_byID l :
  snap_byID (newSetSnapshot l) = insert_all l ∅.
Proof.
  unfold newSetSnapshot, insert_all.
  assert (∀ (m : gmap ValidatorID Validator) t,
    (foldl (λ '(byID, totalPower) v,
       (<[Validator_ID v := v]> byID,
        MustAddVotingPowerSaturating totalPower (Validator_VotingPower v))) (m, t) l).1 =
    foldl (λ m v, <[Validator_ID v := v]> m) m l) as H.
  { induction l; intros m t; simpl; auto. }
  specialize (H ∅ 0). destruct (foldl _ _ _) as [byID t] eqn:E in H.
  rewrite E. done.
Qed.

Lemma newSetSnapshot_validators l : snap_validators (newSetSnapshot l) = l.
Proof. unfold newSetSnapshot. by destruct (foldl _ _ _). Qed.

Lemma newSetSnapshot_lawful l :
  NoDup (Validator_ID <$> l) →
  Forall (λ v, is_u64 (Validator_VotingPower v)) l →
  LawfulSet (snapshot_Set (newSetSnapshot l)).
Proof.
  intros Hnd Hp.
  pose proof (newSetSnapshot_validators l) as Hl.
  split; simpl; rewrite ?Hl; [|done|by apply Forall_forall|].
  - intros id v. rewrite newSetSnapshot_byID, insert_all_lookup by done.
    rewrite lookup_empty. naive_solver.
  - unfold newSetSnapshot. rewrite newSetSnapshot_fold by done. done.
Qed.

(** ** Sorting a validator map *)

(** The registry's maps are keyed by the validators' own identifiers. *)
Definition keyed (m : gmap ValidatorID Validator) : Prop :=
  map_Forall (λ id v, Validator_ID v = id) m.

Lemma keyed_ids (o : MapOrder ValidatorID Validator) m :
  keyed m → Validator_ID <$> (o m).*2 = (o m).*1.
Proof.
  intros Hk. rewrite <-list_fmap_compose. apply list_fmap_ext.
  intros i [id v] Hi. simpl. apply (Hk id v).
  apply (elem_of_map_range o). by eapply list_elem_of_lookup_2.
Qed.

Lemma keyed_ids_nodup (o : MapOrder ValidatorID Validator) m :
  keyed m → NoDup (Validator_ID <$> (o m).*2).
Proof. intros. rewrite keyed_ids by done. apply map_range_NoDup. Qed.

Lemma sortedValidatorMap_order (o : MapOrder ValidatorID Validator) m :
  keyed m → sortedValidators (o m).*2 = sortedValidatorMap m.
Proof.
  intros Hk. apply sort_by_unique; [apply _..|by apply keyed_ids_nodup|].
  by rewrite map_range_perm.
Qed.

Lemma elem_of_sortedValidatorMap m v :
  keyed m → v ∈ sortedValidatorMap m ↔ m !! Validator_ID v = Some v.
Proof.
  intros Hk. unfold sortedValidatorMap, sortedValidators. rewrite elem_of_sort_by.
  rewrite list_elem_of_fmap. split.
  - intros ([id w] & -> & Hw%elem_of_map_to_list). simpl. by rewrite (Hk id w).
  - intros Hv. exists (Validator_ID v, v). split; [done|]. by apply elem_of_map_to_list.
Qed.

Lemma sortedValidatorMap_nodup m :
  keyed m → NoDup (Validator_ID <$> sortedValidatorMap m).
Proof.
  intros Hk. unfold sortedValidatorMap, sortedValidators. rewrite sort_by_perm.
  by apply (keyed_ids_nodup canonical_order).
Qed.

(** [toMap] is a left inverse of taking the snapshot of a keyed map. *)
Lemma toMap_snapshot m :
  keyed m → toMap (newSetSnapshot (sortedValidatorMap m)) = m.
Proof.
  intros Hk. unfold toMap.
  replace (snap_validators _) with (sortedValidatorMap m)
    by (unfold newSetSnapshot; by destruct (foldl _ _ _)).
  apply map_eq. intros id. apply option_eq. intros v.
  change (insert_all (sortedValidatorMap m) ∅ !! id = Some v ↔ m !! id = Some v).
  rewrite insert_all_lookup by (by apply sortedValidatorMap_nodup).
  rewrite elem_of_sortedValidatorMap, lookup_empty by done.
  split; [naive_solver|]. intros Hv. left.
  assert (Validator_ID v = id) as <- by exact (Hk id v Hv). done.
Qed.

(** ** Proposer rotation *)

Definition active_validators (validators : list Validator) : list Validator :=
  sortedValidators (filter (λ v, 0 < Validator_VotingPower v) validators).

Lemma elem_of_active validators v :
  v ∈ active_validators validators ↔ v ∈ validators ∧ 0 < Validator_VotingPower v.
Proof.
  unfold active_validators, sortedValidators.
  rewrite elem_of_sort_by, list_elem_of_filter. tauto.
Qed.

Lemma SelectProposer_index validators height round :
  1 ≤ height → 0 ≤ round → height - 1 + round < two64 →
  SelectProposer validators height round =
    Validator_ID <$> active_validators validators !!
      Z.to_nat ((height - 1 + round) mod Z.of_nat (length (active_validators validators))).
Proof.
  intros Hh Hr Hb. unfold SelectProposer, active_validators.
  rewrite (bool_decide_eq_false_2 (height = 0)) by lia.
  rewrite (wrap64_small (height - 1)) by (unfold is_u64; lia).
  rewrite wrap64_small by (unfold is_u64; lia).
  case_bool_decide as Hl; [|done].
  apply length_zero_iff_nil in Hl. by rewrite Hl.
Qed.

Lemma SelectProposer_active validators height round id :
  SelectProposer validators height round = Some id →
  ∃ v, v ∈ validators ∧ 0 < Validator_VotingPower v ∧ Validator_ID v = id.
Proof.
  unfold SelectProposer. case_bool_decide as Hl; [done|].
  intros (v & Hv & ->)%fmap_Some. exists v.
  apply list_elem_of_lookup_2 in Hv. apply elem_of_active in Hv as [??]. done.
Qed.

Lemma active_ids_nodup validators :
  NoDup (Validator_ID <$> validators) →
  NoDup (Validator_ID <$> active_validators validators).
Proof.
  intros Hnd. unfold active_validators, sortedValidators. rewrite sort_by_perm.
  eapply sublist_NoDup; [exact Hnd|]. apply fmap_sublist, sublist_filter.
Qed.

Lemma SelectProposer_unique_slot validators height round k1 k2 id :
  NoDup (Validator_ID <$> validators) →
  1 ≤ height → 0 ≤ round →
  let n := Z.of_nat (length (active_validators validators)) in
  height - 1 + round + n ≤ two64 → 0 ≤ k1 < n → 0 ≤ k2 < n →
  SelectProposer validators height (round + k1) = Some id →
  SelectProposer validators height (round + k2) = Some id →
  k1 = k2.
Proof.
  intros Hnd Hh Hr n Hb Hk1 Hk2 H1 H2.
  rewrite SelectProposer_index in H1, H2 by lia.
  rewrite <-list_lookup_fmap in H1, H2.
  pose proof (NoDup_lookup _ _ _ _ (active_ids_nodup validators Hnd) H1 H2) as Heq.
  set (a := height - 1 + round) in *.
  assert (0 < n) by lia.
  pose proof (Z.mod_pos_bound (height - 1 + (round + k1)) n ltac:(lia)).
  pose proof (Z.mod_pos_bound (height - 1 + (round + k2)) n ltac:(lia)).
  fold n in Heq. apply Z2Nat.inj in Heq; [|lia..].
  rewrite !Z.add_assoc in Heq. fold a in Heq.
  assert (((a + k1) - (a + k2)) mod n = 0) as Hz.
  { rewrite Zminus_mod, Heq, Z.sub_diag. by apply Z.mod_0_l; lia. }
  apply Z.mod_divide in Hz as [q Hq]; [|lia]. clearbody n a. clear - Hq Hk1 Hk2.
  assert (q = 0) by nia. lia.
Qed.

Lemma SelectProposer_slot_exists validators height round v :
  v ∈ validators → 0 < Validator_VotingPower v →
  1 ≤ height → 0 ≤ round →
  let n := Z.of_nat (length (active_validators validators)) in
  height - 1 + round + n ≤ two64 →
  ∃ k, 0 ≤ k < n ∧ SelectProposer validators height (round + k) = Some (Validator_ID v).
Proof.
  intros Hv Hp Hh Hr n Hb.
  assert (v ∈ active_validators validators) as [i Hi]%list_elem_of_lookup_1
    by (by apply elem_of_active).
  pose proof (lookup_lt_Some _ _ _ Hi) as Hlt.
  exists ((Z.of_nat i - (height - 1 + round)) mod n).
  pose proof (Z.mod_pos_bound (Z.of_nat i - (height - 1 + round)) n ltac:(lia)) as Hk.
  split; [done|]. rewrite SelectProposer_index by lia.
  rewrite Z.add_assoc, Zplus_mod_idemp_r.
  replace (height - 1 + round + (Z.of_nat i - (height - 1 + round))) with (Z.of_nat i) by lia.
  rewrite Z.mod_small by lia. by rewrite Nat2Z.id, Hi.
Qed.
