(* ===== verification/SignBytes.v ===== *)
(** * Certificates, consensus messages, their hashes and sign bytes
    ([src/finality/finality.go], [finality/proof.go], [consensus/consensus.go],
    [consensus/timeout.go], [consensus/hash.go], [consensus/signbytes.go],
    [signbytes/signbytes.go], [crypto/domain.go])

    What a validator signs is a byte string: a domain prefix followed by the
    message's own encoding.  The theorems show that the encoding is unambiguous:
    two signed messages with the same bytes agree on every signed field, and a
    signature of one kind of message is never a signature of another kind. *)

From S2P Require Import Prelude GoLib Sha256 Types Validator.

(** ** Certificates and messages *)

Record QuorumCert := mkQuorumCert {
  QC_Height : Height;
  QC_Round : Round;
  QC_BlockHash : Hash;
  QC_Signers : Bitmap;
  QC_Signature : AggregateSignature;
  QC_VotingPower : VotingPower
}.

Record TimeoutCert := mkTimeoutCert {
  TC_Height : Height;
  TC_Round : Round;
  TC_HighQC : QuorumCert;
  TC_Signers : Bitmap;
  TC_Signature : AggregateSignature
}.

Record Proposal := mkProposal {
  Proposal_Block : Block;
  Proposal_Round : Round;
  Proposal_Proposer : ValidatorID;
  Proposal_JustifyQC : QuorumCert;
  Proposal_Signature : Signature
}.

Record Vote := mkVote {
  Vote_Height : Height;
  Vote_Round : Round;
  Vote_BlockHash : Hash;
  Vote_ValidatorID : ValidatorID;
  Vote_Signature : Signature
}.

Record TimeoutVote := mkTimeoutVote {
  TimeoutVote_Height : Height;
  TimeoutVote_Round : Round;
  TimeoutVote_ValidatorID : ValidatorID;
  TimeoutVote_HighQC : QuorumCert;
  TimeoutVote_Signature : Signature
}.

#[global] Instance QuorumCert_eq_dec : EqDecision QuorumCert.
Proof. solve_decision. Defined.
#[global] Instance TimeoutCert_eq_dec : EqDecision TimeoutCert.
Proof. solve_decision. Defined.
#[global] Instance Proposal_eq_dec : EqDecision Proposal.
Proof. solve_decision. Defined.
#[global] Instance Vote_eq_dec : EqDecision Vote.
Proof. solve_decision. Defined.
#[global] Instance TimeoutVote_eq_dec : EqDecision TimeoutVote.
Proof. solve_decision. Defined.

(** The zero values [finality.QuorumCert{}] and [finality.TimeoutCert{}]. *)
Definition zero_QC : QuorumCert := mkQuorumCert 0 0 zero_hash [] [] 0.
Definition zero_TC : TimeoutCert := mkTimeoutCert 0 0 zero_QC [] [].

(** ** Block hashes *)

(** The bytes written to the hasher by [HashHeader]; the nanosecond time is an
    [int64] converted to [uint64]. *)
Definition HashHeader_message (header : Header) : bytes :=
  bytes_of_string (Header_ChainID header) ++
  be64 (Header_Height header) ++
  be64 (wrap64 (Header_TimeUnixNano header)) ++
  hash_bytes (Header_PreviousBlockHash header) ++
  hash_bytes (Header_AppHash header) ++
  hash_bytes (Header_ValidatorSetHash header) ++
  hash_bytes (Header_ConsensusHash header) ++
  hash_bytes (Header_TxRoot header).

Definition HashHeader (header : Header) : Hash := sha256 (HashHeader_message header).

Definition TxRoot_message (txs : list Tx) : bytes :=
  concat (map (λ tx, be64 (Z.of_nat (length tx)) ++ tx) txs).

Definition TxRoot (txs : list Tx) : Hash :=
  if bool_decide (length txs = 0%nat) then zero_hash else sha256 (TxRoot_message txs).

Definition set_TxRoot (header : Header) (root : Hash) : Header :=
  mkHeader (Header_ChainID header) (Header_Height header) (Header_TimeUnixNano header)
    (Header_PreviousBlockHash header) (Header_AppHash header)
    (Header_ValidatorSetHash header) (Header_ConsensusHash header) root.

Definition HashBlock (block : Block) : Hash :=
  let header := Block_Header block in
  let header := if bool_decide (Header_TxRoot header = zero_hash)
                then set_TxRoot header (TxRoot (Block_Txs block)) else header in
  HashHeader header.

(** ** Sign bytes *)

(** [signbytes.Vote] *)
Definition signbytes_Vote (height : Height) (round : Round) (blockHash : Hash) : bytes :=
  bytes_of_string "vote" ++ be64 height ++ be64 round ++ hash_bytes blockHash.

Definition appendQuorumCert (message : bytes) (quorumCert : QuorumCert) : bytes :=
  message ++ be64 (QC_Height quorumCert) ++ be64 (QC_Round quorumCert) ++
  hash_bytes (QC_BlockHash quorumCert) ++ be64 (QC_VotingPower quorumCert) ++
  hash_bytes (sha256 (QC_Signers quorumCert)).

Definition ProposalSignBytes (proposal : Proposal) : bytes :=
  let blockHash := HashBlock (Proposal_Block proposal) in
  let message :=
    bytes_of_string "proposal" ++
    be64 (Header_Height (Block_Header (Proposal_Block proposal))) ++
    be64 (Proposal_Round proposal) ++
    bytes_of_string (Proposal_Proposer proposal) ++
    hash_bytes blockHash in
  appendQuorumCert message (Proposal_JustifyQC proposal).

Definition VoteSignBytes (vote : Vote) : bytes :=
  signbytes_Vote (Vote_Height vote) (Vote_Round vote) (Vote_BlockHash vote).

Definition TimeoutVoteSignBytes (vote : TimeoutVote) : bytes :=
  appendQuorumCert
    (bytes_of_string "timeout_vote" ++ be64 (TimeoutVote_Height vote) ++
     be64 (TimeoutVote_Round vote)) (TimeoutVote_HighQC vote).

(** ** Signature domains *)

Definition ErrEmptyDomain := ErrNew "crypto.ErrEmptyDomain".
Definition ErrKeyNotFound := ErrNew "crypto.ErrKeyNotFound".

Definition DomainConsensusProposal : string := "vexo.consensus.proposal.v1".
Definition DomainConsensusVote : string := "vexo.consensus.vote.v1".
Definition DomainConsensusTimeoutVote : string := "vexo.consensus.timeout_vote.v1".
Definition DomainFinalityProof : string := "vexo.finality.proof.v1".

Definition DomainMessage (domain : string) (message : bytes) : result bytes :=
  if bool_decide (domain = "") then Err ErrEmptyDomain
  else Ok (bytes_of_string "VEXO-DOMAIN" ++ [x00] ++ bytes_of_string domain ++
           be64 (Z.of_nat (length message)) ++ message).

(** The interface [crypto.Signer]. *)
Record Signer := mkSigner {
  Signer_PublicKey : PublicKey;
  Signer_Sign : bytes → result Signature;
  Signer_Verify : PublicKey → bytes → Signature → bool
}.

(** [DomainSigner] as an implementation of [Signer]. *)
Definition NewDomainSigner (signer : option Signer) (domain : string) : result Signer :=
  match signer with
  | None => Err ErrKeyNotFound
  | Some signer =>
      if bool_decide (domain = "") then Err ErrEmptyDomain
      else Ok (mkSigner (Signer_PublicKey signer)
        (λ message, DomainMessage domain message ≫= Signer_Sign signer)
        (λ publicKey message signature,
           match DomainMessage domain message with
           | Err _ => false
           | Ok domainMessage => Signer_Verify signer publicKey domainMessage signature
           end))
  end.

Definition SignWithDomain (signer : option Signer) (domain : string) (message : bytes)
    : result Signature :=
  domainSigner ← NewDomainSigner signer domain;
  Signer_Sign domainSigner message.

(** An aggregate verifier is its method [VerifyAggregate]. *)
Abbreviation AggregateVerifier := (list PublicKey → bytes → AggregateSignature → bool).

Definition DomainAggregateVerifier_VerifyAggregate (verifier : AggregateVerifier)
    (domain : string) : AggregateVerifier :=
  λ publicKeys message signature,
    match DomainMessage domain message with
    | Err _ => false
    | Ok domainMessage => verifier publicKeys domainMessage signature
    end.

Definition NewDomainAggregateVerifier (verifier : option AggregateVerifier) (domain : string)
    : result AggregateVerifier :=
  match verifier with
  | None => Err ErrKeyNotFound
  | Some verifier =>
      if bool_decide (domain = "") then Err ErrEmptyDomain
      else Ok (DomainAggregateVerifier_VerifyAggregate verifier domain)
  end.

(** ** Signer lists of a certificate *)

Definition ErrEmptySigner := ErrNew "finality.ErrEmptySigner".

Definition EncodeSigners (signers : list ValidatorID) : Bitmap :=
  bytes_of_string (str_join "," signers).

Fixpoint parse_parts (parts : list string) : result (list ValidatorID) :=
  match parts with
  | [] => Ok []
  | part :: parts =>
      if bool_decide (part = "") then Err ErrEmptySigner
      else cons part <$> parse_parts parts
  end.

Definition ParseSigners (signers : Bitmap) : result (list ValidatorID) :=
  if bool_decide (length signers = 0%nat) then Ok []
  else parse_parts (str_split "," (string_of_bytes signers)).

(** The interface [crypto.AggregateSigner], and [DomainAggregateSigner] as an
    implementation of it. *)
Record AggregateSigner := mkAggregateSigner {
  Aggregator_Aggregate : list Signature → result AggregateSignature;
  Aggregator_VerifyAggregate : AggregateVerifier
}.

Definition NewDomainAggregateSigner (signer : option AggregateSigner) (domain : string)
    : result AggregateSigner :=
  match signer with
  | None => Err ErrKeyNotFound
  | Some signer =>
      if bool_decide (domain = "") then Err ErrEmptyDomain
      else Ok (mkAggregateSigner (Aggregator_Aggregate signer)
        (DomainAggregateVerifier_VerifyAggregate (Aggregator_VerifyAggregate signer) domain))
  end.

(** ** Well-formed messages

    The fields of a Go value fit their machine types, and a byte slice has a
    length below 2^63. *)

Definition QC_wf (qc : QuorumCert) : Prop :=
  is_u64 (QC_Height qc) ∧ is_u64 (QC_Round qc) ∧ is_u64 (QC_VotingPower qc).

Definition Header_wf (h : Header) : Prop :=
  is_u64 (Header_Height h) ∧ -(2 ^ 63) ≤ Header_TimeUnixNano h < 2 ^ 63.

Definition Proposal_wf (p : Proposal) : Prop :=
  Header_wf (Block_Header (Proposal_Block p)) ∧ is_u64 (Proposal_Round p) ∧
  QC_wf (Proposal_JustifyQC p).

Definition Vote_wf (v : Vote) : Prop := is_u64 (Vote_Height v) ∧ is_u64 (Vote_Round v).

Definition TimeoutVote_wf (v : TimeoutVote) : Prop :=
  is_u64 (TimeoutVote_Height v) ∧ is_u64 (TimeoutVote_Round v) ∧ QC_wf (TimeoutVote_HighQC v).

(** ** Injectivity of the encodings *)

(** Split an equation between concatenations whose leading parts have equal
    known lengths. *)
Ltac split_bytes H :=
  let H1 := fresh "Hb" in
  apply app_inj_1 in H as [H1 H];
  [|by rewrite ?be64_length, ?hash_bytes_length].

Lemma wrap64_int64_inj x y :
  -(2 ^ 63) ≤ x < 2 ^ 63 → -(2 ^ 63) ≤ y < 2 ^ 63 → wrap64 x = wrap64 y → x = y.
Proof.
  unfold wrap64, two64. intros Hx Hy H.
  pose proof (Z.div_mod x 18446744073709551616). pose proof (Z.div_mod y 18446744073709551616).
  lia.
Qed.

Lemma HashHeader_message_inj h1 h2 :
  Header_wf h1 → Header_wf h2 → HashHeader_message h1 = HashHeader_message h2 → h1 = h2.
Proof.
  intros [Hh1 Ht1] [Hh2 Ht2] H. unfold HashHeader_message in H.
  apply app_inj_2 in H as [Hchain H];
    [|by rewrite !length_app, !be64_length, !hash_bytes_length].
  do 6 split_bytes H. destruct h1, h2; simpl in *.
  apply (inj bytes_of_string) in Hchain. apply be64_inj in Hb; [|done..].
  apply be64_inj in Hb0; [|apply wrap64_u64..]. apply wrap64_int64_inj in Hb0; [|done..].
  repeat match goal with E : hash_bytes _ = hash_bytes _ |- _ =>
    apply (inj hash_bytes) in E end.
  by subst.
Qed.

Lemma TxRoot_message_inj txs1 txs2 :
  Forall (λ tx, Z.of_nat (length tx) < two64) txs1 →
  Forall (λ tx, Z.of_nat (length tx) < two64) txs2 →
  TxRoot_message txs1 = TxRoot_message txs2 → txs1 = txs2.
Proof.
  unfold TxRoot_message. intros Hf1. revert txs2.
  induction Hf1 as [|tx txs1 Htx Hf1 IH]; intros txs2 Hf2 H; destruct Hf2 as [|tx2 txs2 Htx2 Hf2];
    cbn [map concat] in H; [done..|].
  rewrite <-!app_assoc in H. split_bytes H. apply be64_inj in Hb; [|unfold is_u64; lia..].
  apply app_inj_1 in H as [-> H]; [|lia]. f_equal. by apply IH.
Qed.

Lemma DomainMessage_Ok domain message :
  domain ≠ "" → ∃ m, DomainMessage domain message = Ok m.
Proof. intros. unfold DomainMessage. rewrite bool_decide_eq_false_2 by done. eauto. Qed.

Lemma signbytes_Vote_inj h1 r1 b1 h2 r2 b2 :
  is_u64 h1 → is_u64 r1 → is_u64 h2 → is_u64 r2 →
  signbytes_Vote h1 r1 b1 = signbytes_Vote h2 r2 b2 → h1 = h2 ∧ r1 = r2 ∧ b1 = b2.
Proof.
  unfold signbytes_Vote. intros ???? H. split_bytes H. split_bytes H. split_bytes H.
  apply be64_inj in Hb0; [|done..]. apply be64_inj in Hb1; [|done..].
  by apply (inj hash_bytes) in H.
Qed.

(** Agreement of two certificates on what [appendQuorumCert] encodes: the
    signer list is covered by its SHA-256 hash. *)
Definition QC_agree (q1 q2 : QuorumCert) : Prop :=
  QC_Height q1 = QC_Height q2 ∧ QC_Round q1 = QC_Round q2 ∧
  QC_BlockHash q1 = QC_BlockHash q2 ∧ QC_VotingPower q1 = QC_VotingPower q2 ∧
  sha256 (QC_Signers q1) = sha256 (QC_Signers q2).

Lemma appendQuorumCert_inj m1 m2 q1 q2 :
  QC_wf q1 → QC_wf q2 →
  appendQuorumCert m1 q1 = appendQuorumCert m2 q2 → m1 = m2 ∧ QC_agree q1 q2.
Proof.
  intros (?&?&?) (?&?&?) Heq. unfold appendQuorumCert in Heq.
  apply app_inj_2 in Heq as [-> Heq];
    [|by rewrite !length_app, !be64_length, !hash_bytes_length].
  split; [done|]. do 4 split_bytes Heq. apply be64_inj in Hb; [|done..].
  apply be64_inj in Hb0; [|done..]. apply be64_inj in Hb2; [|done..].
  apply (inj hash_bytes) in Hb1. apply (inj hash_bytes) in Heq. done.
Qed.

Lemma TimeoutVoteSignBytes_inj v1 v2 :
  TimeoutVote_wf v1 → TimeoutVote_wf v2 →
  TimeoutVoteSignBytes v1 = TimeoutVoteSignBytes v2 →
  TimeoutVote_Height v1 = TimeoutVote_Height v2 ∧
  TimeoutVote_Round v1 = TimeoutVote_Round v2 ∧
  QC_agree (TimeoutVote_HighQC v1) (TimeoutVote_HighQC v2).
Proof.
  intros (?&?&?) (?&?&?) Heq. apply appendQuorumCert_inj in Heq as [Heq Hqc]; [|done..].
  split_bytes Heq. split_bytes Heq. apply be64_inj in Hb0; [|done..]. by apply be64_inj in Heq.
Qed.

Lemma ProposalSignBytes_inj p1 p2 :
  Proposal_wf p1 → Proposal_wf p2 →
  ProposalSignBytes p1 = ProposalSignBytes p2 →
  Header_Height (Block_Header (Proposal_Block p1)) =
    Header_Height (Block_Header (Proposal_Block p2)) ∧
  Proposal_Round p1 = Proposal_Round p2 ∧
  Proposal_Proposer p1 = Proposal_Proposer p2 ∧
  HashBlock (Proposal_Block p1) = HashBlock (Proposal_Block p2) ∧
  QC_agree (Proposal_JustifyQC p1) (Proposal_JustifyQC p2).
Proof.
  intros ([? _]&?&?) ([? _]&?&?) Heq. apply appendQuorumCert_inj in Heq as [Heq Hqc]; [|done..].
  do 3 split_bytes Heq. apply be64_inj in Hb0; [|done..]. apply be64_inj in Hb1; [|done..].
  apply app_inj_2 in Heq as [Hp Hh]; [|by rewrite !hash_bytes_length].
  apply (inj bytes_of_string) in Hp. by apply (inj hash_bytes) in Hh.
Qed.

(** ** What is signed *)

(** The messages validators sign, each in its own domain. *)
Inductive SignedMessage :=
| SignedProposal (p : Proposal)
| SignedVote (v : Vote)
| SignedTimeoutVote (v : TimeoutVote).

Definition signed_payload (m : SignedMessage) : result bytes :=
  match m with
  | SignedProposal p => DomainMessage DomainConsensusProposal (ProposalSignBytes p)
  | SignedVote v => DomainMessage DomainConsensusVote (VoteSignBytes v)
  | SignedTimeoutVote v => DomainMessage DomainConsensusTimeoutVote (TimeoutVoteSignBytes v)
  end.

Definition signed_wf (m : SignedMessage) : Prop :=
  match m with
  | SignedProposal p => Proposal_wf p
  | SignedVote v => Vote_wf v
  | SignedTimeoutVote v => TimeoutVote_wf v
  end.

(** Agreement on every signed field. *)
Definition signed_agree (m1 m2 : SignedMessage) : Prop :=
  match m1, m2 with
  | SignedProposal p1, SignedProposal p2 =>
      Header_Height (Block_Header (Proposal_Block p1)) =
        Header_Height (Block_Header (Proposal_Block p2)) ∧
      Proposal_Round p1 = Proposal_Round p2 ∧
      Proposal_Proposer p1 = Proposal_Proposer p2 ∧
      HashBlock (Proposal_Block p1) = HashBlock (Proposal_Block p2) ∧
      QC_agree (Proposal_JustifyQC p1) (Proposal_JustifyQC p2)
  | SignedVote v1, SignedVote v2 =>
      Vote_Height v1 = Vote_Height v2 ∧ Vote_Round v1 = Vote_Round v2 ∧
      Vote_BlockHash v1 = Vote_BlockHash v2
  | SignedTimeoutVote v1, SignedTimeoutVote v2 =>
      TimeoutVote_Height v1 = TimeoutVote_Height v2 ∧
      TimeoutVote_Round v1 = TimeoutVote_Round v2 ∧
      QC_agree (TimeoutVote_HighQC v1) (TimeoutVote_HighQC v2)
  | _, _ => False
  end.

Lemma DomainMessage_inj domain m1 m2 b :
  DomainMessage domain m1 = Ok b → DomainMessage domain m2 = Ok b → m1 = m2.
Proof.
  unfold DomainMessage. case_bool_decide; [done|]. intros Hb Heq.
  rewrite <-Hb in Heq. apply (inj Ok) in Heq.
  do 3 apply app_inv_head in Heq. split_bytes Heq. done.
Qed.

(** C17: consensus sign bytes are unambiguous.  Two proposals, votes or timeout
    votes with the same signed bytes are of the same kind and agree on every
    signed field (heights, rounds, proposer, block hash and certificate, the
    certificate's signer list up to its SHA-256 hash): a signature can not be
    replayed as a signature of another message or of another message kind. *)
Theorem sign_bytes_unambiguous m1 m2 b :
  signed_wf m1 → signed_wf m2 →
  signed_payload m1 = Ok b → signed_payload m2 = Ok b → signed_agree m1 m2.
Proof.
  intros Hwf1 Hwf2 H1 H2. destruct m1 as [p1|v1|v1], m2 as [p2|v2|v2]; simpl in *;
    try (unfold DomainMessage in H1, H2; simpl in H1, H2; congruence);
    pose proof (DomainMessage_inj _ _ _ _ H1 H2) as Heq.
  - by apply ProposalSignBytes_inj.
  - destruct Hwf1, Hwf2. by apply signbytes_Vote_inj.
  - by apply TimeoutVoteSignBytes_inj.
Qed.

Definition example_vote (id : ValidatorID) : Vote := mkVote 5 1 (sha256 [x01]) id [x02].

Lemma sign_bytes_unambiguous_witness :
  signed_agree (SignedVote (example_vote "a")) (SignedVote (example_vote "b")).
Proof.
  eapply sign_bytes_unambiguous; [by repeat split..|reflexivity|reflexivity].
Defined.

(** A block hash commits to the whole header: two headers with the same
    hash are equal, or their encodings are a collision of SHA-256. *)
Theorem HashHeader_commits h1 h2 :
  Header_wf h1 → Header_wf h2 → HashHeader h1 = HashHeader h2 →
  h1 = h2 ∨ (HashHeader_message h1 ≠ HashHeader_message h2 ∧
             sha256 (HashHeader_message h1) = sha256 (HashHeader_message h2)).
Proof.
  intros Hwf1 Hwf2 Heq. destruct (decide (h1 = h2)) as [|Hne]; [by left|right].
  split; [|done]. intros Hm. by apply Hne, HashHeader_message_inj.
Qed.

Definition example_header : Header :=
  mkHeader "chain" 5 (-1) (sha256 [x01]) zero_hash zero_hash zero_hash zero_hash.

Lemma HashHeader_commits_witness :
  example_header = example_header ∨
  (HashHeader_message example_header ≠ HashHeader_message example_header ∧
   sha256 (HashHeader_message example_header) = sha256 (HashHeader_message example_header)).
Proof. apply HashHeader_commits; [by repeat split..|reflexivity]. Defined.

(** *** Signer lists *)

Lemma str_join_split sep s : str_join (String sep "") (str_split sep s) = s.
Proof.
  induction s as [|a s IH]; simpl; [done|]. case_bool_decide as E.
  - subst. destruct (str_split sep s) as [|w ws] eqn:Hs; [by destruct s; simpl in Hs; repeat case_match|].
    change (String sep (str_join (String sep "") (w :: ws)) = String sep s). by rewrite IH.
  - destruct (str_split sep s) as [|w ws] eqn:Hs; simpl in IH; [by rewrite <-IH|].
    destruct ws; simpl in *; by rewrite <-IH.
Qed.

Lemma str_split_no_sep sep s : Forall (λ w, str_elem sep w = false) (str_split sep s).
Proof.
  induction s as [|a s IH]; simpl; [by constructor|]. case_bool_decide as E.
  - by constructor.
  - destruct (str_split sep s) as [|w ws].
    + constructor; [|done]. simpl. by rewrite bool_decide_eq_false_2.
    + rewrite Forall_cons in *. simpl. by rewrite bool_decide_eq_false_2.
Qed.

Lemma parse_parts_Ok parts l :
  parse_parts parts = Ok l ↔ l = parts ∧ Forall (λ s, s ≠ "") parts.
Proof.
  revert l. induction parts as [|s parts IH]; intros l; simpl.
  { split; [intros [= <-]|intros [-> _]]; auto. }
  rewrite Forall_cons. case_bool_decide as E; [naive_solver|].
  destruct (parse_parts parts) as [l'|e]; simpl; split.
  - intros [= <-]. destruct (IH l') as [[-> ?] _]; auto.
  - intros [-> [_ Hf]]. destruct (IH parts) as [_ IH']. f_equal. f_equal.
    specialize (IH' (conj eq_refl Hf)). congruence.
  - done.
  - intros [-> [_ Hf]]. destruct (IH parts) as [_ IH']. by specialize (IH' (conj eq_refl Hf)).
Qed.

Lemma ParseSigners_spec b l :
  ParseSigners b = Ok l ↔
    b = EncodeSigners l ∧ Forall (λ s, s ≠ "" ∧ str_elem "," s = false) l.
Proof.
  unfold ParseSigners, EncodeSigners. case_bool_decide as Hlen.
  - apply length_zero_iff_nil in Hlen as ->. split.
    + intros [= <-]. by split.
    + intros [Hl Hf]. destruct Hf as [|s l [Hs _] _]; [done|].
      apply (f_equal string_of_bytes) in Hl. rewrite string_of_bytes_of_string in Hl.
      by destruct s, l.
  - rewrite parse_parts_Ok, Forall_and. split.
    + intros [-> Hne]. split; [|split; [done|apply str_split_no_sep]].
      by rewrite str_join_split, bytes_of_string_of_bytes.
    + intros [-> [Hne Hf]]. rewrite string_of_bytes_of_string.
      rewrite str_split_join; [done| |done]. by intros ->.
Qed.

(** [ParseSigners] and [EncodeSigners] are inverse: a bitmap parses to [l]
    exactly when it is the encoding of [l] and every name of [l] is non-empty
    and free of commas. *)
Theorem ParseSigners_iff b l :
  ParseSigners b = Ok l ↔
    b = EncodeSigners l ∧ Forall (λ s, s ≠ "" ∧ str_elem "," s = false) l.
Proof. apply ParseSigners_spec. Qed.
