(* ===== verification/DataAvailability.v ===== *)
(** * Data availability: encoding, chunks and commitments
    ([src/dataavailability/dataavailability.go]; the erasure code is in [Erasure],
    the samples in [Sampling])

    Transactions are length-prefixed into one byte string, cut into chunks,
    and the chunks are committed to by a Merkle root; a chunk proof is a chunk
    with its Merkle path.  Lengths of slices are Go [int]s below 2^63. *)

From S2P Require Import Prelude GoLib Sha256 Merkle Types Validator SignBytes.

Definition ErrCommitmentMismatch := ErrNew "dataavailability.ErrCommitmentMismatch".
Definition ErrMissingData := ErrNew "dataavailability.ErrMissingData".
Definition ErrInvalidChunkSize := ErrNew "dataavailability.ErrInvalidChunkSize".
Definition ErrInvalidDataShards := ErrNew "dataavailability.ErrInvalidDataShards".
Definition ErrInvalidParityShards := ErrNew "dataavailability.ErrInvalidParityShards".
Definition ErrInvalidChunkProof := ErrNew "dataavailability.ErrInvalidChunkProof".
Definition ErrInsufficientChunks := ErrNew "dataavailability.ErrInsufficientChunks".
Definition ErrTooManyMissing := ErrNew "dataavailability.ErrTooManyMissing".
Definition ErrInvalidEncoding := ErrNew "dataavailability.ErrInvalidEncoding".
Definition ErrInvalidSamplePolicy := ErrNew "dataavailability.ErrInvalidSamplePolicy".
Definition ErrInvalidSampleSet := ErrNew "dataavailability.ErrInvalidSampleSet".

(** The run-time panic of [make] with a size out of range. *)
Definition PanicMakeSlice := ErrNew "runtime.panicmakeslice".

Definition DefaultChunkSize : Z := 1024.
Definition DefaultDataShards : Z := 8.
Definition DefaultParityShards : Z := 2.
Definition maxErasureShards : Z := 255.

(** [dataavailability.Proof] *)
Record DAProof := mkDAProof {
  DA_Commitment : Hash;
  DA_TxCount : Z;
  DA_TotalBytes : Z;
  DA_EncodedSize : Z;
  DA_ChunkSize : Z;
  DA_ChunkCount : Z;
  DA_DataShards : Z;
  DA_ParityShards : Z;
  DA_ParityCount : Z
}.

Record Chunk := mkChunk {
  Chunk_Index : Z;
  Chunk_Data : bytes
}.

Record MerkleSibling := mkSibling {
  Sibling_Hash : Hash;
  Sibling_Left : bool
}.

Record ChunkProof := mkChunkProof {
  CP_Commitment : Hash;
  CP_ChunkSize : Z;
  CP_ChunkCount : Z;
  CP_Index : Z;
  CP_Data : bytes;
  CP_Path : list MerkleSibling
}.

#[global] Instance Chunk_eq_dec : EqDecision Chunk.
Proof. solve_decision. Defined.
#[global] Instance MerkleSibling_eq_dec : EqDecision MerkleSibling.
Proof. solve_decision. Defined.

(** ** Encoding of transactions *)

Definition encodeTransactions (txs : list Tx) : bytes :=
  be64 (Z.of_nat (length txs)) ++
  concat (map (λ tx, be64 (Z.of_nat (length tx)) ++ tx) txs).

(** The loop of [decodeTransactions] on the data after [offset]; [count] is the
    number of transactions still to read.  Each iteration consumes at least the
    8 bytes of a length, so the length of the data is enough fuel: without fuel
    left the data is empty, and the loop reports [ErrInvalidEncoding]. *)
Fixpoint decode_loop (fuel : nat) (count : Z) (data : bytes) : result (list Tx) :=
  if bool_decide (count = 0) then
    check ErrInvalidEncoding (bool_decide (length data = 0%nat)) ≫= λ _, Ok []
  else match fuel with
  | O => Err ErrInvalidEncoding
  | S fuel =>
      if bool_decide (length data < 8)%nat then Err ErrInvalidEncoding
      else
        let size := be_decode (take 8 data) in
        let data := drop 8 data in
        if bool_decide (Z.of_nat (length data) < size) then Err ErrInvalidEncoding
        else cons (take (Z.to_nat size) data) <$>
               decode_loop fuel (count - 1) (drop (Z.to_nat size) data)
  end.

(** [make([]types.Tx, 0, count)]: a slice header takes 24 bytes, and [make]
    panics above the 2^48 bytes the runtime can address. *)
Definition make_txs_ok (count : Z) : bool := bool_decide (count * 24 ≤ 2 ^ 48).

Definition decodeTransactions (data : bytes) : result (list Tx) :=
  if bool_decide (length data < 8)%nat then Err ErrInvalidEncoding
  else
    let count := be_decode (take 8 data) in
    if negb (make_txs_ok count) then Err PanicMakeSlice
    else decode_loop (length data) count (drop 8 data).

(** ** Chunks *)

(** Conversion of an integer to Go's [int]. *)
Definition wrap_int (z : Z) : Z := (z + 2 ^ 63) mod two64 - 2 ^ 63.

Definition splitChunks (data : bytes) (chunkSize : Z) : result (list Chunk) :=
  if bool_decide (chunkSize = 0) || bool_decide (2 ^ 63 - 1 < chunkSize)
  then Err ErrInvalidChunkSize
  else
    let size := chunkSize in
    let len := Z.of_nat (length data) in
    let chunkCount := Z.quot (wrap_int (wrap_int (len + size) - 1)) size in
    let chunkCount := if bool_decide (chunkCount = 0) then 1 else chunkCount in
    if bool_decide (chunkCount < 0) then Err PanicMakeSlice
    else Ok (map (λ index : nat,
      let start := Z.of_nat index * size in
      let end_ := start + size in
      let end_ := if bool_decide (len < end_) then len else end_ in
      mkChunk (Z.of_nat index)
        (take (Z.to_nat (end_ - start)) (drop (Z.to_nat start) data)))
      (seq 0 (Z.to_nat chunkCount))).

Definition BuildChunks (txs : list Tx) (chunkSize : Z) : result (list Chunk) :=
  splitChunks (encodeTransactions txs) chunkSize.

(** ** The Merkle tree of the chunks *)

Definition chunkLeaf_message (chunk : Chunk) : bytes :=
  [x00] ++ be64 (Chunk_Index chunk) ++ be64 (Z.of_nat (length (Chunk_Data chunk))) ++
  Chunk_Data chunk.

Definition chunkLeaf (chunk : Chunk) : Hash := sha256 (chunkLeaf_message chunk).

Definition parentHash_message (left right : Hash) : bytes :=
  [x01] ++ hash_bytes left ++ hash_bytes right.

Definition parentHash (left right : Hash) : Hash := sha256 (parentHash_message left right).

Definition sortChunks (chunks : list Chunk) : list Chunk := sort_by Chunk_Index Z.le chunks.

Definition chunkLeaves (chunks : list Chunk) : list Hash := chunkLeaf <$> sortChunks chunks.

Definition merkleRoot (leaves : list Hash) : Hash :=
  if bool_decide (length leaves = 0%nat) then zero_hash
  else merkle_root parentHash_message true leaves.

(** One iteration of [merklePath]: the sibling of [index], or [index] itself
    when the sibling is past the end of the level. *)
Definition merklePath_step (level : list Hash) (index : nat) : MerkleSibling :=
  let siblingIndex := Nat.lxor index 1 in
  let siblingIndex := if bool_decide (length level ≤ siblingIndex)%nat then index else siblingIndex in
  mkSibling (default zero_hash (level !! siblingIndex)) (bool_decide (siblingIndex < index)%nat).

Fixpoint merklePath_loop (fuel : nat) (level : list Hash) (index : nat) : list MerkleSibling :=
  match fuel with
  | O => []
  | S fuel =>
      if bool_decide (1 < length level)%nat then
        merklePath_step level index ::
        merklePath_loop fuel (level_up parentHash_message true level) (index / 2)
      else []
  end.

Definition merklePath (leaves : list Hash) (target : Z) : list MerkleSibling :=
  merklePath_loop (length leaves) leaves (Z.to_nat target).

Definition chunkRoot (chunks : list Chunk) : Hash := merkleRoot (chunkLeaves chunks).

(** ** Commitments *)

Definition parityGroupCount (chunkCount dataShards : Z) : Z :=
  if bool_decide (chunkCount = 0) || bool_decide (dataShards = 0) then 0
  else wrap64 (wrap64 (chunkCount + dataShards) - 1) / dataShards.

Definition BuildProofWithErasureOptions (txs : list Tx) (chunkSize dataShards parityShards : Z)
    : result DAProof :=
  if bool_decide (dataShards = 0) || bool_decide (maxErasureShards < dataShards)
  then Err ErrInvalidDataShards
  else if bool_decide (parityShards = 0) || bool_decide (maxErasureShards < parityShards)
  then Err ErrInvalidParityShards
  else
    let totalBytes := foldl (λ total tx, wrap64 (total + Z.of_nat (length tx))) 0 txs in
    let encoded := encodeTransactions txs in
    chunks ← splitChunks encoded chunkSize;
    Ok (mkDAProof (chunkRoot chunks) (Z.of_nat (length txs)) totalBytes
          (Z.of_nat (length encoded)) chunkSize (Z.of_nat (length chunks)) dataShards parityShards
          (wrap64 (parityGroupCount (Z.of_nat (length chunks)) dataShards * parityShards))).

Definition BuildProofWithOptions (txs : list Tx) (chunkSize dataShards : Z) : result DAProof :=
  BuildProofWithErasureOptions txs chunkSize dataShards DefaultParityShards.

Definition zero_DAProof : DAProof := mkDAProof zero_hash 0 0 0 0 0 0 0 0.

Definition BuildProof (txs : list Tx) : DAProof :=
  match BuildProofWithOptions txs DefaultChunkSize DefaultDataShards with
  | Ok proof => proof
  | Err _ => zero_DAProof
  end.

Definition Commitment (txs : list Tx) : Hash := DA_Commitment (BuildProof txs).

(** [dataavailability.Verify] *)
Definition DA_Verify (header : Header) (txs : list Tx) : result unit :=
  if bool_decide (Header_ConsensusHash header = zero_hash) then
    check ErrMissingData (bool_decide (length txs = 0%nat))
  else check ErrCommitmentMismatch (bool_decide (Commitment txs = Header_ConsensusHash header)).

Definition set_ConsensusHash (header : Header) (hash : Hash) : Header :=
  mkHeader (Header_ChainID header) (Header_Height header) (Header_TimeUnixNano header)
    (Header_PreviousBlockHash header) (Header_AppHash header)
    (Header_ValidatorSetHash header) hash (Header_TxRoot header).

Definition AttachCommitment (block : Block) : Block :=
  mkBlock (set_ConsensusHash (Block_Header block) (Commitment (Block_Txs block)))
    (Block_Txs block).

(** ** Chunk proofs *)

(** The loop of [BuildChunkProofFromChunks] over the sorted chunks. *)
Fixpoint target_loop (ordered_len : Z) (chunkSize index : Z) (previous : option Z)
    (position : Z) (targetPosition : Z) (chunks : list Chunk) : result Z :=
  match chunks with
  | [] => Ok targetPosition
  | chunk :: chunks =>
      if bool_decide (ordered_len ≤ Chunk_Index chunk) ||
         bool_decide (chunkSize < Z.of_nat (length (Chunk_Data chunk)))
      then Err ErrInvalidChunkProof
      else if bool_decide (previous = Some (Chunk_Index chunk)) then Err ErrInvalidChunkProof
      else target_loop ordered_len chunkSize index (Some (Chunk_Index chunk)) (position + 1)
             (if bool_decide (Chunk_Index chunk = index) then position else targetPosition) chunks
  end.

Definition BuildChunkProofFromChunks (chunks : list Chunk) (chunkSize index : Z)
    : result ChunkProof :=
  if bool_decide (Z.of_nat (length chunks) ≤ index) then Err ErrInvalidChunkProof
  else
    let ordered := sortChunks chunks in
    targetPosition ← target_loop (Z.of_nat (length ordered)) chunkSize index None 0 (-1) ordered;
    if bool_decide (targetPosition < 0) then Err ErrInvalidChunkProof
    else
      let leaves := chunkLeaves ordered in
      match ordered !! Z.to_nat targetPosition with
      | None => Err ErrInvalidChunkProof
      | Some chunk =>
          Ok (mkChunkProof (merkleRoot leaves) chunkSize (Z.of_nat (length ordered)) index
                (Chunk_Data chunk) (merklePath leaves targetPosition))
      end.

Definition BuildChunkProof (txs : list Tx) (chunkSize index : Z) : result ChunkProof :=
  chunks ← BuildChunks txs chunkSize;
  BuildChunkProofFromChunks chunks chunkSize index.

Definition chunk_path_step (hash : Hash) (sibling : MerkleSibling) : Hash :=
  if Sibling_Left sibling then parentHash (Sibling_Hash sibling) hash
  else parentHash hash (Sibling_Hash sibling).

Definition VerifyChunkProof (proof : ChunkProof) : result unit :=
  if bool_decide (CP_ChunkSize proof = 0) || bool_decide (CP_ChunkCount proof = 0) ||
     bool_decide (CP_ChunkCount proof ≤ CP_Index proof) ||
     bool_decide (CP_ChunkSize proof < Z.of_nat (length (CP_Data proof)))
  then Err ErrInvalidChunkProof
  else
    let hash := chunkLeaf (mkChunk (CP_Index proof) (CP_Data proof)) in
    let hash := foldl chunk_path_step hash (CP_Path proof) in
    check ErrInvalidChunkProof (bool_decide (hash = CP_Commitment proof)).

(** ** Encoding round trip *)

(** The sizes fit Go's integers, and [make] accepts the transaction count. *)
Definition txs_wf (txs : list Tx) : Prop :=
  Forall (λ tx, Z.of_nat (length tx) < two64) txs ∧ Z.of_nat (length txs) * 24 ≤ 2 ^ 48.

Lemma decode_loop_encode txs fuel :
  Forall (λ tx, Z.of_nat (length tx) < two64) txs → (length txs ≤ fuel)%nat →
  decode_loop fuel (Z.of_nat (length txs))
    (concat (map (λ tx, be64 (Z.of_nat (length tx)) ++ tx) txs)) = Ok txs.
Proof.
  intros Hf. revert fuel. induction Hf as [|tx txs Htx Hf IH]; intros fuel Hfuel;
    cbn [map concat length] in *; [by destruct fuel|].
  destruct fuel as [|fuel]; [lia|]. cbn [decode_loop].
  rewrite bool_decide_eq_false_2 by lia.
  rewrite bool_decide_eq_false_2 by (rewrite !length_app, be64_length; lia).
  rewrite <-!app_assoc, take_app_length', drop_app_length' by (by rewrite be64_length).
  rewrite be64_decode by (unfold is_u64; lia).
  rewrite bool_decide_eq_false_2 by (rewrite length_app; lia).
  rewrite Nat2Z.id, take_app_length, drop_app_length.
  replace (Z.of_nat (S (length txs)) - 1) with (Z.of_nat (length txs)) by lia.
  by rewrite IH by lia.
Qed.

Lemma decode_encode txs :
  txs_wf txs → decodeTransactions (encodeTransactions txs) = Ok txs.
Proof.
  intros [Hf Hn]. unfold decodeTransactions, encodeTransactions.
  rewrite bool_decide_eq_false_2 by (rewrite length_app, be64_length; lia).
  rewrite take_app_length', drop_app_length' by (by rewrite be64_length).
  rewrite be64_decode by (unfold is_u64, two64; lia).
  unfold make_txs_ok. rewrite bool_decide_eq_true_2 by done. cbn [negb].
  apply decode_loop_encode; [done|]. rewrite length_app, be64_length.
  clear. induction txs as [|tx txs IH]; cbn [map concat length]; [lia|].
  rewrite !length_app, be64_length. lia.
Qed.

(** Decoding undoes encoding: a transaction list that fits the machine's
    sizes is recovered exactly from its encoding. *)
Theorem decode_encode_transactions txs :
  txs_wf txs → decodeTransactions (encodeTransactions txs) = Ok txs.
Proof. apply decode_encode. Qed.

Lemma encodeTransactions_inj txs1 txs2 :
  txs_wf txs1 → txs_wf txs2 →
  encodeTransactions txs1 = encodeTransactions txs2 → txs1 = txs2.
Proof.
  intros [H1 _] [H2 _] Heq. unfold encodeTransactions in Heq.
  apply app_inj_1 in Heq as [_ Heq]; [|by rewrite !be64_length].
  by apply TxRoot_message_inj.
Qed.

(** ** Chunking *)

(** Chunk [i] of size [s]. *)
Definition chunk_at (data : bytes) (s i : nat) : Chunk :=
  mkChunk (Z.of_nat i) (take s (drop (i * s) data)).

(** The number of chunks of [splitChunks]. *)
Definition chunk_count (len size : Z) : Z := Z.max 1 ((len + size - 1) / size).

Lemma splitChunks_eq data size :
  0 < size → Z.of_nat (length data) + size < 2 ^ 63 →
  splitChunks data size =
    Ok (map (chunk_at data (Z.to_nat size))
          (seq 0 (Z.to_nat (chunk_count (Z.of_nat (length data)) size)))).
Proof.
  intros Hs Hl. unfold splitChunks.
  rewrite (bool_decide_eq_false_2 (size = 0)), (bool_decide_eq_false_2 (_ < size)) by lia.
  cbn [orb]. set (len := Z.of_nat (length data)) in *.
  assert (∀ z, 0 ≤ z < 2 ^ 63 → wrap_int z = z) as Hw.
  { intros z Hz. unfold wrap_int, two64. rewrite Z.mod_small; lia. }
  rewrite (Hw (len + size)), (Hw (len + size - 1)), Z.quot_div_nonneg by lia.
  pose proof (Z.div_pos (len + size - 1) size ltac:(lia) Hs) as Hq.
  assert ((if bool_decide ((len + size - 1) / size = 0) then 1 else (len + size - 1) / size) =
    chunk_count len size) as -> by (unfold chunk_count; case_bool_decide; lia).
  rewrite bool_decide_eq_false_2 by (unfold chunk_count; lia). f_equal.
  apply map_ext. intros i. unfold chunk_at. f_equal.
  replace (Z.to_nat (Z.of_nat i * size)) with (i * Z.to_nat size)%nat by nia.
  case_bool_decide as Hend.
  - rewrite !take_ge; [done|rewrite length_drop; subst len; nia..].
  - f_equal. lia.
Qed.

Lemma concat_chunks (data : bytes) s n :
  (length data ≤ n * s)%nat →
  concat (map (λ i, take s (drop (i * s) data)) (seq 0 n)) = data.
Proof.
  revert data. induction n as [|n IH]; intros data Hl.
  { by destruct data; simpl in *; [|lia]. }
  rewrite <-cons_seq, <-seq_shift. cbn [map concat]. rewrite drop_0, map_map.
  rewrite (map_ext _ (λ i, take s (drop (i * s) (drop s data)))).
  - rewrite IH by (rewrite length_drop; lia). apply take_drop.
  - intros i. rewrite drop_drop. by replace (S i * s)%nat with (s + i * s)%nat by lia.
Qed.

Lemma chunk_count_enough len size :
  0 ≤ len → 0 < size → len ≤ chunk_count len size * size.
Proof.
  intros Hl Hs. unfold chunk_count.
  pose proof (Z.div_mod (len + size - 1) size ltac:(lia)).
  pose proof (Z.mod_pos_bound (len + size - 1) size Hs). nia.
Qed.

Lemma chunks_concat data size :
  0 < size →
  concat (map Chunk_Data (map (chunk_at data (Z.to_nat size))
    (seq 0 (Z.to_nat (chunk_count (Z.of_nat (length data)) size))))) = data.
Proof.
  intros Hs. rewrite map_map. cbn [chunk_at Chunk_Data].
  apply (concat_chunks data (Z.to_nat size)).
  pose proof (chunk_count_enough (Z.of_nat (length data)) size). nia.
Qed.

Lemma chunks_index data s n :
  Chunk_Index <$> map (chunk_at data s) (seq 0 n) = Z.of_nat <$> seq 0 n.
Proof. induction (seq 0 n) as [|i l IH]; [done|]. csimpl. by rewrite IH. Qed.

Lemma seq_Z_sorted i n : StronglySorted Z.le (Z.of_nat <$> seq i n).
Proof.
  revert i. induction n as [|n IH]; intros i; simpl; constructor; [apply IH|].
  apply Forall_forall. intros z (k & -> & Hk)%list_elem_of_fmap.
  apply elem_of_seq in Hk. lia.
Qed.

Lemma seq_Z_nodup i n : NoDup (Z.of_nat <$> seq i n).
Proof. apply NoDup_fmap_2; [intros ??; lia|apply NoDup_seq]. Qed.

Lemma chunks_sorted data s n :
  sortChunks (map (chunk_at data s) (seq 0 n)) = map (chunk_at data s) (seq 0 n).
Proof.
  apply sort_by_id; [apply _..|by rewrite chunks_index; apply seq_Z_nodup|].
  pose proof (seq_Z_sorted 0 n) as Hs. rewrite <-(chunks_index data s n) in Hs.
  revert Hs. generalize (map (chunk_at data s) (seq 0 n)) as l.
  induction l as [|c l IH]; intros Hs; [constructor|].
  csimpl in Hs. apply StronglySorted_cons in Hs as [Hf Hs]. constructor; [by apply IH|].
  rewrite Forall_fmap in Hf. exact Hf.
Qed.

(** ** The chunk tree *)

Definition to_step (s : MerkleSibling) : bool * Hash := (Sibling_Left s, Sibling_Hash s).

Lemma testbit_1_succ n : Nat.testbit 1 (S n) = false.
Proof. change 1%nat with (2 * 0 + 1)%nat. rewrite Nat.testbit_odd_succ by lia. apply Nat.bits_0. Qed.

Lemma lxor_1 i : Nat.lxor i 1 = if Nat.even i then S i else (i - 1)%nat.
Proof.
  destruct (Nat.even i) eqn:He.
  - apply Nat.even_spec in He as [k ->]. replace (S (2 * k)) with (2 * k + 1)%nat by lia.
    apply Nat.bits_inj. intros [|n]; rewrite Nat.lxor_spec.
    + by rewrite Nat.testbit_even_0, Nat.testbit_odd_0.
    + rewrite testbit_1_succ, Nat.testbit_even_succ, Nat.testbit_odd_succ by lia.
      by rewrite xorb_false_r.
  - rewrite <-Nat.negb_odd in He. apply negb_false_iff, Nat.odd_spec in He as [k ->].
    replace (2 * k + 1 - 1)%nat with (2 * k)%nat by lia.
    apply Nat.bits_inj. intros [|n]; rewrite Nat.lxor_spec.
    + by rewrite Nat.testbit_even_0, Nat.testbit_odd_0.
    + rewrite testbit_1_succ, Nat.testbit_even_succ, Nat.testbit_odd_succ by lia.
      by rewrite xorb_false_r.
Qed.

Lemma merklePath_step_eq level i :
  (i < length level)%nat → [to_step (merklePath_step level i)] = path_step true level i.
Proof.
  intros Hi. unfold merklePath_step, path_step, to_step. rewrite lxor_1.
  destruct (Nat.even i) eqn:He; cbn [Sibling_Left Sibling_Hash].
  - destruct (level !! S i) as [h|] eqn:El.
    + apply lookup_lt_Some in El as Hlt. rewrite !(bool_decide_eq_false_2 (_ ≤ _)%nat) by lia.
      by rewrite El, bool_decide_eq_false_2 by lia.
    + apply lookup_ge_None in El. rewrite !(bool_decide_eq_true_2 (_ ≤ _)%nat) by lia.
      by rewrite bool_decide_eq_false_2 by lia.
  - destruct i as [|i]; [done|]. rewrite !(bool_decide_eq_false_2 (_ ≤ _)%nat) by lia.
    by rewrite bool_decide_eq_true_2 by lia.
Qed.

Lemma merklePath_loop_eq fuel level i :
  (i < length level)%nat →
  to_step <$> merklePath_loop fuel level i = path_loop parentHash_message true fuel level i.
Proof.
  revert level i. induction fuel as [|fuel IH]; intros level i Hi; [done|].
  cbn [merklePath_loop path_loop]. case_bool_decide as Hl; [|done].
  rewrite <-merklePath_step_eq by done. rewrite fmap_cons, IH; [done|].
  rewrite level_up_length. apply Nat.Div0.div_lt_upper_bound.
  pose proof (Nat.div_mod (length level + 1) 2). pose proof (Nat.mod_upper_bound (length level + 1) 2).
  lia.
Qed.

Lemma chunk_path_fold h path :
  foldl chunk_path_step h path = apply_path parentHash_message h (to_step <$> path).
Proof.
  unfold apply_path. revert h. induction path as [|[s []] path IH]; intros h; [done|..];
    csimpl; by rewrite IH.
Qed.

Lemma parentHash_message_inj a b c d :
  parentHash_message a b = parentHash_message c d → a = c ∧ b = d.
Proof.
  unfold parentHash_message. intros Heq. apply app_inv_head in Heq. split_bytes Heq.
  apply (inj hash_bytes) in Hb. by apply (inj hash_bytes) in Heq.
Qed.

Lemma chunkLeaf_message_inj c1 c2 :
  is_u64 (Chunk_Index c1) → is_u64 (Chunk_Index c2) →
  chunkLeaf_message c1 = chunkLeaf_message c2 → c1 = c2.
Proof.
  unfold chunkLeaf_message. intros H1 H2 Heq. apply app_inv_head in Heq.
  split_bytes Heq. split_bytes Heq. apply be64_inj in Hb; [|done..].
  destruct c1, c2. simpl in *. by subst.
Qed.

Lemma chunkLeaf_not_parent c a b : chunkLeaf_message c ≠ parentHash_message a b.
Proof. by unfold chunkLeaf_message, parentHash_message. Qed.

(** The messages hashed to commit to a list of chunks. *)
Definition chunk_messages (chunks : list Chunk) : list bytes :=
  let leaf_msgs := chunkLeaf_message <$> chunks in
  leaf_msgs ++ tree_messages parentHash_message true (length leaf_msgs) (sha256 <$> leaf_msgs).

Lemma chunkLeaves_eq data s n :
  chunkLeaves (map (chunk_at data s) (seq 0 n)) =
    sha256 <$> (chunkLeaf_message <$> map (chunk_at data s) (seq 0 n)).
Proof.
  unfold chunkLeaves. rewrite chunks_sorted. apply (list_fmap_compose chunkLeaf_message sha256).
Qed.

Lemma chunkRoot_eq data s n :
  (0 < n)%nat →
  chunkRoot (map (chunk_at data s) (seq 0 n)) =
    merkle_root parentHash_message true
      (sha256 <$> (chunkLeaf_message <$> map (chunk_at data s) (seq 0 n))).
Proof.
  intros Hn. unfold chunkRoot, merkleRoot. rewrite chunkLeaves_eq.
  rewrite bool_decide_eq_false_2; [done|]. rewrite !length_fmap, length_seq. lia.
Qed.

Lemma VerifyChunkProof_Ok p :
  VerifyChunkProof p = Ok tt ↔
    0 ≠ CP_ChunkSize p ∧ 0 ≠ CP_ChunkCount p ∧ CP_Index p < CP_ChunkCount p ∧
    Z.of_nat (length (CP_Data p)) ≤ CP_ChunkSize p ∧
    apply_path parentHash_message (chunkLeaf (mkChunk (CP_Index p) (CP_Data p)))
      (to_step <$> CP_Path p) = CP_Commitment p.
Proof.
  unfold VerifyChunkProof. rewrite chunk_path_fold. split.
  - intros H. destruct (_ || _) eqn:E in H; [done|].
    repeat (apply orb_false_iff in E as [E ?]). rewrite !bool_decide_eq_false in *.
    apply check_Ok in H. rewrite bool_decide_eq_true in H. split_and!; (done || lia).
  - intros (H1 & H2 & H3 & H4 & H5).
    rewrite (bool_decide_eq_true_2 _ H5), !bool_decide_eq_false_2 by lia. done.
Qed.

(** ** Chunk proofs are complete *)

Lemma target_loop_seq data s len size index i n previous target :
  Z.of_nat (i + n) ≤ len → Z.of_nat s ≤ size →
  (previous = None ∨ previous = Some (Z.of_nat i - 1)) →
  target_loop len size index previous (Z.of_nat i) target (map (chunk_at data s) (seq i n)) =
    Ok (if bool_decide (Z.of_nat i ≤ index < Z.of_nat (i + n)) then index else target).
Proof.
  revert i previous target. induction n as [|n IH]; intros i previous target Hlen Hs Hp.
  { simpl. rewrite bool_decide_eq_false_2 by lia. done. }
  cbn [seq map target_loop]. cbn [chunk_at Chunk_Index Chunk_Data].
  rewrite bool_decide_eq_false_2 by lia.
  rewrite (bool_decide_eq_false_2 (size < _)) by (rewrite length_take; lia).
  rewrite (bool_decide_eq_false_2 (previous = _)) by (intros ->; destruct Hp; simplify_eq; lia).
  cbn [orb]. replace (Z.of_nat i + 1) with (Z.of_nat (S i)) by lia.
  rewrite IH by (lia || (right; f_equal; lia)). f_equal.
  repeat case_bool_decide; lia.
Qed.

Lemma chunks_lookup data s n i :
  (i < n)%nat → map (chunk_at data s) (seq 0 n) !! i = Some (chunk_at data s i).
Proof.
  intros Hi. change (map (chunk_at data s) (seq 0 n)) with (chunk_at data s <$> seq 0 n).
  by rewrite list_lookup_fmap, lookup_seq_lt by done.
Qed.

Lemma BuildChunkProofFromChunks_eq data s n size index :
  Z.of_nat s ≤ size → 0 ≤ index < Z.of_nat n →
  let chunks := map (chunk_at data s) (seq 0 n) in
  BuildChunkProofFromChunks chunks size index =
    Ok (mkChunkProof (chunkRoot chunks) size (Z.of_nat n) index
          (take s (drop (Z.to_nat index * s) data)) (merklePath (chunkLeaves chunks) index)).
Proof.
  intros Hs Hi chunks.
  assert (length chunks = n) as Hlen by (unfold chunks; by rewrite length_map, length_seq).
  unfold BuildChunkProofFromChunks.
  assert (sortChunks chunks = chunks) as -> by apply chunks_sorted.
  rewrite Hlen, (bool_decide_eq_false_2 (_ ≤ index)) by lia.
  pose proof (target_loop_seq data s (Z.of_nat n) size index 0 n None (-1)) as Ht.
  cbn [Nat.add] in Ht. change (Z.of_nat 0) with 0 in Ht.
  fold chunks in Ht. rewrite Ht by (lia || by left). cbn [mbind result_bind].
  rewrite (bool_decide_eq_true_2 (0 ≤ index < _)) by lia.
  rewrite (bool_decide_eq_false_2 (index < 0)) by lia.
  assert (chunks !! Z.to_nat index = Some (chunk_at data s (Z.to_nat index))) as ->; [|done].
  apply chunks_lookup. lia.
Qed.

Lemma merklePath_verifies data s n index :
  0 ≤ index < Z.of_nat n →
  let chunks := map (chunk_at data s) (seq 0 n) in
  apply_path parentHash_message (chunkLeaf (chunk_at data s (Z.to_nat index)))
    (to_step <$> merklePath (chunkLeaves chunks) index) = chunkRoot chunks.
Proof.
  intros Hi chunks.
  assert (length (chunkLeaves chunks) = n) as Hlen.
  { unfold chunkLeaves, chunks. by rewrite chunks_sorted, length_fmap, length_map, length_seq. }
  unfold merklePath. rewrite merklePath_loop_eq by lia. unfold chunkRoot, merkleRoot.
  rewrite bool_decide_eq_false_2 by lia. apply merkle_path_complete.
  unfold chunkLeaves, chunks. rewrite chunks_sorted, list_lookup_fmap.
  by rewrite chunks_lookup by lia.
Qed.

(** The proof that is built for a chunk. *)
Lemma chunk_proof_built txs size index :
  0 < size → Z.of_nat (length (encodeTransactions txs)) + size < 2 ^ 63 →
  let data := encodeTransactions txs in
  let n := chunk_count (Z.of_nat (length data)) size in
  0 ≤ index < n →
  ∃ p, BuildChunkProof txs size index = Ok p ∧ VerifyChunkProof p = Ok tt ∧
    CP_Commitment p = chunkRoot (map (chunk_at data (Z.to_nat size)) (seq 0 (Z.to_nat n))) ∧
    CP_ChunkCount p = n ∧ CP_Index p = index ∧
    CP_Data p = take (Z.to_nat size) (drop (Z.to_nat (index * size)) data).
Proof.
  intros Hs Hl data n Hi. unfold BuildChunkProof, BuildChunks. fold data.
  rewrite splitChunks_eq by done. fold n. set (s := Z.to_nat size) in *. cbn [mbind result_bind].
  rewrite BuildChunkProofFromChunks_eq by lia. eexists. split; [done|].
  cbn [CP_Commitment CP_ChunkCount CP_Index CP_Data]. split_and!; [|done|lia|done|].
  - apply VerifyChunkProof_Ok. cbn [CP_ChunkSize CP_ChunkCount CP_Index CP_Data CP_Path CP_Commitment].
    split_and!; [lia|lia|lia|rewrite length_take; lia|].
    pose proof (merklePath_verifies data s (Z.to_nat n) index ltac:(lia)) as Hv.
    cbv zeta in Hv. unfold chunk_at at 1 in Hv. by rewrite Z2Nat.id in Hv by lia.
  - do 2 f_equal. unfold s. lia.
Qed.

(** Chunk proofs are complete: for every chunk of a transaction list,
    [BuildChunkProof] returns a proof that verifies, whose data is that chunk
    and whose commitment is the one of [BuildProofWithErasureOptions]. *)
Theorem chunk_proof_complete txs size index dataShards parityShards :
  0 < size → Z.of_nat (length (encodeTransactions txs)) + size < 2 ^ 63 →
  0 < dataShards ≤ maxErasureShards → 0 < parityShards ≤ maxErasureShards →
  0 ≤ index < chunk_count (Z.of_nat (length (encodeTransactions txs))) size →
  ∃ p proof, BuildChunkProof txs size index = Ok p ∧ VerifyChunkProof p = Ok tt ∧
    BuildProofWithErasureOptions txs size dataShards parityShards = Ok proof ∧
    CP_Commitment p = DA_Commitment proof ∧ CP_ChunkCount p = DA_ChunkCount proof ∧
    CP_Index p = index ∧
    CP_Data p = take (Z.to_nat size)
                  (drop (Z.to_nat (index * size)) (encodeTransactions txs)).
Proof.
  intros Hs Hl Hd Hp Hi. destruct (chunk_proof_built txs size index Hs Hl Hi) as (p & Hb & Hv & Hc & Hn & Hidx & Hdata).
  unfold BuildProofWithErasureOptions, maxErasureShards in *. rewrite splitChunks_eq, !bool_decide_eq_false_2 by lia.
  eexists p, _. split_and!; [done|done|done|done| |done|done].
  rewrite Hn. cbn [DA_ChunkCount]. rewrite length_map, length_seq. lia.
Qed.

(** ** Chunk proofs are sound, and commitments bind *)

Lemma chunk_count_bound len size :
  0 ≤ len → 0 < size → chunk_count len size ≤ len + 1.
Proof.
  intros Hl Hs. unfold chunk_count.
  pose proof (Z.div_mod (len + size - 1) size ltac:(lia)).
  pose proof (Z.mod_pos_bound (len + size - 1) size Hs).
  destruct (decide ((len + size - 1) / size ≤ len + 1)); [lia|]. nia.
Qed.

Lemma chunk_path_sound data s n c path :
  (0 < n)%nat → Z.of_nat n < two64 → is_u64 (Chunk_Index c) →
  let chunks := map (chunk_at data s) (seq 0 n) in
  apply_path parentHash_message (chunkLeaf c) path = chunkRoot chunks →
  c ∈ chunks ∨
  collision (chunkLeaf_message c :: path_messages parentHash_message (chunkLeaf c) path)
    (chunk_messages chunks).
Proof.
  intros Hn Hlt Hc chunks Hpath. unfold chunks in Hpath.
  rewrite chunkRoot_eq in Hpath by done. fold chunks in Hpath.
  apply (merkle_path_sound parentHash_message true parentHash_message_inj) in Hpath
    as [Hin|Hcol].
  - left. apply list_elem_of_fmap in Hin as (c' & Heq & Hin).
    apply chunkLeaf_message_inj in Heq; [by subst|done|].
    unfold chunks in Hin. apply list_elem_of_lookup_1 in Hin as [i Hi].
    pose proof (lookup_lt_Some _ _ _ Hi) as Hlen. rewrite length_map, length_seq in Hlen.
    rewrite chunks_lookup in Hi by done. injection Hi as <-. simpl. unfold is_u64. lia.
  - by right.
  - intros Hnil%fmap_nil_inv. unfold chunks in Hnil. apply map_eq_nil in Hnil.
    by destruct n; [lia|].
  - intros ml a b Hml. rewrite elem_of_cons in Hml. destruct Hml as [->|Hml].
    + apply chunkLeaf_not_parent.
    + apply list_elem_of_fmap in Hml as (c' & -> & _). apply chunkLeaf_not_parent.
Qed.

(** Chunk proofs are sound: a proof that verifies against the commitment
    of a transaction list carries exactly the chunk of that list at its index,
    unless the messages hashed by the proof and by the commitment contain a
    SHA-256 collision. *)
Theorem chunk_proof_sound txs size chunks p :
  0 < size → Z.of_nat (length (encodeTransactions txs)) + size < 2 ^ 63 →
  BuildChunks txs size = Ok chunks →
  is_u64 (CP_Index p) →
  VerifyChunkProof p = Ok tt → CP_Commitment p = chunkRoot chunks →
  let c := mkChunk (CP_Index p) (CP_Data p) in
  c ∈ chunks ∨
  collision (chunkLeaf_message c ::
             path_messages parentHash_message (chunkLeaf c) (to_step <$> CP_Path p))
    (chunk_messages chunks).
Proof.
  intros Hs Hl Hb Hidx (_ & _ & _ & _ & Hpath)%VerifyChunkProof_Ok Hcom c.
  unfold BuildChunks in Hb. rewrite splitChunks_eq in Hb by done. apply (inj Ok) in Hb.
  rewrite Hcom, <-Hb in Hpath. rewrite <-Hb.
  pose proof (chunk_count_bound (Z.of_nat (length (encodeTransactions txs))) size
    ltac:(lia) Hs) as Hcb.
  apply chunk_path_sound; [unfold chunk_count; lia|unfold two64; lia|done|done].
Qed.

Lemma chunk_root_subset data1 s1 n1 data2 s2 n2 :
  (0 < n1)%nat → (0 < n2)%nat → Z.of_nat n1 < two64 → Z.of_nat n2 < two64 →
  let chunks1 := map (chunk_at data1 s1) (seq 0 n1) in
  let chunks2 := map (chunk_at data2 s2) (seq 0 n2) in
  chunkRoot chunks1 = chunkRoot chunks2 →
  chunks1 ⊆ chunks2 ∨ collision (chunk_messages chunks1) (chunk_messages chunks2).
Proof.
  intros Hn1 Hn2 Hu1 Hu2 chunks1 chunks2 Hroot.
  destruct (decide (Forall (.∈ chunks2) chunks1)) as [Hall|Hnot].
  { left. intros c Hc. rewrite Forall_forall in Hall. by apply Hall. }
  right. apply not_Forall_Exists in Hnot; [|intros ?; apply _].
  apply Exists_exists in Hnot as (c & Hin & Hc).
  apply list_elem_of_lookup_1 in Hin as [i Hi].
  pose proof (lookup_lt_Some _ _ _ Hi) as Hlen. unfold chunks1 in Hlen.
  rewrite length_map, length_seq in Hlen. unfold chunks1 in Hi.
  rewrite chunks_lookup in Hi by done. injection Hi as <-.
  pose proof (merklePath_verifies data1 s1 n1 (Z.of_nat i) ltac:(lia)) as Hv.
  cbv zeta in Hv. rewrite Nat2Z.id in Hv. fold chunks1 in Hv. rewrite Hroot in Hv.
  apply chunk_path_sound in Hv as [Hin|Hcol];
    [done| |done|done|simpl; unfold is_u64; lia].
  eapply collision_mono; [|done|exact Hcol]. unfold chunk_messages. intros m Hm.
  assert (chunks1 !! i = Some (chunk_at data1 s1 i)) as Hci by (by apply chunks_lookup).
  rewrite elem_of_cons in Hm. destruct Hm as [->|Hm]; apply elem_of_app.
  - left. apply list_elem_of_fmap_2. by eapply list_elem_of_lookup_2.
  - right. unfold merklePath, chunks1 in Hm. rewrite chunkLeaves_eq in Hm. fold chunks1 in Hm.
    rewrite length_fmap, Nat2Z.id, merklePath_loop_eq in Hm.
    + eapply path_loop_messages; [|exact Hm]. by rewrite !list_lookup_fmap, Hci.
    + unfold chunks1. rewrite !length_fmap, length_seq. lia.
Qed.

(** Two chunkings with the same indices and members are the same. *)
Lemma chunks_subset_eq data1 s1 n1 data2 s2 n2 :
  let chunks1 := map (chunk_at data1 s1) (seq 0 n1) in
  let chunks2 := map (chunk_at data2 s2) (seq 0 n2) in
  chunks1 ⊆ chunks2 → chunks2 ⊆ chunks1 → chunks1 = chunks2.
Proof.
  intros chunks1 chunks2 H12 H21.
  transitivity (sortChunks chunks1); [symmetry; apply chunks_sorted|].
  transitivity (sortChunks chunks2); [|apply chunks_sorted].
  assert (∀ d s n, NoDup (Chunk_Index <$> map (chunk_at d s) (seq 0 n))) as Hnd.
  { intros. rewrite chunks_index. apply seq_Z_nodup. }
  apply sort_by_unique; [apply _..|apply Hnd|].
  apply NoDup_Permutation; [eapply NoDup_fmap_1, Hnd..|].
  intros c. split; auto.
Qed.

(** The messages hashed by [Commitment]. *)
Definition commitment_messages (txs : list Tx) : list bytes :=
  match BuildChunks txs DefaultChunkSize with
  | Ok chunks => chunk_messages chunks
  | Err _ => []
  end.

(** The chunks of the default commitment. *)
Definition default_count (txs : list Tx) : nat :=
  Z.to_nat (chunk_count (Z.of_nat (length (encodeTransactions txs))) DefaultChunkSize).
Definition default_chunks (txs : list Tx) : list Chunk :=
  map (chunk_at (encodeTransactions txs) (Z.to_nat DefaultChunkSize)) (seq 0 (default_count txs)).

Lemma Commitment_eq txs :
  Z.of_nat (length (encodeTransactions txs)) < 2 ^ 62 →
  Commitment txs = chunkRoot (default_chunks txs) ∧
  commitment_messages txs = chunk_messages (default_chunks txs).
Proof.
  intros Hl. unfold commitment_messages, Commitment, BuildProof, BuildProofWithOptions,
    BuildProofWithErasureOptions, BuildChunks.
  rewrite splitChunks_eq by (unfold DefaultChunkSize; lia). done.
Qed.

Lemma default_count_bounds txs :
  Z.of_nat (length (encodeTransactions txs)) < 2 ^ 62 →
  (0 < default_count txs)%nat ∧ Z.of_nat (default_count txs) < two64.
Proof.
  intros Hl. unfold default_count.
  pose proof (chunk_count_bound (Z.of_nat (length (encodeTransactions txs))) DefaultChunkSize) as Hb.
  specialize (Hb ltac:(lia) ltac:(done)). unfold two64.
  assert (1 ≤ chunk_count (Z.of_nat (length (encodeTransactions txs))) DefaultChunkSize)
    by (unfold chunk_count; lia). lia.
Qed.

(** The data-availability commitment of a block header binds the
    transaction list: two lists accepted by [Verify] for the same non-zero
    commitment are equal, or hashing them exhibits a SHA-256 collision. *)
Theorem commitment_binds header txs1 txs2 :
  Header_ConsensusHash header ≠ zero_hash →
  txs_wf txs1 → txs_wf txs2 →
  Z.of_nat (length (encodeTransactions txs1)) < 2 ^ 62 →
  Z.of_nat (length (encodeTransactions txs2)) < 2 ^ 62 →
  DA_Verify header txs1 = Ok tt → DA_Verify header txs2 = Ok tt →
  txs1 = txs2 ∨ collision (commitment_messages txs1) (commitment_messages txs2)
              ∨ collision (commitment_messages txs2) (commitment_messages txs1).
Proof.
  intros Hz Hw1 Hw2 Hl1 Hl2 Hv1 Hv2. unfold DA_Verify in Hv1, Hv2.
  rewrite bool_decide_eq_false_2 in Hv1, Hv2 by done.
  apply check_Ok in Hv1, Hv2. rewrite bool_decide_eq_true in Hv1, Hv2.
  destruct (Commitment_eq txs1 Hl1) as [Hc1 ->]. destruct (Commitment_eq txs2 Hl2) as [Hc2 ->].
  destruct (default_count_bounds txs1 Hl1) as [Hn1 Hu1].
  destruct (default_count_bounds txs2 Hl2) as [Hn2 Hu2].
  assert (chunkRoot (default_chunks txs1) = chunkRoot (default_chunks txs2)) as Hc by congruence.
  destruct (chunk_root_subset _ _ _ _ _ _ Hn1 Hn2 Hu1 Hu2 Hc) as [H12|]; [|by right; left].
  destruct (chunk_root_subset _ _ _ _ _ _ Hn2 Hn1 Hu2 Hu1 (eq_sym Hc)) as [H21|];
    [|by right; right].
  left. apply encodeTransactions_inj; [done..|].
  pose proof (chunks_subset_eq _ _ _ _ _ _ H12 H21) as Heq. cbv zeta in Heq.
  rewrite <-(chunks_concat (encodeTransactions txs1) DefaultChunkSize) by done.
  rewrite <-(chunks_concat (encodeTransactions txs2) DefaultChunkSize) by done.
  unfold default_count in Heq. by rewrite Heq.
Qed.

(** What building a proof for [txs] gives. *)
Lemma BuildProof_inv txs size ds ps proof :
  0 < size → Z.of_nat (length (encodeTransactions txs)) + size < 2 ^ 63 → is_u64 ds → is_u64 ps →
  BuildProofWithErasureOptions txs size ds ps = Ok proof →
  let data := encodeTransactions txs in
  let n := chunk_count (Z.of_nat (length data)) size in
  0 < ds ≤ maxErasureShards ∧ 0 < ps ≤ maxErasureShards ∧
  BuildChunks txs size = Ok (map (chunk_at data (Z.to_nat size)) (seq 0 (Z.to_nat n))) ∧
  ∃ total, proof = mkDAProof (chunkRoot (map (chunk_at data (Z.to_nat size)) (seq 0 (Z.to_nat n))))
    (Z.of_nat (length txs)) total (Z.of_nat (length data)) size n ds ps (wrap64 (parityGroupCount n ds * ps)).
Proof.
  intros Hs Hfit Hds Hps Hb data n. unfold BuildProofWithErasureOptions in Hb. unfold is_u64 in *.
  destruct (_ || _) eqn:E1 in Hb; [done|]. apply orb_false_iff in E1 as [E1 E2].
  destruct (_ || _) eqn:E3 in Hb; [done|]. apply orb_false_iff in E3 as [E3 E4].
  rewrite !bool_decide_eq_false in *. unfold BuildChunks. fold data in Hb |- *.
  rewrite splitChunks_eq in Hb |- * by (done || unfold data; lia). fold n in Hb |- *.
  cbn [mbind result_bind] in Hb. injection Hb as <-.
  assert (Z.of_nat (length (map (chunk_at data (Z.to_nat size)) (seq 0 (Z.to_nat n)))) = n) as Hn.
  { rewrite length_map, length_seq. unfold n, chunk_count. lia. }
  rewrite Hn. split_and!; [lia..|done|]. by eexists.
Qed.

(** ** Concrete data *)

Module AvailabilityExample.
Definition txs : list Tx := [[x61; x62; x63]; []; [x64]].
Definition chunk_size : Z := 16.
Definition proof2 : ChunkProof :=
  match BuildChunkProof txs chunk_size 2 with
  | Ok p => p
  | Err _ => mkChunkProof zero_hash 0 0 0 [] []
  end.
Definition chunks : list Chunk :=
  match BuildChunks txs chunk_size with Ok c => c | Err _ => [] end.
Definition header : Header :=
  set_ConsensusHash (mkHeader "vexo" 1 0 zero_hash zero_hash zero_hash zero_hash zero_hash)
    (Commitment txs).

Lemma txs_are_wf : txs_wf txs.
Proof. split; [by repeat constructor|by vm_compute]. Qed.
End AvailabilityExample.
Import AvailabilityExample.

Lemma decode_encode_transactions_witness :
  decodeTransactions (encodeTransactions txs) = Ok txs.
Proof. exact (decode_encode_transactions txs txs_are_wf). Defined.

Lemma chunk_proof_complete_witness :
  ∃ p, BuildChunkProof txs chunk_size 2 = Ok p ∧ VerifyChunkProof p = Ok tt.
Proof.
  destruct (chunk_proof_complete txs chunk_size 2 8 2) as (p & proof & H1 & H2 & _).
  - reflexivity.
  - by vm_compute.
  - by vm_compute.
  - by vm_compute.
  - by vm_compute.
  - exists p. split; [exact H1|exact H2].
Defined.

Lemma chunk_proof_sound_witness :
  mkChunk (CP_Index proof2) (CP_Data proof2) ∈ chunks ∨
  collision (chunkLeaf_message (mkChunk (CP_Index proof2) (CP_Data proof2)) ::
             path_messages parentHash_message
               (chunkLeaf (mkChunk (CP_Index proof2) (CP_Data proof2))) (to_step <$> CP_Path proof2))
    (chunk_messages chunks).
Proof.
  apply (chunk_proof_sound txs chunk_size chunks proof2).
  - reflexivity.
  - by vm_compute.
  - vm_compute. reflexivity.
  - by vm_compute.
  - vm_compute. reflexivity.
  - vm_compute. reflexivity.
Defined.

Lemma commitment_binds_witness :
  txs = txs ∨ collision (commitment_messages txs) (commitment_messages txs)
            ∨ collision (commitment_messages txs) (commitment_messages txs).
Proof.
  apply (commitment_binds header txs txs).
  - assert (bool_decide (Header_ConsensusHash header = zero_hash) = false) as Hz
      by (vm_compute; reflexivity).
    exact (bool_decide_eq_false_1 _ Hz).
  - exact txs_are_wf.
  - exact txs_are_wf.
  - by vm_compute.
  - by vm_compute.
  - vm_compute. reflexivity.
  - vm_compute. reflexivity.
Defined.
