(* ===== verification/Gf256.v ===== *)
(** * The field of 256 elements of the erasure code
    ([src/dataavailability/dataavailability.go], [buildGFTables], [gfMul],
    [gfPow], [gfInv])

    The code multiplies with tables of exponents and logarithms.  The laws of a
    field are reduced to facts about the tables that are checked by evaluation. *)

From S2P Require Import Prelude GoLib.

Declare Scope gf_scope.
Delimit Scope gf_scope with gf.

(** Go's [^] on bytes. *)
Definition byte_xor (a b : byte) : byte := byte_of_Z (Z.lxor (byte_to_Z a) (byte_to_Z b)).

(** The state of the first loop of [buildGFTables]: both tables and [value]. *)
Definition gf_table_step (tables : list byte * list byte * Z) (index : nat)
    : list byte * list byte * Z :=
  let '(exp, log, value) := tables in
  let exp := <[index := byte_of_Z value]> exp in
  let log := <[Z.to_nat (byte_to_Z (byte_of_Z value)) := byte_of_Z (Z.of_nat index)]> log in
  let value := Z.shiftl value 1 in
  let value := if bool_decide (Z.land value 0x100 ≠ 0) then Z.lxor value 0x11d else value in
  (exp, log, value).

Definition buildGFTables : list byte * list byte :=
  let '(exp, log, _) := foldl gf_table_step (replicate 512 x00, replicate 256 x00, 1) (seq 0 255) in
  let exp := foldl (λ exp index, <[index := default x00 (exp !! (index - 255)%nat)]> exp)
               exp (seq 255 (512 - 255)) in
  (exp, log).

Definition gfExpTable : list byte := Eval vm_compute in fst buildGFTables.
Definition gfLogTable : list byte := Eval vm_compute in snd buildGFTables.

Lemma gf_tables_built : buildGFTables = (gfExpTable, gfLogTable).
Proof. vm_compute. reflexivity. Qed.

Definition gf_exp (index : Z) : byte := default x00 (gfExpTable !! Z.to_nat index).
Definition gf_log (value : byte) : Z := byte_to_Z (default x00 (gfLogTable !! Z.to_nat (byte_to_Z value))).

Definition gfMul (left right : byte) : byte :=
  if bool_decide (left = x00) || bool_decide (right = x00) then x00
  else gf_exp (gf_log left + gf_log right).

Definition gfPow (value : byte) (power : Z) : byte :=
  if bool_decide (power = 0) then x01
  else if bool_decide (value = x00) then x00
  else gf_exp ((gf_log value * (power mod 255)) mod 255).

Definition gfInv (value : byte) : byte :=
  if bool_decide (value = x00) then x00 else gf_exp (255 - gf_log value).

Infix "⊕" := byte_xor (at level 50, left associativity) : gf_scope.
Infix "⊗" := gfMul (at level 40, left associativity) : gf_scope.
Open Scope gf_scope.

(** ** Facts checked by evaluation *)

Definition all_bytes : list byte := byte_of_Z <$> seqZ 0 256.

Lemma elem_of_all_bytes b : b ∈ all_bytes.
Proof.
  apply list_elem_of_fmap. exists (byte_to_Z b). rewrite byte_of_Z_to_Z. split; [done|].
  apply elem_of_seqZ. pose proof (byte_to_Z_range b). lia.
Qed.

Lemma all_bytes_forall (p : byte → bool) : forallb p all_bytes = true → ∀ b, p b = true.
Proof.
  intros Hp b. rewrite forallb_forall in Hp. apply Hp, list_elem_of_In, elem_of_all_bytes.
Qed.

Lemma gf_exp_log a : a ≠ x00 → gf_exp (gf_log a) = a ∧ 0 ≤ gf_log a < 255.
Proof.
  intros Ha. pose proof (all_bytes_forall (λ a, bool_decide (a = x00) ||
    (bool_decide (gf_exp (gf_log a) = a) && bool_decide (0 ≤ gf_log a < 255)))) as Hall.
  specialize (Hall ltac:(vm_compute; reflexivity) a). cbv beta in Hall.
  rewrite orb_true_iff, andb_true_iff, !bool_decide_eq_true in Hall. tauto.
Qed.

Lemma seqZ_forall (p : Z → bool) n :
  forallb p (seqZ 0 n) = true → ∀ i, 0 ≤ i < n → p i = true.
Proof. intros Hp i Hi. rewrite forallb_forall in Hp. apply Hp, list_elem_of_In, elem_of_seqZ. lia. Qed.

Lemma gf_log_exp i : 0 ≤ i < 255 → gf_exp i ≠ x00 ∧ gf_log (gf_exp i) = i.
Proof.
  intros Hi. pose proof (seqZ_forall (λ i, negb (bool_decide (gf_exp i = x00)) &&
    bool_decide (gf_log (gf_exp i) = i)) 255) as Hall.
  specialize (Hall ltac:(vm_compute; reflexivity) i Hi). cbv beta in Hall.
  rewrite andb_true_iff, negb_true_iff, bool_decide_eq_false, bool_decide_eq_true in Hall. done.
Qed.

Lemma gf_exp_mod i : 0 ≤ i < 512 → gf_exp i = gf_exp (i mod 255).
Proof.
  intros Hi. pose proof (seqZ_forall (λ i, bool_decide (gf_exp i = gf_exp (i mod 255))) 512) as Hall.
  specialize (Hall ltac:(vm_compute; reflexivity) i Hi). by rewrite bool_decide_eq_true in Hall.
Qed.

(** ** Addition *)

Lemma byte_xor_Z a b : byte_to_Z (a ⊕ b) = Z.lxor (byte_to_Z a) (byte_to_Z b).
Proof.
  unfold byte_xor. rewrite byte_to_Z_of_Z. apply Z.mod_small.
  pose proof (byte_to_Z_range a). pose proof (byte_to_Z_range b).
  assert (0 ≤ Z.lxor (byte_to_Z a) (byte_to_Z b)) by (apply Z.lxor_nonneg; lia).
  split; [done|]. destruct (decide (Z.lxor (byte_to_Z a) (byte_to_Z b) = 0)) as [->|]; [done|].
  change 256 with (2 ^ 8). apply Z.log2_lt_pow2; [lia|].
  pose proof (Z.log2_lxor (byte_to_Z a) (byte_to_Z b) ltac:(lia) ltac:(lia)).
  assert (∀ c, 0 ≤ c < 256 → Z.log2 c ≤ 7) as Hl.
  { intros c Hc. change 7 with (Z.log2 255). apply Z.log2_le_mono. lia. }
  pose proof (Hl (byte_to_Z a)). pose proof (Hl (byte_to_Z b)). lia.
Qed.

Lemma xor_comm a b : a ⊕ b = b ⊕ a.
Proof. unfold byte_xor. by rewrite Z.lxor_comm. Qed.

Lemma xor_assoc a b c : a ⊕ (b ⊕ c) = a ⊕ b ⊕ c.
Proof. apply byte_to_Z_inj. by rewrite !byte_xor_Z, Z.lxor_assoc. Qed.

Lemma xor_0_r a : a ⊕ x00 = a.
Proof. apply byte_to_Z_inj. rewrite byte_xor_Z. apply Z.lxor_0_r. Qed.

Lemma xor_0_l a : x00 ⊕ a = a.
Proof. by rewrite xor_comm, xor_0_r. Qed.

Lemma xor_same a : a ⊕ a = x00.
Proof. apply byte_to_Z_inj. rewrite byte_xor_Z. apply Z.lxor_nilpotent. Qed.

Lemma xor_eq_0 a b : a ⊕ b = x00 ↔ a = b.
Proof.
  split; [|intros ->; apply xor_same]. intros Hab.
  by rewrite <-(xor_0_r a), <-(xor_same b), xor_assoc, Hab, xor_0_l.
Qed.

Lemma xor_cancel a b : a ⊕ b ⊕ b = a.
Proof. by rewrite <-xor_assoc, xor_same, xor_0_r. Qed.

#[export] Instance xor_comm_inst : Comm (=) byte_xor := xor_comm.
#[export] Instance xor_assoc_inst : Assoc (=) byte_xor := xor_assoc.

Lemma xor_swap a b c d : a ⊕ b ⊕ (c ⊕ d) = a ⊕ c ⊕ (b ⊕ d).
Proof. by rewrite !xor_assoc, <-(xor_assoc a b c), (xor_comm b c), !xor_assoc. Qed.

(** ** Multiplication *)

Lemma gfMul_comm a b : a ⊗ b = b ⊗ a.
Proof. unfold gfMul. rewrite orb_comm. by rewrite Z.add_comm. Qed.

Lemma gfMul_0_l a : x00 ⊗ a = x00.
Proof. done. Qed.

Lemma gfMul_0_r a : a ⊗ x00 = x00.
Proof. by rewrite gfMul_comm. Qed.

Lemma gfMul_exp i j : 0 ≤ i < 255 → 0 ≤ j < 255 → gf_exp i ⊗ gf_exp j = gf_exp ((i + j) mod 255).
Proof.
  intros Hi Hj. destruct (gf_log_exp i Hi) as [Hni Hli]. destruct (gf_log_exp j Hj) as [Hnj Hlj].
  unfold gfMul. rewrite !bool_decide_eq_false_2 by done. cbn [orb]. rewrite Hli, Hlj.
  apply gf_exp_mod. lia.
Qed.

(** Every element is zero or a power of the generator. *)
Lemma gf_cases a : a = x00 ∨ ∃ i, 0 ≤ i < 255 ∧ a = gf_exp i.
Proof.
  destruct (decide (a = x00)) as [|Ha]; [by left|right].
  destruct (gf_exp_log a Ha) as [He Hl]. eauto.
Qed.

Ltac gf_case a := destruct (gf_cases a) as [->|(? & ? & ->)].

Lemma mod255 i : 0 ≤ i mod 255 < 255.
Proof. by apply Z.mod_pos_bound. Qed.

Lemma gfMul_assoc a b c : a ⊗ (b ⊗ c) = a ⊗ b ⊗ c.
Proof.
  gf_case a; [done|]. gf_case b; [by rewrite !gfMul_0_r, !gfMul_0_l|].
  gf_case c; [by rewrite !gfMul_0_r|].
  rewrite !gfMul_exp by (done || apply mod255). f_equal.
  rewrite Zplus_mod_idemp_r, Zplus_mod_idemp_l. f_equal. lia.
Qed.

Lemma gfMul_1_l a : x01 ⊗ a = a.
Proof.
  gf_case a; [done|]. change x01 with (gf_exp 0). rewrite gfMul_exp by lia.
  by rewrite Z.mod_small by lia.
Qed.

Lemma gfMul_1_r a : a ⊗ x01 = a.
Proof. by rewrite gfMul_comm, gfMul_1_l. Qed.

Lemma gfMul_integral a b : a ⊗ b = x00 → a = x00 ∨ b = x00.
Proof.
  gf_case a; [by left|]. gf_case b; [by right|]. rewrite gfMul_exp by done.
  intros Hz. edestruct gf_log_exp as [Hne _]; [apply mod255|by destruct (Hne Hz)].
Qed.

Lemma gfInv_r a : a ≠ x00 → a ⊗ gfInv a = x01.
Proof.
  intros Ha. destruct (gf_exp_log a Ha) as [He Hl]. unfold gfInv.
  rewrite bool_decide_eq_false_2 by done. rewrite <-He at 1.
  rewrite (gf_exp_mod (255 - _)), gfMul_exp by (lia || apply mod255).
  rewrite Zplus_mod_idemp_r. by replace (gf_log a + (255 - gf_log a)) with 255 by lia.
Qed.

(** ** Distributivity: a product is an iterated doubling *)

(** Doubling: the step of [buildGFTables] from one power to the next. *)
Definition gf_double (a : byte) : byte :=
  byte_of_Z (Z.lxor (Z.shiftl (byte_to_Z a) 1) (if Z.testbit (byte_to_Z a) 7 then 0x11d else 0)).

Lemma gf_exp_succ i : 0 ≤ i < 255 → gf_exp ((i + 1) mod 255) = gf_double (gf_exp i).
Proof.
  intros Hi.
  pose proof (seqZ_forall (λ i, bool_decide (gf_exp ((i + 1) mod 255) = gf_double (gf_exp i))) 255) as Hall.
  specialize (Hall ltac:(vm_compute; reflexivity) i Hi). by rewrite bool_decide_eq_true in Hall.
Qed.

Lemma gf_double_Z a :
  byte_to_Z (gf_double a) = Z.lxor (Z.shiftl (byte_to_Z a) 1) (if Z.testbit (byte_to_Z a) 7 then 0x11d else 0).
Proof.
  pose proof (all_bytes_forall (λ a, bool_decide (byte_to_Z (gf_double a) =
    Z.lxor (Z.shiftl (byte_to_Z a) 1) (if Z.testbit (byte_to_Z a) 7 then 0x11d else 0)))) as Hall.
  specialize (Hall ltac:(vm_compute; reflexivity) a). by rewrite bool_decide_eq_true in Hall.
Qed.

Lemma gf_double_xor a b : gf_double (a ⊕ b) = gf_double a ⊕ gf_double b.
Proof.
  apply byte_to_Z_inj. rewrite byte_xor_Z, !gf_double_Z, byte_xor_Z, Z.lxor_spec, Z.shiftl_lxor.
  set (u := Z.shiftl (byte_to_Z a) 1). set (v := Z.shiftl (byte_to_Z b) 1).
  destruct (Z.testbit (byte_to_Z a) 7), (Z.testbit (byte_to_Z b) 7); cbn [xorb];
    rewrite ?Z.lxor_0_r.
  - by rewrite (Z.lxor_comm v), !Z.lxor_assoc, <-(Z.lxor_assoc 285 285), Z.lxor_nilpotent, Z.lxor_0_l.
  - by rewrite !Z.lxor_assoc, (Z.lxor_comm v).
  - by rewrite Z.lxor_assoc.
  - done.
Qed.

Lemma gfMul_double i b : 0 ≤ i < 255 → gf_exp i ⊗ b = Nat.iter (Z.to_nat i) gf_double b.
Proof.
  intros Hi. gf_case b.
  { rewrite gfMul_0_r. by induction (Z.to_nat i) as [|n IH]; [|rewrite Nat.iter_succ, <-IH]. }
  rename x into j. rewrite gfMul_exp by done. destruct Hi as [Hi Hlt].
  revert Hlt. pattern i. apply natlike_ind; [|clear i Hi; intros i Hi IH Hlt|done].
  { intros _. by rewrite Z.add_0_l, Z.mod_small. }
  rewrite Z2Nat.inj_succ, Nat.iter_succ, <-IH by lia.
  rewrite <-gf_exp_succ by apply mod255. rewrite Zplus_mod_idemp_l. do 2 f_equal. lia.
Qed.

Lemma gfMul_xor_r a b c : a ⊗ (b ⊕ c) = a ⊗ b ⊕ a ⊗ c.
Proof.
  gf_case a; [done|]. rewrite !gfMul_double by done.
  induction (Z.to_nat x) as [|n IH]; [done|]. by rewrite !Nat.iter_succ, IH, gf_double_xor.
Qed.

Lemma gfMul_xor_l a b c : (b ⊕ c) ⊗ a = b ⊗ a ⊕ c ⊗ a.
Proof. rewrite !(gfMul_comm _ a). apply gfMul_xor_r. Qed.

Lemma gfMul_cancel_l a b c : a ≠ x00 → a ⊗ b = a ⊗ c → b = c.
Proof.
  intros Ha Heq. apply xor_eq_0. destruct (gfMul_integral a (b ⊕ c)); [|done..].
  by rewrite gfMul_xor_r, Heq, xor_same.
Qed.

(** ** Powers *)

Lemma gfPow_0 a : gfPow a 0 = x01.
Proof. done. Qed.

Lemma gfPow_exp i p : 0 ≤ i < 255 → 0 ≤ p → gfPow (gf_exp i) p = gf_exp ((i * p) mod 255).
Proof.
  intros Hi Hp. unfold gfPow. destruct (gf_log_exp i Hi) as [Hne Hl].
  case_bool_decide as Hz; [by rewrite Hz, Z.mul_0_r|].
  rewrite bool_decide_eq_false_2 by done. by rewrite Hl, Zmult_mod_idemp_r.
Qed.

Lemma gfPow_add a p q : 0 ≤ p → 0 ≤ q → a ≠ x00 → gfPow a (p + q) = gfPow a p ⊗ gfPow a q.
Proof.
  intros Hp Hq Ha. gf_case a; [done|]. rewrite !gfPow_exp by lia.
  rewrite gfMul_exp by apply mod255. by rewrite <-Zplus_mod, Z.mul_add_distr_l.
Qed.

Lemma gfPow_succ a p : 0 ≤ p → a ≠ x00 → gfPow a (p + 1) = a ⊗ gfPow a p.
Proof.
  intros Hp Ha. rewrite gfPow_add, gfMul_comm by done. f_equal. gf_case a; [done|].
  by rewrite gfPow_exp, Z.mul_1_r, Z.mod_small.
Qed.

Lemma gfPow_nonzero a p : 0 ≤ p → a ≠ x00 → gfPow a p ≠ x00.
Proof. intros Hp Ha. gf_case a; [done|]. rewrite gfPow_exp by done. apply gf_log_exp, mod255. Qed.
