(* ===== verification/GfMatrix.v ===== *)
(** * Inverting matrices over the field of the erasure code
    ([src/dataavailability/dataavailability.go], [invertMatrix])

    Gauss-Jordan elimination on the matrix next to the identity.  Every step
    keeps the kernel of the augmented rows, so the returned matrix solves the
    equations, and a failure exhibits a vector in the kernel. *)

From S2P Require Import Prelude GoLib DataAvailability Gf256.

(** ** The elimination *)

(** [augmented[row][column]] *)
Definition gf_entry (row : list byte) (column : nat) : byte := default x00 (row !! column).

(** A row of the matrix next to the row of the identity. *)
Definition augment_row (size row : nat) (entries : list byte) : list byte :=
  <[(size + row)%nat := x01]> (entries ++ replicate size x00).

(** The search of a pivot: the rows from [pivot] on. *)
Fixpoint find_pivot (column pivot : nat) (rows : list (list byte)) : option nat :=
  match rows with
  | [] => None
  | row :: rows => if bool_decide (gf_entry row column = x00) then find_pivot column (S pivot) rows
                   else Some pivot
  end.

Definition swap_rows (i j : nat) (rows : list (list byte)) : list (list byte) :=
  match rows !! i, rows !! j with
  | Some a, Some b => <[j := a]> (<[i := b]> rows)
  | _, _ => rows
  end.

(** [augmented[row][index] ^= gfMul(factor, augmented[column][index])] *)
Definition eliminate_row (column : nat) (pivot : list byte) (row : nat) (entries : list byte) : list byte :=
  if bool_decide (row = column) || bool_decide (gf_entry entries column = x00) then entries
  else zip_with (λ x p, x ⊕ gf_entry entries column ⊗ p) entries pivot.

(** Scaling the pivot row and clearing its column in the other rows. *)
Definition clear_column (column : nat) (augmented : list (list byte)) : list (list byte) :=
  let top := default [] (augmented !! column) in
  let inversePivot := gfInv (gf_entry top column) in
  let top := (λ x, x ⊗ inversePivot) <$> top in
  imap (eliminate_row column top) (<[column := top]> augmented).

(** One iteration of the loop over the columns. *)
Definition gauss_step (augmented : list (list byte)) (column : nat) : result (list (list byte)) :=
  match find_pivot column column (drop column augmented) with
  | None => Err ErrInsufficientChunks
  | Some pivot =>
      let augmented := if bool_decide (pivot = column) then augmented
                       else swap_rows pivot column augmented in
      Ok (clear_column column augmented)
  end.

Fixpoint gauss_loop (columns : list nat) (augmented : list (list byte)) : result (list (list byte)) :=
  match columns with
  | [] => Ok augmented
  | column :: columns => gauss_step augmented column ≫= gauss_loop columns
  end.

Definition invertMatrix (matrix : list (list byte)) : result (list (list byte)) :=
  let size := length matrix in
  check ErrInsufficientChunks (negb (bool_decide (size = 0%nat))) ≫= λ _,
  check ErrInsufficientChunks (forallb (λ row, bool_decide (length row = size)) matrix) ≫= λ _,
  augmented ← gauss_loop (seq 0 size) (imap (augment_row size) matrix);
  Ok (map (drop size) augmented).

(** ** Vectors *)

Definition dot (u v : list byte) : byte := foldr byte_xor x00 (zip_with gfMul u v).

(** The vectors a list of rows sends to zero. *)
Definition in_kernel (rows : list (list byte)) (v : list byte) : Prop := Forall (λ row, dot row v = x00) rows.

Lemma dot_cons a u b v : dot (a :: u) (b :: v) = a ⊗ b ⊕ dot u v.
Proof. done. Qed.

Lemma dot_nil_r u : dot u [] = x00.
Proof. by destruct u. Qed.

Lemma dot_app u1 u2 v1 v2 : length u1 = length v1 → dot (u1 ++ u2) (v1 ++ v2) = dot u1 v1 ⊕ dot u2 v2.
Proof.
  revert v1. induction u1 as [|a u1 IH]; intros [|b v1] Hl; simplify_eq/=.
  - by rewrite xor_0_l.
  - by rewrite !dot_cons, IH, xor_assoc.
Qed.

Lemma dot_comm u v : dot u v = dot v u.
Proof.
  revert v. induction u as [|a u IH]; intros [|b v]; [done..|]. by rewrite !dot_cons, IH, gfMul_comm.
Qed.

Lemma dot_zeros n v : dot (replicate n x00) v = x00.
Proof.
  revert v. induction n as [|n IH]; intros [|b v]; [done..|]. cbn [replicate].
  by rewrite dot_cons, IH, gfMul_0_l, xor_0_l.
Qed.

Lemma dot_scale c u v : dot ((λ x, x ⊗ c) <$> u) v = dot u v ⊗ c.
Proof.
  revert v. induction u as [|a u IH]; intros [|b v]; [done..|]. rewrite fmap_cons, !dot_cons, IH, gfMul_xor_l.
  f_equal. by rewrite <-!gfMul_assoc, (gfMul_comm c).
Qed.

Lemma dot_add_scaled f u p v :
  length u = length p → dot (zip_with (λ x p, x ⊕ f ⊗ p) u p) v = dot u v ⊕ f ⊗ dot p v.
Proof.
  revert p v. induction u as [|a u IH]; intros [|q p] [|b v] Hl; simplify_eq/=; rewrite ?dot_nil_r.
  - by rewrite gfMul_0_r.
  - by rewrite gfMul_0_r.
  - by rewrite gfMul_0_r.
  - rewrite !dot_cons, IH, gfMul_xor_l, gfMul_xor_r by done. by rewrite <-gfMul_assoc, xor_swap.
Qed.

(** The unit vector with [1] at position [i]. *)
Definition unit_vector (n i : nat) : list byte := <[i := x01]> (replicate n x00).

Lemma dot_unit n i v b : (i < n)%nat → v !! i = Some b → dot (unit_vector n i) v = b.
Proof.
  unfold unit_vector. revert i v. induction n as [|n IH]; intros [|i] [|c v] Hi Hv; simplify_eq/=; [lia..| |].
  - by rewrite dot_cons, gfMul_1_l, dot_zeros, xor_0_r.
  - rewrite dot_cons, gfMul_0_l, xor_0_l. apply IH; [lia|done].
Qed.

(** ** The invariant of the elimination *)

(** The rows have [2 * size] entries. *)
Definition rows_wf (size : nat) (rows : list (list byte)) : Prop :=
  length rows = size ∧ Forall (λ row, length row = (size + size)%nat) rows.

(** The first [c] columns are those of the identity. *)
Definition reduced (c : nat) (rows : list (list byte)) : Prop :=
  ∀ i row, rows !! i = Some row → ∀ j, (j < c)%nat → row !! j = Some (if bool_decide (i = j) then x01 else x00).

Lemma gf_entry_Some row j b : row !! j = Some b → gf_entry row j = b.
Proof. unfold gf_entry. by intros ->. Qed.

Lemma gf_entry_lookup row j : (j < length row)%nat → row !! j = Some (gf_entry row j).
Proof. intros [b Hb]%lookup_lt_is_Some. by rewrite (gf_entry_Some _ _ _ Hb). Qed.

Lemma find_pivot_Some column rows start p :
  find_pivot column start rows = Some p →
  (start ≤ p)%nat ∧ ∃ row, rows !! (p - start)%nat = Some row ∧ gf_entry row column ≠ x00.
Proof.
  revert start. induction rows as [|row rows IH]; intros start Hp; cbn [find_pivot] in Hp; [done|].
  case_bool_decide as He.
  - apply IH in Hp as (Hle & row' & Hr & Hne). split; [lia|].
    exists row'. by replace (p - start)%nat with (S (p - S start)) by lia.
  - injection Hp as <-. rewrite Nat.sub_diag. split; [done|]. by exists row.
Qed.

Lemma find_pivot_None column rows start :
  find_pivot column start rows = None → Forall (λ row, gf_entry row column = x00) rows.
Proof.
  revert start. induction rows as [|row rows IH]; intros start Hp; cbn [find_pivot] in Hp; [done|].
  case_bool_decide; [|done]. constructor; [done|]. by eapply IH.
Qed.

Lemma swap_rows_lookup i j rows k :
  (i < length rows)%nat → (j < length rows)%nat →
  swap_rows i j rows !! k =
    if bool_decide (k = j) then rows !! i else if bool_decide (k = i) then rows !! j else rows !! k.
Proof.
  intros [a Ha]%lookup_lt_is_Some [b Hb]%lookup_lt_is_Some. unfold swap_rows. rewrite Ha, Hb.
  apply lookup_lt_Some in Ha as Hi. apply lookup_lt_Some in Hb as Hj.
  repeat case_bool_decide; subst; rewrite ?list_lookup_insert_eq, ?list_lookup_insert_ne by
    (rewrite ?length_insert; done); try done.
  by rewrite list_lookup_insert_eq.
Qed.

Lemma swap_rows_length i j rows : length (swap_rows i j rows) = length rows.
Proof. unfold swap_rows. repeat case_match; by rewrite ?length_insert. Qed.

Lemma Forall_swap_rows (P : list byte → Prop) i j rows :
  (i < length rows)%nat → (j < length rows)%nat → Forall P (swap_rows i j rows) ↔ Forall P rows.
Proof.
  intros Hi Hj. rewrite !Forall_lookup. split; intros H k row Hk.
  - destruct (decide (k = i)) as [->|]; [|destruct (decide (k = j)) as [->|]].
    + apply (H j). by rewrite swap_rows_lookup, bool_decide_eq_true_2.
    + apply (H i). rewrite swap_rows_lookup by done. repeat case_bool_decide; by subst.
    + apply (H k). by rewrite swap_rows_lookup, !bool_decide_eq_false_2.
  - rewrite swap_rows_lookup in Hk by done. repeat case_bool_decide; by eapply H.
Qed.

Section clear.
Context (size c : nat) (rows : list (list byte)) (top : list byte).
Hypothesis (Hwf : rows_wf size rows) (Hc : (c < size)%nat) (Htop : rows !! c = Some top)
  (Hpivot : gf_entry top c ≠ x00) (Hred : reduced c rows).

Let scaled := (λ x, x ⊗ gfInv (gf_entry top c)) <$> top.

Lemma clear_lookup i row :
  rows !! i = Some row →
  clear_column c rows !! i = Some (if bool_decide (i = c) then scaled else eliminate_row c scaled i row).
Proof.
  intros Hi. unfold clear_column. rewrite Htop. cbn [default]. fold scaled.
  rewrite list_lookup_imap. case_bool_decide as Hic.
  - subst i. rewrite list_lookup_insert_eq by (by eapply lookup_lt_Some). cbn [fmap option_fmap option_map].
    unfold eliminate_row. by rewrite bool_decide_eq_true_2.
  - by rewrite list_lookup_insert_ne, Hi.
Qed.

Lemma clear_length : length (clear_column c rows) = length rows.
Proof. unfold clear_column. by rewrite length_imap, length_insert. Qed.

Lemma clear_lookup_inv i row' :
  clear_column c rows !! i = Some row' →
  ∃ row, rows !! i = Some row ∧ row' = (if bool_decide (i = c) then scaled else eliminate_row c scaled i row).
Proof.
  intros Hi. assert (is_Some (rows !! i)) as [row Hrow].
  { apply lookup_lt_is_Some. rewrite <-clear_length. by eapply lookup_lt_Some. }
  exists row. split; [done|]. rewrite (clear_lookup _ _ Hrow) in Hi. by injection Hi as <-.
Qed.

Lemma row_length i row : rows !! i = Some row → length row = (size + size)%nat.
Proof. destruct Hwf as [_ Hall]. rewrite Forall_lookup in Hall. apply Hall. Qed.

Lemma scaled_length : length scaled = (size + size)%nat.
Proof. unfold scaled. rewrite length_fmap. by eapply row_length. Qed.

Lemma scaled_pivot : gf_entry scaled c = x01.
Proof.
  apply gf_entry_Some. unfold scaled. rewrite list_lookup_fmap, gf_entry_lookup.
  - cbn. by rewrite gfInv_r.
  - rewrite (row_length _ _ Htop). lia.
Qed.

Lemma eliminate_row_eq i row :
  i ≠ c → rows !! i = Some row →
  eliminate_row c scaled i row = zip_with (λ x p, x ⊕ gf_entry row c ⊗ p) row scaled.
Proof.
  intros Hi Hrow. unfold eliminate_row. rewrite bool_decide_eq_false_2 by done. cbn [orb].
  case_bool_decide as He; [|done]. rewrite He.
  assert (length row = length scaled) as Hl by (by rewrite scaled_length, (row_length _ _ Hrow)).
  clear -Hl. generalize dependent scaled. induction row as [|a row IH]; intros [|p l] Hl; simplify_eq/=; [done|].
  by rewrite gfMul_0_l, xor_0_r, <-IH.
Qed.

Lemma clear_wf : rows_wf size (clear_column c rows).
Proof.
  split; [rewrite clear_length; apply Hwf|]. apply Forall_lookup. intros i row' Hi.
  apply clear_lookup_inv in Hi as (row & Hrow & ->). case_bool_decide; [apply scaled_length|].
  rewrite eliminate_row_eq, length_zip_with, scaled_length, (row_length _ _ Hrow) by done. lia.
Qed.

Lemma clear_kernel v : in_kernel (clear_column c rows) v ↔ in_kernel rows v.
Proof.
  assert (dot scaled v = dot top v ⊗ gfInv (gf_entry top c)) as Hs by apply dot_scale.
  assert (∀ i row, i ≠ c → rows !! i = Some row →
    dot (eliminate_row c scaled i row) v = dot row v ⊕ gf_entry row c ⊗ dot scaled v) as He.
  { intros i row Hi Hrow. rewrite eliminate_row_eq by done. apply dot_add_scaled.
    by rewrite scaled_length, (row_length _ _ Hrow). }
  unfold in_kernel. rewrite !Forall_lookup. split; intros Hk i row Hi.
  - assert (dot scaled v = x00) as Hz.
    { apply (Hk c). by rewrite (clear_lookup _ _ Htop), bool_decide_eq_true_2. }
    destruct (decide (i = c)) as [->|Hic].
    + assert (row = top) as -> by congruence. rewrite Hs in Hz.
      apply gfMul_integral in Hz as [?|Hz]; [done|]. exfalso. pose proof (gfInv_r _ Hpivot) as Hinv.
      by rewrite Hz, gfMul_0_r in Hinv.
    + specialize (Hk i _ (clear_lookup _ _ Hi)). rewrite bool_decide_eq_false_2, He, Hz in Hk by done.
      by rewrite gfMul_0_r, xor_0_r in Hk.
  - apply clear_lookup_inv in Hi as (row' & Hrow & ->).
    assert (dot scaled v = x00) as Hz by (by rewrite Hs, (Hk c top Htop)).
    case_bool_decide; [done|]. by rewrite He, Hz, (Hk i row' Hrow), gfMul_0_r.
Qed.

Lemma clear_reduced : reduced (S c) (clear_column c rows).
Proof.
  assert (∀ j, (j < S c)%nat → scaled !! j = Some (if bool_decide (c = j) then x01 else x00)) as Hs.
  { intros j Hj. rewrite gf_entry_lookup by (rewrite scaled_length; lia).
    case_bool_decide as Hcj; [subst j; f_equal; apply scaled_pivot|].
    f_equal. apply gf_entry_Some. unfold scaled. rewrite list_lookup_fmap, (Hred c top Htop j) by lia.
    by rewrite bool_decide_eq_false_2. }
  intros i row' Hi j Hj. apply clear_lookup_inv in Hi as (row & Hrow & ->).
  case_bool_decide as Hic; [subst i; by apply Hs|].
  rewrite eliminate_row_eq, lookup_zip_with, (Hs j Hj) by done.
  destruct (decide (j = c)) as [->|Hjc].
  - rewrite gf_entry_lookup by (rewrite (row_length _ _ Hrow); lia). cbn.
    rewrite !bool_decide_eq_true_2, (bool_decide_eq_false_2 (i = c)) by done.
    by rewrite gfMul_1_r, xor_same.
  - rewrite (Hred i row Hrow j) by lia. cbn. rewrite (bool_decide_eq_false_2 (c = j)) by done.
    by rewrite gfMul_0_r, xor_0_r.
Qed.
End clear.

(** ** The result *)

Section gauss.
Context (size : nat).

Lemma swap_reduced c p rows :
  (c ≤ p)%nat → (p < length rows)%nat → reduced c rows → reduced c (swap_rows p c rows).
Proof.
  intros Hcp Hp Hred i row Hi j Hj. rewrite swap_rows_lookup in Hi by lia.
  case_bool_decide; [subst|case_bool_decide; [subst|by eapply Hred]].
  - rewrite (Hred _ _ Hi j Hj), !bool_decide_eq_false_2 by lia. done.
  - rewrite (Hred _ _ Hi j Hj), !bool_decide_eq_false_2 by lia. done.
Qed.

(** The rows before clearing: the pivot is in place. *)
Definition pivoted (c : nat) (rows rows' : list (list byte)) : Prop :=
  rows_wf size rows' ∧ reduced c rows' ∧ (∀ v, in_kernel rows' v ↔ in_kernel rows v) ∧
  ∃ top, rows' !! c = Some top ∧ gf_entry top c ≠ x00.

Lemma pivot_found c p rows :
  rows_wf size rows → (c < size)%nat → reduced c rows →
  find_pivot c c (drop c rows) = Some p →
  pivoted c rows (if bool_decide (p = c) then rows else swap_rows p c rows).
Proof.
  intros [Hlen Hall] Hc Hred Hp. apply find_pivot_Some in Hp as (Hcp & top & Htop & Hne).
  rewrite lookup_drop in Htop. replace (c + (p - c))%nat with p in Htop by lia.
  apply lookup_lt_Some in Htop as Hlt. case_bool_decide as Hpc; [subst p|].
  { split_and!; [done..|]. by exists top. }
  split_and!.
  - split; [by rewrite swap_rows_length|]. apply Forall_swap_rows; [lia..|done].
  - by apply swap_reduced.
  - intros v. apply Forall_swap_rows; lia.
  - exists top. split; [|done]. by rewrite swap_rows_lookup, bool_decide_eq_true_2 by lia.
Qed.

Lemma gauss_step_Ok c rows rows' :
  rows_wf size rows → (c < size)%nat → reduced c rows → gauss_step rows c = Ok rows' →
  rows_wf size rows' ∧ reduced (S c) rows' ∧ ∀ v, in_kernel rows' v ↔ in_kernel rows v.
Proof.
  intros Hwf Hc Hred Hs. unfold gauss_step in Hs.
  destruct (find_pivot c c (drop c rows)) as [p|] eqn:Hp; [|done]. injection Hs as <-.
  destruct (pivot_found c p rows Hwf Hc Hred Hp) as (Hwf' & Hred' & Hker & top & Htop & Hne).
  split_and!; [by eapply clear_wf|by eapply clear_reduced|].
  intros v. rewrite <-Hker. by eapply clear_kernel.
Qed.

(** A column without pivot gives a vector in the kernel. *)
Definition stuck_vector (c : nat) (rows : list (list byte)) : list byte :=
  ((λ row, gf_entry row c) <$> take c rows) ++ [x01] ++ replicate (size - S c) x00.

Lemma reduced_take c rows i row :
  reduced c rows → rows !! i = Some row →
  take c row = if decide (i < c)%nat then unit_vector c i else replicate c x00.
Proof.
  intros Hred Hi. apply list_eq. intros j. destruct (decide (j < c)%nat) as [Hj|Hj].
  - rewrite lookup_take_lt, (Hred _ _ Hi j Hj) by done. unfold unit_vector. case_decide as Hic.
    + case_bool_decide; [subst; by rewrite list_lookup_insert_eq by (by rewrite length_replicate)|].
      by rewrite list_lookup_insert_ne, lookup_replicate_2.
    + rewrite bool_decide_eq_false_2 by lia. by rewrite lookup_replicate_2.
  - rewrite lookup_take_ge by lia. symmetry. apply lookup_ge_None_2.
    case_decide; unfold unit_vector; rewrite ?length_insert, length_replicate; lia.
Qed.

Lemma reduced_row c rows i row :
  reduced c rows → (c < length row)%nat → rows !! i = Some row →
  row = (if decide (i < c)%nat then unit_vector c i else replicate c x00) ++ gf_entry row c :: drop (S c) row.
Proof.
  intros Hred Hlen Hi. rewrite <-(reduced_take c rows i row) by done. symmetry.
  by apply take_drop_middle, gf_entry_lookup.
Qed.

Lemma stuck_kernel c rows :
  rows_wf size rows → (c < size)%nat → reduced c rows → find_pivot c c (drop c rows) = None →
  in_kernel rows (stuck_vector c rows ++ replicate size x00).
Proof.
  intros [Hlen Hall] Hc Hred Hp. apply find_pivot_None in Hp. apply Forall_lookup. intros i row Hi.
  rewrite Forall_lookup in Hall. specialize (Hall _ _ Hi) as Hl.
  rewrite (reduced_row c rows i row Hred ltac:(lia) Hi). unfold stuck_vector.
  rewrite <-!app_assoc, dot_app.
  2:{ rewrite length_fmap, length_take. case_decide; unfold unit_vector;
        rewrite ?length_insert, length_replicate; lia. }
  cbn [app]. rewrite dot_cons, gfMul_1_r, <-replicate_add, (dot_comm (drop _ _)), dot_zeros, xor_0_r.
  case_decide as Hic.
  - rewrite (dot_unit _ _ _ (gf_entry row c)); [apply xor_same|done|].
    by rewrite list_lookup_fmap, lookup_take_lt, Hi by lia.
  - rewrite dot_zeros, xor_0_l. rewrite Forall_lookup in Hp. apply (Hp (i - c)%nat).
    rewrite lookup_drop. by replace (c + (i - c))%nat with i by lia.
Qed.

(** A vector that is not zero. *)
Definition nonzero (z : list byte) : Prop := ∃ i b, z !! i = Some b ∧ b ≠ x00.

Lemma stuck_nonzero c rows :
  length rows = size → (c < size)%nat →
  length (stuck_vector c rows) = size ∧ nonzero (stuck_vector c rows).
Proof.
  intros Hlen Hc. unfold stuck_vector. split.
  - rewrite !length_app, length_fmap, length_take, length_replicate. cbn. lia.
  - exists c, x01. split; [|done]. rewrite lookup_app_r; rewrite length_fmap, length_take; [|lia].
    by replace (c - c `min` length rows)%nat with 0%nat by lia.
Qed.

Lemma gauss_loop_spec k c rows :
  (c + k)%nat = size → rows_wf size rows → reduced c rows →
  match gauss_loop (seq c k) rows with
  | Ok rows' => rows_wf size rows' ∧ reduced size rows' ∧ ∀ v, in_kernel rows' v ↔ in_kernel rows v
  | Err e => e = ErrInsufficientChunks ∧
             ∃ z, length z = size ∧ nonzero z ∧ in_kernel rows (z ++ replicate size x00)
  end.
Proof.
  revert c rows. induction k as [|k IH]; intros c rows Hck Hwf Hred; cbn [seq gauss_loop].
  { split_and!; [done| |done]. by replace size with c by lia. }
  destruct (gauss_step rows c) as [rows1|e] eqn:Hs; cbn [mbind result_bind].
  - apply gauss_step_Ok in Hs as (Hwf1 & Hred1 & Hker); [|done|lia|done].
    specialize (IH (S c) rows1 ltac:(lia) Hwf1 Hred1).
    destruct (gauss_loop (seq (S c) k) rows1) as [rows2|e].
    + destruct IH as (?&?&Hk2). split_and!; [done..|]. intros v. by rewrite Hk2.
    + destruct IH as (->&z&?&?&Hz). split; [done|]. exists z. split_and!; [done..|]. by apply Hker.
  - unfold gauss_step in Hs. destruct (find_pivot c c (drop c rows)) eqn:Hp; [done|]. injection Hs as <-.
    split; [done|]. exists (stuck_vector c rows). destruct (stuck_nonzero c rows) as [? ?]; [apply Hwf|lia|].
    split_and!; [done..|]. apply stuck_kernel; [done|lia|done|done].
Qed.
End gauss.

Lemma augment_row_eq size i entries :
  length entries = size → augment_row size i entries = entries ++ unit_vector size i.
Proof. intros <-. unfold augment_row, unit_vector. by rewrite insert_app_r. Qed.

Lemma augmented_kernel m x y :
  Forall (λ row, length row = length m) m → length x = length m → length y = length m →
  in_kernel (imap (augment_row (length m)) m) (x ++ y) ↔ y = (λ row, dot row x) <$> m.
Proof.
  intros Hm Hx Hy. unfold in_kernel. rewrite Forall_lookup.
  assert (∀ i row b, m !! i = Some row → y !! i = Some b →
    dot (augment_row (length m) i row) (x ++ y) = dot row x ⊕ b) as Hdot.
  { intros i row b Hi Hb. rewrite Forall_lookup in Hm. specialize (Hm _ _ Hi).
    rewrite augment_row_eq, dot_app by congruence. f_equal. apply dot_unit; [|done].
    by eapply lookup_lt_Some. }
  split.
  - intros Hk. apply list_eq. intros i. rewrite list_lookup_fmap.
    destruct (m !! i) as [row|] eqn:Hi; cbn.
    + assert (is_Some (y !! i)) as [b Hb].
      { apply lookup_lt_is_Some. rewrite Hy. by eapply lookup_lt_Some. }
      rewrite Hb. f_equal. symmetry. apply xor_eq_0. rewrite <-(Hdot i row b) by done.
      apply (Hk i). by rewrite list_lookup_imap, Hi.
    + apply lookup_ge_None in Hi. apply lookup_ge_None. lia.
  - intros -> i row' Hi. rewrite list_lookup_imap in Hi.
    destruct (m !! i) as [row|] eqn:Hr; [|done]. injection Hi as <-.
    rewrite (Hdot i row (dot row x)); [apply xor_same|done|]. by rewrite list_lookup_fmap, Hr.
Qed.

Lemma augmented_wf m :
  Forall (λ row, length row = length m) m → rows_wf (length m) (imap (augment_row (length m)) m).
Proof.
  intros Hm. split; [by rewrite length_imap|]. apply Forall_lookup. intros i row'.
  rewrite list_lookup_imap. intros (row & Hi & ->)%fmap_Some. rewrite Forall_lookup in Hm.
  unfold augment_row. rewrite length_insert, length_app, length_replicate. by rewrite (Hm _ _ Hi).
Qed.

(** [invertMatrix] solves the equations of a square matrix, and it fails only
    for a matrix that sends a vector other than zero to zero. *)
Lemma invertMatrix_spec m :
  m ≠ [] → Forall (λ row, length row = length m) m →
  match invertMatrix m with
  | Ok inverse => length inverse = length m ∧
      ∀ x i, length x = length m → (i < length m)%nat →
        ∃ row, inverse !! i = Some row ∧ x !! i = Some (dot row ((λ row, dot row x) <$> m))
  | Err e => e = ErrInsufficientChunks ∧ ∃ z, length z = length m ∧ nonzero z ∧ in_kernel m z
  end.
Proof.
  intros Hne Hm. unfold invertMatrix.
  rewrite bool_decide_eq_false_2 by (by destruct m). cbn [negb check mbind result_bind].
  assert (forallb (λ row, bool_decide (length row = length m)) m = true) as Hall.
  { apply forallb_forall. intros row Hin. rewrite Forall_forall in Hm.
    apply bool_decide_eq_true_2, Hm, list_elem_of_In, Hin. }
  rewrite Hall. cbn [check mbind result_bind].
  pose proof (gauss_loop_spec (length m) (length m) 0 _ ltac:(lia) (augmented_wf m Hm)) as Hg.
  specialize (Hg ltac:(intros ? ? ? ? ?; lia)).
  destruct (gauss_loop _ _) as [rows|e]; cbn [mbind result_bind].
  - destruct Hg as ([Hlen Hrows] & Hred & Hker). split; [by rewrite length_map|]. intros x i Hx Hi.
    assert (is_Some (rows !! i)) as [row Hrow] by (apply lookup_lt_is_Some; lia).
    exists (drop (length m) row). split.
    { change (map (drop (length m)) rows) with (drop (length m) <$> rows). by rewrite list_lookup_fmap, Hrow. }
    assert (is_Some (x !! i)) as [b Hb] by (apply lookup_lt_is_Some; lia). rewrite Hb. f_equal.
    set (y := (λ row, dot row x) <$> m).
    assert (in_kernel rows (x ++ y)) as Hk.
    { apply Hker, augmented_kernel; [done..| |done]. unfold y. apply length_fmap. }
    unfold in_kernel in Hk. rewrite Forall_lookup in Hk, Hrows. specialize (Hk _ _ Hrow).
    rewrite <-(take_drop (length m) row), dot_app in Hk
      by (rewrite length_take, (Hrows _ _ Hrow); lia).
    rewrite (reduced_take _ _ _ _ Hred Hrow), decide_True, (dot_unit _ _ _ b) in Hk by done.
    exact (proj1 (xor_eq_0 _ _) Hk).
  - destruct Hg as (-> & z & Hz & Hnz & Hk). split; [done|]. exists z. split_and!; [done..|].
    apply augmented_kernel in Hk; [|done|done|apply length_replicate].
    unfold in_kernel. apply Forall_lookup. intros i row Hi.
    assert (((λ row, dot row z) <$> m) !! i = Some (dot row z)) as Hl by (by rewrite list_lookup_fmap, Hi).
    rewrite <-Hk in Hl. by apply lookup_replicate in Hl as [-> _].
Qed.

(** ** Matrices of powers *)

Definition zeros (z : list byte) : Prop := Forall (λ b, b = x00) z.

Lemma not_zeros_nonzero z : zeros z → ¬ nonzero z.
Proof. unfold zeros. rewrite Forall_lookup. intros Hz (i & b & Hb & Hne). by apply Hne, (Hz i). Qed.

(** The value of the polynomial with coefficients [p] at [x]. *)
Definition horner (x : byte) (p : list byte) : byte := foldr (λ a s, a ⊕ x ⊗ s) x00 p.

Lemma horner_cons x a p : horner x (a :: p) = a ⊕ x ⊗ horner x p.
Proof. done. Qed.

Lemma horner_zeros x p : zeros p → horner x p = x00.
Proof. induction 1 as [|a p -> _ IH]; [done|]. by rewrite horner_cons, IH, gfMul_0_r. Qed.

(** The quotient of [a :: p] by [x - r]. *)
Fixpoint quotient (r : byte) (p : list byte) : list byte :=
  match p with [] => [] | _ :: p' => horner r p :: quotient r p' end.

Lemma quotient_length r p : length (quotient r p) = length p.
Proof. induction p; cbn [quotient length]; congruence. Qed.

Lemma quotient_eq r x a p :
  horner x (a :: p) = horner r (a :: p) ⊕ (x ⊕ r) ⊗ horner x (quotient r p).
Proof.
  revert a. induction p as [|b p IH]; intros a.
  { rewrite !horner_cons. cbn [quotient horner foldr]. by rewrite !gfMul_0_r, !xor_0_r. }
  rewrite horner_cons, IH, (horner_cons r a). cbn [quotient]. rewrite (horner_cons x (horner r (b :: p))).
  set (h := horner r (b :: p)). set (q := horner x (quotient r p)).
  set (d := x ⊕ r). assert (r ⊗ h ⊕ d ⊗ h = x ⊗ h) as Hd.
  { unfold d. by rewrite gfMul_xor_l, (xor_comm (x ⊗ h)), xor_assoc, xor_same, xor_0_l. }
  rewrite !gfMul_xor_r, <-Hd, <-!xor_assoc. do 3 f_equal. by rewrite !gfMul_assoc, (gfMul_comm x).
Qed.

Lemma quotient_zeros r p : zeros (quotient r p) → zeros p.
Proof.
  induction p as [|a p IH]; cbn [quotient]; [done|]. intros [Ha Hq]%Forall_cons.
  specialize (IH Hq). constructor; [|done]. by rewrite horner_cons, (horner_zeros r p IH), gfMul_0_r, xor_0_r in Ha.
Qed.

(** A polynomial with as many roots as coefficients is zero. *)
Lemma horner_roots xs p :
  NoDup xs → (length p ≤ length xs)%nat → (∀ x, x ∈ xs → horner x p = x00) → zeros p.
Proof.
  revert p. induction xs as [|r xs IH]; intros [|a p] Hnd Hlen Hroot; cbn [length] in *;
    [constructor|lia|constructor|].
  apply NoDup_cons in Hnd as [Hr Hnd]. assert (zeros p) as Hp.
  { apply (quotient_zeros r), IH; [done|rewrite quotient_length; lia|]. intros x Hx.
    pose proof (quotient_eq r x a p) as Hq. rewrite !Hroot in Hq by (rewrite elem_of_cons; auto).
    rewrite xor_0_l in Hq. symmetry in Hq. apply gfMul_integral in Hq as [Hxr|]; [|done].
    apply (proj1 (xor_eq_0 _ _)) in Hxr. congruence. }
  constructor; [|done]. specialize (Hroot r ltac:(rewrite elem_of_cons; auto)).
  by rewrite horner_cons, (horner_zeros r p Hp), gfMul_0_r, xor_0_r in Hroot.
Qed.

Lemma dot_powers x j z :
  x ≠ x00 → 0 ≤ j → dot (gfPow x <$> seqZ j (Z.of_nat (length z))) z = gfPow x j ⊗ horner x z.
Proof.
  intros Hx. revert j. induction z as [|a z IH]; intros j Hj.
  { by rewrite dot_nil_r, gfMul_0_r. }
  cbn [length]. rewrite seqZ_cons by lia. replace (Z.pred _) with (Z.of_nat (length z)) by lia.
  rewrite fmap_cons, dot_cons, IH, horner_cons, gfMul_xor_r by lia. f_equal.
  replace (Z.succ j) with (j + 1) by lia. rewrite gfPow_succ, gfMul_assoc by done.
  by rewrite (gfMul_comm (gfPow x j)).
Qed.

(** The matrix of the powers of [xs] with exponents [js]. *)
Definition powers (xs : list byte) (js : list Z) : list (list byte) := (λ x, gfPow x <$> js) <$> xs.

(** Consecutive exponents: a scaled Vandermonde matrix. *)
Lemma powers_consecutive xs j z :
  NoDup xs → x00 ∉ xs → 0 ≤ j → length z = length xs →
  in_kernel (powers xs (seqZ j (Z.of_nat (length xs)))) z → zeros z.
Proof.
  intros Hnd Hx Hj Hlen Hk. apply (horner_roots xs); [done|lia|]. intros x Hin.
  unfold in_kernel, powers in Hk. rewrite Forall_fmap, Forall_forall in Hk. specialize (Hk x Hin).
  unfold compose in Hk. assert (x ≠ x00) as Hx0 by congruence. rewrite <-Hlen, dot_powers in Hk by done.
  apply gfMul_integral in Hk as [Hk|]; [|done]. by apply gfPow_nonzero in Hk.
Qed.

(** Two rows, of the elements 1 and 2. *)
Lemma powers_two j1 j2 z :
  0 ≤ j1 < 255 → 0 ≤ j2 < 255 → j1 ≠ j2 → length z = 2%nat →
  in_kernel (powers [x01; x02] [j1; j2]) z → zeros z.
Proof.
  intros H1 H2 Hne Hlen Hk. destruct z as [|z1 [|z2 [|]]]; simplify_eq/=.
  change x01 with (gf_exp 0) in Hk. change x02 with (gf_exp 1) in Hk.
  unfold in_kernel, powers in Hk. cbn [fmap list_fmap] in Hk. rewrite !gfPow_exp in Hk by lia.
  apply Forall_cons in Hk as [Ha Hk]. apply Forall_cons in Hk as [Hb _].
  rewrite !Z.mul_0_l, !dot_cons, dot_nil_r, xor_0_r in Ha. change (gf_exp (0 mod 255)) with x01 in Ha.
  rewrite !gfMul_1_l in Ha. apply (proj1 (xor_eq_0 _ _)) in Ha as ->.
  rewrite !dot_cons, dot_nil_r, xor_0_r, <-gfMul_xor_l, !Z.mul_1_l, !Z.mod_small in Hb by lia.
  apply gfMul_integral in Hb as [Hb| ->]; [|by repeat constructor].
  apply (proj1 (xor_eq_0 _ _)) in Hb. destruct Hne.
  by rewrite <-(proj2 (gf_log_exp j1 H1)), Hb, (proj2 (gf_log_exp j2 H2)).
Qed.
