(* ===== verification/Erasure.v ===== *)
(** * The erasure code of data availability
    ([src/dataavailability/dataavailability.go], parity chunks and
    [RecoverData])

    The chunks of a list of transactions are cut into groups of [dataShards];
    every group has [parityShards] parity chunks, sums of its chunks weighted
    with the powers of the number of the shard.  Recovery solves the equations
    of the parity chunks it has for the chunks it misses.

    Byte slices that are added up have the same length wherever the code adds
    them.  [make] with a size that no slice of the caller already has may panic,
    which is written out; other allocations succeed. *)

From S2P Require Import Prelude GoLib Sha256 Merkle Types DataAvailability Gf256 GfMatrix.

(** ** Parity *)

(** [make([]byte, chunkSize)] and [copy]. *)
Definition paddedChunk (data : bytes) (chunkSize : Z) : bytes :=
  let padded := replicate (Z.to_nat chunkSize) x00 in
  take (length padded) data ++ drop (length data) padded.

Definition xorInto (target source : bytes) : bytes := zip_with byte_xor target source.

Definition xorMulInto (target source : bytes) (coefficient : byte) : bytes :=
  if bool_decide (coefficient = x00) then target
  else if bool_decide (coefficient = x01) then xorInto target source
  else zip_with (λ t s, t ⊕ s ⊗ coefficient) target source.

(** The start and the end of a group. *)
Definition group_range (chunkCount dataShards group : Z) : Z * Z :=
  let start := wrap64 (group * dataShards) in
  let end_ := wrap64 (start + dataShards) in
  (start, if bool_decide (chunkCount < end_) then chunkCount else end_).

(** The element whose powers weigh the chunks of a parity shard. *)
Definition shard_element (parityShard : Z) : byte := byte_of_Z (wrap64 (parityShard + 1)).

(** The parity chunk of a shard of a group. *)
Definition parity_chunk (chunks : list Chunk) (chunkSize dataShards parityShards group parityShard : Z) : Chunk :=
  let '(start, end_) := group_range (Z.of_nat (length chunks)) dataShards group in
  let buffer := foldl (λ buffer index,
      let chunk := default (mkChunk 0 []) (chunks !! Z.to_nat index) in
      xorMulInto buffer (paddedChunk (Chunk_Data chunk) chunkSize)
        (gfPow (shard_element parityShard) (wrap64 (index - start))))
    (replicate (Z.to_nat chunkSize) x00) (seqZ start (end_ - start)) in
  mkChunk (wrap64 (wrap64 (group * parityShards) + parityShard)) buffer.

(** [make] of so many bytes does not panic. *)
Definition make_bytes_ok (size : Z) : bool := bool_decide (size ≤ 2 ^ 48).

(** [make] of so many chunks, of 32 bytes each, does not panic. *)
Definition make_chunks_ok (count : Z) : bool := bool_decide (count * 32 ≤ 2 ^ 48).

Definition reedSolomonParityChunks (chunks : list Chunk) (chunkSize dataShards parityShards : Z)
    : result (list Chunk) :=
  if bool_decide (length chunks = 0%nat) || bool_decide (dataShards = 0) || bool_decide (parityShards = 0)
  then Ok []
  else
    let groupCount := parityGroupCount (Z.of_nat (length chunks)) dataShards in
    check PanicMakeSlice (make_chunks_ok (wrap64 (groupCount * parityShards)) && make_bytes_ok chunkSize) ≫= λ _,
    Ok (concat (map (λ group,
      map (parity_chunk chunks chunkSize dataShards parityShards group) (seqZ 0 parityShards))
      (seqZ 0 groupCount))).

Definition BuildParityChunksWithOptions (txs : list Tx) (chunkSize dataShards parityShards : Z)
    : result (list Chunk) :=
  if bool_decide (dataShards = 0) || bool_decide (maxErasureShards < dataShards)
  then Err ErrInvalidDataShards
  else if bool_decide (parityShards = 0) || bool_decide (maxErasureShards < parityShards)
  then Err ErrInvalidParityShards
  else chunks ← BuildChunks txs chunkSize;
       reedSolomonParityChunks chunks chunkSize dataShards parityShards.

Definition BuildParityChunks (txs : list Tx) (chunkSize dataShards : Z) : result (list Chunk) :=
  BuildParityChunksWithOptions txs chunkSize dataShards DefaultParityShards.

(** ** Recovering the chunks of a group *)

Definition containsMissing (missing : list Z) (value : Z) : bool := existsb (λ c, bool_decide (c = value)) missing.

(** The loop that takes the chunks that are there out of a parity chunk. *)
Fixpoint adjust_parity (x : byte) (start chunkSize : Z) (missing : list Z) (dataByIndex : gmap Z bytes)
    (adjusted : bytes) (indices : list Z) : result bytes :=
  match indices with
  | [] => Ok adjusted
  | index :: indices =>
      if containsMissing missing index
      then adjust_parity x start chunkSize missing dataByIndex adjusted indices
      else match dataByIndex !! index with
           | None => Err ErrTooManyMissing
           | Some data =>
               adjust_parity x start chunkSize missing dataByIndex
                 (xorMulInto adjusted (paddedChunk data chunkSize) (gfPow x (wrap64 (index - start)))) indices
           end
  end.

(** The row of the matrix and the right side for a parity shard. *)
Definition shard_equation (start end_ chunkSize : Z) (missing : list Z) (dataByIndex paritySet : gmap Z bytes)
    (parityShard : Z) : result (list byte * bytes) :=
  let x := shard_element parityShard in
  adjusted ← adjust_parity x start chunkSize missing dataByIndex (default [] (paritySet !! parityShard))
               (seqZ start (end_ - start));
  Ok ((λ missingIndex, gfPow x (wrap64 (missingIndex - start))) <$> missing, adjusted).

(** A missing chunk from the right sides and its row of the inverse. *)
Definition combine_rows (chunkSize : Z) (right : list bytes) (coefficients : list byte) : bytes :=
  foldl (λ data row, xorMulInto data row.1 row.2)
    (replicate (Z.to_nat chunkSize) x00) (zip right coefficients).

Fixpoint equations (start end_ chunkSize : Z) (missing : list Z) (dataByIndex paritySet : gmap Z bytes)
    (shards : list Z) : result (list (list byte * bytes)) :=
  match shards with
  | [] => Ok []
  | shard :: shards =>
      equation ← shard_equation start end_ chunkSize missing dataByIndex paritySet shard;
      rest ← equations start end_ chunkSize missing dataByIndex paritySet shards;
      Ok (equation :: rest)
  end.

Section recovery.
Context (o : MapOrder Z bytes).

Definition sortedParityShards (paritySet : gmap Z bytes) : list Z := sort_by id Z.le (o paritySet).*1.

Definition recoverMissingGroupChunks (start end_ chunkSize : Z) (missing : list Z)
    (dataByIndex paritySet : gmap Z bytes) : result (gmap Z bytes) :=
  let equationShards := sortedParityShards paritySet in
  check ErrInsufficientChunks (negb (bool_decide (length equationShards < length missing)%nat)) ≫= λ _,
  rows ← equations start end_ chunkSize missing dataByIndex paritySet (take (length missing) equationShards);
  match invertMatrix (fst <$> rows) with
  | Err _ => Err ErrInsufficientChunks
  | Ok inverse =>
      Ok (foldl (λ recovered '(missingIndex, coefficients),
            <[missingIndex := combine_rows chunkSize (snd <$> rows) coefficients]> recovered)
          ∅ (zip missing inverse))
  end.

Definition trimRecoveredChunk (data : bytes) (index : Z) (proof : DAProof) : bytes :=
  let expected := DA_ChunkSize proof in
  let expected :=
    if bool_decide (index = wrap64 (DA_ChunkCount proof - 1)) then
      let used := wrap64 (DA_EncodedSize proof -
                          wrap64 (DA_ChunkSize proof * wrap64 (DA_ChunkCount proof - 1))) in
      if bool_decide (used < expected) then used else expected
    else expected in
  take (Z.to_nat expected) data.

(** ** [RecoverData] *)

(** The loop over the given chunks. *)
Fixpoint index_chunks (proof : DAProof) (dataByIndex : gmap Z bytes) (chunks : list Chunk)
    : result (gmap Z bytes) :=
  match chunks with
  | [] => Ok dataByIndex
  | chunk :: chunks =>
      if bool_decide (DA_ChunkCount proof ≤ Chunk_Index chunk) ||
         bool_decide (DA_ChunkSize proof < Z.of_nat (length (Chunk_Data chunk)))
      then Err ErrInvalidChunkProof
      else if bool_decide (is_Some (dataByIndex !! Chunk_Index chunk)) then Err ErrInvalidChunkProof
      else index_chunks proof (<[Chunk_Index chunk := Chunk_Data chunk]> dataByIndex) chunks
  end.

(** The loop over the given parity chunks. *)
Fixpoint index_parity (proof : DAProof) (parityShards : Z) (parityByGroup : gmap Z (gmap Z bytes))
    (parity : list Chunk) : result (gmap Z (gmap Z bytes)) :=
  match parity with
  | [] => Ok parityByGroup
  | chunk :: parity =>
      if bool_decide (Z.of_nat (length (Chunk_Data chunk)) ≠ DA_ChunkSize proof) then Err ErrInvalidChunkProof
      else
        let group := Chunk_Index chunk / parityShards in
        let shard := Chunk_Index chunk mod parityShards in
        if bool_decide (parityGroupCount (DA_ChunkCount proof) (DA_DataShards proof) ≤ group)
        then Err ErrInvalidChunkProof
        else
          let paritySet := default ∅ (parityByGroup !! group) in
          if bool_decide (is_Some (paritySet !! shard)) then Err ErrInvalidChunkProof
          else index_parity proof parityShards
                 (<[group := <[shard := Chunk_Data chunk]> paritySet]> parityByGroup) parity
  end.

(** The body of the loop over the groups. *)
Definition recover_group (proof : DAProof) (parityShards : Z) (parityByGroup : gmap Z (gmap Z bytes))
    (dataByIndex : gmap Z bytes) (group : Z) : result (gmap Z bytes) :=
  let '(start, end_) := group_range (DA_ChunkCount proof) (DA_DataShards proof) group in
  let missing := filter (λ index, dataByIndex !! index = None) (seqZ start (end_ - start)) in
  if bool_decide (length missing = 0%nat) then Ok dataByIndex
  else
    check ErrTooManyMissing (negb (bool_decide (parityShards < Z.of_nat (length missing)))) ≫= λ _,
    let paritySet := default ∅ (parityByGroup !! group) in
    check ErrInsufficientChunks (negb (bool_decide (size paritySet < length missing)%nat)) ≫= λ _,
    recovered ← recoverMissingGroupChunks start end_ (DA_ChunkSize proof) missing dataByIndex paritySet;
    Ok (foldl (λ dataByIndex '(index, data), <[index := trimRecoveredChunk data index proof]> dataByIndex)
          dataByIndex (o recovered)).

Fixpoint recover_groups (proof : DAProof) (parityShards : Z) (parityByGroup : gmap Z (gmap Z bytes))
    (dataByIndex : gmap Z bytes) (groups : list Z) : result (gmap Z bytes) :=
  match groups with
  | [] => Ok dataByIndex
  | group :: groups =>
      dataByIndex ← recover_group proof parityShards parityByGroup dataByIndex group;
      recover_groups proof parityShards parityByGroup dataByIndex groups
  end.

(** The chunks in order. *)
Fixpoint order_chunks (dataByIndex : gmap Z bytes) (indices : list Z) : result (list Chunk) :=
  match indices with
  | [] => Ok []
  | index :: indices =>
      match dataByIndex !! index with
      | None => Err ErrInsufficientChunks
      | Some data => cons (mkChunk index data) <$> order_chunks dataByIndex indices
      end
  end.

(** The part of [RecoverData] before the check of the commitment. *)
Definition recovered_chunks (proof : DAProof) (chunks parity : list Chunk) : result (list Chunk) :=
  let parityShards := if bool_decide (DA_ParityShards proof = 0) then 1 else DA_ParityShards proof in
  check ErrInvalidChunkProof
    (negb (bool_decide (DA_ChunkSize proof = 0) || bool_decide (DA_ChunkCount proof = 0) ||
           bool_decide (DA_DataShards proof = 0) || bool_decide (DA_EncodedSize proof = 0) ||
           bool_decide (parityShards = 0))) ≫= λ _,
  check ErrInvalidChunkProof
    (negb (bool_decide (maxErasureShards < DA_DataShards proof) ||
           bool_decide (maxErasureShards < parityShards))) ≫= λ _,
  check ErrInvalidChunkProof
    (negb (bool_decide (wrap64 (DA_ChunkSize proof * DA_ChunkCount proof) < DA_EncodedSize proof))) ≫= λ _,
  let groupCount := parityGroupCount (DA_ChunkCount proof) (DA_DataShards proof) in
  check ErrInvalidChunkProof
    (negb (bool_decide (DA_ParityCount proof ≠ 0) &&
           bool_decide (DA_ParityCount proof ≠ wrap64 (groupCount * parityShards)))) ≫= λ _,
  dataByIndex ← index_chunks proof ∅ chunks;
  parityByGroup ← index_parity proof parityShards ∅ parity;
  dataByIndex ← recover_groups proof parityShards parityByGroup dataByIndex (seqZ 0 groupCount);
  order_chunks dataByIndex (seqZ 0 (DA_ChunkCount proof)).

(** The slice of [EncodedSize] bytes is allocated with that capacity, so
    cutting it to [EncodedSize] fills up with zeros what the chunks leave. *)
Definition RecoverData (proof : DAProof) (chunks parity : list Chunk) : result bytes :=
  ordered ← recovered_chunks proof chunks parity;
  check ErrCommitmentMismatch (bool_decide (chunkRoot ordered = DA_Commitment proof)) ≫= λ _,
  check PanicMakeSlice (make_bytes_ok (DA_EncodedSize proof)) ≫= λ _,
  let size := Z.to_nat (DA_EncodedSize proof) in
  Ok (take size (concat (Chunk_Data <$> ordered) ++ replicate size x00)).

Definition RecoverTransactions (proof : DAProof) (chunks parity : list Chunk) : result (list Tx) :=
  RecoverData proof chunks parity ≫= decodeTransactions.
End recovery.

(** ** Sums of weighted chunks *)

Lemma xorMulInto_eq target source c :
  length source = length target →
  xorMulInto target source c = zip_with (λ t s, t ⊕ s ⊗ c) target source.
Proof.
  intros Hl. unfold xorMulInto, xorInto. repeat case_bool_decide; subst; [..|done]; revert source Hl;
    induction target as [|t target IH]; intros [|s source] Hl; simplify_eq/=; try done.
  - rewrite gfMul_0_r, xor_0_r. f_equal. by apply IH.
  - rewrite gfMul_1_r. f_equal. by apply IH.
Qed.

Lemma xorMulInto_length target source c :
  length source = length target → length (xorMulInto target source c) = length target.
Proof. intros Hl. rewrite xorMulInto_eq, length_zip_with by done. lia. Qed.

Section sums.
Context {A : Type} (v : A → bytes) (c : A → byte).

Lemma fold_xor_length acc l :
  (∀ i, i ∈ l → length (v i) = length acc) →
  length (foldl (λ acc i, xorMulInto acc (v i) (c i)) acc l) = length acc.
Proof.
  revert acc. induction l as [|i l IH]; intros acc Hl; cbn [foldl]; [done|].
  assert (length (xorMulInto acc (v i) (c i)) = length acc) as He by (apply xorMulInto_length, Hl; left).
  rewrite IH; [done|]. intros j Hj. rewrite He. apply Hl. by right.
Qed.

Lemma fold_xor_lookup acc l b a :
  (∀ i, i ∈ l → length (v i) = length acc) → acc !! b = Some a →
  foldl (λ acc i, xorMulInto acc (v i) (c i)) acc l !! b =
    Some (a ⊕ dot (c <$> l) ((λ i, gf_entry (v i) b) <$> l)).
Proof.
  revert acc a. induction l as [|i l IH]; intros acc a Hl Ha; cbn [foldl]; [by rewrite xor_0_r|].
  assert (length (v i) = length acc) as Hi by (apply Hl; left).
  assert (length (xorMulInto acc (v i) (c i)) = length acc) as He by (by apply xorMulInto_length).
  rewrite !fmap_cons, dot_cons, xor_assoc, (gfMul_comm (c i)). apply IH.
  - intros j Hj. rewrite He. apply Hl. by right.
  - rewrite xorMulInto_eq, lookup_zip_with, Ha, gf_entry_lookup by
      (done || (rewrite Hi; by eapply lookup_lt_Some)). done.
Qed.
End sums.

(** A sum over a list is the sum over the elements with a property and the sum
    over the others. *)
Lemma dot_filter {A} (f g : A → byte) (P : A → Prop) `{∀ x, Decision (P x)} l :
  dot (f <$> l) (g <$> l) =
    dot (f <$> filter P l) (g <$> filter P l) ⊕
    dot (f <$> filter (λ x, ¬ P x) l) (g <$> filter (λ x, ¬ P x) l).
Proof.
  induction l as [|x l IH]; [done|]. rewrite !filter_cons, !fmap_cons, dot_cons, IH.
  destruct (decide (P x)) as [Hp|Hp].
  - rewrite decide_False by tauto. by rewrite !fmap_cons, dot_cons, xor_assoc.
  - rewrite decide_True by done. rewrite !fmap_cons, dot_cons, !xor_assoc. f_equal. apply xor_comm.
Qed.

Lemma filter_ext_in {A} (P Q : A → Prop) `{∀ x, Decision (P x), ∀ x, Decision (Q x)} (l : list A) :
  (∀ x, x ∈ l → P x ↔ Q x) → filter P l = filter Q l.
Proof.
  induction l as [|x l IH]; intros Hl; [done|]. rewrite !filter_cons, IH by (intros; apply Hl; by right).
  specialize (Hl x ltac:(left)). destruct (decide (P x)), (decide (Q x)); tauto.
Qed.

Lemma paddedChunk_length d size : length (paddedChunk d size) = Z.to_nat size.
Proof. unfold paddedChunk. rewrite length_app, length_take, length_drop, !length_replicate. lia. Qed.

Lemma paddedChunk_trim d size :
  (length d ≤ Z.to_nat size)%nat → take (length d) (paddedChunk d size) = d.
Proof.
  intros Hl. unfold paddedChunk. rewrite length_replicate, (take_ge d) by done.
  apply take_app_length.
Qed.

Lemma containsMissing_spec missing i : containsMissing missing i = bool_decide (i ∈ missing).
Proof.
  unfold containsMissing. apply eq_true_iff_eq. rewrite existsb_exists, bool_decide_eq_true. split.
  - intros (x & Hx & Heq). rewrite bool_decide_eq_true in Heq. subst. by apply list_elem_of_In.
  - intros Hi. exists i. rewrite bool_decide_eq_true. split; [by apply list_elem_of_In|done].
Qed.

(** ** Recovering a group *)

(** A loop that stores for every key the value [g] gives. *)
Lemma fold_insert_lookup {B C} (f : Z → B → C) (g : Z → C) (m : gmap Z C) (l : list (Z * B)) k :
  (∀ i b, (i, b) ∈ l → f i b = g i) →
  foldl (λ m '(i, b), <[i := f i b]> m) m l !! k = if decide (k ∈ l.*1) then Some (g k) else m !! k.
Proof.
  revert m. induction l as [|[i b] l IH]; intros m Hf; cbn [foldl].
  { rewrite decide_False; [done|]. apply not_elem_of_nil. }
  rewrite IH by (intros; apply Hf; by right). rewrite fmap_cons. cbn [fst].
  destruct (decide (k ∈ l.*1)) as [Hk|Hk].
  { rewrite decide_True; [done|]. by right. }
  destruct (decide (k = i)) as [->|Hne].
  - rewrite decide_True by left. by rewrite lookup_insert_eq, (Hf i b) by left.
  - rewrite lookup_insert_ne by done. rewrite decide_False; [done|]. by intros [?|?]%elem_of_cons.
Qed.

Lemma dot_zip {A} (f : A → byte) (r : list A) (c : list byte) :
  dot (snd <$> zip r c) ((λ p, f p.1) <$> zip r c) = dot c (f <$> r).
Proof.
  revert c. induction r as [|a r IH]; intros [|b c]; try done.
  change (zip (a :: r) (b :: c)) with ((a, b) :: zip r c). rewrite !fmap_cons, !dot_cons. by rewrite IH.
Qed.

Section group.
Context (o : MapOrder Z bytes) (chunk : Z → bytes) (size start end_ : Z).
Hypothesis (Hrange : 0 ≤ start ∧ end_ < two64).

Let pad (i : Z) : bytes := paddedChunk (chunk i) size.
Let idxs : list Z := seqZ start (end_ - start).
Let coef (x : byte) (i : Z) : byte := gfPow x (i - start).

(** The bytes of the parity chunk of a shard. *)
Definition parity_data (k : Z) : bytes :=
  foldl (λ acc i, xorMulInto acc (pad i) (coef (shard_element k) i)) (replicate (Z.to_nat size) x00) idxs.

Context (dataByIndex paritySet : gmap Z bytes).
Hypothesis (Hdata : map_Forall (λ i d, d = chunk i) dataByIndex)
  (Hparity : map_Forall (λ k d, d = parity_data k) paritySet).

Let missing : list Z := filter (λ i, dataByIndex !! i = None) idxs.

Lemma pad_length i : length (pad i) = Z.to_nat size.
Proof. apply paddedChunk_length. Qed.

Lemma idxs_range i : i ∈ idxs → wrap64 (i - start) = i - start.
Proof. intros Hi%elem_of_seqZ. apply wrap64_small. unfold is_u64. lia. Qed.

Lemma adjust_parity_spec x adjusted l :
  l ⊆ idxs →
  adjust_parity x start size missing dataByIndex adjusted l =
    Ok (foldl (λ acc i, xorMulInto acc (pad i) (coef x i)) adjusted (filter (λ i, i ∉ missing) l)).
Proof.
  revert adjusted. induction l as [|i l IH]; intros adjusted Hl; [done|]. cbn [adjust_parity].
  assert (i ∈ idxs) as Hi by (apply Hl; left). assert (l ⊆ idxs) as Hl' by (intros j Hj; apply Hl; by right).
  rewrite containsMissing_spec, filter_cons. case_bool_decide as Hm.
  { rewrite decide_False by tauto. by apply IH. }
  rewrite decide_True by done. destruct (dataByIndex !! i) as [d|] eqn:Hd.
  - rewrite (Hdata i d Hd), idxs_range by done. cbn [foldl]. by apply IH.
  - destruct Hm. apply list_elem_of_filter. done.
Qed.

(** The right side of the equation of a shard. *)
Definition right_side (k : Z) : bytes :=
  foldl (λ acc i, xorMulInto acc (pad i) (coef (shard_element k) i)) (parity_data k)
    (filter (λ i, i ∉ missing) idxs).

Definition missing_powers (k : Z) : list byte := coef (shard_element k) <$> missing.

Lemma parity_data_length k : length (parity_data k) = Z.to_nat size.
Proof.
  unfold parity_data. rewrite fold_xor_length; [apply length_replicate|].
  intros i _. by rewrite length_replicate, pad_length.
Qed.

Lemma right_side_length k : length (right_side k) = Z.to_nat size.
Proof.
  unfold right_side. rewrite fold_xor_length; [apply parity_data_length|].
  intros i _. by rewrite parity_data_length, pad_length.
Qed.

Lemma right_side_lookup k b :
  (b < Z.to_nat size)%nat →
  right_side k !! b = Some (dot (missing_powers k) ((λ i, gf_entry (pad i) b) <$> missing)).
Proof.
  intros Hb. set (x := shard_element k). set (col := λ i, gf_entry (pad i) b).
  assert (parity_data k !! b = Some (dot (coef x <$> idxs) (col <$> idxs))) as Hp.
  { unfold parity_data. rewrite (fold_xor_lookup _ _ _ _ b x00); [by rewrite xor_0_l| |].
    - intros i _. by rewrite length_replicate, pad_length.
    - by apply lookup_replicate_2. }
  unfold right_side. erewrite fold_xor_lookup; [|intros i _; by rewrite parity_data_length, pad_length|exact Hp].
  rewrite (dot_filter _ _ (λ i, dataByIndex !! i = None)).
  rewrite (filter_ext_in (λ i, i ∉ missing) (λ i, ¬ dataByIndex !! i = None) idxs).
  - f_equal. apply xor_cancel.
  - intros i Hi. unfold missing. rewrite list_elem_of_filter. tauto.
Qed.

Lemma equations_spec shards :
  (∀ k, k ∈ shards → is_Some (paritySet !! k)) →
  equations start end_ size missing dataByIndex paritySet shards =
    Ok ((λ k, (missing_powers k, right_side k)) <$> shards).
Proof.
  induction shards as [|k shards IH]; intros Hs; [done|]. cbn [equations].
  rewrite IH by (intros; apply Hs; by right). destruct (Hs k ltac:(left)) as [d Hd].
  unfold shard_equation. rewrite Hd, (Hparity k d Hd). cbn [default].
  rewrite adjust_parity_spec by done. cbn [mbind result_bind]. rewrite fmap_cons. do 3 f_equal.
  unfold missing_powers. apply list_fmap_ext. intros j i Hi. unfold coef. f_equal. apply idxs_range.
  apply list_elem_of_lookup_2 in Hi. unfold missing in Hi. by apply list_elem_of_filter in Hi as [_ Hi].
Qed.

Lemma combine_rows_spec shards coefficients i c :
  missing !! c = Some i → length shards = length missing →
  (∀ x, length x = length missing →
     x !! c = Some (dot coefficients ((λ row, dot row x) <$> (missing_powers <$> shards)))) →
  combine_rows size (right_side <$> shards) coefficients = pad i.
Proof.
  intros Hc Hlen Hinv. unfold combine_rows.
  assert (∀ p, p ∈ zip (right_side <$> shards) coefficients → length p.1 = Z.to_nat size) as Hrows.
  { intros [r q] Hp%elem_of_zip_l. apply list_elem_of_fmap in Hp as (k & -> & _). apply right_side_length. }
  set (acc := replicate _ _).
  assert (∀ p, p ∈ zip (right_side <$> shards) coefficients → length p.1 = length acc) as Hacc.
  { intros p Hp. unfold acc. rewrite length_replicate. by apply Hrows. }
  apply list_eq. intros b. destruct (decide (b < Z.to_nat size)%nat) as [Hb|Hb].
  - rewrite (fold_xor_lookup fst snd acc _ b x00) by (done || by apply lookup_replicate_2).
    rewrite xor_0_l, (dot_zip (λ r, gf_entry r b)), (gf_entry_lookup (pad i)) by (by rewrite pad_length).
    f_equal. specialize (Hinv ((λ i, gf_entry (pad i) b) <$> missing) (length_fmap _ _)).
    rewrite list_lookup_fmap, Hc in Hinv. cbn in Hinv. injection Hinv as ->. f_equal.
    rewrite <-!list_fmap_compose. apply list_fmap_ext. intros j k _. cbn.
    by apply gf_entry_Some, right_side_lookup.
  - rewrite !lookup_ge_None_2; [done|rewrite pad_length; lia|].
    rewrite (fold_xor_length fst snd) by done. unfold acc. rewrite length_replicate. lia.
Qed.

Definition used_shards : list Z := take (length missing) (sortedParityShards o paritySet).

Lemma sortedParityShards_length : length (sortedParityShards o paritySet) = base.size paritySet.
Proof.
  unfold sortedParityShards. rewrite sort_by_length, length_fmap, (map_range_perm o paritySet).
  apply length_map_to_list.
Qed.

Lemma used_shards_Some k : k ∈ used_shards → is_Some (paritySet !! k).
Proof.
  unfold used_shards. intros Hk%elem_of_take. destruct Hk as (i & Hk & _). apply list_elem_of_lookup_2 in Hk.
  unfold sortedParityShards in Hk. rewrite elem_of_sort_by in Hk.
  apply list_elem_of_fmap in Hk as ([k' d] & -> & Hd). apply elem_of_map_range in Hd. by exists d.
Qed.

Lemma missing_nodup : NoDup missing.
Proof. apply NoDup_filter, NoDup_seqZ. Qed.

(** The missing chunks are recovered, padded; a failure shows that the chosen
    equations have more than one solution. *)
Lemma recover_missing_spec :
  missing ≠ [] → (length missing ≤ base.size paritySet)%nat →
  match recoverMissingGroupChunks o start end_ size missing dataByIndex paritySet with
  | Ok recovered => ∀ i, recovered !! i = if decide (i ∈ missing) then Some (pad i) else None
  | Err e => e = ErrInsufficientChunks ∧
             ∃ z, length z = length missing ∧ nonzero z ∧ in_kernel (missing_powers <$> used_shards) z
  end.
Proof.
  intros Hne Hle. unfold recoverMissingGroupChunks. fold used_shards.
  rewrite bool_decide_eq_false_2 by (rewrite sortedParityShards_length; lia).
  cbn [negb check mbind result_bind]. rewrite equations_spec by apply used_shards_Some.
  cbn [mbind result_bind]. rewrite <-!list_fmap_compose. cbn [fst snd].
  change (fst ∘ λ k, (missing_powers k, right_side k)) with missing_powers.
  change (snd ∘ λ k, (missing_powers k, right_side k)) with right_side.
  assert (length used_shards = length missing) as Hlen.
  { unfold used_shards. rewrite length_take, sortedParityShards_length. lia. }
  pose proof (invertMatrix_spec (missing_powers <$> used_shards)) as Hinv. rewrite length_fmap, Hlen in Hinv.
  specialize (Hinv ltac:(destruct used_shards; [by destruct missing|done])).
  specialize (Hinv ltac:(rewrite Forall_fmap; apply Forall_forall; intros k _; apply length_fmap)).
  destruct (invertMatrix _) as [inverse|e]; [|by destruct Hinv as [_ ?]].
  destruct Hinv as [Hil Hinv]. intros i.
  rewrite (fold_insert_lookup (λ _ c, combine_rows size (right_side <$> used_shards) c) pad), lookup_empty.
  - by rewrite fst_zip by lia.
  - intros j c Hjc. apply list_elem_of_lookup_1 in Hjc as [p Hp]. apply lookup_zip_Some in Hp as [Hm Hc].
    apply (combine_rows_spec _ _ _ p); [done..|]. intros x Hx.
    destruct (Hinv x p Hx ltac:(rewrite <-Hil; by eapply lookup_lt_Some)) as (row & Hrow & Hxp). congruence.
Qed.
End group.

(** ** Indexing the given chunks *)

Definition chunk_pair (c : Chunk) : Z * bytes := (Chunk_Index c, Chunk_Data c).

Lemma index_chunks_spec proof chunks m :
  Forall (λ c, Chunk_Index c < DA_ChunkCount proof ∧ Z.of_nat (length (Chunk_Data c)) ≤ DA_ChunkSize proof) chunks →
  NoDup (Chunk_Index <$> chunks) → (∀ c, c ∈ chunks → m !! Chunk_Index c = None) →
  index_chunks proof m chunks = Ok (list_to_map (chunk_pair <$> chunks) ∪ m).
Proof.
  intros Hall. revert m. induction Hall as [|c chunks [Hi Hd] Hall IH]; intros m Hnd Hm; cbn [index_chunks].
  { by rewrite left_id_L by apply _. }
  rewrite fmap_cons in Hnd. apply NoDup_cons in Hnd as [Hc Hnd].
  rewrite !bool_decide_eq_false_2 by lia. cbn [orb].
  rewrite bool_decide_eq_false_2 by (rewrite (Hm c) by left; intros [? ?]; done).
  rewrite IH; [|done|].
  - rewrite fmap_cons. change (chunk_pair c) with (Chunk_Index c, Chunk_Data c). f_equal.
    rewrite list_to_map_cons, <-insert_union_l, insert_union_r; [done|].
    apply not_elem_of_list_to_map_1. rewrite <-list_fmap_compose. exact Hc.
  - intros c' Hc'. rewrite lookup_insert_ne; [apply Hm; by right|]. intros Heq. apply Hc. rewrite Heq.
    by apply list_elem_of_fmap_2.
Qed.

(** The group and the shard of a parity chunk. *)
Definition in_group (ps group : Z) (c : Chunk) : Prop := Chunk_Index c / ps = group.
#[global] Instance in_group_dec ps group c : Decision (in_group ps group c).
Proof. unfold in_group. apply _. Defined.

Definition shard_pair (ps : Z) (c : Chunk) : Z * bytes := (Chunk_Index c mod ps, Chunk_Data c).

(** The parity chunks of a group, by shard. *)
Definition group_parity (ps : Z) (parity : list Chunk) (group : Z) : gmap Z bytes :=
  list_to_map (shard_pair ps <$> filter (in_group ps group) parity).

Lemma shard_inj ps g i j : 0 < ps → i / ps = g → j / ps = g → i mod ps = j mod ps → i = j.
Proof. intros Hps Hi Hj Hm. rewrite (Z.div_mod i ps), (Z.div_mod j ps) by lia. congruence. Qed.

Lemma group_parity_fresh ps parity c :
  0 < ps → Chunk_Index c ∉ Chunk_Index <$> parity →
  group_parity ps parity (Chunk_Index c / ps) !! (Chunk_Index c mod ps) = None.
Proof.
  intros Hps Hc. apply not_elem_of_list_to_map_1. rewrite <-list_fmap_compose.
  intros (c' & Hmod & Hin)%list_elem_of_fmap. apply list_elem_of_filter in Hin as [Hg Hin].
  apply Hc, list_elem_of_fmap. exists c'. split; [|done]. by eapply shard_inj.
Qed.

Lemma index_parity_spec proof ps parity pm :
  0 < ps →
  Forall (λ c, Z.of_nat (length (Chunk_Data c)) = DA_ChunkSize proof ∧
               Chunk_Index c / ps < parityGroupCount (DA_ChunkCount proof) (DA_DataShards proof)) parity →
  NoDup (Chunk_Index <$> parity) →
  (∀ c, c ∈ parity → default ∅ (pm !! (Chunk_Index c / ps)) !! (Chunk_Index c mod ps) = None) →
  ∃ pm', index_parity proof ps pm parity = Ok pm' ∧
    ∀ g, default ∅ (pm' !! g) = group_parity ps parity g ∪ default ∅ (pm !! g).
Proof.
  intros Hps Hall. revert pm. induction Hall as [|c parity [Hd Hg] Hall IH]; intros pm Hnd Hpm; cbn [index_parity].
  { exists pm. split; [done|]. intros g. unfold group_parity. cbn. by rewrite left_id_L by apply _. }
  rewrite fmap_cons in Hnd. apply NoDup_cons in Hnd as [Hc Hnd].
  set (g := Chunk_Index c / ps) in *. set (k := Chunk_Index c mod ps).
  rewrite (bool_decide_eq_false_2 (_ ≠ _)), (bool_decide_eq_false_2 (_ ≤ g)) by lia.
  assert (default ∅ (pm !! g) !! k = None) as Hk by (apply (Hpm c); left).
  rewrite (bool_decide_eq_false_2 (is_Some _)) by (rewrite Hk; intros [? ?]; done).
  destruct (IH (<[g := <[k := Chunk_Data c]> (default ∅ (pm !! g))]> pm) Hnd) as (pm' & Heq & Hpm').
  { intros c' Hc'. destruct (decide (Chunk_Index c' / ps = g)) as [Hg'|Hg'].
    - rewrite Hg', lookup_insert_eq. cbn [from_option id]. rewrite lookup_insert_ne.
      + rewrite <-Hg'. apply Hpm. by right.
      + intros Hmod. apply Hc, list_elem_of_fmap. exists c'. split; [|done]. by eapply shard_inj.
    - rewrite lookup_insert_ne by done. apply Hpm. by right. }
  exists pm'. split; [done|]. intros g'. rewrite Hpm'. unfold group_parity. rewrite filter_cons.
  destruct (decide (in_group ps g' c)) as [Hin|Hin].
  - unfold in_group in Hin. fold g in Hin. subst g'. rewrite lookup_insert_eq, fmap_cons. cbn [from_option id].
    change (shard_pair ps c) with (k, Chunk_Data c). rewrite list_to_map_cons, <-insert_union_l, insert_union_r; [done|].
    by apply group_parity_fresh.
  - by rewrite lookup_insert_ne.
Qed.

(** ** Recovering all chunks *)

Lemma foldl_ext_in {A B} (f g : A → B → A) (l : list B) a :
  (∀ a b, b ∈ l → f a b = g a b) → foldl f a l = foldl g a l.
Proof.
  revert a. induction l as [|b l IH]; intros a Hl; [done|]. cbn [foldl]. rewrite Hl by left.
  apply IH. intros; apply Hl; by right.
Qed.

(** The chunks of a group that are not among the given ones, and the shards of
    its given parity chunks. *)
Definition missing_chunks (chunkCount dataShards : Z) (chunks : list Chunk) (group : Z) : list Z :=
  let start := group * dataShards in
  filter (λ index, index ∉ Chunk_Index <$> chunks)
    (seqZ start (Z.min chunkCount (start + dataShards) - start)).

Definition given_shards (ps : Z) (parity : list Chunk) (group : Z) : list Z :=
  sort_by id Z.le ((λ c, Chunk_Index c mod ps) <$> filter (in_group ps group) parity).

(** The equations recovery chooses for a group have one solution only. *)
Definition solvable (chunkCount dataShards ps : Z) (chunks parity : list Chunk) (group : Z) : Prop :=
  let missing := missing_chunks chunkCount dataShards chunks group in
  ∀ z, length z = length missing →
    in_kernel (powers (shard_element <$> take (length missing) (given_shards ps parity group))
                 ((λ i, i - group * dataShards) <$> missing)) z → zeros z.

(** The losses the code is sure to repair: in every group at most as many chunks
    are missing as parity chunks are given, and there are at most two parity
    chunks per group or the missing chunks are consecutive. *)
Definition repairable (chunkCount ds ps : Z) (chunks parity : list Chunk) : Prop :=
  ∀ group, 0 ≤ group < parityGroupCount chunkCount ds →
    let missing := missing_chunks chunkCount ds chunks group in
    (length missing ≤ length (given_shards ps parity group))%nat ∧
    (ps ≤ 2 ∨ ∃ first, missing = seqZ first (Z.of_nat (length missing))).

Section whole.
Context (data : bytes) (size ds ps : Z).
Hypothesis (Hsize : 0 < size) (Hlen : 0 < Z.of_nat (length data)) (Hfit : Z.of_nat (length data) + size < 2 ^ 40)
  (Hds : 0 < ds ≤ 255) (Hps : 0 < ps ≤ 255).

Let n : Z := chunk_count (Z.of_nat (length data)) size.
Let chunk (i : Z) : bytes := take (Z.to_nat size) (drop (Z.to_nat i * Z.to_nat size) data).
Let all_chunks : list Chunk := map (chunk_at data (Z.to_nat size)) (seq 0 (Z.to_nat n)).

Lemma count_bounds : 0 < n < 2 ^ 41.
Proof.
  pose proof (chunk_count_bound (Z.of_nat (length data)) size ltac:(lia) Hsize). unfold n.
  assert (1 ≤ chunk_count (Z.of_nat (length data)) size) by (unfold chunk_count; lia). lia.
Qed.

Lemma count_tight : (n - 1) * size < Z.of_nat (length data) ≤ n * size.
Proof.
  pose proof (chunk_count_enough (Z.of_nat (length data)) size ltac:(lia) Hsize). unfold n in *.
  split; [|done]. unfold chunk_count. pose proof (Z.div_mod (Z.of_nat (length data) + size - 1) size ltac:(lia)).
  pose proof (Z.mod_pos_bound (Z.of_nat (length data) + size - 1) size Hsize). nia.
Qed.

Lemma group_count : parityGroupCount n ds = (n + ds - 1) / ds.
Proof.
  pose proof count_bounds. unfold parityGroupCount. rewrite !bool_decide_eq_false_2 by lia. cbn [orb].
  rewrite (wrap64_small (n + ds)), wrap64_small by (unfold is_u64, two64; lia). done.
Qed.

Lemma group_in_range g : 0 ≤ g < parityGroupCount n ds → g * ds < n.
Proof.
  rewrite group_count. intros Hg. pose proof (Z.div_mod (n + ds - 1) ds ltac:(lia)).
  pose proof (Z.mod_pos_bound (n + ds - 1) ds ltac:(lia)). nia.
Qed.

Lemma group_range_eq g :
  0 ≤ g < parityGroupCount n ds → group_range n ds g = (g * ds, Z.min n (g * ds + ds)).
Proof.
  intros Hg. pose proof (group_in_range g Hg). pose proof count_bounds. unfold group_range.
  rewrite (wrap64_small (g * ds)), wrap64_small by (unfold is_u64, two64; nia).
  f_equal. case_bool_decide; lia.
Qed.

Lemma all_chunks_lookup i : 0 ≤ i < n → all_chunks !! Z.to_nat i = Some (mkChunk i (chunk i)).
Proof.
  intros Hi. unfold all_chunks. rewrite chunks_lookup by lia. unfold chunk_at. by rewrite Z2Nat.id by lia.
Qed.

Lemma all_chunks_length : Z.of_nat (length all_chunks) = n.
Proof. pose proof count_bounds. unfold all_chunks. rewrite length_map, length_seq. lia. Qed.

Lemma elem_of_all_chunks c : c ∈ all_chunks ↔ 0 ≤ Chunk_Index c < n ∧ Chunk_Data c = chunk (Chunk_Index c).
Proof.
  split.
  - intros (k & -> & Hk)%list_elem_of_fmap. apply elem_of_seq in Hk. cbn. unfold chunk.
    rewrite Nat2Z.id. split; [lia|done].
  - intros [Hi Hd]. apply (list_elem_of_lookup_2 _ (Z.to_nat (Chunk_Index c))).
    rewrite all_chunks_lookup by done. destruct c; cbn in *. by subst.
Qed.

Lemma parity_chunk_eq g k :
  0 ≤ g < parityGroupCount n ds → 0 ≤ k < ps →
  parity_chunk all_chunks size ds ps g k =
    mkChunk (g * ps + k) (parity_data chunk size (g * ds) (Z.min n (g * ds + ds)) k).
Proof.
  intros Hg Hk. unfold parity_chunk. rewrite all_chunks_length, group_range_eq by done.
  pose proof (group_in_range g Hg). pose proof count_bounds.
  rewrite (wrap64_small (g * ps)), wrap64_small by (unfold is_u64, two64; nia). f_equal.
  unfold parity_data. apply foldl_ext_in. intros acc i Hi%elem_of_seqZ.
  rewrite all_chunks_lookup, wrap64_small by (unfold is_u64, two64; lia). done.
Qed.

(** The parity chunks, and the proof of the data. *)
Let all_parity : list Chunk :=
  concat (map (λ g, map (parity_chunk all_chunks size ds ps g) (seqZ 0 ps)) (seqZ 0 (parityGroupCount n ds))).

Lemma reedSolomon_eq built : reedSolomonParityChunks all_chunks size ds ps = Ok built → built = all_parity.
Proof.
  pose proof count_bounds as Hn. pose proof all_chunks_length as Hl. unfold reedSolomonParityChunks.
  rewrite Hl, !bool_decide_eq_false_2 by lia. cbn [orb]. intros Hb. by result_inv Hb.
Qed.

Context (commitment : Hash) (txCount totalBytes : Z).
Let proof : DAProof :=
  mkDAProof commitment txCount totalBytes (Z.of_nat (length data)) size n ds ps
    (wrap64 (parityGroupCount n ds * ps)).

Lemma elem_of_all_parity c :
  c ∈ all_parity → ∃ g k, 0 ≤ g < parityGroupCount n ds ∧ 0 ≤ k < ps ∧
    c = mkChunk (g * ps + k) (parity_data chunk size (g * ds) (Z.min n (g * ds + ds)) k).
Proof.
  unfold all_parity. intros (l & Hl & Hc)%list_elem_of_In%in_concat.
  apply in_map_iff in Hl as (g & <- & Hg%list_elem_of_In%elem_of_seqZ).
  apply in_map_iff in Hc as (k & <- & Hk%list_elem_of_In%elem_of_seqZ).
  exists g, k. split_and!; [lia..|]. apply parity_chunk_eq; lia.
Qed.

Lemma trim_padded i : 0 ≤ i < n → trimRecoveredChunk (paddedChunk (chunk i) size) i proof = chunk i.
Proof.
  intros Hi. pose proof count_bounds as Hn. pose proof count_tight as [Hlt Hle].
  assert (length (chunk i) = Z.to_nat (Z.min size (Z.of_nat (length data) - i * size))) as Hci.
  { unfold chunk. rewrite length_take, length_drop. nia. }
  unfold trimRecoveredChunk. cbn [proof DA_ChunkSize DA_ChunkCount DA_EncodedSize].
  rewrite (wrap64_small (n - 1)), (wrap64_small (size * _)), wrap64_small by (unfold is_u64, two64; nia).
  match goal with |- take (Z.to_nat ?e) _ = _ => assert (e = Z.of_nat (length (chunk i))) as -> end.
  { rewrite Hci. repeat case_bool_decide; subst; nia. }
  rewrite Nat2Z.id. apply paddedChunk_trim. rewrite Hci. lia.
Qed.

(** Some of the chunks and of the parity chunks are given. *)
Context (o : MapOrder Z bytes) (chunks parity : list Chunk).
Hypothesis (Hchunks : chunks ⊆ all_chunks) (Hcnd : NoDup (Chunk_Index <$> chunks))
  (Hparity : parity ⊆ all_parity) (Hpnd : NoDup (Chunk_Index <$> parity)).

Let group_end (g : Z) : Z := Z.min n (g * ds + ds).

Lemma shards_nodup g : NoDup ((λ c, Chunk_Index c mod ps) <$> filter (in_group ps g) parity).
Proof.
  rewrite (list_fmap_compose Chunk_Index (λ i, i mod ps)). apply NoDup_fmap_2_strong.
  - intros i j (c & -> & [Hc _]%list_elem_of_filter)%list_elem_of_fmap.
    intros (c' & -> & [Hc' _]%list_elem_of_filter)%list_elem_of_fmap. apply (shard_inj ps g); [lia|done..].
  - eapply sublist_NoDup; [exact Hpnd|]. apply fmap_sublist, sublist_filter.
Qed.

Lemma shards_range g : Forall (λ k, 0 ≤ k < ps) (given_shards ps parity g).
Proof.
  apply Forall_forall. intros k Hk. unfold given_shards in Hk. rewrite elem_of_sort_by in Hk.
  apply list_elem_of_fmap in Hk as (c & -> & _). apply Z.mod_pos_bound. lia.
Qed.

Lemma given_shards_nodup g : NoDup (given_shards ps parity g).
Proof. unfold given_shards. rewrite sort_by_perm. apply shards_nodup. Qed.

Lemma given_shards_length g : (length (given_shards ps parity g) ≤ Z.to_nat ps)%nat.
Proof.
  rewrite <-(length_seqZ 0 ps). apply submseteq_length, NoDup_submseteq; [apply given_shards_nodup|].
  intros k Hk. apply elem_of_seqZ. pose proof (shards_range g) as Hr. rewrite Forall_forall in Hr.
  specialize (Hr k Hk). lia.
Qed.

Lemma group_parity_keys g :
  (map_to_list (group_parity ps parity g)).*1 ≡ₚ (λ c, Chunk_Index c mod ps) <$> filter (in_group ps g) parity.
Proof.
  unfold group_parity. rewrite map_to_list_to_map; rewrite <-?list_fmap_compose; [done|]. apply shards_nodup.
Qed.

Lemma sorted_given g : sortedParityShards o (group_parity ps parity g) = given_shards ps parity g.
Proof.
  unfold sortedParityShards, given_shards. apply (sort_by_unique id Z.le).
  - rewrite list_fmap_id, (map_range_perm o), group_parity_keys. apply shards_nodup.
  - by rewrite (map_range_perm o), group_parity_keys.
Qed.

Lemma group_parity_size g : base.size (group_parity ps parity g) = length (given_shards ps parity g).
Proof.
  unfold given_shards. rewrite sort_by_length, <-length_map_to_list, <-(length_fmap fst).
  by rewrite group_parity_keys.
Qed.

Lemma group_parity_data g :
  map_Forall (λ k d, d = parity_data chunk size (g * ds) (group_end g) k) (group_parity ps parity g).
Proof.
  intros k d Hk. apply elem_of_list_to_map_2 in Hk.
  apply list_elem_of_fmap in Hk as (c & [= -> ->] & Hc). apply list_elem_of_filter in Hc as [Hg Hc].
  apply Hparity, elem_of_all_parity in Hc as (g' & k' & Hg' & Hk' & ->). unfold in_group in Hg.
  cbn [Chunk_Index Chunk_Data] in *. rewrite (Z.add_comm (g' * ps)), Z.div_add, Z.div_small in Hg by lia.
  rewrite (Z.add_comm (g' * ps)), Z.mod_add, Z.mod_small by lia. by replace g' with g by lia.
Qed.

(** ** Losses with a unique solution *)

Lemma shard_element_inj k k' :
  0 ≤ k < 255 → 0 ≤ k' < 255 → shard_element k = shard_element k' → k = k'.
Proof.
  intros Hk Hk' Heq. unfold shard_element in Heq.
  rewrite !wrap64_small in Heq by (unfold is_u64, two64; lia).
  apply (f_equal byte_to_Z) in Heq. rewrite !byte_to_Z_of_Z, !Z.mod_small in Heq by lia. lia.
Qed.

Lemma shard_element_nonzero k : 0 ≤ k < 255 → shard_element k ≠ x00.
Proof.
  intros Hk Heq. unfold shard_element in Heq. rewrite wrap64_small in Heq by (unfold is_u64, two64; lia).
  apply (f_equal byte_to_Z) in Heq. rewrite byte_to_Z_of_Z, Z.mod_small in Heq by lia.
  change (byte_to_Z x00) with 0 in Heq. lia.
Qed.

Lemma used_elements g m :
  NoDup (shard_element <$> take m (given_shards ps parity g)) ∧
  x00 ∉ shard_element <$> take m (given_shards ps parity g).
Proof.
  pose proof (shards_range g) as Hr. rewrite Forall_forall in Hr.
  assert (∀ k, k ∈ take m (given_shards ps parity g) → 0 ≤ k < 255) as Hk.
  { intros k (i & Hi & _)%elem_of_take. apply list_elem_of_lookup_2, Hr in Hi. lia. }
  split.
  - apply NoDup_fmap_2_strong; [|eapply sublist_NoDup; [apply (given_shards_nodup g)|apply sublist_take]].
    intros k k' H1 H2. apply shard_element_inj; by apply Hk.
  - intros (k & Heq & Hin)%list_elem_of_fmap. by apply (shard_element_nonzero k); [apply Hk|].
Qed.

(** A run of consecutive chunks of a group is lost. *)
Lemma solvable_consecutive g j :
  (length (missing_chunks n ds chunks g) ≤ length (given_shards ps parity g))%nat →
  missing_chunks n ds chunks g = seqZ j (Z.of_nat (length (missing_chunks n ds chunks g))) →
  solvable n ds ps chunks parity g.
Proof.
  intros Hle Hrun. unfold solvable. set (missing := missing_chunks n ds chunks g) in *.
  intros z Hz Hk. destruct (decide (length missing = 0%nat)) as [H0|H0].
  { rewrite H0 in Hz. apply nil_length_inv in Hz as ->. constructor. }
  set (xs := shard_element <$> take (length missing) (given_shards ps parity g)) in *.
  assert (length xs = length missing) as Hxs by (unfold xs; rewrite length_fmap, length_take; lia).
  destruct (used_elements g (length missing)) as [Hnd Hnz]. fold xs in Hnd, Hnz.
  assert (j ∈ missing) as Hj by (rewrite Hrun; apply elem_of_seqZ; lia).
  apply (powers_consecutive xs (j - g * ds)); [done|done| |congruence|].
  - unfold missing, missing_chunks in Hj. apply list_elem_of_filter in Hj as [_ Hj%elem_of_seqZ]. lia.
  - rewrite Hxs. rewrite Hrun in Hk.
    replace (seqZ (j - g * ds) (Z.of_nat (length missing)))
      with ((λ i, i - g * ds) <$> seqZ j (Z.of_nat (length missing))); [done|].
    replace (j - g * ds) with (- (g * ds) + j) by lia. rewrite <-fmap_add_seqZ.
    apply list_fmap_ext. intros. lia.
Qed.

Lemma solvable_two g :
  ps ≤ 2 → (length (missing_chunks n ds chunks g) ≤ length (given_shards ps parity g))%nat →
  solvable n ds ps chunks parity g.
Proof.
  intros Hps2 Hle. pose proof (given_shards_length g) as Hmax. pose proof (shards_range g) as Hr.
  pose proof (given_shards_nodup g) as Hnd.
  destruct (missing_chunks n ds chunks g) as [|i [|i' [|]]] eqn:Hmiss; cbn [length] in *; [| | |lia].
  - apply (solvable_consecutive g 0); rewrite Hmiss; [cbn; lia|done].
  - apply (solvable_consecutive g i); rewrite Hmiss; [done|].
    change (length [i]) with 1%nat. rewrite seqZ_cons by lia. by rewrite seqZ_nil by lia.
  - assert (NoDup [i; i']) as Hii.
    { rewrite <-Hmiss. apply NoDup_filter, NoDup_seqZ. }
    assert (∀ j, j ∈ [i; i'] → 0 ≤ j - g * ds < 255) as Hij.
    { rewrite <-Hmiss. unfold missing_chunks. intros j [_ Hj%elem_of_seqZ]%list_elem_of_filter. lia. }
    unfold solvable. rewrite Hmiss. intros z Hz.
    pose proof (sort_by_sorted id Z.le ((λ c, Chunk_Index c mod ps) <$> filter (in_group ps g) parity)) as Hs.
    fold (given_shards ps parity g) in Hs. rewrite list_fmap_id in Hs.
    destruct (given_shards ps parity g) as [|a [|b [|]]]; cbn [length] in *; [lia|lia| |lia].
    apply Forall_cons in Hr as [Ha Hr]. apply Forall_cons in Hr as [Hb _].
    apply StronglySorted_cons in Hs as [Hab _]. apply Forall_cons in Hab as [Hab _].
    apply NoDup_cons in Hnd as [Hne _]. assert (a ≠ b) by (intros ->; apply Hne; left).
    assert (a = 0) as -> by lia. assert (b = 1) as -> by lia.
    apply NoDup_cons in Hii as [Hii _]. assert (i ≠ i') by (intros ->; apply Hii; left).
    apply powers_two; [apply Hij; left|apply Hij; right; left|lia|done].
Qed.

Lemma repairable_solvable :
  repairable n ds ps chunks parity →
  ∀ g, 0 ≤ g < parityGroupCount n ds →
    (length (missing_chunks n ds chunks g) ≤ length (given_shards ps parity g))%nat ∧
    solvable n ds ps chunks parity g.
Proof.
  intros Hrep g Hg. destruct (Hrep g Hg) as [Hle [Htwo|[first Hrun]]]; (split; [done|]).
  - by apply solvable_two.
  - by apply (solvable_consecutive g first).
Qed.

Hypothesis (Henough : ∀ g, 0 ≤ g < parityGroupCount n ds →
  (length (missing_chunks n ds chunks g) ≤ length (given_shards ps parity g))%nat ∧
  solvable n ds ps chunks parity g).

Section with_parity.
Context (pm : gmap Z (gmap Z bytes)).
Hypothesis (Hpm : ∀ g, default ∅ (pm !! g) = group_parity ps parity g).

(** What is indexed are chunks of the data. *)
Definition true_chunks (m : gmap Z bytes) : Prop := map_Forall (λ i d, 0 ≤ i < n ∧ d = chunk i) m.

(** The missing chunks of a group, as recovery computes them. *)
Lemma missing_chunks_eq (m : gmap Z bytes) g :
  (∀ i, g * ds ≤ i → m !! i = None ↔ i ∉ Chunk_Index <$> chunks) →
  filter (λ i, m !! i = None) (seqZ (g * ds) (group_end g - g * ds)) = missing_chunks n ds chunks g.
Proof. intros Hgiven. apply filter_ext_in. intros i Hi%elem_of_seqZ. apply Hgiven. lia. Qed.

Lemma not_missing m g i :
  true_chunks m → (∀ i, g * ds ≤ i → m !! i = None ↔ i ∉ Chunk_Index <$> chunks) →
  g * ds ≤ i < group_end g → i ∉ missing_chunks n ds chunks g → m !! i = Some (chunk i).
Proof.
  intros Hm Hgiven Hi Hnot. destruct (m !! i) as [d|] eqn:Hd; [by apply Hm in Hd as [_ ->]|].
  destruct Hnot. rewrite <-(missing_chunks_eq m) by done. apply list_elem_of_filter.
  split; [done|]. apply elem_of_seqZ. lia.
Qed.

Lemma missing_in_group g i : i ∈ missing_chunks n ds chunks g → g * ds ≤ i < group_end g.
Proof. unfold missing_chunks. intros [_ Hi%elem_of_seqZ]%list_elem_of_filter. unfold group_end. lia. Qed.

Lemma recover_group_spec m g :
  true_chunks m → 0 ≤ g < parityGroupCount n ds →
  (∀ i, g * ds ≤ i → m !! i = None ↔ i ∉ Chunk_Index <$> chunks) →
  (length (missing_chunks n ds chunks g) ≤ length (given_shards ps parity g))%nat →
  solvable n ds ps chunks parity g →
  ∃ m', recover_group o proof ps pm m g = Ok m' ∧
    ∀ i, m' !! i = if decide (g * ds ≤ i < group_end g) then Some (chunk i) else m !! i.
Proof.
  intros Hm Hg Hgiven Hcount Hsolve. unfold recover_group. cbn [proof DA_ChunkCount DA_DataShards DA_ChunkSize].
  rewrite group_range_eq by done. fold (group_end g).
  pose proof (recover_missing_spec o chunk size (g * ds) (group_end g)) as Hrec.
  pose proof count_bounds as Hn. pose proof (group_in_range g Hg) as Hgn.
  specialize (Hrec ltac:(unfold group_end, two64; lia) m (group_parity ps parity g)).
  specialize (Hrec ltac:(intros i d Hd; by apply Hm in Hd as [_ ?]) (group_parity_data g)).
  unfold used_shards, missing_powers in Hrec. rewrite sorted_given, group_parity_size in Hrec.
  rewrite !Hpm, group_parity_size, !missing_chunks_eq in * by done. pose proof (given_shards_length g) as Hmax.
  case_bool_decide as Hz.
  { exists m. split; [done|]. intros i. case_decide as Hi; [|done]. apply (not_missing m g); [done..|].
    rewrite (nil_length_inv _ Hz). apply not_elem_of_nil. }
  rewrite !bool_decide_eq_false_2 by lia. cbn [negb check mbind result_bind].
  specialize (Hrec ltac:(by destruct (missing_chunks n ds chunks g)) Hcount).
  destruct (recoverMissingGroupChunks _ _ _ _ _ _ _) as [recovered|e]; cbn [mbind result_bind].
  - eexists. split; [done|]. intros i. rewrite (fold_insert_lookup (λ i d, trimRecoveredChunk d i proof) chunk).
    + assert (i ∈ (o recovered).*1 ↔ i ∈ missing_chunks n ds chunks g) as Hin.
      { rewrite list_elem_of_fmap. split.
        - intros ([j d] & -> & Hd%elem_of_map_range). rewrite Hrec in Hd. by case_decide.
        - intros Hi. eexists (i, _). split; [done|]. apply elem_of_map_range. by rewrite Hrec, decide_True. }
      destruct (decide (i ∈ (o recovered).*1)) as [Hi|Hi]; rewrite Hin in Hi.
      * by rewrite decide_True by (by apply missing_in_group).
      * case_decide; [|done]. by apply (not_missing m g).
    + intros j d Hd. apply elem_of_map_range in Hd. rewrite Hrec in Hd. case_decide as Hj; [|done].
      injection Hd as <-. apply trim_padded. apply missing_in_group in Hj. unfold group_end in Hj. lia.
  - destruct Hrec as (_ & z & Hzl & Hnz & Hk). exfalso. eapply not_zeros_nonzero; [|exact Hnz].
    apply Hsolve; [done|]. unfold powers. rewrite <-list_fmap_compose. unfold compose.
    erewrite list_fmap_ext; [exact Hk|]. intros j k _. cbv beta. by rewrite <-list_fmap_compose.
Qed.

(** Before group [g] the chunks of the earlier groups are there. *)
Definition recovered_before (g : Z) (m : gmap Z bytes) : Prop :=
  true_chunks m ∧ (∀ i, g * ds ≤ i → m !! i = None ↔ i ∉ Chunk_Index <$> chunks) ∧
  ∀ i, 0 ≤ i < Z.min n (g * ds) → m !! i = Some (chunk i).

Lemma recover_groups_spec (k : nat) g m :
  0 ≤ g → g + Z.of_nat k = parityGroupCount n ds → recovered_before g m →
  ∃ m', recover_groups o proof ps pm m (seqZ g (Z.of_nat k)) = Ok m' ∧
    ∀ i, 0 ≤ i < n → m' !! i = Some (chunk i).
Proof.
  revert g m. induction k as [|k IH]; intros g m Hg Hk (Hm & Hgiven & Hdone).
  { exists m. split; [done|]. intros i Hi. apply Hdone. assert (n ≤ g * ds); [|lia].
    replace g with (parityGroupCount n ds) by lia. rewrite group_count.
    pose proof (Z.div_mod (n + ds - 1) ds ltac:(lia)). pose proof (Z.mod_pos_bound (n + ds - 1) ds ltac:(lia)). nia. }
  rewrite seqZ_cons by lia. replace (Z.pred _) with (Z.of_nat k) by lia. cbn [recover_groups].
  destruct (Henough g ltac:(lia)) as [Hle Hsolve].
  destruct (recover_group_spec m g Hm ltac:(lia) Hgiven Hle Hsolve) as (m1 & -> & Hm1).
  cbn [mbind result_bind]. apply IH; [lia..|]. unfold recovered_before.
  replace (Z.succ g * ds) with (g * ds + ds) by lia. split_and!.
  - intros i d Hd. rewrite Hm1 in Hd. case_decide as Hi; [|by apply Hm].
    injection Hd as <-. unfold group_end in Hi. split; [lia|done].
  - intros i Hi. rewrite Hm1, decide_False by (unfold group_end; lia). apply Hgiven. lia.
  - intros i Hi. rewrite Hm1. case_decide as Hin; [done|]. apply Hdone. unfold group_end in Hin. lia.
Qed.

End with_parity.

Lemma order_chunks_spec (m : gmap Z bytes) i k :
  (∀ j, i ≤ j < i + Z.of_nat k → m !! j = Some (chunk j)) →
  order_chunks m (seqZ i (Z.of_nat k)) = Ok ((λ j, mkChunk j (chunk j)) <$> seqZ i (Z.of_nat k)).
Proof.
  revert i. induction k as [|k IH]; intros i Hm; [done|].
  rewrite seqZ_cons by lia. replace (Z.pred _) with (Z.of_nat k) by lia. cbn [order_chunks].
  rewrite (Hm i) by lia. rewrite IH by (intros; apply Hm; lia). done.
Qed.

Lemma ordered_all : (λ j, mkChunk j (chunk j)) <$> seqZ 0 n = all_chunks.
Proof.
  pose proof count_bounds. apply list_eq. intros i. rewrite list_lookup_fmap.
  destruct (decide (Z.of_nat i < n)) as [Hi|Hi].
  - rewrite lookup_seqZ_lt by done. pose proof (all_chunks_lookup (Z.of_nat i) ltac:(lia)) as Hl.
    rewrite Nat2Z.id in Hl. by rewrite Hl.
  - rewrite lookup_seqZ_ge by lia. symmetry. apply lookup_ge_None_2. pose proof all_chunks_length. lia.
Qed.

Lemma given_chunks_wf :
  Forall (λ c, Chunk_Index c < DA_ChunkCount proof ∧ Z.of_nat (length (Chunk_Data c)) ≤ DA_ChunkSize proof) chunks.
Proof.
  apply Forall_forall. intros c Hc. apply Hchunks, elem_of_all_chunks in Hc as [Hi ->].
  cbn [proof DA_ChunkCount DA_ChunkSize]. unfold chunk. rewrite length_take. lia.
Qed.

Lemma given_parity_wf :
  Forall (λ c, Z.of_nat (length (Chunk_Data c)) = DA_ChunkSize proof ∧
               Chunk_Index c / ps < parityGroupCount (DA_ChunkCount proof) (DA_DataShards proof)) parity.
Proof.
  apply Forall_forall. intros c Hc. apply Hparity, elem_of_all_parity in Hc as (g & k & Hg & Hk & ->).
  cbn [proof DA_ChunkCount DA_ChunkSize DA_DataShards Chunk_Index Chunk_Data].
  rewrite parity_data_length, (Z.add_comm (g * ps)), Z.div_add, Z.div_small by lia. lia.
Qed.

Lemma given_index :
  recovered_before 0 (list_to_map (chunk_pair <$> chunks)).
Proof.
  assert (NoDup (chunk_pair <$> chunks).*1) as Hnd by (by rewrite <-list_fmap_compose).
  split_and!.
  - intros i d Hd. apply elem_of_list_to_map_2 in Hd.
    apply list_elem_of_fmap in Hd as (c & [= -> ->] & Hc). by apply Hchunks, elem_of_all_chunks in Hc.
  - intros i _. rewrite <-not_elem_of_list_to_map, <-list_fmap_compose. done.
  - intros i Hi. lia.
Qed.

Lemma recovered_all : recovered_chunks o proof chunks parity = Ok all_chunks.
Proof.
  pose proof count_bounds as Hn. pose proof count_tight as [Hlt Hle]. unfold recovered_chunks.
  cbn [proof DA_ParityShards DA_ChunkSize DA_ChunkCount DA_DataShards DA_EncodedSize DA_ParityCount].
  rewrite (bool_decide_eq_false_2 (ps = 0)) by lia. unfold maxErasureShards.
  rewrite (wrap64_small (size * n)) by (unfold is_u64, two64; nia).
  set (count := wrap64 (parityGroupCount n ds * ps)).
  rewrite (bool_decide_eq_false_2 (count ≠ count)), andb_false_r by tauto.
  rewrite !bool_decide_eq_false_2 by lia. cbn [orb negb check mbind result_bind]. fold proof.
  rewrite (index_chunks_spec proof chunks ∅ given_chunks_wf Hcnd) by (intros; apply lookup_empty).
  destruct (index_parity_spec proof ps parity ∅ ltac:(lia) given_parity_wf Hpnd) as (pm & -> & Hpm).
  { intros c _. by rewrite lookup_empty. }
  cbn [mbind result_bind]. rewrite right_id_L by apply _.
  destruct (recover_groups_spec pm) with (k := Z.to_nat (parityGroupCount n ds)) (g := 0)
    (m := list_to_map (M := gmap Z bytes) (chunk_pair <$> chunks)) as (m' & Heq & Hm').
  - intros g. rewrite Hpm, lookup_empty. cbn. by rewrite right_id_L by apply _.
  - done.
  - rewrite group_count. pose proof (Z.div_pos (n + ds - 1) ds ltac:(lia) ltac:(lia)). lia.
  - apply given_index.
  - rewrite Z2Nat.id in Heq.
    2:{ rewrite group_count. apply Z.div_pos; lia. }
    rewrite Heq. cbn [mbind result_bind]. replace n with (Z.of_nat (Z.to_nat n)) by lia.
    rewrite order_chunks_spec by (intros; apply Hm'; lia). rewrite Z2Nat.id by lia. by rewrite ordered_all.
Qed.
End whole.

(** ** Recovery is complete *)

(** The data of the chunks, cut to its size. *)
Lemma recovered_data data size n :
  0 < size → n = Z.to_nat (chunk_count (Z.of_nat (length data)) size) →
  take (length data) (concat (Chunk_Data <$> map (chunk_at data (Z.to_nat size)) (seq 0 n)) ++
                      replicate (length data) x00) = data.
Proof. intros Hs ->. rewrite chunks_concat by done. apply take_app_length. Qed.

Lemma encoded_nonempty txs : (0 < length (encodeTransactions txs))%nat.
Proof. unfold encodeTransactions. rewrite length_app, be64_length. lia. Qed.

(** C18: recovery is complete: from any of the chunks and parity chunks of a list
    of transactions, [RecoverTransactions] returns the list whenever every
    group misses at most as many chunks as it has parity chunks, for up to two
    parity chunks per group, and for any number of them when the missing
    chunks of each group are consecutive. *)
Theorem recover_complete o txs size ds ps proof all_chunks all_parity chunks parity :
  txs_wf txs → 0 < size → Z.of_nat (length (encodeTransactions txs)) + size < 2 ^ 40 →
  is_u64 ds → is_u64 ps →
  BuildProofWithErasureOptions txs size ds ps = Ok proof →
  BuildChunks txs size = Ok all_chunks →
  BuildParityChunksWithOptions txs size ds ps = Ok all_parity →
  chunks ⊆ all_chunks → NoDup (Chunk_Index <$> chunks) →
  parity ⊆ all_parity → NoDup (Chunk_Index <$> parity) →
  repairable (DA_ChunkCount proof) ds ps chunks parity →
  RecoverTransactions o proof chunks parity = Ok txs.
Proof.
  intros Hwf Hs Hfit Hds Hps Hproof Hchunks Hparity Hc Hcnd Hp Hpnd Hrep.
  destruct (BuildProof_inv txs size ds ps proof Hs ltac:(lia) Hds Hps Hproof) as (Hds' & Hps' & Hb & total & ->).
  rewrite Hb in Hchunks. injection Hchunks as <-. cbn [DA_ChunkCount] in Hrep.
  pose proof (encoded_nonempty txs) as Hne. set (data := encodeTransactions txs) in *.
  set (n := chunk_count (Z.of_nat (length data)) size) in *.
  unfold BuildParityChunksWithOptions, maxErasureShards in *.
  rewrite !bool_decide_eq_false_2, Hb in Hparity by lia. cbn [orb mbind result_bind] in Hparity.
  apply reedSolomon_eq in Hparity as ->; [|done|lia|lia|done|done].
  unfold RecoverTransactions, RecoverData.
  rewrite (recovered_all data size ds ps) by (done || lia || by apply repairable_solvable; try lia).
  cbn [mbind result_bind DA_Commitment DA_EncodedSize]. rewrite bool_decide_eq_true_2 by done.
  unfold make_bytes_ok. rewrite bool_decide_eq_true_2 by lia. cbn [check mbind result_bind].
  rewrite Nat2Z.id, recovered_data by done. by apply decode_encode.
Qed.

(** ** Recovery is sound *)

Lemma order_chunks_index m indices ordered :
  order_chunks m indices = Ok ordered → Chunk_Index <$> ordered = indices.
Proof.
  revert ordered. induction indices as [|i indices IH]; intros ordered Ho; cbn [order_chunks] in Ho.
  { by injection Ho as <-. }
  destruct (m !! i); [|done]. destruct (order_chunks m indices) as [rest|]; [|done].
  injection Ho as <-. by rewrite fmap_cons, (IH rest).
Qed.

Lemma recovered_index o proof chunks parity ordered :
  recovered_chunks o proof chunks parity = Ok ordered →
  Chunk_Index <$> ordered = seqZ 0 (DA_ChunkCount proof).
Proof. unfold recovered_chunks. intros Ho. result_inv Ho. by eapply order_chunks_index. Qed.

Lemma seqZ_of_seq n : seqZ 0 (Z.of_nat n) = Z.of_nat <$> seq 0 n.
Proof. unfold seqZ. rewrite Nat2Z.id. apply list_fmap_ext. intros; lia. Qed.

Lemma ordered_leaves ordered n :
  Chunk_Index <$> ordered = seqZ 0 (Z.of_nat n) →
  chunkLeaves ordered = sha256 <$> (chunkLeaf_message <$> ordered).
Proof.
  intros Hidx. unfold chunkLeaves. replace (sortChunks ordered) with ordered.
  { apply (list_fmap_compose chunkLeaf_message sha256). }
  symmetry. apply sort_by_id; [apply _..|rewrite Hidx; apply NoDup_seqZ|].
  apply (StronglySorted_fmap_inv Chunk_Index _ Z.le); [done|]. rewrite Hidx, seqZ_of_seq. apply seq_Z_sorted.
Qed.

(** Chunks in order that are chunks of [data] are all of them. *)
Lemma ordered_subset ordered data s n :
  Chunk_Index <$> ordered = seqZ 0 (Z.of_nat n) →
  Forall (.∈ map (chunk_at data s) (seq 0 n)) ordered → ordered = map (chunk_at data s) (seq 0 n).
Proof.
  intros Hidx Hall. rewrite Forall_lookup in Hall.
  assert (length ordered = n) as Hlen by (rewrite <-(length_fmap Chunk_Index), Hidx, length_seqZ; lia).
  apply (list_eq_same_length _ _ n); [by rewrite length_map, length_seq|done|].
  intros i c c' Hi Hc Hc'. rewrite chunks_lookup in Hc' by done. injection Hc' as <-.
  apply Hall in Hc as Hin. apply list_elem_of_In, in_map_iff in Hin as (j & <- & _).
  assert ((Chunk_Index <$> ordered) !! i = Some (Z.of_nat j)) as Hl by (by rewrite list_lookup_fmap, Hc).
  rewrite Hidx in Hl. apply lookup_seqZ in Hl as [Hl _]. by replace j with i by lia.
Qed.

(** Chunks in order with the root of the chunks of [data] are these chunks, up
    to a collision. *)
Lemma ordered_root_sound ordered data s n :
  (0 < n)%nat → Z.of_nat n < two64 → Chunk_Index <$> ordered = seqZ 0 (Z.of_nat n) →
  let chunks := map (chunk_at data s) (seq 0 n) in
  chunkRoot ordered = chunkRoot chunks →
  ordered = chunks ∨ collision (chunk_messages ordered) (chunk_messages chunks).
Proof.
  intros Hn Hlt Hidx chunks Hroot. pose proof (ordered_leaves _ _ Hidx) as Hleaves.
  destruct (decide (Forall (.∈ chunks) ordered)) as [Hall|Hnot]; [left; by apply ordered_subset|right].
  apply not_Forall_Exists in Hnot; [|intros ?; apply _].
  apply Exists_exists in Hnot as (c & Hin & Hc).
  assert (is_u64 (Chunk_Index c)) as Hu.
  { apply (list_elem_of_fmap_2 Chunk_Index) in Hin. rewrite Hidx in Hin. apply elem_of_seqZ in Hin.
    unfold is_u64. lia. }
  apply list_elem_of_lookup_1 in Hin as [i Hi].
  set (leaves := sha256 <$> (chunkLeaf_message <$> ordered)) in *.
  assert (leaves !! i = Some (chunkLeaf c)) as Hleaf by (unfold leaves; by rewrite !list_lookup_fmap, Hi).
  assert (apply_path parentHash_message (chunkLeaf c) (merkle_path parentHash_message true leaves i) =
    chunkRoot chunks) as Hpath.
  { rewrite <-Hroot. unfold chunkRoot, merkleRoot. rewrite Hleaves, bool_decide_eq_false_2;
      [by apply merkle_path_complete|]. apply lookup_lt_Some in Hleaf. lia. }
  apply chunk_path_sound in Hpath as [Hmem|Hcol]; [done| |done..].
  eapply collision_mono; [|done|exact Hcol]. unfold chunk_messages. intros m Hm.
  rewrite elem_of_cons in Hm. destruct Hm as [->|Hm]; apply elem_of_app.
  - left. apply list_elem_of_fmap_2. by eapply list_elem_of_lookup_2.
  - right. unfold merkle_path in Hm. replace (length (chunkLeaf_message <$> ordered)) with (length leaves)
      by (unfold leaves; apply length_fmap). by eapply path_loop_messages.
Qed.

(** C19: recovery is sound: whatever chunks and parity chunks are given,
    [RecoverTransactions] with the proof of a list of transactions returns that
    list or fails, or the chunks it put together and those of the list exhibit
    a SHA-256 collision. *)
Theorem recover_sound o txs size ds ps proof all_chunks chunks parity recovered :
  txs_wf txs → 0 < size → Z.of_nat (length (encodeTransactions txs)) + size < 2 ^ 40 →
  is_u64 ds → is_u64 ps →
  BuildProofWithErasureOptions txs size ds ps = Ok proof → BuildChunks txs size = Ok all_chunks →
  RecoverTransactions o proof chunks parity = Ok recovered →
  recovered = txs ∨
  ∃ ordered, recovered_chunks o proof chunks parity = Ok ordered ∧
    collision (chunk_messages ordered) (chunk_messages all_chunks).
Proof.
  intros Hwf Hs Hfit Hds Hps Hproof Hchunks Hrec.
  destruct (BuildProof_inv txs size ds ps proof Hs ltac:(lia) Hds Hps Hproof) as (_ & _ & Hb & total & ->).
  rewrite Hb in Hchunks. apply (inj Ok) in Hchunks as <-.
  set (data := encodeTransactions txs) in *. set (n := chunk_count (Z.of_nat (length data)) size) in *.
  pose proof (encoded_nonempty txs) as Hne. fold data in Hne.
  pose proof (count_bounds data size ltac:(lia) ltac:(lia) Hfit) as Hn. fold n in Hn.
  assert (decodeTransactions data = Ok txs) as Hdec by (by apply decode_encode).
  assert (Z.to_nat n = Z.to_nat (chunk_count (Z.of_nat (length data)) size)) as Hcount by done.
  clear Hproof. clearbody n. clearbody data.
  unfold RecoverTransactions, RecoverData in Hrec. result_inv Hrec. rename r0 into ordered.
  pose proof (recovered_index _ _ _ _ _ Hrec1) as Hidx. cbn [DA_ChunkCount] in Hidx.
  rewrite bool_decide_eq_true in Hrec2. cbn [DA_Commitment DA_EncodedSize] in *.
  replace n with (Z.of_nat (Z.to_nat n)) in Hidx by lia.
  destruct (ordered_root_sound ordered data (Z.to_nat size) (Z.to_nat n)) as [->|Hcol];
    [lia|unfold two64; lia|done|done| |right; exists ordered; split; [exact Hrec1|exact Hcol]].
  left. rewrite Nat2Z.id, recovered_data in Hrec0 by done. congruence.
Qed.

(** ** Concrete data *)

Module ErasureExample.
Definition txs : list Tx := [[x61; x62; x63]; []].
Definition size : Z := 8.

Definition ok_list {A} (r : result (list A)) : list A := match r with Ok l => l | Err _ => [] end.
Definition proof_of (ds ps : Z) : DAProof :=
  match BuildProofWithErasureOptions txs size ds ps with Ok p => p | Err _ => zero_DAProof end.
Definition all_chunks : list Chunk := ok_list (BuildChunks txs size).
Definition parity_of (ds ps : Z) : list Chunk := ok_list (BuildParityChunksWithOptions txs size ds ps).

(** The chunks with the given indices. *)
Definition only (indices : list Z) (chunks : list Chunk) : list Chunk :=
  filter (λ c, Chunk_Index c ∈ indices) chunks.

Lemma only_subset indices chunks : only indices chunks ⊆ chunks.
Proof. intros c [_ Hc]%list_elem_of_filter. done. Qed.

Lemma txs_fit : txs_wf txs.
Proof. split; [by repeat constructor|by vm_compute]. Qed.

(** Chunks 1 and 2 of a group of four with two parity chunks. *)
Lemma two_repairable : repairable 4 4 2 (only [1; 2] all_chunks) (parity_of 4 2).
Proof.
  intros g Hg. assert (g = 0) as ->.
  { change (parityGroupCount 4 4) with 1 in Hg. lia. }
  split; [by apply (bool_decide_unpack _); vm_compute|by left].
Qed.

Lemma recovers_two_witness :
  RecoverTransactions canonical_order (proof_of 4 2) (only [1; 2] all_chunks) (parity_of 4 2) = Ok txs.
Proof.
  apply (recover_complete canonical_order txs size 4 2 (proof_of 4 2) all_chunks (parity_of 4 2)).
  - exact txs_fit.
  - reflexivity.
  - by vm_compute.
  - by vm_compute.
  - by vm_compute.
  - vm_compute. reflexivity.
  - vm_compute. reflexivity.
  - vm_compute. reflexivity.
  - apply only_subset.
  - by apply (bool_decide_unpack _); vm_compute.
  - done.
  - by apply (bool_decide_unpack _); vm_compute.
  - exact two_repairable.
Defined.

Lemma recover_sound_witness :
  txs = txs ∨
  ∃ ordered, recovered_chunks canonical_order (proof_of 4 2) (only [1; 2] all_chunks) (parity_of 4 2) = Ok ordered ∧
    collision (chunk_messages ordered) (chunk_messages all_chunks).
Proof.
  apply (recover_sound canonical_order txs size 4 2 (proof_of 4 2) all_chunks (only [1; 2] all_chunks) (parity_of 4 2)).
  - exact txs_fit.
  - reflexivity.
  - by vm_compute.
  - by vm_compute.
  - by vm_compute.
  - vm_compute. reflexivity.
  - vm_compute. reflexivity.
  - vm_compute. reflexivity.
Defined.

(** The code does not repair every loss of at most [parityShards] chunks: of
    a group of four chunks with three parity chunks, chunks 0, 1 and 3 are lost
    and all parity chunks are there, but [RecoverTransactions] reports too few
    chunks, because the powers 0, 1 and 3 of the elements 1, 2 and 3 form a
    singular matrix. *)
Theorem erasure_gap :
  BuildProofWithErasureOptions txs size 4 3 = Ok (proof_of 4 3) ∧
  missing_chunks 4 4 (only [2] all_chunks) 0 = [0; 1; 3] ∧
  given_shards 3 (parity_of 4 3) 0 = [0; 1; 2] ∧
  RecoverTransactions canonical_order (proof_of 4 3) (only [2] all_chunks) (parity_of 4 3) = Err ErrInsufficientChunks ∧
  RecoverTransactions canonical_order (proof_of 4 3) (only [3] all_chunks) (parity_of 4 3) = Ok txs.
Proof. vm_compute. split_and!; reflexivity. Qed.
End ErasureExample.
