(* ===== verification/Sampling.v ===== *)
(** * Sampling of data availability
    ([src/dataavailability/dataavailability.go], [PlanSamples],
    [Plan2DSamples], [VerifySamples])

    A light client draws chunk indices from a hash of the commitment and checks
    a proof for each of them.  The loop that draws the indices ends when enough
    different ones came up, which depends on the hashes: it has fuel, the number
    of draws, and a plan without enough draws is [None]. *)

From S2P Require Import Prelude GoLib Sha256 Merkle Types DataAvailability.

Record SamplePolicy := mkSamplePolicy {
  SP_Samples : Z;
  SP_MinSamples : Z
}.

Record TwoDimensionalSamplePolicy := mkTwoDimensionalSamplePolicy {
  SP2_Rows : Z;
  SP2_Columns : Z;
  SP2_SampledRows : Z;
  SP2_SampledColumns : Z;
  SP2_MinSamples : Z
}.

Record SampleRequest := mkSampleRequest {
  SR_Commitment : Hash;
  SR_Height : Height;
  SR_ChunkCount : Z;
  SR_Indices : list Z;
  SR_Seed : Hash
}.

Record SampleReport := mkSampleReport {
  Report_Commitment : Hash;
  Report_Height : Height;
  Report_ChunkCount : Z;
  Report_Requested : Z;
  Report_Verified : Z;
  Report_CoverageBPS : Z;
  Report_VerifiedIndices : list Z
}.

(** ** Drawing indices *)

Definition sampleSeed (chainID : string) (height : Height) (commitment : Hash) (entropy : bytes) : Hash :=
  sha256 (bytes_of_string "vexo.da.sampling.v1" ++ bytes_of_string chainID ++ be64 height ++
          hash_bytes commitment ++ be64 (Z.of_nat (length entropy)) ++ entropy).

Definition axisSeed (seed : Hash) (axis : string) : Hash :=
  sha256 (bytes_of_string "vexo.da.sample.axis.v1" ++ hash_bytes seed ++ bytes_of_string axis).

(** The index of one iteration of [deterministicSampleIndices]. *)
Definition sample_index (seed : Hash) (chunkCount counter : Z) : Z :=
  be_decode (take 8 (hash_bytes (sha256 (bytes_of_string "vexo.da.sample.index.v1" ++ hash_bytes seed ++ be64 counter))))
    mod chunkCount.

Fixpoint sample_loop (fuel : nat) (seed : Hash) (chunkCount samples counter : Z) (selected : gset Z)
    (indices : list Z) : option (list Z) :=
  if bool_decide (samples ≤ Z.of_nat (length indices)) then Some indices
  else match fuel with
  | O => None
  | S fuel =>
      let index := sample_index seed chunkCount counter in
      if bool_decide (index ∈ selected)
      then sample_loop fuel seed chunkCount samples (wrap64 (counter + 1)) selected indices
      else sample_loop fuel seed chunkCount samples (wrap64 (counter + 1)) ({[index]} ∪ selected) (indices ++ [index])
  end.

Definition deterministicSampleIndices (fuel : nat) (seed : Hash) (chunkCount samples : Z) : option (list Z) :=
  if bool_decide (chunkCount = 0) || bool_decide (samples = 0) then Some []
  else sort_by id Z.le <$> sample_loop fuel seed chunkCount samples 0 ∅ [].

(** ** Plans *)

Definition PlanSamples (fuel : nat) (chainID : string) (height : Height) (proof : DAProof)
    (policy : SamplePolicy) (entropy : bytes) : option (result SampleRequest) :=
  if bool_decide (chainID = "") || bool_decide (height = 0) || bool_decide (DA_Commitment proof = zero_hash) ||
     bool_decide (DA_ChunkCount proof = 0)
  then Some (Err ErrInvalidChunkProof)
  else
    let samples := if bool_decide (SP_Samples policy = 0) then SP_MinSamples policy else SP_Samples policy in
    if bool_decide (samples < SP_MinSamples policy) then Some (Err ErrInvalidSamplePolicy)
    else if bool_decide (samples = 0) then Some (Err ErrInvalidSamplePolicy)
    else
      let samples := if bool_decide (DA_ChunkCount proof < samples) then DA_ChunkCount proof else samples in
      let seed := sampleSeed chainID height (DA_Commitment proof) entropy in
      indices ← deterministicSampleIndices fuel seed (DA_ChunkCount proof) samples;
      Some (Ok (mkSampleRequest (DA_Commitment proof) height (DA_ChunkCount proof) indices seed)).

(** The loops over the sampled rows and columns of [Plan2DSamples]. *)
Definition select_index (chunkCount : Z) (selected : gmap Z unit) (index : Z) : gmap Z unit :=
  if bool_decide (index < chunkCount) then <[index := tt]> selected else selected.

Definition select_row (chunkCount columns : Z) (selected : gmap Z unit) (row : Z) : gmap Z unit :=
  foldl (λ selected column, select_index chunkCount selected (wrap64 (wrap64 (row * columns) + column)))
    selected (seqZ 0 columns).

Definition select_column (chunkCount rows columns : Z) (selected : gmap Z unit) (column : Z) : gmap Z unit :=
  foldl (λ selected row, select_index chunkCount selected (wrap64 (wrap64 (row * columns) + column)))
    selected (seqZ 0 rows).

(** [for index := range m] and the sort of the indices. *)
Definition sorted_keys (o : MapOrder Z unit) (m : gmap Z unit) : list Z := sort_by id Z.le (o m).*1.

Definition Plan2DSamples (o : MapOrder Z unit) (fuel : nat) (chainID : string) (height : Height) (proof : DAProof)
    (policy : TwoDimensionalSamplePolicy) (entropy : bytes) : option (result SampleRequest) :=
  let chunkCount := DA_ChunkCount proof in
  if bool_decide (chainID = "") || bool_decide (height = 0) || bool_decide (DA_Commitment proof = zero_hash) ||
     bool_decide (chunkCount = 0)
  then Some (Err ErrInvalidChunkProof)
  else if bool_decide (SP2_Rows policy = 0) || bool_decide (SP2_Columns policy = 0)
  then Some (Err ErrInvalidSamplePolicy)
  else if bool_decide (wrap64 (SP2_Rows policy * SP2_Columns policy) < chunkCount)
  then Some (Err ErrInvalidSamplePolicy)
  else
    let effectiveRows := wrap64 (wrap64 (chunkCount + SP2_Columns policy) - 1) / SP2_Columns policy in
    let effectiveColumns := if bool_decide (chunkCount < SP2_Columns policy) then chunkCount else SP2_Columns policy in
    if bool_decide (SP2_SampledRows policy = 0) || bool_decide (SP2_SampledColumns policy = 0) ||
       bool_decide (effectiveRows < SP2_SampledRows policy) || bool_decide (effectiveColumns < SP2_SampledColumns policy)
    then Some (Err ErrInvalidSamplePolicy)
    else
      let seed := sampleSeed chainID height (DA_Commitment proof) (bytes_of_string "2d:" ++ entropy) in
      rows ← deterministicSampleIndices fuel (axisSeed seed "rows") effectiveRows (SP2_SampledRows policy);
      columns ← deterministicSampleIndices fuel (axisSeed seed "columns") effectiveColumns (SP2_SampledColumns policy);
      let selected := foldl (select_row chunkCount (SP2_Columns policy)) ∅ rows in
      let selected := foldl (select_column chunkCount (SP2_Rows policy) (SP2_Columns policy)) selected columns in
      if bool_decide (Z.of_nat (size selected) < SP2_MinSamples policy) then Some (Err ErrInvalidSamplePolicy)
      else Some (Ok (mkSampleRequest (DA_Commitment proof) height chunkCount (sorted_keys o selected) seed)).

(** ** Verification *)

Fixpoint request_indices (chunkCount : Z) (requested : gmap Z unit) (indices : list Z) : result (gmap Z unit) :=
  match indices with
  | [] => Ok requested
  | index :: indices =>
      check ErrInvalidSampleSet (negb (bool_decide (chunkCount ≤ index))) ≫= λ _,
      check ErrInvalidSampleSet (negb (bool_decide (is_Some (requested !! index)))) ≫= λ _,
      request_indices chunkCount (<[index := tt]> requested) indices
  end.

Fixpoint verify_proofs (request : SampleRequest) (requested verified : gmap Z unit) (proofs : list ChunkProof)
    : result (gmap Z unit) :=
  match proofs with
  | [] => Ok verified
  | proof :: proofs =>
      check ErrInvalidSampleSet
        (negb (bool_decide (CP_Commitment proof ≠ SR_Commitment request) ||
               bool_decide (CP_ChunkCount proof ≠ SR_ChunkCount request) ||
               bool_decide (SR_ChunkCount request ≤ CP_Index proof))) ≫= λ _,
      check ErrInvalidSampleSet (bool_decide (is_Some (requested !! CP_Index proof))) ≫= λ _,
      check ErrInvalidSampleSet (negb (bool_decide (is_Some (verified !! CP_Index proof)))) ≫= λ _,
      VerifyChunkProof proof ≫= λ _,
      verify_proofs request requested (<[CP_Index proof := tt]> verified) proofs
  end.

Definition VerifySamples (o : MapOrder Z unit) (request : SampleRequest) (proofs : list ChunkProof)
    : result SampleReport :=
  check ErrInvalidSampleSet
    (negb (bool_decide (SR_Commitment request = zero_hash) || bool_decide (SR_Height request = 0) ||
           bool_decide (SR_ChunkCount request = 0) || bool_decide (length (SR_Indices request) = 0%nat))) ≫= λ _,
  requested ← request_indices (SR_ChunkCount request) ∅ (SR_Indices request);
  verified ← verify_proofs request requested ∅ proofs;
  check ErrInsufficientChunks (bool_decide (size verified = size requested)) ≫= λ _,
  let indices := sorted_keys o verified in
  let count := Z.of_nat (length indices) in
  Ok (mkSampleReport (SR_Commitment request) (SR_Height request) (SR_ChunkCount request)
        (Z.of_nat (length (SR_Indices request))) count (wrap64 (count * 10000) / SR_ChunkCount request) indices).

(** ** The drawn indices *)

(** The first [fuel] draws. *)
Fixpoint draws (fuel : nat) (seed : Hash) (chunkCount counter : Z) : list Z :=
  match fuel with
  | O => []
  | S fuel => sample_index seed chunkCount counter :: draws fuel seed chunkCount (wrap64 (counter + 1))
  end.

(** The loop keeps the selected indices in a list and in a set. *)
Definition loop_inv (chunkCount samples : Z) (selected : gset Z) (indices : list Z) : Prop :=
  selected = list_to_set indices ∧ NoDup indices ∧ Forall (λ i, 0 ≤ i < chunkCount) indices ∧
  Z.of_nat (length indices) ≤ samples.

Lemma sample_index_range seed chunkCount counter : 0 < chunkCount → 0 ≤ sample_index seed chunkCount counter < chunkCount.
Proof. apply Z.mod_pos_bound. Qed.

Lemma loop_inv_add chunkCount samples selected indices i :
  loop_inv chunkCount samples selected indices → i ∉ selected → 0 ≤ i < chunkCount →
  Z.of_nat (length indices) < samples → loop_inv chunkCount samples ({[i]} ∪ selected) (indices ++ [i]).
Proof.
  intros (-> & Hnd & Hall & Hle) Hi Hr Hlt. rewrite elem_of_list_to_set in Hi. split_and!.
  - rewrite list_to_set_app_L. cbn [list_to_set]. by rewrite union_empty_r_L, union_comm_L.
  - apply NoDup_app. split_and!; [done| |apply NoDup_singleton]. intros x Hx ->%list_elem_of_singleton. done.
  - apply Forall_app. by split; [|constructor].
  - rewrite length_app. cbn. lia.
Qed.

Lemma sample_loop_Some fuel seed chunkCount samples counter selected indices l :
  0 < chunkCount → loop_inv chunkCount samples selected indices →
  sample_loop fuel seed chunkCount samples counter selected indices = Some l →
  NoDup l ∧ Forall (λ i, 0 ≤ i < chunkCount) l ∧ Z.of_nat (length l) = samples.
Proof.
  intros Hc. revert counter selected indices.
  induction fuel as [|fuel IH]; intros counter selected indices Hinv; cbn [sample_loop];
    case_bool_decide as Hle; try done.
  1,2: intros [= <-]; destruct Hinv as (_ & ? & ? & ?); split_and!; [done..|lia].
  case_bool_decide as Hin; [by apply IH|]. apply IH, loop_inv_add; [done..|by apply sample_index_range|lia].
Qed.

(** The loop ends within [fuel] draws exactly when these draws give enough
    different indices. *)
Lemma sample_loop_answers fuel seed chunkCount samples counter selected indices :
  0 < chunkCount → loop_inv chunkCount samples selected indices →
  is_Some (sample_loop fuel seed chunkCount samples counter selected indices) ↔
    samples ≤ Z.of_nat (size (selected ∪ list_to_set (draws fuel seed chunkCount counter))).
Proof.
  intros Hc. revert counter selected indices.
  induction fuel as [|fuel IH]; intros counter selected indices Hinv; cbn [sample_loop draws list_to_set].
  all: assert (size selected = length indices) as Hsize by
    (destruct Hinv as (-> & Hnd & _); by rewrite size_list_to_set).
  - rewrite union_empty_r_L, Hsize. case_bool_decide; split; (done || intros [? ?]; done).
  - case_bool_decide as Hle.
    { split; [intros _|done]. transitivity (Z.of_nat (size selected)); [lia|].
      apply inj_le, subseteq_size, union_subseteq_l. }
    case_bool_decide as Hin.
    + rewrite IH, union_assoc_L by done. replace (selected ∪ {[_]}) with selected; [done|].
      symmetry. rewrite union_comm_L. by apply subseteq_union_1_L, singleton_subseteq_l.
    + rewrite IH by (apply loop_inv_add; [done..|by apply sample_index_range|lia]).
      by rewrite union_assoc_L, (union_comm_L selected).
Qed.

Lemma loop_inv_init chunkCount samples : 0 ≤ samples → loop_inv chunkCount samples ∅ [].
Proof. intros Hs. split_and!; [done|constructor|constructor|done]. Qed.

Lemma deterministicSampleIndices_Some fuel seed chunkCount samples l :
  0 < chunkCount → 0 < samples → deterministicSampleIndices fuel seed chunkCount samples = Some l →
  NoDup l ∧ Forall (λ i, 0 ≤ i < chunkCount) l ∧ Z.of_nat (length l) = samples ∧ StronglySorted Z.le l.
Proof.
  intros Hc Hs. unfold deterministicSampleIndices. rewrite !bool_decide_eq_false_2 by lia. cbn [orb].
  intros (l' & Hl & ->)%fmap_Some.
  apply sample_loop_Some in Hl as (Hnd & Hall & Hlen); [|done|apply loop_inv_init; lia].
  rewrite sort_by_length. split_and!; [by rewrite sort_by_perm|by rewrite sort_by_perm|done|].
  pose proof (sort_by_sorted id Z.le l') as Hsort. by rewrite list_fmap_id in Hsort.
Qed.

(** ** What verification accepts *)

(** The map of a list of keys. *)
Definition keys (l : list Z) : gmap Z unit := list_to_map ((λ i, (i, tt)) <$> l).

Lemma keys_fst l : ((λ i : Z, (i, tt)) <$> l).*1 = l.
Proof. rewrite <-list_fmap_compose. apply list_fmap_id. Qed.

Lemma keys_lookup l i : is_Some (keys l !! i) ↔ i ∈ l.
Proof.
  unfold keys. rewrite <-(keys_fst l) at 2. split.
  - intros [[] Hi]. destruct (decide (i ∈ ((λ i, (i, tt)) <$> l).*1)) as [|Hn]; [done|].
    apply not_elem_of_list_to_map_1 in Hn. congruence.
  - intros Hi. destruct (list_to_map _ !! i) eqn:He; [done|]. by apply not_elem_of_list_to_map_2 in He.
Qed.

Lemma keys_perm l : NoDup l → map_to_list (keys l) ≡ₚ (λ i, (i, tt)) <$> l.
Proof. intros Hnd. apply map_to_list_to_map. by rewrite keys_fst. Qed.

Lemma keys_size l : NoDup l → size (keys l) = length l.
Proof. intros Hnd. rewrite <-length_map_to_list, keys_perm by done. apply length_fmap. Qed.

Lemma sorted_keys_eq o l : NoDup l → sorted_keys o (keys l) = sort_by id Z.le l.
Proof.
  intros Hnd. unfold sorted_keys. assert ((o (keys l)).*1 ≡ₚ l) as Hp.
  { rewrite (map_range_perm o), keys_perm by done. by rewrite keys_fst. }
  apply (sort_by_unique id Z.le); [by rewrite list_fmap_id, Hp|done].
Qed.

Lemma keys_cons i l (m : gmap Z unit) : i ∉ l → keys l ∪ <[i := tt]> m = keys (i :: l) ∪ m.
Proof.
  intros Hi. unfold keys. rewrite fmap_cons, list_to_map_cons, <-insert_union_l, insert_union_r; [done|].
  apply not_elem_of_list_to_map_1. by rewrite keys_fst.
Qed.

Lemma keys_nil (m : gmap Z unit) : keys [] ∪ m = m.
Proof. apply (left_id_L ∅ (∪)). Qed.

Lemma request_indices_Ok chunkCount m l m' :
  request_indices chunkCount m l = Ok m' ↔
    Forall (λ i, i < chunkCount) l ∧ NoDup l ∧ (∀ i, i ∈ l → m !! i = None) ∧ m' = keys l ∪ m.
Proof.
  revert m. induction l as [|i l IH]; intros m; cbn [request_indices].
  { rewrite keys_nil. split.
    - intros [= <-]. split_and!; [constructor..| |done]. by intros i ?%elem_of_nil.
    - by intros (_ & _ & _ & ->). }
  split.
  - intros Ho. result_inv Ho. rewrite negb_true_iff, bool_decide_eq_false in Ho0, Ho1.
    apply IH in Ho as (Hall & Hnd & Hm & ->).
    assert (i ∉ l) as Hi by (intros Hi; specialize (Hm i Hi); by rewrite lookup_insert_eq in Hm).
    split_and!; [constructor; [lia|done]|by constructor| |by apply keys_cons].
    intros j [->|Hj]%elem_of_cons; [by rewrite eq_None_not_Some|].
    specialize (Hm j Hj). rewrite lookup_insert_None in Hm. tauto.
  - intros ([Hi Hall]%Forall_cons & [Hn Hnd]%NoDup_cons & Hm & ->).
    rewrite (bool_decide_eq_false_2 (_ ≤ _)) by lia.
    rewrite (bool_decide_eq_false_2 (is_Some _)) by (rewrite (Hm i) by left; by intros [? ?]).
    cbn [negb check mbind result_bind]. apply IH. split_and!; [done..| |by rewrite keys_cons].
    intros j Hj. rewrite lookup_insert_ne by (intros ->; done). apply Hm. by right.
Qed.

(** A proof that answers a request. *)
Definition answers (request : SampleRequest) (requested : gmap Z unit) (p : ChunkProof) : Prop :=
  CP_Commitment p = SR_Commitment request ∧ CP_ChunkCount p = SR_ChunkCount request ∧
  CP_Index p < SR_ChunkCount request ∧ is_Some (requested !! CP_Index p) ∧ VerifyChunkProof p = Ok tt.

Lemma verify_proofs_Ok request requested v proofs v' :
  verify_proofs request requested v proofs = Ok v' ↔
    Forall (answers request requested) proofs ∧ NoDup (CP_Index <$> proofs) ∧
    (∀ p, p ∈ proofs → v !! CP_Index p = None) ∧ v' = keys (CP_Index <$> proofs) ∪ v.
Proof.
  revert v. induction proofs as [|p proofs IH]; intros v; cbn [verify_proofs].
  { rewrite keys_nil. split.
    - intros [= <-]. split_and!; [constructor..| |done]. by intros i ?%elem_of_nil.
    - by intros (_ & _ & _ & ->). }
  rewrite fmap_cons. split.
  - intros Ho. result_inv Ho. rewrite negb_true_iff, !orb_false_iff, !bool_decide_eq_false in Ho0.
    rewrite bool_decide_eq_true in Ho1. rewrite negb_true_iff, bool_decide_eq_false in Ho2.
    apply IH in Ho as (Hall & Hnd & Hm & ->). destruct r2.
    assert (CP_Index p ∉ CP_Index <$> proofs) as Hi.
    { intros (q & Hq & Hin)%list_elem_of_fmap. specialize (Hm q Hin). by rewrite Hq, lookup_insert_eq in Hm. }
    split_and!; [constructor; [|done]|by constructor| |by apply keys_cons].
    + destruct Ho0 as [[Hc Hn] Hlt]. split_and!; [by destruct (decide (CP_Commitment p = SR_Commitment request))| |lia|done..].
      by destruct (decide (CP_ChunkCount p = SR_ChunkCount request)).
    + intros q [->|Hq]%elem_of_cons; [by rewrite eq_None_not_Some|].
      specialize (Hm q Hq). rewrite lookup_insert_None in Hm. tauto.
  - intros ([(Hc & Hn & Hlt & Hreq & Hver) Hall]%Forall_cons & [Hi Hnd]%NoDup_cons & Hm & ->).
    rewrite (bool_decide_eq_false_2 (_ ≠ SR_Commitment _)), (bool_decide_eq_false_2 (_ ≠ SR_ChunkCount _)),
      (bool_decide_eq_false_2 (_ ≤ _)) by (tauto || lia).
    rewrite (bool_decide_eq_true_2 _ Hreq), Hver.
    rewrite (bool_decide_eq_false_2 (is_Some _)) by (rewrite (Hm p) by left; by intros [? ?]).
    cbn [orb negb check mbind result_bind]. apply IH. split_and!; [done..| |by rewrite keys_cons].
    intros q Hq. rewrite lookup_insert_ne by (intros Heq; apply Hi; rewrite Heq; by apply list_elem_of_fmap_2).
    apply Hm. by right.
Qed.

(** ** Plans and their verification *)

(** The number of samples of a policy. *)
Definition planned (policy : SamplePolicy) : Z :=
  if bool_decide (SP_Samples policy = 0) then SP_MinSamples policy else SP_Samples policy.

Lemma planned_nonneg policy : 0 ≤ SP_Samples policy → 0 ≤ SP_MinSamples policy → 0 ≤ planned policy.
Proof. unfold planned. case_bool_decide; lia. Qed.

Lemma PlanSamples_Ok fuel chainID height proof policy entropy request :
  is_u64 (SP_Samples policy) → is_u64 (SP_MinSamples policy) → 0 ≤ DA_ChunkCount proof →
  PlanSamples fuel chainID height proof policy entropy = Some (Ok request) →
  let count := Z.min (planned policy) (DA_ChunkCount proof) in
  0 < count ∧ SP_MinSamples policy ≤ planned policy ∧ DA_Commitment proof ≠ zero_hash ∧ height ≠ 0 ∧
  deterministicSampleIndices fuel (SR_Seed request) (DA_ChunkCount proof) count = Some (SR_Indices request) ∧
  SR_Commitment request = DA_Commitment proof ∧ SR_Height request = height ∧
  SR_ChunkCount request = DA_ChunkCount proof.
Proof.
  intros Hs Hm Hc Hp count. unfold is_u64 in *. unfold PlanSamples in Hp.
  destruct (_ || _) eqn:E in Hp; [done|]. rewrite !orb_false_iff, !bool_decide_eq_false in E.
  destruct E as [[[_ Hh] Hz] Hn]. fold (planned policy) in Hp.
  pose proof (planned_nonneg policy ltac:(lia) ltac:(lia)) as Hpl.
  case_bool_decide; [done|]. case_bool_decide; [done|].
  replace (if bool_decide (DA_ChunkCount proof < planned policy) then DA_ChunkCount proof else planned policy)
    with count in Hp by (unfold count; destruct (bool_decide_reflect (DA_ChunkCount proof < planned policy)); lia).
  apply bind_Some in Hp as (indices & Hi & [= <-]). unfold count. split_and!; [lia|lia|done..].
Qed.

Lemma sorted_sort l : StronglySorted Z.le l → NoDup l → sort_by id Z.le l = l.
Proof. intros Hs Hnd. apply sort_by_id; [apply _..|by rewrite list_fmap_id|done]. Qed.

Lemma build_proofs txs size l :
  0 < size → Z.of_nat (length (encodeTransactions txs)) + size < 2 ^ 63 →
  let data := encodeTransactions txs in
  let n := chunk_count (Z.of_nat (length data)) size in
  Forall (λ i, 0 ≤ i < n) l →
  ∃ proofs, Forall2 (λ index p, BuildChunkProof txs size index = Ok p) l proofs ∧
    CP_Index <$> proofs = l ∧
    Forall (λ p, VerifyChunkProof p = Ok tt ∧ CP_ChunkCount p = n ∧
      CP_Commitment p = chunkRoot (map (chunk_at data (Z.to_nat size)) (seq 0 (Z.to_nat n)))) proofs.
Proof.
  intros Hs Hl data n. induction 1 as [|i l Hi Hall (proofs & Hf & Hidx & Hok)].
  { exists []. split_and!; [constructor|done|constructor]. }
  destruct (chunk_proof_built txs size i Hs Hl Hi) as (p & Hb & Hv & Hc & Hn & Hpi & _).
  exists (p :: proofs). rewrite fmap_cons, Hidx, Hpi. split_and!; [by constructor|done|by constructor].
Qed.

(** Sampling is complete: for a plan of [PlanSamples] on the proof of a list
    of transactions, the chunk proofs that [BuildChunkProof] gives for the
    planned indices pass [VerifySamples], and the report names exactly the
    planned indices, as many as the policy asks for or all chunks. *)
Theorem sampling_complete o fuel chainID height txs size ds ps proof policy entropy request :
  0 < size → Z.of_nat (length (encodeTransactions txs)) + size < 2 ^ 63 → is_u64 ds → is_u64 ps →
  is_u64 (SP_Samples policy) → is_u64 (SP_MinSamples policy) →
  BuildProofWithErasureOptions txs size ds ps = Ok proof →
  PlanSamples fuel chainID height proof policy entropy = Some (Ok request) →
  ∃ proofs report,
    Forall2 (λ index p, BuildChunkProof txs size index = Ok p) (SR_Indices request) proofs ∧
    VerifySamples o request proofs = Ok report ∧
    Report_VerifiedIndices report = SR_Indices request ∧
    Report_Verified report = Z.min (planned policy) (DA_ChunkCount proof) ∧
    Z.min (SP_MinSamples policy) (DA_ChunkCount proof) ≤ Report_Verified report.
Proof.
  intros Hs Hl Hds Hps Hu1 Hu2 Hb Hplan.
  destruct (BuildProof_inv _ _ _ _ _ Hs Hl Hds Hps Hb) as (_ & _ & _ & total & ->).
  set (n := chunk_count _ _) in *.
  assert (0 < n) as Hn by (unfold n, chunk_count; lia).
  apply PlanSamples_Ok in Hplan as (Hcount & Hmin & Hz & Hh & Hidx & Hc & Hht & Hrn); [|done|done|by cbn; lia].
  cbn [DA_ChunkCount DA_Commitment] in *.
  apply deterministicSampleIndices_Some in Hidx as (Hnd & Hall & Hlen & Hsort); [|done|done].
  destruct (build_proofs txs size (SR_Indices request) Hs Hl Hall) as (proofs & Hf & Hpi & Hok).
  assert (request_indices n ∅ (SR_Indices request) = Ok (keys (SR_Indices request))) as Hreq.
  { apply request_indices_Ok. rewrite (right_id_L ∅ (∪)). split_and!; [|done|intros; apply lookup_empty|done].
    eapply Forall_impl; [exact Hall|]. by intros i [_ ?]. }
  assert (verify_proofs request (keys (SR_Indices request)) ∅ proofs = Ok (keys (SR_Indices request))) as Hver.
  { apply verify_proofs_Ok. rewrite Hpi, (right_id_L ∅ (∪)). split_and!; [|done|intros; apply lookup_empty|done].
    apply Forall_forall. intros p Hp. rewrite Forall_forall in Hok. rewrite Forall_forall in Hall. destruct (Hok p Hp) as (Hv & Hpn & Hpc).
    assert (CP_Index p ∈ SR_Indices request) as Hin by (rewrite <-Hpi; by apply list_elem_of_fmap_2).
    unfold answers. rewrite Hc, Hrn. split_and!; [done|done|by apply Hall|by apply keys_lookup|done]. }
  exists proofs. unfold VerifySamples. rewrite Hc, Hht, Hrn, Hreq, !bool_decide_eq_false_2 by (done || lia).
  cbn [orb negb check mbind result_bind]. rewrite Hver. cbn [mbind result_bind]. rewrite bool_decide_eq_true_2 by done.
  cbn [check mbind result_bind]. rewrite sorted_keys_eq, sorted_sort by done.
  eexists. split_and!; [done|done|done|done|cbn; lia].
Qed.

(** C20: sampling is sound: when [VerifySamples] accepts proofs for a request
    with the commitment of a list of transactions, every requested index has a
    proof with exactly that chunk of the list, or the messages hashed by a
    proof and by the commitment contain a SHA-256 collision; and the report
    names the requested indices. *)
Theorem sampling_sound o txs size ds ps proof chunks request proofs report :
  0 < size → Z.of_nat (length (encodeTransactions txs)) + size < 2 ^ 63 → is_u64 ds → is_u64 ps →
  BuildProofWithErasureOptions txs size ds ps = Ok proof → BuildChunks txs size = Ok chunks →
  SR_Commitment request = DA_Commitment proof → Forall (λ p, is_u64 (CP_Index p)) proofs →
  VerifySamples o request proofs = Ok report →
  Report_VerifiedIndices report ≡ₚ SR_Indices request ∧
  ∀ i, i ∈ SR_Indices request → ∃ p, p ∈ proofs ∧ CP_Index p = i ∧
    let c := mkChunk i (CP_Data p) in
    (c ∈ chunks ∨
     collision (chunkLeaf_message c ::
                path_messages parentHash_message (chunkLeaf c) (to_step <$> CP_Path p))
       (chunk_messages chunks)).
Proof.
  intros Hs Hl Hds Hps Hb Hchunks Hcom Hu Hver.
  destruct (BuildProof_inv _ _ _ _ _ Hs Hl Hds Hps Hb) as (_ & _ & Hc & total & ->).
  rewrite Hc in Hchunks. apply (inj Ok) in Hchunks as <-. cbn [DA_Commitment] in Hcom.
  set (n := chunk_count _ _) in *. pose proof (chunk_count_bound (Z.of_nat (length (encodeTransactions txs))) size ltac:(lia) Hs) as Hcb. fold n in Hcb.
  assert (0 < n) as Hn by (unfold n, chunk_count; lia).
  unfold VerifySamples in Hver. result_inv Hver. subst report. cbn [Report_VerifiedIndices].
  apply request_indices_Ok in Hver1 as (_ & Hnd & _ & ->). rewrite (right_id_L ∅ (∪)) in *.
  apply verify_proofs_Ok in Hver2 as (Hok & Hpnd & _ & ->). rewrite (right_id_L ∅ (∪)) in *.
  rewrite bool_decide_eq_true, !keys_size in Hver3 by done. rewrite sorted_keys_eq, sort_by_perm by done.
  rewrite Forall_forall in Hok. rewrite Forall_forall in Hu.
  assert (CP_Index <$> proofs ≡ₚ SR_Indices request) as Hperm.
  { apply submseteq_length_Permutation; [|lia]. apply NoDup_submseteq; [done|].
    intros i (p & -> & Hp)%list_elem_of_fmap. destruct (Hok p Hp) as (_ & _ & _ & Hreq & _).
    by apply keys_lookup. }
  split; [done|]. intros i Hi. rewrite <-Hperm in Hi. apply list_elem_of_fmap in Hi as (p & -> & Hp).
  exists p. split_and!; [done|done|]. destruct (Hok p Hp) as (Hpc & _ & _ & _ & Hv).
  apply VerifyChunkProof_Ok in Hv as (_ & _ & _ & _ & Hpath). rewrite Hpc, Hcom in Hpath.
  apply chunk_path_sound in Hpath; [done|lia|unfold two64; lia|by apply Hu].
Qed.

(** ** When planning ends *)

(** For a policy that [PlanSamples] does not reject, the loop over the hashes
    ends within [fuel] draws exactly when these draws name as many different
    indices as are to be sampled. *)
Theorem plan_ends fuel chainID height proof policy entropy :
  chainID ≠ "" → height ≠ 0 → DA_Commitment proof ≠ zero_hash → 0 < DA_ChunkCount proof →
  0 ≤ SP_MinSamples policy ≤ planned policy → 0 < planned policy →
  let seed := sampleSeed chainID height (DA_Commitment proof) entropy in
  is_Some (PlanSamples fuel chainID height proof policy entropy) ↔
  Z.min (planned policy) (DA_ChunkCount proof) ≤
    Z.of_nat (size (list_to_set (C := gset Z) (draws fuel seed (DA_ChunkCount proof) 0))).
Proof.
  intros Hid Hh Hz Hn Hmin Hpos seed. unfold PlanSamples. fold (planned policy). fold seed.
  rewrite !bool_decide_eq_false_2 by (done || lia). cbn [orb].
  set (count := if bool_decide _ then _ else _).
  assert (count = Z.min (planned policy) (DA_ChunkCount proof)) as <- by (unfold count; case_bool_decide; lia).
  assert (0 < count) as Hc by (unfold count; case_bool_decide; lia).
  unfold deterministicSampleIndices. rewrite !bool_decide_eq_false_2 by lia. cbn [orb].
  rewrite <-(union_empty_l_L (list_to_set _)), <-(sample_loop_answers fuel seed _ count 0 ∅ [])
    by (done || apply loop_inv_init; lia).
  destruct (sample_loop _ _ _ _ _ _ _) as [l|]; cbn.
  - split; intros _; eauto.
  - split; intros [? ?]; discriminate.
Qed.

(** ** Concrete data *)

Module SamplingExample.
Import AvailabilityExample.
Definition proof : DAProof :=
  match BuildProofWithErasureOptions txs chunk_size 8 2 with Ok p => p | Err _ => zero_DAProof end.
Definition policy : SamplePolicy := mkSamplePolicy 2 1.
Definition plan : option (result SampleRequest) := PlanSamples 8 "vexo" 1 proof policy [x2a].
Definition request : SampleRequest :=
  match plan with Some (Ok r) => r | _ => mkSampleRequest zero_hash 0 0 [] zero_hash end.
Definition proofs : list ChunkProof :=
  omap (λ i, match BuildChunkProof txs chunk_size i with Ok p => Some p | Err _ => None end) (SR_Indices request).
Definition report : SampleReport :=
  match VerifySamples canonical_order request proofs with
  | Ok r => r
  | Err _ => mkSampleReport zero_hash 0 0 0 0 0 []
  end.

Lemma sampling_complete_witness :
  ∃ proofs report, VerifySamples canonical_order request proofs = Ok report ∧ Report_Verified report = 2.
Proof.
  destruct (sampling_complete canonical_order 8 "vexo" 1 txs chunk_size 8 2 proof policy [x2a] request)
    as (ps & r & _ & Hv & _ & Hn & _).
  - reflexivity.
  - by vm_compute.
  - by vm_compute.
  - by vm_compute.
  - by vm_compute.
  - by vm_compute.
  - vm_compute. reflexivity.
  - vm_compute. reflexivity.
  - exists ps, r. split; [exact Hv|]. rewrite Hn. vm_compute. reflexivity.
Defined.

Lemma sampling_sound_witness : Report_VerifiedIndices report ≡ₚ SR_Indices request.
Proof.
  apply (sampling_sound canonical_order txs chunk_size 8 2 proof chunks request proofs report).
  - reflexivity.
  - by vm_compute.
  - by vm_compute.
  - by vm_compute.
  - vm_compute. reflexivity.
  - vm_compute. reflexivity.
  - vm_compute. reflexivity.
  - apply (bool_decide_unpack _). vm_compute. exact I.
  - vm_compute. reflexivity.
Defined.
End SamplingExample.
