(* ===== verification/StateProof.v ===== *)
(** * State proofs ([src/stateproof], [src/queryproof])

    A namespace of key-value pairs is committed to by the Merkle root of its
    leaves in key order.  Membership is proved by a path, absence by the two
    neighbours of the key.  [queryproof] packs either into one message.  The
    proofs use the shared tree of Merkle.v with promotion of an odd node. *)

From S2P Require Import Prelude GoLib Sha256 Merkle Types SignBytes.

Definition ErrInvalidNamespace := ErrNew "stateproof.ErrInvalidNamespace".
Definition ErrInvalidKey := ErrNew "stateproof.ErrInvalidKey".
Definition ErrDuplicateKey := ErrNew "stateproof.ErrDuplicateKey".
Definition ErrInvalidProof := ErrNew "queryproof.ErrInvalidProof".
Definition ErrRootMismatch := ErrNew "queryproof.ErrRootMismatch".

Record Pair := mkPair {
  Pair_Key : bytes;
  Pair_Value : bytes
}.

Record Step := mkStep {
  Step_Side : string;
  Step_Hash : Hash
}.

Record AbsenceNeighbor := mkNeighbor {
  Neighbor_Key : bytes;
  Neighbor_Value : bytes;
  Neighbor_Index : Z;
  Neighbor_LeafCount : Z;
  Neighbor_Path : list Step
}.

#[global] Instance Pair_eq_dec : EqDecision Pair.
Proof. solve_decision. Defined.

(** ** Hashes *)

(** [writeBytes] *)
Definition length_prefixed (value : bytes) : bytes :=
  be64 (Z.of_nat (length value)) ++ value.

Definition LeafHash_message (namespace : string) (key value : bytes) : bytes :=
  bytes_of_string "vexo.state.leaf.v1" ++ [x00] ++ bytes_of_string namespace ++
  length_prefixed key ++ length_prefixed value.

Definition LeafHash (namespace : string) (key value : bytes) : Hash :=
  sha256 (LeafHash_message namespace key value).

Definition nodeHash_message (left right : Hash) : bytes :=
  bytes_of_string "vexo.state.node.v1" ++ hash_bytes left ++ hash_bytes right.

Definition nodeHash (left right : Hash) : Hash := sha256 (nodeHash_message left right).

Definition emptyRoot_message (namespace : string) : bytes :=
  bytes_of_string "vexo.state.empty.v1" ++ bytes_of_string namespace.

Definition emptyRoot (namespace : string) : Hash := sha256 (emptyRoot_message namespace).

(** ** Leaves and tree *)

(** The scan of [sortedLeaves] for equal neighbours. *)
Fixpoint adjacent_equal (leaves : list Pair) : bool :=
  match leaves with
  | p :: (q :: _) as rest => bool_decide (Pair_Key p = Pair_Key q) || adjacent_equal rest
  | _ => false
  end.

Definition sortedLeaves (namespace : string) (pairs : list Pair) : result (list Pair) :=
  check ErrInvalidNamespace (bool_decide (namespace ≠ "")) ≫= λ _,
  check ErrInvalidKey (forallb (λ p, bool_decide (Pair_Key p ≠ [])) pairs) ≫= λ _,
  let leaves := sort_by Pair_Key bytes_le pairs in
  check ErrDuplicateKey (negb (adjacent_equal leaves)) ≫= λ _,
  Ok leaves.

(** [stateproof.merkleRoot]; callers pass at least one hash. *)
Definition state_merkleRoot (hashes : list Hash) : Hash :=
  merkle_root nodeHash_message false hashes.

Definition to_Step (step : bool * Hash) : Step :=
  mkStep (if step.1 then "left" else "right") step.2.

Definition state_merklePath (hashes : list Hash) (targetIndex : nat) : list Step :=
  to_Step <$> merkle_path nodeHash_message false hashes targetIndex.

Definition leaf_hashes (namespace : string) (leaves : list Pair) : list Hash :=
  (λ p, LeafHash namespace (Pair_Key p) (Pair_Value p)) <$> leaves.

Definition Root (namespace : string) (pairs : list Pair) : result Hash :=
  leaves ← sortedLeaves namespace pairs;
  if bool_decide (leaves = []) then Ok (emptyRoot namespace)
  else Ok (state_merkleRoot (leaf_hashes namespace leaves)).

(** ** Membership *)

(** The loop of [BuildMembership]: the last leaf with the key. *)
Fixpoint find_leaf (key : bytes) (leaves : list Pair) (index : nat)
    (target : option (nat * bytes)) : option (nat * bytes) :=
  match leaves with
  | [] => target
  | leaf :: leaves =>
      find_leaf key leaves (S index)
        (if bool_decide (Pair_Key leaf = key) then Some (index, Pair_Value leaf) else target)
  end.

(** Root, value, whether the key exists, and path. *)
Definition BuildMembership (namespace : string) (pairs : list Pair) (key : bytes)
    : result (Hash * bytes * bool * list Step) :=
  check ErrInvalidKey (bool_decide (key ≠ [])) ≫= λ _,
  leaves ← sortedLeaves namespace pairs;
  if bool_decide (leaves = []) then Ok (emptyRoot namespace, [], false, [])
  else
    let hashes := leaf_hashes namespace leaves in
    match find_leaf key leaves 0 None with
    | None => Ok (state_merkleRoot hashes, [], false, [])
    | Some (targetIndex, value) =>
        Ok (state_merkleRoot hashes, value, true, state_merklePath hashes targetIndex)
    end.

(** The loop of [VerifyMembership]; [None] on an unknown side. *)
Fixpoint fold_steps (current : Hash) (path : list Step) : option Hash :=
  match path with
  | [] => Some current
  | step :: path =>
      if bool_decide (Step_Side step = "left")
      then fold_steps (nodeHash (Step_Hash step) current) path
      else if bool_decide (Step_Side step = "right")
      then fold_steps (nodeHash current (Step_Hash step)) path
      else None
  end.

Definition VerifyMembership (namespace : string) (key value : bytes) (path : list Step)
    (expectedRoot : Hash) : bool :=
  if bool_decide (namespace = "") || bool_decide (key = []) ||
     bool_decide (expectedRoot = zero_hash) then false
  else match fold_steps (LeafHash namespace key value) path with
       | None => false
       | Some current => bool_decide (current = expectedRoot)
       end.

(** ** Absence *)

(** [sort.Search(n, f)], with [fuel] iterations of its loop. *)
Fixpoint search_loop (fuel : nat) (f : nat → bool) (i j : nat) : nat :=
  match fuel with
  | O => i
  | S fuel =>
      if bool_decide (i < j)%nat then
        let h := ((i + j) / 2)%nat in
        if f h then search_loop fuel f i h else search_loop fuel f (S h) j
      else i
  end.

Definition sort_Search (n : nat) (f : nat → bool) : nat := search_loop n f 0 n.

(** [bytes.Compare(a, b) < 0] *)
Definition bytes_ltb (a b : bytes) : bool := bool_decide (¬ bytes_le b a).

Definition absenceNeighbor (pair : Pair) (index leafCount : nat) (hashes : list Hash)
    : AbsenceNeighbor :=
  mkNeighbor (Pair_Key pair) (Pair_Value pair) (Z.of_nat index) (Z.of_nat leafCount)
    (state_merklePath hashes index).

(** Root, left and right neighbour, and whether the key exists. *)
Definition BuildNonMembership (namespace : string) (pairs : list Pair) (key : bytes)
    : result (Hash * option AbsenceNeighbor * option AbsenceNeighbor * bool) :=
  check ErrInvalidKey (bool_decide (key ≠ [])) ≫= λ _,
  leaves ← sortedLeaves namespace pairs;
  if bool_decide (leaves = []) then Ok (emptyRoot namespace, None, None, false)
  else
    let hashes := leaf_hashes namespace leaves in
    let key_at i := default [] (Pair_Key <$> leaves !! i) in
    let position := sort_Search (length leaves) (λ i, negb (bytes_ltb (key_at i) key)) in
    let root := state_merkleRoot hashes in
    if bool_decide (position < length leaves)%nat && bool_decide (key_at position = key)
    then Ok (root, None, None, true)
    else
      let neighbor i := p ← leaves !! i; Some (absenceNeighbor p i (length leaves) hashes) in
      Ok (root,
          if bool_decide (0 < position)%nat then neighbor (position - 1)%nat else None,
          if bool_decide (position < length leaves)%nat then neighbor position else None,
          false).

Definition Contains (pairs : list Pair) (key : bytes) : bool :=
  existsb (λ p, bool_decide (Pair_Key p = key)) pairs.

Definition VerifyNonMembership (namespace : string) (pairs : list Pair) (key : bytes)
    (expectedRoot : Hash) : bool :=
  if bool_decide (namespace = "") || bool_decide (key = []) ||
     bool_decide (expectedRoot = zero_hash) then false
  else if Contains pairs key then false
  else match Root namespace pairs with
       | Ok root => bool_decide (root = expectedRoot)
       | Err _ => false
       end.

Definition verifyNeighbor (namespace : string) (neighbor : AbsenceNeighbor) (expectedRoot : Hash)
    : bool :=
  if bool_decide (Neighbor_Key neighbor = []) || bool_decide (Neighbor_LeafCount neighbor = 0) ||
     bool_decide (Neighbor_LeafCount neighbor ≤ Neighbor_Index neighbor) then false
  else VerifyMembership namespace (Neighbor_Key neighbor) (Neighbor_Value neighbor)
         (Neighbor_Path neighbor) expectedRoot.

Definition VerifyNonMembershipCompact (namespace : string) (key : bytes) (expectedRoot : Hash)
    (left right : option AbsenceNeighbor) : bool :=
  if bool_decide (namespace = "") || bool_decide (key = []) ||
     bool_decide (expectedRoot = zero_hash) then false
  else
    let left_ok :=
      match left with
      | None => true
      | Some l => bytes_ltb (Neighbor_Key l) key && verifyNeighbor namespace l expectedRoot
      end in
    let right_ok :=
      match right with
      | None => true
      | Some r => bytes_ltb key (Neighbor_Key r) && verifyNeighbor namespace r expectedRoot
      end in
    match left, right with
    | None, None => bool_decide (expectedRoot = emptyRoot namespace)
    | None, Some r => right_ok && bool_decide (Neighbor_Index r = 0)
    | Some l, None =>
        left_ok && bool_decide (wrap64 (Neighbor_Index l + 1) = Neighbor_LeafCount l)
    | Some l, Some r =>
        left_ok && right_ok &&
        (bool_decide (Neighbor_LeafCount l = Neighbor_LeafCount r) &&
         bool_decide (wrap64 (Neighbor_Index l + 1) = Neighbor_Index r))
    end.

(** ** Query proofs *)

Definition SchemaVersionV1 : string := "v1".

(** [queryproof.Proof] *)
Record QueryProof := mkQueryProof {
  QP_SchemaVersion : string;
  QP_ChainID : string;
  QP_Height : Height;
  QP_Namespace : string;
  QP_Key : bytes;
  QP_Value : bytes;
  QP_Exists : bool;
  QP_StateRoot : Hash;
  QP_LeafHash : Hash;
  QP_MerklePath : list Step;
  QP_NamespaceLeaves : list Pair;
  QP_AbsenceLeft : option AbsenceNeighbor;
  QP_AbsenceRight : option AbsenceNeighbor
}.

Definition BuildFromPairs (chainID : string) (height : Height) (namespace : string) (key : bytes)
    (pairs : list Pair) (stateRoot : Hash) : result QueryProof :=
  check ErrInvalidProof
    (negb (bool_decide (chainID = "") || bool_decide (height = 0) || bool_decide (namespace = "") ||
           bool_decide (key = []) || bool_decide (stateRoot = zero_hash))) ≫= λ _,
  '(root, value, exists_, path) ← BuildMembership namespace pairs key;
  check ErrRootMismatch (bool_decide (root = stateRoot)) ≫= λ _,
  '(absenceLeft, absenceRight) ←
    (if exists_ : bool then Ok (None, None)
     else
       '(absenceRoot, left', right', absenceExists) ← BuildNonMembership namespace pairs key;
       check ErrInvalidProof
         (negb (absenceExists || bool_decide (absenceRoot ≠ stateRoot))) ≫= λ _,
       Ok (left', right'));
  Ok (mkQueryProof SchemaVersionV1 chainID height namespace key value exists_ stateRoot
        (LeafHash namespace key value) path [] absenceLeft absenceRight).

(** [queryproof.Verify] *)
Definition Query_Verify (proof : QueryProof) (expectedChainID : string) (expectedHeight : Height)
    (expectedRoot : Hash) : result unit :=
  check ErrInvalidProof
    (negb (bool_decide (QP_SchemaVersion proof ≠ SchemaVersionV1) ||
           bool_decide (QP_ChainID proof = "") || bool_decide (QP_Height proof = 0) ||
           bool_decide (QP_Namespace proof = "") || bool_decide (QP_Key proof = []))) ≫= λ _,
  check ErrInvalidProof
    (negb (bool_decide (expectedChainID ≠ "") && bool_decide (QP_ChainID proof ≠ expectedChainID)))
    ≫= λ _,
  check ErrInvalidProof
    (negb (bool_decide (expectedHeight ≠ 0) && bool_decide (QP_Height proof ≠ expectedHeight)))
    ≫= λ _,
  check ErrRootMismatch
    (negb (bool_decide (expectedRoot ≠ zero_hash) && bool_decide (QP_StateRoot proof ≠ expectedRoot)))
    ≫= λ _,
  check ErrInvalidProof
    (bool_decide (QP_LeafHash proof = LeafHash (QP_Namespace proof) (QP_Key proof) (QP_Value proof)))
    ≫= λ _,
  if QP_Exists proof then
    check ErrInvalidProof
      (VerifyMembership (QP_Namespace proof) (QP_Key proof) (QP_Value proof) (QP_MerklePath proof)
         (QP_StateRoot proof))
  else
    match QP_AbsenceLeft proof, QP_AbsenceRight proof with
    | None, None =>
        check ErrInvalidProof
          (VerifyNonMembership (QP_Namespace proof) (QP_NamespaceLeaves proof) (QP_Key proof)
             (QP_StateRoot proof))
    | absenceLeft, absenceRight =>
        check ErrInvalidProof
          (VerifyNonMembershipCompact (QP_Namespace proof) (QP_Key proof) (QP_StateRoot proof)
             absenceLeft absenceRight)
    end.

(** [queryproof.EqualValue] *)
Definition EqualValue (proof : QueryProof) (value : bytes) : bool :=
  bool_decide (QP_Value proof = value).

(** ** Sorted leaves *)

Definition keys_sorted (leaves : list Pair) : Prop := StronglySorted bytes_le (Pair_Key <$> leaves).

Lemma adjacent_equal_nodup leaves :
  keys_sorted leaves → adjacent_equal leaves = false → NoDup (Pair_Key <$> leaves).
Proof.
  unfold keys_sorted. induction leaves as [|p [|q leaves] IH]; intros Hs Hadj.
  - constructor.
  - apply NoDup_singleton.
  - cbn [adjacent_equal] in Hadj. apply orb_false_iff in Hadj as [Hne Hadj].
    apply bool_decide_eq_false in Hne. rewrite fmap_cons in *.
    apply StronglySorted_cons in Hs as [Hall Hs]. constructor; [|by apply IH].
    rewrite fmap_cons in *. intros [Heq|Hin]%elem_of_cons; [done|].
    apply StronglySorted_cons in Hs as [Hq _].
    rewrite Forall_cons, !Forall_forall in *. destruct Hall as [Hpq _].
    apply Hne, (anti_symm bytes_le); [done|]. by apply Hq.
Qed.

Lemma sortedLeaves_Ok namespace pairs leaves :
  sortedLeaves namespace pairs = Ok leaves →
  namespace ≠ "" ∧ leaves ≡ₚ pairs ∧ Forall (λ p, Pair_Key p ≠ []) leaves ∧
  keys_sorted leaves ∧ NoDup (Pair_Key <$> leaves).
Proof.
  intros H. unfold sortedLeaves in H. result_inv H. apply bool_decide_eq_true in H0.
  apply negb_true_iff in H2. assert (keys_sorted leaves) as Hs.
  { subst leaves. apply sort_by_sorted; apply _. }
  assert (leaves ≡ₚ pairs) as Hp by (subst leaves; apply sort_by_perm).
  split_and!; [done|done| |done|].
  - rewrite Hp. apply Forall_forall. intros p Hp'. rewrite forallb_forall in H1.
    apply list_elem_of_In, H1, bool_decide_eq_true in Hp'. done.
  - subst leaves. by apply adjacent_equal_nodup.
Qed.

Lemma find_leaf_Some key leaves n t i v :
  find_leaf key leaves n t = Some (i, v) →
  (∃ j, i = (n + j)%nat ∧ leaves !! j = Some (mkPair key v)) ∨ t = Some (i, v).
Proof.
  revert n t. induction leaves as [|[k w] leaves IH]; intros n t; cbn [find_leaf]; [by right|].
  intros [(j & -> & Hj)|Ht]%IH.
  - left. exists (S j). split; [lia|done].
  - case_bool_decide as Hk; [|by right]. simpl in Hk. subst k. injection Ht as <- <-.
    left. exists 0%nat. split; [lia|done].
Qed.

Lemma find_leaf_None key leaves n t :
  find_leaf key leaves n t = None → t = None ∧ key ∉ Pair_Key <$> leaves.
Proof.
  revert n t. induction leaves as [|[k w] leaves IH]; intros n t; cbn [find_leaf];
    [intros ->; split; [done|apply not_elem_of_nil]|].
  intros [Ht Hn]%IH. case_bool_decide as Hk; [done|]. split; [done|].
  rewrite fmap_cons, not_elem_of_cons. split; [|done]. intros ->. by apply Hk.
Qed.

(** ** Paths *)

Lemma fold_steps_apply h path :
  fold_steps h (to_Step <$> path) = Some (apply_path nodeHash_message h path).
Proof.
  unfold apply_path. revert h. induction path as [|[[] s] path IH]; intros h; [done|..];
    cbn [fmap list_fmap fold_steps to_Step Step_Side Step_Hash fst snd];
    rewrite ?bool_decide_eq_true_2, ?bool_decide_eq_false_2 by done; by rewrite IH.
Qed.

Lemma fold_steps_inv h path c :
  fold_steps h path = Some c →
  ∃ p, path = to_Step <$> p ∧ c = apply_path nodeHash_message h p.
Proof.
  unfold apply_path. revert h. induction path as [|[side s] path IH]; intros h; simpl.
  { intros [= <-]. by exists []. }
  case_bool_decide as Hl; [|case_bool_decide as Hr; [|done]].
  - intros (p & -> & ->)%IH. exists ((true, s) :: p). by rewrite Hl.
  - intros (p & -> & ->)%IH. exists ((false, s) :: p). by rewrite Hr.
Qed.

(** The path of a leaf verifies. *)
Lemma leaf_path_verifies namespace leaves i p :
  namespace ≠ "" → Pair_Key p ≠ [] → leaves !! i = Some p →
  let hashes := leaf_hashes namespace leaves in
  state_merkleRoot hashes ≠ zero_hash →
  VerifyMembership namespace (Pair_Key p) (Pair_Value p) (state_merklePath hashes i)
    (state_merkleRoot hashes) = true.
Proof.
  intros Hns Hk Hi hashes Hnz. unfold VerifyMembership.
  rewrite (bool_decide_eq_false_2 _ Hns), (bool_decide_eq_false_2 _ Hk),
    (bool_decide_eq_false_2 _ Hnz). cbn [orb].
  unfold state_merklePath. rewrite fold_steps_apply. apply bool_decide_eq_true.
  apply merkle_path_complete. unfold hashes, leaf_hashes. by rewrite list_lookup_fmap, Hi.
Qed.

(** ** Search *)

(** [sort.Search] of a monotone predicate returns its first index. *)
Lemma search_loop_spec fuel f n i j :
  (j - i ≤ fuel)%nat → (i ≤ j ≤ n)%nat →
  (∀ a b, (a ≤ b < n)%nat → f a = true → f b = true) →
  (∀ k, (k < i)%nat → f k = false) → (∀ k, (j ≤ k < n)%nat → f k = true) →
  let p := search_loop fuel f i j in
  (p ≤ n)%nat ∧ (∀ k, (k < p)%nat → f k = false) ∧ (∀ k, (p ≤ k < n)%nat → f k = true).
Proof.
  revert i j. induction fuel as [|fuel IH]; intros i j Hf Hij Hmono Hlo Hhi; cbn [search_loop].
  { split_and!; [lia|done|]. intros k Hk. apply Hhi. lia. }
  case_bool_decide as Hlt; last first.
  { split_and!; [lia|done|]. intros k Hk. apply Hhi. lia. }
  pose proof (Nat.div_mod (i + j) 2 ltac:(lia)) as Hdm.
  pose proof (Nat.mod_upper_bound (i + j) 2 ltac:(lia)) as Hm.
  set (h := ((i + j) / 2)%nat) in *. destruct (f h) eqn:Hfh; apply IH; try lia; try done.
  - intros k Hk. apply (Hmono h); [lia|done].
  - intros k Hk. destruct (f k) eqn:Hfk; [|done].
    rewrite (Hmono k h) in Hfh; [done|lia|done].
Qed.

Lemma sort_Search_spec n f :
  (∀ a b, (a ≤ b < n)%nat → f a = true → f b = true) →
  let p := sort_Search n f in
  (p ≤ n)%nat ∧ (∀ k, (k < p)%nat → f k = false) ∧ (∀ k, (p ≤ k < n)%nat → f k = true).
Proof. intros Hm. apply search_loop_spec; [lia|lia|done|lia|lia]. Qed.

(** ** Keys in order *)

Lemma StronglySorted_lookup_lt {A} (R : relation A) l i j x y :
  StronglySorted R l → (i < j)%nat → l !! i = Some x → l !! j = Some y → R x y.
Proof.
  intros Hs. revert i j. induction Hs as [|a l _ IH Hall]; intros i j Hij Hi Hj; [done|].
  destruct j as [|j]; [lia|]. destruct i as [|i].
  - injection Hi as ->. rewrite Forall_forall in Hall.
    by eapply Hall, list_elem_of_lookup_2.
  - apply (IH i j); [lia|done..].
Qed.

Lemma keys_sorted_lookup leaves i j p q :
  keys_sorted leaves → (i ≤ j)%nat → leaves !! i = Some p → leaves !! j = Some q →
  bytes_le (Pair_Key p) (Pair_Key q).
Proof.
  intros Hs Hij Hi Hj. destruct (decide (i = j)) as [->|Hne].
  { assert (p = q) as -> by congruence. reflexivity. }
  eapply (StronglySorted_lookup_lt bytes_le _ i j); [exact Hs|lia|..];
    rewrite list_lookup_fmap, ?Hi, ?Hj; done.
Qed.

Lemma bytes_ltb_spec a b : bytes_ltb a b = true ↔ bytes_le a b ∧ a ≠ b.
Proof.
  unfold bytes_ltb. rewrite bool_decide_eq_true. split.
  - intros Hn. destruct (total bytes_le a b) as [?|?]; [|done]. split; [done|].
    intros ->. by apply Hn.
  - intros [Hab Hne] Hba. by apply Hne, (anti_symm bytes_le).
Qed.

Lemma Contains_spec pairs key : Contains pairs key = true ↔ key ∈ Pair_Key <$> pairs.
Proof.
  unfold Contains. rewrite existsb_exists, list_elem_of_fmap.
  split; intros (p & H1 & H2); exists p.
  - apply bool_decide_eq_true in H2. by apply list_elem_of_In in H1.
  - split; [by apply list_elem_of_In|by apply bool_decide_eq_true].
Qed.

Lemma Contains_perm pairs leaves key : leaves ≡ₚ pairs → Contains pairs key = Contains leaves key.
Proof.
  intros Hp. apply eq_true_iff_eq. by rewrite !Contains_spec, Hp.
Qed.

(** The position [BuildNonMembership] searches for: keys before it are smaller,
    keys from it on are not. *)
Lemma search_position leaves key :
  keys_sorted leaves →
  let key_at i := default [] (Pair_Key <$> leaves !! i) in
  let position := sort_Search (length leaves) (λ i, negb (bytes_ltb (key_at i) key)) in
  (position ≤ length leaves)%nat ∧
  (∀ k p, (k < position)%nat → leaves !! k = Some p → bytes_ltb (Pair_Key p) key = true) ∧
  (∀ k p, (position ≤ k)%nat → leaves !! k = Some p → bytes_ltb (Pair_Key p) key = false).
Proof.
  intros Hs key_at position.
  destruct (sort_Search_spec (length leaves) (λ i, negb (bytes_ltb (key_at i) key)))
    as (Hle & Hlo & Hhi).
  { intros a b Hab. destruct (lookup_lt_is_Some_2 leaves a) as [p Hp]; [lia|].
    destruct (lookup_lt_is_Some_2 leaves b) as [q Hq]; [lia|]. unfold key_at.
    rewrite Hp, Hq. cbn [fmap option_fmap option_map default]. rewrite !negb_true_iff.
    pose proof (keys_sorted_lookup leaves a b p q Hs ltac:(lia) Hp Hq) as Hpq.
    unfold bytes_ltb. rewrite !bool_decide_eq_false. intros Hn1 Hn2. apply Hn1.
    intros Hk. apply Hn2. by trans (Pair_Key p). }
  split; [done|]. fold position in Hlo, Hhi. split; intros k p Hk Hp.
  - specialize (Hlo k Hk). unfold key_at in Hlo. rewrite Hp in Hlo.
    by apply negb_false_iff in Hlo.
  - specialize (Hhi k (conj Hk (lookup_lt_Some _ _ _ Hp))). unfold key_at in Hhi.
    rewrite Hp in Hhi. by apply negb_true_iff in Hhi.
Qed.

(** ** Completeness *)

Lemma neighbor_verifies namespace leaves i p :
  namespace ≠ "" → Pair_Key p ≠ [] → leaves !! i = Some p →
  let hashes := leaf_hashes namespace leaves in
  state_merkleRoot hashes ≠ zero_hash →
  verifyNeighbor namespace (absenceNeighbor p i (length leaves) hashes)
    (state_merkleRoot hashes) = true.
Proof.
  intros Hns Hk Hi hashes Hnz. unfold verifyNeighbor, absenceNeighbor. cbn.
  pose proof (lookup_lt_Some _ _ _ Hi) as Hlt. bool_decide_all. cbn [orb].
  by apply leaf_path_verifies.
Qed.

(** The neighbours of a position that separates the smaller from the larger
    keys prove the absence of the key. *)
Lemma neighbors_verify namespace leaves key position :
  namespace ≠ "" → key ≠ [] → leaves ≠ [] → Forall (λ p, Pair_Key p ≠ []) leaves →
  Z.of_nat (length leaves) < two64 → (position ≤ length leaves)%nat →
  (∀ k p, (k < position)%nat → leaves !! k = Some p → bytes_ltb (Pair_Key p) key = true) →
  (∀ k p, (position ≤ k)%nat → leaves !! k = Some p → bytes_ltb key (Pair_Key p) = true) →
  let hashes := leaf_hashes namespace leaves in
  let root := state_merkleRoot hashes in
  let neighbor i := p ← leaves !! i; Some (absenceNeighbor p i (length leaves) hashes) in
  let left := if bool_decide (0 < position)%nat then neighbor (position - 1)%nat else None in
  let right := if bool_decide (position < length leaves)%nat then neighbor position else None in
  root ≠ zero_hash →
  (left ≠ None ∨ right ≠ None) ∧
  VerifyNonMembershipCompact namespace key root left right = true.
Proof.
  intros Hns Hkey Hne Hks Hlen Hle Hlo Hhi hashes root neighbor left right Hnz.
  assert (∀ i, (i < length leaves)%nat → ∃ p, leaves !! i = Some p ∧
    neighbor i = Some (absenceNeighbor p i (length leaves) hashes) ∧
    verifyNeighbor namespace (absenceNeighbor p i (length leaves) hashes) root = true) as Hn.
  { intros i Hi. destruct (lookup_lt_is_Some_2 leaves i Hi) as [p Hp]. exists p.
    split; [done|]. split; [unfold neighbor; by rewrite Hp|]. apply neighbor_verifies; try done.
    rewrite Forall_forall in Hks. by eapply Hks, list_elem_of_lookup_2. }
  assert (0 < length leaves)%nat as Hpos by (destruct leaves; simpl; [done|lia]).
  unfold VerifyNonMembershipCompact, left, right.
  rewrite (bool_decide_eq_false_2 _ Hns), (bool_decide_eq_false_2 _ Hkey),
    (bool_decide_eq_false_2 _ Hnz). cbn [orb].
  destruct (decide (0 < position)%nat) as [H0|H0]; [|rewrite (bool_decide_eq_false_2 _ H0)];
  [rewrite (bool_decide_eq_true_2 _ H0);
   destruct (Hn (position - 1)%nat ltac:(lia)) as (p & Hp & -> & ->);
   cbn [Neighbor_Key absenceNeighbor Neighbor_Index Neighbor_LeafCount];
   rewrite (Hlo (position - 1)%nat p ltac:(lia) Hp), wrap64_small by (unfold is_u64; lia)|];
  (destruct (decide (position < length leaves)%nat) as [H1|H1];
   [rewrite (bool_decide_eq_true_2 _ H1); destruct (Hn position H1) as (q & Hq & -> & ->);
    cbn [Neighbor_Key absenceNeighbor Neighbor_Index Neighbor_LeafCount];
    rewrite (Hhi position q ltac:(reflexivity) Hq)|rewrite (bool_decide_eq_false_2 _ H1)]);
  try (exfalso; lia); (split; [by auto|by bool_decide_all]).
Qed.

Lemma BuildNonMembership_verifies namespace pairs leaves key :
  sortedLeaves namespace pairs = Ok leaves → leaves ≠ [] → key ≠ [] →
  key ∉ Pair_Key <$> leaves → Z.of_nat (length leaves) < two64 →
  let root := state_merkleRoot (leaf_hashes namespace leaves) in
  root ≠ zero_hash →
  ∃ left right, BuildNonMembership namespace pairs key = Ok (root, left, right, false) ∧
    (left ≠ None ∨ right ≠ None) ∧
    VerifyNonMembershipCompact namespace key root left right = true.
Proof.
  intros Hsl Hne Hkey Hnin Hlen root Hnz.
  destruct (sortedLeaves_Ok _ _ _ Hsl) as (Hns & Hp & Hks & Hs & Hnd).
  assert (∀ i p, leaves !! i = Some p → Pair_Key p ≠ key) as Hkeys.
  { intros i p Hi <-. apply Hnin, list_elem_of_fmap_2. by eapply list_elem_of_lookup_2. }
  unfold BuildNonMembership. rewrite Hsl, (bool_decide_eq_true_2 _ Hkey).
  cbn [check mbind result_bind]. rewrite (bool_decide_eq_false_2 _ Hne).
  destruct (search_position leaves key Hs) as (Hle & Hlo & Hhi).
  set (position := sort_Search _ _) in *.
  assert (bool_decide (position < length leaves)%nat &&
    bool_decide (default [] (Pair_Key <$> leaves !! position) = key) = false) as ->.
  { apply andb_false_iff. destruct (leaves !! position) as [p|] eqn:E.
    - right. apply bool_decide_eq_false. by eapply Hkeys.
    - left. apply bool_decide_eq_false. apply lookup_ge_None in E. lia. }
  eexists _, _. split; [reflexivity|]. apply neighbors_verify; try done.
  intros i p Hpi Hi. specialize (Hhi i p Hpi Hi). apply bytes_ltb_spec.
  unfold bytes_ltb in Hhi. apply bool_decide_eq_false, dec_stable in Hhi.
  split; [done|]. intros ->. by apply (Hkeys i p).
Qed.

Lemma BuildMembership_cases namespace pairs leaves key :
  sortedLeaves namespace pairs = Ok leaves → leaves ≠ [] → key ≠ [] →
  let hashes := leaf_hashes namespace leaves in
  (∃ i v, leaves !! i = Some (mkPair key v) ∧
     BuildMembership namespace pairs key =
       Ok (state_merkleRoot hashes, v, true, state_merklePath hashes i)) ∨
  ((key ∉ Pair_Key <$> leaves) ∧
     BuildMembership namespace pairs key = Ok (state_merkleRoot hashes, [], false, [])).
Proof.
  intros Hsl Hne Hkey hashes. unfold BuildMembership.
  rewrite Hsl, (bool_decide_eq_true_2 _ Hkey). cbn [check mbind result_bind].
  rewrite (bool_decide_eq_false_2 _ Hne).
  destruct (find_leaf key leaves 0 None) as [[i v]|] eqn:E.
  - left. exists i, v. apply find_leaf_Some in E as [(j & -> & Hj)|?]; [|done]. done.
  - right. apply find_leaf_None in E as [_ Hn]. done.
Qed.

Lemma BuildNonMembership_empty namespace pairs key :
  sortedLeaves namespace pairs = Ok [] → key ≠ [] →
  BuildNonMembership namespace pairs key = Ok (emptyRoot namespace, None, None, false) ∧
  BuildMembership namespace pairs key = Ok (emptyRoot namespace, [], false, []).
Proof.
  intros Hsl Hkey. unfold BuildNonMembership, BuildMembership.
  by rewrite Hsl, (bool_decide_eq_true_2 _ Hkey).
Qed.

Lemma Root_empty namespace : namespace ≠ "" → Root namespace [] = Ok (emptyRoot namespace).
Proof. intros Hns. unfold Root, sortedLeaves. by rewrite (bool_decide_eq_true_2 _ Hns). Qed.

(** The checks of [Verify] that do not concern the tree. *)
Lemma Query_Verify_header chainID height namespace key value exists_ root path left right :
  chainID ≠ "" → height ≠ 0 → namespace ≠ "" → key ≠ [] →
  Query_Verify (mkQueryProof SchemaVersionV1 chainID height namespace key value exists_ root
    (LeafHash namespace key value) path [] left right) chainID height root =
  check ErrInvalidProof
    (if exists_ then VerifyMembership namespace key value path root
     else match left, right with
          | None, None => VerifyNonMembership namespace [] key root
          | _, _ => VerifyNonMembershipCompact namespace key root left right
          end).
Proof.
  intros. unfold Query_Verify.
  cbn [QP_SchemaVersion QP_ChainID QP_Height QP_Namespace QP_Key QP_Value QP_StateRoot QP_LeafHash
    QP_Exists QP_AbsenceLeft QP_AbsenceRight QP_NamespaceLeaves QP_MerklePath].
  bool_decide_all. rewrite ?andb_false_r. cbn.
  by destruct exists_, left, right.
Qed.

Lemma BuildFromPairs_present chainID height namespace key pairs root value path :
  chainID ≠ "" → height ≠ 0 → namespace ≠ "" → key ≠ [] → root ≠ zero_hash →
  BuildMembership namespace pairs key = Ok (root, value, true, path) →
  BuildFromPairs chainID height namespace key pairs root =
    Ok (mkQueryProof SchemaVersionV1 chainID height namespace key value true root
          (LeafHash namespace key value) path [] None None).
Proof.
  intros ????? Hb. unfold BuildFromPairs. rewrite Hb. bool_decide_all. cbn.
  by bool_decide_all.
Qed.

Lemma BuildFromPairs_absent chainID height namespace key pairs root left right :
  chainID ≠ "" → height ≠ 0 → namespace ≠ "" → key ≠ [] → root ≠ zero_hash →
  BuildMembership namespace pairs key = Ok (root, [], false, []) →
  BuildNonMembership namespace pairs key = Ok (root, left, right, false) →
  BuildFromPairs chainID height namespace key pairs root =
    Ok (mkQueryProof SchemaVersionV1 chainID height namespace key [] false root
          (LeafHash namespace key []) [] [] left right).
Proof.
  intros ????? Hb Hn. unfold BuildFromPairs. rewrite Hb, Hn. bool_decide_all. cbn.
  bool_decide_all. cbn. by bool_decide_all.
Qed.

(** C21: for a namespace with a root, [BuildFromPairs] always returns a proof,
    the proof says whether the key is present, carries the stored value of a
    present key, and [Verify] accepts it: membership proofs and compact absence
    proofs alike, the empty namespace included. *)
Theorem query_proof_complete chainID height namespace key pairs root :
  chainID ≠ "" → height ≠ 0 → key ≠ [] → root ≠ zero_hash →
  Z.of_nat (length pairs) < two64 →
  Root namespace pairs = Ok root →
  ∃ proof, BuildFromPairs chainID height namespace key pairs root = Ok proof ∧
    Query_Verify proof chainID height root = Ok tt ∧
    QP_Exists proof = Contains pairs key ∧
    (QP_Exists proof = true → mkPair key (QP_Value proof) ∈ pairs).
Proof.
  intros Hc Hh Hkey Hnz Hlen HR. unfold Root in HR. apply bind_Ok in HR as (leaves & Hsl & HR).
  destruct (sortedLeaves_Ok _ _ _ Hsl) as (Hns & Hp & _).
  rewrite <-Hp in Hlen. rewrite (Contains_perm _ _ key Hp).
  case_bool_decide as Hne; injection HR as HR.
  { subst leaves. destruct (BuildNonMembership_empty _ _ _ Hsl Hkey) as [Hn Hm].
    rewrite HR in Hn, Hm. rewrite (BuildFromPairs_absent _ _ _ _ _ root None None) by done.
    eexists. split; [reflexivity|]. rewrite Query_Verify_header by done. split; [|done].
    unfold VerifyNonMembership. bool_decide_all. cbn [orb Contains existsb].
    rewrite Root_empty by done. by bool_decide_all. }
  destruct (BuildMembership_cases _ _ _ _ Hsl Hne Hkey) as [(i & v & Hi & Hm)|[Hn Hm]];
    rewrite HR in Hm.
  - rewrite (BuildFromPairs_present _ _ _ _ _ root _ _ Hc Hh Hns Hkey Hnz Hm).
    eexists. split; [reflexivity|]. rewrite Query_Verify_header by done.
    cbn [QP_Exists QP_Value]. apply list_elem_of_lookup_2 in Hi as Hin. split_and!.
    + apply check_Ok. rewrite <-HR.
      apply (leaf_path_verifies namespace leaves i (mkPair key v)); try done. by rewrite HR.
    + symmetry. apply Contains_spec. by apply (list_elem_of_fmap_2 Pair_Key) in Hin.
    + intros _. by rewrite <-Hp.
  - destruct (BuildNonMembership_verifies _ _ _ _ Hsl Hne Hkey Hn Hlen)
      as (left & right & Hb & Hlr & Hv); [by rewrite HR|]. rewrite HR in Hb, Hv.
    rewrite (BuildFromPairs_absent _ _ _ _ _ root left right) by done.
    eexists. split; [reflexivity|]. rewrite Query_Verify_header by done.
    cbn [QP_Exists QP_Value]. split_and!; [|..|done].
    + rewrite Hv. by destruct left, right, Hlr.
    + symmetry. apply not_true_iff_false. by rewrite Contains_spec.
Qed.

(** ** Soundness *)

Definition of_Step (step : Step) : bool * Hash :=
  (bool_decide (Step_Side step = "left"), Step_Hash step).

Lemma of_to_Step (path : list (bool * Hash)) : of_Step <$> (to_Step <$> path) = path.
Proof.
  induction path as [|[[] h] path IH]; [done|..]; rewrite !fmap_cons, IH; reflexivity.
Qed.

(** The messages hashed by [VerifyMembership] and by [Root]. *)
Definition membership_messages (namespace : string) (key value : bytes) (path : list Step)
    : list bytes :=
  LeafHash_message namespace key value ::
  path_messages nodeHash_message (LeafHash namespace key value) (of_Step <$> path).

Definition leaf_messages (namespace : string) (leaves : list Pair) : list bytes :=
  (λ p, LeafHash_message namespace (Pair_Key p) (Pair_Value p)) <$> leaves.

Definition root_messages (namespace : string) (pairs : list Pair) : list bytes :=
  let leaves := sort_by Pair_Key bytes_le pairs in
  emptyRoot_message namespace :: leaf_messages namespace leaves ++
  tree_messages nodeHash_message false (length leaves) (leaf_hashes namespace leaves).

(** A Go slice is shorter than 2^64 bytes. *)
Definition pair_fits (p : Pair) : Prop :=
  Z.of_nat (length (Pair_Key p)) < two64 ∧ Z.of_nat (length (Pair_Value p)) < two64.

#[global] Instance pair_fits_dec p : Decision (pair_fits p).
Proof. unfold pair_fits. apply _. Defined.

Lemma nodeHash_message_inj a b c d :
  nodeHash_message a b = nodeHash_message c d → a = c ∧ b = d.
Proof.
  unfold nodeHash_message. intros Heq. apply app_inv_head in Heq. split_bytes Heq.
  by apply vec_to_list_inj2 in Hb; apply vec_to_list_inj2 in Heq.
Qed.

Lemma length_prefixed_inj a b l1 l2 :
  Z.of_nat (length a) < two64 → Z.of_nat (length b) < two64 →
  length_prefixed a ++ l1 = length_prefixed b ++ l2 → a = b ∧ l1 = l2.
Proof.
  unfold length_prefixed. intros Ha Hb' Heq. rewrite <-!app_assoc in Heq. split_bytes Heq.
  apply be64_inj in Hb; [|unfold is_u64; lia..]. apply app_inj_1 in Heq; [done|lia].
Qed.

Lemma LeafHash_message_inj namespace p q :
  pair_fits p → pair_fits q →
  LeafHash_message namespace (Pair_Key p) (Pair_Value p) =
  LeafHash_message namespace (Pair_Key q) (Pair_Value q) → p = q.
Proof.
  intros [??] [??] Heq. unfold LeafHash_message in Heq. do 3 apply app_inv_head in Heq.
  apply length_prefixed_inj in Heq as [Hk Heq]; [|done..].
  rewrite <-(app_nil_r (length_prefixed (Pair_Value p))),
    <-(app_nil_r (length_prefixed (Pair_Value q))) in Heq.
  apply length_prefixed_inj in Heq as [Hv _]; [|done..]. destruct p, q; simpl in *; congruence.
Qed.

Lemma LeafHash_message_node namespace key value a b :
  LeafHash_message namespace key value ≠ nodeHash_message a b.
Proof. unfold LeafHash_message, nodeHash_message. discriminate. Qed.

Lemma emptyRoot_message_other namespace m :
  (∃ key value, m = LeafHash_message namespace key value) ∨ (∃ a b, m = nodeHash_message a b) →
  m ≠ emptyRoot_message namespace.
Proof. intros [(?&?&->)|(?&?&->)]; discriminate. Qed.

(** The result of a path is the hash of its last message. *)
Lemma apply_path_message m path :
  ∃ m', m' ∈ m :: path_messages nodeHash_message (sha256 m) path ∧
    apply_path nodeHash_message (sha256 m) path = sha256 m' ∧
    (m' = m ∨ ∃ a b, m' = nodeHash_message a b).
Proof.
  revert m. induction path as [|[side s] path IH]; intros m.
  { exists m. split; [by left|]. split; [done|by left]. }
  destruct (IH (step_message nodeHash_message (sha256 m) (side, s))) as (m' & Hin & Heq & Hm').
  exists m'. assert (sha256 (step_message nodeHash_message (sha256 m) (side, s)) =
    apply_step nodeHash_message (sha256 m) (side, s)) as Hs by (by destruct side).
  rewrite Hs in Hin, Heq. split; [by right|]. split; [exact Heq|right].
  destruct Hm' as [->|Hm']; [|done]. destruct side; by eexists _, _.
Qed.

(** A verified membership path leads to a pair of the namespace. *)
Lemma VerifyMembership_sound namespace pairs root key value path :
  Root namespace pairs = Ok root → Forall pair_fits (mkPair key value :: pairs) →
  VerifyMembership namespace key value path root = true →
  mkPair key value ∈ pairs ∨
  collision (membership_messages namespace key value path) (root_messages namespace pairs).
Proof.
  intros HR Hfit HV. unfold VerifyMembership in HV.
  destruct (_ || _ || _); [done|].
  destruct (fold_steps _ path) as [c|] eqn:Hf; [|done]. apply bool_decide_eq_true in HV.
  apply fold_steps_inv in Hf as (p & -> & ->).
  unfold membership_messages. rewrite of_to_Step.
  unfold Root in HR. apply bind_Ok in HR as (leaves & Hsl & HR).
  assert (leaves = sort_by Pair_Key bytes_le pairs) as Hl.
  { unfold sortedLeaves in Hsl. by result_inv Hsl. }
  unfold root_messages. rewrite <-Hl. clear Hl.
  apply sortedLeaves_Ok in Hsl as (_ & Hp & _).
  destruct (bool_decide (leaves = [])) eqn:Hempty; injection HR as HR; rewrite <-HR in HV.
  { right. destruct (apply_path_message (LeafHash_message namespace key value) p)
      as (m' & Hin & Heq & Hm'). exists m', (emptyRoot_message namespace).
    split_and!; [exact Hin|by left| |exact (eq_trans (eq_sym Heq) HV)].
    apply emptyRoot_message_other. destruct Hm' as [->|?]; [left; by eexists _, _|by right]. }
  apply bool_decide_eq_false in Hempty. unfold state_merkleRoot in HV.
  assert (leaf_hashes namespace leaves = sha256 <$> leaf_messages namespace leaves) as Hh.
  { unfold leaf_hashes, leaf_messages. by rewrite <-list_fmap_compose. }
  rewrite Hh in *. unfold LeafHash in HV.
  apply merkle_path_sound in HV as [Hin|Hc]; [..|exact nodeHash_message_inj| |].
  - left. apply list_elem_of_fmap in Hin as (q & Heq & Hq). rewrite Hp in Hq.
    rewrite Forall_cons, Forall_forall in Hfit. destruct Hfit as [Hf Hfit].
    apply (LeafHash_message_inj namespace (mkPair key value) q) in Heq; [by subst|done|by apply Hfit].
  - right. eapply collision_mono; [| |exact Hc]; [done|]. unfold leaf_messages.
    rewrite length_fmap. intros x Hx. by right.
  - intros ?%fmap_nil_inv. done.
  - intros ml a b [->|Hin]%elem_of_cons; [apply LeafHash_message_node|].
    apply list_elem_of_fmap in Hin as (q & -> & _). apply LeafHash_message_node.
Qed.

Lemma Query_Verify_member proof chainID height root :
  Query_Verify proof chainID height root = Ok tt → root ≠ zero_hash → QP_Exists proof = true →
  (chainID ≠ "" → QP_ChainID proof = chainID) ∧ (height ≠ 0 → QP_Height proof = height) ∧
  VerifyMembership (QP_Namespace proof) (QP_Key proof) (QP_Value proof) (QP_MerklePath proof) root
    = true.
Proof.
  intros HV Hnz Hex. unfold Query_Verify in HV. rewrite Hex in HV. result_inv HV.
  rewrite negb_true_iff, andb_false_iff, !bool_decide_eq_false in HV1, HV2, HV3.
  destruct HV3 as [?|Hroot%dec_stable]; [done|]. rewrite <-Hroot. split_and!; [| |done].
  - intros Hc. destruct HV1 as [?|?%dec_stable]; done.
  - intros Hc. destruct HV2 as [?|?%dec_stable]; done.
Qed.

(** C22: a query proof that verifies against the root of a namespace and
    claims existence shows a pair of that namespace, for the expected chain and
    height, or exhibits two different messages with the same SHA-256 hash, one
    hashed by the verification and one by the computation of the root. *)
Theorem query_proof_sound proof chainID height pairs root :
  Root (QP_Namespace proof) pairs = Ok root → root ≠ zero_hash →
  Forall pair_fits (mkPair (QP_Key proof) (QP_Value proof) :: pairs) →
  Query_Verify proof chainID height root = Ok tt → QP_Exists proof = true →
  (mkPair (QP_Key proof) (QP_Value proof) ∈ pairs ∧
   (chainID ≠ "" → QP_ChainID proof = chainID) ∧ (height ≠ 0 → QP_Height proof = height)) ∨
  collision
    (membership_messages (QP_Namespace proof) (QP_Key proof) (QP_Value proof) (QP_MerklePath proof))
    (root_messages (QP_Namespace proof) pairs).
Proof.
  intros HR Hnz Hfit HV Hex.
  destruct (Query_Verify_member _ _ _ _ HV Hnz Hex) as (Hc & Hh & Hm).
  destruct (VerifyMembership_sound _ _ _ _ _ _ HR Hfit Hm); [by left|by right].
Qed.

(** C23: a compact absence proof does not show absence.  The index and leaf
    count of a neighbour are not tied to its Merkle path, so for any present key
    between two other present keys there are neighbours with which
    [VerifyNonMembershipCompact] accepts the absence of the present key. *)
Theorem absence_forgeable namespace pairs root low mid high :
  Root namespace pairs = Ok root → root ≠ zero_hash →
  low ∈ pairs → mid ∈ pairs → high ∈ pairs →
  bytes_ltb (Pair_Key low) (Pair_Key mid) = true →
  bytes_ltb (Pair_Key mid) (Pair_Key high) = true →
  ∃ left right,
    VerifyNonMembershipCompact namespace (Pair_Key mid) root (Some left) (Some right) = true ∧
    Contains pairs (Pair_Key mid) = true.
Proof.
  intros HR Hnz Hlow Hmid Hhigh Hlm Hmh.
  unfold Root in HR. apply bind_Ok in HR as (leaves & Hsl & HR).
  apply sortedLeaves_Ok in Hsl as (Hns & Hp & Hks & _). rewrite <-Hp in Hlow, Hmid, Hhigh.
  case_bool_decide as Hne; [subst leaves; by apply not_elem_of_nil in Hlow|].
  injection HR as HR. rewrite Forall_forall in Hks.
  apply list_elem_of_lookup_1 in Hlow as [i Hi]. apply list_elem_of_lookup_1 in Hhigh as [j Hj].
  assert (Pair_Key low ≠ [] ∧ Pair_Key high ≠ [] ∧ Pair_Key mid ≠ []) as (Hl & Hh & Hm).
  { split_and!; apply Hks; by eauto using list_elem_of_lookup_2. }
  set (hashes := leaf_hashes namespace leaves) in *.
  exists (mkNeighbor (Pair_Key low) (Pair_Value low) 0 2 (state_merklePath hashes i)),
    (mkNeighbor (Pair_Key high) (Pair_Value high) 1 2 (state_merklePath hashes j)).
  split; last (rewrite (Contains_perm _ _ _ Hp); by apply Contains_spec, list_elem_of_fmap_2).
  unfold VerifyNonMembershipCompact, verifyNeighbor.
  cbn [Neighbor_Key Neighbor_Value Neighbor_Index Neighbor_LeafCount Neighbor_Path].
  rewrite Hlm, Hmh. bool_decide_all. cbn [orb andb].
  rewrite <-HR in Hnz |- *. unfold hashes.
  by rewrite (leaf_path_verifies namespace leaves i low),
    (leaf_path_verifies namespace leaves j high) by done.
Qed.

(** ** A concrete namespace *)

Module StateExample.
Definition pair_of (key value : string) : Pair :=
  mkPair (bytes_of_string key) (bytes_of_string value).
Definition bank : list Pair := [pair_of "carol" "7"; pair_of "alice" "5"; pair_of "bob" "6"].
Definition bank_root : Hash :=
  state_merkleRoot (leaf_hashes "bank" (sort_by Pair_Key bytes_le bank)).
Definition carol_proof : result QueryProof :=
  BuildFromPairs "vexo-1" 9 "bank" (bytes_of_string "carol") bank bank_root.
Definition proof_or_empty (r : result QueryProof) : QueryProof :=
  match r with
  | Ok proof => proof
  | Err _ => mkQueryProof "" "" 0 "" [] [] false zero_hash zero_hash [] [] None None
  end.
Definition carol_query : QueryProof := proof_or_empty carol_proof.

Lemma bank_root_ok : Root "bank" bank = Ok bank_root.
Proof. vm_compute. reflexivity. Qed.
Lemma bank_root_nonzero : bank_root ≠ zero_hash.
Proof. apply (bool_decide_eq_false_1 (bank_root = zero_hash)). vm_compute. reflexivity. Qed.

Lemma carol_fits : Forall pair_fits (mkPair (QP_Key carol_query) (QP_Value carol_query) :: bank).
Proof. apply (bool_decide_eq_true_1 (Forall pair_fits _)). vm_compute. reflexivity. Qed.

Lemma query_proof_complete_witness :
  ∃ proof, BuildFromPairs "vexo-1" 9 "bank" (bytes_of_string "bert") bank bank_root = Ok proof ∧
    Query_Verify proof "vexo-1" 9 bank_root = Ok tt ∧
    QP_Exists proof = Contains bank (bytes_of_string "bert") ∧
    (QP_Exists proof = true → mkPair (bytes_of_string "bert") (QP_Value proof) ∈ bank).
Proof.
  apply (query_proof_complete "vexo-1" 9 "bank" (bytes_of_string "bert") bank bank_root);
    [done|done|done|exact bank_root_nonzero|done|exact bank_root_ok].
Defined.

Lemma query_proof_sound_witness :
  (mkPair (QP_Key carol_query) (QP_Value carol_query) ∈ bank ∧
   ("vexo-1" ≠ "" → QP_ChainID carol_query = "vexo-1") ∧ (9 ≠ 0 → QP_Height carol_query = 9)) ∨
  collision
    (membership_messages (QP_Namespace carol_query) (QP_Key carol_query) (QP_Value carol_query)
       (QP_MerklePath carol_query))
    (root_messages (QP_Namespace carol_query) bank).
Proof.
  apply (query_proof_sound carol_query "vexo-1" 9 bank bank_root).
  - vm_compute. reflexivity.
  - exact bank_root_nonzero.
  - exact carol_fits.
  - vm_compute. reflexivity.
  - vm_compute. reflexivity.
Defined.

Lemma absence_forgeable_witness :
  ∃ left right,
    VerifyNonMembershipCompact "bank" (bytes_of_string "bob") bank_root (Some left) (Some right)
      = true ∧
    Contains bank (bytes_of_string "bob") = true.
Proof.
  apply (absence_forgeable "bank" bank bank_root
           (pair_of "alice" "5") (pair_of "bob" "6") (pair_of "carol" "7")
           bank_root_ok bank_root_nonzero); try (vm_compute; reflexivity).
  - right. left.
  - right. right. left.
  - left.
Defined.
End StateExample.
