(* ===== verification/ProofJson.v ===== *)
(** * JSON of query proofs ([src/queryproof/queryproof.go], [src/stateproof/stateproof.go])

    [queryproof.Encode] and [queryproof.Decode] with the records they nest.
    A proof that travels as JSON verifies exactly when the original does. *)

From S2P Require Import Prelude GoLib Sha256 Merkle Types Strconv Text Json JsonPrint JsonCodec SignBytes StateProof.

(** ** Records *)

#[global] Instance pair_json : JsonRecord Pair := {|
  json_zero := mkPair [] [];
  json_fields :=
    [("key", field_of (λ _, decode_bytes) Pair_Key (λ '(mkPair _ b) x, mkPair x b));
     ("value", field_of (λ _, decode_bytes) Pair_Value (λ '(mkPair a _) x, mkPair a x))];
  json_members p :=
    ("key", json_bytes (Pair_Key p)) ::
    unless (bool_decide (Pair_Value p = [])) "value" (json_bytes (Pair_Value p))
|}.

#[global] Instance step_json : JsonRecord Step := {|
  json_zero := mkStep "" zero_hash;
  json_fields :=
    [("side", field_of decode_string Step_Side (λ '(mkStep _ b) x, mkStep x b));
     ("hash", field_of decode_hash Step_Hash (λ '(mkStep a _) x, mkStep a x))];
  json_members s := [("side", JString (Step_Side s)); ("hash", json_hash (Step_Hash s))]
|}.

#[global] Instance neighbor_json : JsonRecord AbsenceNeighbor := {|
  json_zero := mkNeighbor [] [] 0 0 [];
  json_fields :=
    [("key", field_of (λ _, decode_bytes) Neighbor_Key (λ '(mkNeighbor _ b c d e) x, mkNeighbor x b c d e));
     ("value", field_of (λ _, decode_bytes) Neighbor_Value (λ '(mkNeighbor a _ c d e) x, mkNeighbor a x c d e));
     ("index", field_of decode_uint Neighbor_Index (λ '(mkNeighbor a b _ d e) x, mkNeighbor a b x d e));
     ("leaf_count", field_of decode_uint Neighbor_LeafCount (λ '(mkNeighbor a b c _ e) x, mkNeighbor a b c x e));
     ("path", field_of (λ _, decode_slice) Neighbor_Path (λ '(mkNeighbor a b c d _) x, mkNeighbor a b c d x))];
  json_members n :=
    ("key", json_bytes (Neighbor_Key n)) ::
    unless (bool_decide (Neighbor_Value n = [])) "value" (json_bytes (Neighbor_Value n)) ++
    ("index", json_uint (Neighbor_Index n)) :: ("leaf_count", json_uint (Neighbor_LeafCount n)) ::
    unless (bool_decide (Neighbor_Path n = [])) "path" (JArray (to_json <$> Neighbor_Path n))
|}.

#[global] Instance query_proof_json : JsonRecord QueryProof := {|
  json_zero := mkQueryProof "" "" 0 "" [] [] false zero_hash zero_hash [] [] None None;
  json_fields :=
    [("schema_version", field_of decode_string QP_SchemaVersion
        (λ '(mkQueryProof _ b c d e f g h i j k l m) x, mkQueryProof x b c d e f g h i j k l m));
     ("chain_id", field_of decode_string QP_ChainID
        (λ '(mkQueryProof a _ c d e f g h i j k l m) x, mkQueryProof a x c d e f g h i j k l m));
     ("height", field_of decode_uint QP_Height
        (λ '(mkQueryProof a b _ d e f g h i j k l m) x, mkQueryProof a b x d e f g h i j k l m));
     ("namespace", field_of decode_string QP_Namespace
        (λ '(mkQueryProof a b c _ e f g h i j k l m) x, mkQueryProof a b c x e f g h i j k l m));
     ("key", field_of (λ _, decode_bytes) QP_Key
        (λ '(mkQueryProof a b c d _ f g h i j k l m) x, mkQueryProof a b c d x f g h i j k l m));
     ("value", field_of (λ _, decode_bytes) QP_Value
        (λ '(mkQueryProof a b c d e _ g h i j k l m) x, mkQueryProof a b c d e x g h i j k l m));
     ("exists", field_of decode_bool QP_Exists
        (λ '(mkQueryProof a b c d e f _ h i j k l m) x, mkQueryProof a b c d e f x h i j k l m));
     ("state_root", field_of decode_hash QP_StateRoot
        (λ '(mkQueryProof a b c d e f g _ i j k l m) x, mkQueryProof a b c d e f g x i j k l m));
     ("leaf_hash", field_of decode_hash QP_LeafHash
        (λ '(mkQueryProof a b c d e f g h _ j k l m) x, mkQueryProof a b c d e f g h x j k l m));
     ("merkle_path", field_of (λ _, decode_slice) QP_MerklePath
        (λ '(mkQueryProof a b c d e f g h i _ k l m) x, mkQueryProof a b c d e f g h i x k l m));
     ("namespace_leaves", field_of (λ _, decode_slice) QP_NamespaceLeaves
        (λ '(mkQueryProof a b c d e f g h i j _ l m) x, mkQueryProof a b c d e f g h i j x l m));
     ("absence_left", field_of decode_pointer QP_AbsenceLeft
        (λ '(mkQueryProof a b c d e f g h i j k _ m) x, mkQueryProof a b c d e f g h i j k x m));
     ("absence_right", field_of decode_pointer QP_AbsenceRight
        (λ '(mkQueryProof a b c d e f g h i j k l _) x, mkQueryProof a b c d e f g h i j k l x))];
  json_members p :=
    [("schema_version", JString (QP_SchemaVersion p)); ("chain_id", JString (QP_ChainID p));
     ("height", json_uint (QP_Height p)); ("namespace", JString (QP_Namespace p)); ("key", json_bytes (QP_Key p))] ++
    unless (bool_decide (QP_Value p = [])) "value" (json_bytes (QP_Value p)) ++
    [("exists", JBool (QP_Exists p)); ("state_root", json_hash (QP_StateRoot p));
     ("leaf_hash", json_hash (QP_LeafHash p))] ++
    unless (bool_decide (QP_MerklePath p = [])) "merkle_path" (JArray (to_json <$> QP_MerklePath p)) ++
    unless (bool_decide (QP_NamespaceLeaves p = [])) "namespace_leaves" (JArray (to_json <$> QP_NamespaceLeaves p)) ++
    json_pointer "absence_left" (QP_AbsenceLeft p) ++ json_pointer "absence_right" (QP_AbsenceRight p)
|}.

Definition Query_Encode (proof : QueryProof) : bytes := marshal_json proof.
Definition Query_Decode (data : bytes) : result QueryProof := unmarshal_json data.

(** ** The records are read back *)

#[global] Program Instance pair_lawful : LawfulJson Pair := {|
  json_ok _ := True;
  clean_record p := p;
  json_depth := 2
|}.
Next Obligation. intros p _. json_printable. Qed.
Next Obligation. intros p. json_nesting. Qed.
Next Obligation. done. Qed.
Next Obligation. intros [k v] _. json_record. Qed.

Definition clean_step (s : Step) : Step := mkStep (sanitize (Step_Side s)) (Step_Hash s).

#[global] Program Instance step_lawful : LawfulJson Step := {|
  json_ok _ := True;
  clean_record := clean_step;
  json_depth := 2
|}.
Next Obligation. intros p _. json_printable. Qed.
Next Obligation. intros p. json_nesting. Qed.
Next Obligation. done. Qed.
Next Obligation. intros p _. json_record. Qed.

Lemma steps_ok (l : list Step) : Forall json_ok l.
Proof. by apply Forall_true. Qed.
Lemma pairs_ok (l : list Pair) : Forall json_ok l.
Proof. by apply Forall_true. Qed.
#[global] Hint Resolve steps_ok pairs_ok : json.

Definition neighbor_ok (n : AbsenceNeighbor) : Prop := is_u64 (Neighbor_Index n) ∧ is_u64 (Neighbor_LeafCount n).

Definition clean_neighbor (n : AbsenceNeighbor) : AbsenceNeighbor :=
  mkNeighbor (Neighbor_Key n) (Neighbor_Value n) (Neighbor_Index n) (Neighbor_LeafCount n)
    (clean_step <$> Neighbor_Path n).

#[global] Program Instance neighbor_lawful : LawfulJson AbsenceNeighbor := {|
  json_ok := neighbor_ok;
  clean_record := clean_neighbor;
  json_depth := 4
|}.
Next Obligation. intros n [Hi Hl]. json_printable. Qed.
Next Obligation. intros p. json_nesting. Qed.
Next Obligation. done. Qed.
Next Obligation. intros n [Hi Hl]. json_record. Qed.

Definition query_proof_ok (p : QueryProof) : Prop :=
  is_u64 (QP_Height p) ∧ from_option neighbor_ok True (QP_AbsenceLeft p) ∧
  from_option neighbor_ok True (QP_AbsenceRight p).

Definition clean_proof (p : QueryProof) : QueryProof :=
  mkQueryProof (sanitize (QP_SchemaVersion p)) (sanitize (QP_ChainID p)) (QP_Height p) (sanitize (QP_Namespace p))
    (QP_Key p) (QP_Value p) (QP_Exists p) (QP_StateRoot p) (QP_LeafHash p) (clean_step <$> QP_MerklePath p)
    (QP_NamespaceLeaves p) (clean_neighbor <$> QP_AbsenceLeft p) (clean_neighbor <$> QP_AbsenceRight p).

#[global] Program Instance query_proof_lawful : LawfulJson QueryProof := {|
  json_ok := query_proof_ok;
  clean_record := clean_proof;
  json_depth := 6
|}.
Next Obligation. intros p (Hh & Hl & Hr). json_printable. Qed.
Next Obligation. intros p. json_nesting. Qed.
Next Obligation. done. Qed.
Next Obligation.
  intros p (Hh & Hl & Hr). json_decode; try json_left_out. unfold clean_proof. do 2 f_equal. apply list_fmap_id.
Qed.

(** ** Proofs that travel as JSON *)

(** Replacing ill-formed characters never makes an ASCII text. *)
Lemma sanitize_ascii_inv s t :
  str_forall (λ a, bool_decide (code a < 128)) t = true → sanitize s = t → s = t.
Proof.
  revert s. induction t as [|x t IH]; intros s Ht Hs.
  { destruct s as [|a s1]; [done|]. exfalso. revert Hs. cbn [sanitize]. repeat case_match; discriminate. }
  cbn [str_forall] in Ht. apply andb_true_iff in Ht as [Hx Ht]. apply bool_decide_eq_true in Hx.
  destruct s as [|a s1]; [done|]. revert Hs. cbn [sanitize]. case_bool_decide as Ha.
  { intros [= <- Hs]. f_equal. by apply IH. }
  assert (x ≠ "239"%char) as Hr by (intros ->; by vm_compute in Hx).
  intros Hs. exfalso.
  assert (∀ y r, String y r = String x t → y = x) as Hhead by (by intros y r [= -> _]).
  assert (∀ r, (replacement ++ r)%string = String x t → False) as Hrep.
  { intros r Hq. apply Hr. symmetry. exact (Hhead _ _ Hq). }
  repeat case_match; first [by apply Hhead in Hs; subst | eapply Hrep; exact Hs].
Qed.

Lemma sanitize_side s t :
  str_forall (λ a, bool_decide (code a < 128)) t = true → bool_decide (sanitize s = t) = bool_decide (s = t).
Proof.
  intros Ht. apply bool_decide_ext. split; [by apply sanitize_ascii_inv|]. intros ->. by apply sanitize_ascii.
Qed.

Lemma fold_steps_clean current path : fold_steps current (clean_step <$> path) = fold_steps current path.
Proof.
  revert current. induction path as [|s path IH]; intros current; [done|]. cbn [fmap list_fmap fold_steps].
  change (Step_Side (clean_step s)) with (sanitize (Step_Side s)). rewrite !sanitize_side by done.
  by rewrite !IH.
Qed.

Lemma VerifyMembership_clean namespace key value path root :
  VerifyMembership namespace key value (clean_step <$> path) root = VerifyMembership namespace key value path root.
Proof. unfold VerifyMembership. by rewrite fold_steps_clean. Qed.

Lemma verifyNeighbor_clean namespace n root :
  verifyNeighbor namespace (clean_neighbor n) root = verifyNeighbor namespace n root.
Proof. unfold verifyNeighbor, clean_neighbor. cbn -[VerifyMembership]. by rewrite VerifyMembership_clean. Qed.

Lemma Compact_clean namespace key root left right :
  VerifyNonMembershipCompact namespace key root (clean_neighbor <$> left) (clean_neighbor <$> right) =
  VerifyNonMembershipCompact namespace key root left right.
Proof.
  unfold VerifyNonMembershipCompact. destruct left as [l|], right as [r|]; cbn [fmap option_fmap option_map];
    rewrite ?verifyNeighbor_clean; done.
Qed.

(** C40: A query proof sent as JSON is decoded, and its verification gives what
    it gives for the original, error or success, whatever path, neighbours or
    sides it carries; only the chain and the namespace have to be UTF-8. *)
Theorem proof_travels (p : QueryProof) :
  query_proof_ok p → sanitize (QP_ChainID p) = QP_ChainID p → sanitize (QP_Namespace p) = QP_Namespace p →
  ∃ p', Query_Decode (Query_Encode p) = Ok p' ∧ QP_Value p' = QP_Value p ∧
    ∀ chainID height root, Query_Verify p' chainID height root = Query_Verify p chainID height root.
Proof.
  intros Hp Hc Hn. exists (clean_proof p). split; [exact (unmarshal_marshal_json p Hp)|]. split; [done|].
  intros chainID height root. unfold Query_Verify, clean_proof.
  cbn [QP_SchemaVersion QP_ChainID QP_Height QP_Namespace QP_Key QP_Value QP_StateRoot QP_LeafHash
    QP_Exists QP_AbsenceLeft QP_AbsenceRight QP_NamespaceLeaves QP_MerklePath].
  rewrite Hc, Hn, VerifyMembership_clean.
  replace (bool_decide (sanitize (QP_SchemaVersion p) ≠ SchemaVersionV1))
    with (bool_decide (QP_SchemaVersion p ≠ SchemaVersionV1))
    by (rewrite !bool_decide_not; f_equal; symmetry; by apply sanitize_side).
  pose proof (Compact_clean (QP_Namespace p) (QP_Key p) (QP_StateRoot p) (QP_AbsenceLeft p) (QP_AbsenceRight p)) as HC.
  destruct (QP_AbsenceLeft p), (QP_AbsenceRight p); cbn [fmap option_fmap option_map] in *; by rewrite ?HC.
Qed.

Module ProofJsonExample.
Import StateExample.

(** The proof that bert has no balance, with two neighbours. *)
Definition bert_query : QueryProof :=
  proof_or_empty (BuildFromPairs "vexo-1" 9 "bank" (bytes_of_string "bert") bank bank_root).

Lemma neighbor_ok_check (o : option AbsenceNeighbor) :
  from_option (λ n, bool_decide (is_u64 (Neighbor_Index n)) && bool_decide (is_u64 (Neighbor_LeafCount n))) true o = true →
  from_option neighbor_ok True o.
Proof. destruct o; [|done]. cbn. intros [Hi Hl]%andb_true_iff. split; [exact (bool_decide_eq_true_1 _ Hi)|exact (bool_decide_eq_true_1 _ Hl)]. Qed.

Lemma proof_travels_witness :
  Query_Verify bert_query "vexo-1" 9 bank_root = Ok tt ∧
  ∃ p', Query_Decode (Query_Encode bert_query) = Ok p' ∧ QP_Value p' = QP_Value bert_query ∧
    ∀ chainID height root, Query_Verify p' chainID height root = Query_Verify bert_query chainID height root.
Proof.
  split; [vm_compute; reflexivity|]. apply (proof_travels bert_query).
  - split_and!; [by vm_compute|apply neighbor_ok_check; vm_compute; reflexivity..].
  - vm_compute. reflexivity.
  - vm_compute. reflexivity.
Defined.
End ProofJsonExample.
