(* ===== verification/Store.v ===== *)
(** * Key-value stores ([src/kvbatch], [src/store], [src/app/app.go])

    The store interface the application works with, and its implementation on
    LevelDB.  [goleveldb] is a parameter: a class of database operations with
    the laws its documentation states.  Keys of a namespace are kept under
    ["kv:" namespace ":" key]; the laws hold for namespaces without a colon. *)

From S2P Require Import Prelude GoLib Sha256 Merkle Types Strconv TxTags Text SignBytes StateProof.

Definition ErrKeyNotFound := ErrNew "store.ErrKeyNotFound".
Definition Store_ErrInvalidNamespace := ErrNew "store.ErrInvalidNamespace".
Definition Store_ErrInvalidKey := ErrNew "store.ErrInvalidKey".

(** [kvbatch.KVWrite] and [store.KVPair] *)
Record KVWrite := mkWrite {
  KW_Namespace : string;
  KW_Key : bytes;
  KW_Value : bytes;
  KW_Delete : bool
}.

Record KVPair := mkKVPair {
  KV_Namespace : string;
  KV_Key : bytes;
  KV_Value : bytes
}.

(** ** The interface *)

(** [app.StateStore]; [store_SetBatch] is there when the store also implements
    [kvbatch.BatchKVStore]. *)
Class StateStore (S : Type) := {
  store_Set : S → Ctx → string → bytes → bytes → S * result unit;
  store_Get : S → Ctx → string → bytes → result bytes;
  store_Delete : S → Ctx → string → bytes → S * result unit;
  store_SetBatch : option (S → Ctx → list KVWrite → S * result unit)
}.

(** [store.SnapshotKVStore] and [store.PrefixKVStore], where the store implements
    them. *)
Class SnapshotStore (S : Type) := {
  store_ExportNamespace : option (S → Ctx → string → result (list KVPair));
  store_ExportPrefix : option (S → Ctx → string → bytes → result (list KVPair))
}.

(** The content of a store: the value of a key of a namespace. *)
Abbreviation Content := (string → bytes → option bytes).

Definition write_content (w : KVWrite) (c : Content) : Content := λ ns k,
  if decide (KW_Namespace w = ns ∧ KW_Key w = k)
  then if KW_Delete w then None else Some (KW_Value w)
  else c ns k.

(** Later writes win. *)
Definition writes_content (ws : list KVWrite) (c : Content) : Content :=
  foldl (λ c w, write_content w c) c ws.

Definition valid_namespace (ns : string) : Prop := ns ≠ "" ∧ str_elem ":" ns = false.
Definition valid_write (w : KVWrite) : Prop := valid_namespace (KW_Namespace w) ∧ KW_Key w ≠ [].

#[global] Instance valid_write_dec w : Decision (valid_write w).
Proof. unfold valid_write, valid_namespace. apply _. Defined.

(** [ctx.Err()] is [context.Canceled] or [context.DeadlineExceeded]. *)
Definition ctx_ok (ctx : Ctx) : Prop :=
  match ctx with Some e => errors_is e ErrKeyNotFound = false | None => True end.

(** Two contents agree on the valid namespaces. *)
Definition same_content (c1 c2 : Content) : Prop := ∀ ns k, valid_namespace ns → c1 ns k = c2 ns k.

(** What a store promises: a read reports the content, a write that succeeds
    changes the written key only, a write that fails changes nothing. *)
Class LawfulStore (S : Type) `{!StateStore S} := {
  store_ok : S → Prop;
  content : S → Content;
  Get_Ok s ctx ns k v :
    store_ok s → valid_namespace ns → k ≠ [] →
    store_Get s ctx ns k = Ok v → content s ns k = Some v;
  Get_missing s ctx ns k e :
    store_ok s → ctx_ok ctx → valid_namespace ns → k ≠ [] →
    store_Get s ctx ns k = Err e → errors_is e ErrKeyNotFound = true → content s ns k = None;
  Set_spec s ctx ns k v s' r :
    store_ok s → valid_namespace ns → k ≠ [] → store_Set s ctx ns k v = (s', r) →
    store_ok s' ∧
    same_content (content s')
      (if is_ok r then write_content (mkWrite ns k v false) (content s) else content s);
  Delete_spec s ctx ns k s' r :
    store_ok s → valid_namespace ns → k ≠ [] → store_Delete s ctx ns k = (s', r) →
    store_ok s' ∧
    same_content (content s')
      (if is_ok r then write_content (mkWrite ns k [] true) (content s) else content s);
  SetBatch_spec batch s ctx ws s' r :
    store_SetBatch = Some batch →
    store_ok s → Forall valid_write ws → batch s ctx ws = (s', r) →
    store_ok s' ∧
    same_content (content s') (if is_ok r then writes_content ws (content s) else content s)
}.

(** A store that is open and whose device does not fail. *)
Class ReliableStore (S : Type) `{LawfulStore S} := {
  Get_total s ns k :
    store_ok s → valid_namespace ns → k ≠ [] →
    store_Get s None ns k =
      match content s ns k with Some v => Ok v | None => Err ErrKeyNotFound end;
  Set_total s ns k v :
    store_ok s → valid_namespace ns → k ≠ [] → (store_Set s None ns k v).2 = Ok tt;
  Delete_total s ns k :
    store_ok s → valid_namespace ns → k ≠ [] → (store_Delete s None ns k).2 = Ok tt;
  SetBatch_total batch s ws :
    store_SetBatch = Some batch → store_ok s → Forall valid_write ws → (batch s None ws).2 = Ok tt
}.

(** The pairs of a namespace, each once and in key order. *)
Definition listing (ns : string) (c : bytes → option bytes) (pairs : list KVPair) : Prop :=
  Forall (λ p, KV_Namespace p = ns) pairs ∧ NoDup (KV_Key <$> pairs) ∧
  StronglySorted bytes_le (KV_Key <$> pairs) ∧ ∀ k v, mkKVPair ns k v ∈ pairs ↔ c k = Some v.

(** The content of the keys with a prefix. *)
Definition with_prefix (prefix : bytes) (c : bytes → option bytes) : bytes → option bytes := λ k,
  if decide (take (length prefix) k = prefix) then c k else None.

(** A store whose exports list its content. *)
Class LawfulSnapshot (S : Type) `{ReliableStore S} `{!SnapshotStore S} := {
  ExportNamespace_listing s ns :
    store_ok s → valid_namespace ns →
    ∃ export pairs, store_ExportNamespace = Some export ∧ export s None ns = Ok pairs ∧
      listing ns (content s ns) pairs;
  ExportPrefix_listing s ns prefix :
    store_ok s → valid_namespace ns →
    ∃ export pairs, store_ExportPrefix = Some export ∧ export s None ns prefix = Ok pairs ∧
      listing ns (with_prefix prefix (content s ns)) pairs
}.

(** Writes one by one, until one fails. *)
Fixpoint set_writes {S} `{!StateStore S} (store : S) (ctx : Ctx) (writes : list KVWrite)
    : S * result unit :=
  match writes with
  | [] => (store, Ok tt)
  | w :: writes =>
      match store_Set store ctx (KW_Namespace w) (KW_Key w) (KW_Value w) with
      | (store, Err e) => (store, Err e)
      | (store, Ok _) => set_writes store ctx writes
      end
  end.

(** Writes in one batch where the store supports batches. *)
Definition apply_writes {S} `{!StateStore S} (store : S) (ctx : Ctx) (writes : list KVWrite)
    : S * result unit :=
  match store_SetBatch with
  | Some batch => batch store ctx writes
  | None => set_writes store ctx writes
  end.

(** ** The database *)

Inductive BatchOp :=
| Batch_Put (key value : bytes)
| Batch_Delete (key : bytes).

Definition leveldb_ErrNotFound := ErrNew "leveldb/errors.ErrNotFound".

(** The operations of [leveldb.DB] the store calls.  An iterator over a prefix is
    the list of entries it visits and the error it reports at the end. *)
Class LevelDB (D : Type) := {
  db_Get : D → bytes → result bytes;
  db_Put : D → bytes → bytes → D * result unit;
  db_Delete : D → bytes → D * result unit;
  db_Write : D → list BatchOp → D * result unit;
  db_Iterate : D → bytes → list (bytes * bytes) * option error
}.

Definition op_content (op : BatchOp) (c : bytes → option bytes) : bytes → option bytes := λ k,
  match op with
  | Batch_Put k' v => if decide (k' = k) then Some v else c k
  | Batch_Delete k' => if decide (k' = k) then None else c k
  end.

Definition ops_content (ops : list BatchOp) (c : bytes → option bytes) : bytes → option bytes :=
  foldl (λ c op, op_content op c) c ops.

(** Documented behaviour: reads see the last write, a batch is applied in order
    and atomically, an iterator visits the entries with its prefix in key order. *)
Class LawfulDB (D : Type) `{!LevelDB D} := {
  db_content : D → bytes → option bytes;
  db_Get_Ok d k v : db_Get d k = Ok v → db_content d k = Some v;
  db_Get_missing d k e :
    db_Get d k = Err e → errors_is e leveldb_ErrNotFound = true → db_content d k = None;
  db_Get_other d k e : db_Get d k = Err e → errors_is e ErrKeyNotFound = false;
  db_Put_spec d k v d' r :
    db_Put d k v = (d', r) → ∀ k',
    db_content d' k' = (if is_ok r then op_content (Batch_Put k v) (db_content d) else db_content d) k';
  db_Delete_spec d k d' r :
    db_Delete d k = (d', r) → ∀ k',
    db_content d' k' = (if is_ok r then op_content (Batch_Delete k) (db_content d) else db_content d) k';
  db_Write_spec d ops d' r :
    db_Write d ops = (d', r) → ∀ k',
    db_content d' k' = (if is_ok r then ops_content ops (db_content d) else db_content d) k';
  db_Iterate_spec d prefix entries :
    db_Iterate d prefix = (entries, None) →
    NoDup entries.*1 ∧ StronglySorted bytes_le entries.*1 ∧
    ∀ k v, (k, v) ∈ entries ↔ (∃ k', k = prefix ++ k') ∧ db_content d k = Some v
}.

(** A database whose device does not fail. *)
Class ReliableDB (D : Type) `{LawfulDB D} := {
  db_Get_total d k :
    db_Get d k = match db_content d k with Some v => Ok v | None => Err leveldb_ErrNotFound end;
  db_Put_total d k v : (db_Put d k v).2 = Ok tt;
  db_Delete_total d k : (db_Delete d k).2 = Ok tt;
  db_Write_total d ops : (db_Write d ops).2 = Ok tt;
  db_Iterate_total d prefix : (db_Iterate d prefix).2 = None
}.

(** ** Keys ([src/store/leveldb_keys.go]) *)

Definition kvNamespacePrefix (namespace : string) : bytes :=
  bytes_of_string "kv:" ++ bytes_of_string namespace ++ bytes_of_string ":".

Definition kvKey (namespace : string) (key : bytes) : bytes := kvNamespacePrefix namespace ++ key.

#[global] Arguments kvKey : simpl never.
#[global] Arguments kvNamespacePrefix : simpl never.

(** ** [LevelDBStore] *)

Section leveldb.
Context {D : Type} `{!LevelDB D}.

(** The checks every operation on a key starts with. *)
Definition key_guard (ctx : Ctx) (namespace : string) (key : bytes) : result unit :=
  ctx_guard ctx ≫= λ _,
  check Store_ErrInvalidNamespace (bool_decide (namespace ≠ "")) ≫= λ _,
  check Store_ErrInvalidKey (bool_decide (key ≠ [])).

Definition LevelDB_Set (store : D) (ctx : Ctx) (namespace : string) (key value : bytes)
    : D * result unit :=
  match key_guard ctx namespace key with
  | Err e => (store, Err e)
  | Ok _ => db_Put store (kvKey namespace key) value
  end.

Definition LevelDB_Get (store : D) (ctx : Ctx) (namespace : string) (key : bytes) : result bytes :=
  key_guard ctx namespace key ≫= λ _,
  match db_Get store (kvKey namespace key) with
  | Ok value => Ok value
  | Err e => if errors_is e leveldb_ErrNotFound then Err ErrKeyNotFound else Err e
  end.

Definition LevelDB_Delete (store : D) (ctx : Ctx) (namespace : string) (key : bytes)
    : D * result unit :=
  match key_guard ctx namespace key with
  | Err e => (store, Err e)
  | Ok _ => db_Delete store (kvKey namespace key)
  end.

(** The loop of [SetBatch] that fills the batch. *)
Fixpoint build_batch (writes : list KVWrite) : result (list BatchOp) :=
  match writes with
  | [] => Ok []
  | write :: writes =>
      check Store_ErrInvalidNamespace (bool_decide (KW_Namespace write ≠ "")) ≫= λ _,
      check Store_ErrInvalidKey (bool_decide (KW_Key write ≠ [])) ≫= λ _,
      let key := kvKey (KW_Namespace write) (KW_Key write) in
      batch ← build_batch writes;
      Ok ((if KW_Delete write then Batch_Delete key else Batch_Put key (KW_Value write)) :: batch)
  end.

Definition LevelDB_SetBatch (store : D) (ctx : Ctx) (writes : list KVWrite) : D * result unit :=
  match ctx_guard ctx ≫= λ _, build_batch writes with
  | Err e => (store, Err e)
  | Ok batch => db_Write store batch
  end.

#[global] Instance leveldb_store : StateStore D := {|
  store_Set := LevelDB_Set;
  store_Get := LevelDB_Get;
  store_Delete := LevelDB_Delete;
  store_SetBatch := Some LevelDB_SetBatch
|}.

(** The pairs an iterator over the namespace visits. *)
Definition LevelDB_ExportNamespace (store : D) (ctx : Ctx) (namespace : string)
    : result (list KVPair) :=
  ctx_guard ctx ≫= λ _,
  check Store_ErrInvalidNamespace (bool_decide (namespace ≠ "")) ≫= λ _,
  let prefix := kvNamespacePrefix namespace in
  let '(entries, err) := db_Iterate store prefix in
  let pairs := (λ e, mkKVPair namespace (drop (length prefix) e.1) e.2) <$> entries in
  match err with Some e => Err e | None => Ok pairs end.

Definition LevelDB_ExportPrefix (store : D) (ctx : Ctx) (namespace : string) (keyPrefix : bytes)
    : result (list KVPair) :=
  ctx_guard ctx ≫= λ _,
  check Store_ErrInvalidNamespace (bool_decide (namespace ≠ "")) ≫= λ _,
  let prefix := kvNamespacePrefix namespace ++ keyPrefix in
  let '(entries, err) := db_Iterate store prefix in
  let namespacePrefix := kvNamespacePrefix namespace in
  let pairs := (λ e, mkKVPair namespace (drop (length namespacePrefix) e.1) e.2) <$> entries in
  match err with Some e => Err e | None => Ok pairs end.

Definition stateProofPairs (pairs : list KVPair) : list Pair :=
  (λ p, mkPair (KV_Key p) (KV_Value p)) <$> pairs.

Definition LevelDB_Root (store : D) (ctx : Ctx) (namespace : string) : result Hash :=
  pairs ← LevelDB_ExportNamespace store ctx namespace;
  Root namespace (stateProofPairs pairs).

(** The loop of [RootWithWrites] that merges the writes of the namespace. *)
Fixpoint merge_writes (namespace : string) (writes : list KVWrite) (values : gmap bytes bytes)
    : result (gmap bytes bytes) :=
  match writes with
  | [] => Ok values
  | write :: writes =>
      if bool_decide (KW_Namespace write ≠ namespace) then merge_writes namespace writes values
      else
        check Store_ErrInvalidKey (bool_decide (KW_Key write ≠ [])) ≫= λ _,
        merge_writes namespace writes
          (if KW_Delete write then delete (KW_Key write) values
           else <[KW_Key write := KW_Value write]> values)
  end.

(** [values[string(pair.Key)] = pair.Value] over the exported pairs. *)
Definition pair_values (pairs : list KVPair) : gmap bytes bytes :=
  foldl (λ m p, <[KV_Key p := KV_Value p]> m) ∅ pairs.

Definition LevelDB_RootWithWrites (order : MapOrder bytes bytes) (store : D) (ctx : Ctx)
    (namespace : string) (writes : list KVWrite) : result Hash :=
  ctx_guard ctx ≫= λ _,
  check Store_ErrInvalidNamespace (bool_decide (namespace ≠ "")) ≫= λ _,
  pairs ← LevelDB_ExportNamespace store ctx namespace;
  values ← merge_writes namespace writes (pair_values pairs);
  let merged := (λ '(k, v), mkKVPair namespace k v) <$> order values in
  Root namespace (stateProofPairs merged).

(** [ImportNamespace]: delete what the namespace holds and write the pairs. *)
Fixpoint import_batch (namespace : string) (pairs : list KVPair) : result (list BatchOp) :=
  match pairs with
  | [] => Ok []
  | kv :: pairs =>
      check Store_ErrInvalidNamespace
        (negb (bool_decide (KV_Namespace kv ≠ "") && bool_decide (KV_Namespace kv ≠ namespace)))
        ≫= λ _,
      check Store_ErrInvalidKey (bool_decide (KV_Key kv ≠ [])) ≫= λ _,
      batch ← import_batch namespace pairs;
      Ok (Batch_Put (kvKey namespace (KV_Key kv)) (KV_Value kv) :: batch)
  end.

Definition LevelDB_ImportNamespace (store : D) (ctx : Ctx) (namespace : string)
    (pairs : list KVPair) : D * result unit :=
  match ctx_guard ctx ≫= λ _,
        check Store_ErrInvalidNamespace (bool_decide (namespace ≠ "")) ≫= λ _,
        let '(entries, err) := db_Iterate store (kvNamespacePrefix namespace) in
        match err with
        | Some e => Err e
        | None =>
            puts ← import_batch namespace pairs;
            Ok ((Batch_Delete <$> entries.*1) ++ puts)
        end
  with
  | Err e => (store, Err e)
  | Ok batch => db_Write store batch
  end.
End leveldb.
#[global] Arguments key_guard : simpl never.

(** ** Contents *)

Lemma same_content_refl c : same_content c c.
Proof. done. Qed.

Lemma same_content_trans c1 c2 c3 : same_content c1 c2 → same_content c2 c3 → same_content c1 c3.
Proof. intros H1 H2 ns k Hns. by rewrite H1, H2. Qed.

#[global] Instance same_content_equiv : Equivalence same_content.
Proof.
  split; [intros c; apply same_content_refl| |intros c1 c2 c3; apply same_content_trans].
  intros c1 c2 H ns k Hns. symmetry. by apply H.
Qed.

#[global] Instance write_content_proper w : Proper (same_content ==> same_content) (write_content w).
Proof. intros c1 c2 H ns k Hns. unfold write_content. case_decide; [done|]. by apply H. Qed.

#[global] Instance writes_content_proper ws :
  Proper (same_content ==> same_content) (writes_content ws).
Proof.
  unfold writes_content. induction ws as [|w ws IH]; intros c1 c2 H; [done|].
  cbn [foldl]. apply IH. by rewrite H.
Qed.

Lemma writes_content_app ws1 ws2 c :
  writes_content (ws1 ++ ws2) c = writes_content ws2 (writes_content ws1 c).
Proof. apply foldl_app. Qed.

(** The content of a key after writes depends on its content before only. *)
Lemma writes_content_ext ws c1 c2 ns k :
  c1 ns k = c2 ns k → writes_content ws c1 ns k = writes_content ws c2 ns k.
Proof.
  unfold writes_content. revert c1 c2. induction ws as [|w ws IH]; intros c1 c2 Hc; [done|].
  cbn [foldl]. apply IH. unfold write_content. by case_decide.
Qed.

(** Writes of another namespace do not matter. *)
Lemma writes_content_filter ws c ns k :
  writes_content ws c ns k = writes_content (filter (λ w, KW_Namespace w = ns) ws) c ns k.
Proof.
  revert c. induction ws as [|w ws IH]; intros c; [done|]. rewrite filter_cons.
  case_decide as Hw; [apply IH|]. rewrite <-IH. unfold writes_content. cbn [foldl].
  apply writes_content_ext. unfold write_content. rewrite decide_False; [done|]. by intros [? _].
Qed.

(** ** Writing lists *)

Section writing.
Context {S : Type} `{LawfulStore S}.

Lemma set_writes_ok s ctx ws s' r :
  store_ok s → Forall valid_write ws → set_writes s ctx ws = (s', r) → store_ok s'.
Proof.
  intros Hok Hv. revert s Hok. induction Hv as [|w ws [Hns Hk] Hv IH]; intros s Hok; cbn [set_writes].
  { by intros [= <- _]. }
  destruct (store_Set s ctx _ _ _) as [s1 r1] eqn:E. apply Set_spec in E as [Hok1 _]; [|done..].
  destruct r1; [by apply IH|]. by intros [= <- _].
Qed.

Lemma apply_writes_ok s ctx ws s' r :
  store_ok s → Forall valid_write ws → apply_writes s ctx ws = (s', r) → store_ok s'.
Proof.
  intros Hok Hv. unfold apply_writes. destruct (store_SetBatch (S:=S)) as [batch|] eqn:Eb.
  - intros HB. by eapply SetBatch_spec in HB as [? _].
  - by apply set_writes_ok.
Qed.

Context `{!ReliableStore S}.

Lemma set_writes_total s ws :
  store_ok s → Forall valid_write ws → Forall (λ w, KW_Delete w = false) ws →
  ∃ s', set_writes s None ws = (s', Ok tt) ∧ store_ok s' ∧
    same_content (content s') (writes_content ws (content s)).
Proof.
  intros Hok Hv Hd. revert s Hok Hd.
  induction Hv as [|w ws [Hns Hk] Hv IH]; intros s Hok Hd; cbn [set_writes]; [by exists s|].
  apply Forall_cons in Hd as [Hdw Hd]. pose proof (Set_total s _ _ (KW_Value w) Hok Hns Hk) as Ht.
  destruct (store_Set s None _ _ _) as [s1 r1] eqn:E. cbn in Ht. subst r1.
  apply Set_spec in E as [Hok1 Hc1]; [|done..]. destruct (IH s1 Hok1 Hd) as (s' & -> & Hok' & Hc').
  exists s'. split_and!; [done..|]. etrans; [exact Hc'|]. cbn [writes_content foldl].
  apply writes_content_proper. rewrite Hc1. cbn [is_ok]. destruct w as [ns k v d]. cbn in Hdw. by subst d.
Qed.

(** On a reliable store a list of writes takes effect, in order. *)
Lemma apply_writes_total s ws :
  store_ok s → Forall valid_write ws → Forall (λ w, KW_Delete w = false) ws →
  ∃ s', apply_writes s None ws = (s', Ok tt) ∧ store_ok s' ∧
    same_content (content s') (writes_content ws (content s)).
Proof.
  intros Hok Hv Hd. unfold apply_writes. destruct (store_SetBatch (S:=S)) as [batch|] eqn:Eb.
  - pose proof (SetBatch_total batch s ws Eb Hok Hv) as Ht. destruct (batch s None ws) as [s' r] eqn:E.
    cbn in Ht. subst r. eapply SetBatch_spec in E as [Hok' Hc]; [|done..]. by exists s'.
  - by apply set_writes_total.
Qed.
End writing.

(** ** Listings *)

Lemma listing_unique ns c1 c2 pairs1 pairs2 :
  listing ns c1 pairs1 → listing ns c2 pairs2 → (∀ k, c1 k = c2 k) → pairs1 = pairs2.
Proof.
  intros (Hn1 & Hd1 & Hs1 & H1) (Hn2 & Hd2 & Hs2 & H2) Hc.
  assert (pairs1 ≡ₚ pairs2) as Hp.
  { apply NoDup_Permutation; [by apply NoDup_fmap_1 in Hd1|by apply NoDup_fmap_1 in Hd2|].
    intros [ns' k v]. split; intros Hin.
    - pose proof (proj1 (Forall_forall _ _) Hn1 _ Hin) as Hns. cbn in Hns. subst ns'.
      apply H2. rewrite <-Hc. by apply H1.
    - pose proof (proj1 (Forall_forall _ _) Hn2 _ Hin) as Hns. cbn in Hns. subst ns'.
      apply H1. rewrite Hc. by apply H2. }
  apply (key_sorted_unique KV_Key bytes_le); [done..| |];
    by apply (StronglySorted_fmap_inv KV_Key _ bytes_le).
Qed.

Lemma listing_pairs ns c pairs :
  listing ns c pairs →
  NoDup (Pair_Key <$> stateProofPairs pairs) ∧
  ∀ k v, mkPair k v ∈ stateProofPairs pairs ↔ c k = Some v.
Proof.
  intros (Hn & Hd & _ & Hin). unfold stateProofPairs. rewrite <-list_fmap_compose.
  split; [exact Hd|]. intros k v. rewrite list_elem_of_fmap, <-Hin. split.
  - intros ([ns' k' v'] & [= -> ->] & Hp). pose proof (proj1 (Forall_forall _ _) Hn _ Hp) as Hns.
    cbn in Hns. by subst ns'.
  - intros Hp. by exists (mkKVPair ns k v).
Qed.

(** ** Simulation *)

(** Two stores with the same content. *)
Definition store_sim {S1 S2} `{LawfulStore S1} `{LawfulStore S2} (s1 : S1) (s2 : S2) : Prop :=
  store_ok s1 ∧ store_ok s2 ∧ same_content (content s1) (content s2).

Section simulation.
Context {S1 S2 : Type} `{ReliableStore S1} `{ReliableStore S2}.

Lemma Get_sim (s1 : S1) (s2 : S2) ns k :
  store_sim s1 s2 → valid_namespace ns → k ≠ [] → store_Get s1 None ns k = store_Get s2 None ns k.
Proof. intros (Hok1 & Hok2 & Hc) Hns Hk. by rewrite !Get_total, Hc. Qed.
End simulation.

(** ** Keys *)

(** Lists split at the first occurrence of a separator. *)
Lemma app_sep_inj {A} (c : A) l1 l2 r1 r2 :
  c ∉ l1 → c ∉ l2 → l1 ++ c :: r1 = l2 ++ c :: r2 → l1 = l2 ∧ r1 = r2.
Proof.
  revert l2. induction l1 as [|a l1 IH]; intros [|b l2] H1 H2 Heq; cbn in Heq.
  - by injection Heq as ->.
  - injection Heq as -> _. exfalso. apply H2. by left.
  - injection Heq as -> _. exfalso. apply H1. by left.
  - injection Heq as -> Heq. apply not_elem_of_cons in H1 as [_ H1].
    apply not_elem_of_cons in H2 as [_ H2]. by destruct (IH l2 H1 H2 Heq) as [-> ->].
Qed.

Lemma no_colon_bytes s : str_elem ":" s = false → x3a ∉ bytes_of_string s.
Proof.
  induction s as [|a s IH]; intros Hs; [apply not_elem_of_nil|].
  cbn [str_elem] in Hs. apply orb_false_iff in Hs as [Ha%bool_decide_eq_false Hs].
  rewrite bytes_of_string_cons. apply not_elem_of_cons. split; [|by apply IH].
  intros Heq. apply Ha. by rewrite <-(ascii_of_byte_of_ascii a), <-Heq.
Qed.

Lemma kvKey_inj ns1 ns2 k1 k2 :
  valid_namespace ns1 → valid_namespace ns2 → kvKey ns1 k1 = kvKey ns2 k2 → ns1 = ns2 ∧ k1 = k2.
Proof.
  intros [_ H1] [_ H2]. unfold kvKey, kvNamespacePrefix. rewrite <-!app_assoc. intros Heq.
  apply app_inv_head in Heq. apply (app_sep_inj x3a) in Heq as [Hn ->];
    [|by apply no_colon_bytes..]. split; [|done]. by apply (inj bytes_of_string).
Qed.

Lemma key_guard_live ns k : valid_namespace ns → k ≠ [] → key_guard None ns k = Ok tt.
Proof. intros [Hns _] Hk. unfold key_guard. cbn. by bool_decide_all. Qed.

(** ** The LevelDB store keeps the promises of the interface *)

Section lawful.
Context {D : Type} `{LawfulDB D}.

Definition leveldb_content (d : D) : Content := λ ns k, db_content d (kvKey ns k).

(** One operation on the database and the write it stands for. *)
Definition write_op (w : KVWrite) : BatchOp :=
  let key := kvKey (KW_Namespace w) (KW_Key w) in
  if KW_Delete w then Batch_Delete key else Batch_Put key (KW_Value w).

Lemma write_op_content w c ns k :
  valid_write w → valid_namespace ns →
  op_content (write_op w) c (kvKey ns k) = write_content w (λ ns k, c (kvKey ns k)) ns k.
Proof.
  intros [Hw _] Hns. unfold write_op, write_content, op_content.
  assert (kvKey (KW_Namespace w) (KW_Key w) = kvKey ns k ↔ KW_Namespace w = ns ∧ KW_Key w = k) as Hk.
  { split; [intros He; by apply kvKey_inj in He|by intros [-> ->]]. }
  destruct (KW_Delete w); by rewrite (decide_ext _ _ _ _ Hk).
Qed.

Lemma ops_content_writes ws c :
  Forall valid_write ws →
  same_content (λ ns k, ops_content (write_op <$> ws) c (kvKey ns k))
    (writes_content ws (λ ns k, c (kvKey ns k))).
Proof.
  intros Hws. revert c. induction Hws as [|w ws Hw _ IH]; intros c; [done|].
  cbn [fmap list_fmap]. unfold ops_content, writes_content. cbn [foldl].
  etrans; [apply IH|]. apply writes_content_proper. intros ns k Hns. by apply write_op_content.
Qed.

Lemma build_batch_Ok ws : Forall valid_write ws → build_batch ws = Ok (write_op <$> ws).
Proof.
  induction 1 as [|w ws [[Hns _] Hk] _ IH]; [done|]. cbn [build_batch fmap list_fmap].
  rewrite IH. by bool_decide_all.
Qed.

Lemma leveldb_Get_missing d ctx ns k e :
  ctx_ok ctx → valid_namespace ns → k ≠ [] →
  LevelDB_Get d ctx ns k = Err e → errors_is e ErrKeyNotFound = true →
  leveldb_content d ns k = None.
Proof.
  intros Hctx [Hns Hc] Hk HG He. unfold LevelDB_Get, key_guard in HG.
  destruct ctx as [e'|]; cbn in HG; [injection HG as ->; cbn in Hctx; congruence|].
  rewrite (bool_decide_eq_true_2 _ Hns), (bool_decide_eq_true_2 _ Hk) in HG. cbn in HG.
  destruct (db_Get d (kvKey ns k)) as [v|e'] eqn:E; [done|].
  destruct (errors_is e' leveldb_ErrNotFound) eqn:En.
  - by eapply db_Get_missing.
  - injection HG as ->. apply db_Get_other in E. congruence.
Qed.

Lemma leveldb_put_spec d ctx ns k v d' r :
  valid_namespace ns → k ≠ [] → LevelDB_Set d ctx ns k v = (d', r) →
  same_content (leveldb_content d')
    (if is_ok r then write_content (mkWrite ns k v false) (leveldb_content d)
     else leveldb_content d).
Proof.
  intros Hns Hk HS ns' k' Hns'. unfold LevelDB_Set in HS.
  destruct (key_guard ctx ns k); [|by injection HS as <- <-].
  unfold leveldb_content. rewrite (db_Put_spec _ _ _ _ _ HS). destruct r; [|done].
  apply (write_op_content (mkWrite ns k v false)); [by split|done].
Qed.

Lemma leveldb_delete_spec d ctx ns k d' r :
  valid_namespace ns → k ≠ [] → LevelDB_Delete d ctx ns k = (d', r) →
  same_content (leveldb_content d')
    (if is_ok r then write_content (mkWrite ns k [] true) (leveldb_content d)
     else leveldb_content d).
Proof.
  intros Hns Hk HS ns' k' Hns'. unfold LevelDB_Delete in HS.
  destruct (key_guard ctx ns k); [|by injection HS as <- <-].
  unfold leveldb_content. rewrite (db_Delete_spec _ _ _ _ HS). destruct r; [|done].
  apply (write_op_content (mkWrite ns k [] true)); [by split|done].
Qed.

Lemma leveldb_batch_spec d ctx ws d' r :
  Forall valid_write ws → LevelDB_SetBatch d ctx ws = (d', r) →
  same_content (leveldb_content d')
    (if is_ok r then writes_content ws (leveldb_content d) else leveldb_content d).
Proof.
  intros Hws HS ns' k' Hns'. unfold LevelDB_SetBatch in HS.
  destruct ctx; cbn in HS; [by injection HS as <- <-|].
  rewrite build_batch_Ok in HS by done. unfold leveldb_content at 1.
  rewrite (db_Write_spec _ _ _ _ HS). destruct r; [|done]. by apply ops_content_writes.
Qed.

#[global] Program Instance leveldb_lawful : LawfulStore D := {|
  store_ok _ := True;
  content := leveldb_content
|}.
Next Obligation.
  intros d ctx ns k v _ Hns Hk HG. cbn in HG. unfold LevelDB_Get in HG. result_inv HG.
  destruct (db_Get d (kvKey ns k)) as [v'|e] eqn:E.
  - injection HG as ->. by apply db_Get_Ok.
  - by destruct (errors_is e leveldb_ErrNotFound).
Qed.
Next Obligation. intros d ctx ns k e _. apply leveldb_Get_missing. Qed.
Next Obligation.
  intros d ctx ns k v d' r _ Hns Hk HS. split; [done|].
  exact (leveldb_put_spec d ctx ns k v d' r Hns Hk HS).
Qed.
Next Obligation.
  intros d ctx ns k d' r _ Hns Hk HS. split; [done|].
  exact (leveldb_delete_spec d ctx ns k d' r Hns Hk HS).
Qed.
Next Obligation.
  intros batch d ctx ws d' r [= <-] _ Hws HS. split; [done|].
  exact (leveldb_batch_spec d ctx ws d' r Hws HS).
Qed.

Context `{!ReliableDB D}.

#[global] Instance leveldb_reliable : ReliableStore D.
Proof.
  split.
  - intros d ns k _ Hns Hk. cbn. unfold LevelDB_Get. rewrite key_guard_live by done. cbn.
    rewrite db_Get_total. unfold leveldb_content. by destruct (db_content d (kvKey ns k)).
  - intros d ns k v _ Hns Hk. cbn. unfold LevelDB_Set. rewrite key_guard_live by done.
    apply db_Put_total.
  - intros d ns k _ Hns Hk. cbn. unfold LevelDB_Delete. rewrite key_guard_live by done.
    apply db_Delete_total.
  - intros batch d ws [= <-] _ Hws. unfold LevelDB_SetBatch. cbn. rewrite build_batch_Ok by done.
    apply db_Write_total.
Qed.
End lawful.

(** ** State roots *)

(** The root does not depend on the order of the pairs. *)
Lemma Root_perm ns l1 l2 : NoDup (Pair_Key <$> l1) → l1 ≡ₚ l2 → Root ns l1 = Root ns l2.
Proof.
  intros Hnd Hp. unfold Root, sortedLeaves. rewrite (sort_by_unique _ _ l1 l2 Hnd Hp).
  assert (forallb (λ p, bool_decide (Pair_Key p ≠ [])) l1 =
          forallb (λ p, bool_decide (Pair_Key p ≠ [])) l2) as ->; [|done].
  apply eq_true_iff_eq. rewrite !forallb_forall. setoid_rewrite <-list_elem_of_In.
  split; intros Hall x Hx; apply Hall; [by rewrite Hp|by rewrite <-Hp].
Qed.

Section roots.
Context {D : Type} `{ReliableDB D}.

(** An iteration over a prefix of a namespace lists the keys with the prefix. *)
Lemma iterate_listing d ns prefix entries :
  db_Iterate d (kvNamespacePrefix ns ++ prefix) = (entries, None) →
  listing ns (with_prefix prefix (leveldb_content d ns))
    ((λ e, mkKVPair ns (drop (length (kvNamespacePrefix ns)) e.1) e.2) <$> entries).
Proof.
  intros E. destruct (db_Iterate_spec _ _ _ E) as (Hnd & Hsorted & Hin). clear E.
  unfold leveldb_content, kvKey. set (P := kvNamespacePrefix ns) in *.
  assert (entries.*1 = app P <$> ((λ e : bytes * bytes, drop (length P) e.1) <$> entries)) as Hkeys.
  { rewrite <-list_fmap_compose. apply list_fmap_ext. intros i [k v] Hi. cbn.
    apply list_elem_of_lookup_2, Hin in Hi as [[k' ->] _]. by rewrite <-app_assoc, drop_app_length. }
  split; [by apply Forall_fmap, Forall_true|]. rewrite <-list_fmap_compose.
  change (KV_Key ∘ _) with (λ e : bytes * bytes, drop (length P) e.1). rewrite Hkeys in Hnd, Hsorted.
  split; [by apply NoDup_fmap_1 in Hnd|]. split.
  { eapply StronglySorted_fmap_inv, Hsorted. intros a b. apply bytes_le_app. }
  intros k v. rewrite list_elem_of_fmap. unfold with_prefix. split.
  - intros ([k' v'] & Heq & Hk). apply Hin in Hk as [[k'' ->] Hk]. rewrite <-app_assoc in Heq, Hk.
    cbn [fst snd] in Heq. rewrite drop_app_length in Heq. injection Heq as -> ->.
    by rewrite decide_True by apply take_app_length.
  - case_decide as Hp; [|done]. intros Hk. exists (P ++ k, v). cbn. split; [by rewrite drop_app_length|].
    apply Hin. split; [|done]. exists (drop (length prefix) k). rewrite <-app_assoc. f_equal.
    rewrite <-Hp at 1. by rewrite take_drop.
Qed.

Lemma listing_ext ns c1 c2 pairs : (∀ k, c1 k = c2 k) → listing ns c1 pairs → listing ns c2 pairs.
Proof. intros Hc (H1 & H2 & H3 & H4). split_and!; [done..|]. intros k v. by rewrite <-Hc. Qed.

(** The export of a namespace lists its content. *)
Lemma ExportNamespace_spec d ns :
  valid_namespace ns →
  ∃ pairs, LevelDB_ExportNamespace d None ns = Ok pairs ∧ listing ns (leveldb_content d ns) pairs.
Proof.
  intros [Hns Hc]. unfold LevelDB_ExportNamespace. cbn [ctx_guard mbind result_bind].
  rewrite (bool_decide_eq_true_2 _ Hns). cbn [check mbind result_bind].
  destruct (db_Iterate d (kvNamespacePrefix ns)) as [entries err] eqn:E.
  pose proof (db_Iterate_total d (kvNamespacePrefix ns)) as Hn. rewrite E in Hn. cbn in Hn. subst err.
  eexists. split; [reflexivity|]. rewrite <-(app_nil_r (kvNamespacePrefix ns)) in E.
  eapply listing_ext, iterate_listing, E. done.
Qed.

Lemma ExportPrefix_spec d ns prefix :
  valid_namespace ns →
  ∃ pairs, LevelDB_ExportPrefix d None ns prefix = Ok pairs ∧
    listing ns (with_prefix prefix (leveldb_content d ns)) pairs.
Proof.
  intros [Hns Hc]. unfold LevelDB_ExportPrefix. cbn [ctx_guard mbind result_bind].
  rewrite (bool_decide_eq_true_2 _ Hns). cbn [check mbind result_bind].
  destruct (db_Iterate d (kvNamespacePrefix ns ++ prefix)) as [entries err] eqn:E.
  pose proof (db_Iterate_total d (kvNamespacePrefix ns ++ prefix)) as Hn. rewrite E in Hn.
  cbn in Hn. subst err. eexists. split; [reflexivity|]. by apply iterate_listing.
Qed.

#[global] Instance leveldb_snapshots : SnapshotStore D := {|
  store_ExportNamespace := Some LevelDB_ExportNamespace;
  store_ExportPrefix := Some LevelDB_ExportPrefix
|}.

#[global] Instance leveldb_lists : LawfulSnapshot D.
Proof.
  split.
  - intros d ns _ Hns. destruct (ExportNamespace_spec d ns Hns) as (pairs & He & Hl).
    by exists LevelDB_ExportNamespace, pairs.
  - intros d ns prefix _ Hns. destruct (ExportPrefix_spec d ns prefix Hns) as (pairs & He & Hl).
    by exists LevelDB_ExportPrefix, pairs.
Qed.

Lemma pair_values_lookup pairs k :
  NoDup (Pair_Key <$> stateProofPairs pairs) →
  ∀ v, pair_values pairs !! k = Some v ↔ mkPair k v ∈ stateProofPairs pairs.
Proof.
  intros Hnd v. unfold stateProofPairs in *. rewrite <-list_fmap_compose in Hnd.
  destruct (map_updates_lookup (λ _, true) KV_Key (λ p, Some (KV_Value p)) pairs ∅ k) as [H1 H2].
  { eapply sublist_NoDup; [exact Hnd|]. apply fmap_sublist, sublist_filter. }
  change (foldl _ ∅ pairs) with (pair_values pairs) in H1, H2. rewrite list_elem_of_fmap. split.
  - intros Hv. destruct (decide (k ∈ KV_Key <$> pairs)) as [Hk|Hk].
    + apply list_elem_of_fmap in Hk as (p & -> & Hp). exists p. rewrite (H1 p) in Hv by done.
      by injection Hv as <-.
    + rewrite H2 in Hv; [by rewrite lookup_empty in Hv|]. intros p Hp _ <-. by apply Hk, list_elem_of_fmap_2.
  - intros (p & [= -> ->] & Hp). by apply H1.
Qed.

Lemma merge_writes_Ok ns ws values c :
  Forall valid_write ws → (∀ k, values !! k = c ns k) →
  ∃ values', merge_writes ns ws values = Ok values' ∧ ∀ k, values' !! k = writes_content ws c ns k.
Proof.
  intros Hws. revert values c. induction Hws as [|w ws [_ Hk] _ IH]; intros values c Hv; [by exists values|].
  cbn [merge_writes]. unfold writes_content. cbn [foldl]. case_bool_decide as Hns.
  - apply IH. intros k. unfold write_content. rewrite decide_False; [done|]. by intros [? _].
  - rewrite (bool_decide_eq_true_2 _ Hk). cbn [check mbind result_bind]. apply IH. intros k.
    unfold write_content. destruct (KW_Delete w).
    + destruct (decide (KW_Key w = k)) as [<-|Hne];
        [by rewrite lookup_delete_eq, decide_True|].
      rewrite lookup_delete_ne, decide_False by (done || by intros [_ ?]). done.
    + destruct (decide (KW_Key w = k)) as [<-|Hne];
        [by rewrite lookup_insert_eq, decide_True|].
      rewrite lookup_insert_ne, decide_False by (done || by intros [_ ?]). done.
Qed.

(** The root computed ahead of a commit is the root after it. *)
Lemma RootWithWrites_spec (order : MapOrder bytes bytes) d ns ws d' :
  valid_namespace ns → Forall valid_write ws → LevelDB_SetBatch d None ws = (d', Ok tt) →
  LevelDB_RootWithWrites order d None ns ws = LevelDB_Root d' None ns.
Proof.
  intros Hns Hws HS. pose proof (leveldb_batch_spec _ _ _ _ _ Hws HS) as Hc. cbn [is_ok] in Hc.
  destruct (ExportNamespace_spec d ns Hns) as (pairs & Hex & [Hnd Hin]%listing_pairs).
  destruct (ExportNamespace_spec d' ns Hns) as (pairs' & Hex' & [Hnd' Hin']%listing_pairs).
  unfold LevelDB_RootWithWrites, LevelDB_Root. rewrite Hex, Hex'. destruct Hns as [Hne Hcol].
  cbn [ctx_guard mbind result_bind]. rewrite (bool_decide_eq_true_2 _ Hne).
  cbn [check mbind result_bind].
  destruct (merge_writes_Ok ns ws (pair_values pairs) (leveldb_content d) Hws)
    as (values & -> & Hv).
  { intros k. apply option_eq. intros v. by rewrite pair_values_lookup, Hin. }
  cbn [mbind result_bind]. symmetry. apply Root_perm; [done|].
  apply NoDup_Permutation.
  - by apply NoDup_fmap_1 in Hnd'.
  - unfold stateProofPairs. rewrite <-list_fmap_compose. apply NoDup_fmap_2.
    + intros [k1 v1] [k2 v2]. cbn. by intros [= -> ->].
    + rewrite map_range_perm. apply NoDup_map_to_list.
  - intros [k v]. rewrite Hin', (Hc ns k) by done. rewrite <-Hv.
    unfold stateProofPairs. rewrite <-list_fmap_compose, list_elem_of_fmap. split.
    + intros Hk. exists (k, v). split; [done|]. by apply elem_of_map_range.
    + intros ([k' v'] & Heq & Hk). cbn in Heq. injection Heq as -> ->. by apply elem_of_map_range in Hk.
Qed.

(** Equal databases have equal roots. *)
Lemma LevelDB_Root_content d1 d2 ns :
  valid_namespace ns → (∀ k, db_content d1 k = db_content d2 k) →
  LevelDB_Root d1 None ns = LevelDB_Root d2 None ns.
Proof.
  intros Hns Hc.
  destruct (ExportNamespace_spec d1 ns Hns) as (pairs1 & Hex1 & Hl1).
  destruct (ExportNamespace_spec d2 ns Hns) as (pairs2 & Hex2 & Hl2).
  unfold LevelDB_Root. rewrite Hex1, Hex2. cbn [mbind result_bind].
  by rewrite (listing_unique _ _ _ _ _ Hl1 Hl2) by (intros k; apply Hc).
Qed.
End roots.

(** ** A database in memory

    A finite map satisfies the laws; the examples run on it. *)

Definition has_bytes_prefix (prefix key : bytes) : bool :=
  bool_decide (take (length prefix) key = prefix).

Definition map_op (op : BatchOp) (m : gmap bytes bytes) : gmap bytes bytes :=
  match op with Batch_Put k v => <[k := v]> m | Batch_Delete k => delete k m end.

#[global] Instance map_db : LevelDB (gmap bytes bytes) := {|
  db_Get m k := match m !! k with Some v => Ok v | None => Err leveldb_ErrNotFound end;
  db_Put m k v := (<[k := v]> m, Ok tt);
  db_Delete m k := (delete k m, Ok tt);
  db_Write m ops := (foldl (λ m op, map_op op m) m ops, Ok tt);
  db_Iterate m prefix :=
    (sort_by fst bytes_le (filter (λ e, has_bytes_prefix prefix e.1 = true) (map_to_list m)), None)
|}.

Lemma map_op_lookup (op : BatchOp) (m : gmap bytes bytes) (k : bytes) :
  map_op op m !! k = op_content op (λ k, m !! k) k.
Proof.
  destruct op as [k' v|k']; cbn.
  - rewrite lookup_insert. by case_decide.
  - rewrite lookup_delete. by case_decide.
Qed.

Lemma ops_content_ext ops c1 c2 :
  (∀ k, c1 k = c2 k) → ∀ k, ops_content ops c1 k = ops_content ops c2 k.
Proof.
  revert c1 c2. induction ops as [|op ops IH]; intros c1 c2 Hc; [done|]. apply IH.
  intros k. destruct op; cbn; by rewrite Hc.
Qed.

Lemma map_ops_lookup (ops : list BatchOp) (m : gmap bytes bytes) (k : bytes) :
  foldl (λ m op, map_op op m) m ops !! k = ops_content ops (λ k, m !! k) k.
Proof.
  revert m. induction ops as [|op ops IH]; intros m; [done|]. cbn [foldl]. rewrite IH.
  change (ops_content (op :: ops) ?c) with (ops_content ops (op_content op c)).
  apply ops_content_ext. intros k'. apply map_op_lookup.
Qed.

#[global] Program Instance map_db_lawful : LawfulDB (gmap bytes bytes) := {|
  db_content m k := m !! k
|}.
Next Obligation. intros m k v. cbn. destruct (m !! k); [by intros [= ->]|done]. Qed.
Next Obligation. intros m k e. cbn. by destruct (m !! k). Qed.
Next Obligation. intros m k e. cbn. destruct (m !! k); [done|]. by intros [= <-]. Qed.
Next Obligation. intros m k v m' r [= <- <-] k'. apply (map_op_lookup (Batch_Put k v)). Qed.
Next Obligation. intros m k m' r [= <- <-] k'. apply (map_op_lookup (Batch_Delete k)). Qed.
Next Obligation. intros m ops m' r [= <- <-] k'. apply map_ops_lookup. Qed.
Next Obligation.
  intros m prefix entries [= <-]. split_and!.
  - rewrite sort_by_perm. eapply sublist_NoDup; [apply (NoDup_fst_map_to_list m)|].
    apply fmap_sublist, sublist_filter.
  - apply sort_by_sorted; apply _.
  - intros k v. rewrite elem_of_sort_by, list_elem_of_filter, elem_of_map_to_list. cbn [fst].
    unfold has_bytes_prefix. rewrite bool_decide_eq_true. split.
    + intros [Hp Hm]. split; [|done]. exists (drop (length prefix) k).
      rewrite <-Hp at 1. by rewrite take_drop.
    + intros [[k' ->] Hm]. by rewrite take_app_length.
Qed.

#[global] Instance map_db_reliable : ReliableDB (gmap bytes bytes).
Proof. split; [|done..]. intros m k. cbn. by destruct (m !! k). Qed.
