(* ===== verification/Staged.v ===== *)
(** * Staged execution ([src/app/staged_store.go])

    A block runs on a store that keeps its writes in memory, in order and in an
    overlay that reads consult first.  Committing the block writes the list in
    one batch.  The staged store keeps the promises of the store interface over
    any base that does, and what it reads and the roots it reports are those of
    the base after the commit. *)

From S2P Require Import Prelude GoLib Sha256 Merkle Types Strconv TxTags Text SignBytes StateProof Store.

Definition ErrMissingStagedBase := ErrNew "errors.New(missing staged base store)".
Definition ErrStagedNoRoots := ErrNew "errors.New(staged base store cannot compute roots)".
Definition ErrStagedNoPrefixes := ErrNew "errors.New(staged base store cannot export prefixes)".
Definition ErrStagedNoNamespaces := ErrNew "errors.New(staged base store cannot export namespaces)".

Definition stagedKey (namespace : string) (key : bytes) : string :=
  (namespace ++ ":" ++ hex_encode key)%string.

(** The base is [None] for a nil interface. *)
Record StagedStore (S : Type) := mkStaged {
  staged_base : option S;
  staged_writes : list KVWrite;
  staged_overlay : gmap string KVWrite
}.
Arguments mkStaged {S} _ _ _.
Arguments staged_base {S} _.
Arguments staged_writes {S} _.
Arguments staged_overlay {S} _.

Section staged.
Context {S : Type} `{!StateStore S}.

Definition NewStagedStore (base : option S) : StagedStore S := mkStaged base [] ∅.

(** Append to the writes and update the overlay. *)
Definition stage_write (store : StagedStore S) (write : KVWrite) : StagedStore S :=
  mkStaged (staged_base store) (staged_writes store ++ [write])
    (<[stagedKey (KW_Namespace write) (KW_Key write) := write]> (staged_overlay store)).

Definition Staged_Set (store : StagedStore S) (ctx : Ctx) (namespace : string) (key value : bytes)
    : StagedStore S * result unit :=
  match staged_base store with
  | None => (store, Err ErrMissingStagedBase)
  | Some _ => (stage_write store (mkWrite namespace key value false), Ok tt)
  end.

Definition Staged_Get (store : StagedStore S) (ctx : Ctx) (namespace : string) (key : bytes)
    : result bytes :=
  match staged_base store with
  | None => Err ErrMissingStagedBase
  | Some base =>
      match staged_overlay store !! stagedKey namespace key with
      | Some write => if KW_Delete write then Err ErrKeyNotFound else Ok (KW_Value write)
      | None => store_Get base ctx namespace key
      end
  end.

Definition Staged_Delete (store : StagedStore S) (ctx : Ctx) (namespace : string) (key : bytes)
    : StagedStore S * result unit :=
  match staged_base store with
  | None => (store, Err ErrMissingStagedBase)
  | Some _ => (stage_write store (mkWrite namespace key [] true), Ok tt)
  end.

(** The loop of [SetBatch], which polls the context before every write. *)
Fixpoint stage_writes (store : StagedStore S) (ctx : Ctx) (writes : list KVWrite)
    : StagedStore S * result unit :=
  match writes with
  | [] => (store, Ok tt)
  | write :: writes =>
      match ctx with
      | Some e => (store, Err e)
      | None => stage_writes (stage_write store write) ctx writes
      end
  end.

Definition Staged_SetBatch (store : StagedStore S) (ctx : Ctx) (writes : list KVWrite)
    : StagedStore S * result unit :=
  match staged_base store with
  | None => (store, Err ErrMissingStagedBase)
  | Some _ => stage_writes store ctx writes
  end.

#[global] Instance staged_store : StateStore (StagedStore S) := {|
  store_Set := Staged_Set;
  store_Get := Staged_Get;
  store_Delete := Staged_Delete;
  store_SetBatch := Some Staged_SetBatch
|}.

(** [Root]: the base computes roots with pending writes, or roots only, or
    neither. *)
Definition Staged_Root
    (rootWithWrites : option (S → Ctx → string → list KVWrite → result Hash))
    (rooter : option (S → Ctx → string → result Hash))
    (store : StagedStore S) (ctx : Ctx) (namespace : string) : result Hash :=
  match staged_base store with
  | None => Err ErrMissingStagedBase
  | Some base =>
      match rootWithWrites, rooter with
      | Some f, _ => f base ctx namespace (staged_writes store)
      | None, Some f => f base ctx namespace
      | None, None => Err ErrStagedNoRoots
      end
  end.

(** The step of the loop over the overlay. *)
Definition overlay_step (select : KVWrite → bool) (merged : gmap bytes KVPair) (e : string * KVWrite)
    : gmap bytes KVPair :=
  let '(_, write) := e in
  if negb (select write) then merged
  else if KW_Delete write then delete (KW_Key write) merged
  else <[KW_Key write := mkKVPair (KW_Namespace write) (KW_Key write) (KW_Value write)]> merged.

(** The pairs of the base overlaid with the staged writes that [select] keeps,
    in key order. *)
Definition merge_overlay (overlayOrder : MapOrder string KVWrite) (order : MapOrder bytes KVPair)
    (select : KVWrite → bool) (pairs : list KVPair) (overlay : gmap string KVWrite) : list KVPair :=
  let merged := foldl (λ (m : gmap bytes KVPair) p, <[KV_Key p := p]> m) ∅ pairs in
  let merged := foldl (overlay_step select) merged (overlayOrder overlay) in
  sort_by KV_Key bytes_le (order merged).*2.

Definition Staged_ExportPrefix (overlayOrder : MapOrder string KVWrite)
    (order : MapOrder bytes KVPair)
    (exportPrefix : option (S → Ctx → string → bytes → result (list KVPair)))
    (store : StagedStore S) (ctx : Ctx) (namespace : string) (prefix : bytes)
    : result (list KVPair) :=
  match staged_base store, exportPrefix with
  | None, _ => Err ErrMissingStagedBase
  | Some _, None => Err ErrStagedNoPrefixes
  | Some base, Some f =>
      pairs ← f base ctx namespace prefix;
      Ok (merge_overlay overlayOrder order
            (λ w, bool_decide (KW_Namespace w = namespace) &&
                  bool_decide (take (length prefix) (KW_Key w) = prefix))
            pairs (staged_overlay store))
  end.

Definition Staged_ExportNamespace (overlayOrder : MapOrder string KVWrite)
    (order : MapOrder bytes KVPair)
    (export : option (S → Ctx → string → result (list KVPair)))
    (store : StagedStore S) (ctx : Ctx) (namespace : string) : result (list KVPair) :=
  match staged_base store, export with
  | None, _ => Err ErrMissingStagedBase
  | Some _, None => Err ErrStagedNoNamespaces
  | Some base, Some f =>
      pairs ← f base ctx namespace;
      Ok (merge_overlay overlayOrder order (λ w, bool_decide (KW_Namespace w = namespace))
            pairs (staged_overlay store))
  end.

Definition Staged_ImportNamespace (overlayOrder : MapOrder string KVWrite)
    (order : MapOrder bytes KVPair)
    (export : option (S → Ctx → string → result (list KVPair)))
    (store : StagedStore S) (ctx : Ctx) (namespace : string) (pairs : list KVPair)
    : StagedStore S * result unit :=
  match staged_base store with
  | None => (store, Err ErrMissingStagedBase)
  | Some _ =>
      match Staged_ExportNamespace overlayOrder order export store ctx namespace with
      | Err e => (store, Err e)
      | Ok existing =>
          Staged_SetBatch store ctx
            (((λ p, mkWrite namespace (KV_Key p) [] true) <$> existing) ++
             ((λ p, mkWrite namespace (KV_Key p) (KV_Value p) false) <$> pairs))
      end
  end.

Definition Staged_Writes (store : StagedStore S) : list KVWrite := staged_writes store.
End staged.

(** ** The overlay *)

Lemma no_colon_hex key : x3a ∉ bytes_of_string (hex_encode key).
Proof. apply no_colon_bytes, hex_encode_no_colon. Qed.

(** Hexadecimal digits have no colon: the last colon ends the namespace. *)
Lemma stagedKey_inj ns1 ns2 k1 k2 : stagedKey ns1 k1 = stagedKey ns2 k2 → ns1 = ns2 ∧ k1 = k2.
Proof.
  intros Heq. apply (f_equal (λ s, reverse (bytes_of_string s))) in Heq.
  unfold stagedKey in Heq. rewrite !bytes_of_string_app, !reverse_app, <-!app_assoc in Heq.
  apply (app_sep_inj x3a) in Heq as [Hk Hn];
    [|rewrite elem_of_reverse; apply no_colon_hex..].
  split; [by apply (inj bytes_of_string), (inj reverse)|].
  by apply (inj hex_encode), (inj bytes_of_string), (inj reverse).
Qed.

(** The overlay holds the last write of every key. *)
Definition overlay_of (ws : list KVWrite) : gmap string KVWrite :=
  foldl (λ m w, <[stagedKey (KW_Namespace w) (KW_Key w) := w]> m) ∅ ws.

Lemma overlay_of_snoc ws w :
  overlay_of (ws ++ [w]) = <[stagedKey (KW_Namespace w) (KW_Key w) := w]> (overlay_of ws).
Proof. unfold overlay_of. by rewrite foldl_app. Qed.

Lemma overlay_content ws c ns k :
  writes_content ws c ns k =
  match overlay_of ws !! stagedKey ns k with
  | Some w => if KW_Delete w then None else Some (KW_Value w)
  | None => c ns k
  end.
Proof.
  induction ws as [|w ws IH] using rev_ind; [done|].
  rewrite overlay_of_snoc, writes_content_app.
  change (writes_content [w] ?c) with (write_content w c). unfold write_content.
  case_decide as Hd.
  - destruct Hd as [-> ->]. by rewrite lookup_insert_eq.
  - rewrite lookup_insert_ne; [exact IH|]. intros Heq. by apply stagedKey_inj in Heq.
Qed.

Lemma overlay_keys ws sk w :
  overlay_of ws !! sk = Some w → sk = stagedKey (KW_Namespace w) (KW_Key w) ∧ w ∈ ws.
Proof.
  induction ws as [|w' ws IH] using rev_ind; [done|]. rewrite overlay_of_snoc.
  rewrite elem_of_app. destruct (decide (stagedKey (KW_Namespace w') (KW_Key w') = sk)) as [<-|Hne].
  - rewrite lookup_insert_eq. intros [= ->]. split; [done|]. right. by left.
  - rewrite lookup_insert_ne by done. intros [-> Hw]%IH. auto.
Qed.

(** ** The staged store keeps the promises of the interface *)

Section lawful.
Context {S : Type} `{LawfulStore S}.

Definition staged_ok (store : StagedStore S) : Prop :=
  ∃ base, staged_base store = Some base ∧ store_ok base ∧
    staged_overlay store = overlay_of (staged_writes store).

Definition staged_content (store : StagedStore S) : Content :=
  writes_content (staged_writes store)
    (match staged_base store with Some base => content base | None => λ _ _, None end).

Lemma stage_write_spec store w :
  staged_ok store →
  staged_ok (stage_write store w) ∧
  staged_content (stage_write store w) = write_content w (staged_content store).
Proof.
  intros (base & Hb & Hok & Hov). split.
  - exists base. split_and!; [done|done|]. cbn. by rewrite Hov, overlay_of_snoc.
  - unfold staged_content. cbn [stage_write staged_writes staged_base].
    by rewrite writes_content_app.
Qed.

Lemma stage_writes_spec store ctx ws store' r :
  staged_ok store → stage_writes store ctx ws = (store', r) →
  staged_ok store' ∧
  staged_content store' =
    (if is_ok r then writes_content ws (staged_content store) else staged_content store).
Proof.
  destruct ctx as [e|].
  { intros Hok. destruct ws; cbn; intros [= <- <-]; done. }
  revert store. induction ws as [|w ws IH]; intros store Hok; cbn.
  { by intros [= <- <-]. }
  intros HS. destruct (stage_write_spec store w Hok) as [Hok' Hc].
  destruct (IH _ Hok' HS) as [Hok'' Hc'].
  assert (r = Ok tt) as ->.
  { clear -HS. revert HS. generalize (stage_write store w).
    induction ws as [|w' ws IH]; intros st; cbn; [by intros [= _ <-]|]. apply IH. }
  split; [done|]. cbn [is_ok] in *. by rewrite Hc', Hc.
Qed.

#[global] Program Instance staged_lawful : LawfulStore (StagedStore S) := {|
  store_ok := staged_ok;
  content := staged_content
|}.
Next Obligation.
  intros store ctx ns k v (base & Hb & Hok & Hov) Hns Hk. cbn. unfold Staged_Get, staged_content.
  rewrite Hb, overlay_content, <-Hov. destruct (staged_overlay store !! stagedKey ns k) as [w|].
  - destruct (KW_Delete w); [done|]. by intros [= ->].
  - by apply Get_Ok.
Qed.
Next Obligation.
  intros store ctx ns k e (base & Hb & Hok & Hov) Hctx Hns Hk. cbn.
  unfold Staged_Get, staged_content. rewrite Hb, overlay_content, <-Hov.
  destruct (staged_overlay store !! stagedKey ns k) as [w|].
  - by destruct (KW_Delete w).
  - by apply Get_missing.
Qed.
Next Obligation.
  intros store ctx ns k v store' r Hok Hns Hk. cbn. unfold Staged_Set.
  destruct Hok as (base & Hb & Hok). rewrite Hb. intros [= <- <-].
  destruct (stage_write_spec store (mkWrite ns k v false)) as [Hok' Hc]; [by exists base|].
  split; [done|]. by rewrite Hc.
Qed.
Next Obligation.
  intros store ctx ns k store' r Hok Hns Hk. cbn. unfold Staged_Delete.
  destruct Hok as (base & Hb & Hok). rewrite Hb. intros [= <- <-].
  destruct (stage_write_spec store (mkWrite ns k [] true)) as [Hok' Hc]; [by exists base|].
  split; [done|]. by rewrite Hc.
Qed.
Next Obligation.
  intros batch store ctx ws store' r [= <-] Hok Hws. unfold Staged_SetBatch.
  destruct Hok as (base & Hb & Hok). rewrite Hb. intros HS.
  destruct (stage_writes_spec store ctx ws store' r) as [Hok' Hc]; [by exists base|done|].
  split; [done|]. by rewrite Hc.
Qed.

Lemma stage_writes_total (store : StagedStore S) ws : (stage_writes store None ws).2 = Ok tt.
Proof. revert store. induction ws as [|w ws IH]; intros store; [done|]. apply IH. Qed.

#[global] Instance staged_reliable `{!ReliableStore S} : ReliableStore (StagedStore S).
Proof.
  split.
  - intros store ns k (base & Hb & Hok & Hov) Hns Hk. cbn. unfold Staged_Get, staged_content.
    rewrite Hb, overlay_content, <-Hov. destruct (staged_overlay store !! stagedKey ns k) as [w|].
    + by destruct (KW_Delete w).
    + by apply Get_total.
  - intros store ns k v (base & Hb & _) _ _. cbn. unfold Staged_Set. by rewrite Hb.
  - intros store ns k (base & Hb & _) _ _. cbn. unfold Staged_Delete. by rewrite Hb.
  - intros batch store ws [= <-] (base & Hb & _) _. unfold Staged_SetBatch. rewrite Hb.
    apply stage_writes_total.
Qed.

Lemma NewStagedStore_ok (base : S) : store_ok base → staged_ok (NewStagedStore (Some base)).
Proof. intros Hok. exists base. by split_and!. Qed.
End lawful.

(** ** Exports of the staged store *)

Section exports.
Context (o1 : MapOrder string KVWrite) (o2 : MapOrder bytes KVPair).
Context (select : KVWrite → bool) (ns : string) (Hselect : ∀ w, select w = true → KW_Namespace w = ns).

Definition write_pair (w : KVWrite) : option KVPair :=
  if KW_Delete w then None else Some (mkKVPair (KW_Namespace w) (KW_Key w) (KW_Value w)).

(** What is under a key after the selected writes of the overlay. *)
Definition overlaid (ws : list KVWrite) (c : bytes → option bytes) (k : bytes) : option bytes :=
  match overlay_of ws !! stagedKey ns k with
  | Some w => if select w then KV_Value <$> write_pair w else c k
  | None => c k
  end.

Lemma overlay_step_update m e :
  overlay_step select m e = map_update (λ e, select e.2) (λ e, KW_Key e.2) (λ e, write_pair e.2) m e.
Proof.
  destruct e as [sk w]. unfold overlay_step, map_update, write_pair. cbn [snd].
  destruct (select w); [|done]. by destruct (KW_Delete w).
Qed.

Lemma overlay_steps_lookup ws m k :
  foldl (overlay_step select) m (o1 (overlay_of ws)) !! k =
  match overlay_of ws !! stagedKey ns k with
  | Some w => if select w then write_pair w else m !! k
  | None => m !! k
  end.
Proof.
  assert (∀ l, foldl (overlay_step select) m l =
    foldl (map_update (λ e, select e.2) (λ e, KW_Key e.2) (λ e, write_pair e.2)) m l) as ->.
  { intros l. revert m. induction l as [|e l IH]; intros m; [done|]. cbn [foldl].
    by rewrite overlay_step_update, IH. }
  assert (∀ sk w, (sk, w) ∈ o1 (overlay_of ws) → select w = true → sk = stagedKey ns (KW_Key w)) as Hsk.
  { intros sk w [-> _]%elem_of_map_range%overlay_keys Hs. by rewrite (Hselect w Hs). }
  destruct (map_updates_lookup (λ e : string * KVWrite, select e.2) (λ e, KW_Key e.2)
    (λ e, write_pair e.2) (o1 (overlay_of ws)) m k) as [H1 H2].
  { apply NoDup_alt. intros i j key Hi Hj. rewrite list_lookup_fmap in Hi, Hj.
    destruct (filter _ _ !! i) as [[sk1 w1]|] eqn:E1; [|done].
    destruct (filter _ _ !! j) as [[sk2 w2]|] eqn:E2; [|done]. cbn in Hi, Hj.
    pose proof (list_elem_of_lookup_2 _ _ _ E1) as [Hs1 Hin1]%list_elem_of_filter.
    pose proof (list_elem_of_lookup_2 _ _ _ E2) as [Hs2 Hin2]%list_elem_of_filter.
    apply Hsk in Hin1 as Hk1; [|done]. apply Hsk in Hin2 as Hk2; [|done].
    assert (sk1 = sk2) as <- by congruence.
    apply elem_of_map_range in Hin1, Hin2. assert (w1 = w2) as <- by congruence.
    eapply NoDup_lookup, E2; [|exact E1]. apply NoDup_filter.
    eapply NoDup_fmap_1, (map_range_NoDup o1). }
  destruct (overlay_of ws !! stagedKey ns k) as [w|] eqn:E.
  - destruct (overlay_keys _ _ _ E) as [Heq _]. destruct (select w) eqn:Es.
    + apply stagedKey_inj in Heq as [_ Hk]. apply (H1 (stagedKey ns k, w)); [|done..].
      by apply elem_of_map_range.
    + apply H2. intros [sk w'] Hin Hs <-. cbn in Hs. apply Hsk in Hin as Hsk'; [|done]. subst sk.
      apply elem_of_map_range in Hin. cbn in *. congruence.
  - apply H2. intros [sk w] Hin Hs <-. cbn in Hs. apply Hsk in Hin as Heq; [|done]. subst sk.
    apply elem_of_map_range in Hin. cbn in *. congruence.
Qed.

(** The map of the exported pairs. *)
Lemma pairs_lookup c pairs k p :
  listing ns c pairs →
  foldl (λ (m : gmap bytes KVPair) p, <[KV_Key p := p]> m) ∅ pairs !! k = Some p ↔
  p = mkKVPair ns k (KV_Value p) ∧ c k = Some (KV_Value p).
Proof.
  intros (Hn & Hnd & _ & Hin).
  destruct (map_updates_lookup (λ _, true) KV_Key Some pairs ∅ k) as [H1 H2].
  { eapply sublist_NoDup; [exact Hnd|]. apply fmap_sublist, sublist_filter. }
  change (foldl _ ∅ pairs) with (foldl (λ (m : gmap bytes KVPair) p, <[KV_Key p := p]> m) ∅ pairs) in H1, H2.
  rewrite <-Hin. split.
  - intros Hp. destruct (decide (k ∈ KV_Key <$> pairs)) as [Hk|Hk].
    + apply list_elem_of_fmap in Hk as (p' & -> & Hp'). rewrite (H1 p') in Hp by done. injection Hp as ->.
      pose proof (proj1 (Forall_forall _ _) Hn _ Hp') as <-. by destruct p.
    + rewrite H2 in Hp; [by rewrite lookup_empty in Hp|]. intros p' Hp' _ <-. by apply Hk, list_elem_of_fmap_2.
  - intros [Heq Hp]. rewrite <-Heq in Hp. apply H1; [done..|]. by rewrite Heq.
Qed.

(** The merge lists the overlaid content. *)
Lemma merge_overlay_listing ws c pairs :
  listing ns c pairs → listing ns (overlaid ws c) (merge_overlay o1 o2 select pairs (overlay_of ws)).
Proof.
  intros (Hn & Hnd & Hs & Hin). unfold merge_overlay. set (base := foldl _ ∅ pairs).
  set (merged := foldl (overlay_step select) base (o1 (overlay_of ws))).
  assert (∀ k p, merged !! k = Some p ↔
    p = mkKVPair ns k (KV_Value p) ∧ overlaid ws c k = Some (KV_Value p)) as Hm.
  { intros k p. unfold merged, overlaid. rewrite overlay_steps_lookup.
    assert (base !! k = Some p ↔ p = mkKVPair ns k (KV_Value p) ∧ c k = Some (KV_Value p)) as Hbase.
    { by apply pairs_lookup. }
    destruct (overlay_of ws !! stagedKey ns k) as [w|] eqn:E; [|done].
    destruct (select w) eqn:Es; [|done]. unfold write_pair. destruct (KW_Delete w); [naive_solver|].
    destruct (overlay_keys _ _ _ E) as [[Hns Hk]%stagedKey_inj _]. cbn. rewrite <-Hns, <-Hk.
    destruct p as [ns' k' v]. cbn. naive_solver. }
  assert (∀ p, p ∈ (o2 merged).*2 ↔ merged !! KV_Key p = Some p) as Helem.
  { intros p. rewrite list_elem_of_fmap. split.
    - intros ([k p'] & -> & Hp%elem_of_map_range). cbn. pose proof Hp as [Heq _]%Hm.
      by assert (KV_Key p' = k) as -> by (by rewrite Heq).
    - intros Hp. exists (KV_Key p, p). split; [done|]. by apply elem_of_map_range. }
  split_and!.
  - apply Forall_forall. intros p. rewrite elem_of_sort_by, Helem. intros [-> _]%Hm. done.
  - rewrite sort_by_perm, <-list_fmap_compose.
    erewrite list_fmap_ext; [apply (map_range_NoDup o2 merged)|].
    intros i [k p] Hi. cbn. apply list_elem_of_lookup_2, elem_of_map_range, Hm in Hi as [-> _]. done.
  - apply sort_by_sorted; apply _.
  - intros k v. rewrite elem_of_sort_by, Helem. cbn. rewrite Hm. cbn. naive_solver.
Qed.
End exports.

(** A staged store exports when its base does. *)
Definition staged_snapshots {S} `{!SnapshotStore S} (o1 : MapOrder string KVWrite)
    (o2 : MapOrder bytes KVPair) : SnapshotStore (StagedStore S) := {|
  store_ExportNamespace := Some (Staged_ExportNamespace o1 o2 store_ExportNamespace);
  store_ExportPrefix := Some (Staged_ExportPrefix o1 o2 store_ExportPrefix)
|}.

Lemma staged_lists {S} `{LawfulSnapshot S} (o1 : MapOrder string KVWrite) (o2 : MapOrder bytes KVPair) :
  LawfulSnapshot (SnapshotStore0 := staged_snapshots o1 o2) (StagedStore S).
Proof.
  split.
  - intros store ns (base & Hb & Hok & Hov) Hns.
    destruct (ExportNamespace_listing base ns Hok Hns) as (export & pairs & He & Hp & Hl).
    eexists _, _. split; [reflexivity|]. unfold Staged_ExportNamespace. rewrite Hb, He, Hp, Hov.
    split; [reflexivity|]. eapply listing_ext; [|apply (merge_overlay_listing o1 o2 _ ns), Hl].
    + intros k. cbn. unfold overlaid, staged_content. rewrite Hb, overlay_content.
      destruct (overlay_of (staged_writes store) !! stagedKey ns k) as [w|] eqn:E; [|done].
      destruct (overlay_keys _ _ _ E) as [[<- _]%stagedKey_inj _]. rewrite bool_decide_eq_true_2 by done.
      unfold write_pair. by destruct (KW_Delete w).
    + intros w Hw. exact (bool_decide_eq_true_1 _ Hw).
  - intros store ns prefix (base & Hb & Hok & Hov) Hns.
    destruct (ExportPrefix_listing base ns prefix Hok Hns) as (export & pairs & He & Hp & Hl).
    eexists _, _. split; [reflexivity|]. unfold Staged_ExportPrefix. rewrite Hb, He, Hp, Hov.
    split; [reflexivity|]. eapply listing_ext; [|apply (merge_overlay_listing o1 o2 _ ns), Hl].
    + intros k. cbn. unfold overlaid, staged_content, with_prefix. rewrite Hb, overlay_content.
      destruct (overlay_of (staged_writes store) !! stagedKey ns k) as [w|] eqn:E; [|done].
      destruct (overlay_keys _ _ _ E) as [[<- <-]%stagedKey_inj _]. rewrite bool_decide_eq_true_2 by done.
      unfold write_pair. cbn [andb]. case_bool_decide; case_decide; try done. by destruct (KW_Delete w).
    + intros w [Hw _]%andb_true_iff. exact (bool_decide_eq_true_1 _ Hw).
Qed.

(** ** Runs of store operations *)

Inductive StoreOp :=
| OpSet (namespace : string) (key value : bytes)
| OpDelete (namespace : string) (key : bytes)
| OpBatch (writes : list KVWrite).

Definition op_writes (op : StoreOp) : list KVWrite :=
  match op with
  | OpSet ns k v => [mkWrite ns k v false]
  | OpDelete ns k => [mkWrite ns k [] true]
  | OpBatch ws => ws
  end.

Definition valid_op (op : StoreOp) : Prop := Forall valid_write (op_writes op).

#[global] Instance valid_op_dec op : Decision (valid_op op).
Proof. unfold valid_op. apply _. Defined.

Definition run_op {S} `{!StateStore S} (s : S) (op : StoreOp) : S :=
  match op with
  | OpSet ns k v => (store_Set s None ns k v).1
  | OpDelete ns k => (store_Delete s None ns k).1
  | OpBatch ws => match store_SetBatch with Some f => (f s None ws).1 | None => s end
  end.

Definition run_ops {S} `{!StateStore S} (s : S) (ops : list StoreOp) : S := foldl run_op s ops.

Section runs.
Context {S : Type} `{ReliableStore S}.

Lemma run_op_content (s : S) op :
  store_SetBatch (S:=S) ≠ None → store_ok s → valid_op op →
  store_ok (run_op s op) ∧
  same_content (content (run_op s op)) (writes_content (op_writes op) (content s)).
Proof.
  intros Hb Hok Hop. destruct op as [ns k v|ns k|ws]; cbn [run_op op_writes].
  - apply Forall_singleton in Hop as [Hns Hk]. cbn in Hns, Hk.
    pose proof (Set_total s ns k v Hok Hns Hk) as Ht.
    destruct (store_Set s None ns k v) as [s' r] eqn:E. cbn in Ht. subst r.
    exact (Set_spec s None ns k v s' _ Hok Hns Hk E).
  - apply Forall_singleton in Hop as [Hns Hk]. cbn in Hns, Hk.
    pose proof (Delete_total s ns k Hok Hns Hk) as Ht.
    destruct (store_Delete s None ns k) as [s' r] eqn:E. cbn in Ht. subst r.
    exact (Delete_spec s None ns k s' _ Hok Hns Hk E).
  - destruct (store_SetBatch (S:=S)) as [f|] eqn:Ef; [|done].
    pose proof (SetBatch_total f s ws Ef Hok Hop) as Ht.
    destruct (f s None ws) as [s' r] eqn:E. cbn in Ht. subst r.
    exact (SetBatch_spec f s None ws s' _ Ef Hok Hop E).
Qed.

Lemma run_ops_content (s : S) ops :
  store_SetBatch (S:=S) ≠ None → store_ok s → Forall valid_op ops →
  store_ok (run_ops s ops) ∧
  same_content (content (run_ops s ops)) (writes_content (ops ≫= op_writes) (content s)).
Proof.
  intros Hb Hok Hops. revert s Hok. induction Hops as [|op ops Hop _ IH]; intros s Hok; [done|].
  destruct (run_op_content s op Hb Hok Hop) as [Hok' Hc].
  destruct (IH _ Hok') as [Hok'' Hc']. split; [exact Hok''|].
  cbn [mbind list_bind]. rewrite writes_content_app. etrans; [exact Hc'|].
  by apply writes_content_proper.
Qed.
End runs.

(** The staged store records exactly the writes of the run. *)
Lemma stage_writes_records {S} (store : StagedStore S) ws :
  staged_writes (stage_writes store None ws).1 = staged_writes store ++ ws ∧
  staged_base (stage_writes store None ws).1 = staged_base store.
Proof.
  revert store. induction ws as [|w ws IH]; intros store; [by rewrite app_nil_r|].
  cbn [stage_writes]. destruct (IH (stage_write store w)) as [-> ->]. cbn.
  by rewrite <-app_assoc.
Qed.

Lemma run_ops_records {S} `{!StateStore S} (store : StagedStore S) ops :
  staged_base store ≠ None →
  staged_writes (run_ops store ops) = staged_writes store ++ (ops ≫= op_writes) ∧
  staged_base (run_ops store ops) = staged_base store.
Proof.
  revert store. induction ops as [|op ops IH]; intros store Hb; [by rewrite app_nil_r|].
  destruct (staged_base store) as [base|] eqn:Hbase; [|done].
  assert (staged_base (run_op store op) = Some base ∧
    staged_writes (run_op store op) = staged_writes store ++ op_writes op) as [Hb' Hw].
  { destruct op as [ns k v|ns k|ws]; cbn.
    - unfold Staged_Set. by rewrite Hbase.
    - unfold Staged_Delete. by rewrite Hbase.
    - unfold Staged_SetBatch. rewrite Hbase. destruct (stage_writes_records store ws) as [-> ->].
      done. }
  cbn [run_ops foldl]. change (foldl run_op ?s ops) with (run_ops s ops).
  destruct (IH (run_op store op)) as [-> ->]; [by rewrite Hb'|]. rewrite Hw, Hb'.
  cbn [mbind list_bind]. by rewrite <-app_assoc.
Qed.

Section commit.
Context {D : Type} `{ReliableDB D}.

Lemma run_op_db (d : D) op :
  valid_op op →
  ∀ k, db_content (run_op d op) k = ops_content (write_op <$> op_writes op) (db_content d) k.
Proof.
  intros Hop k. destruct op as [ns key v|ns key|ws]; cbn [run_op op_writes store_Set store_Delete
    store_SetBatch leveldb_store fmap list_fmap write_op].
  - apply Forall_singleton in Hop as [Hns Hk]. unfold LevelDB_Set. rewrite key_guard_live by done.
    pose proof (db_Put_total d (kvKey ns key) v) as Ht. destruct (db_Put d _ v) as [d' r] eqn:E.
    cbn in Ht. subst r. exact (db_Put_spec _ _ _ _ _ E k).
  - apply Forall_singleton in Hop as [Hns Hk]. unfold LevelDB_Delete. rewrite key_guard_live by done.
    pose proof (db_Delete_total d (kvKey ns key)) as Ht. destruct (db_Delete d _) as [d' r] eqn:E.
    cbn in Ht. subst r. exact (db_Delete_spec _ _ _ _ E k).
  - unfold LevelDB_SetBatch. cbn [ctx_guard mbind result_bind]. rewrite build_batch_Ok by done.
    pose proof (db_Write_total d (write_op <$> ws)) as Ht. destruct (db_Write d _) as [d' r] eqn:E.
    cbn in Ht. subst r. exact (db_Write_spec _ _ _ _ E k).
Qed.

(** Operations one by one leave what their writes leave in one batch. *)
Lemma run_ops_db (d : D) ops :
  Forall valid_op ops →
  ∀ k, db_content (run_ops d ops) k = ops_content (write_op <$> (ops ≫= op_writes)) (db_content d) k.
Proof.
  intros Hops. revert d. induction Hops as [|op ops Hop _ IH]; intros d k; [done|].
  cbn [mbind list_bind]. rewrite fmap_app. unfold ops_content. rewrite foldl_app.
  change (db_content (run_ops (run_op d op) ops) k = ops_content (write_op <$> (ops ≫= op_writes))
    (ops_content (write_op <$> op_writes op) (db_content d)) k).
  rewrite IH. apply ops_content_ext. by apply run_op_db.
Qed.

(** The commit of a block: its writes in one batch. *)
Definition commit_staged (base : D) (store : StagedStore D) : D * result unit :=
  LevelDB_SetBatch base None (Staged_Writes store).

(** Committing the writes gives the database of the operations themselves, with
    the roots the staged store reported. *)
Lemma commit_staged_db (order : MapOrder bytes bytes) (base : D) (ops : list StoreOp) :
  Forall valid_op ops →
  let staged := run_ops (NewStagedStore (Some base)) ops in
  ∃ committed, commit_staged base staged = (committed, Ok tt) ∧
    (∀ k, db_content committed k = db_content (run_ops base ops) k) ∧
    (∀ ns, valid_namespace ns →
       Staged_Root (Some (LevelDB_RootWithWrites order)) (Some LevelDB_Root) staged None ns =
       LevelDB_Root committed None ns).
Proof.
  intros Hops staged.
  destruct (run_ops_records (NewStagedStore (Some base)) ops) as [Hw Hbase]; [done|].
  fold staged in Hw, Hbase. cbn in Hw, Hbase.
  assert (Forall valid_write (ops ≫= op_writes)) as Hv.
  { clear -Hops. induction Hops; [done|]. apply Forall_app. by split. }
  destruct (commit_staged base staged) as [committed r] eqn:E.
  unfold commit_staged, Staged_Writes in E. rewrite Hw in E.
  assert (r = Ok tt) as ->.
  { pose proof (SetBatch_total LevelDB_SetBatch base _ eq_refl I Hv) as Ht. by rewrite E in Ht. }
  exists committed. split; [done|]. split.
  - intros k. rewrite run_ops_db by done. unfold LevelDB_SetBatch in E.
    cbn [ctx_guard mbind result_bind] in E. rewrite build_batch_Ok in E by done.
    exact (db_Write_spec _ _ _ _ E k).
  - intros ns Hns. unfold Staged_Root. rewrite Hbase, Hw. by apply RootWithWrites_spec.
Qed.

(** Whatever operations a block performs on the staged store, committing
    its writes succeeds and gives a database that answers every read as the
    staged store did, that holds what the same operations on the database
    itself would have left, and whose state roots are those the staged store
    reported before the commit. *)
Theorem staged_commit (order : MapOrder bytes bytes) (base : D) (ops : list StoreOp) :
  Forall valid_op ops →
  let staged := run_ops (NewStagedStore (Some base)) ops in
  ∃ committed, commit_staged base staged = (committed, Ok tt) ∧
    (∀ ns k, valid_namespace ns → k ≠ [] →
       Staged_Get staged None ns k = LevelDB_Get committed None ns k ∧
       LevelDB_Get (run_ops base ops) None ns k = LevelDB_Get committed None ns k) ∧
    (∀ ns, valid_namespace ns →
       Staged_Root (Some (LevelDB_RootWithWrites order)) (Some LevelDB_Root) staged None ns =
       LevelDB_Root committed None ns).
Proof.
  intros Hops staged. destruct (commit_staged_db order base ops Hops) as (committed & HC & Hdb & Hroot).
  exists committed. split; [exact HC|]. split; [|exact Hroot]. intros ns k Hns Hk.
  destruct (run_ops_content (NewStagedStore (Some base)) ops) as [Hsok Hsc];
    [done|by apply NewStagedStore_ok|done|]. fold staged in Hsok, Hsc.
  destruct (run_ops_content base ops) as [_ Hdc]; [done..|].
  assert (content committed ns k = content (run_ops base ops) ns k) as Hcc by apply Hdb.
  change (Staged_Get ?s) with (store_Get s). change (LevelDB_Get ?s) with (store_Get s).
  rewrite !Get_total, Hcc by done. by rewrite (Hsc ns k), (Hdc ns k) by done.
Qed.
End commit.

(** ** A concrete run *)

Module StagedExample.
Definition db0 : gmap bytes bytes :=
  (LevelDB_Set ∅ None "bank" (bytes_of_string "alice") [x05]).1.
Definition block_ops : list StoreOp :=
  [OpSet "bank" (bytes_of_string "bob") [x07];
   OpDelete "bank" (bytes_of_string "alice");
   OpBatch [mkWrite "auth" (bytes_of_string "nonce/bob") [x01] false;
            mkWrite "bank" (bytes_of_string "bob") [x08] false]].

Lemma block_ops_valid : Forall valid_op block_ops.
Proof. apply (bool_decide_eq_true_1 (Forall valid_op block_ops)). vm_compute. reflexivity. Qed.

Lemma staged_bank_valid : valid_namespace "bank".
Proof. split; [done|reflexivity]. Qed.

Lemma staged_commit_witness :
  ∃ committed,
    commit_staged db0 (run_ops (NewStagedStore (Some db0)) block_ops) = (committed, Ok tt) ∧
    Staged_Get (run_ops (NewStagedStore (Some db0)) block_ops) None "bank" (bytes_of_string "bob") =
      LevelDB_Get committed None "bank" (bytes_of_string "bob") ∧
    Staged_Root (Some (LevelDB_RootWithWrites canonical_order)) (Some LevelDB_Root)
      (run_ops (NewStagedStore (Some db0)) block_ops) None "bank" = LevelDB_Root committed None "bank".
Proof.
  destruct (staged_commit canonical_order db0 block_ops block_ops_valid)
    as (committed & H1 & H2 & H3).
  exists committed. split; [exact H1|]. split.
  - exact (proj1 (H2 "bank" (bytes_of_string "bob") staged_bank_valid ltac:(discriminate))).
  - exact (H3 "bank" staged_bank_valid).
Defined.
End StagedExample.
