(* ===== verification/Bank.v ===== *)
(** * Gas meter and bank module ([src/app/gas.go], [src/modules/bank/bank.go])

    Balances are unsigned integers of at most 256 bits, kept as bytes under a
    key of the account address; Ethereum addresses are normalised.  The module
    works on any store of the interface in Store.v.  [big.Int] pointers are
    integers: every operation refuses a nil amount as it refuses zero. *)

From S2P Require Import Prelude GoLib Sha256 Merkle Types Strconv TxTags Text Economics Address CanonicalTx.
From S2P Require Import SignBytes StateProof Store Staged.

(** ** Gas *)

Definition ErrOutOfGas := ErrNew "app.ErrOutOfGas".

Record GasMeter := mkGasMeter {
  gas_limit : Z;
  gas_used : Z
}.

Definition NewGasMeter (limit : Z) : GasMeter := mkGasMeter limit 0.

(** [GasMeter.Consume]; a nil meter accepts everything. *)
Definition Gas_Consume (meter : option GasMeter) (amount : Z) : option GasMeter * result unit :=
  match meter with
  | None => (None, Ok tt)
  | Some m =>
      if bool_decide (amount = 0) then (meter, Ok tt)
      else if bool_decide (wrap64 (max_u64 - amount) < gas_used m) then (meter, Err ErrOutOfGas)
      else
        let next := wrap64 (gas_used m + amount) in
        if bool_decide (0 < gas_limit m) && bool_decide (gas_limit m < next)
        then (meter, Err ErrOutOfGas)
        else (Some (mkGasMeter (gas_limit m) next), Ok tt)
  end.

Definition Gas_Used (meter : option GasMeter) : Z :=
  match meter with None => 0 | Some m => gas_used m end.
Definition Gas_Limit (meter : option GasMeter) : Z :=
  match meter with None => 0 | Some m => gas_limit m end.

(** ** Bank *)

Definition BankName : string := "bank".
Definition mintGasCost : Z := 10.
Definition sendGasCost : Z := 10.

Definition ErrInvalidGenesisBalance := ErrNew "bank.ErrInvalidGenesisBalance".
Definition ErrInvalidBankTx := ErrNew "bank.ErrInvalidBankTx".
Definition ErrInsufficientFunds := ErrNew "bank.ErrInsufficientFunds".
Definition ErrBalanceOverflow := ErrNew "bank.ErrBalanceOverflow".
Definition ErrUnauthorizedMint := ErrNew "bank.ErrUnauthorizedMint".
Definition ErrMissingBankStore := ErrNew "errors.New(missing bank store)".

Record BankModule := mkBankModule { mintAuthority : Address }.

(** The key of an account: a hexadecimal address of at most twenty bytes is
    padded and written in lower case. *)
Definition balanceKey (address : Address) : bytes :=
  let clean := trim_prefix address "0x" in
  let clean := if Nat.odd (String.length clean) then String "0" clean else clean in
  match hex_decode clean with
  | None => bytes_of_string address
  | Some decoded =>
      if bool_decide (20 < length decoded)%nat || negb (has_prefix address "0x")
      then bytes_of_string address
      else bytes_of_string ("0x" ++ hex_encode (replicate (20 - length decoded) x00 ++ decoded))
  end.

Definition encodeBalance (balance : Z) : bytes := be64 balance.

Definition encodeBalanceBig (balance : Z) : bytes :=
  if bool_decide (balance = 0) then replicate 8 x00
  else if bool_decide (is_u64 balance) then encodeBalance balance
  else big_bytes balance.

(** [bank.parseAmountBig] *)
Definition bank_parseAmountBig (value : string) : result Z :=
  match ParseAmountBig value with
  | Err _ => Err ErrInvalidBankTx
  | Ok amount =>
      if bool_decide (amount ≤ 0) || bool_decide (256 < bit_len amount) then Err ErrInvalidBankTx
      else Ok amount
  end.

Definition str_contains_eq (part : string) : bool := str_elem "=" part.

(** The parts of the payload without the tags. *)
Definition bankTxParts (tx : Tx) : list string :=
  filter (λ part, str_contains_eq part = false) (str_split ":" (string_of_bytes tx)).

Section bank.
Context {S : Type} `{!StateStore S}.

(** The stored bytes of an account: under its key, or under its raw address. *)
Definition read_balance (store : S) (ctx : Ctx) (address : Address) : result (option bytes) :=
  match store_Get store ctx BankName (balanceKey address) with
  | Ok value => Ok (Some value)
  | Err e =>
      if errors_is e ErrKeyNotFound then
        match store_Get store ctx BankName (bytes_of_string address) with
        | Ok value => Ok (Some value)
        | Err e => if errors_is e ErrKeyNotFound then Ok None else Err e
        end
      else Err e
  end.

Definition BalanceBig (store : S) (ctx : Ctx) (address : Address) : result Z :=
  value ← read_balance store ctx address;
  match value with
  | None => Ok 0
  | Some value =>
      if bool_decide (length value = 0%nat) then Ok 0
      else if bool_decide (32 < length value)%nat then Err ErrInvalidGenesisBalance
      else Ok (be_decode value)
  end.

(** [bank.Balance] *)
Definition Bank_Balance (store : S) (ctx : Ctx) (address : Address) : result Z :=
  balance ← BalanceBig store ctx address;
  check ErrBalanceOverflow (bool_decide (is_u64 balance)) ≫= λ _, Ok balance.

Definition setBalanceBig (store : S) (ctx : Ctx) (address : Address) (balance : Z)
    : S * result unit :=
  if bool_decide (balance < 0) || bool_decide (256 < bit_len balance)
  then (store, Err ErrBalanceOverflow)
  else store_Set store ctx BankName (balanceKey address) (encodeBalanceBig balance).

Definition mint (store : S) (ctx : Ctx) (to : Address) (amount : Z) : S * result unit :=
  if bool_decide (to = "") || bool_decide (amount ≤ 0) then (store, Err ErrInvalidBankTx)
  else
    match BalanceBig store ctx to with
    | Err e => (store, Err e)
    | Ok balance =>
        let next := balance + amount in
        if bool_decide (256 < bit_len next) then (store, Err ErrBalanceOverflow)
        else setBalanceBig store ctx to next
    end.

(** The checks of [send]: the new balances of sender and receiver. *)
Definition send_balances (store : S) (ctx : Ctx) (from to : Address) (amount : Z)
    : result (Z * Z) :=
  check ErrInvalidBankTx
    (negb (bool_decide (from = "") || bool_decide (to = "") || bool_decide (amount ≤ 0))) ≫= λ _,
  fromBalance ← BalanceBig store ctx from;
  check ErrInsufficientFunds (negb (bool_decide (fromBalance < amount))) ≫= λ _,
  toBalance ← BalanceBig store ctx to;
  let nextToBalance := toBalance + amount in
  check ErrBalanceOverflow (negb (bool_decide (256 < bit_len nextToBalance))) ≫= λ _,
  Ok (fromBalance - amount, nextToBalance).

Definition send (store : S) (ctx : Ctx) (from to : Address) (amount : Z) : S * result unit :=
  match send_balances store ctx from to amount with
  | Err e => (store, Err e)
  | Ok (nextFromBalance, nextToBalance) =>
      match store_SetBatch with
      | Some batch =>
          batch store ctx
            [mkWrite BankName (balanceKey from) (encodeBalanceBig nextFromBalance) false;
             mkWrite BankName (balanceKey to) (encodeBalanceBig nextToBalance) false]
      | None =>
          match setBalanceBig store ctx from nextFromBalance with
          | (store, Err e) => (store, Err e)
          | (store, Ok _) => setBalanceBig store ctx to nextToBalance
          end
      end
  end.

(** The loop of [InitGenesis] over the genesis entries, in some order. *)
Fixpoint init_balances (store : S) (ctx : Ctx) (entries : list (string * bytes))
    : S * result unit :=
  match entries with
  | [] => (store, Ok tt)
  | (rawAddress, rawBalance) :: entries =>
      if negb (has_prefix rawAddress (BankName ++ ":")) then init_balances store ctx entries
      else
        match bank_parseAmountBig (string_of_bytes rawBalance) with
        | Err _ => (store, Err (ErrWrap [ErrInvalidGenesisBalance] rawAddress))
        | Ok balance =>
            match setBalanceBig store ctx (trim_prefix rawAddress (BankName ++ ":")) balance with
            | (store, Err e) => (store, Err e)
            | (store, Ok _) => init_balances store ctx entries
            end
        end
  end.

(** [Module.InitGenesis]; without a store it does nothing. *)
Definition Bank_InitGenesis (order : MapOrder string bytes) (store : option S) (ctx : Ctx)
    (genesis : gmap string bytes) : option S * result unit :=
  match store with
  | None => (None, Ok tt)
  | Some store => let '(store, r) := init_balances store ctx (order genesis) in (Some store, r)
  end.


Definition authorizeMint (module : BankModule) (tx : Tx) : result unit :=
  if bool_decide (mintAuthority module = "") then Ok tt
  else match TxTag tx "signer" with
       | None => Err ErrUnauthorizedMint
       | Some signer => check ErrUnauthorizedMint (bool_decide (signer = mintAuthority module))
       end.

(** [err.Error()] *)
Context (error_text : error → string).

Definition result_code (code : Z) (log : string) : Result := mkResult code log [] 0 0.

(** [Module.DeliverTx]: the store and gas meter after it, and the result. *)
Definition Bank_DeliverTx (module : BankModule) (store : option S) (gas : option GasMeter)
    (ctx : Ctx) (tx : Tx) : option S * option GasMeter * Result :=
  match store with
  | None => (None, gas, result_code 1 "missing bank store")
  | Some st =>
      let invalid := (store, gas, result_code 2 (error_text ErrInvalidBankTx)) in
      match bankTxParts tx with
      | name :: rest =>
          if bool_decide (name ≠ BankName) then invalid
          else
            match rest with
            | [action; to; value] =>
                if bool_decide (action = "mint") then
                  let '(gas, r) := Gas_Consume gas mintGasCost in
                  match r with
                  | Err e => (store, gas, result_code 5 (error_text e))
                  | Ok _ =>
                      match bank_parseAmountBig value with
                      | Err e => (store, gas, result_code 3 (error_text e))
                      | Ok amount =>
                          match authorizeMint module tx with
                          | Err e => (store, gas, result_code 4 (error_text e))
                          | Ok _ =>
                              match mint st ctx to amount with
                              | (st, Err e) => (Some st, gas, result_code 4 (error_text e))
                              | (st, Ok _) => (Some st, gas, result_code 0 "")
                              end
                          end
                      end
                  end
                else invalid
            | [action; from; to; value] =>
                if bool_decide (action = "send") then
                  let '(gas, r) := Gas_Consume gas sendGasCost in
                  match r with
                  | Err e => (store, gas, result_code 5 (error_text e))
                  | Ok _ =>
                      match bank_parseAmountBig value with
                      | Err e => (store, gas, result_code 3 (error_text e))
                      | Ok amount =>
                          match send st ctx from to amount with
                          | (st, Err e) => (Some st, gas, result_code 4 (error_text e))
                          | (st, Ok _) => (Some st, gas, result_code 0 "")
                          end
                      end
                  end
                else invalid
            | _ => invalid
            end
      | [] => invalid
      end
  end.

(** [Module.EstimateGas] *)
Definition Bank_EstimateGas (tx : Tx) : result Z :=
  match bankTxParts tx with
  | [_; action; _; _] => check ErrInvalidBankTx (bool_decide (action = "mint")) ≫= λ _, Ok mintGasCost
  | [_; action; _; _; _] =>
      check ErrInvalidBankTx (bool_decide (action = "send")) ≫= λ _, Ok sendGasCost
  | _ => Err ErrInvalidBankTx
  end.

(** [Module.Query]: code, value and log. *)
Definition Bank_Query (store : option S) (ctx : Ctx) (path : list string) : Z * bytes * string :=
  match store with
  | None => (1, [], "missing bank store")
  | Some store =>
      match path with
      | [kind; address] =>
          if bool_decide (kind ≠ "balance") || bool_decide (address = "")
          then (2, [], "invalid bank query")
          else match BalanceBig store ctx address with
               | Err e => (3, [], error_text e)
               | Ok balance => (0, bytes_of_string (format_uint balance), "")
               end
      | _ => (2, [], "invalid bank query")
      end
  end.
End bank.

(** ** Encoding of balances *)

Lemma encodeBalanceBig_decode balance : 0 ≤ balance → be_decode (encodeBalanceBig balance) = balance.
Proof.
  intros Hb. unfold encodeBalanceBig. case_bool_decide; [by subst|]. case_bool_decide as Hu.
  - by apply be64_decode.
  - by apply big_bytes_decode.
Qed.

Lemma encodeBalanceBig_length balance :
  0 ≤ balance < 2 ^ 256 → (length (encodeBalanceBig balance) ≤ 32)%nat.
Proof.
  intros Hb. unfold encodeBalanceBig. case_bool_decide; [cbn; lia|]. case_bool_decide.
  - unfold encodeBalance. rewrite be64_length. lia.
  - by apply big_bytes_length.
Qed.

Lemma bank_valid : valid_namespace BankName.
Proof. by split. Qed.

Lemma bytes_of_string_nonempty s : s ≠ "" → bytes_of_string s ≠ [].
Proof. intros Hs Hb. apply Hs. by rewrite <-(string_of_bytes_of_string s), Hb. Qed.

#[global] Hint Resolve bytes_of_string_nonempty : core.

Lemma balanceKey_nonempty address : address ≠ "" → balanceKey address ≠ [].
Proof.
  intros Ha%bytes_of_string_nonempty. unfold balanceKey. destruct (hex_decode _); [|done]. by destruct (_ || _).
Qed.

#[global] Hint Resolve bank_valid balanceKey_nonempty : core.

(** ** Balances in a store *)

(** The value stored under a key of the bank. *)
Definition key_balance (c : Content) (key : bytes) : Z :=
  match c BankName key with Some v => be_decode v | None => 0 end.
Definition balance_of (c : Content) (address : Address) : Z := key_balance c (balanceKey address).

(** No value from before the normalisation of addresses shadows the account. *)
Definition no_legacy (c : Content) (address : Address) : Prop :=
  balanceKey address = bytes_of_string address ∨ c BankName (bytes_of_string address) = None.

Definition stored_ok (c : Content) (address : Address) : Prop :=
  match c BankName (balanceKey address) with Some v => (length v ≤ 32)%nat | None => True end.

Lemma key_balance_write c ns key value key' :
  key_balance (write_content (mkWrite ns key value false) c) key' =
    if decide (ns = BankName ∧ key = key') then be_decode value else key_balance c key'.
Proof.
  unfold key_balance, write_content. cbn [KW_Namespace KW_Key KW_Value KW_Delete].
  by case_decide.
Qed.

Lemma key_balance_nonneg c key : 0 ≤ key_balance c key.
Proof.
  unfold key_balance. destruct (c BankName key) as [v|]; [|done]. apply be_decode_range.
Qed.

Section balances.
Context {S : Type} `{LawfulStore S}.

Lemma BalanceBig_Ok s ctx address balance :
  store_ok s → ctx_ok ctx → address ≠ "" → no_legacy (content s) address →
  BalanceBig s ctx address = Ok balance →
  balance = balance_of (content s) address ∧ 0 ≤ balance < 2 ^ 256.
Proof.
  intros Hok Hctx Ha Hleg HB. unfold BalanceBig in HB. apply bind_Ok in HB as (value & HR & HB).
  assert (value = content s BankName (balanceKey address)) as ->.
  { unfold read_balance in HR.
    destruct (store_Get s ctx BankName (balanceKey address)) as [v|e] eqn:E1.
    { injection HR as <-. symmetry. by eapply Get_Ok; [|auto..|exact E1]. }
    destruct (errors_is e ErrKeyNotFound) eqn:Ee; [|done].
    assert (content s BankName (balanceKey address) = None) as Hn
      by (by eapply Get_missing; [| |auto..|exact E1|exact Ee]).
    rewrite Hn. destruct (store_Get s ctx BankName (bytes_of_string address)) as [v|e'] eqn:E2.
    - exfalso. apply Get_Ok in E2; [|auto..]. destruct Hleg as [Heq|Hnone]; congruence.
    - destruct (errors_is e' ErrKeyNotFound); [by injection HR as <-|done]. }
  unfold balance_of, key_balance. destruct (content s BankName (balanceKey address)) as [v|].
  - case_bool_decide as H0; [apply nil_length_inv in H0 as ->; by injection HB as <-|].
    case_bool_decide as H32; [done|]. injection HB as <-. split; [done|].
    pose proof (be_decode_range v) as [? Hr]. split; [done|]. eapply Z.lt_le_trans; [exact Hr|].
    change (2 ^ 256) with (256 ^ 32). apply Z.pow_le_mono_r; lia.
  - by injection HB as <-.
Qed.

Lemma BalanceBig_total `{!ReliableStore S} s address :
  store_ok s → address ≠ "" → no_legacy (content s) address → stored_ok (content s) address →
  BalanceBig s None address = Ok (balance_of (content s) address).
Proof.
  intros Hok Ha Hleg Hst. unfold BalanceBig, read_balance, balance_of, key_balance, stored_ok in *.
  rewrite Get_total by auto. destruct (content s BankName (balanceKey address)) as [v|] eqn:E.
  - cbn. case_bool_decide as H0; [by apply nil_length_inv in H0 as ->|].
    by rewrite bool_decide_eq_false_2 by lia.
  - cbn. rewrite Get_total by auto. destruct Hleg as [Heq|Hn]; [by rewrite <-Heq, E|by rewrite Hn].
Qed.
End balances.

(** ** Transfers *)

Section transfers.
Context {S : Type} `{ReliableStore S}.

(** The two writes of a transfer. *)
Definition transfer_writes (from to : Address) (nextFrom nextTo : Z) : list KVWrite :=
  [mkWrite BankName (balanceKey from) (encodeBalanceBig nextFrom) false;
   mkWrite BankName (balanceKey to) (encodeBalanceBig nextTo) false].

Lemma transfer_writes_valid from to nextFrom nextTo :
  from ≠ "" → to ≠ "" → Forall valid_write (transfer_writes from to nextFrom nextTo).
Proof. intros Hf Ht. repeat constructor; cbn; auto. Qed.

Lemma send_balances_Ok s ctx from to amount nextFrom nextTo :
  store_ok s → ctx_ok ctx → no_legacy (content s) from → no_legacy (content s) to →
  send_balances s ctx from to amount = Ok (nextFrom, nextTo) →
  from ≠ "" ∧ to ≠ "" ∧ 0 < amount ≤ balance_of (content s) from ∧
  nextFrom = balance_of (content s) from - amount ∧
  nextTo = balance_of (content s) to + amount ∧ nextTo < 2 ^ 256.
Proof.
  intros Hok Hctx Hlf Hlt HS. unfold send_balances in HS.
  apply bind_Ok in HS as (_ & Hg%check_Ok & HS).
  rewrite negb_true_iff, !orb_false_iff, !bool_decide_eq_false in Hg. destruct Hg as [[Hf Ht] Ha].
  apply bind_Ok in HS as (bf & Hbf & HS). apply bind_Ok in HS as (_ & Hge%check_Ok & HS).
  apply bind_Ok in HS as (bt & Hbt & HS). apply bind_Ok in HS as (_ & Hlen%check_Ok & HS).
  injection HS as <- <-. apply BalanceBig_Ok in Hbf as [-> _]; [|done..].
  apply BalanceBig_Ok in Hbt as [-> Hr]; [|done..].
  rewrite negb_true_iff, bool_decide_eq_false in Hge, Hlen.
  split_and!; [done|done|lia|lia|done|done|]. apply bit_len_le; lia.
Qed.

Lemma send_balances_total s from to amount :
  store_ok s → no_legacy (content s) from → no_legacy (content s) to →
  stored_ok (content s) from → stored_ok (content s) to → from ≠ "" → to ≠ "" →
  0 < amount ≤ balance_of (content s) from → balance_of (content s) to + amount < 2 ^ 256 →
  send_balances s None from to amount =
    Ok (balance_of (content s) from - amount, balance_of (content s) to + amount).
Proof.
  intros Hok Hlf Hlt Hsf Hst Hf Ht Ha Hlt'. unfold send_balances.
  rewrite !BalanceBig_total by done. bool_decide_all. cbn [orb negb check mbind result_bind].
  rewrite (bool_decide_eq_false_2 (_ < amount)) by lia. cbn [negb check mbind result_bind].
  pose proof (key_balance_nonneg (content s) (balanceKey to)) as Hn.
  assert (bit_len (balance_of (content s) to + amount) ≤ 256) by (apply bit_len_le; unfold balance_of in *; lia).
  by rewrite bool_decide_eq_false_2 by lia.
Qed.

(** What a transfer does to the store. *)
Lemma send_spec s ctx from to amount s' r :
  store_ok s → ctx_ok ctx → store_SetBatch (S:=S) ≠ None →
  no_legacy (content s) from → no_legacy (content s) to →
  send s ctx from to amount = (s', r) →
  store_ok s' ∧
  match r with
  | Ok _ =>
      from ≠ "" ∧ to ≠ "" ∧ 0 < amount ≤ balance_of (content s) from ∧
      balance_of (content s) to + amount < 2 ^ 256 ∧
      same_content (content s')
        (writes_content (transfer_writes from to (balance_of (content s) from - amount)
                           (balance_of (content s) to + amount)) (content s))
  | Err _ => same_content (content s') (content s)
  end.
Proof.
  intros Hok Hctx Hb Hlf Hlt HS. unfold send in HS.
  destruct (send_balances s ctx from to amount) as [[nf nt]|e] eqn:E; last by injection HS as <- <-.
  apply send_balances_Ok in E as (Hf & Ht & Ha & -> & -> & Hr); [|done..].
  destruct (store_SetBatch (S:=S)) as [batch|] eqn:Eb; [|done].
  apply (SetBatch_spec batch) in HS as [Hok' Hc]; [|done|done|by apply transfer_writes_valid].
  split; [done|]. destruct r; cbn [is_ok] in Hc; [split_and!; (done || lia)|done].
Qed.

Lemma send_total batch s from to amount :
  store_SetBatch = Some batch → store_ok s →
  no_legacy (content s) from → no_legacy (content s) to →
  stored_ok (content s) from → stored_ok (content s) to → from ≠ "" → to ≠ "" →
  0 < amount ≤ balance_of (content s) from → balance_of (content s) to + amount < 2 ^ 256 →
  (send s None from to amount).2 = Ok tt.
Proof.
  intros Eb Hok Hlf Hlt Hsf Hst Hf Ht Ha Hr. unfold send. rewrite send_balances_total, Eb by done.
  apply SetBatch_total; [done|done|by apply transfer_writes_valid].
Qed.

(** The balance under a key after a transfer. *)
Lemma transfer_balance (c c' : Content) from to nextFrom nextTo key :
  same_content c' (writes_content (transfer_writes from to nextFrom nextTo) c) →
  0 ≤ nextFrom → 0 ≤ nextTo → key ≠ [] →
  key_balance c' key =
    if decide (balanceKey to = key) then nextTo
    else if decide (balanceKey from = key) then nextFrom else key_balance c key.
Proof.
  intros Hc Hf Ht Hk.
  assert (key_balance c' key =
    key_balance (writes_content (transfer_writes from to nextFrom nextTo) c) key) as ->.
  { unfold key_balance. by rewrite Hc by auto. }
  unfold transfer_writes, writes_content. cbn [foldl]. rewrite !key_balance_write.
  rewrite !encodeBalanceBig_decode by done.
  destruct (decide (balanceKey to = key)), (decide (balanceKey from = key));
    repeat case_decide; naive_solver.
Qed.

(** A sum over distinct keys changes by the changes at two of them. *)
Lemma sum_two_changes (f g : bytes → Z) keys k1 k2 d :
  NoDup keys → k1 ∈ keys → k2 ∈ keys → k1 ≠ k2 →
  g k1 = f k1 - d → g k2 = f k2 + d → (∀ k, k ∈ keys → k ≠ k1 → k ≠ k2 → g k = f k) →
  sumZ (g <$> keys) = sumZ (f <$> keys).
Proof.
  intros Hnd H1 H2 Hne Hk1 Hk2 Hk.
  apply elem_of_Permutation in H1 as [keys1 Hp1]. rewrite Hp1 in H2, Hnd.
  apply elem_of_cons in H2 as [->|H2]; [done|]. apply elem_of_Permutation in H2 as [keys2 Hp2].
  rewrite Hp1, Hp2. rewrite Hp2 in Hnd. rewrite !fmap_cons, !sumZ_cons, Hk1, Hk2.
  assert (g <$> keys2 = f <$> keys2) as ->; [|lia].
  apply NoDup_cons in Hnd as [Hn1 Hnd]. apply NoDup_cons in Hnd as [Hn2 _].
  apply list_fmap_ext. intros i k Hi. apply list_elem_of_lookup_2 in Hi. apply Hk.
  - rewrite Hp1, Hp2. by do 2 right.
  - intros ->. apply Hn1. by right.
  - by intros ->.
Qed.

(** A transfer between two accounts conserves money.  Whatever the context
    and the outcome, the sum of the balances over any set of keys with both
    accounts stays the same; a transfer that succeeds moves exactly the amount,
    which the sender had, one that fails changes no balance; and it succeeds
    when the sender has the amount and the receiver can hold it. *)
Theorem transfer_conserves batch s ctx from to amount s' r :
  store_SetBatch = Some batch → store_ok s → ctx_ok ctx →
  no_legacy (content s) from → no_legacy (content s) to → balanceKey from ≠ balanceKey to →
  send s ctx from to amount = (s', r) →
  store_ok s' ∧
  (∀ keys, NoDup keys → balanceKey from ∈ keys → balanceKey to ∈ keys → [] ∉ keys →
     sumZ (key_balance (content s') <$> keys) = sumZ (key_balance (content s) <$> keys)) ∧
  match r with
  | Ok _ =>
      0 < amount ≤ balance_of (content s) from ∧
      balance_of (content s') from = balance_of (content s) from - amount ∧
      balance_of (content s') to = balance_of (content s) to + amount
  | Err _ => ∀ key, key ≠ [] → key_balance (content s') key = key_balance (content s) key
  end ∧
  (ctx = None → from ≠ "" → to ≠ "" → stored_ok (content s) from → stored_ok (content s) to →
   0 < amount ≤ balance_of (content s) from → balance_of (content s) to + amount < 2 ^ 256 →
   r = Ok tt).
Proof.
  intros Eb Hok Hctx Hlf Hlt Hne HS.
  destruct (send_spec s ctx from to amount s' r) as [Hok' Hr]; [done|done|by rewrite Eb|done..|].
  split; [done|].
  assert (ctx = None → from ≠ "" → to ≠ "" → stored_ok (content s) from →
    stored_ok (content s) to → 0 < amount ≤ balance_of (content s) from →
    balance_of (content s) to + amount < 2 ^ 256 → r = Ok tt) as Htot.
  { intros -> Hf Ht Hsf Hst Ha Hb.
    pose proof (send_total batch s from to amount Eb Hok Hlf Hlt Hsf Hst Hf Ht Ha Hb) as Hx.
    by rewrite HS in Hx. }
  destruct r as [u|e].
  - destruct Hr as (Hf & Ht & Ha & Hb & Hc).
    pose proof (key_balance_nonneg (content s) (balanceKey to)) as Hn.
    assert (∀ key, key ≠ [] → key_balance (content s') key = _) as Hkey
      by (intros key Hk; apply (transfer_balance _ _ _ _ _ _ key Hc);
          [lia|unfold balance_of in *; lia|done]).
    split; [|split; [split; [done|split]|done]].
    + intros keys Hnd Hkf Hkt Hnil.
      apply (sum_two_changes _ _ _ (balanceKey from) (balanceKey to) amount); try done.
      * rewrite Hkey by auto. by rewrite decide_False, decide_True.
      * rewrite Hkey by auto. by rewrite decide_True.
      * intros k Hk H1 H2. rewrite Hkey by (by intros ->). by rewrite !decide_False.
    + unfold balance_of. rewrite Hkey by auto. by rewrite decide_False, decide_True.
    + unfold balance_of. rewrite Hkey by auto. by rewrite decide_True.
  - assert (∀ key, key ≠ [] → key_balance (content s') key = key_balance (content s) key) as Hsame.
    { intros key Hk. unfold key_balance. by rewrite Hr by auto. }
    split_and!; [|done|done]. intros keys _ _ _ Hnil. f_equal. apply list_fmap_ext.
    intros i k Hi. apply list_elem_of_lookup_2 in Hi. apply Hsame. by intros ->.
Qed.

(** What a [bank:send] transaction does, whatever its tags.  No signature,
    signer or other tag is consulted: with enough money in [from] the transfer
    succeeds.  The receiver gains the amount, also when sender and receiver are
    the same account, which then loses nothing. *)
Theorem deliver_send error_text module batch s gas tx from to value amount :
  store_SetBatch = Some batch → store_ok s →
  bankTxParts tx = [BankName; "send"; from; to; value] →
  bank_parseAmountBig value = Ok amount → (Gas_Consume gas sendGasCost).2 = Ok tt →
  from ≠ "" → to ≠ "" → no_legacy (content s) from → no_legacy (content s) to →
  stored_ok (content s) from → stored_ok (content s) to →
  0 < amount ≤ balance_of (content s) from → balance_of (content s) to + amount < 2 ^ 256 →
  ∃ s', Bank_DeliverTx error_text module (Some s) gas None tx =
      (Some s', (Gas_Consume gas sendGasCost).1, result_code 0 "") ∧
    balance_of (content s') to = balance_of (content s) to + amount ∧
    (balanceKey from ≠ balanceKey to →
     balance_of (content s') from = balance_of (content s) from - amount).
Proof.
  intros Eb Hok Hparts Hval Hgas Hf Ht Hlf Hlt Hsf Hst Ha Hr.
  pose proof (send_total batch s from to amount Eb Hok Hlf Hlt Hsf Hst Hf Ht Ha Hr) as Htot.
  destruct (send s None from to amount) as [s' r] eqn:HS. cbn in Htot. subst r.
  destruct (send_spec s None from to amount s' (Ok tt)) as [_ (_ & _ & _ & _ & Hc)];
    [done|done|by rewrite Eb|done..|].
  exists s'. split.
  - unfold Bank_DeliverTx. rewrite Hparts, (bool_decide_eq_false_2 (BankName ≠ BankName))
      by (intros Hn; by apply Hn). rewrite bool_decide_eq_true_2 by done.
    destruct (Gas_Consume gas sendGasCost) as [gas' rg]. cbn in Hgas. subst rg. cbn [fst].
    by rewrite Hval, HS.
  - pose proof (key_balance_nonneg (content s) (balanceKey to)) as Hn.
    unfold balance_of at 1 3. rewrite !(transfer_balance _ _ _ _ _ _ _ Hc)
      by (auto || unfold balance_of in *; lia).
    rewrite decide_True by done. split; [done|]. intros Hne. by rewrite decide_False, decide_True.
Qed.
End transfers.

(** ** Concrete transfers *)

Module BankExample.
Definition bank0 : gmap bytes bytes := (setBalanceBig (∅ : gmap bytes bytes) None "alice" 10).1.
Definition after_send : gmap bytes bytes := (send bank0 None "alice" "bob" 3).1.

Lemma alice_legacy : no_legacy (content bank0) "alice".
Proof. left. vm_compute. reflexivity. Qed.
Lemma bob_legacy : no_legacy (content bank0) "bob".
Proof. left. vm_compute. reflexivity. Qed.
Lemma alice_stored : stored_ok (content bank0) "alice".
Proof.
  assert (content bank0 BankName (balanceKey "alice") = Some [x00; x00; x00; x00; x00; x00; x00; x0a])
    as He by (vm_compute; reflexivity).
  unfold stored_ok. rewrite He. cbn. lia.
Qed.
Lemma alice_balance : balance_of (content bank0) "alice" = 10.
Proof. vm_compute. reflexivity. Qed.
Lemma send_succeeds : (send bank0 None "alice" "bob" 3).2 = Ok tt.
Proof. vm_compute. reflexivity. Qed.
Lemma pair_eta {A B} (p : A * B) b : p.2 = b → p = (p.1, b).
Proof. intros <-. by destruct p. Qed.
Lemma send_runs : send bank0 None "alice" "bob" 3 = (after_send, Ok tt).
Proof. exact (pair_eta _ _ send_succeeds). Qed.

Lemma transfer_conserves_witness :
  sumZ (key_balance (content after_send) <$> [balanceKey "alice"; balanceKey "bob"]) =
  sumZ (key_balance (content bank0) <$> [balanceKey "alice"; balanceKey "bob"]) ∧
  balance_of (content after_send) "alice" = balance_of (content bank0) "alice" - 3.
Proof.
  destruct (@transfer_conserves (gmap bytes bytes) _ _ _ LevelDB_SetBatch bank0 None "alice" "bob" 3
    after_send (Ok tt)) as (_ & Hsum & (_ & Hfrom & _) & _);
    [reflexivity|exact I|exact I|exact alice_legacy|exact bob_legacy|discriminate|exact send_runs|].
  split; [apply Hsum|exact Hfrom].
  - apply (bool_decide_eq_true_1 (NoDup [balanceKey "alice"; balanceKey "bob"])).
    vm_compute. reflexivity.
  - left.
  - right. left.
  - apply (bool_decide_eq_true_1 (([] : bytes) ∉ [balanceKey "alice"; balanceKey "bob"])).
    vm_compute. reflexivity.
Defined.

(** A transaction that somebody else signed sends money of alice to alice. *)
Definition forged : Tx := bytes_of_string "bank:send:alice:alice:5:signer=mallory:nonce=1".

Lemma deliver_send_witness :
  ∃ s', @Bank_DeliverTx _ _ (λ _, "") (mkBankModule "") (Some bank0) None None forged =
      (Some s', None, result_code 0 "") ∧
    balance_of (content s') "alice" = balance_of (content bank0) "alice" + 5.
Proof.
  destruct (@deliver_send (gmap bytes bytes) _ _ _ (λ _, "") (mkBankModule "")
    LevelDB_SetBatch bank0 None forged "alice" "alice" "5" 5) as (s' & H1 & H2 & _).
  - reflexivity.
  - exact I.
  - vm_compute. reflexivity.
  - vm_compute. reflexivity.
  - reflexivity.
  - discriminate.
  - discriminate.
  - exact alice_legacy.
  - exact alice_legacy.
  - exact alice_stored.
  - exact alice_stored.
  - rewrite alice_balance. lia.
  - rewrite alice_balance. reflexivity.
  - exists s'. split; [exact H1|exact H2].
Defined.
End BankExample.
