(* ===== verification/Ante.v ===== *)
(** * Accounts and ante checks ([src/app/account.go], [src/app/ante.go])

    Before a transaction runs its signature, fee, gas and nonce are checked;
    after it ran the fee is collected and the sequence of the signer advances.
    [SetBaseFee] changes the configuration; the other operations read it. *)

From S2P Require Import Prelude GoLib Sha256 Merkle Types Strconv TxTags Text Economics Address CanonicalTx.
From S2P Require Import SignBytes StateProof Store Staged Bank.

Definition ErrInvalidAccountSequence := ErrNew "app.ErrInvalidAccountSequence".
Definition ErrInsufficientFee := ErrNew "app.ErrInsufficientFee".
Definition ErrInsufficientFeeBalance := ErrNew "app.ErrInsufficientFeeBalance".
Definition ErrInvalidGas := ErrNew "app.ErrInvalidGas".
Definition ErrMissingNonce := ErrNew "app.ErrMissingNonce".
Definition ErrInvalidNonce := ErrNew "app.ErrInvalidNonce".

(** ** Accounts *)

Definition AuthName : string := "auth".

Definition nonceKey (signer : Address) : bytes := bytes_of_string ("nonce/" ++ signer).

Section accounts.
Context {S : Type} `{!StateStore S}.

(** [AccountKeeper.Sequence] *)
Definition Account_Sequence (store : option S) (ctx : Ctx) (signer : Address) : result Z :=
  match store with
  | None => Err ErrInvalidAccountSequence
  | Some store =>
      check ErrInvalidAccountSequence (bool_decide (signer ≠ "")) ≫= λ _,
      match store_Get store ctx AuthName (nonceKey signer) with
      | Err e => if errors_is e ErrKeyNotFound then Ok 0 else Err e
      | Ok value =>
          check ErrInvalidAccountSequence (bool_decide (length value = 8%nat)) ≫= λ _,
          Ok (be_decode value)
      end
  end.

(** [AccountKeeper.NextSequence] *)
Definition Account_NextSequence (store : option S) (ctx : Ctx) (signer : Address) : result Z :=
  sequence ← Account_Sequence store ctx signer; Ok (wrap64 (sequence + 1)).

(** [AccountKeeper.SetSequence] *)
Definition Account_SetSequence (store : S) (ctx : Ctx) (signer : Address) (sequence : Z)
    : S * result unit :=
  if bool_decide (signer = "") then (store, Err ErrInvalidAccountSequence)
  else store_Set store ctx AuthName (nonceKey signer) (be64 sequence).
End accounts.

(** ** Configuration and transaction metadata *)

Record AnteConfig := mkAnteConfig {
  Ante_MinFee : Z;
  Ante_BaseFee : Z;
  Ante_MinGas : Z;
  Ante_MaxGas : Z;
  Ante_RequireNonce : bool;
  Ante_FeeCollector : string;
  Ante_RequireSigned : bool;
  Ante_SignatureVerifier : TxVerifier
}.

(** A nil [FeeBig] is [None]. *)
Record TxMeta := mkTxMeta {
  Meta_Signer : Address;
  Meta_Nonce : Z;
  Meta_Fee : Z;
  Meta_FeeBig : option Z;
  Meta_Gas : Z;
  Meta_HasNonce : bool
}.

Definition metaFeeBig (meta : TxMeta) : Z := default (Meta_Fee meta) (Meta_FeeBig meta).

Definition multiplyGasPriceBig (gas baseFee : Z) : Z := gas * baseFee.

Definition validateMeta (config : AnteConfig) (meta : TxMeta) : result unit :=
  let fee := metaFeeBig meta in
  check ErrInsufficientFee
    (negb (bool_decide (0 < Ante_MinFee config) && bool_decide (fee < Ante_MinFee config))) ≫= λ _,
  (if bool_decide (0 < Ante_BaseFee config) then
     check ErrInvalidGas (bool_decide (Meta_Gas meta ≠ 0)) ≫= λ _,
     check ErrInsufficientFee
       (negb (bool_decide (fee < multiplyGasPriceBig (Meta_Gas meta) (Ante_BaseFee config))))
   else Ok tt) ≫= λ _,
  check ErrInvalidGas
    (negb (bool_decide (0 < Ante_MinGas config) && bool_decide (Meta_Gas meta < Ante_MinGas config)))
    ≫= λ _,
  check ErrInvalidGas
    (negb (bool_decide (0 < Ante_MaxGas config) && bool_decide (Ante_MaxGas config < Meta_Gas meta)))
    ≫= λ _,
  check ErrMissingNonce
    (negb (Ante_RequireNonce config &&
           (bool_decide (Meta_Signer meta = "") || negb (Meta_HasNonce meta)))).

(** The balance functions of the ante package: [bankBalanceKey] and
    [encodeBankBalanceBig] repeat those of the bank module. *)
Definition bankBalanceKey (address : Address) : bytes :=
  if negb (has_prefix address "0x") then bytes_of_string address
  else
    let clean := trim_prefix address "0x" in
    let clean := if Nat.odd (String.length clean) then String "0" clean else clean in
    match hex_decode clean with
    | None => bytes_of_string address
    | Some decoded =>
        if bool_decide (20 < length decoded)%nat then bytes_of_string address
        else bytes_of_string ("0x" ++ hex_encode (replicate (20 - length decoded) x00 ++ decoded))
    end.

Definition encodeBankBalanceBig (balance : Z) : bytes :=
  if bool_decide (balance = 0) then replicate 8 x00
  else if bool_decide (is_u64 balance) then be64 balance
  else big_bytes balance.

Section ante.
Context {S : Type} `{!StateStore S}.
Context (ed25519_Verify : PublicKey → bytes → Signature → bool).

Definition isEthereumRawTx (tx : Tx) : bool := bool_decide (is_Some (TxTag tx "eth_raw")).

Definition ParseTxMeta (tx : Tx) : TxMeta :=
  let fee := TxAmountBigTag tx "fee" in
  mkTxMeta (default "" (TxTag tx "signer"))
    (default 0 (TxUintTag tx "nonce"))
    (match fee with
     | None => 0
     | Some fee => if bool_decide (is_u64 fee) then fee else max_u64
     end)
    fee
    (match TxUintTag tx "gas" with
     | Some gas => gas
     | None => default 0 (TxUintTag tx "gas_limit")
     end)
    (bool_decide (is_Some (TxUintTag tx "nonce"))).

Definition validateMetaForTx (config : AnteConfig) (tx : Tx) (meta : TxMeta) : result unit :=
  if negb (isEthereumRawTx tx) then validateMeta config meta
  else
    check ErrInvalidGas (bool_decide (Meta_Gas meta ≠ 0)) ≫= λ _,
    check ErrInvalidGas
      (negb (bool_decide (0 < Ante_MinGas config) && bool_decide (Meta_Gas meta < Ante_MinGas config)))
      ≫= λ _,
    check ErrInvalidGas
      (negb (bool_decide (0 < Ante_MaxGas config) && bool_decide (Ante_MaxGas config < Meta_Gas meta)))
      ≫= λ _,
    check ErrMissingNonce
      (negb (Ante_RequireNonce config &&
             (bool_decide (Meta_Signer meta = "") || negb (Meta_HasNonce meta)))).

(** [signatureVerifier] *)
Definition signatureVerifier (config : AnteConfig) : TxVerifier :=
  match Ante_SignatureVerifier config with
  | Some verify => Some verify
  | None => Some ed25519_Verify
  end.

Definition verifySignature (config : AnteConfig) (chainID : string) (tx : Tx) : result unit :=
  if negb (IsSignedTx tx) then
    match TxTag tx "eth_raw", TxTag tx "eth_hash" with
    | Some _, Some _ => Ok tt
    | _, _ => check ErrInvalidSignedTx (negb (Ante_RequireSigned config))
    end
  else VerifySignedTx chainID tx (signatureVerifier config).

Definition expectedSequence (store : option S) (ctx : Ctx) (signer : Address) (tx : Tx) : result Z :=
  if isEthereumRawTx tx then Account_Sequence store ctx signer
  else Account_NextSequence store ctx signer.

Definition invalidNonceError (meta : TxMeta) (expected : Z) : error :=
  if bool_decide (Meta_Signer meta = "") || negb (Meta_HasNonce meta) then ErrInvalidNonce
  else ErrWrap [ErrInvalidNonce]
         ("signer=" ++ Meta_Signer meta ++ " nonce=" ++ format_uint (Meta_Nonce meta) ++
          " expected=" ++ format_uint expected).

(** Signature and metadata checks shared by [CheckTx] and [CheckBlock]. *)
Definition check_meta (config : AnteConfig) (chainID : string) (tx : Tx) : result TxMeta :=
  verifySignature config chainID tx ≫= λ _,
  let meta := ParseTxMeta tx in
  validateMetaForTx config tx meta ≫= λ _, Ok meta.

(** Whether the nonce of the transaction is checked. *)
Definition has_sequence (store : option S) (meta : TxMeta) : bool :=
  negb (bool_decide (¬ is_Some store) || bool_decide (Meta_Signer meta = "") ||
        negb (Meta_HasNonce meta)).

(** [AnteKeeper.CheckTx], which is also [BeforeTx] *)
Definition Ante_CheckTx (config : AnteConfig) (chainID : string) (store : option S) (ctx : Ctx)
    (tx : Tx) : result unit :=
  meta ← check_meta config chainID tx;
  if negb (has_sequence store meta) then Ok tt
  else
    expected ← expectedSequence store ctx (Meta_Signer meta) tx;
    check (invalidNonceError meta expected) (bool_decide (Meta_Nonce meta = expected)).

(** The loop of [CheckBlock]: the next sequence of every signer seen so far. *)
Fixpoint check_txs (config : AnteConfig) (chainID : string) (store : option S) (ctx : Ctx)
    (txs : list Tx) (nextBySigner : gmap Address Z) : result unit :=
  match txs with
  | [] => Ok tt
  | tx :: txs =>
      meta ← check_meta config chainID tx;
      if negb (has_sequence store meta) then check_txs config chainID store ctx txs nextBySigner
      else
        expected ← match nextBySigner !! Meta_Signer meta with
                   | Some expected => Ok expected
                   | None => expectedSequence store ctx (Meta_Signer meta) tx
                   end;
        check (invalidNonceError meta expected) (bool_decide (Meta_Nonce meta = expected)) ≫= λ _,
        check_txs config chainID store ctx txs
          (<[Meta_Signer meta := wrap64 (expected + 1)]> nextBySigner)
  end.

Definition Ante_CheckBlock (config : AnteConfig) (chainID : string) (store : option S) (ctx : Ctx)
    (txs : list Tx) : result unit := check_txs config chainID store ctx txs ∅.

(** [bankBalanceBig] *)
Definition bankBalanceBig (store : S) (ctx : Ctx) (address : Address) : result Z :=
  value ←
    match store_Get store ctx BankName (bankBalanceKey address) with
    | Ok value => Ok (Some value)
    | Err e =>
        if errors_is e ErrKeyNotFound then
          match store_Get store ctx BankName (bytes_of_string address) with
          | Ok value => Ok (Some value)
          | Err e => if errors_is e ErrKeyNotFound then Ok None else Err e
          end
        else Err e
    end;
  match value with
  | None => Ok 0
  | Some value =>
      if bool_decide (length value = 0%nat) then Ok 0
      else if bool_decide (32 < length value)%nat then Err ErrInsufficientFeeBalance
      else Ok (be_decode value)
  end.

Definition fee_collector (config : AnteConfig) : Address :=
  if bool_decide (Ante_FeeCollector config = "") then "fee_collector" else Ante_FeeCollector config.

(** The writes of [collectFee]; [None] when there is no fee. *)
Definition fee_writes (config : AnteConfig) (store : S) (ctx : Ctx) (meta : TxMeta)
    : result (option (list KVWrite)) :=
  let fee := metaFeeBig meta in
  if bool_decide (fee = 0) then Ok None
  else
    check ErrMissingNonce (bool_decide (Meta_Signer meta ≠ "")) ≫= λ _,
    let collector := fee_collector config in
    balance ← bankBalanceBig store ctx (Meta_Signer meta);
    check ErrInsufficientFeeBalance (negb (bool_decide (balance < fee))) ≫= λ _,
    collectorBalance ← bankBalanceBig store ctx collector;
    check ErrInsufficientFeeBalance (negb (bool_decide (256 < bit_len (collectorBalance + fee))))
      ≫= λ _,
    Ok (Some [mkWrite BankName (bankBalanceKey (Meta_Signer meta))
                (encodeBankBalanceBig (balance - fee)) false;
              mkWrite BankName (bankBalanceKey collector)
                (encodeBankBalanceBig (collectorBalance + fee)) false]).

Definition collectFee (config : AnteConfig) (store : S) (ctx : Ctx) (meta : TxMeta)
    : S * result unit :=
  match fee_writes config store ctx meta with
  | Err e => (store, Err e)
  | Ok None => (store, Ok tt)
  | Ok (Some writes) => apply_writes store ctx writes
  end.

(** [AnteKeeper.AfterTx] *)
Definition Ante_AfterTx (config : AnteConfig) (store : option S) (ctx : Ctx) (tx : Tx)
    : option S * result unit :=
  let meta := ParseTxMeta tx in
  match store with
  | None => (None, Ok tt)
  | Some st =>
      let '(st, r) := if negb (isEthereumRawTx tx) then collectFee config st ctx meta else (st, Ok tt) in
      match r with
      | Err e => (Some st, Err e)
      | Ok _ =>
          if bool_decide (Meta_Signer meta = "") || negb (Meta_HasNonce meta) then (Some st, Ok tt)
          else if isEthereumRawTx tx && bool_decide (Meta_Nonce meta = max_u64)
          then (Some st, Err ErrInvalidNonce)
          else
            let nextSequence :=
              if isEthereumRawTx tx then wrap64 (Meta_Nonce meta + 1) else Meta_Nonce meta in
            let '(st, r) := Account_SetSequence st ctx (Meta_Signer meta) nextSequence in
            (Some st, r)
      end
  end.

(** [AnteKeeper.GasLimit], which is also [GasUsed] *)
Definition Ante_GasLimit (tx : Tx) : Z :=
  let meta := ParseTxMeta tx in
  if bool_decide (0 < Meta_Gas meta) then Meta_Gas meta else Z.of_nat (length tx).

Definition Ante_FeePaid (tx : Tx) : Z :=
  let fee := metaFeeBig (ParseTxMeta tx) in
  if bool_decide (is_u64 fee) then fee else max_u64.

Definition Ante_SetBaseFee (config : AnteConfig) (baseFee : Z) : AnteConfig :=
  mkAnteConfig (Ante_MinFee config) baseFee (Ante_MinGas config) (Ante_MaxGas config)
    (Ante_RequireNonce config) (Ante_FeeCollector config) (Ante_RequireSigned config)
    (Ante_SignatureVerifier config).
End ante.

(** ** Fees *)

(** The two copies of the key function agree. *)
Lemma bankBalanceKey_eq address : bankBalanceKey address = balanceKey address.
Proof.
  unfold bankBalanceKey, balanceKey. destruct (has_prefix address "0x"); cbn [negb].
  - destruct (hex_decode _); [|done]. by rewrite orb_false_r.
  - destruct (hex_decode _); [|done]. by rewrite orb_true_r.
Qed.

Lemma encodeBankBalanceBig_eq balance : encodeBankBalanceBig balance = encodeBalanceBig balance.
Proof. done. Qed.

Lemma fee_collector_nonempty config : fee_collector config ≠ "".
Proof. unfold fee_collector. by case_bool_decide. Qed.

Lemma nonceKey_nonempty signer : nonceKey signer ≠ [].
Proof. done. Qed.

Lemma auth_valid : valid_namespace AuthName.
Proof. by split. Qed.

#[global] Hint Resolve nonceKey_nonempty auth_valid fee_collector_nonempty : core.

Section keeper.
Context {S : Type} `{ReliableStore S}.
Context (ed25519_Verify : PublicKey → bytes → Signature → bool).

Lemma fee_writes_valid config s ctx meta ws :
  fee_writes config s ctx meta = Ok (Some ws) → Forall valid_write ws.
Proof.
  intros HF. unfold fee_writes in HF. case_bool_decide; [done|]. result_inv HF.
  subst ws. apply bool_decide_eq_true in HF0. rewrite !bankBalanceKey_eq.
  repeat constructor; cbn; auto.
Qed.

Lemma collectFee_ok config s ctx meta s' r :
  store_ok s → collectFee config s ctx meta = (s', r) → store_ok s'.
Proof.
  intros Hok HC. unfold collectFee in HC.
  destruct (fee_writes config s ctx meta) as [[ws|]|e] eqn:E; [|by injection HC as <- _..].
  apply fee_writes_valid in E. eapply apply_writes_ok; eauto.
Qed.

Lemma SetSequence_sequence s signer n s' :
  store_ok s → is_u64 n → Account_SetSequence s None signer n = (s', Ok tt) →
  Account_Sequence (Some s') None signer = Ok n.
Proof.
  intros Hok Hn HS. unfold Account_SetSequence in HS. case_bool_decide as Hsig; [done|].
  apply Set_spec in HS as [Hok' Hc]; [|done..]. unfold Account_Sequence.
  rewrite bool_decide_eq_true_2 by done. cbn [check mbind result_bind].
  rewrite Get_total, Hc by auto. cbn [is_ok]. unfold write_content.
  cbn [KW_Namespace KW_Key KW_Value KW_Delete]. rewrite decide_True by done.
  rewrite bool_decide_eq_true_2 by apply be64_length. cbn [check mbind result_bind].
  by rewrite be64_decode.
Qed.

(** The sequence after a transaction. *)
Definition sequence_after (tx : Tx) : Z :=
  let nonce := Meta_Nonce (ParseTxMeta tx) in if isEthereumRawTx tx then wrap64 (nonce + 1) else nonce.

(** The nonce the transaction must have at a given sequence. *)
Definition nonce_at (sequence : Z) (tx : Tx) : Z :=
  if isEthereumRawTx tx then sequence else wrap64 (sequence + 1).

(** The transaction names its signer and has a nonce. *)
Definition sequenced (tx : Tx) : Prop :=
  Meta_Signer (ParseTxMeta tx) ≠ "" ∧ Meta_HasNonce (ParseTxMeta tx) = true.

Lemma parse_digits_u64 acc text n : is_u64 acc → parse_digits acc text = Some n → is_u64 n.
Proof.
  revert acc. induction text as [|a text IH]; intros acc Hacc HP; cbn in HP.
  { by injection HP as <-. }
  destruct (digit_value a) as [d|] eqn:Ed; cbn in HP; [|done]. case_bool_decide as Hm; [done|].
  eapply IH, HP. unfold digit_value in Ed. case_bool_decide; [|done]. injection Ed as <-.
  unfold is_u64, two64, max_u64 in *. lia.
Qed.

Lemma parse_uint_u64 text n : parse_uint text = Some n → is_u64 n.
Proof. destruct text; [done|]. apply parse_digits_u64. by unfold is_u64, two64. Qed.

Lemma nonce_u64 tx : is_u64 (Meta_Nonce (ParseTxMeta tx)).
Proof.
  unfold ParseTxMeta. cbn [Meta_Nonce]. destruct (TxUintTag tx "nonce") as [n|] eqn:E; [|done].
  unfold TxUintTag in E. apply bind_Some in E as (text & _ & E). unfold parse_uint in E.
  destruct text; [done|]. by eapply parse_digits_u64, E.
Qed.

Lemma check_meta_Ok config chainID tx meta :
  check_meta ed25519_Verify config chainID tx = Ok meta → meta = ParseTxMeta tx.
Proof. unfold check_meta. intros HM. by result_inv HM. Qed.

#[local] Opaque ParseTxMeta isEthereumRawTx check_meta.

Lemma wrap64_succ_ne n : is_u64 n → wrap64 (n + 1) ≠ n.
Proof. unfold is_u64, wrap64, two64. intros Hn. Z.div_mod_to_equations. lia. Qed.

Lemma AfterTx_sequence config s tx s' :
  store_ok s → sequenced tx → Ante_AfterTx config (Some s) None tx = (Some s', Ok tt) →
  Account_Sequence (Some s') None (Meta_Signer (ParseTxMeta tx)) = Ok (sequence_after tx).
Proof.
  intros Hok [Hsig Hnon] HA. unfold Ante_AfterTx in HA.
  destruct (if negb _ then _ else _) as [s1 r] eqn:EC.
  assert (store_ok s1) as Hok1.
  { destruct (negb (isEthereumRawTx tx)); [by eapply collectFee_ok|by injection EC as <- _]. }
  destruct r as [u|e]; [|done].
  rewrite bool_decide_eq_false_2, Hnon in HA by done. cbn [orb negb] in HA.
  destruct (isEthereumRawTx tx && _) eqn:Emax; [done|].
  destruct (Account_SetSequence s1 None _ _) as [s2 r2] eqn:ES. injection HA as <- ->.
  eapply SetSequence_sequence, ES; [done|]. unfold sequence_after. destruct (isEthereumRawTx tx).
  - apply wrap64_u64.
  - apply nonce_u64.
Qed.

(** [CheckTx] at a known sequence. *)
Lemma CheckTx_iff config chainID s tx sequence :
  sequenced tx → Account_Sequence (Some s) None (Meta_Signer (ParseTxMeta tx)) = Ok sequence →
  Ante_CheckTx ed25519_Verify config chainID (Some s) None tx = Ok tt ↔
  is_ok (check_meta ed25519_Verify config chainID tx) = true ∧
  Meta_Nonce (ParseTxMeta tx) = nonce_at sequence tx.
Proof.
  intros [Hsig Hnon] HS. unfold Ante_CheckTx.
  destruct (check_meta ed25519_Verify config chainID tx) as [meta|e] eqn:EM;
    [|by split; [|intros [? _]]].
  apply check_meta_Ok in EM as ->.
  cbn [mbind result_bind is_ok]. unfold has_sequence. rewrite Hnon.
  rewrite (bool_decide_eq_false_2 (¬ is_Some (Some s))) by (intros Hn; by apply Hn).
  rewrite (bool_decide_eq_false_2 (Meta_Signer _ = "")) by done. cbn [orb negb].
  unfold expectedSequence, Account_NextSequence, nonce_at.
  destruct (isEthereumRawTx tx); rewrite HS; cbn [mbind result_bind];
    (case_bool_decide as Hn; cbn [check]; [by rewrite Hn|by split; [|intros [_ ?]]]).
Qed.

(** C24: no transaction is replayed.  After a transaction with a signer and a
    nonce has run, [CheckTx] rejects it whatever else it contains, and accepts a
    transaction of the same signer exactly when its signature, fee and gas pass
    and its nonce is the next one: the stored sequence for an Ethereum
    transaction, the number after it for a native one. *)
Theorem no_replay config chainID s tx s' :
  store_ok s → sequenced tx → Ante_AfterTx config (Some s) None tx = (Some s', Ok tt) →
  Ante_CheckTx ed25519_Verify config chainID (Some s') None tx ≠ Ok tt ∧
  ∀ tx', sequenced tx' → Meta_Signer (ParseTxMeta tx') = Meta_Signer (ParseTxMeta tx) →
    Ante_CheckTx ed25519_Verify config chainID (Some s') None tx' = Ok tt ↔
    is_ok (check_meta ed25519_Verify config chainID tx') = true ∧
    Meta_Nonce (ParseTxMeta tx') = nonce_at (sequence_after tx) tx'.
Proof.
  intros Hok Hseq HA. apply AfterTx_sequence in HA as HS; [|done..]. split.
  - rewrite (CheckTx_iff _ _ _ _ _ Hseq HS). intros [_ Hn]. revert Hn.
    unfold nonce_at, sequence_after. pose proof (wrap64_succ_ne _ (nonce_u64 tx)).
    destruct (isEthereumRawTx tx); congruence.
  - intros tx' Hseq' Hsig. apply CheckTx_iff; [done|]. by rewrite Hsig.
Qed.
End keeper.

(** ** Blocks *)

Section nonces.

(** The transactions of a signer that carry a nonce. *)
Definition sender_txs (signer : Address) (txs : list Tx) : list Tx :=
  filter (λ tx, Meta_Signer (ParseTxMeta tx) = signer ∧ Meta_HasNonce (ParseTxMeta tx) = true) txs.

Fixpoint consecutive (first : Z) (nonces : list Z) : Prop :=
  match nonces with
  | [] => True
  | nonce :: nonces => nonce = first ∧ consecutive (wrap64 (first + 1)) nonces
  end.

(** The nonces of these transactions count up from the expected one. *)
Definition nonces_from (start : Tx → result Z) (txs : list Tx) : Prop :=
  match txs with
  | [] => True
  | tx :: _ => ∃ first, start tx = Ok first ∧
      consecutive first ((λ tx, Meta_Nonce (ParseTxMeta tx)) <$> txs)
  end.

Lemma nonces_from_known (start : Tx → result Z) first txs :
  (∀ tx, start tx = Ok first) →
  nonces_from start txs ↔ consecutive first ((λ tx, Meta_Nonce (ParseTxMeta tx)) <$> txs).
Proof.
  intros Hs. destruct txs as [|tx txs]; [done|]. unfold nonces_from. rewrite Hs. split.
  - by intros (first' & [= <-] & Hc).
  - eauto.
Qed.

End nonces.

Section blocks.
Context {S : Type} `{!StateStore S}.
Context (ed25519_Verify : PublicKey → bytes → Signature → bool).
Context (config : AnteConfig) (chainID : string) (s : S) (ctx : Ctx).

(** The nonce [CheckBlock] expects of the next transaction of a signer. *)
Definition next_nonce (nextBySigner : gmap Address Z) (signer : Address) (tx : Tx) : result Z :=
  match nextBySigner !! signer with
  | Some expected => Ok expected
  | None => expectedSequence (Some s) ctx signer tx
  end.

Definition meta_ok (tx : Tx) : Prop := is_ok (check_meta ed25519_Verify config chainID tx) = true.

Lemma has_sequence_true meta :
  has_sequence (Some s) meta = true ↔ Meta_Signer meta ≠ "" ∧ Meta_HasNonce meta = true.
Proof.
  unfold has_sequence. rewrite (bool_decide_eq_false_2 (¬ _)) by (intros Hn; by apply Hn).
  cbn [orb]. rewrite negb_true_iff, orb_false_iff, bool_decide_eq_false, negb_false_iff. done.
Qed.

Lemma sender_txs_other tx txs signer :
  signer ≠ "" → ¬ (has_sequence (Some s) (ParseTxMeta tx) = true ∧ Meta_Signer (ParseTxMeta tx) = signer) →
  sender_txs signer (tx :: txs) = sender_txs signer txs.
Proof.
  intros Hne Hn. unfold sender_txs. rewrite filter_cons_False; [done|]. intros [<- Hnon].
  apply Hn. by rewrite has_sequence_true.
Qed.

Lemma sender_txs_cons tx txs :
  has_sequence (Some s) (ParseTxMeta tx) = true →
  sender_txs (Meta_Signer (ParseTxMeta tx)) (tx :: txs) =
    tx :: sender_txs (Meta_Signer (ParseTxMeta tx)) txs.
Proof.
  intros [Hsig Hnon]%has_sequence_true. unfold sender_txs. by rewrite filter_cons_True.
Qed.

(** One more transaction in front of a block. *)
Lemma nonces_from_step tx txs nextBySigner first :
  has_sequence (Some s) (ParseTxMeta tx) = true →
  next_nonce nextBySigner (Meta_Signer (ParseTxMeta tx)) tx = Ok first →
  (∀ signer, signer ≠ "" →
     nonces_from (next_nonce nextBySigner signer) (sender_txs signer (tx :: txs))) ↔
  Meta_Nonce (ParseTxMeta tx) = first ∧
  ∀ signer, signer ≠ "" →
    nonces_from (next_nonce (<[Meta_Signer (ParseTxMeta tx) := wrap64 (first + 1)]> nextBySigner) signer)
      (sender_txs signer txs).
Proof.
  intros Hseq Hfirst. pose proof Hseq as [Hsig _]%has_sequence_true.
  set (sg := Meta_Signer (ParseTxMeta tx)) in *.
  assert (nonces_from (next_nonce nextBySigner sg) (sender_txs sg (tx :: txs)) ↔
    Meta_Nonce (ParseTxMeta tx) = first ∧
    nonces_from (next_nonce (<[sg := wrap64 (first + 1)]> nextBySigner) sg) (sender_txs sg txs)) as Hsg.
  { rewrite (nonces_from_known (next_nonce (<[_:=_]> _) _) (wrap64 (first + 1)))
      by (intros; unfold next_nonce; by rewrite lookup_insert_eq).
    unfold sg. rewrite sender_txs_cons by done. cbn [nonces_from]. fold sg. rewrite Hfirst. split.
    - by intros (? & [= <-] & Hc).
    - intros Hc. exists first. by split. }
  assert (∀ signer, signer ≠ "" → signer ≠ sg →
    nonces_from (next_nonce nextBySigner signer) (sender_txs signer (tx :: txs)) ↔
    nonces_from (next_nonce (<[sg := wrap64 (first + 1)]> nextBySigner) signer)
      (sender_txs signer txs)) as Hother.
  { intros signer Hne Hneq. rewrite sender_txs_other by (done || (intros [_ Heq]; by apply Hneq)).
    unfold next_nonce. by rewrite lookup_insert_ne. }
  split.
  - intros Ha. pose proof (proj1 Hsg (Ha sg Hsig)) as [Hn Hl]. split; [done|]. intros signer Hne.
    destruct (decide (signer = sg)) as [->|Hneq]; [done|]. by apply Hother, Ha.
  - intros [Hn Ha] signer Hne.
    destruct (decide (signer = sg)) as [->|Hneq]; [apply Hsg; auto|]. by apply Hother, Ha.
Qed.

Lemma check_txs_iff txs nextBySigner :
  check_txs ed25519_Verify config chainID (Some s) ctx txs nextBySigner = Ok tt ↔
  Forall meta_ok txs ∧
  ∀ signer, signer ≠ "" →
    nonces_from (next_nonce nextBySigner signer) (sender_txs signer txs).
Proof.
  revert nextBySigner. induction txs as [|tx txs IH]; intros m; cbn [check_txs].
  { split; [|done]. intros _. split; [constructor|]. by intros. }
  rewrite Forall_cons. unfold meta_ok at 1.
  destruct (check_meta ed25519_Verify config chainID tx) as [meta|e] eqn:EM;
    cbn [mbind result_bind is_ok]; [|by split; [|intros [[? _] _]]].
  apply check_meta_Ok in EM as ->.
  destruct (has_sequence (Some s) (ParseTxMeta tx)) eqn:Eh; cbn [negb].
  - fold (next_nonce m (Meta_Signer (ParseTxMeta tx)) tx).
    destruct (next_nonce m (Meta_Signer (ParseTxMeta tx)) tx) as [first|e] eqn:EN;
      cbn [mbind result_bind].
    + rewrite (nonces_from_step _ _ _ _ Eh EN). case_bool_decide as Hn; cbn [check mbind result_bind].
      * rewrite IH. tauto.
      * split; [done|]. by intros (_ & ? & _).
    + split; [done|]. intros [_ Ha]. pose proof Eh as [Hsig _]%has_sequence_true.
      specialize (Ha _ Hsig). rewrite sender_txs_cons in Ha by done.
      destruct Ha as (first & Hf & _). by rewrite EN in Hf.
  - rewrite IH.
    assert (∀ signer, signer ≠ "" → sender_txs signer (tx :: txs) = sender_txs signer txs) as Hs.
    { intros signer Hne. apply sender_txs_other; [done|]. rewrite Eh. by intros [? _]. }
    split; intros [HF HN]; (split; [tauto|]); intros signer Hne; specialize (HN signer Hne);
      rewrite Hs in * by done; done.
Qed.

(** A block passes the ante checks exactly when every transaction passes
    the signature, fee and gas checks and, for each signer, the nonces of its
    transactions count up one by one from the nonce the stored sequence asks of
    the first of them, in block order. *)
Theorem block_nonces txs :
  Ante_CheckBlock ed25519_Verify config chainID (Some s) ctx txs = Ok tt ↔
  Forall meta_ok txs ∧
  ∀ signer, signer ≠ "" →
    nonces_from (expectedSequence (Some s) ctx signer) (sender_txs signer txs).
Proof. exact (check_txs_iff txs ∅). Qed.
End blocks.

(** ** A concrete account *)

Module AnteExample.
Import BankExample.

Definition open_config : AnteConfig := mkAnteConfig 1 0 0 0 true "" false None.
Definition pay (nonce : string) : Tx :=
  bytes_of_string ("bank:send:alice:bob:3:fee=1:signer=alice:nonce=" ++ nonce).
Definition no_verify (_ : PublicKey) (_ : bytes) (_ : Signature) : bool := false.

Definition after_pay : gmap bytes bytes :=
  default ∅ (@Ante_AfterTx _ _ open_config (Some bank0) None (pay "1")).1.

Lemma pay_runs :
  @Ante_AfterTx _ _ open_config (Some bank0) None (pay "1") = (Some after_pay, Ok tt).
Proof.
  assert (match @Ante_AfterTx _ _ open_config (Some bank0) None (pay "1") with
          | (Some _, Ok _) => True | _ => False end) as HA by (vm_compute; exact I).
  unfold after_pay. revert HA. destruct (Ante_AfterTx _ _ _ _) as [[s|] [[]|e]]; done.
Qed.

Lemma pay_sequenced : @sequenced (pay "1").
Proof. split; [discriminate|vm_compute; reflexivity]. Qed.

(** Alice paid with nonce 1: the same payment again is refused, the one with
    nonce 2 is accepted. *)
Lemma no_replay_witness :
  @Ante_CheckTx _ _ no_verify open_config "vexo" (Some after_pay) None (pay "1") ≠ Ok tt ∧
  @Ante_CheckTx _ _ no_verify open_config "vexo" (Some after_pay) None (pay "2") = Ok tt.
Proof.
  destruct (@no_replay (gmap bytes bytes) _ _ _ no_verify open_config "vexo" bank0 (pay "1")
    after_pay) as [Hold Hnext]; [exact I|exact pay_sequenced|exact pay_runs|].
  split; [exact Hold|]. apply (Hnext (pay "2")).
  - split; [discriminate|vm_compute; reflexivity].
  - vm_compute. reflexivity.
  - split; vm_compute; reflexivity.
Defined.

(** Two payments in one block must use both nonces. *)
Example pay_twice :
  @Ante_CheckBlock _ _ no_verify open_config "vexo" (Some bank0) None [pay "1"; pay "2"] = Ok tt ∧
  @Ante_CheckBlock _ _ no_verify open_config "vexo" (Some bank0) None [pay "1"; pay "1"] ≠ Ok tt.
Proof. split; [vm_compute; reflexivity|by vm_compute]. Qed.
End AnteExample.
