(* ===== verification/Events.v ===== *)
(** * Event index ([src/events/events.go])

    The events of a block are written under one key per event and two keys per
    indexed attribute, in one batch, as JSON. *)

From S2P Require Import Prelude GoLib Sha256 Merkle Types Strconv Text Json JsonPrint JsonCodec SignBytes StateProof Store Staged.

Definition EventsNamespace : string := "events".
Definition ErrInvalidEvent := ErrNew "events.ErrInvalidEvent".

Record Attribute := mkAttribute {
  Attribute_Key : string;
  Attribute_Value : string;
  Attribute_Index : bool
}.

Record Event := mkEvent {
  Event_Type : string;
  Event_Attributes : list Attribute
}.

(** [events.Record] *)
Record EventRecord := mkEventRecord {
  Record_Height : Z;
  Record_TxIndex : Z;
  Record_Event : Event
}.

#[global] Instance Attribute_eq_dec : EqDecision Attribute.
Proof. solve_decision. Defined.
#[global] Instance Event_eq_dec : EqDecision Event.
Proof. solve_decision. Defined.
#[global] Instance EventRecord_eq_dec : EqDecision EventRecord.
Proof. solve_decision. Defined.

#[global] Instance attribute_json : JsonRecord Attribute := {|
  json_zero := mkAttribute "" "" false;
  json_fields :=
    [("key", field_of decode_string Attribute_Key (λ '(mkAttribute _ b c) x, mkAttribute x b c));
     ("value", field_of decode_string Attribute_Value (λ '(mkAttribute a _ c) x, mkAttribute a x c));
     ("index", field_of decode_bool Attribute_Index (λ '(mkAttribute a b _) x, mkAttribute a b x))];
  json_members a :=
    [("key", JString (Attribute_Key a)); ("value", JString (Attribute_Value a))] ++
    unless (negb (Attribute_Index a)) "index" (JBool (Attribute_Index a))
|}.

#[global] Instance event_json : JsonRecord Event := {|
  json_zero := mkEvent "" [];
  json_fields :=
    [("type", field_of decode_string Event_Type (λ '(mkEvent _ b) x, mkEvent x b));
     ("attributes", field_of (λ _, decode_slice) Event_Attributes (λ '(mkEvent a _) x, mkEvent a x))];
  json_members e :=
    ("type", JString (Event_Type e)) ::
    unless (bool_decide (Event_Attributes e = [])) "attributes" (JArray (to_json <$> Event_Attributes e))
|}.

#[global] Instance event_record_json : JsonRecord EventRecord := {|
  json_zero := mkEventRecord 0 0 json_zero;
  json_fields :=
    [("height", field_of decode_uint Record_Height (λ '(mkEventRecord _ b c) x, mkEventRecord x b c));
     ("tx_index", field_of decode_int Record_TxIndex (λ '(mkEventRecord a _ c) x, mkEventRecord a x c));
     ("event", field_of (λ e value, of_json value e) Record_Event (λ '(mkEventRecord a b _) x, mkEventRecord a b x))];
  json_members r :=
    [("height", json_uint (Record_Height r)); ("tx_index", json_int (Record_TxIndex r));
     ("event", to_json (Record_Event r))]
|}.

(** ** Keys *)

Definition itoa (n : nat) : string := format_uint (Z.of_nat n).
Definition hex_text (s : string) : string := hex_encode (bytes_of_string s).

Definition eventKey (height : Height) (txIndex : nat) (eventType : string) (sequence : nat) : bytes :=
  bytes_of_string ("height/" ++ format_uint height ++ "/" ++ itoa txIndex ++ "/" ++ eventType ++ "/" ++
                   itoa sequence).

Definition attributePrefix (key value : string) : bytes :=
  bytes_of_string ("attr2/" ++ hex_text key ++ "/" ++ hex_text value ++ "/").

Definition attributeKey (key value : string) (height : Height) (txIndex : nat) (eventType : string) : bytes :=
  bytes_of_string ("attr2/" ++ hex_text key ++ "/" ++ hex_text value ++ "/" ++ format_uint height ++ "/" ++
                   itoa txIndex ++ "/" ++ hex_text eventType).

Definition legacyAttributeKey (key value : string) (height : Height) (txIndex : nat) (eventType : string)
    : bytes :=
  bytes_of_string ("attr/" ++ key ++ "/" ++ value ++ "/" ++ format_uint height ++ "/" ++ itoa txIndex ++ "/" ++
                   eventType).

(** ** Indexing *)

(** The writes of the indexed attributes of an event. *)
Definition attribute_writes (height : Height) (txIndex : nat) (eventType : string) (encoded : bytes)
    (attributes : list Attribute) : list KVWrite :=
  attributes ≫= λ attribute,
    if negb (Attribute_Index attribute) || bool_decide (Attribute_Key attribute = "") then []
    else [mkWrite EventsNamespace
            (attributeKey (Attribute_Key attribute) (Attribute_Value attribute) height txIndex eventType)
            encoded false;
          mkWrite EventsNamespace
            (legacyAttributeKey (Attribute_Key attribute) (Attribute_Value attribute) height txIndex eventType)
            encoded false].

(** The loop over the events of a transaction. *)
Fixpoint index_events (height : Height) (txIndex : nat) (events : list Event) (writes : list KVWrite)
    : result (list KVWrite) :=
  match events with
  | [] => Ok writes
  | event :: events =>
      check ErrInvalidEvent (bool_decide (Event_Type event ≠ "")) ≫= λ _,
      let encoded := marshal_json (mkEventRecord height (Z.of_nat txIndex) event) in
      index_events height txIndex events
        (writes ++ mkWrite EventsNamespace (eventKey height txIndex (Event_Type event) (length writes))
                     encoded false ::
         attribute_writes height txIndex (Event_Type event) encoded (Event_Attributes event))
  end.

(** The loop over the transactions. *)
Fixpoint index_block (height : Height) (txIndex : nat) (txEvents : list (list Event)) (writes : list KVWrite)
    : result (list KVWrite) :=
  match txEvents with
  | [] => Ok writes
  | events :: txEvents =>
      writes ← index_events height txIndex events writes;
      index_block height (S txIndex) txEvents writes
  end.

(** [IndexBlock] on a store. *)
Definition IndexBlock {T} `{!StateStore T} (store : T) (ctx : Ctx) (height : Height)
    (txEvents : list (list Event)) : T * result unit :=
  match index_block height 0 txEvents [] with
  | Err e => (store, Err e)
  | Ok writes =>
      if bool_decide (writes = []) then (store, Ok tt)
      else apply_writes store ctx writes
  end.
