(* ===== verification/App.v ===== *)
(** * The application runtime ([src/app/app.go], [router.go], [runtime.go])

    The runtime checks transactions, prepares and judges proposals, and executes
    blocks by handing every transaction to a module.  Modules are the class
    [ModuleOps]: the interface [Module] with its optional interfaces, generic in
    the store a module is given.  The bank module is an instance. *)

From S2P Require Import Prelude GoLib Sha256 Merkle Types Strconv TxTags Text Economics Address CanonicalTx.
From S2P Require Import FairOrdering SignBytes StateProof Store Staged Bank Ante Events.

Definition ErrEmptyChainID := ErrNew "app.ErrEmptyChainID".
Definition ErrProposalRejected := ErrNew "app.ErrProposalRejected".
Definition ErrReplayCloneUnavailable := ErrNew "app.ErrReplayCloneUnavailable".
Definition ErrNoModules := ErrNew "app.ErrNoModules".
Definition ErrNoRouteForTx := ErrNew "app.ErrNoRouteForTx".
Definition ErrMalformedRoutedTx := ErrNew "app.ErrMalformedRoutedTx".

(** ** Context and interfaces *)

Definition zero_header : Header := mkHeader "" 0 0 zero_hash zero_hash zero_hash zero_hash zero_hash.

(** [app.Context] without its store and gas meter, which are passed along. *)
Record AppContext := mkAppContext {
  actx_Ctx : Ctx;
  actx_ChainID : string;
  actx_EVMChainID : Z;
  actx_BaseFee : Z;
  actx_BlobBaseFee : Z;
  actx_Height : Height;
  actx_Header : Header;
  actx_Block : Block;
  actx_TxResults : list Result
}.

Abbreviation GenesisState := (gmap string bytes).

(** [StateRootStore]: [Some] when the store computes roots. *)
Class RootStore (T : Type) := store_Root : option (T → Ctx → string → result Hash).

(** [Module] and, as options, the interfaces a module may implement as well. *)
Class ModuleOps (M : Type) := {
  mod_Name : M → string;
  mod_InitGenesis : ∀ {T} `{!StateStore T} `{!SnapshotStore T},
    M → AppContext → option T → GenesisState → M * option T * result unit;
  mod_BeginBlock : ∀ {T} `{!StateStore T} `{!SnapshotStore T}, M → AppContext → option T → Header → M * option T * result unit;
  mod_DeliverTx : ∀ {T} `{!StateStore T} `{!SnapshotStore T},
    M → AppContext → option T → option GasMeter → Tx → M * option T * option GasMeter * Result;
  mod_EndBlock : ∀ {T} `{!StateStore T} `{!SnapshotStore T}, M → AppContext → option T → M * option T * result unit;
  mod_EstimateGas : ∀ {T} `{!StateStore T} `{!SnapshotStore T}, M → option (AppContext → option T → Tx → result Z);
  mod_ValidateTx : ∀ {T} `{!StateStore T} `{!SnapshotStore T}, M → option (AppContext → option T → Tx → result unit);
  mod_Events : ∀ {T} `{!StateStore T} `{!SnapshotStore T}, M → option (AppContext → option T → Tx → Result → list Event);
  mod_ValidatorUpdates : ∀ {T} `{!StateStore T} `{!SnapshotStore T}, M → option (AppContext → option T → list ValidatorUpdate);
  mod_Query : ∀ {T} `{!StateStore T} `{!SnapshotStore T},
    M → option (AppContext → option T → list string → bytes → Z * bytes * string);
  mod_BindStore : ∀ {T} `{!StateStore T} `{!SnapshotStore T}, M → option (AppContext → option T → M * result unit);
  mod_CloneModule : M → option M
}.

(** ** Routing *)

Inductive Router := FirstModuleRouter | PrefixRouter.

Section routing.
Context {M : Type} `{!ModuleOps M}.

(** The first module with the name. *)
Fixpoint find_module (name : string) (modules : list M) (index : nat) : option nat :=
  match modules with
  | [] => None
  | module :: modules =>
      if bool_decide (mod_Name module = name) then Some index else find_module name modules (S index)
  end.

(** [RouteTx]: the position of the module. *)
Definition RouteTx (router : Router) (tx : Tx) (modules : list M) : result nat :=
  match router with
  | FirstModuleRouter => check ErrNoModules (bool_decide (modules ≠ [])) ≫= λ _, Ok 0%nat
  | PrefixRouter =>
      match str_cut ":" (string_of_bytes tx) with
      | None => Err ErrMalformedRoutedTx
      | Some (name, _) =>
          check ErrMalformedRoutedTx (bool_decide (name ≠ "")) ≫= λ _,
          match find_module name modules 0 with
          | None => Err ErrNoRouteForTx
          | Some index => Ok index
          end
      end
  end.
End routing.

(** ** Runtime *)

Record Runtime (M S : Type) := mkRuntime {
  rt_chainID : string;
  rt_evmChainID : Z;
  rt_modules : list M;
  rt_router : Router;
  rt_ante : option AnteConfig;
  rt_store : option S;
  rt_height : Height;
  rt_appHash : Hash;
  rt_baseFee : Z;
  rt_blobBaseFee : Z
}.
Arguments mkRuntime {M S} _ _ _ _ _ _ _ _ _ _.
Arguments rt_chainID {M S} _.
Arguments rt_evmChainID {M S} _.
Arguments rt_modules {M S} _.
Arguments rt_router {M S} _.
Arguments rt_ante {M S} _.
Arguments rt_store {M S} _.
Arguments rt_height {M S} _.
Arguments rt_appHash {M S} _.
Arguments rt_baseFee {M S} _.
Arguments rt_blobBaseFee {M S} _.

Section runtime.
Context {M S : Type} `{!ModuleOps M} `{!StateStore S} `{!SnapshotStore S} `{!RootStore S}.
Context (error_text : error → string).
Context (ed25519_Verify : PublicKey → bytes → Signature → bool).

(** [NewRuntime]; a nil router is [FirstModuleRouter]. *)
Definition NewRuntime (chainID : string) (modules : list M) (router : option Router) : result (Runtime M S) :=
  check ErrEmptyChainID (bool_decide (chainID ≠ "")) ≫= λ _,
  Ok (mkRuntime chainID 0 modules (default FirstModuleRouter router) None None 0 zero_hash 0 0).

Definition rt_set_modules (rt : Runtime M S) (modules : list M) : Runtime M S :=
  mkRuntime (rt_chainID rt) (rt_evmChainID rt) modules (rt_router rt) (rt_ante rt) (rt_store rt)
    (rt_height rt) (rt_appHash rt) (rt_baseFee rt) (rt_blobBaseFee rt).

Definition rt_set_store (rt : Runtime M S) (store : option S) : Runtime M S :=
  mkRuntime (rt_chainID rt) (rt_evmChainID rt) (rt_modules rt) (rt_router rt) (rt_ante rt) store
    (rt_height rt) (rt_appHash rt) (rt_baseFee rt) (rt_blobBaseFee rt).

Definition rt_set_ante (rt : Runtime M S) (ante : option AnteConfig) (baseFee : Z) : Runtime M S :=
  mkRuntime (rt_chainID rt) (rt_evmChainID rt) (rt_modules rt) (rt_router rt) ante (rt_store rt)
    (rt_height rt) (rt_appHash rt) baseFee (rt_blobBaseFee rt).

(** [CommitStagedBlock] *)
Definition CommitStagedBlock (rt : Runtime M S) (height : Height) (appHash : Hash) : Runtime M S :=
  mkRuntime (rt_chainID rt) (rt_evmChainID rt) (rt_modules rt) (rt_router rt) (rt_ante rt) (rt_store rt)
    height appHash (rt_baseFee rt) (rt_blobBaseFee rt).

Definition WithAnte (rt : Runtime M S) (ante : AnteConfig) : Runtime M S :=
  rt_set_ante rt (Some ante) (rt_baseFee rt).

(** [Runtime.SetBaseFee] also sets the fee of the ante handler. *)
Definition Runtime_SetBaseFee (rt : Runtime M S) (baseFee : Z) : Runtime M S :=
  rt_set_ante rt ((λ ante, Ante_SetBaseFee ante baseFee) <$> rt_ante rt) baseFee.

Definition WithEVMChainID (rt : Runtime M S) (chainID : Z) : Runtime M S :=
  mkRuntime (rt_chainID rt) chainID (rt_modules rt) (rt_router rt) (rt_ante rt) (rt_store rt)
    (rt_height rt) (rt_appHash rt) (rt_baseFee rt) (rt_blobBaseFee rt).

Definition SetBlobBaseFee (rt : Runtime M S) (blobBaseFee : Z) : Runtime M S :=
  mkRuntime (rt_chainID rt) (rt_evmChainID rt) (rt_modules rt) (rt_router rt) (rt_ante rt) (rt_store rt)
    (rt_height rt) (rt_appHash rt) (rt_baseFee rt) blobBaseFee.

(** [Commit] reports height and application hash. *)
Definition Runtime_Commit (rt : Runtime M S) : Height * Hash := (rt_height rt, rt_appHash rt).

Definition newContext (rt : Runtime M S) (ctx : Ctx) (height : Height) (header : Header) : AppContext :=
  mkAppContext ctx (rt_chainID rt) (rt_evmChainID rt) (rt_baseFee rt) (rt_blobBaseFee rt) height header
    (mkBlock zero_header []) [].

Definition orderingSalt (rt : Runtime M S) (height : Height) : bytes := HeightSalt (rt_chainID rt) height.

(** ** Checks *)

Definition validateModuleTx (rt : Runtime M S) (actx : AppContext) (payload : Tx) (module : M) : result unit :=
  match mod_ValidateTx module with
  | None => Ok tt
  | Some validate => validate actx (rt_store rt) payload
  end.

Definition checkEstimatedGas (rt : Runtime M S) (actx : AppContext) (tx payload : Tx) (module : M)
    : result unit :=
  match rt_ante rt, mod_EstimateGas module with
  | Some _, Some estimate =>
      required ← estimate actx (rt_store rt) payload;
      let limit := Ante_GasLimit tx in
      check ErrOutOfGas (negb (bool_decide (0 < limit) && bool_decide (limit < required)))
  | _, _ => Ok tt
  end.

(** The module and gas checks of one transaction after routing. *)
Definition check_routed (rt : Runtime M S) (actx : AppContext) (tx : Tx) (index : nat) : result unit :=
  match rt_modules rt !! index with
  | None => Err ErrNoModules
  | Some module =>
      validateModuleTx rt actx (TxPayload tx) module ≫= λ _,
      checkEstimatedGas rt actx tx (TxPayload tx) module
  end.

Definition ante_CheckTx (rt : Runtime M S) (actx : AppContext) (tx : Tx) : result unit :=
  match rt_ante rt with
  | None => Ok tt
  | Some config =>
      Ante_CheckTx ed25519_Verify config (actx_ChainID actx) (rt_store rt) (actx_Ctx actx) tx
  end.

(** [CheckTxContext]; the response is the error that makes its code 1. *)
Definition Runtime_CheckTx (rt : Runtime M S) (ctx : Ctx) (tx : Tx) : result unit :=
  let actx := newContext rt ctx (rt_height rt) zero_header in
  ctx_guard ctx ≫= λ _,
  ante_CheckTx rt actx tx ≫= λ _,
  index ← RouteTx (rt_router rt) (TxPayload tx) (rt_modules rt);
  check_routed rt actx tx index.

Definition ErrInvalidTransaction := ErrNew "errors.New(invalid transaction)".

(** The loop of [validateTxsContext]. *)
Fixpoint validate_txs (rt : Runtime M S) (actx : AppContext) (txs : list Tx) : result unit :=
  match txs with
  | [] => Ok tt
  | tx :: txs =>
      match RouteTx (rt_router rt) (TxPayload tx) (rt_modules rt) with
      | Err _ => Err ErrInvalidTransaction
      | Ok index => check_routed rt actx tx index ≫= λ _, validate_txs rt actx txs
      end
  end.

Definition validateTxsContext (rt : Runtime M S) (ctx : Ctx) (height : Height) (header : Header)
    (txs : list Tx) : result unit :=
  ctx_guard ctx ≫= λ _,
  let actx := newContext rt ctx height header in
  match rt_ante rt with
  | None => Ok tt
  | Some config =>
      Ante_CheckBlock ed25519_Verify config (actx_ChainID actx) (rt_store rt) (actx_Ctx actx) txs
  end ≫= λ _,
  validate_txs rt actx txs.

Definition CheckTxsContext (rt : Runtime M S) (ctx : Ctx) (txs : list Tx) : result unit :=
  validateTxsContext rt ctx (rt_height rt) zero_header txs.

(** ** Proposals *)

Definition PrepareProposal (rt : Runtime M S) (ctx : Ctx) (height : Height) (txs : list Tx)
    : result (list Tx) :=
  ctx_guard ctx ≫= λ _,
  let salt := orderingSalt rt height in
  let ordered := SortTxsWithSalt salt txs in
  if bool_decide (0 < length ordered)%nat && is_ok (CheckTxsContext rt ctx ordered) then Ok ordered
  else Ok (SortTxsWithSalt salt (filter (λ tx, is_ok (Runtime_CheckTx rt ctx tx) = true) ordered)).

(** The reason of a rejection. *)
Definition ErrOrderingMismatch := ErrNew "transaction ordering mismatch".

Definition ProcessProposal (rt : Runtime M S) (ctx : Ctx) (block : Block) : result unit :=
  ctx_guard ctx ≫= λ _,
  let height := Header_Height (Block_Header block) in
  check ErrOrderingMismatch (IsOrderedWithSalt (orderingSalt rt height) (Block_Txs block)) ≫= λ _,
  validateTxsContext rt ctx height (Block_Header block) (Block_Txs block).

(** ** Execution *)

Section execution.
Context {T : Type} `{!StateStore T} `{!SnapshotStore T} `{!RootStore T}.

(** The loop over [BeginBlock] of all modules. *)
Fixpoint begin_blocks (actx : AppContext) (header : Header) (modules : list M) (store : option T)
    : list M * option T * result unit :=
  match modules with
  | [] => ([], store, Ok tt)
  | module :: modules =>
      let '(module, store, r) := mod_BeginBlock module actx store header in
      match r with
      | Err e => (module :: modules, store, Err e)
      | Ok _ =>
          let '(modules, store, r) := begin_blocks actx header modules store in
          (module :: modules, store, r)
      end
  end.

Fixpoint end_blocks (actx : AppContext) (modules : list M) (store : option T)
    : list M * option T * result unit :=
  match modules with
  | [] => ([], store, Ok tt)
  | module :: modules =>
      let '(module, store, r) := mod_EndBlock module actx store in
      match r with
      | Err e => (module :: modules, store, Err e)
      | Ok _ =>
          let '(modules, store, r) := end_blocks actx modules store in (module :: modules, store, r)
      end
  end.

Definition collectTxEvents (actx : AppContext) (module : M) (store : option T) (tx : Tx) (result : Result)
    : list Event :=
  match mod_Events module with
  | None => []
  | Some emit => emit actx store tx result
  end.

(** [fmt.Sprintf] of gas and fee. *)
Definition gas_data (gasUsed feePaid : Z) : bytes :=
  bytes_of_string ("gas_used=" ++ format_uint gasUsed ++ " fee_paid=" ++ format_uint feePaid).

(** The result with gas, fee and, unless the module set it, data. *)
Definition finish_result (gas : option GasMeter) (tx : Tx) (result : Result) : Result :=
  let gasUsed := if bool_decide (Gas_Used gas = 0) then Ante_GasLimit tx else Gas_Used gas in
  let feePaid := Ante_FeePaid tx in
  mkResult (Result_Code result) (Result_Log result)
    (if bool_decide (Result_Data result = []) then gas_data gasUsed feePaid else Result_Data result)
    gasUsed feePaid.

Definition before_tx (ante : option AnteConfig) (actx : AppContext) (store : option T) (tx : Tx)
    : result (option GasMeter) :=
  match ante with
  | None => Ok None
  | Some config =>
      Ante_CheckTx ed25519_Verify config (actx_ChainID actx) store (actx_Ctx actx) tx ≫= λ _,
      Ok (Some (NewGasMeter (Ante_GasLimit tx)))
  end.

Definition after_tx (ante : option AnteConfig) (actx : AppContext) (store : option T)
    (gas : option GasMeter) (tx : Tx) (res : Result) : option T * result Result :=
  match ante with
  | None => (store, Ok res)
  | Some config =>
      match Ante_AfterTx config store (actx_Ctx actx) tx with
      | (store, Err e) => (store, Err e)
      | (store, Ok _) => (store, Ok (finish_result gas tx res))
      end
  end.

(** One transaction of a block: ante checks, routing, delivery, fees, events. *)
Definition deliver_tx (router : Router) (ante : option AnteConfig) (actx : AppContext) (modules : list M)
    (store : option T) (tx : Tx) : list M * option T * result (Result * list Event) :=
  match before_tx ante actx store tx ≫= λ gas,
        index ← RouteTx router (TxPayload tx) modules; Ok (gas, index) with
  | Err e => (modules, store, Err e)
  | Ok (gas, index) =>
      match modules !! index with
      | None => (modules, store, Err ErrNoModules)
      | Some module =>
          let '(module, store, gas, delivered) := mod_DeliverTx module actx store gas (TxPayload tx) in
          let modules := <[index := module]> modules in
          if bool_decide (Result_Code delivered ≠ 0)
          then (modules, store, Err (ErrWrap [] (Result_Log delivered)))
          else
            match after_tx ante actx store gas tx delivered with
            | (store, Err e) => (modules, store, Err e)
            | (store, Ok delivered) =>
                (modules, store,
                 Ok (delivered, collectTxEvents actx module store (TxPayload tx) delivered))
            end
      end
  end.

(** The loop over the transactions of a block. *)
Fixpoint deliver_txs (router : Router) (ante : option AnteConfig) (actx : AppContext) (modules : list M)
    (store : option T) (txs : list Tx) : list M * option T * result (list (Result * list Event)) :=
  match txs with
  | [] => (modules, store, Ok [])
  | tx :: txs =>
      let '(modules, store, r) := deliver_tx router ante actx modules store tx in
      match r with
      | Err e => (modules, store, Err e)
      | Ok delivered =>
          let '(modules, store, r) := deliver_txs router ante actx modules store txs in
          (modules, store, rest ← r; Ok (delivered :: rest))
      end
  end.

(** The bytes hashed for the modules of a store with roots. *)
Definition module_roots (ctx : Ctx) (modules : list M) (store : option T) : bytes :=
  match store, store_Root with
  | Some store, Some root =>
      modules ≫= λ module,
        match root store ctx (mod_Name module) with
        | Err _ => []
        | Ok root => bytes_of_string (mod_Name module) ++ hash_bytes root
        end
  | _, _ => []
  end.

Definition computeAppHashAtHeight (chainID : string) (ctx : Ctx) (height : Height) (modules : list M)
    (store : option T) : Hash :=
  sha256 (bytes_of_string chainID ++ be64 height ++ module_roots ctx modules store).

Definition collectValidatorUpdates (actx : AppContext) (modules : list M) (store : option T)
    : list ValidatorUpdate :=
  modules ≫= λ module,
    match mod_ValidatorUpdates module with
    | None => []
    | Some updates => updates actx store
    end.

(** [FinalizeBlockResponse] *)
Record FinalizeBlockResponse := mkFinalizeResponse {
  Finalize_Results : list Result;
  Finalize_TxEvents : list (list Event);
  Finalize_AppHash : Hash;
  Finalize_ValidatorUpdates : list ValidatorUpdate
}.

(** Indexing applies when the store is a [KVStore], one with roots. *)
Definition index_store (ctx : Ctx) (height : Height) (store : option T) (txEvents : list (list Event))
    : option T * result unit :=
  match store, store_Root (T:=T) with
  | Some store, Some _ => let '(store, r) := IndexBlock store ctx height txEvents in (Some store, r)
  | _, _ => (store, Ok tt)
  end.

(** [finalizeBlockWithStore] after the proposal was accepted: the modules and the
    execution store after it, and the response. *)
Definition execute_block (rt : Runtime M S) (ctx : Ctx) (block : Block) (store : option T)
    : list M * option T * result FinalizeBlockResponse :=
  let header := Block_Header block in
  let height := Header_Height header in
  let actx := newContext rt ctx height header in
  let '(modules, store, r) := begin_blocks actx header (rt_modules rt) store in
  match r with
  | Err e => (modules, store, Err e)
  | Ok _ =>
      let '(modules, store, r) :=
        deliver_txs (rt_router rt) (rt_ante rt) actx modules store (Block_Txs block) in
      match r with
      | Err e => (modules, store, Err e)
      | Ok delivered =>
          let results := delivered.*1 in
          let txEvents := delivered.*2 in
          let end_actx :=
            mkAppContext ctx (actx_ChainID actx) (actx_EVMChainID actx) (actx_BaseFee actx)
              (actx_BlobBaseFee actx) height header block results in
          let '(modules, store, r) := end_blocks end_actx modules store in
          match r with
          | Err e => (modules, store, Err e)
          | Ok _ =>
              match index_store ctx height store txEvents with
              | (store, Err e) => (modules, store, Err e)
              | (store, Ok _) =>
                  (modules, store,
                   Ok (mkFinalizeResponse results txEvents
                         (computeAppHashAtHeight (rt_chainID rt) ctx height modules store)
                         (collectValidatorUpdates end_actx modules store)))
              end
          end
      end
  end.
End execution.

Definition accept_block (rt : Runtime M S) (ctx : Ctx) (block : Block) : result unit :=
  ctx_guard ctx ≫= λ _,
  match ProcessProposal rt ctx block with
  | Ok _ => Ok tt
  | Err e =>
      if bool_decide (error_text e = "") then Err ErrProposalRejected
      else Err (ErrWrap [ErrProposalRejected] (error_text e))
  end.

(** [FinalizeBlockContext]: execution on the store of the runtime. *)
Definition FinalizeBlock (rt : Runtime M S) (ctx : Ctx) (block : Block)
    : Runtime M S * result FinalizeBlockResponse :=
  match accept_block rt ctx block with
  | Err e => (rt, Err e)
  | Ok _ =>
      let '(modules, store, r) := execute_block rt ctx block (rt_store rt) in
      let rt := rt_set_store (rt_set_modules rt modules) store in
      match r with
      | Err e => (rt, Err e)
      | Ok response =>
          (CommitStagedBlock rt (Header_Height (Block_Header block)) (Finalize_AppHash response), Ok response)
      end
  end.

(** [FinalizeBlockStagedContext]: execution on a staged store over it. *)
Definition FinalizeBlockStaged `{!SnapshotStore (StagedStore S)} `{!RootStore (StagedStore S)} (rt : Runtime M S) (ctx : Ctx) (block : Block)
    : Runtime M S * result (FinalizeBlockResponse * list KVWrite) :=
  match rt_store rt with
  | None =>
      let '(rt, r) := FinalizeBlock rt ctx block in (rt, response ← r; Ok (response, []))
  | Some base =>
      match accept_block rt ctx block with
      | Err e => (rt, Err e)
      | Ok _ =>
          let '(modules, staged, r) := execute_block rt ctx block (Some (NewStagedStore (Some base))) in
          (rt_set_modules rt modules,
           response ← r; Ok (response, match staged with Some staged => Staged_Writes staged | None => [] end))
      end
  end.

(** ** Chain start and queries *)

Fixpoint bind_stores (actx : AppContext) (modules : list M) (store : option S) : list M * result unit :=
  match modules with
  | [] => ([], Ok tt)
  | module :: modules =>
      match mod_BindStore module with
      | None => let '(modules, r) := bind_stores actx modules store in (module :: modules, r)
      | Some bind =>
          match bind actx store with
          | (module, Err e) => (module :: modules, Err e)
          | (module, Ok _) => let '(modules, r) := bind_stores actx modules store in (module :: modules, r)
          end
      end
  end.

Definition bindStoreWithContext (rt : Runtime M S) (actx : AppContext) : Runtime M S * result unit :=
  match rt_store rt with
  | None => (rt, Ok tt)
  | Some _ => let '(modules, r) := bind_stores actx (rt_modules rt) (rt_store rt) in (rt_set_modules rt modules, r)
  end.

(** [WithStore] and [Restore] ignore errors of the binders. *)
Definition WithStore (rt : Runtime M S) (store : S) : Runtime M S :=
  let rt := rt_set_store rt (Some store) in
  (bindStoreWithContext rt (newContext rt None (rt_height rt) zero_header)).1.

Definition Restore (rt : Runtime M S) (height : Height) (appHash : Hash) : Runtime M S :=
  let rt := CommitStagedBlock rt height appHash in
  (bindStoreWithContext rt (newContext rt None (rt_height rt) zero_header)).1.

(** The modules of a replay: clones, or the modules themselves when they neither
    clone nor bind to a store. *)
Fixpoint replay_modules (modules : list M) : result (list M) :=
  match modules with
  | [] => Ok []
  | module :: modules =>
      match mod_CloneModule module, mod_BindStore (T:=S) module with
      | Some clone, _ => rest ← replay_modules modules; Ok (clone :: rest)
      | None, Some _ => Err ErrReplayCloneUnavailable
      | None, None => rest ← replay_modules modules; Ok (module :: rest)
      end
  end.

Definition NewReplayApp (rt : Runtime M S) (store : option S) : result (Runtime M S) :=
  modules ← replay_modules (rt_modules rt);
  replay ← NewRuntime (rt_chainID rt) modules (Some (rt_router rt));
  let replay := rt_set_ante (WithEVMChainID replay (rt_evmChainID rt)) (rt_ante rt) (rt_baseFee rt) in
  let replay := SetBlobBaseFee replay (rt_blobBaseFee rt) in
  Ok (match store with None => replay | Some store => WithStore replay store end).

Fixpoint init_modules (actx : AppContext) (genesis : GenesisState) (modules : list M) (store : option S)
    : list M * option S * result unit :=
  match modules with
  | [] => ([], store, Ok tt)
  | module :: modules =>
      let '(module, store, r) := mod_InitGenesis module actx store genesis in
      match r with
      | Err e => (module :: modules, store, Err e)
      | Ok _ =>
          let '(modules, store, r) := init_modules actx genesis modules store in
          (module :: modules, store, r)
      end
  end.

(** [InitChain]: the chain id of the request, if any, replaces the one of the
    runtime, which is not empty. *)
Definition InitChain (rt : Runtime M S) (chainID : string) (genesis : GenesisState)
    : Runtime M S * result Hash :=
  let chainID := if bool_decide (chainID = "") then rt_chainID rt else chainID in
  if bool_decide (chainID = "") then (rt, Err ErrEmptyChainID)
  else
    let rt := mkRuntime chainID (rt_evmChainID rt) (rt_modules rt) (rt_router rt) (rt_ante rt) (rt_store rt)
                (rt_height rt) (rt_appHash rt) (rt_baseFee rt) (rt_blobBaseFee rt) in
    let actx := newContext rt None 0 zero_header in
    match bindStoreWithContext rt actx with
    | (rt, Err e) => (rt, Err e)
    | (rt, Ok _) =>
        let '(modules, store, r) := init_modules actx genesis (rt_modules rt) (rt_store rt) in
        let rt := rt_set_store (rt_set_modules rt modules) store in
        match r with
        | Err e => (rt, Err e)
        | Ok _ =>
            let appHash := computeAppHashAtHeight (rt_chainID rt) None (rt_height rt) modules store in
            (CommitStagedBlock rt (rt_height rt) appHash, Ok appHash)
        end
    end.

(** [QueryContext]: code, value and log. *)
Definition Runtime_Query (rt : Runtime M S) (ctx : Ctx) (path : list string) (data : bytes)
    : Z * bytes * string :=
  match ctx, path with
  | Some e, _ => (1, [], error_text e)
  | None, name :: path =>
      if bool_decide (name = "") then (1, [], "query module is required")
      else
        match (index ← find_module name (rt_modules rt) 0; rt_modules rt !! index) with
        | None => (3, [], "query module not found")
        | Some module =>
            match mod_Query module with
            | None => (2, [], "module query is unavailable")
            | Some query => query (newContext rt ctx (rt_height rt) zero_header) (rt_store rt) path data
            end
        end
  | None, [] => (1, [], "query module is required")
  end.
End runtime.

(** ** The bank module as a module of the runtime *)

#[global] Instance bank_ops (error_text : error → string) (order : MapOrder string bytes)
    : ModuleOps BankModule := {|
  mod_Name _ := BankName;
  mod_InitGenesis _ _ _ module actx store genesis :=
    let '(store, r) := Bank_InitGenesis order store (actx_Ctx actx) genesis in (module, store, r);
  mod_BeginBlock _ _ _ module _ store _ := (module, store, Ok tt);
  mod_DeliverTx _ _ _ module actx store gas tx :=
    let '(store, gas, delivered) := Bank_DeliverTx error_text module store gas (actx_Ctx actx) tx in
    (module, store, gas, delivered);
  mod_EndBlock _ _ _ module _ store := (module, store, Ok tt);
  mod_EstimateGas _ _ _ _ := Some (λ _ _ tx, Bank_EstimateGas tx);
  mod_ValidateTx _ _ _ _ := None;
  mod_Events _ _ _ _ := None;
  mod_ValidatorUpdates _ _ _ _ := None;
  mod_Query _ _ _ _ := Some (λ actx store path _, Bank_Query error_text store (actx_Ctx actx) path);
  mod_BindStore _ _ _ _ := None;
  mod_CloneModule module := Some module
|}.
