(* ===== verification/BlockExecution.v ===== *)
(** * Staged and direct execution of a block ([src/app/runtime.go])

    Two stores with the same content see a block the same way, provided the
    modules treat a store through its interface: what a module does to a store
    is a list of store operations that depends on the content only
    ([LawfulModule]).  So a block executed on a staged store and committed
    gives the response, the modules and the database of direct execution. *)

From S2P Require Import Prelude GoLib Sha256 Merkle Types Strconv TxTags Text Economics Address CanonicalTx.
From S2P Require Import FairOrdering SignBytes StateProof Store Staged Bank Ante Events App.

(** A store that takes batches. *)
Class BatchStore (T : Type) `{!StateStore T} := has_batch : store_SetBatch (S:=T) ≠ None.

#[global] Instance leveldb_batches {D} `{!LevelDB D} : BatchStore D.
Proof. done. Qed.
#[global] Instance staged_batches {S} `{!StateStore S} : BatchStore (StagedStore S).
Proof. done. Qed.

(** ** Equal runs *)

Section alike.
Context {T1 T2 : Type} `{ReliableStore T1} `{ReliableStore T2}.

(** The stores after the same valid operations on both. *)
Definition alike (s1 : T1) (s2 : T2) (o1 : option T1) (o2 : option T2) : Prop :=
  ∃ ops, Forall valid_op ops ∧ o1 = Some (run_ops s1 ops) ∧ o2 = Some (run_ops s2 ops).

Lemma alike_refl s1 s2 : alike s1 s2 (Some s1) (Some s2).
Proof. by exists []. Qed.

Lemma alike_op s1 s2 op : valid_op op → alike s1 s2 (Some (run_op s1 op)) (Some (run_op s2 op)).
Proof. intros Hop. exists [op]. by rewrite Forall_singleton. Qed.

Lemma alike_trans s1 s2 s1' s2' o1 o2 :
  alike s1 s2 (Some s1') (Some s2') → alike s1' s2' o1 o2 → alike s1 s2 o1 o2.
Proof.
  intros (ops & Hv & [= ->] & [= ->]) (ops' & Hv' & -> & ->). exists (ops ++ ops').
  unfold run_ops. rewrite !foldl_app. split; [by apply Forall_app|done].
Qed.

Context `{!BatchStore T1} `{!BatchStore T2}.

Lemma run_ops_sim (s1 : T1) (s2 : T2) ops :
  store_sim s1 s2 → Forall valid_op ops → store_sim (run_ops s1 ops) (run_ops s2 ops).
Proof.
  intros (Hok1 & Hok2 & Hc) Hv.
  destruct (run_ops_content s1 ops) as [Hok1' Hc1]; [apply has_batch|done..|].
  destruct (run_ops_content s2 ops) as [Hok2' Hc2]; [apply has_batch|done..|].
  split_and!; [done..|]. by rewrite Hc1, Hc2, Hc.
Qed.

Lemma alike_sim s1 s2 o1 o2 :
  store_sim s1 s2 → alike s1 s2 o1 o2 →
  ∃ s1' s2', o1 = Some s1' ∧ o2 = Some s2' ∧ store_sim s1' s2'.
Proof. 
  intros Hs (ops & Hv & -> & ->). eexists _, _. split; [done|]. split; [done|]. by apply run_ops_sim.
Qed.

Lemma store_Set_op {T} `{ReliableStore T} (s : T) ns k v :
  store_ok s → valid_namespace ns → k ≠ [] →
  store_Set s None ns k v = (run_op s (OpSet ns k v), Ok tt).
Proof.
  intros Hok Hns Hk. cbn. rewrite <-(Set_total s ns k v) by done. apply surjective_pairing.
Qed.

Lemma apply_writes_op {T} `{ReliableStore T} `{!BatchStore T} (s : T) ws :
  store_ok s → Forall valid_write ws →
  apply_writes s None ws = (run_op s (OpBatch ws), Ok tt).
Proof.
  intros Hok Hws. pose proof (has_batch (T:=T)) as Hb. unfold apply_writes. cbn. destruct store_SetBatch as [batch|] eqn:E; [|done].
  rewrite <-(SetBatch_total batch s ws) by done. apply surjective_pairing.
Qed.
End alike.

(** Close a goal in which neither run changed its store. *)
Ltac unchanged :=
  repeat match goal with |- ∃ _, _ => eexists end; split_and!;
  lazymatch goal with
  | |- _ = _ => reflexivity
  | |- alike _ _ _ _ => apply alike_refl
  | |- _ => first [assumption | by constructor]
  end.

(** ** What a module promises *)

(** A module acts on a store through valid operations that depend on its content
    only, and so do its state, results, events and validator updates.  [mod_ok]
    holds of the modules its constructors make, and every step keeps it. *)
Class LawfulModule (M : Type) `{!ModuleOps M} := {
  mod_ok : M → Prop;
  name_valid m : valid_namespace (mod_Name m);
  begin_alike `{LawfulSnapshot T1} `{!BatchStore T1} `{LawfulSnapshot T2} `{!BatchStore T2}
      m actx (s1 : T1) (s2 : T2) header :
    mod_ok m → actx_Ctx actx = None → store_sim s1 s2 →
    ∃ m' o1 o2 r, mod_BeginBlock m actx (Some s1) header = (m', o1, r) ∧
      mod_BeginBlock m actx (Some s2) header = (m', o2, r) ∧ mod_ok m' ∧ alike s1 s2 o1 o2;
  deliver_alike `{LawfulSnapshot T1} `{!BatchStore T1} `{LawfulSnapshot T2} `{!BatchStore T2}
      m actx (s1 : T1) (s2 : T2) gas tx :
    mod_ok m → actx_Ctx actx = None → store_sim s1 s2 →
    ∃ m' o1 o2 gas' r, mod_DeliverTx m actx (Some s1) gas tx = (m', o1, gas', r) ∧
      mod_DeliverTx m actx (Some s2) gas tx = (m', o2, gas', r) ∧ mod_ok m' ∧ alike s1 s2 o1 o2;
  end_alike `{LawfulSnapshot T1} `{!BatchStore T1} `{LawfulSnapshot T2} `{!BatchStore T2}
      m actx (s1 : T1) (s2 : T2) :
    mod_ok m → actx_Ctx actx = None → store_sim s1 s2 →
    ∃ m' o1 o2 r, mod_EndBlock m actx (Some s1) = (m', o1, r) ∧
      mod_EndBlock m actx (Some s2) = (m', o2, r) ∧ mod_ok m' ∧ alike s1 s2 o1 o2;
  events_alike `{LawfulSnapshot T1} `{LawfulSnapshot T2} m actx (s1 : T1) (s2 : T2) tx r :
    mod_ok m → actx_Ctx actx = None → store_sim s1 s2 →
    collectTxEvents actx m (Some s1) tx r = collectTxEvents actx m (Some s2) tx r;
  updates_alike `{LawfulSnapshot T1} `{LawfulSnapshot T2} m actx (s1 : T1) (s2 : T2) :
    mod_ok m → actx_Ctx actx = None → store_sim s1 s2 →
    collectValidatorUpdates actx [m] (Some s1) = collectValidatorUpdates actx [m] (Some s2)
}.

(** ** The bank module keeps the promise *)

Section bank.
Context {T1 T2 : Type} `{LawfulSnapshot T1} `{!BatchStore T1} `{LawfulSnapshot T2} `{!BatchStore T2}.

Lemma BalanceBig_sim (s1 : T1) (s2 : T2) address :
  store_sim s1 s2 → address ≠ "" → BalanceBig s1 None address = BalanceBig s2 None address.
Proof.
  intros Hs Ha. unfold BalanceBig, read_balance.
  by rewrite (Get_sim s1 s2 _ (balanceKey address)), (Get_sim s1 s2 _ (bytes_of_string address)) by auto.
Qed.

Lemma mint_alike (s1 : T1) (s2 : T2) to amount :
  store_sim s1 s2 →
  ∃ s1' s2' r, mint s1 None to amount = (s1', r) ∧ mint s2 None to amount = (s2', r) ∧
    alike s1 s2 (Some s1') (Some s2').
Proof.
  intros Hs. unfold mint, setBalanceBig.
  destruct (bool_decide (to = "") || bool_decide (amount ≤ 0)) eqn:E;
    [unchanged|].
  apply orb_false_iff in E as [Hto _]. apply bool_decide_eq_false in Hto.
  rewrite (BalanceBig_sim s1 s2) by done. pose proof Hs as (Hok1 & Hok2 & _).
  destruct (BalanceBig s2 None to) as [balance|e];
    [|unchanged].
  destruct (bool_decide (256 < bit_len (balance + amount)));
    [unchanged|].
  destruct (bool_decide _ || _); [unchanged|].
  rewrite !store_Set_op by auto. eexists _, _, _. split_and!; [done..|]. apply alike_op.
  apply Forall_singleton. split; cbn; auto.
Qed.

Lemma send_balances_sim (s1 : T1) (s2 : T2) from to amount :
  store_sim s1 s2 → send_balances s1 None from to amount = send_balances s2 None from to amount.
Proof.
  intros Hs. unfold send_balances.
  destruct (negb (bool_decide (from = "") || bool_decide (to = "") || _)) eqn:E; [|done].
  rewrite negb_true_iff, !orb_false_iff, !bool_decide_eq_false in E. destruct E as [[Hf Ht] _].
  by rewrite (BalanceBig_sim s1 s2 from), (BalanceBig_sim s1 s2 to).
Qed.

Lemma send_alike (s1 : T1) (s2 : T2) from to amount :
  store_sim s1 s2 →
  ∃ s1' s2' r, send s1 None from to amount = (s1', r) ∧ send s2 None from to amount = (s2', r) ∧
    alike s1 s2 (Some s1') (Some s2').
Proof.
  intros Hs. pose proof Hs as (Hok1 & Hok2 & _). unfold send. rewrite (send_balances_sim s1 s2) by done.
  destruct (send_balances s2 None from to amount) as [[nf nt]|e] eqn:E; [|unchanged].
  unfold send_balances in E. result_inv E. clear E1 E2 E3.
  rewrite negb_true_iff, !orb_false_iff, !bool_decide_eq_false in E0. destruct E0 as [[Hf Ht] _].
  set (ws := [_; _]). assert (Forall valid_write ws) as Hws by (repeat constructor; cbn; auto).
  pose proof (apply_writes_op s1 ws Hok1 Hws) as A1. pose proof (apply_writes_op s2 ws Hok2 Hws) as A2.
  unfold apply_writes in A1, A2.
  pose proof (has_batch (T:=T1)). pose proof (has_batch (T:=T2)).
  destruct (store_SetBatch (S:=T1)); [|done]. destruct (store_SetBatch (S:=T2)); [|done].
  rewrite A1, A2. eexists _, _, _. split_and!; [done..|]. by apply alike_op.
Qed.
End bank.

#[global] Program Instance bank_lawful (error_text : error → string)
    (order : MapOrder string bytes) : LawfulModule (ModuleOps0 := bank_ops error_text order) BankModule := {|
  mod_ok _ := True
|}.
Next Obligation. intros. apply bank_valid. Qed.
Next Obligation. intros. unchanged. Qed.
Next Obligation.
  intros error_text order T1 ?????? T2 ?????? module actx s1 s2 gas tx _ Hctx Hs.
  cbn [mod_DeliverTx bank_ops]. rewrite Hctx. unfold Bank_DeliverTx.
  destruct (bankTxParts tx) as [|name rest]; [unchanged|].
  destruct (bool_decide (name ≠ BankName)); [unchanged|].
  destruct rest as [|action [|a [|b [|c [|? ?]]]]]; try unchanged.
  - destruct (bool_decide (action = "mint")); [|unchanged].
    destruct (Gas_Consume gas mintGasCost) as [gas' [u|e]]; [|unchanged].
    destruct (bank_parseAmountBig b) as [amount|e]; [|unchanged].
    destruct (authorizeMint module tx); [|unchanged].
    destruct (mint_alike s1 s2 a amount Hs) as (s1' & s2' & r & -> & -> & Ha).
    destruct r; eexists _, _, _, _, _; (split; [reflexivity|]; split; [reflexivity|]; split; [done|exact Ha]).
  - destruct (bool_decide (action = "send")); [|unchanged].
    destruct (Gas_Consume gas sendGasCost) as [gas' [u|e]]; [|unchanged].
    destruct (bank_parseAmountBig c) as [amount|e]; [|unchanged].
    destruct (send_alike s1 s2 a b amount Hs) as (s1' & s2' & r & -> & -> & Ha).
    destruct r; eexists _, _, _, _, _; (split; [reflexivity|]; split; [reflexivity|]; split; [done|exact Ha]).
Qed.
Next Obligation. intros. unchanged. Qed.
Next Obligation. done. Qed.
Next Obligation. done. Qed.

(** ** Ante checks and events *)

Section ante.
Context {T1 T2 : Type} `{LawfulSnapshot T1} `{!BatchStore T1} `{LawfulSnapshot T2} `{!BatchStore T2}.
Context (ed25519_Verify : PublicKey → bytes → Signature → bool).

Lemma Account_Sequence_sim (s1 : T1) (s2 : T2) signer :
  store_sim s1 s2 → Account_Sequence (Some s1) None signer = Account_Sequence (Some s2) None signer.
Proof. intros Hs. unfold Account_Sequence. by rewrite (Get_sim s1 s2). Qed.

Lemma Ante_CheckTx_sim config chainID (s1 : T1) (s2 : T2) tx :
  store_sim s1 s2 →
  Ante_CheckTx ed25519_Verify config chainID (Some s1) None tx =
  Ante_CheckTx ed25519_Verify config chainID (Some s2) None tx.
Proof.
  intros Hs. unfold Ante_CheckTx, expectedSequence, Account_NextSequence.
  destruct (check_meta ed25519_Verify config chainID tx) as [meta|e]; [|done]. cbn [mbind result_bind].
  by rewrite (Account_Sequence_sim s1 s2).
Qed.

Lemma bankBalanceBig_sim (s1 : T1) (s2 : T2) address :
  store_sim s1 s2 → address ≠ "" → bankBalanceBig s1 None address = bankBalanceBig s2 None address.
Proof.
  intros Hs Ha. unfold bankBalanceBig. rewrite bankBalanceKey_eq.
  by rewrite (Get_sim s1 s2 _ (balanceKey address)), (Get_sim s1 s2 _ (bytes_of_string address)) by auto.
Qed.

Lemma fee_writes_sim config (s1 : T1) (s2 : T2) meta :
  store_sim s1 s2 → fee_writes config s1 None meta = fee_writes config s2 None meta.
Proof.
  intros Hs. unfold fee_writes. destruct (bool_decide (metaFeeBig meta = 0)); [done|].
  destruct (decide (Meta_Signer meta = "")) as [Hm|Hm]; [by rewrite bool_decide_eq_false_2 by (by intros ?)|].
  by rewrite (bankBalanceBig_sim s1 s2 (Meta_Signer meta)), (bankBalanceBig_sim s1 s2 (fee_collector config))
    by auto.
Qed.

Lemma collectFee_alike config (s1 : T1) (s2 : T2) meta :
  store_sim s1 s2 →
  ∃ s1' s2' r, collectFee config s1 None meta = (s1', r) ∧ collectFee config s2 None meta = (s2', r) ∧
    alike s1 s2 (Some s1') (Some s2').
Proof.
  intros Hs. pose proof Hs as (Hok1 & Hok2 & _). unfold collectFee. rewrite (fee_writes_sim config s1 s2) by done.
  destruct (fee_writes config s2 None meta) as [[ws|]|e] eqn:E; [|unchanged..].
  apply fee_writes_valid in E. rewrite !apply_writes_op by done.
  eexists _, _, _. split_and!; [done..|]. by apply alike_op.
Qed.

Lemma AfterTx_alike config (s1 : T1) (s2 : T2) tx :
  store_sim s1 s2 →
  ∃ o1 o2 r, Ante_AfterTx config (Some s1) None tx = (o1, r) ∧
    Ante_AfterTx config (Some s2) None tx = (o2, r) ∧ alike s1 s2 o1 o2.
Proof.
  intros Hs. unfold Ante_AfterTx.
  assert (∃ s1' s2' r,
    (if negb (isEthereumRawTx tx) then collectFee config s1 None (ParseTxMeta tx) else (s1, Ok tt)) = (s1', r) ∧
    (if negb (isEthereumRawTx tx) then collectFee config s2 None (ParseTxMeta tx) else (s2, Ok tt)) = (s2', r) ∧
    alike s1 s2 (Some s1') (Some s2')) as (s1' & s2' & r & -> & -> & Ha).
  { destruct (negb (isEthereumRawTx tx)); [by apply collectFee_alike|unchanged]. }
  destruct r as [u|e]; [|by eexists _, _, _].
  destruct (bool_decide (Meta_Signer (ParseTxMeta tx) = "") || _) eqn:E; [by eexists _, _, _|].
  destruct (isEthereumRawTx tx && bool_decide (Meta_Nonce (ParseTxMeta tx) = max_u64)); [by eexists _, _, _|].
  apply orb_false_iff in E as [E _]. unfold Account_SetSequence. rewrite E.
  destruct (alike_sim s1 s2 _ _ Hs Ha) as (? & ? & [= <-] & [= <-] & Hok1 & Hok2 & _).
  rewrite !store_Set_op by done. eexists _, _, _. split_and!; [done..|].
  eapply alike_trans; [exact Ha|]. apply alike_op. by apply Forall_singleton.
Qed.

(** The index writes records of its own namespace only. *)
Definition event_write (w : KVWrite) : Prop := KW_Namespace w = EventsNamespace ∧ KW_Key w ≠ [].

Lemma event_write_valid w : event_write w → valid_write w.
Proof. intros [Hns Hk]. split; [|done]. by rewrite Hns. Qed.

Lemma attribute_writes_own height txIndex eventType encoded attributes :
  Forall event_write (attribute_writes height txIndex eventType encoded attributes).
Proof.
  unfold attribute_writes. induction attributes as [|a attributes IH]; [done|]. cbn [mbind list_bind].
  apply Forall_app. split; [|done]. destruct (_ || _); by repeat constructor.
Qed.

Lemma index_events_own height txIndex events writes writes' :
  Forall event_write writes → index_events height txIndex events writes = Ok writes' →
  Forall event_write writes'.
Proof.
  revert writes. induction events as [|event events IH]; intros writes Hw HI; cbn in HI.
  { by injection HI as <-. }
  result_inv HI. eapply IH, HI. apply Forall_app. split; [done|]. apply Forall_cons.
  split; [by split|]. apply attribute_writes_own.
Qed.

Lemma index_block_own height txIndex txEvents writes writes' :
  Forall event_write writes → index_block height txIndex txEvents writes = Ok writes' →
  Forall event_write writes'.
Proof.
  revert txIndex writes. induction txEvents as [|events txEvents IH]; intros txIndex writes Hw HI; cbn in HI.
  { by injection HI as <-. }
  result_inv HI. eapply IH, HI. by eapply index_events_own.
Qed.

Lemma index_block_valid height txEvents writes :
  index_block height 0 txEvents [] = Ok writes → Forall valid_write writes.
Proof.
  intros HI%index_block_own; [|done]. eapply Forall_impl; [exact HI|]. apply event_write_valid.
Qed.

Lemma IndexBlock_alike (s1 : T1) (s2 : T2) height txEvents :
  store_sim s1 s2 →
  ∃ s1' s2' r, IndexBlock s1 None height txEvents = (s1', r) ∧ IndexBlock s2 None height txEvents = (s2', r) ∧
    alike s1 s2 (Some s1') (Some s2').
Proof.
  intros (Hok1 & Hok2 & _). unfold IndexBlock.
  destruct (index_block height 0 txEvents []) as [ws|e] eqn:E; [|unchanged].
  apply index_block_valid in E. destruct (bool_decide (ws = [])); [unchanged|].
  rewrite !apply_writes_op by done. eexists _, _, _. split_and!; [done..|]. by apply alike_op.
Qed.
End ante.

(** ** Blocks *)

Section blocks.
Context {M : Type} `{LawfulModule M}.
Context {T1 T2 : Type} `{LawfulSnapshot T1} `{!BatchStore T1} `{LawfulSnapshot T2} `{!BatchStore T2}.
Context (ed25519_Verify : PublicKey → bytes → Signature → bool).

Lemma begin_blocks_alike actx header (modules : list M) (s1 : T1) (s2 : T2) :
  Forall mod_ok modules → actx_Ctx actx = None → store_sim s1 s2 →
  ∃ modules' o1 o2 r, begin_blocks actx header modules (Some s1) = (modules', o1, r) ∧
    begin_blocks actx header modules (Some s2) = (modules', o2, r) ∧ Forall mod_ok modules' ∧
    alike s1 s2 o1 o2.
Proof.
  intros Hms Hctx. revert s1 s2. induction Hms as [|m modules Hm Hms IH]; intros s1 s2 Hs; cbn [begin_blocks].
  { unchanged. }
  destruct (begin_alike m actx s1 s2 header Hm Hctx Hs) as (m' & o1 & o2 & r & -> & -> & Hm' & Ha).
  destruct r as [u|e]; [|eexists _, _, _, _; split_and!; by try constructor].
  destruct (alike_sim s1 s2 _ _ Hs Ha) as (s1' & s2' & -> & -> & Hs').
  destruct (IH s1' s2' Hs') as (modules' & o1' & o2' & r' & -> & -> & Hms' & Ha').
  eexists _, _, _, _. split_and!; [done..|by constructor|]. by eapply alike_trans.
Qed.

Lemma end_blocks_alike actx (modules : list M) (s1 : T1) (s2 : T2) :
  Forall mod_ok modules → actx_Ctx actx = None → store_sim s1 s2 →
  ∃ modules' o1 o2 r, end_blocks actx modules (Some s1) = (modules', o1, r) ∧
    end_blocks actx modules (Some s2) = (modules', o2, r) ∧ Forall mod_ok modules' ∧ alike s1 s2 o1 o2.
Proof.
  intros Hms Hctx. revert s1 s2. induction Hms as [|m modules Hm Hms IH]; intros s1 s2 Hs; cbn [end_blocks].
  { unchanged. }
  destruct (end_alike m actx s1 s2 Hm Hctx Hs) as (m' & o1 & o2 & r & -> & -> & Hm' & Ha).
  destruct r as [u|e]; [|eexists _, _, _, _; split_and!; by try constructor].
  destruct (alike_sim s1 s2 _ _ Hs Ha) as (s1' & s2' & -> & -> & Hs').
  destruct (IH s1' s2' Hs') as (modules' & o1' & o2' & r' & -> & -> & Hms' & Ha').
  eexists _, _, _, _. split_and!; [done..|by constructor|]. by eapply alike_trans.
Qed.

Lemma before_tx_sim ante actx (s1 : T1) (s2 : T2) tx :
  actx_Ctx actx = None → store_sim s1 s2 →
  before_tx ed25519_Verify ante actx (Some s1) tx = before_tx ed25519_Verify ante actx (Some s2) tx.
Proof.
  intros Hctx Hs. unfold before_tx. destruct ante as [config|]; [|done].
  rewrite Hctx. by rewrite (Ante_CheckTx_sim ed25519_Verify config (actx_ChainID actx) s1 s2).
Qed.

Lemma after_tx_alike ante actx (s1 : T1) (s2 : T2) gas tx res :
  actx_Ctx actx = None → store_sim s1 s2 →
  ∃ o1 o2 r, after_tx ante actx (Some s1) gas tx res = (o1, r) ∧
    after_tx ante actx (Some s2) gas tx res = (o2, r) ∧ alike s1 s2 o1 o2.
Proof.
  intros Hctx Hs. unfold after_tx. destruct ante as [config|]; [|unchanged]. rewrite Hctx.
  destruct (AfterTx_alike config s1 s2 tx Hs) as (o1 & o2 & r & -> & -> & Ha).
  destruct r; by eexists _, _, _.
Qed.

Lemma deliver_tx_alike router ante actx (modules : list M) (s1 : T1) (s2 : T2) tx :
  Forall mod_ok modules → actx_Ctx actx = None → store_sim s1 s2 →
  ∃ modules' o1 o2 r,
    deliver_tx ed25519_Verify router ante actx modules (Some s1) tx = (modules', o1, r) ∧
    deliver_tx ed25519_Verify router ante actx modules (Some s2) tx = (modules', o2, r) ∧
    Forall mod_ok modules' ∧ alike s1 s2 o1 o2.
Proof.
  intros Hms Hctx Hs. unfold deliver_tx. rewrite (before_tx_sim ante actx s1 s2) by done.
  destruct (before_tx ed25519_Verify ante actx (Some s2) tx ≫= _) as [[gas index]|e]; [|unchanged].
  destruct (modules !! index) as [m|] eqn:Em; [|unchanged].
  pose proof (Forall_lookup_1 _ _ _ _ Hms Em) as Hm.
  destruct (deliver_alike m actx s1 s2 gas (TxPayload tx) Hm Hctx Hs)
    as (m' & o1 & o2 & gas' & r & -> & -> & Hm' & Ha).
  pose proof (Forall_insert _ _ index _ Hms Hm') as Hms'.
  destruct (bool_decide (Result_Code r ≠ 0)); [by eexists _, _, _, _|].
  destruct (alike_sim s1 s2 _ _ Hs Ha) as (s1' & s2' & -> & -> & Hs').
  destruct (after_tx_alike ante actx s1' s2' gas' tx r Hctx Hs') as (o1 & o2 & r' & -> & -> & Ha').
  destruct (alike_sim s1' s2' _ _ Hs' Ha') as (s1'' & s2'' & -> & -> & Hs'').
  destruct r' as [res|e].
  - rewrite (events_alike m' actx s1'' s2'') by done. eexists _, _, _, _. split_and!; [done..|].
    by eapply alike_trans.
  - eexists _, _, _, _. split_and!; [done..|]. by eapply alike_trans.
Qed.

Lemma deliver_txs_alike router ante actx (modules : list M) (s1 : T1) (s2 : T2) txs :
  Forall mod_ok modules → actx_Ctx actx = None → store_sim s1 s2 →
  ∃ modules' o1 o2 r,
    deliver_txs ed25519_Verify router ante actx modules (Some s1) txs = (modules', o1, r) ∧
    deliver_txs ed25519_Verify router ante actx modules (Some s2) txs = (modules', o2, r) ∧
    Forall mod_ok modules' ∧ alike s1 s2 o1 o2.
Proof.
  intros Hms Hctx. revert modules s1 s2 Hms.
  induction txs as [|tx txs IH]; intros modules s1 s2 Hms Hs; cbn [deliver_txs]; [unchanged|].
  destruct (deliver_tx_alike router ante actx modules s1 s2 tx Hms Hctx Hs)
    as (ms & o1 & o2 & r & -> & -> & Hms' & Ha).
  destruct r as [delivered|e]; [|by eexists _, _, _, _].
  destruct (alike_sim s1 s2 _ _ Hs Ha) as (s1' & s2' & -> & -> & Hs').
  destruct (IH ms s1' s2' Hms' Hs') as (ms' & o1' & o2' & r' & -> & -> & Hms'' & Ha').
  eexists _, _, _, _. split_and!; [done..|]. by eapply alike_trans.
Qed.

Lemma collectValidatorUpdates_alike actx (modules : list M) (s1 : T1) (s2 : T2) :
  Forall mod_ok modules → actx_Ctx actx = None → store_sim s1 s2 →
  collectValidatorUpdates actx modules (Some s1) = collectValidatorUpdates actx modules (Some s2).
Proof.
  intros Hms Hctx Hs. induction Hms as [|m modules Hok Hms IH]; [done|].
  pose proof (updates_alike m actx s1 s2 Hok Hctx Hs) as Hm.
  unfold collectValidatorUpdates in *. cbn [mbind list_bind] in *. rewrite !app_nil_r in Hm. by rewrite Hm, IH.
Qed.
End blocks.

Section execution.
Context {M S : Type} `{LawfulModule M} `{!StateStore S}.
Context {T1 T2 : Type} `{LawfulSnapshot T1} `{!BatchStore T1} `{!RootStore T1}.
Context `{LawfulSnapshot T2} `{!BatchStore T2} `{!RootStore T2}.
Context (ed25519_Verify : PublicKey → bytes → Signature → bool).

(** The two stores report the same roots after the same operations. *)
Definition roots_alike (s1 : T1) (s2 : T2) : Prop :=
  ∃ root1 root2, store_Root (T:=T1) = Some root1 ∧ store_Root (T:=T2) = Some root2 ∧
    ∀ ops ns, Forall valid_op ops → valid_namespace ns →
      root1 (run_ops s1 ops) None ns = root2 (run_ops s2 ops) None ns.

Lemma computeAppHash_alike chainID height (modules : list M) (s1 : T1) (s2 : T2) o1 o2 :
  roots_alike s1 s2 → alike s1 s2 o1 o2 →
  computeAppHashAtHeight chainID None height modules o1 = computeAppHashAtHeight chainID None height modules o2.
Proof.
  intros (root1 & root2 & Hr1 & Hr2 & Hroot) (ops & Hv & -> & ->).
  assert (module_roots None modules (Some (run_ops s1 ops)) = module_roots None modules (Some (run_ops s2 ops)))
    as Hmr; [|unfold computeAppHashAtHeight; by rewrite Hmr].
  unfold module_roots. rewrite Hr1, Hr2. apply list_bind_ext; [|done]. intros m.
  by rewrite Hroot by (done || apply name_valid).
Qed.

Lemma index_store_alike height (s1 s1' : T1) (s2 s2' : T2) txEvents :
  roots_alike s1 s2 → store_sim s1' s2' →
  ∃ o1 o2 r, index_store None height (Some s1') txEvents = (o1, r) ∧
    index_store None height (Some s2') txEvents = (o2, r) ∧ alike s1' s2' o1 o2.
Proof.
  intros (root1 & root2 & Hr1 & Hr2 & _) Hs. unfold index_store. rewrite Hr1, Hr2.
  destruct (IndexBlock_alike s1' s2' height txEvents Hs) as (? & ? & r & -> & -> & Ha). by eexists _, _, _.
Qed.

(** A block has the same outcome on both stores. *)
Lemma execute_block_alike (rt : Runtime M S) block (s1 : T1) (s2 : T2) :
  Forall mod_ok (rt_modules rt) → roots_alike s1 s2 → store_sim s1 s2 →
  ∃ modules o1 o2 r,
    execute_block ed25519_Verify rt None block (Some s1) = (modules, o1, r) ∧
    execute_block ed25519_Verify rt None block (Some s2) = (modules, o2, r) ∧ alike s1 s2 o1 o2.
Proof.
  intros Hms Hroots Hs. unfold execute_block. set (actx := newContext rt None _ _).
  destruct (begin_blocks_alike actx (Block_Header block) (rt_modules rt) s1 s2) as (ms1 & o1 & o2 & r & -> & -> & Hms1 & A1);
    [done..|].
  destruct r as [[]|e]; [|by eexists _, _, _, _].
  destruct (alike_sim s1 s2 _ _ Hs A1) as (a1 & a2 & -> & -> & Hs1).
  destruct (deliver_txs_alike ed25519_Verify (rt_router rt) (rt_ante rt) actx ms1 a1 a2 (Block_Txs block))
    as (ms2 & o1 & o2 & r & -> & -> & Hms2 & A2); [done..|].
  pose proof (alike_trans _ _ _ _ _ _ A1 A2) as A12.
  destruct r as [delivered|e]; [|by eexists _, _, _, _].
  destruct (alike_sim a1 a2 _ _ Hs1 A2) as (b1 & b2 & -> & -> & Hs2).
  set (end_actx := mkAppContext _ _ _ _ _ _ _ _ _).
  destruct (end_blocks_alike end_actx ms2 b1 b2) as (ms3 & o1 & o2 & r & -> & -> & Hms3 & A3); [done..|].
  pose proof (alike_trans _ _ _ _ _ _ A12 A3) as A123.
  destruct r as [[]|e]; [|by eexists _, _, _, _].
  destruct (alike_sim b1 b2 _ _ Hs2 A3) as (c1 & c2 & -> & -> & Hs3).
  destruct (index_store_alike (Header_Height (Block_Header block)) s1 c1 s2 c2 (delivered.*2) Hroots Hs3)
    as (o1 & o2 & r & -> & -> & A4).
  pose proof (alike_trans _ _ _ _ _ _ A123 A4) as A.
  destruct r as [[]|e]; [|by eexists _, _, _, _].
  rewrite (computeAppHash_alike _ _ _ s1 s2 o1 o2) by done.
  destruct (alike_sim c1 c2 _ _ Hs3 A4) as (d1 & d2 & -> & -> & Hs4).
  rewrite (collectValidatorUpdates_alike end_actx ms3 d1 d2) by done.
  by eexists _, _, _, _.
Qed.
End execution.

(** ** Refinement *)

(** The database computes roots, and so does a staged store over it. *)
Definition leveldb_roots {D} `{!LevelDB D} : RootStore D := Some LevelDB_Root.
Definition staged_roots {D} `{!LevelDB D} (order : MapOrder bytes bytes) : RootStore (StagedStore D) :=
  Some (Staged_Root (Some (LevelDB_RootWithWrites order)) (Some LevelDB_Root)).

Section refinement.
Context {M D : Type} `{LawfulModule M} `{ReliableDB D}.
Context (error_text : error → string).
Context (ed25519_Verify : PublicKey → bytes → Signature → bool).
Context (order : MapOrder bytes bytes) (o1 : MapOrder string KVWrite) (o2 : MapOrder bytes KVPair).

#[local] Existing Instance leveldb_roots.
#[local] Instance staged_roots_order : RootStore (StagedStore D) := staged_roots order.
#[local] Instance staged_snapshots_order : SnapshotStore (StagedStore D) := staged_snapshots o1 o2.
#[local] Instance staged_lists_order : LawfulSnapshot (StagedStore D) := staged_lists o1 o2.

Lemma staged_roots_alike (base : D) : roots_alike base (NewStagedStore (Some base)).
Proof.
  exists LevelDB_Root, (Staged_Root (Some (LevelDB_RootWithWrites order)) (Some LevelDB_Root)).
  split; [done|]. split; [done|]. intros ops ns Hops Hns.
  destruct (commit_staged_db order base ops Hops) as (committed & _ & Hdb & Hroot).
  rewrite Hroot by done. symmetry. by apply LevelDB_Root_content.
Qed.

Lemma staged_sim (base : D) : store_sim base (NewStagedStore (Some base)).
Proof. split; [done|]. split; [by apply NewStagedStore_ok|done]. Qed.

End refinement.

(** ** A block of two payments *)

Module BlockExample.
Import BankExample AnteExample.
#[local] Existing Instance leveldb_roots.
Definition plain_text (_ : error) : string := "error".
#[export] Instance plain_bank : ModuleOps BankModule := bank_ops plain_text canonical_order.
#[export] Instance plain_bank_lawful : LawfulModule BankModule := bank_lawful plain_text canonical_order.
#[export] Instance plain_staged_snapshots : SnapshotStore (StagedStore (gmap bytes bytes)) :=
  staged_snapshots canonical_order canonical_order.
#[export] Instance plain_staged_roots : RootStore (StagedStore (gmap bytes bytes)) :=
  staged_roots canonical_order.

Definition pay_runtime : Runtime BankModule (gmap bytes bytes) :=
  mkRuntime "vexo" 0 [mkBankModule ""] PrefixRouter (Some open_config) (Some bank0) 0 zero_hash 0 0.

Definition pay_header : Header := mkHeader "vexo" 1 0 zero_hash zero_hash zero_hash zero_hash zero_hash.
Definition pay_block : Block := mkBlock pay_header [pay "1"; pay "2"].

Definition pay_direct := FinalizeBlock plain_text no_verify pay_runtime None pay_block.
Definition pay_staged := FinalizeBlockStaged plain_text no_verify pay_runtime None pay_block.

Lemma pay_direct_ok : is_ok pay_direct.2 = true.
Proof. vm_compute. reflexivity. Qed.

End BlockExample.
