(* ===== verification/ProposalChecks.v ===== *)
(** * Preparing and judging proposals ([src/app/runtime.go])

    [PrepareProposal] orders the transactions of the pool and, when they do not
    pass as a block, keeps those that pass one by one.  [ProcessProposal] judges
    the block as a whole.  The two agree when no signer has two transactions
    left; two transactions of a signer with one nonce make a proposer build a
    block that every validator, itself included, rejects. *)

From S2P Require Import Prelude GoLib Sha256 Merkle Types Strconv TxTags Text Economics Address CanonicalTx.
From S2P Require Import FairOrdering SignBytes StateProof Store Staged Bank Ante Events App BlockExecution.

Lemma filter_pair {A} (P : A → Prop) `{!∀ x, Decision (P x)} x y (l : list A) :
  [x; y] ⊆+ l → P x → P y → [x; y] ⊆+ filter P l.
Proof.
  intros [k Hk]%submseteq_Permutation Hx Hy. rewrite Hk. cbn [app].
  rewrite !filter_cons_True by done. apply (submseteq_inserts_r _ [x; y] [x; y]). done.
Qed.

(** ** Nonces of a block *)

Lemma consecutive_lookup first nonces i n :
  consecutive first nonces → nonces !! i = Some n → is_u64 first → n = wrap64 (first + Z.of_nat i).
Proof.
  revert first i. induction nonces as [|m nonces IH]; intros first i HC Hi Hf; [done|].
  destruct HC as [-> HC]. destruct i as [|i].
  - injection Hi as <-. rewrite Z.add_0_r. symmetry. by apply wrap64_small.
  - rewrite (IH _ _ HC Hi (wrap64_u64 _)). unfold wrap64, two64. rewrite Zplus_mod_idemp_l. f_equal. lia.
Qed.

(** Fewer than two to the sixty-four consecutive nonces are different. *)
Lemma consecutive_NoDup first nonces :
  consecutive first nonces → is_u64 first → Z.of_nat (length nonces) < two64 → NoDup nonces.
Proof.
  intros HC Hf Hlen. apply NoDup_alt. intros i j n Hi Hj.
  pose proof (lookup_lt_Some _ _ _ Hi). pose proof (lookup_lt_Some _ _ _ Hj).
  pose proof (consecutive_lookup _ _ _ _ HC Hi Hf) as E1.
  pose proof (consecutive_lookup _ _ _ _ HC Hj Hf) as E2.
  rewrite E1 in E2. unfold wrap64, two64, is_u64 in *. Z.div_mod_to_equations. lia.
Qed.

Section nonces.
Context {S : Type} `{!StateStore S}.
Context (ed25519_Verify : PublicKey → bytes → Signature → bool).

Abbreviation nonce_of tx := (Meta_Nonce (ParseTxMeta tx)).

Lemma expectedSequence_u64 (s : S) ctx signer tx n :
  expectedSequence (Some s) ctx signer tx = Ok n → is_u64 n.
Proof.
  assert (∀ n, Account_Sequence (Some s) ctx signer = Ok n → is_u64 n) as HS.
  { clear n. intros n HS. unfold Account_Sequence in HS. result_inv HS.
    destruct (store_Get s ctx AuthName (nonceKey signer)) as [v|e].
    - result_inv HS. apply bool_decide_eq_true in HS1. subst n.
      pose proof (be_decode_range v) as Hr. rewrite HS1 in Hr. exact Hr.
    - destruct (errors_is e ErrKeyNotFound); [|done]. by injection HS as <-. }
  unfold expectedSequence, Account_NextSequence. destruct (isEthereumRawTx tx); [apply HS|].
  intros HN. result_inv HN. subst n. apply wrap64_u64.
Qed.

(** In a block that passes the checks a signer uses a nonce once. *)
Lemma CheckBlock_distinct config chainID (s : S) ctx txs signer :
  Ante_CheckBlock ed25519_Verify config chainID (Some s) ctx txs = Ok tt → signer ≠ "" →
  Z.of_nat (length txs) < two64 → NoDup ((λ tx, nonce_of tx) <$> sender_txs signer txs).
Proof.
  intros HB Hsig Hlen. apply (check_txs_iff ed25519_Verify config chainID s ctx txs ∅) in HB as [_ HB].
  specialize (HB signer Hsig). pose proof (length_filter (λ tx, Meta_Signer (ParseTxMeta tx) = signer ∧
    Meta_HasNonce (ParseTxMeta tx) = true) txs) as Hf. fold (sender_txs signer txs) in Hf.
  destruct (sender_txs signer txs) as [|tx own]; [constructor|]. destruct HB as (first & Hs & HC).
  unfold next_nonce in Hs. rewrite lookup_empty in Hs.
  eapply consecutive_NoDup; [exact HC|by eapply expectedSequence_u64|]. rewrite length_fmap. lia.
Qed.

(** A transaction that passes [CheckTx] passes the metadata checks and has the
    expected nonce. *)
Lemma Ante_CheckTx_Ok config chainID (s : S) ctx tx :
  Ante_CheckTx ed25519_Verify config chainID (Some s) ctx tx = Ok tt →
  meta_ok ed25519_Verify config chainID tx ∧
  (sequenced tx → expectedSequence (Some s) ctx (Meta_Signer (ParseTxMeta tx)) tx = Ok (nonce_of tx)).
Proof.
  intros HC. unfold Ante_CheckTx, meta_ok in *.
  destruct (check_meta ed25519_Verify config chainID tx) as [meta|e] eqn:EM; [|done].
  apply check_meta_Ok in EM as ->. split; [done|]. intros Hseq.
  cbn [mbind result_bind] in HC. rewrite (proj2 (has_sequence_true s _) Hseq) in HC. cbn [negb] in HC.
  result_inv HC. apply bool_decide_eq_true in HC. by rewrite HC0, HC.
Qed.

(** Two native transactions of a signer that pass carry the same nonce. *)
Lemma same_nonce config chainID (s : S) ctx tx1 tx2 :
  Ante_CheckTx ed25519_Verify config chainID (Some s) ctx tx1 = Ok tt →
  Ante_CheckTx ed25519_Verify config chainID (Some s) ctx tx2 = Ok tt →
  sequenced tx1 → sequenced tx2 → isEthereumRawTx tx1 = false → isEthereumRawTx tx2 = false →
  Meta_Signer (ParseTxMeta tx1) = Meta_Signer (ParseTxMeta tx2) → nonce_of tx1 = nonce_of tx2.
Proof.
  intros HC1 HC2 Hq1 Hq2 Hn1 Hn2 Hsig.
  apply Ante_CheckTx_Ok in HC1 as [_ HC1]. apply Ante_CheckTx_Ok in HC2 as [_ HC2].
  specialize (HC1 Hq1). specialize (HC2 Hq2). unfold expectedSequence in HC1, HC2.
  rewrite Hn1 in HC1. rewrite Hn2 in HC2. rewrite Hsig in HC1. congruence.
Qed.

(** One transaction per signer: checks one by one are checks of the block. *)
Lemma CheckBlock_singles config chainID (s : S) ctx txs :
  Forall (λ tx, Ante_CheckTx ed25519_Verify config chainID (Some s) ctx tx = Ok tt) txs →
  (∀ signer, signer ≠ "" → (length (sender_txs signer txs) ≤ 1)%nat) →
  Ante_CheckBlock ed25519_Verify config chainID (Some s) ctx txs = Ok tt.
Proof.
  intros HF Hone. apply (check_txs_iff ed25519_Verify config chainID s ctx txs ∅). split.
  - eapply Forall_impl; [exact HF|]. intros tx HC. by apply Ante_CheckTx_Ok in HC as [? _].
  - intros signer Hsig. specialize (Hone signer Hsig).
    destruct (sender_txs signer txs) as [|tx [|]] eqn:E; [done| |cbn in Hone; lia].
    assert (tx ∈ sender_txs signer txs) as Htx by (rewrite E; by left).
    apply list_elem_of_filter in Htx as [[Hs Hn] Htx]. rewrite Forall_forall in HF.
    apply HF, Ante_CheckTx_Ok in Htx as [_ Hnx]. exists (nonce_of tx). split; [|done].
    unfold next_nonce. rewrite lookup_empty, <-Hs. apply Hnx. split; [by rewrite Hs|done].
Qed.
End nonces.

(** ** Checks of the runtime *)

Section checks.
Context {M S : Type} `{!ModuleOps M} `{!StateStore S} `{!SnapshotStore S}.
Context (ed25519_Verify : PublicKey → bytes → Signature → bool).

Implicit Types rt : Runtime M S.

(** A module takes the transaction. *)
Definition routed rt (actx : AppContext) (tx : Tx) : Prop :=
  ∃ index, RouteTx (rt_router rt) (TxPayload tx) (rt_modules rt) = Ok index ∧
    check_routed rt actx tx index = Ok tt.

(** The checks of the modules do not look at height and header. *)
Definition checks_ignore_header rt : Prop :=
  ∀ tx index h1 hd1 h2 hd2,
    check_routed rt (newContext rt None h1 hd1) tx index = check_routed rt (newContext rt None h2 hd2) tx index.

Lemma validate_txs_iff rt actx txs :
  validate_txs rt actx txs = Ok tt ↔ Forall (routed rt actx) txs.
Proof.
  induction txs as [|tx txs IH]; [by split|]. cbn [validate_txs]. rewrite Forall_cons. unfold routed at 1.
  destruct (RouteTx (rt_router rt) (TxPayload tx) (rt_modules rt)) as [index|e].
  - destruct (check_routed rt actx tx index) as [[]|e] eqn:E; cbn [mbind result_bind].
    + rewrite IH. split; [eauto|]. by intros [_ ?].
    + split; [done|]. intros [(? & [= <-] & HC) _]. congruence.
  - split; [done|]. by intros [(? & ? & _) _].
Qed.

Lemma Runtime_CheckTx_iff rt tx :
  Runtime_CheckTx ed25519_Verify rt None tx = Ok tt ↔
  ante_CheckTx ed25519_Verify rt (newContext rt None (rt_height rt) zero_header) tx = Ok tt ∧
  routed rt (newContext rt None (rt_height rt) zero_header) tx.
Proof.
  unfold Runtime_CheckTx, routed. cbn [ctx_guard mbind result_bind].
  destruct (ante_CheckTx ed25519_Verify rt _ tx) as [[]|e]; cbn [mbind result_bind];
    [|by split; [|intros [? _]]].
  destruct (RouteTx (rt_router rt) (TxPayload tx) (rt_modules rt)) as [index|e]; cbn [mbind result_bind].
  - split; [eauto|]. by intros [_ (? & [= <-] & ?)].
  - split; [done|]. by intros [_ (? & ? & _)].
Qed.

Lemma Runtime_CheckTx_ante rt config (s : S) tx :
  rt_store rt = Some s → rt_ante rt = Some config → Runtime_CheckTx ed25519_Verify rt None tx = Ok tt →
  Ante_CheckTx ed25519_Verify config (rt_chainID rt) (Some s) None tx = Ok tt.
Proof.
  intros Hst Ha HC. apply Runtime_CheckTx_iff in HC as [HC _]. unfold ante_CheckTx in HC.
  rewrite Ha, Hst in HC. exact HC.
Qed.

Lemma CheckTx_routed rt txs :
  Forall (λ tx, Runtime_CheckTx ed25519_Verify rt None tx = Ok tt) txs →
  Forall (routed rt (newContext rt None (rt_height rt) zero_header)) txs.
Proof.
  rewrite !Forall_forall. intros HF tx Htx. specialize (HF tx Htx).
  apply Runtime_CheckTx_iff in HF as [_ HR]. exact HR.
Qed.

(** The ante checks of a block. *)
Definition block_ante rt (txs : list Tx) : Prop :=
  match rt_ante rt with
  | None => True
  | Some config => Ante_CheckBlock ed25519_Verify config (rt_chainID rt) (rt_store rt) None txs = Ok tt
  end.

Lemma validateTxs_iff rt height header txs :
  validateTxsContext ed25519_Verify rt None height header txs = Ok tt ↔
  block_ante rt txs ∧ Forall (routed rt (newContext rt None height header)) txs.
Proof.
  unfold validateTxsContext, block_ante. cbn [ctx_guard mbind result_bind actx_ChainID actx_Ctx newContext].
  rewrite <-validate_txs_iff. destruct (rt_ante rt) as [config|]; cbn [mbind result_bind]; [|tauto].
  destruct (Ante_CheckBlock _ _ _ _ _ _) as [[]|e]; cbn [mbind result_bind]; [tauto|].
  split; [done|]. by intros [? _].
Qed.

Lemma ProcessProposal_iff rt header txs :
  ProcessProposal ed25519_Verify rt None (mkBlock header txs) = Ok tt ↔
  SortTxsWithSalt (orderingSalt rt (Header_Height header)) txs = txs ∧ block_ante rt txs ∧
  Forall (routed rt (newContext rt None (Header_Height header) header)) txs.
Proof.
  unfold ProcessProposal. cbn [ctx_guard mbind result_bind Block_Header Block_Txs].
  rewrite <-validateTxs_iff, <-IsOrdered_iff. destruct (IsOrderedWithSalt _ _); cbn [check mbind result_bind];
    [tauto|]. split; [done|]. by intros [? _].
Qed.

Lemma is_ok_unit (r : result unit) : is_ok r = true ↔ r = Ok tt.
Proof. destruct r as [[]|]; by split. Qed.

(** What [PrepareProposal] returns. *)
Lemma PrepareProposal_cases rt height txs prepared :
  PrepareProposal ed25519_Verify rt None height txs = Ok prepared →
  let ordered := SortTxsWithSalt (orderingSalt rt height) txs in
  (CheckTxsContext ed25519_Verify rt None ordered = Ok tt ∧ prepared = ordered) ∨
  (CheckTxsContext ed25519_Verify rt None ordered ≠ Ok tt ∧
   prepared = SortTxsWithSalt (orderingSalt rt height)
     (filter (λ tx, is_ok (Runtime_CheckTx ed25519_Verify rt None tx) = true) ordered)).
Proof.
  unfold PrepareProposal. cbn [ctx_guard mbind result_bind].
  pose proof (is_ok_unit (CheckTxsContext ed25519_Verify rt None
    (SortTxsWithSalt (orderingSalt rt height) txs))) as Hiff.
  destruct (is_ok (CheckTxsContext ed25519_Verify rt None _)).
  - pose proof (proj1 Hiff eq_refl) as HC. case_bool_decide as Hlen; cbn [andb]; intros [= <-]; [by left|].
    left. split; [done|]. by destruct (SortTxsWithSalt (orderingSalt rt height) txs); [|cbn in Hlen; lia].
  - rewrite andb_false_r. intros [= <-]. right. split; [|done]. intros HC. by apply Hiff in HC.
Qed.

(** The transactions of a proposal come from the pool and include every one that
    passes [CheckTx]. *)
Lemma PrepareProposal_selects rt height txs prepared :
  PrepareProposal ed25519_Verify rt None height txs = Ok prepared →
  prepared ⊆+ txs ∧
  filter (λ tx, is_ok (Runtime_CheckTx ed25519_Verify rt None tx) = true) txs ⊆+ prepared.
Proof.
  intros [[_ ->]|[_ ->]]%PrepareProposal_cases.
  - rewrite SortTxs_perm. split; [done|]. apply sublist_submseteq, sublist_filter.
  - rewrite !SortTxs_perm. split; [apply sublist_submseteq, sublist_filter|done].
Qed.


(** A proposer can reject its own block.  When the pool holds two native
    transactions of one signer that both pass [CheckTx] (they carry the same
    nonce), every block [PrepareProposal] builds from it is rejected by
    [ProcessProposal], on every node and under every header. *)
Theorem same_nonce_rejected rt config (s : S) header txs prepared tx1 tx2 :
  rt_store rt = Some s → rt_ante rt = Some config → Z.of_nat (length txs) < two64 →
  PrepareProposal ed25519_Verify rt None (Header_Height header) txs = Ok prepared →
  [tx1; tx2] ⊆+ txs → sequenced tx1 → sequenced tx2 →
  isEthereumRawTx tx1 = false → isEthereumRawTx tx2 = false →
  Meta_Signer (ParseTxMeta tx1) = Meta_Signer (ParseTxMeta tx2) →
  Runtime_CheckTx ed25519_Verify rt None tx1 = Ok tt → Runtime_CheckTx ed25519_Verify rt None tx2 = Ok tt →
  ProcessProposal ed25519_Verify rt None (mkBlock header prepared) ≠ Ok tt.
Proof.
  intros Hst Ha Hlen HP Hin Hq1 Hq2 Hn1 Hn2 Hsig HC1 HC2 Hproc.
  apply PrepareProposal_selects in HP as [Hsub Hkept].
  apply ProcessProposal_iff in Hproc as (_ & Hante & _). unfold block_ante in Hante. rewrite Ha, Hst in Hante.
  set (signer := Meta_Signer (ParseTxMeta tx1)) in *.
  apply (CheckBlock_distinct _ _ _ _ _ _ signer) in Hante; [|apply Hq1|].
  2:{ apply submseteq_length in Hsub. lia. }
  assert ([tx1; tx2] ⊆+ sender_txs signer prepared) as Hown.
  { apply filter_pair; [|split; [done|apply Hq1]|split; [done|apply Hq2]].
    etrans; [|exact Hkept]. apply filter_pair; [done|by apply is_ok_unit..]. }
  apply (Runtime_CheckTx_ante rt config s) in HC1; [|done..].
  apply (Runtime_CheckTx_ante rt config s) in HC2; [|done..].
  pose proof (same_nonce _ _ _ _ _ _ _ HC1 HC2 Hq1 Hq2 Hn1 Hn2 Hsig) as Hnonce.
  apply submseteq_Permutation in Hown as [k Hk]. rewrite Hk in Hante.
  cbn [fmap list_fmap app] in Hante. rewrite Hnonce in Hante.
  apply NoDup_cons in Hante as [Hnin _]. apply Hnin. by left.
Qed.
End checks.

(** ** Payments of alice *)

Module ProposalExample.
Import BankExample AnteExample BlockExample.

(** A second payment with the nonce of the first. *)
Definition pay_carol : Tx := bytes_of_string "bank:send:alice:carol:4:fee=1:signer=alice:nonce=1".

Lemma bank_ignores_header : checks_ignore_header pay_runtime.
Proof. intros tx index h1 hd1 h2 hd2. unfold check_routed. destruct index as [|index]; reflexivity. Qed.

Definition prepared_pays : list Tx :=
  match PrepareProposal no_verify pay_runtime None 1 [pay "2"; pay "1"] with Ok txs => txs | Err _ => [] end.
Definition prepared_twins : list Tx :=
  match PrepareProposal no_verify pay_runtime None 1 [pay "1"; pay_carol] with Ok txs => txs | Err _ => [] end.


Lemma pay_carol_sequenced : sequenced pay_carol.
Proof. split; [discriminate|vm_compute; reflexivity]. Qed.

(** Both payments with nonce 1 pass alone; the block with both is rejected. *)
Lemma same_nonce_rejected_witness :
  length prepared_twins = 2%nat ∧
  ProcessProposal no_verify pay_runtime None (mkBlock pay_header prepared_twins) ≠ Ok tt.
Proof.
  split; [vm_compute; reflexivity|].
  apply (same_nonce_rejected no_verify pay_runtime open_config bank0 pay_header [pay "1"; pay_carol]
    prepared_twins (pay "1") pay_carol).
  - reflexivity.
  - reflexivity.
  - reflexivity.
  - vm_compute. reflexivity.
  - reflexivity.
  - exact pay_sequenced.
  - exact pay_carol_sequenced.
  - vm_compute. reflexivity.
  - vm_compute. reflexivity.
  - vm_compute. reflexivity.
  - vm_compute. reflexivity.
  - vm_compute. reflexivity.
Defined.
End ProposalExample.
