(* ===== verification/Registry.v ===== *)
(** * The in-memory versioned validator registry ([src/validator/registry.go])

    The registry keeps one version of the validator map per height at which the
    set changed; [ValidatorSet] selects the last version at or below the height
    asked for.  A handler returns the registry with its result, because the
    working map [validators] is overwritten before the guards that may fail. *)

From S2P Require Import Prelude GoLib Sha256 Types Validator.

Definition ErrValidatorExists := ErrNew "validator.ErrValidatorExists".
Definition ErrValidatorNotFound := ErrNew "validator.ErrValidatorNotFound".
Definition ErrZeroVotingPower := ErrNew "validator.ErrZeroVotingPower".
Definition ErrMissingCandidateID := ErrNew "validator.ErrMissingCandidateID".

Abbreviation RotationEventType := string.
Definition RotationEventJoin : RotationEventType := "join".
Definition RotationEventLeave : RotationEventType := "leave".
Definition RotationEventPowerChange : RotationEventType := "power_change".

Record RotationEvent := mkRotationEvent {
  RotationEvent_Height : Height;
  RotationEvent_Type : RotationEventType;
  RotationEvent_ValidatorID : ValidatorID;
  RotationEvent_VotingPower : VotingPower;
  RotationEvent_ValidatorSetHash : Hash
}.

Record validatorSetVersion := mkVersion {
  version_height : Height;
  version_validators : gmap ValidatorID Validator;
  version_hash : Hash
}.

Record InMemoryRegistry := mkRegistry {
  reg_policy : option AdmissionPolicy;
  reg_validators : gmap ValidatorID Validator;
  reg_effectiveHeight : Height;
  reg_versions : list validatorSetVersion;
  reg_events : list RotationEvent
}.

Definition set_validators (r : InMemoryRegistry) m :=
  mkRegistry (reg_policy r) m (reg_effectiveHeight r) (reg_versions r) (reg_events r).
Definition set_versions (r : InMemoryRegistry) vs :=
  mkRegistry (reg_policy r) (reg_validators r) (reg_effectiveHeight r) vs (reg_events r).

Definition snapshot (r : InMemoryRegistry) : setSnapshot :=
  newSetSnapshot (sortedValidatorMap (reg_validators r)).

(** The loop of [snapshotAt]: the last version, in slice order, whose height is
    at most [height]. *)
Definition select_version (versions : list validatorSetVersion) (height : Height)
    : option validatorSetVersion :=
  foldl (λ selected version,
           if bool_decide (version_height version ≤ height) then Some version else selected)
        None versions.

Definition snapshotAt (r : InMemoryRegistry) (height : Height) : setSnapshot :=
  if bool_decide (length (reg_versions r) = 0%nat) then snapshot r
  else match select_version (reg_versions r) height with
       | None => newSetSnapshot []
       | Some selected => newSetSnapshot (sortedValidatorMap (version_validators selected))
       end.

(** The loop of [recordVersion] that replaces the version of the same height. *)
Fixpoint replace_version (versions : list validatorSetVersion) (version : validatorSetVersion)
    : option (list validatorSetVersion) :=
  match versions with
  | [] => None
  | v :: rest =>
      if bool_decide (version_height v = version_height version)
      then Some (version :: rest)
      else cons v <$> replace_version rest version
  end.

Definition recordVersion (r : InMemoryRegistry) (height : Height) : InMemoryRegistry * Hash :=
  let height := if bool_decide (height = 0) then 1 else height in
  let s := snapshot r in
  let version := mkVersion height (toMap s) (snap_hash s) in
  match replace_version (reg_versions r) version with
  | Some versions => (set_versions r versions, version_hash version)
  | None =>
      (set_versions r (sort_by version_height Z.le (reg_versions r ++ [version])),
       version_hash version)
  end.

Definition recordMutation (r : InMemoryRegistry) (height : Height)
    (eventType : RotationEventType) (validatorID : ValidatorID) (power : VotingPower)
    : InMemoryRegistry :=
  let '(r, hash) := recordVersion r height in
  mkRegistry (reg_policy r) (reg_validators r) height (reg_versions r)
    (reg_events r ++ [mkRotationEvent height eventType validatorID power hash]).

Definition NewInMemoryRegistry (policy : option AdmissionPolicy)
    (initialValidators : list Validator) : result InMemoryRegistry :=
  validators ← foldl (λ acc v,
      m ← acc;
      if bool_decide (Validator_VotingPower v = 0) then Err ErrZeroVotingPower
      else Ok (<[Validator_ID v := v]> m)) (Ok ∅) initialValidators;
  Ok (recordVersion (mkRegistry policy validators 1 [] []) 1).1.

Definition SetEffectiveHeight (r : InMemoryRegistry) (height : Height) : InMemoryRegistry :=
  let height := if bool_decide (height = 0) then 1 else height in
  mkRegistry (reg_policy r) (reg_validators r) height (reg_versions r) (reg_events r).

Definition Registry_ValidatorSet (r : InMemoryRegistry) (ctx : Ctx) (height : Height)
    : result ValidatorSet :=
  ctx_guard ctx ≫= λ _,
  let height := if bool_decide (height = 0) then reg_effectiveHeight r else height in
  Ok (snapshot_Set (snapshotAt r height)).

Definition ApplyJoinAt (r : InMemoryRegistry) (ctx : Ctx) (height : Height)
    (candidate : Candidate) : InMemoryRegistry * result Validator :=
  match ctx with Some e => (r, Err e) | None =>
  if bool_decide (Candidate_Address candidate = EmptyString)
  then (r, Err ErrMissingCandidateID) else
  let height := if bool_decide (height = 0) then reg_effectiveHeight r else height in
  let r := set_validators r (toMap (snapshotAt r height)) in
  let validatorID : ValidatorID := Candidate_Address candidate in
  if bool_decide (is_Some (reg_validators r !! validatorID))
  then (r, Err ErrValidatorExists) else
  match (match reg_policy r with
         | Some canJoin => canJoin ctx candidate (snapshot_Set (snapshot r))
         | None => Ok tt
         end) with
  | Err e => (r, Err e)
  | Ok _ =>
      let validatorInfo := mkValidator validatorID (Candidate_Address candidate)
        (Candidate_PublicKey candidate) (Candidate_Stake candidate)
        (Candidate_Stake candidate) (Candidate_Metadata candidate) in
      if bool_decide (Validator_VotingPower validatorInfo = 0)
      then (r, Err ErrZeroVotingPower) else
      let r := set_validators r (<[validatorID := validatorInfo]> (reg_validators r)) in
      (recordMutation r height RotationEventJoin validatorID
         (Validator_VotingPower validatorInfo), Ok validatorInfo)
  end end.

Definition ApplyJoin (r : InMemoryRegistry) (ctx : Ctx) (candidate : Candidate) :=
  ApplyJoinAt r ctx (reg_effectiveHeight r) candidate.

Definition ApplyLeaveAt (r : InMemoryRegistry) (ctx : Ctx) (height : Height)
    (id : ValidatorID) : InMemoryRegistry * result unit :=
  match ctx with Some e => (r, Err e) | None =>
  let height := if bool_decide (height = 0) then reg_effectiveHeight r else height in
  let r := set_validators r (toMap (snapshotAt r height)) in
  match reg_validators r !! id with
  | None => (r, Err ErrValidatorNotFound)
  | Some _ =>
      let r := set_validators r (delete id (reg_validators r)) in
      (recordMutation r height RotationEventLeave id 0, Ok tt)
  end end.

Definition ApplyLeave (r : InMemoryRegistry) (ctx : Ctx) (id : ValidatorID) :=
  ApplyLeaveAt r ctx (reg_effectiveHeight r) id.

Definition with_power (v : Validator) (power : VotingPower) : Validator :=
  mkValidator (Validator_ID v) (Validator_Address v) (Validator_PublicKey v) power
    (Validator_Stake v) (Validator_Metadata v).

Definition UpdateVotingPowerAt (r : InMemoryRegistry) (ctx : Ctx) (height : Height)
    (id : ValidatorID) (power : VotingPower) : InMemoryRegistry * result unit :=
  match ctx with Some e => (r, Err e) | None =>
  if bool_decide (power = 0) then (r, Err ErrZeroVotingPower) else
  let height := if bool_decide (height = 0) then reg_effectiveHeight r else height in
  let r := set_validators r (toMap (snapshotAt r height)) in
  match reg_validators r !! id with
  | None => (r, Err ErrValidatorNotFound)
  | Some validatorInfo =>
      let r := set_validators r (<[id := with_power validatorInfo power]> (reg_validators r)) in
      (recordMutation r height RotationEventPowerChange id power, Ok tt)
  end end.

Definition UpdateVotingPower (r : InMemoryRegistry) (ctx : Ctx) (id : ValidatorID)
    (power : VotingPower) :=
  UpdateVotingPowerAt r ctx (reg_effectiveHeight r) id power.

Definition RotationEvents (r : InMemoryRegistry) : list RotationEvent := reg_events r.

(** ** Well-formed registries *)

Definition valid_map (m : gmap ValidatorID Validator) : Prop :=
  keyed m ∧ map_Forall (λ _ v, 0 < Validator_VotingPower v < two64) m.

Definition map_snapshot (m : gmap ValidatorID Validator) : setSnapshot :=
  newSetSnapshot (sortedValidatorMap m).

Record version_wf (v : validatorSetVersion) : Prop := {
  version_wf_height : 1 ≤ version_height v;
  version_wf_map : valid_map (version_validators v);
  version_wf_hash : version_hash v = snap_hash (map_snapshot (version_validators v))
}.

Record registry_wf (r : InMemoryRegistry) : Prop := {
  wf_nonempty : reg_versions r ≠ [];
  wf_sorted : StronglySorted Z.lt (version_height <$> reg_versions r);
  wf_versions : Forall version_wf (reg_versions r);
  wf_validators : valid_map (reg_validators r);
  wf_effective : 1 ≤ reg_effectiveHeight r
}.

(** The validator map in force at a height. *)
Definition set_at (r : InMemoryRegistry) (height : Height) : gmap ValidatorID Validator :=
  match select_version (reg_versions r) height with
  | None => ∅
  | Some v => version_validators v
  end.

Lemma valid_map_empty : valid_map ∅.
Proof. split; [|by apply map_Forall_empty]. unfold keyed. apply map_Forall_empty. Qed.

Lemma valid_map_insert m v :
  valid_map m → 0 < Validator_VotingPower v < two64 →
  valid_map (<[Validator_ID v := v]> m).
Proof. intros [??] ?. split; [unfold keyed|]; by apply map_Forall_insert_2. Qed.

Lemma valid_map_delete m id : valid_map m → valid_map (delete id m).
Proof. intros [??]. split; [unfold keyed|]; by apply map_Forall_delete. Qed.

Create HintDb registry.
#[export] Hint Resolve valid_map_empty valid_map_insert valid_map_delete : registry.
#[export] Hint Resolve wf_validators wf_effective : registry.

(** A snapshot of a valid map is a lawful validator set. *)
Lemma map_snapshot_lawful m : valid_map m → LawfulSet (snapshot_Set (map_snapshot m)).
Proof.
  intros [Hk Hp]. apply newSetSnapshot_lawful; [by apply sortedValidatorMap_nodup|].
  apply Forall_forall. intros v Hv%elem_of_sortedValidatorMap; [|done].
  apply Hp in Hv. unfold is_u64. lia.
Qed.

(** *** Selecting a version *)

Lemma select_version_snoc versions v height :
  select_version (versions ++ [v]) height =
    if bool_decide (version_height v ≤ height) then Some v
    else select_version versions height.
Proof. unfold select_version. by rewrite foldl_app. Qed.

Lemma select_version_None versions height :
  select_version versions height = None ↔
    Forall (λ v, height < version_height v) versions.
Proof.
  induction versions as [|v versions IH] using rev_ind; [by rewrite Forall_nil|].
  rewrite select_version_snoc, Forall_app, Forall_singleton.
  case_bool_decide; [|rewrite IH]; naive_solver lia.
Qed.

Lemma select_version_Some versions height v :
  StronglySorted Z.lt (version_height <$> versions) →
  select_version versions height = Some v ↔
    v ∈ versions ∧ version_height v ≤ height ∧
    ∀ w, w ∈ versions → version_height w ≤ height → version_height w ≤ version_height v.
Proof.
  intros Hs. induction versions as [|w versions IH] using rev_ind.
  { split; [done|]. set_solver. }
  rewrite fmap_app in Hs. apply StronglySorted_app in Hs as (Hlt & Hs & _).
  assert (∀ u, u ∈ versions → version_height u < version_height w) as Hmax.
  { intros u Hu. apply Hlt; [|set_solver]. by apply list_elem_of_fmap_2. }
  rewrite select_version_snoc. setoid_rewrite elem_of_app.
  setoid_rewrite list_elem_of_singleton. case_bool_decide as Hw.
  - split.
    + intros [= <-]. split_and!; [auto|done|]. intros u [Hu| ->] _; [|done].
      apply Hmax in Hu. lia.
    + intros ([Hv| ->] & _ & Hbest); [|done].
      pose proof (Hbest w ltac:(auto) Hw). apply Hmax in Hv. lia.
  - rewrite IH by done. naive_solver.
Qed.

(** *** Recording a version *)

(** The list of versions after [recordVersion]. *)
Definition put_version (versions : list validatorSetVersion) (version : validatorSetVersion) :=
  match replace_version versions version with
  | Some versions => versions
  | None => sort_by version_height Z.le (versions ++ [version])
  end.

Lemma replace_version_heights versions version versions' :
  replace_version versions version = Some versions' →
  version_height <$> versions' = version_height <$> versions.
Proof.
  revert versions'. induction versions as [|v versions IH]; intros versions'; [done|]. simpl.
  case_bool_decide as E; [by intros [= <-]; csimpl; rewrite E|].
  intros (l & Hl & ->)%fmap_Some. csimpl. by rewrite (IH l).
Qed.

Lemma replace_version_None versions version :
  replace_version versions version = None ↔
    version_height version ∉ version_height <$> versions.
Proof.
  induction versions as [|v versions IH]; simpl; [set_solver|].
  case_bool_decide; [set_solver|]. rewrite fmap_None, IH. csimpl. set_solver.
Qed.

Lemma elem_of_replace_version versions version versions' u :
  NoDup (version_height <$> versions) →
  replace_version versions version = Some versions' →
  u ∈ versions' ↔
    u = version ∨ (u ∈ versions ∧ version_height u ≠ version_height version).
Proof.
  revert versions'. induction versions as [|v versions IH]; intros versions' Hnd; [done|].
  simpl. csimpl in Hnd. apply NoDup_cons in Hnd as [Hv Hnd]. case_bool_decide as E.
  - intros [= <-]. rewrite !elem_of_cons. split; [|naive_solver].
    intros [->|Hu]; [by left|right]. split; [by right|]. intros E'. apply Hv.
    rewrite E, <-E'. by apply list_elem_of_fmap_2.
  - intros (l & Hl & ->)%fmap_Some. rewrite !elem_of_cons, (IH l) by done. naive_solver.
Qed.

Lemma elem_of_put_version versions version u :
  NoDup (version_height <$> versions) →
  u ∈ put_version versions version ↔
    u = version ∨ (u ∈ versions ∧ version_height u ≠ version_height version).
Proof.
  intros Hnd. unfold put_version. destruct (replace_version _ _) as [l|] eqn:E.
  - by apply elem_of_replace_version.
  - apply replace_version_None in E. rewrite elem_of_sort_by, elem_of_app.
    rewrite list_elem_of_singleton. split; [|tauto]. intros [Hu|Hu]; [right|by left].
    split; [done|]. intros Heq. apply E. rewrite <-Heq. by apply list_elem_of_fmap_2.
Qed.

Lemma lt_sorted_nodup l : StronglySorted Z.lt l → NoDup l.
Proof.
  induction 1 as [|x l Hs IH Hall]; constructor; [|done].
  intros Hx. rewrite Forall_forall in Hall. specialize (Hall x Hx). lia.
Qed.

Lemma le_sorted_nodup_lt l : NoDup l → StronglySorted Z.le l → StronglySorted Z.lt l.
Proof.
  intros Hnd Hs. induction Hs as [|x l Hs IH Hall]; constructor;
    apply NoDup_cons in Hnd as [Hx Hnd]; [auto|].
  rewrite Forall_forall in *. intros y Hy. specialize (Hall y Hy).
  assert (x ≠ y) by set_solver. lia.
Qed.

Lemma put_version_sorted versions version :
  StronglySorted Z.lt (version_height <$> versions) →
  StronglySorted Z.lt (version_height <$> put_version versions version).
Proof.
  intros Hs. unfold put_version. destruct (replace_version _ _) as [l|] eqn:E.
  - by erewrite replace_version_heights.
  - apply replace_version_None in E. apply le_sorted_nodup_lt.
    + rewrite sort_by_perm, fmap_app. apply NoDup_app.
      split_and!; [by apply lt_sorted_nodup| |apply NoDup_singleton].
      intros h Hh. csimpl. rewrite list_elem_of_singleton. set_solver.
    + apply sort_by_sorted; apply _.
Qed.

Lemma recordVersion_put r height :
  1 ≤ height → keyed (reg_validators r) →
  recordVersion r height =
    (set_versions r (put_version (reg_versions r)
       (mkVersion height (reg_validators r) (snap_hash (snapshot r)))), snap_hash (snapshot r)).
Proof.
  intros Hh Hk. unfold recordVersion, put_version.
  rewrite bool_decide_eq_false_2 by lia. unfold snapshot. rewrite toMap_snapshot by done.
  by destruct (replace_version _ _).
Qed.

Lemma recordMutation_versions r height t id power :
  1 ≤ height → keyed (reg_validators r) →
  reg_versions (recordMutation r height t id power) =
    put_version (reg_versions r)
      (mkVersion height (reg_validators r) (snap_hash (snapshot r))).
Proof. intros. unfold recordMutation. by rewrite recordVersion_put. Qed.

(** What one mutation at [height] that installs the map [m] does: the registry
    stays well formed, earlier heights are untouched, and [m] is in force from
    [height] until the next recorded version. *)
Record mutated (r r' : InMemoryRegistry) (height : Height)
    (m : gmap ValidatorID Validator) (e : RotationEvent) : Prop := {
  mutated_wf : registry_wf r';
  mutated_before h : h < height → set_at r' h = set_at r h;
  mutated_at : set_at r' height = m;
  mutated_until h :
    height ≤ h → (∀ v, v ∈ reg_versions r → version_height v ≤ h → version_height v ≤ height) →
    set_at r' h = m;
  mutated_after h v :
    v ∈ reg_versions r → height < version_height v ≤ h → set_at r' h = set_at r h;
  mutated_heights h :
    h ∈ version_height <$> reg_versions r' ↔
      h = height ∨ h ∈ version_height <$> reg_versions r;
  mutated_event : reg_events r' = reg_events r ++ [e];
  mutated_effective : reg_effectiveHeight r' = height
}.

Lemma select_put_version versions version h :
  StronglySorted Z.lt (version_height <$> versions) →
  select_version (put_version versions version) h =
    if decide (version_height version ≤ h ∧
               Forall (λ v, version_height v ≤ h → version_height v ≤ version_height version)
                 versions)
    then Some version else select_version versions h.
Proof.
  intros Hs. pose proof (put_version_sorted versions version Hs) as Hs'.
  pose proof (lt_sorted_nodup _ Hs) as Hnd.
  case_decide as Hc.
  - destruct Hc as [Hh Hall]. rewrite Forall_forall in Hall.
    apply select_version_Some; [done|]. split_and!; [|done|].
    + apply elem_of_put_version; auto.
    + intros w Hw. apply elem_of_put_version in Hw as [->|[Hw _]]; [done|by apply Hall|done].
  - destruct (select_version versions h) as [v|] eqn:E.
    + apply select_version_Some in E as (Hv & Hle & Hbest); [|done].
      assert (version_height version ≤ h → version_height version < version_height v) as Hlt.
      { intros Hh. destruct (decide (version_height version < version_height v)) as [?|Hge]; [done|].
        exfalso. apply Hc. split; [done|].
        apply Forall_forall. intros w Hw Hwh. specialize (Hbest w Hw Hwh). lia. }
      apply select_version_Some; [done|]. split_and!; [|done|].
      * apply elem_of_put_version; [done|]. right. split; [done|]. intros Heq. lia.
      * intros w Hw Hwh. apply elem_of_put_version in Hw as [->|[Hw _]]; [lia|auto|done].
    + apply select_version_None in E. apply select_version_None. rewrite Forall_forall in *.
      intros w Hw. apply elem_of_put_version in Hw as [->|[Hw _]]; [|auto|done].
      destruct (decide (h < version_height version)) as [?|Hge]; [done|].
      exfalso. apply Hc. split; [lia|].
      intros w Hw Hwh. specialize (E w Hw). lia.
Qed.

Lemma recordMutation_mutated r height m t id power :
  registry_wf r → valid_map m → 1 ≤ height →
  mutated r (recordMutation (set_validators r m) height t id power) height m
    (mkRotationEvent height t id power (snap_hash (map_snapshot m))).
Proof.
  intros Hwf Hm Hh. pose proof (wf_sorted r Hwf) as Hs. pose proof (lt_sorted_nodup _ Hs) as Hnd.
  pose proof (recordMutation_versions (set_validators r m) height t id power Hh (proj1 Hm)) as Hv.
  set (r' := recordMutation _ _ _ _ _) in *. simpl in Hv.
  assert (r' = mkRegistry (reg_policy r) m height (reg_versions r')
    (reg_events r ++ [mkRotationEvent height t id power (snap_hash (map_snapshot m))])) as Hr'.
  { unfold r', recordMutation. by rewrite recordVersion_put by (done || apply Hm). }
  split; try (rewrite Hr'; done); unfold set_at.
  - split; [|by rewrite Hv; apply put_version_sorted| |by rewrite Hr'|by rewrite Hr'].
    + intros Hnil. rewrite Hv in Hnil. eapply not_elem_of_nil. rewrite <-Hnil.
      apply elem_of_put_version; [done|]. by left.
    + rewrite Hv. apply Forall_forall. intros v Hin.
      apply elem_of_put_version in Hin as [->|[Hin _]]; [by split| |done].
      pose proof (wf_versions r Hwf) as Hall. rewrite Forall_forall in Hall. auto.
  - intros h Hlt. rewrite Hv, select_put_version by done.
    rewrite decide_False; [done|]. simpl. lia.
  - rewrite Hv, select_put_version by done. rewrite decide_True; [done|].
    split; [done|]. by apply Forall_forall.
  - intros h Hle Hnone. rewrite Hv, select_put_version by done.
    rewrite decide_True; [done|]. split; [done|]. by apply Forall_forall.
  - intros h v Hin Hr. rewrite Hv, select_put_version by done. rewrite decide_False; [done|].
    intros [_ Hall]. rewrite Forall_forall in Hall. specialize (Hall v Hin). simpl in Hall. lia.
  - intros h. rewrite Hv, !list_elem_of_fmap. setoid_rewrite elem_of_put_version; [|done].
    split; [naive_solver|]. intros [->|(v & -> & Hin)].
    + eexists (mkVersion height _ _). split; [done|]. by left.
    + destruct (decide (version_height v = height)); [|by eauto 6].
      eexists (mkVersion height _ _). split; [done|]. by left.
Qed.

(** ** The operations on a well-formed registry *)

(** A failed operation may overwrite the working map, nothing a client sees. *)
Record unchanged (r r' : InMemoryRegistry) : Prop := {
  unchanged_wf : registry_wf r';
  unchanged_set_at h : set_at r' h = set_at r h;
  unchanged_versions : reg_versions r' = reg_versions r;
  unchanged_events : reg_events r' = reg_events r;
  unchanged_effective : reg_effectiveHeight r' = reg_effectiveHeight r
}.

Definition effective (r : InMemoryRegistry) (height : Height) : Height :=
  if bool_decide (height = 0) then reg_effectiveHeight r else height.

Section operations.
Context (r : InMemoryRegistry) (Hwf : registry_wf r).

Lemma effective_pos height : 0 ≤ height → 1 ≤ effective r height.
Proof using Hwf.
  intros. unfold effective. case_bool_decide; [by apply wf_effective|lia].
Qed.

Lemma set_at_valid h : valid_map (set_at r h).
Proof using Hwf.
  unfold set_at. destruct (select_version _ _) as [v|] eqn:E; [|auto with registry].
  apply select_version_Some in E as [Hv _]; [|by apply wf_sorted].
  pose proof (wf_versions r Hwf) as Hall. rewrite Forall_forall in Hall.
  by apply Hall.
Qed.

Lemma snapshotAt_set_at h : snapshotAt r h = map_snapshot (set_at r h).
Proof using Hwf.
  unfold snapshotAt, set_at. rewrite bool_decide_eq_false_2.
  - destruct (select_version _ _); [done|].
    unfold map_snapshot, sortedValidatorMap. by rewrite map_to_list_empty.
  - intros Hnil%length_zero_iff_nil. by apply wf_nonempty in Hnil.
Qed.

Lemma toMap_snapshotAt h : toMap (snapshotAt r h) = set_at r h.
Proof using Hwf. rewrite snapshotAt_set_at. apply toMap_snapshot, set_at_valid. Qed.

Lemma set_validators_unchanged m : valid_map m → unchanged r (set_validators r m).
Proof using Hwf. intros Hm. split; try done. by destruct Hwf; split. Qed.

Lemma unchanged_refl : unchanged r r.
Proof using Hwf. by split. Qed.

Lemma SetEffectiveHeight_wf height :
  0 ≤ height → registry_wf (SetEffectiveHeight r height).
Proof using Hwf.
  intros. destruct Hwf. split; try done. simpl. case_bool_decide; lia.
Qed.

Lemma Registry_ValidatorSet_ok height :
  Registry_ValidatorSet r None height =
    Ok (snapshot_Set (map_snapshot (set_at r (effective r height)))).
Proof using Hwf. unfold Registry_ValidatorSet. simpl. by rewrite snapshotAt_set_at. Qed.

Definition joined (c : Candidate) : Validator :=
  mkValidator (Candidate_Address c) (Candidate_Address c) (Candidate_PublicKey c)
    (Candidate_Stake c) (Candidate_Stake c) (Candidate_Metadata c).

Lemma ApplyJoinAt_cases ctx height c :
  is_u64 (Candidate_Stake c) → 0 ≤ height →
  let h := effective r height in
  match ApplyJoinAt r ctx height c with
  | (r', Ok v) =>
      v = joined c ∧ set_at r h !! Candidate_Address c = None ∧
      mutated r r' h (<[Candidate_Address c := v]> (set_at r h))
        (mkRotationEvent h RotationEventJoin (Candidate_Address c) (Candidate_Stake c)
           (snap_hash (map_snapshot (<[Candidate_Address c := v]> (set_at r h)))))
  | (r', Err _) => unchanged r r'
  end.
Proof using Hwf.
  intros Hs Hh h. pose proof unchanged_refl as Hrefl.
  unfold ApplyJoinAt. destruct ctx as [e|]; [done|]. case_bool_decide; [done|].
  fold (effective r height). fold h. rewrite toMap_snapshotAt.
  pose proof (set_at_valid h) as Hval.
  pose proof (set_validators_unchanged _ Hval) as Hunch.
  case_bool_decide as Hnone; [done|]. simpl in Hnone. rewrite <-eq_None_not_Some in Hnone.
  destruct (match _ with Some _ => _ | None => _ end); [|done]. simpl.
  case_bool_decide; [done|]. split_and!; [done|done|].
  apply (recordMutation_mutated r); [done| |by apply effective_pos].
  apply (valid_map_insert _ (joined c)); [done|]. simpl. unfold is_u64 in Hs. lia.
Qed.

Lemma ApplyLeaveAt_cases ctx height id :
  0 ≤ height →
  let h := effective r height in
  match ApplyLeaveAt r ctx height id with
  | (r', Ok _) =>
      is_Some (set_at r h !! id) ∧
      mutated r r' h (delete id (set_at r h))
        (mkRotationEvent h RotationEventLeave id 0
           (snap_hash (map_snapshot (delete id (set_at r h)))))
  | (r', Err _) => unchanged r r'
  end.
Proof using Hwf.
  intros Hh h. pose proof unchanged_refl as Hrefl.
  unfold ApplyLeaveAt. destruct ctx as [e|]; [done|].
  fold (effective r height). fold h. rewrite toMap_snapshotAt. simpl.
  pose proof (set_at_valid h) as Hval.
  destruct (set_at r h !! id) as [v|] eqn:E; [|by apply set_validators_unchanged].
  split; [done|].
  apply (recordMutation_mutated r); [done|by apply valid_map_delete|by apply effective_pos].
Qed.

Lemma UpdateVotingPowerAt_cases ctx height id power :
  is_u64 power → 0 ≤ height →
  let h := effective r height in
  match UpdateVotingPowerAt r ctx height id power with
  | (r', Ok _) =>
      ∃ v, set_at r h !! id = Some v ∧
      let m := <[id := with_power v power]> (set_at r h) in
      mutated r r' h m
        (mkRotationEvent h RotationEventPowerChange id power (snap_hash (map_snapshot m)))
  | (r', Err _) => unchanged r r'
  end.
Proof using Hwf.
  intros Hp Hh h. pose proof unchanged_refl as Hrefl.
  unfold UpdateVotingPowerAt. destruct ctx as [e|]; [done|]. case_bool_decide; [done|].
  fold (effective r height). fold h. rewrite toMap_snapshotAt. simpl.
  pose proof (set_at_valid h) as Hval.
  destruct (set_at r h !! id) as [v|] eqn:E; [|by apply set_validators_unchanged].
  exists v. split; [done|]. apply (recordMutation_mutated r); [done| |by apply effective_pos].
  assert (id = Validator_ID (with_power v power)) as Hid by (by apply (proj1 Hval id v) in E).
  rewrite Hid at 1. apply valid_map_insert; [done|]. simpl. unfold is_u64 in Hp. lia.
Qed.
End operations.

(** ** Reachable registries *)

Inductive registry_step : relation InMemoryRegistry :=
| step_SetEffectiveHeight r height :
    0 ≤ height → registry_step r (SetEffectiveHeight r height)
| step_ApplyJoinAt r ctx height c :
    0 ≤ height → is_u64 (Candidate_Stake c) → registry_step r (ApplyJoinAt r ctx height c).1
| step_ApplyLeaveAt r ctx height id :
    0 ≤ height → registry_step r (ApplyLeaveAt r ctx height id).1
| step_UpdateVotingPowerAt r ctx height id power :
    0 ≤ height → is_u64 power →
    registry_step r (UpdateVotingPowerAt r ctx height id power).1.

Definition registry_reachable (r : InMemoryRegistry) : Prop :=
  ∃ policy initial r0,
    Forall (λ v, is_u64 (Validator_VotingPower v)) initial ∧
    NewInMemoryRegistry policy initial = Ok r0 ∧ rtc registry_step r0 r.

(** A step changes nothing a client sees, or is one mutation. *)
Lemma registry_step_cases r r' :
  registry_wf r → registry_step r r' →
  (registry_wf r' ∧ reg_versions r' = reg_versions r ∧ reg_events r' = reg_events r) ∨
  ∃ height m e, RotationEvent_Height e = height ∧
    RotationEvent_ValidatorSetHash e = snap_hash (map_snapshot m) ∧
    mutated r r' height m e.
Proof.
  intros Hwf Hstep.
  destruct Hstep as [r height|r ctx height c ? Hs|r ctx height id|r ctx height id power ? Hp].
  - left. split; [by apply SetEffectiveHeight_wf|done].
  - pose proof (ApplyJoinAt_cases r Hwf ctx height c Hs ltac:(done)) as H'.
    destruct (ApplyJoinAt _ _ _ _) as [r' [v|e]]; simpl in *; [|left; by destruct H'].
    right. destruct H' as (_ & _ & H'). eexists _, _, _. split_and!; [| |exact H']; done.
  - pose proof (ApplyLeaveAt_cases r Hwf ctx height id ltac:(done)) as H'.
    destruct (ApplyLeaveAt _ _ _ _) as [r' [v|e]]; simpl in *; [|left; by destruct H'].
    right. destruct H' as (_ & H'). eexists _, _, _. split_and!; [| |exact H']; done.
  - pose proof (UpdateVotingPowerAt_cases r Hwf ctx height id power Hp ltac:(done)) as H'.
    destruct (UpdateVotingPowerAt _ _ _ _ _) as [r' [v|e]]; simpl in *; [|left; by destruct H'].
    right. destruct H' as (w & _ & H'). eexists _, _, _. split_and!; [| |exact H']; done.
Qed.

Lemma NewInMemoryRegistry_map initial m :
  Forall (λ v, is_u64 (Validator_VotingPower v)) initial → valid_map m →
  match foldl (λ acc v,
      m ← acc;
      if bool_decide (Validator_VotingPower v = 0) then Err ErrZeroVotingPower
      else Ok (<[Validator_ID v := v]> m)) (Ok m) initial with
  | Ok m' => valid_map m'
  | Err e => True
  end.
Proof.
  intros Hall. revert m. induction Hall as [|v l Hv Hall IH]; intros m Hm; [done|]. simpl.
  case_bool_decide.
  - clear. induction l; simpl; auto.
  - apply IH, valid_map_insert; [done|]. unfold is_u64 in Hv. lia.
Qed.

Lemma NewInMemoryRegistry_wf policy initial r :
  Forall (λ v, is_u64 (Validator_VotingPower v)) initial →
  NewInMemoryRegistry policy initial = Ok r →
  registry_wf r ∧ reg_events r = [].
Proof.
  intros Hall Hnew. unfold NewInMemoryRegistry in Hnew.
  pose proof (NewInMemoryRegistry_map initial ∅ Hall valid_map_empty) as Hm.
  destruct (foldl _ _ _) as [m|]; [|done]. cbn [mbind result_bind] in Hnew.
  rewrite recordVersion_put in Hnew by (done || apply Hm). simplify_eq. simpl.
  split; [|done]. split; simpl; try done.
  - repeat constructor.
  - apply Forall_singleton. by split.
Qed.

(** Every event's height has a version of its own, and the last event of a
    height carries the hash of the set in force there. *)
Record events_wf (r : InMemoryRegistry) : Prop := {
  events_version e :
    e ∈ reg_events r → ∃ v, v ∈ reg_versions r ∧ version_height v = RotationEvent_Height e;
  events_hash before e after :
    reg_events r = before ++ e :: after →
    Forall (λ e', RotationEvent_Height e' ≠ RotationEvent_Height e) after →
    snap_hash (map_snapshot (set_at r (RotationEvent_Height e))) =
      RotationEvent_ValidatorSetHash e
}.

Lemma events_wf_step r r' :
  registry_wf r → events_wf r → registry_step r r' → registry_wf r' ∧ events_wf r'.
Proof.
  intros Hwf [Hver Hhash] Hstep.
  apply registry_step_cases in Hstep as [(Hwf' & Hv & He)|(height & m & e0 & Hh & Hm & Hmut)];
    [|..|done].
  { split; [done|]. split; unfold set_at; rewrite ?Hv, ?He; done. }
  split; [by apply Hmut|]. destruct Hmut as [_ Hbefore Hat _ Hafter Hheights He _].
  assert (∀ e, e ∈ reg_events r →
    RotationEvent_Height e ∈ version_height <$> reg_versions r) as Hver'.
  { intros e (v & Hv & <-)%Hver. by apply list_elem_of_fmap_2. }
  split.
  - intros e Hin. rewrite He in Hin. apply elem_of_app in Hin as [Hin|Hin].
    + apply Hver' in Hin. pose proof (proj2 (Hheights _) (or_intror Hin)) as Hin'.
      apply list_elem_of_fmap in Hin' as (v & -> & ?). eauto.
    + apply list_elem_of_singleton in Hin as ->.
      pose proof (proj2 (Hheights height) (or_introl eq_refl)) as Hin'.
      apply list_elem_of_fmap in Hin' as (v & ? & ?). exists v. split; [done|congruence].
  - intros before e after Hev Hlast. rewrite He in Hev.
    destruct after as [|e1 after _] using rev_ind.
    + apply app_inj_tail in Hev as [_ <-]. by rewrite Hh, Hat.
    + rewrite app_comm_cons, app_assoc in Hev. apply app_inj_tail in Hev as [Hev <-].
      apply Forall_app in Hlast as [Hlast Hne]. rewrite Forall_singleton in Hne.
      rewrite <-(Hhash before e after) by done. do 2 f_equal.
      assert (e ∈ reg_events r) as Hin by (rewrite Hev; set_solver).
      apply Hver in Hin as (v & Hv & Hve).
      destruct (decide (RotationEvent_Height e < height)); [by apply Hbefore|].
      apply (Hafter _ v); [done|]. lia.
Qed.

Lemma reachable_wf r : registry_reachable r → registry_wf r ∧ events_wf r.
Proof.
  intros (policy & initial & r0 & Hall & Hnew & Hsteps).
  apply NewInMemoryRegistry_wf in Hnew as [Hwf Hnil]; [|done].
  assert (events_wf r0) as Hev.
  { split; rewrite Hnil; [set_solver|]. intros before e after H. by destruct before. }
  clear Hnil. induction Hsteps as [r|r1 r2 r3 Hstep _ IH]; [done|].
  pose proof (events_wf_step _ _ Hwf Hev Hstep). naive_solver.
Qed.

(** C13: every validator set that a registry serves, at any height and after
    any history of joins, leaves and power updates (failed ones included), is
    a lawful set: identifiers are unique, [Get] agrees with [List], and the
    total is the sum of the powers; every member has positive power. *)
Theorem registry_sets_lawful r height :
  registry_reachable r →
  ∃ vs, Registry_ValidatorSet r None height = Ok vs ∧ LawfulSet vs ∧
    Forall (λ v, 0 < Validator_VotingPower v) (Set_List vs).
Proof.
  intros [Hwf _]%reachable_wf. rewrite Registry_ValidatorSet_ok by done.
  pose proof (set_at_valid r Hwf (effective r height)) as Hv.
  eexists. split_and!; [done|by apply map_snapshot_lawful|].
  simpl. unfold map_snapshot. rewrite newSetSnapshot_validators.
  apply Forall_forall. intros v Hin%elem_of_sortedValidatorMap; [|apply Hv].
  apply (proj2 Hv) in Hin. lia.
Qed.

(** The last rotation event recorded for a height carries the hash of the
    validator set the registry serves at that height, whatever mutations at
    other heights came later. *)
Theorem registry_events_commit r before e after :
  registry_reachable r →
  RotationEvents r = before ++ e :: after →
  Forall (λ e', RotationEvent_Height e' ≠ RotationEvent_Height e) after →
  RotationEvent_Height e ≠ 0 →
  Set_Hash <$> Registry_ValidatorSet r None (RotationEvent_Height e) =
    Ok (RotationEvent_ValidatorSetHash e).
Proof.
  intros [Hwf Hev]%reachable_wf He Hlast H0. rewrite Registry_ValidatorSet_ok by done.
  unfold effective. rewrite bool_decide_eq_false_2 by done. simpl.
  f_equal. by apply (events_hash r Hev before e after).
Qed.

Lemma map_snapshot_get m id :
  keyed m → Set_Get (snapshot_Set (map_snapshot m)) id = m !! id.
Proof.
  intros Hk. simpl. unfold map_snapshot. rewrite newSetSnapshot_byID.
  apply option_eq. intros v.
  rewrite insert_all_lookup by (by apply sortedValidatorMap_nodup).
  rewrite elem_of_sortedValidatorMap, lookup_empty by done.
  split; [naive_solver|]. intros Hv. left. by rewrite (Hk id v Hv).
Qed.

(** The lookups of the set served at a height. *)
Definition served (r : InMemoryRegistry) (height : Height) (id : ValidatorID) : option Validator :=
  match Registry_ValidatorSet r None height with Ok vs => Set_Get vs id | Err _ => None end.

Lemma served_set_at r height id :
  registry_wf r → height ≠ 0 → served r height id = set_at r height !! id.
Proof.
  intros Hwf H0. unfold served. rewrite Registry_ValidatorSet_ok by done.
  unfold effective. rewrite bool_decide_eq_false_2 by done.
  apply map_snapshot_get, set_at_valid, Hwf.
Qed.

Lemma set_at_same r h h' :
  registry_wf r → h ≤ h' →
  (∀ v, v ∈ reg_versions r → version_height v ≤ h' → version_height v ≤ h) →
  set_at r h' = set_at r h.
Proof.
  intros Hwf Hle Hnone. unfold set_at. pose proof (wf_sorted r Hwf) as Hs.
  enough (select_version (reg_versions r) h' = select_version (reg_versions r) h) as -> by done.
  destruct (select_version (reg_versions r) h) as [v|] eqn:E.
  - apply select_version_Some in E as (Hv & Hvh & Hbest); [|done].
    apply select_version_Some; [done|]. split_and!; [done|lia|]. intros w Hw Hwh.
    apply Hbest; [done|]. by apply Hnone.
  - apply select_version_None in E. apply select_version_None. rewrite Forall_forall in *.
    intros v Hv. specialize (E v Hv). destruct (decide (h' < version_height v)); [done|].
    specialize (Hnone v Hv). lia.
Qed.

(** An accepted join at height [h] adds exactly the candidate, with voting
    power equal to its stake, to the set served at [h]; the candidate was not a
    member before, and no set below [h] changes. *)
Theorem registry_join_effective r h c r' v :
  registry_reachable r → 0 < h → is_u64 (Candidate_Stake c) →
  ApplyJoinAt r None h c = (r', Ok v) →
  Validator_VotingPower v = Candidate_Stake c ∧ 0 < Candidate_Stake c ∧
  served r h (Candidate_Address c) = None ∧
  (∀ id, served r' h id =
     if decide (id = Candidate_Address c) then Some v else served r h id) ∧
  (∀ h' id, 0 < h' < h → served r' h' id = served r h' id).
Proof.
  intros [Hwf _]%reachable_wf Hh Hs Hjoin.
  pose proof (ApplyJoinAt_cases r Hwf None h c Hs ltac:(lia)) as Hc.
  rewrite Hjoin in Hc. unfold effective in Hc. rewrite bool_decide_eq_false_2 in Hc by lia.
  destruct Hc as (-> & Hnone & Hmut). pose proof (mutated_wf _ _ _ _ _ Hmut) as Hwf'.
  split_and!.
  - done.
  - pose proof (set_at_valid r' Hwf' h) as [_ Hp]. rewrite (mutated_at _ _ _ _ _ Hmut) in Hp.
    apply map_Forall_insert_1_1 in Hp. simpl in Hp. lia.
  - by rewrite served_set_at by (done || lia).
  - intros id. rewrite !served_set_at, (mutated_at _ _ _ _ _ Hmut), lookup_insert by (done || lia).
    case_decide; case_decide; congruence.
  - intros h' id Hlt. rewrite !served_set_at by (done || lia).
    by rewrite (mutated_before _ _ _ _ _ Hmut) by lia.
Qed.

(** A second mutation at the same height that restores the map of before the
    first one restores the map of every height. *)
Lemma mutated_undo r r1 r2 h m e1 e2 :
  registry_wf r → mutated r r1 h m e1 → mutated r1 r2 h (set_at r h) e2 →
  ∀ h', set_at r2 h' = set_at r h'.
Proof.
  intros Hwf Hmut Hmut2 h'. destruct (decide (h' < h)).
  { by rewrite (mutated_before _ _ _ _ _ Hmut2), (mutated_before _ _ _ _ _ Hmut) by done. }
  destruct (decide (Exists (λ v, h < version_height v ≤ h') (reg_versions r))) as [Hex|Hno].
  - apply Exists_exists in Hex as (w & Hw & Hr).
    pose proof (proj2 (mutated_heights _ _ _ _ _ Hmut (version_height w))
      (or_intror (list_elem_of_fmap_2 _ _ _ Hw))) as (w' & Hw' & Hin)%list_elem_of_fmap.
    rewrite (mutated_after _ _ _ _ _ Hmut2 h' w') by (done || lia).
    by rewrite (mutated_after _ _ _ _ _ Hmut h' w) by (done || lia).
  - assert (∀ w, w ∈ reg_versions r → version_height w ≤ h' → version_height w ≤ h) as Hnone'.
    { intros w Hw Hwh. destruct (decide (version_height w ≤ h)); [done|]. exfalso. apply Hno.
      apply Exists_exists. exists w. split; [done|lia]. }
    rewrite (set_at_same r h h') by (done || lia).
    apply (mutated_until _ _ _ _ _ Hmut2); [lia|]. intros w Hw Hwh.
    pose proof (proj1 (mutated_heights _ _ _ _ _ Hmut (version_height w))
      (list_elem_of_fmap_2 _ _ _ Hw)) as [->|(w' & Heq & Hin)%list_elem_of_fmap]; [done|].
    rewrite Heq in *. auto.
Qed.

(** Leaving at the height of an accepted join undoes it: the leave is
    accepted, and the sets served at every height are those before the join. *)
Theorem registry_join_leave r h c r1 v :
  registry_reachable r → 0 < h → is_u64 (Candidate_Stake c) →
  ApplyJoinAt r None h c = (r1, Ok v) →
  ∃ r2, ApplyLeaveAt r1 None h (Validator_ID v) = (r2, Ok tt) ∧
    ∀ h', 0 < h' → Registry_ValidatorSet r2 None h' = Registry_ValidatorSet r None h'.
Proof.
  intros [Hwf _]%reachable_wf Hh Hs Hjoin.
  pose proof (ApplyJoinAt_cases r Hwf None h c Hs ltac:(lia)) as Hc.
  rewrite Hjoin in Hc. unfold effective in Hc. rewrite bool_decide_eq_false_2 in Hc by lia.
  destruct Hc as (-> & Hnone & Hmut). pose proof (mutated_wf _ _ _ _ _ Hmut) as Hwf1.
  pose proof (ApplyLeaveAt_cases r1 Hwf1 None h (Candidate_Address c) ltac:(lia)) as Hl.
  unfold effective in Hl. rewrite bool_decide_eq_false_2 in Hl by lia.
  rewrite (mutated_at _ _ _ _ _ Hmut) in Hl. simpl.
  destruct (ApplyLeaveAt r1 None h (Candidate_Address c)) as [r2 [[]|e]] eqn:E; last first.
  { exfalso. revert E. unfold ApplyLeaveAt. rewrite bool_decide_eq_false_2 by lia.
    rewrite toMap_snapshotAt, (mutated_at _ _ _ _ _ Hmut) by done. simpl.
    by rewrite lookup_insert_eq. }
  destruct Hl as [_ Hmut2]. rewrite delete_insert_id in Hmut2 by done.
  exists r2. split; [done|]. intros h' Hh'.
  rewrite !Registry_ValidatorSet_ok by (done || apply Hmut2). unfold effective.
  rewrite !bool_decide_eq_false_2 by lia. do 3 f_equal.
  by apply (mutated_undo _ _ _ _ _ _ _ Hwf Hmut Hmut2).
Qed.

(** ** A concrete history *)

Module RegistryExample.
Definition val (id : string) (power : Z) : Validator := mkValidator id id [] power power ∅.
Definition cand (id : string) (stake : Z) : Candidate := mkCandidate id [] stake ∅.
Definition policy : AdmissionPolicy :=
  ConfigurableAdmissionPolicy_CanJoin (mkAdmissionConfig true 5 4 ∅ false).

Definition start : InMemoryRegistry :=
  match NewInMemoryRegistry (Some policy) [val "a" 10; val "b" 20] with
  | Ok r => r | Err _ => mkRegistry None ∅ 0 [] [] end.
Definition joined_r := (ApplyJoinAt start None 7 (cand "c" 30)).1.
Definition left_r := (ApplyLeaveAt joined_r None 3 "a").1.

Lemma start_reachable : registry_reachable start.
Proof.
  exists (Some policy), [val "a" 10; val "b" 20], start. split_and!; [|done|done].
  by repeat constructor.
Qed.

Lemma left_reachable : registry_reachable left_r.
Proof.
  exists (Some policy), [val "a" 10; val "b" 20], start. split_and!; [|done|].
  - by repeat constructor.
  - eapply rtc_l; [by apply (step_ApplyJoinAt _ None 7 (cand "c" 30))|].
    eapply rtc_l; [by apply (step_ApplyLeaveAt _ None 3 "a")|]. reflexivity.
Qed.
End RegistryExample.
Import RegistryExample.

Lemma registry_sets_lawful_witness :
  ∃ vs, Registry_ValidatorSet left_r None 7 = Ok vs ∧ LawfulSet vs ∧
    Forall (λ v, 0 < Validator_VotingPower v) (Set_List vs).
Proof. apply (registry_sets_lawful left_r 7), left_reachable. Defined.

Lemma registry_events_commit_witness :
  Set_Hash <$> Registry_ValidatorSet left_r None 7 =
    Ok (hashValidators [val "a" 10; val "b" 20; val "c" 30]).
Proof.
  refine (registry_events_commit left_r [] (mkRotationEvent 7 RotationEventJoin "c" 30
    (hashValidators [val "a" 10; val "b" 20; val "c" 30]))
    [mkRotationEvent 3 RotationEventLeave "a" 0 (hashValidators [val "b" 20])]
    left_reachable _ _ _); [vm_compute; reflexivity| |done].
  by repeat constructor.
Defined.

Lemma registry_join_effective_witness :
  served joined_r 7 "c" = Some (val "c" 30) ∧ served joined_r 6 "c" = None.
Proof.
  destruct (registry_join_effective start 7 (cand "c" 30) joined_r (val "c" 30))
    as (_ & _ & Hno & Hat & Hbefore);
    [apply start_reachable|done|done|vm_compute; reflexivity|].
  split; [apply (Hat "c")|]. rewrite (Hbefore 6 "c") by done. vm_compute. reflexivity.
Defined.

Lemma registry_join_leave_witness :
  ∃ r2, ApplyLeaveAt joined_r None 7 "c" = (r2, Ok tt) ∧
    ∀ h', 0 < h' → Registry_ValidatorSet r2 None h' = Registry_ValidatorSet start None h'.
Proof.
  apply (registry_join_leave start 7 (cand "c" 30) joined_r (val "c" 30));
    [apply start_reachable|done|done|vm_compute; reflexivity].
Defined.
