(* ===== verification/StoreRegistry.v ===== *)
(** * The persistent validator registry ([src/validator/store_registry.go])

    The registry keeps a JSON document per height at which the validator set
    changed, the list of these heights and the rotation events in a key-value
    store.  The store is a value that is passed along; the other fields are the
    record [StoreRegistry].  A nil map or slice and an empty one are not
    distinguished; they are written as [null]. *)

From S2P Require Import Prelude GoLib Sha256 Types Validator Registry Strconv Text Json JsonPrint JsonCodec SignBytes.
From S2P Require Import StateProof Store.

Definition ErrValidatorSetNotFound := ErrNew "validator.ErrValidatorSetNotFound".
Definition validatorRegistryNamespace : string := "validator_registry".

Record validatorSetDocument := mkDocument {
  document_Height : Height;
  document_Validators : list Validator
}.

(** The fields of [StoreRegistry] next to the store. *)
Record StoreRegistry := mkStoreRegistry {
  sreg_policy : option AdmissionPolicy;
  sreg_effectiveHeight : Height;
  sreg_events : list RotationEvent;
  sreg_pendingEvents : gmap Height (list RotationEvent)
}.

(** ** JSON *)

#[global] Instance validator_json : JsonRecord Validator := {|
  json_zero := mkValidator "" "" [] 0 0 ∅;
  json_fields :=
    [("ID", field_of decode_string Validator_ID (λ '(mkValidator _ b c d e f) x, mkValidator x b c d e f));
     ("Address", field_of decode_string Validator_Address (λ '(mkValidator a _ c d e f) x, mkValidator a x c d e f));
     ("PublicKey",
      field_of (λ _, decode_bytes) Validator_PublicKey (λ '(mkValidator a b _ d e f) x, mkValidator a b x d e f));
     ("VotingPower",
      field_of decode_uint Validator_VotingPower (λ '(mkValidator a b c _ e f) x, mkValidator a b c x e f));
     ("Stake", field_of decode_uint Validator_Stake (λ '(mkValidator a b c d _ f) x, mkValidator a b c d x f));
     ("Metadata", field_of decode_map Validator_Metadata (λ '(mkValidator a b c d e _) x, mkValidator a b c d e x))];
  json_members v :=
    [("ID", JString (Validator_ID v)); ("Address", JString (Validator_Address v));
     ("PublicKey", json_bytes (Validator_PublicKey v)); ("VotingPower", json_uint (Validator_VotingPower v));
     ("Stake", json_uint (Validator_Stake v)); ("Metadata", json_map (Validator_Metadata v))]
|}.

#[global] Instance document_json : JsonRecord validatorSetDocument := {|
  json_zero := mkDocument 0 [];
  json_fields :=
    [("height", field_of decode_uint document_Height (λ '(mkDocument _ b) x, mkDocument x b));
     ("validators", field_of (λ _, decode_slice) document_Validators (λ '(mkDocument a _) x, mkDocument a x))];
  json_members d :=
    [("height", json_uint (document_Height d)); ("validators", json_slice (document_Validators d))]
|}.

#[global] Instance rotation_event_json : JsonRecord RotationEvent := {|
  json_zero := mkRotationEvent 0 "" "" 0 zero_hash;
  json_fields :=
    [("Height", field_of decode_uint RotationEvent_Height (λ '(mkRotationEvent _ b c d e) x, mkRotationEvent x b c d e));
     ("Type", field_of decode_string RotationEvent_Type (λ '(mkRotationEvent a _ c d e) x, mkRotationEvent a x c d e));
     ("ValidatorID",
      field_of decode_string RotationEvent_ValidatorID (λ '(mkRotationEvent a b _ d e) x, mkRotationEvent a b x d e));
     ("VotingPower",
      field_of decode_uint RotationEvent_VotingPower (λ '(mkRotationEvent a b c _ e) x, mkRotationEvent a b c x e));
     ("ValidatorSetHash",
      field_of decode_hash RotationEvent_ValidatorSetHash (λ '(mkRotationEvent a b c d _) x, mkRotationEvent a b c d x))];
  json_members e :=
    [("Height", json_uint (RotationEvent_Height e)); ("Type", JString (RotationEvent_Type e));
     ("ValidatorID", JString (RotationEvent_ValidatorID e)); ("VotingPower", json_uint (RotationEvent_VotingPower e));
     ("ValidatorSetHash", json_hash (RotationEvent_ValidatorSetHash e))]
|}.

(** ** Keys and documents *)

Definition validatorSetKey (height : Height) : bytes := bytes_of_string "set/" ++ be64 height.
Definition heightsKey : bytes := bytes_of_string "heights".
Definition eventsKey : bytes := bytes_of_string "events".

Definition containsHeight (heights : list Height) (height : Height) : bool :=
  existsb (λ existing, bool_decide (existing = height)) heights.

(** The loop of [loadLatest]. *)
Definition latest_height (heights : list Height) (height : Height) : Height :=
  foldl (λ selected candidate,
           if bool_decide (candidate ≤ height) && bool_decide (selected ≤ candidate) then candidate else selected)
    0 heights.

(** The validators of a document, by identifier. *)
Definition document_map (document : validatorSetDocument) : gmap ValidatorID Validator :=
  foldl (λ m v, <[Validator_ID v := v]> m) ∅ (document_Validators document).

Section store_registry.
Context {T : Type} `{!StateStore T}.

Definition loadHeights (store : T) (ctx : Ctx) : result (list Height) :=
  match store_Get store ctx validatorRegistryNamespace heightsKey with
  | Err e => Err (if errors_is e ErrKeyNotFound then ErrValidatorSetNotFound else e)
  | Ok encoded => unmarshal_with decode_uints encoded
  end.

Definition loadLatest (store : T) (ctx : Ctx) (height : Height) : result validatorSetDocument :=
  heights ← loadHeights store ctx;
  let selected := latest_height heights height in
  check ErrValidatorSetNotFound (negb (bool_decide (selected = 0))) ≫= λ _,
  encoded ← store_Get store ctx validatorRegistryNamespace (validatorSetKey selected);
  unmarshal_json encoded.

Definition loadRotationEvents (store : T) (ctx : Ctx) : result (list RotationEvent) :=
  match store_Get store ctx validatorRegistryNamespace eventsKey with
  | Err e => if errors_is e ErrKeyNotFound then Ok [] else Err e
  | Ok encoded => unmarshal_with decode_slice encoded
  end.

Definition rotationEventWrites (store : T) (ctx : Ctx) (events : list RotationEvent) : result (list KVWrite) :=
  if bool_decide (length events = 0%nat) then Ok []
  else
    persisted ← loadRotationEvents store ctx;
    Ok [mkWrite validatorRegistryNamespace eventsKey (marshal (json_slice (persisted ++ events))) false].

Definition snapshotWrites (store : T) (ctx : Ctx) (height : Height) (validators : list Validator)
    : result (list KVWrite) :=
  let document := mkDocument height (sortedValidators validators) in
  heights ← match loadHeights store ctx with
            | Err e => if errors_is e ErrValidatorSetNotFound then Ok [] else Err e
            | Ok heights => Ok heights
            end;
  let heights := if containsHeight heights height then heights else sort_by id Z.le (heights ++ [height]) in
  Ok [mkWrite validatorRegistryNamespace (validatorSetKey height) (marshal_json document) false;
      mkWrite validatorRegistryNamespace heightsKey (marshal_uints heights) false].

Definition saveSnapshotWithEvents (store : T) (ctx : Ctx) (height : Height) (validators : list Validator)
    (events : list RotationEvent) : T * result unit :=
  match (writes ← snapshotWrites store ctx height validators;
         eventWrites ← rotationEventWrites store ctx events;
         Ok (writes ++ eventWrites)) with
  | Err e => (store, Err e)
  | Ok writes =>
      match store_SetBatch with
      | Some batch => batch store ctx writes
      | None => set_writes store ctx writes
      end
  end.

Definition saveSnapshot (store : T) (ctx : Ctx) (height : Height) (validators : list Validator) : T * result unit :=
  saveSnapshotWithEvents store ctx height validators [].

Definition validatorsAt (store : T) (ctx : Ctx) (height : Height) : result (gmap ValidatorID Validator) :=
  document ← loadLatest store ctx height; Ok (document_map document).

Definition NewStoreRegistry (store : T) (ctx : Ctx) (policy : option AdmissionPolicy) (initialHeight : Height)
    (initialValidators : list Validator) : T * result StoreRegistry :=
  let initialHeight := if bool_decide (initialHeight = 0) then 1 else initialHeight in
  let registry := mkStoreRegistry policy initialHeight [] ∅ in
  match loadLatest store ctx initialHeight with
  | Ok _ =>
      (store, events ← loadRotationEvents store ctx; Ok (mkStoreRegistry policy initialHeight events ∅))
  | Err e =>
      if negb (errors_is e ErrValidatorSetNotFound) then (store, Err e)
      else if existsb (λ v, bool_decide (Validator_VotingPower v = 0)) initialValidators
      then (store, Err ErrZeroVotingPower)
      else let '(store, r) := saveSnapshot store ctx initialHeight initialValidators in
           (store, r ≫= λ _, Ok registry)
  end.

(** ** Operations *)

Definition setEffectiveHeightLocked (registry : StoreRegistry) (height : Height) : StoreRegistry :=
  let height := if bool_decide (height = 0) then 1 else height in
  mkStoreRegistry (sreg_policy registry) height (sreg_events registry) (sreg_pendingEvents registry).

Definition StoreRegistry_SetEffectiveHeight (registry : StoreRegistry) (height : Height) : StoreRegistry :=
  setEffectiveHeightLocked registry height.

Definition append_events (registry : StoreRegistry) (events : list RotationEvent) : StoreRegistry :=
  mkStoreRegistry (sreg_policy registry) (sreg_effectiveHeight registry) (sreg_events registry ++ events)
    (sreg_pendingEvents registry).

Definition StoreRegistry_ValidatorSet (store : T) (registry : StoreRegistry) (ctx : Ctx) (height : Height)
    : result ValidatorSet :=
  let height := if bool_decide (height = 0) then sreg_effectiveHeight registry else height in
  document ← loadLatest store ctx height;
  Ok (snapshot_Set (newSetSnapshot (sortedValidators (document_Validators document)))).

Definition currentValidators (store : T) (registry : StoreRegistry) (ctx : Ctx) : result (gmap ValidatorID Validator) :=
  validatorsAt store ctx (sreg_effectiveHeight registry).

(** The end of a change: the new set and its event are saved. *)
Definition save_change (store : T) (registry : StoreRegistry) (ctx : Ctx) (height : Height)
    (validators : gmap ValidatorID Validator) (eventType : RotationEventType) (id : ValidatorID) (power : VotingPower)
    : T * StoreRegistry * result unit :=
  let set := newSetSnapshot (sortedValidatorMap validators) in
  let event := mkRotationEvent height eventType id power (snap_hash set) in
  let '(store, r) := saveSnapshotWithEvents store ctx height (snap_validators set) [event] in
  match r with
  | Err e => (store, registry, Err e)
  | Ok _ => (store, append_events registry [event], Ok tt)
  end.

Definition StoreRegistry_ApplyJoinAt (store : T) (registry : StoreRegistry) (ctx : Ctx) (height : Height)
    (candidate : Candidate) : T * StoreRegistry * result Validator :=
  if bool_decide (Candidate_Address candidate = "") then (store, registry, Err ErrMissingCandidateID) else
  let height := if bool_decide (height = 0) then sreg_effectiveHeight registry else height in
  let registry := setEffectiveHeightLocked registry height in
  match currentValidators store registry ctx with
  | Err e => (store, registry, Err e)
  | Ok validators =>
      let validatorID : ValidatorID := Candidate_Address candidate in
      if bool_decide (is_Some (validators !! validatorID)) then (store, registry, Err ErrValidatorExists) else
      match (match sreg_policy registry with
             | Some canJoin => canJoin ctx candidate (snapshot_Set (newSetSnapshot (sortedValidatorMap validators)))
             | None => Ok tt
             end) with
      | Err e => (store, registry, Err e)
      | Ok _ =>
          let validatorInfo := mkValidator validatorID (Candidate_Address candidate) (Candidate_PublicKey candidate)
            (Candidate_Stake candidate) (Candidate_Stake candidate) (Candidate_Metadata candidate) in
          if bool_decide (Validator_VotingPower validatorInfo = 0) then (store, registry, Err ErrZeroVotingPower) else
          let '(store, registry, r) :=
            save_change store registry ctx height (<[validatorID := validatorInfo]> validators)
              RotationEventJoin validatorID (Validator_VotingPower validatorInfo) in
          (store, registry, r ≫= λ _, Ok validatorInfo)
      end
  end.

Definition StoreRegistry_ApplyJoin (store : T) (registry : StoreRegistry) (ctx : Ctx) (candidate : Candidate) :=
  StoreRegistry_ApplyJoinAt store registry ctx (sreg_effectiveHeight registry) candidate.

Definition StoreRegistry_ApplyLeaveAt (store : T) (registry : StoreRegistry) (ctx : Ctx) (height : Height)
    (id : ValidatorID) : T * StoreRegistry * result unit :=
  let height := if bool_decide (height = 0) then sreg_effectiveHeight registry else height in
  let registry := setEffectiveHeightLocked registry height in
  match currentValidators store registry ctx with
  | Err e => (store, registry, Err e)
  | Ok validators =>
      match validators !! id with
      | None => (store, registry, Err ErrValidatorNotFound)
      | Some _ => save_change store registry ctx height (delete id validators) RotationEventLeave id 0
      end
  end.

Definition StoreRegistry_ApplyLeave (store : T) (registry : StoreRegistry) (ctx : Ctx) (id : ValidatorID) :=
  StoreRegistry_ApplyLeaveAt store registry ctx (sreg_effectiveHeight registry) id.

Definition StoreRegistry_UpdateVotingPowerAt (store : T) (registry : StoreRegistry) (ctx : Ctx) (height : Height)
    (id : ValidatorID) (power : VotingPower) : T * StoreRegistry * result unit :=
  if bool_decide (power = 0) then (store, registry, Err ErrZeroVotingPower) else
  let height := if bool_decide (height = 0) then sreg_effectiveHeight registry else height in
  let registry := setEffectiveHeightLocked registry height in
  match currentValidators store registry ctx with
  | Err e => (store, registry, Err e)
  | Ok validators =>
      match validators !! id with
      | None => (store, registry, Err ErrValidatorNotFound)
      | Some validatorInfo =>
          save_change store registry ctx height (<[id := with_power validatorInfo power]> validators)
            RotationEventPowerChange id power
      end
  end.

Definition StoreRegistry_UpdateVotingPower (store : T) (registry : StoreRegistry) (ctx : Ctx) (id : ValidatorID)
    (power : VotingPower) :=
  StoreRegistry_UpdateVotingPowerAt store registry ctx (sreg_effectiveHeight registry) id power.

Definition StoreRegistry_RotationEvents (registry : StoreRegistry) : list RotationEvent := sreg_events registry.

(** ** Updates of a block, staged and committed *)

(** The identifier and the address of an update, each the other's default. *)
Definition complete_update (update : ValidatorUpdate) : ValidatorUpdate :=
  let id := if bool_decide (Update_ID update = "") then Update_Address update else Update_ID update in
  let address := if bool_decide (Update_Address update = "") then id else Update_Address update in
  mkValidatorUpdate id address (Update_PublicKey update) (Update_VotingPower update) (Update_Stake update)
    (Update_Metadata update).

(** A validator the set has is changed; the empty map is the nil one, which keeps
    the metadata. *)
Definition change_validator (v : Validator) (update : ValidatorUpdate) : Validator :=
  mkValidator (Validator_ID v) (Validator_Address v)
    (if bool_decide (length (Update_PublicKey update) = 0%nat) then Validator_PublicKey v else Update_PublicKey update)
    (Update_VotingPower update)
    (if bool_decide (0 < Update_Stake update) then Update_Stake update else Validator_Stake v)
    (if bool_decide (Update_Metadata update = ∅) then Validator_Metadata v else Update_Metadata update).

(** The body of the loop of [StageValidatorUpdatesAt]. *)
Definition stage_update (policy : option AdmissionPolicy) (ctx : Ctx) (validators : gmap ValidatorID Validator)
    (update : ValidatorUpdate) : result (gmap ValidatorID Validator) :=
  let update := complete_update update in
  let id := Update_ID update in
  check ErrMissingCandidateID (negb (bool_decide (id = ""))) ≫= λ _,
  if bool_decide (Update_VotingPower update = 0) then
    check ErrValidatorNotFound (bool_decide (is_Some (validators !! id))) ≫= λ _, Ok (delete id validators)
  else
    match validators !! id with
    | Some validatorInfo => Ok (<[id := change_validator validatorInfo update]> validators)
    | None =>
        let stake := if bool_decide (Update_Stake update = 0) then Update_VotingPower update else Update_Stake update in
        let candidate := mkCandidate (Update_Address update) (Update_PublicKey update) stake (Update_Metadata update) in
        match policy with
        | Some canJoin => canJoin ctx candidate (snapshot_Set (newSetSnapshot (sortedValidatorMap validators)))
        | None => Ok tt
        end ≫= λ _,
        Ok (<[id := mkValidator id (Update_Address update) (Update_PublicKey update) (Update_VotingPower update) stake
                      (Update_Metadata update)]> validators)
    end.

Fixpoint stage_updates (policy : option AdmissionPolicy) (ctx : Ctx) (validators : gmap ValidatorID Validator)
    (updates : list ValidatorUpdate) : result (gmap ValidatorID Validator) :=
  match updates with
  | [] => Ok validators
  | update :: updates =>
      validators ← stage_update policy ctx validators update; stage_updates policy ctx validators updates
  end.

(** The event of an update, by comparing the two sets. *)
Definition rotation_event (height : Height) (previous current : setSnapshot) (update : ValidatorUpdate)
    : option RotationEvent :=
  let id := if bool_decide (Update_ID update = "") then Update_Address update else Update_ID update in
  if bool_decide (id = "") then None
  else
    let hash := snap_hash current in
    match snap_byID current !! id, snap_byID previous !! id with
    | None, Some _ => Some (mkRotationEvent height RotationEventLeave id 0 hash)
    | Some v, None => Some (mkRotationEvent height RotationEventJoin id (Validator_VotingPower v) hash)
    | Some v, Some _ => Some (mkRotationEvent height RotationEventPowerChange id (Validator_VotingPower v) hash)
    | None, None => None
    end.

Definition stageRotationEvents (registry : StoreRegistry) (height : Height) (previous current : setSnapshot)
    (updates : list ValidatorUpdate) : StoreRegistry :=
  mkStoreRegistry (sreg_policy registry) (sreg_effectiveHeight registry) (sreg_events registry)
    (<[height := omap (rotation_event height previous current) updates]> (sreg_pendingEvents registry)).

Definition StageValidatorUpdatesAt (store : T) (registry : StoreRegistry) (ctx : Ctx) (height : Height)
    (updates : list ValidatorUpdate) : StoreRegistry * result (ValidatorSet * list KVWrite) :=
  let height := if bool_decide (height = 0) then sreg_effectiveHeight registry else height in
  match (validators ← validatorsAt store ctx height;
         staged ← stage_updates (sreg_policy registry) ctx validators updates;
         let set := newSetSnapshot (sortedValidatorMap staged) in
         writes ← snapshotWrites store ctx height (snap_validators set);
         Ok (newSetSnapshot (sortedValidatorMap validators), set, writes)) with
  | Err e => (registry, Err e)
  | Ok (previous, set, writes) =>
      let registry := stageRotationEvents registry height previous set updates in
      (registry,
       eventWrites ← rotationEventWrites store ctx (default [] (sreg_pendingEvents registry !! height));
       Ok (snapshot_Set set, writes ++ eventWrites))
  end.

Definition CommitStagedValidatorUpdates (store : T) (registry : StoreRegistry) (ctx : Ctx) (height : Height)
    (updates : list ValidatorUpdate) : StoreRegistry * result unit :=
  let height := if bool_decide (height = 0) then sreg_effectiveHeight registry else height in
  let registry := setEffectiveHeightLocked registry height in
  let pending := default [] (sreg_pendingEvents registry !! height) in
  if bool_decide (0 < length pending)%nat then
    (mkStoreRegistry (sreg_policy registry) (sreg_effectiveHeight registry) (sreg_events registry ++ pending)
       (delete height (sreg_pendingEvents registry)), Ok tt)
  else
    let previous :=
      match (if bool_decide (1 < height) then validatorsAt store ctx (height - 1) else Err ErrValidatorSetNotFound) with
      | Ok validators => newSetSnapshot (sortedValidatorMap validators)
      | Err _ => newSetSnapshot []
      end in
    match validatorsAt store ctx height with
    | Err e => (registry, Err e)
    | Ok validators =>
        let current := newSetSnapshot (sortedValidatorMap validators) in
        (append_events registry (omap (rotation_event height previous current) updates), Ok tt)
    end.

Definition recordEvent (store : T) (registry : StoreRegistry) (ctx : Ctx) (height : Height)
    (eventType : RotationEventType) (validatorID : ValidatorID) (power : VotingPower) : StoreRegistry :=
  match StoreRegistry_ValidatorSet store registry ctx height with
  | Err _ => registry
  | Ok set => append_events registry [mkRotationEvent height eventType validatorID power (Set_Hash set)]
  end.
End store_registry.
