(* ===== verification/StoreRegistryLaws.v ===== *)
(** * The persistent registry keeps what the in-memory one keeps

    The documents of [StoreRegistry] are read back from their JSON; a store
    holds the versions and the events of a history ([stored]), and the
    operations of the persistent registry do to it what the operations of
    [Registry] do to the versions and events in memory. *)

From S2P Require Import Prelude GoLib Sha256 Types Validator Registry Strconv Text Json JsonPrint JsonCodec SignBytes.
From S2P Require Import StateProof Store StoreRegistry.

(** ** JSON *)

Definition validator_ok (v : Validator) : Prop :=
  is_u64 (Validator_VotingPower v) ∧ is_u64 (Validator_Stake v) ∧ utf8_map (Validator_Metadata v).

#[global] Program Instance validator_lawful : LawfulJson Validator := {|
  json_ok := validator_ok;
  clean_record v := mkValidator (sanitize (Validator_ID v)) (sanitize (Validator_Address v)) (Validator_PublicKey v)
    (Validator_VotingPower v) (Validator_Stake v) (Validator_Metadata v);
  json_depth := 2
|}.
Next Obligation. intros v (Hp & Hs & Hm). json_printable. Qed.
Next Obligation. intros v. json_nesting. Qed.
Next Obligation. done. Qed.
Next Obligation. intros v (Hp & Hs & Hm). json_record. Qed.

Definition document_ok (d : validatorSetDocument) : Prop :=
  is_u64 (document_Height d) ∧ Forall json_ok (document_Validators d).

#[global] Program Instance document_lawful : LawfulJson validatorSetDocument := {|
  json_ok := document_ok;
  clean_record d := mkDocument (document_Height d) (clean_record <$> document_Validators d);
  json_depth := 4
|}.
Next Obligation. intros d (Hh & Hv). json_printable. Qed.
Next Obligation. intros d. json_nesting. Qed.
Next Obligation. done. Qed.
Next Obligation. intros d (Hh & Hv). json_record. Qed.

Definition event_ok (e : RotationEvent) : Prop := is_u64 (RotationEvent_Height e) ∧ is_u64 (RotationEvent_VotingPower e).

#[global] Program Instance event_lawful : LawfulJson RotationEvent := {|
  json_ok := event_ok;
  clean_record e := mkRotationEvent (RotationEvent_Height e) (sanitize (RotationEvent_Type e))
    (sanitize (RotationEvent_ValidatorID e)) (RotationEvent_VotingPower e) (RotationEvent_ValidatorSetHash e);
  json_depth := 2
|}.
Next Obligation. intros e (Hh & Hp). json_printable. Qed.
Next Obligation. intros e. json_nesting. Qed.
Next Obligation. done. Qed.
Next Obligation. intros e (Hh & Hp). json_record. Qed.

(** Records the JSON keeps as they are: 64-bit numbers and UTF-8 strings. *)
Definition kept {R} `{LawfulJson R} (r : R) : Prop := json_ok r ∧ clean_record r = r.

Lemma kept_list {R} `{LawfulJson R} (l : list R) : Forall kept l → Forall json_ok l ∧ clean_record <$> l = l.
Proof.
  induction 1 as [|r l [Hr Hc] Hl [IH1 IH2]]; [done|]. split; [by constructor|]. csimpl. by rewrite Hc, IH2.
Qed.

Lemma kept_unmarshal {R} `{LawfulJson R} (r : R) : kept r → unmarshal_json (marshal_json r) = Ok r.
Proof. intros [Hr Hc]. by rewrite unmarshal_marshal_json, Hc. Qed.

Lemma event_kept h t id power hash :
  is_u64 h → is_u64 power → sanitize t = t → sanitize id = id → kept (mkRotationEvent h t id power hash).
Proof. intros Hh Hp Ht Hid. split; [done|]. cbn. by rewrite Ht, Hid. Qed.

(** ** What a store holds *)

Record version_ok (v : validatorSetVersion) : Prop := {
  version_ok_height : 1 ≤ version_height v < two64;
  version_ok_map : valid_map (version_validators v);
  version_ok_kept : map_Forall (λ _, kept) (version_validators v)
}.

Definition version_document (v : validatorSetVersion) : validatorSetDocument :=
  mkDocument (version_height v) (sortedValidatorMap (version_validators v)).

(** A list is stored unless it is empty. *)
Definition stored_list {A} (l : list A) (encoded : bytes) : option bytes :=
  if bool_decide (length l = 0%nat) then None else Some encoded.

Lemma version_document_kept v : version_ok v → kept (version_document v).
Proof.
  intros [Hh [Hk _] Hv]. assert (Forall kept (sortedValidatorMap (version_validators v))) as [Hok Hc]%kept_list.
  { apply Forall_forall. intros w Hw%elem_of_sortedValidatorMap; [by apply Hv in Hw|done]. }
  split; [split; [unfold is_u64; cbn; lia|done]|]. cbn -[fmap]. unfold version_document. f_equal. exact Hc.
Qed.

Lemma document_map_sorted v : keyed (version_validators v) → document_map (version_document v) = version_validators v.
Proof.
  intros Hk. etrans; [|by apply toMap_snapshot]. unfold toMap. by rewrite newSetSnapshot_validators.
Qed.

Lemma sortedValidators_sorted m : keyed m → sortedValidators (sortedValidatorMap m) = sortedValidatorMap m.
Proof.
  intros Hk. apply sort_by_unique; [apply _..|by apply sortedValidatorMap_nodup|]. apply sort_by_perm.
Qed.

Abbreviation registry_ns := validatorRegistryNamespace.

Lemma registry_ns_valid : valid_namespace registry_ns.
Proof. done. Qed.

Section stored.
Context {T : Type} `{ReliableStore T}.

(** The store holds these versions and these events. *)
Record stored (versions : list validatorSetVersion) (events : list RotationEvent) (st : T) : Prop := {
  stored_ok : store_ok st;
  stored_sorted : StronglySorted Z.lt (version_height <$> versions);
  stored_versions : Forall version_ok versions;
  stored_kept : Forall kept events;
  stored_heights :
    content st registry_ns heightsKey = stored_list versions (marshal_uints (version_height <$> versions));
  stored_documents v :
    v ∈ versions → content st registry_ns (validatorSetKey (version_height v)) = Some (marshal_json (version_document v));
  stored_events : content st registry_ns eventsKey = stored_list events (marshal (json_slice events))
}.

Lemma heights_u64 versions : Forall version_ok versions → Forall is_u64 (version_height <$> versions).
Proof.
  intros Hv. apply Forall_fmap. eapply Forall_impl; [exact Hv|]. intros v [Hh _ _]. unfold is_u64. cbn. lia.
Qed.

Lemma loadHeights_stored versions events st :
  stored versions events st →
  loadHeights st None =
    if bool_decide (length versions = 0%nat) then Err ErrValidatorSetNotFound else Ok (version_height <$> versions).
Proof.
  intros [Hok _ Hv _ Hh _ _]. unfold loadHeights. rewrite Get_total, Hh by done. unfold stored_list.
  case_bool_decide; [done|]. unfold unmarshal_with. by rewrite decode_marshal_uints by (by apply heights_u64).
Qed.

Lemma loadRotationEvents_stored versions events st :
  stored versions events st → loadRotationEvents st None = Ok events.
Proof.
  intros [Hok _ _ He _ _ Hc]. unfold loadRotationEvents. rewrite Get_total, Hc by done. unfold stored_list.
  case_bool_decide as Hn; [by apply length_zero_iff_nil in Hn as ->|].
  apply kept_list in He as [He Hclean]. by rewrite unmarshal_slice, Hclean.
Qed.

(** The loop of [loadLatest] selects the height of the version in force. *)
Lemma latest_height_select versions h :
  StronglySorted Z.lt (version_height <$> versions) → Forall version_ok versions →
  latest_height (version_height <$> versions) h = from_option version_height 0 (select_version versions h).
Proof.
  induction versions as [|v versions IH] using rev_ind; [done|]. intros Hs [Hv [Hh _ _]%Forall_singleton]%Forall_app.
  rewrite fmap_app in Hs. apply StronglySorted_app in Hs as (Hlt & Hs & _). rewrite fmap_app. unfold latest_height. rewrite foldl_app.
  fold (latest_height (version_height <$> versions) h). rewrite IH by done. rewrite select_version_snoc. cbn [foldl fmap list_fmap].
  case_bool_decide as Hle; [|done]. rewrite bool_decide_eq_true_2; [done|].
  destruct (select_version versions h) as [w|] eqn:E; cbn; [|lia].
  apply select_version_Some in E as [Hw _]; [|done].
  specialize (Hlt (version_height w) (version_height v)). rewrite !list_elem_of_fmap in Hlt.
  assert (version_height w < version_height v) by (apply Hlt; [by eauto|exists v; by rewrite list_elem_of_singleton]). lia.
Qed.

Lemma loadLatest_stored versions events st h :
  stored versions events st →
  loadLatest st None h =
    match select_version versions h with
    | Some v => Ok (version_document v)
    | None => Err ErrValidatorSetNotFound
    end.
Proof.
  intros Hst. unfold loadLatest. rewrite (loadHeights_stored _ _ _ Hst). destruct Hst as [Hok Hs Hv _ _ Hd _].
  case_bool_decide as Hn; [by apply length_zero_iff_nil in Hn as ->|]. cbn [mbind result_bind].
  rewrite latest_height_select by done. destruct (select_version versions h) as [v|] eqn:E; [|done].
  apply select_version_Some in E as [Hin _]; [|done]. rewrite Forall_forall in Hv. pose proof (Hv v Hin) as Hvok.
  destruct (version_ok_height v Hvok). cbn [from_option]. rewrite bool_decide_eq_false_2 by lia.
  cbn [negb check mbind result_bind]. rewrite Get_total, Hd by done. cbn [mbind result_bind].
  by apply kept_unmarshal, version_document_kept.
Qed.

Lemma validatorsAt_stored versions events st h :
  stored versions events st →
  validatorsAt st None h =
    match select_version versions h with
    | Some v => Ok (version_validators v)
    | None => Err ErrValidatorSetNotFound
    end.
Proof.
  intros Hst. unfold validatorsAt. rewrite (loadLatest_stored _ _ _ _ Hst).
  destruct (select_version versions h) as [v|] eqn:E; [|done]. apply select_version_Some in E as [Hv _]; [|apply Hst].
  pose proof (stored_versions _ _ _ Hst) as Hall. rewrite Forall_forall in Hall.
  cbn [mbind result_bind]. rewrite document_map_sorted; [done|]. apply (version_ok_map _ (Hall v Hv)).
Qed.

Lemma ValidatorSet_stored versions events st s h :
  stored versions events st → h ≠ 0 →
  StoreRegistry_ValidatorSet st s None h =
    match select_version versions h with
    | Some v => Ok (snapshot_Set (map_snapshot (version_validators v)))
    | None => Err ErrValidatorSetNotFound
    end.
Proof.
  intros Hst Hh. unfold StoreRegistry_ValidatorSet. rewrite bool_decide_eq_false_2 by done.
  rewrite (loadLatest_stored _ _ _ _ Hst). destruct (select_version versions h) as [v|] eqn:E; [|done].
  apply select_version_Some in E as [Hv _]; [|apply Hst].
  pose proof (stored_versions _ _ _ Hst) as Hall. rewrite Forall_forall in Hall.
  cbn [mbind result_bind version_document document_Validators]. rewrite sortedValidators_sorted; [done|].
  apply (version_ok_map _ (Hall v Hv)).
Qed.

(** The heights that are saved are those of the new versions. *)
Lemma put_version_heights versions v :
  version_height <$> put_version versions v =
    (let heights := version_height <$> versions in
     if containsHeight heights (version_height v) then heights
     else sort_by id Z.le (heights ++ [version_height v])).
Proof.
  unfold put_version. cbv zeta. destruct (replace_version versions v) as [l|] eqn:E.
  - assert (version_height v ∈ version_height <$> versions) as Hin.
    { destruct (decide (version_height v ∈ version_height <$> versions)) as [|Hno]; [done|].
      apply replace_version_None in Hno. congruence. }
    rewrite (replace_version_heights _ _ _ E). replace (containsHeight _ _) with true; [done|]. symmetry.
    apply existsb_exists. exists (version_height v). rewrite <-list_elem_of_In. split; [done|]. by apply bool_decide_eq_true.
  - apply replace_version_None in E. replace (containsHeight _ _) with false.
    + apply (StronglySorted_unique Z.le); [apply sort_by_sorted; apply _| |].
      * pose proof (sort_by_sorted id Z.le ((version_height <$> versions) ++ [version_height v])) as Hs.
        rewrite list_fmap_id in Hs. apply Hs; apply _.
      * by rewrite !sort_by_perm, fmap_app.
    + symmetry. apply not_true_iff_false. intros Hx%existsb_exists. destruct Hx as (x & Hx & ->%bool_decide_eq_true).
      by apply list_elem_of_In in Hx.
Qed.

(** The writes of a change. *)
Definition change_writes (versions : list validatorSetVersion) (v : validatorSetVersion) (events new : list RotationEvent)
    : list KVWrite :=
  [mkWrite registry_ns (validatorSetKey (version_height v)) (marshal_json (version_document v)) false;
   mkWrite registry_ns heightsKey (marshal_uints (version_height <$> put_version versions v)) false] ++
  (if bool_decide (length new = 0%nat) then []
   else [mkWrite registry_ns eventsKey (marshal (json_slice (events ++ new))) false]).

Lemma snapshotWrites_stored versions events st v :
  stored versions events st → valid_map (version_validators v) →
  snapshotWrites st None (version_height v) (sortedValidatorMap (version_validators v)) =
    Ok (change_writes versions v events []).
Proof.
  intros Hst [Hk _]. unfold snapshotWrites, change_writes.
  rewrite (loadHeights_stored _ _ _ Hst), put_version_heights, sortedValidators_sorted by done. fold (version_document v).
  assert ((match (if bool_decide (length versions = 0%nat) then Err ErrValidatorSetNotFound
                  else Ok (version_height <$> versions)) with
           | Ok heights => Ok heights
           | Err e => if errors_is e ErrValidatorSetNotFound then Ok [] else Err e
           end) = Ok (version_height <$> versions)) as ->; [|done].
  case_bool_decide as Hn; [|done]. by apply length_zero_iff_nil in Hn as ->.
Qed.

Lemma change_writes_stored versions events st v new :
  stored versions events st →
  rotationEventWrites st None new = (Ok (drop 2 (change_writes versions v events new))) ∧
  change_writes versions v events new =
    change_writes versions v events [] ++ drop 2 (change_writes versions v events new).
Proof.
  intros Hst. unfold rotationEventWrites, change_writes. rewrite (loadRotationEvents_stored _ _ _ Hst). by case_bool_decide.
Qed.

Lemma set_key_other h : validatorSetKey h ≠ heightsKey ∧ validatorSetKey h ≠ eventsKey ∧ heightsKey ≠ eventsKey.
Proof. split_and!; [intros Hk%(f_equal length); unfold validatorSetKey in Hk; rewrite length_app, be64_length in Hk; by vm_compute in Hk..|done]. Qed.

Lemma set_key_inj h h' : is_u64 h → is_u64 h' → validatorSetKey h = validatorSetKey h' → h = h'.
Proof. intros Hh Hh' Hk%(inj (app _)). by apply be64_inj. Qed.

Lemma change_writes_content versions v events new c k :
  writes_content (change_writes versions v events new) c registry_ns k =
    if decide (k = validatorSetKey (version_height v)) then Some (marshal_json (version_document v))
    else if decide (k = heightsKey) then Some (marshal_uints (version_height <$> put_version versions v))
    else if decide (k = eventsKey ∧ length new ≠ 0%nat) then Some (marshal (json_slice (events ++ new)))
    else c registry_ns k.
Proof.
  pose proof (set_key_other (version_height v)) as (Hk1 & Hk2 & Hk3).
  unfold change_writes, writes_content, write_content.
  destruct (bool_decide_reflect (length new = 0%nat)) as [Hn|Hn]; cbn [foldl app KW_Namespace KW_Key KW_Delete KW_Value];
    repeat match goal with |- context [decide ?P] => destruct (decide P) end; naive_solver.
Qed.

Lemma put_version_ok versions v :
  StronglySorted Z.lt (version_height <$> versions) → Forall version_ok versions → version_ok v →
  Forall version_ok (put_version versions v).
Proof.
  intros Hs%lt_sorted_nodup Hall Hv. rewrite Forall_forall in *. intros w Hw.
  apply elem_of_put_version in Hw as [->|[Hw _]]; [done|by apply Hall|done].
Qed.

Lemma put_version_nonempty versions v :
  NoDup (version_height <$> versions) → length (put_version versions v) ≠ 0%nat.
Proof.
  intros Hnd Hn. assert (v ∈ put_version versions v) as Hv by (apply elem_of_put_version; auto).
  apply length_zero_iff_nil in Hn. rewrite Hn in Hv. by apply not_elem_of_nil in Hv.
Qed.

(** A store that got the writes of a change holds the change. *)
Lemma stored_change versions events st v new st' :
  stored versions events st → version_ok v → Forall kept new → store_ok st' →
  same_content (content st') (writes_content (change_writes versions v events new) (content st)) →
  stored (put_version versions v) (events ++ new) st'.
Proof.
  intros [Hok Hs Hall He Hh Hd Hev] Hv Hnew Hok' Hc. pose proof (lt_sorted_nodup _ Hs) as Hnd.
  pose proof (set_key_other (version_height v)) as (Hk1 & Hk2 & Hk3).
  assert (∀ k, content st' registry_ns k =
    writes_content (change_writes versions v events new) (content st) registry_ns k) as Hk by (intros k; by apply Hc).
  split; [done|by apply put_version_sorted|by apply put_version_ok|by apply Forall_app| | |].
  - rewrite Hk, change_writes_content, decide_False, decide_True by done. unfold stored_list.
    rewrite bool_decide_eq_false_2; [done|by apply put_version_nonempty].
  - intros w Hw. rewrite Hk, change_writes_content.
    apply elem_of_put_version in Hw as [->|[Hw Hne]]; [by rewrite decide_True|..|done].
    pose proof (set_key_other (version_height w)) as (Hw1 & Hw2 & _).
    rewrite !decide_False; [by apply Hd|by intros [? _]|done|]. intros Hkey. apply Hne.
    rewrite Forall_forall in Hall. destruct (Hall w Hw) as [Hwh _ _], Hv as [Hvh _ _].
    apply set_key_inj; unfold is_u64; [lia..|done].
  - rewrite Hk, change_writes_content, decide_False, decide_False by done. unfold stored_list in *.
    destruct (decide (eventsKey = eventsKey ∧ _)) as [Hn|Hn]; [|rewrite Hev].
    + rewrite bool_decide_eq_false_2; [done|]. rewrite length_app. lia.
    + assert (new = []) as -> by (apply length_zero_iff_nil; destruct (decide (length new = 0%nat)); naive_solver).
      by rewrite app_nil_r.
Qed.

Lemma change_writes_valid versions v events new :
  Forall valid_write (change_writes versions v events new) ∧
  Forall (λ w, KW_Delete w = false) (change_writes versions v events new).
Proof.
  unfold change_writes. case_bool_decide; split; repeat constructor; done.
Qed.

Lemma saveSnapshotWithEvents_stored versions events st v new :
  stored versions events st → version_ok v → Forall kept new →
  ∃ st', saveSnapshotWithEvents st None (version_height v) (sortedValidatorMap (version_validators v)) new = (st', Ok tt) ∧
    stored (put_version versions v) (events ++ new) st'.
Proof.
  intros Hst Hv Hnew. unfold saveSnapshotWithEvents.
  rewrite (snapshotWrites_stored _ events) by (done || apply Hv).
  destruct (change_writes_stored versions events st v new Hst) as [-> Hws]. cbn [mbind result_bind]. rewrite <-Hws.
  destruct (change_writes_valid versions v events new) as [Hval Hdel].
  destruct (apply_writes_total st (change_writes versions v events new)) as (st' & Happ & Hok & Hc);
    [apply Hst|done..|].
  exists st'. split; [exact Happ|]. by eapply stored_change.
Qed.
End stored.

(** ** The operations *)

Inductive RegistryOp :=
| OpJoin (height : Height) (candidate : Candidate)
| OpLeave (height : Height) (id : ValidatorID)
| OpPower (height : Height) (id : ValidatorID) (power : VotingPower).

(** Heights and powers are 64-bit, the candidate's strings are UTF-8. *)
Definition op_ok (op : RegistryOp) : Prop :=
  match op with
  | OpJoin height candidate => 1 ≤ height < two64 ∧ kept (joined candidate)
  | OpLeave height _ => 1 ≤ height < two64
  | OpPower height _ power => 1 ≤ height < two64 ∧ is_u64 power
  end.

Definition memory_op (r : InMemoryRegistry) (op : RegistryOp) : InMemoryRegistry * result (option Validator) :=
  match op with
  | OpJoin height candidate => let '(r, x) := ApplyJoinAt r None height candidate in (r, v ← x; Ok (Some v))
  | OpLeave height id => let '(r, x) := ApplyLeaveAt r None height id in (r, _ ← x; Ok None)
  | OpPower height id power => let '(r, x) := UpdateVotingPowerAt r None height id power in (r, _ ← x; Ok None)
  end.

Fixpoint memory_run (r : InMemoryRegistry) (ops : list RegistryOp) : InMemoryRegistry * list (result (option Validator)) :=
  match ops with
  | [] => (r, [])
  | op :: ops => let '(r, x) := memory_op r op in let '(r, xs) := memory_run r ops in (r, x :: xs)
  end.

Section simulation.
Context {T : Type} `{ReliableStore T}.

Definition store_op (st : T) (s : StoreRegistry) (op : RegistryOp) : T * StoreRegistry * result (option Validator) :=
  match op with
  | OpJoin height candidate =>
      let '(st, s, x) := StoreRegistry_ApplyJoinAt st s None height candidate in (st, s, v ← x; Ok (Some v))
  | OpLeave height id => let '(st, s, x) := StoreRegistry_ApplyLeaveAt st s None height id in (st, s, _ ← x; Ok None)
  | OpPower height id power =>
      let '(st, s, x) := StoreRegistry_UpdateVotingPowerAt st s None height id power in (st, s, _ ← x; Ok None)
  end.

Fixpoint store_run (st : T) (s : StoreRegistry) (ops : list RegistryOp)
    : T * StoreRegistry * list (result (option Validator)) :=
  match ops with
  | [] => (st, s, [])
  | op :: ops =>
      let '(st, s, x) := store_op st s op in let '(st, s, xs) := store_run st s ops in (st, s, x :: xs)
  end.

(** The persistent registry and its store hold what the registry in memory holds. *)
Record simulates (r : InMemoryRegistry) (st : T) (s : StoreRegistry) : Prop := {
  sim_wf : registry_wf r;
  sim_first : ∃ v, v ∈ reg_versions r ∧ version_height v = 1;
  sim_stored : stored (reg_versions r) (reg_events r) st;
  sim_events : sreg_events s = reg_events r;
  sim_policy : sreg_policy s = reg_policy r
}.

(** Some version is in force at every height. *)
Lemma select_from_first r h :
  registry_wf r → (∃ v, v ∈ reg_versions r ∧ version_height v = 1) → 1 ≤ h →
  ∃ v, select_version (reg_versions r) h = Some v ∧ v ∈ reg_versions r ∧ set_at r h = version_validators v.
Proof.
  intros Hwf (w & Hw & Hw1) Hh. unfold set_at. destruct (select_version (reg_versions r) h) as [v|] eqn:E.
  - exists v. apply select_version_Some in E as [Hv _]; [done|by apply wf_sorted].
  - apply select_version_None in E. rewrite Forall_forall in E. specialize (E w Hw). lia.
Qed.

Section sim.
Context (r : InMemoryRegistry) (st : T) (s : StoreRegistry) (Hsim : simulates r st s).

Lemma set_at_kept h : map_Forall (λ _, kept) (set_at r h).
Proof using H0 Hsim.
  unfold set_at. destruct (select_version _ _) as [v|] eqn:E; [|apply map_Forall_empty].
  apply select_version_Some in E as [Hv _]; [|apply Hsim].
  pose proof (stored_versions _ _ _ (sim_stored _ _ _ Hsim)) as Hall. rewrite Forall_forall in Hall. by apply Hall.
Qed.

Lemma validatorsAt_sim h : 1 ≤ h → validatorsAt st None h = Ok (set_at r h).
Proof using H0 Hsim.
  intros Hh. rewrite (validatorsAt_stored _ _ _ _ (sim_stored _ _ _ Hsim)).
  destruct (select_from_first r h) as (v & -> & Hv & ->); [apply Hsim..|done|done].
Qed.

Lemma ValidatorSet_sim s' h : 1 ≤ h → StoreRegistry_ValidatorSet st s' None h = Registry_ValidatorSet r None h.
Proof using H0 Hsim.
  intros Hh. rewrite Registry_ValidatorSet_ok by apply Hsim. unfold effective. rewrite bool_decide_eq_false_2 by lia.
  rewrite (ValidatorSet_stored _ _ _ _ _ (sim_stored _ _ _ Hsim)) by lia.
  destruct (select_from_first r h) as (v & -> & Hv & ->); [apply Hsim..|done|done].
Qed.

(** A change saved in the store and recorded in memory. *)
Lemma save_change_sim s' h m t id power :
  1 ≤ h < two64 → valid_map m → map_Forall (λ _, kept) m → sanitize t = t → sanitize id = id → is_u64 power →
  sreg_events s' = sreg_events s → sreg_policy s' = sreg_policy s →
  ∃ st' s'', save_change st s' None h m t id power = (st', s'', Ok tt) ∧
    simulates (recordMutation (set_validators r m) h t id power) st' s''.
Proof using H0 Hsim.
  intros Hh Hm Hkm Ht Hid Hp He Hpol. unfold save_change. rewrite newSetSnapshot_validators.
  pose proof (recordMutation_mutated r h m t id power (sim_wf _ _ _ Hsim) Hm ltac:(lia)) as Hmut.
  pose proof (recordMutation_versions (set_validators r m) h t id power ltac:(lia) (proj1 Hm)) as Hv.
  set (e := mkRotationEvent h t id power _). change (snapshot (set_validators r m)) with (map_snapshot m) in Hv.
  cbn [reg_versions reg_validators set_validators] in Hv.
  destruct (saveSnapshotWithEvents_stored (reg_versions r) (reg_events r) st
    (mkVersion h m (snap_hash (map_snapshot m))) [e]) as (st' & Hsave & Hst').
  - apply Hsim.
  - by split.
  - apply Forall_singleton, event_kept; [unfold is_u64; lia|done..].
  - cbn [version_height version_validators] in Hsave. rewrite Hsave. eexists st', _. split; [done|]. split.
    + apply Hmut.
    + destruct (sim_first _ _ _ Hsim) as (v & Hin & H1).
      assert (1 ∈ version_height <$> reg_versions (recordMutation (set_validators r m) h t id power)) as H1'.
      { apply (mutated_heights _ _ _ _ _ Hmut). right. apply list_elem_of_fmap. eauto. }
      apply list_elem_of_fmap in H1' as (w & Hw & Hin'). eauto.
    + rewrite Hv, (mutated_event _ _ _ _ _ Hmut). exact Hst'.
    + rewrite (mutated_event _ _ _ _ _ Hmut). cbn. by rewrite He, (sim_events _ _ _ Hsim).
    + cbn. rewrite Hpol, (sim_policy _ _ _ Hsim). unfold recordMutation, recordVersion. by destruct (replace_version _ _).
Qed.

(** A failed operation changes the working map and the default height only. *)
Lemma set_validators_sim s' m :
  valid_map m → sreg_events s' = sreg_events s → sreg_policy s' = sreg_policy s → simulates (set_validators r m) st s'.
Proof using H0 Hsim.
  intros Hm He Hp. destruct Hsim as [Hwf H1 Hst Hev Hpol]. split; [by apply set_validators_unchanged|done..| |];
    cbn; congruence.
Qed.

Lemma currentValidators_sim s' h : 1 ≤ h → currentValidators st (setEffectiveHeightLocked s' h) None = Ok (set_at r h).
Proof using H0 Hsim.
  intros Hh. unfold currentValidators, setEffectiveHeightLocked. cbn [sreg_effectiveHeight].
  rewrite bool_decide_eq_false_2 by lia. by apply validatorsAt_sim.
Qed.

Lemma kept_id v : kept v → sanitize (Validator_ID v) = Validator_ID v.
Proof. destruct v. by intros [_ [= ]]. Qed.

Lemma set_at_id h id v : set_at r h !! id = Some v → Validator_ID v = id ∧ sanitize id = id.
Proof using H0 Hsim.
  intros Hv. destruct (set_at_valid r (sim_wf _ _ _ Hsim) h) as [Hk _]. pose proof (Hk id v Hv) as Hid.
  split; [done|]. rewrite <-Hid. apply kept_id. by apply (set_at_kept h id v).
Qed.

Lemma join_sim h c :
  1 ≤ h < two64 → kept (joined c) →
  let '(r', x) := ApplyJoinAt r None h c in
  let '(st', s', y) := StoreRegistry_ApplyJoinAt st s None h c in
  x = y ∧ simulates r' st' s'.
Proof using H0 Hsim.
  intros Hh Hc. pose proof (sim_wf _ _ _ Hsim) as Hwf. pose proof (set_at_valid r Hwf h) as Hm.
  unfold ApplyJoinAt, StoreRegistry_ApplyJoinAt. case_bool_decide; [done|].
  rewrite !(bool_decide_eq_false_2 (h = 0)) by lia.
  rewrite currentValidators_sim, toMap_snapshotAt by (done || lia). cbn [reg_validators reg_policy set_validators].
  case_bool_decide as Hnone; [split; [done|by apply (set_validators_sim _)]|].
  change (sreg_policy (setEffectiveHeightLocked s h)) with (sreg_policy s). rewrite (sim_policy _ _ _ Hsim).
  change (snapshot (set_validators r (set_at r h))) with (newSetSnapshot (sortedValidatorMap (set_at r h))).
  destruct (match reg_policy r with Some _ => _ | None => _ end) as [[]|e]; [|split; [done|by apply (set_validators_sim _)]].
  cbn [Validator_VotingPower]. case_bool_decide as Hp; [split; [done|by apply (set_validators_sim _)]|].
  fold (joined c). pose proof (proj1 Hc) as (Hu & _ & _). cbn in Hu.
  destruct (save_change_sim (setEffectiveHeightLocked s h) h (<[Candidate_Address c := joined c]> (set_at r h))
    RotationEventJoin (Candidate_Address c) (Candidate_Stake c)) as (st' & s' & -> & Hsim'); try done.
  - apply (valid_map_insert _ (joined c)); [done|]. cbn. unfold is_u64 in Hu. lia.
  - apply map_Forall_insert_2; [done|apply set_at_kept].
  - apply (kept_id _ Hc).
Qed.

Lemma leave_sim h id :
  1 ≤ h < two64 →
  let '(r', x) := ApplyLeaveAt r None h id in
  let '(st', s', y) := StoreRegistry_ApplyLeaveAt st s None h id in
  x = y ∧ simulates r' st' s'.
Proof using H0 Hsim.
  intros Hh. pose proof (sim_wf _ _ _ Hsim) as Hwf. pose proof (set_at_valid r Hwf h) as Hm.
  unfold ApplyLeaveAt, StoreRegistry_ApplyLeaveAt. rewrite !(bool_decide_eq_false_2 (h = 0)) by lia.
  rewrite currentValidators_sim, toMap_snapshotAt by (done || lia). cbn [reg_validators set_validators].
  destruct (set_at r h !! id) as [v|] eqn:E; [|split; [done|by apply (set_validators_sim _)]].
  apply set_at_id in E as [_ Hid].
  destruct (save_change_sim (setEffectiveHeightLocked s h) h (delete id (set_at r h))
    RotationEventLeave id 0) as (st' & s' & -> & Hsim'); try done.
  - by apply valid_map_delete.
  - apply map_Forall_delete, set_at_kept.
Qed.

Lemma power_sim h id power :
  1 ≤ h < two64 → is_u64 power →
  let '(r', x) := UpdateVotingPowerAt r None h id power in
  let '(st', s', y) := StoreRegistry_UpdateVotingPowerAt st s None h id power in
  x = y ∧ simulates r' st' s'.
Proof using H0 Hsim.
  intros Hh Hp. pose proof (sim_wf _ _ _ Hsim) as Hwf. pose proof (set_at_valid r Hwf h) as Hm.
  unfold UpdateVotingPowerAt, StoreRegistry_UpdateVotingPowerAt. case_bool_decide; [done|].
  rewrite !(bool_decide_eq_false_2 (h = 0)) by lia.
  rewrite currentValidators_sim, toMap_snapshotAt by (done || lia). cbn [reg_validators set_validators].
  destruct (set_at r h !! id) as [v|] eqn:E; [|split; [done|by apply (set_validators_sim _)]].
  pose proof (set_at_kept h id v E) as Hv. apply set_at_id in E as [Hvid Hid].
  destruct (save_change_sim (setEffectiveHeightLocked s h) h (<[id := with_power v power]> (set_at r h))
    RotationEventPowerChange id power) as (st' & s' & -> & Hsim'); try done.
  - rewrite <-Hvid. apply (valid_map_insert _ (with_power v power)); [done|]. cbn. unfold is_u64 in Hp. lia.
  - apply map_Forall_insert_2; [|apply set_at_kept]. destruct v. destruct Hv as [(_ & Hs & Hmeta) Hc].
    split; [by split_and!|]. injection Hc as Hi Ha. cbn. unfold with_power. cbn. by rewrite Hi, Ha.
Qed.

Lemma op_sim op :
  op_ok op →
  let '(r', x) := memory_op r op in
  let '(st', s', y) := store_op st s op in
  x = y ∧ simulates r' st' s'.
Proof using H0 Hsim.
  destruct op as [h c|h id|h id p]; cbn [op_ok memory_op store_op].
  - intros [Hh Hc]. pose proof (join_sim h c Hh Hc). repeat case_match; naive_solver.
  - intros Hh. pose proof (leave_sim h id Hh). repeat case_match; naive_solver.
  - intros [Hh Hp]. pose proof (power_sim h id p Hh Hp). repeat case_match; naive_solver.
Qed.
End sim.

Lemma run_sim r st s ops :
  simulates r st s → Forall op_ok ops →
  ∃ r' st' s' results, memory_run r ops = (r', results) ∧ store_run st s ops = (st', s', results) ∧ simulates r' st' s'.
Proof.
  intros Hsim Hops. revert r st s Hsim. induction Hops as [|op ops Hop Hops IH]; intros r st s Hsim; [by eauto 8|].
  cbn [memory_run store_run]. pose proof (op_sim r st s Hsim op Hop) as Hstep.
  destruct (memory_op r op) as [r1 x], (store_op st s op) as [[st1 s1] y]. destruct Hstep as [-> Hsim1].
  destruct (IH r1 st1 s1 Hsim1) as (r' & st' & s' & results & -> & -> & Hsim'). by eauto 8.
Qed.

(** ** A new registry *)

Lemma initial_map initial m :
  foldl (λ acc v,
      m ← acc;
      if bool_decide (Validator_VotingPower v = 0) then Err ErrZeroVotingPower
      else Ok (<[Validator_ID v := v]> m)) (Ok m) initial =
    if existsb (λ v, bool_decide (Validator_VotingPower v = 0)) initial then Err ErrZeroVotingPower
    else Ok (insert_all initial m).
Proof.
  revert m. induction initial as [|v initial IH]; intros m; [done|]. cbn [foldl existsb mbind result_bind].
  case_bool_decide; [|apply IH]. cbn [orb]. clear IH. induction initial as [|w initial IH]; [done|]. cbn. apply IH.
Qed.

Lemma insert_all_keyed initial m : keyed m → keyed (insert_all initial m).
Proof.
  revert m. induction initial as [|v initial IH]; intros m Hm; [done|]. apply IH. by apply map_Forall_insert_2.
Qed.

Lemma insert_all_Forall (P : Validator → Prop) initial m :
  Forall P initial → map_Forall (λ _, P) m → map_Forall (λ _, P) (insert_all initial m).
Proof.
  intros Hall. revert m. induction Hall as [|v initial Hv Hall IH]; intros m Hm; [done|]. apply IH.
  by apply map_Forall_insert_2.
Qed.

Lemma sortedValidators_insert_all initial :
  NoDup (Validator_ID <$> initial) → sortedValidators initial = sortedValidatorMap (insert_all initial ∅).
Proof.
  intros Hnd. apply sort_by_unique; [apply _..|done|]. symmetry. apply NoDup_Permutation.
  - apply (NoDup_fmap_1 Validator_ID). apply (keyed_ids_nodup canonical_order), insert_all_keyed. apply map_Forall_empty.
  - by apply NoDup_fmap_1 in Hnd.
  - intros v. transitivity (v ∈ sortedValidatorMap (insert_all initial ∅)); [symmetry; apply elem_of_sort_by|].
    rewrite elem_of_sortedValidatorMap by (apply insert_all_keyed, map_Forall_empty).
    rewrite insert_all_lookup, lookup_empty by done. naive_solver.
Qed.

Lemma saveSnapshot_sorted st ctx h l l' :
  sortedValidators l = sortedValidators l' → saveSnapshot st ctx h l = saveSnapshot st ctx h l'.
Proof. intros Hl. unfold saveSnapshot, saveSnapshotWithEvents, snapshotWrites. by rewrite Hl. Qed.

(** An empty registry namespace. *)
Lemma stored_empty st : store_ok st → (∀ k, content st registry_ns k = None) → stored [] [] st.
Proof. intros Hok Hc. split; try done; [constructor|]. intros v Hv. by apply not_elem_of_nil in Hv. Qed.

Lemma new_sim policy initial st :
  store_ok st → (∀ k, content st registry_ns k = None) → Forall kept initial → NoDup (Validator_ID <$> initial) →
  match NewInMemoryRegistry policy initial with
  | Err e => NewStoreRegistry st None policy 1 initial = (st, Err e)
  | Ok r => ∃ st' s, NewStoreRegistry st None policy 1 initial = (st', Ok s) ∧ simulates r st' s
  end.
Proof.
  intros Hok Hc Hkept Hnd. pose proof (stored_empty st Hok Hc) as Hst. unfold NewInMemoryRegistry, NewStoreRegistry.
  rewrite (loadLatest_stored _ _ _ _ Hst), initial_map. cbn [select_version foldl]. cbv zeta.
  change (negb (errors_is ErrValidatorSetNotFound ErrValidatorSetNotFound)) with false. cbv iota.
  destruct (existsb _ initial) eqn:Ez; [done|]. cbn [mbind result_bind].
  set (m := insert_all initial ∅).
  assert (map_Forall (λ _, kept) m) as Hk by (by apply insert_all_Forall; [|apply map_Forall_empty]).
  assert (valid_map m) as Hm.
  { split; [by apply insert_all_keyed, map_Forall_empty|]. apply insert_all_Forall; [|apply map_Forall_empty].
    rewrite Forall_forall in *. intros v Hv. destruct (Hkept v Hv) as [(Hu & _ & _) _]. unfold is_u64 in Hu.
    assert (Validator_VotingPower v ≠ 0); [|lia]. intros H1. apply not_true_iff_false in Ez. apply Ez, existsb_exists.
    exists v. by rewrite <-list_elem_of_In, bool_decide_eq_true. }
  set (v := mkVersion 1 m (snap_hash (map_snapshot m))).
  assert (version_ok v) as Hv by (by split). change (if bool_decide (1 = 0) then 1 else 1) with 1.
  destruct (saveSnapshotWithEvents_stored [] [] st v [] Hst Hv) as (st' & Hsave & Hst'); [done|].
  rewrite recordVersion_put by (done || apply Hm). exists st', (mkStoreRegistry policy 1 [] ∅). split.
  - rewrite (saveSnapshot_sorted st None 1 initial (sortedValidatorMap m)).
    + unfold saveSnapshot. cbn [version_height version_validators v] in Hsave. by rewrite Hsave.
    + rewrite sortedValidators_sorted by apply Hm. by apply sortedValidators_insert_all.
  - destruct (NewInMemoryRegistry_wf policy initial (set_versions (mkRegistry policy m 1 [] []) (put_version [] v)))
      as [Hwf _].
    + eapply Forall_impl; [exact Hkept|]. intros w [(Hu & _ & _) _]. exact Hu.
    + unfold NewInMemoryRegistry. rewrite initial_map, Ez. cbn [mbind result_bind]. by rewrite recordVersion_put by (done || apply Hm).
    + split; [exact Hwf| |exact Hst'|done..]. exists v. split; [|done]. apply elem_of_put_version; [constructor|by left].
Qed.

(** Opening the store again finds the versions and the events. *)
Lemma reopen_sim r st s initial :
  simulates r st s →
  ∃ s', NewStoreRegistry st None (sreg_policy s) 1 initial = (st, Ok s') ∧ simulates r st s'.
Proof.
  intros Hsim. unfold NewStoreRegistry. cbv zeta. change (if bool_decide (1 = 0) then 1 else 1) with 1.
  rewrite (loadLatest_stored _ _ _ _ (sim_stored _ _ _ Hsim)), (loadRotationEvents_stored _ _ _ (sim_stored _ _ _ Hsim)).
  destruct (select_from_first r 1) as (v & -> & _); [apply Hsim..|done|]. eexists. split; [done|].
  destruct Hsim as [Hwf H1 Hst He Hp]. by split.
Qed.

(** The two registries show their clients the same. *)
Definition same_registry (r : InMemoryRegistry) (st : T) (s : StoreRegistry) : Prop :=
  StoreRegistry_RotationEvents s = RotationEvents r ∧
  ∀ height, 1 ≤ height → StoreRegistry_ValidatorSet st s None height = Registry_ValidatorSet r None height.

Lemma same_registry_sim r st s : simulates r st s → same_registry r st s.
Proof. intros Hsim. split; [apply Hsim|]. intros h Hh. by apply (ValidatorSet_sim r st s). Qed.


(** ** Updates of a block *)

Definition update_ok (u : ValidatorUpdate) : Prop :=
  is_u64 (Update_VotingPower u) ∧ is_u64 (Update_Stake u) ∧ utf8_map (Update_Metadata u) ∧
  sanitize (Update_ID u) = Update_ID u ∧ sanitize (Update_Address u) = Update_Address u.

Definition map_kept (m : gmap ValidatorID Validator) : Prop := valid_map m ∧ map_Forall (λ _, kept) m.

Lemma map_kept_insert m v :
  map_kept m → kept v → 0 < Validator_VotingPower v → map_kept (<[Validator_ID v := v]> m).
Proof.
  intros [Hm Hk] Hv Hp. split; [|by apply map_Forall_insert_2]. apply valid_map_insert; [done|].
  destruct Hv as [(Hu & _ & _) _]. unfold is_u64 in Hu. lia.
Qed.

Lemma complete_update_ok u : update_ok u → update_ok (complete_update u).
Proof.
  intros (Hp & Hs & Hm & Hi & Ha). unfold complete_update. split_and!; try done; cbn; repeat case_bool_decide; done.
Qed.

Lemma stage_update_kept policy m u m' :
  map_kept m → update_ok u → stage_update policy None m u = Ok m' → map_kept m'.
Proof.
  intros Hm Hu%complete_update_ok. unfold stage_update. cbv zeta. generalize (complete_update u) Hu. clear u Hu. intros u' Hu.
  destruct Hu as (Hp & Hs & Hmeta & Hi & Ha).
  destruct (bool_decide_reflect (Update_ID u' = "")); [discriminate|]. cbn [negb check mbind result_bind].
  destruct (bool_decide_reflect (Update_VotingPower u' = 0)) as [_|Hne].
  { destruct (bool_decide (is_Some _)); [|discriminate]. intros [= <-]. destruct Hm. split; [by apply valid_map_delete|by apply map_Forall_delete]. }
  assert (0 < Update_VotingPower u') as Hpos by (unfold is_u64 in Hp; lia).
  destruct (m !! Update_ID u') as [v|] eqn:E.
  - intros [= <-]. destruct Hm as [Hm Hk]. pose proof (proj1 Hm _ _ E) as <-. pose proof (Hk _ _ E) as [(_ & Hvs & Hvm) Hc].
    apply (map_kept_insert m (change_validator v u')); [done| |done]. destruct v; cbn in *. injection Hc as Hvi Hva.
    split; [|by cbn; rewrite Hvi, Hva]. split; [done|]. cbn. by repeat case_bool_decide.
  - destruct (match policy with Some _ => _ | None => _ end) as [[]|]; [|discriminate]. intros [= <-].
    apply (map_kept_insert m (mkValidator (Update_ID u') _ _ _ _ _)); [done| |done].
    split; [|by cbn; rewrite Hi, Ha]. split; [done|]. split; [|done]. cbn. by case_bool_decide.
Qed.

Lemma stage_updates_kept policy m updates m' :
  map_kept m → Forall update_ok updates → stage_updates policy None m updates = Ok m' → map_kept m'.
Proof.
  intros Hm Hall. revert m Hm. induction Hall as [|u updates Hu Hall IH]; intros m Hm; cbn [stage_updates].
  { by intros [= <-]. }
  intros (m1 & H1 & H2)%bind_Ok. eapply IH; [|exact H2]. by eapply stage_update_kept.
Qed.

Lemma rotation_event_kept h previous current updates :
  is_u64 h → map_kept current → Forall update_ok updates →
  Forall kept (omap (rotation_event h previous (map_snapshot current)) updates).
Proof.
  intros Hh [[Hk Hp] _] Hall. apply Forall_forall. intros e (u & Hu & He)%list_elem_of_omap.
  rewrite Forall_forall in Hall. destruct (Hall u Hu) as (_ & _ & _ & Hi & Ha). revert He. unfold rotation_event. cbv zeta.
  set (id := if bool_decide (Update_ID u = "") then _ else _).
  assert (sanitize id = id) as Hid by (unfold id; by case_bool_decide).
  destruct (bool_decide (id = "")); [done|].
  change (snap_byID (map_snapshot current) !! id) with (Set_Get (snapshot_Set (map_snapshot current)) id).
  rewrite map_snapshot_get by done. destruct (current !! id) as [v|] eqn:E.
  - assert (is_u64 (Validator_VotingPower v)) by (apply Hp in E; unfold is_u64; lia).
    destruct (snap_byID previous !! id); intros [= <-]; by apply event_kept.
  - destruct (snap_byID previous !! id); [|done]. intros [= <-]. by apply event_kept.
Qed.

Lemma select_version_pred versions h :
  h ∉ version_height <$> versions → select_version versions (h - 1) = select_version versions h.
Proof.
  induction versions as [|v versions IH] using rev_ind; [done|]. rewrite fmap_app, not_elem_of_app. intros [Hin Hv].
  rewrite !select_version_snoc, IH by done. cbn in Hv. rewrite list_elem_of_singleton in Hv.
  rewrite (bool_decide_ext (version_height v ≤ h - 1) (version_height v ≤ h)) by lia. done.
Qed.

(** Committing takes the events that were staged, or finds that there are none. *)
Lemma commit_staged r st s h m hash updates st' registry :
  simulates r st s → 1 < h → h ∉ version_height <$> reg_versions r →
  let events := omap (rotation_event h (map_snapshot (set_at r h)) (map_snapshot m)) updates in
  stored (put_version (reg_versions r) (mkVersion h m hash)) (reg_events r ++ events) st' →
  sreg_events registry = reg_events r → sreg_pendingEvents registry !! h = Some events →
  ∃ s2, CommitStagedValidatorUpdates st' registry None h updates = (s2, Ok tt) ∧
    StoreRegistry_RotationEvents s2 = reg_events r ++ events.
Proof.
  intros Hsim Hh Hnew events Hst' Hev Hpend. unfold CommitStagedValidatorUpdates, setEffectiveHeightLocked. cbv zeta.
  rewrite !(bool_decide_eq_false_2 (h = 0)) by lia. cbn [sreg_pendingEvents sreg_events sreg_policy sreg_effectiveHeight].
  rewrite Hpend. cbn [from_option id]. rewrite Hev.
  destruct (bool_decide_reflect (0 < length events)%nat) as [|Hn]; [by eexists|].
  assert (events = []) as Hnil by (apply length_zero_iff_nil; lia).
  rewrite bool_decide_eq_true_2, !(validatorsAt_stored _ _ _ _ Hst') by lia.
  rewrite (select_put_version _ _ (h - 1)), decide_False by (apply wf_sorted, Hsim || (cbn; intros [? _]; lia)).
  rewrite (select_put_version _ _ h), decide_True by (apply wf_sorted, Hsim || (split; [done|by apply Forall_true])).
  rewrite select_version_pred by done. destruct (select_from_first r h) as (v & -> & _ & Hv); [apply Hsim..|lia|].
  rewrite <-Hv. cbn [version_validators]. fold (map_snapshot (set_at r h)) (map_snapshot m). fold events.
  eexists. split; [done|]. by rewrite Hnil.
Qed.

(** C15: The two steps of a block's updates.  When a block at a new height stages
    its updates and its writes reach the store, the commit succeeds; from then on
    the registry serves the staged set at that height and the sets it served
    before at earlier ones, and the events it reports are those in the store. *)
Theorem staged_updates_commit r st s h updates s1 set writes :
  simulates r st s → 1 ≤ h < two64 → h ∉ version_height <$> reg_versions r → Forall update_ok updates →
  StageValidatorUpdatesAt st s None h updates = (s1, Ok (set, writes)) →
  ∃ st' s2, apply_writes st None writes = (st', Ok tt) ∧
    CommitStagedValidatorUpdates st' s1 None h updates = (s2, Ok tt) ∧
    StoreRegistry_ValidatorSet st' s2 None h = Ok set ∧
    (∀ h', 1 ≤ h' < h → StoreRegistry_ValidatorSet st' s2 None h' = StoreRegistry_ValidatorSet st s None h') ∧
    loadRotationEvents st' None = Ok (StoreRegistry_RotationEvents s2).
Proof.
  intros Hsim Hh Hnew Hall. pose proof (sim_stored _ _ _ Hsim) as Hst. pose proof (stored_sorted _ _ _ Hst) as Hs.
  assert (1 < h) as H1h.
  { destruct (sim_first _ _ _ Hsim) as (w & Hw & Hw1). destruct (decide (h = 1)) as [->|]; [|lia].
    destruct Hnew. apply list_elem_of_fmap. eauto. }
  unfold StageValidatorUpdatesAt. cbv zeta. rewrite bool_decide_eq_false_2 by lia.
  rewrite (validatorsAt_sim r st s) by (done || lia). cbn [mbind result_bind].
  destruct (stage_updates _ _ _ _) as [m|] eqn:Em; [|discriminate]. cbn [mbind result_bind].
  apply stage_updates_kept in Em as Hm; [|split; [apply set_at_valid, Hsim|by eapply set_at_kept]|done].
  rewrite newSetSnapshot_validators. fold (map_snapshot m) (map_snapshot (set_at r h)).
  set (v := mkVersion h m (snap_hash (map_snapshot m))).
  pose proof (snapshotWrites_stored (reg_versions r) (reg_events r) st v Hst (proj1 Hm)) as Hsnap.
  cbn [version_height version_validators v] in Hsnap. rewrite Hsnap. cbn [mbind result_bind].
  unfold stageRotationEvents. cbn [sreg_pendingEvents]. rewrite lookup_insert_eq. cbn [from_option id].
  set (events := omap (rotation_event h (map_snapshot (set_at r h)) (map_snapshot m)) updates).
  destruct (change_writes_stored (reg_versions r) (reg_events r) st v events Hst) as [-> Hws].
  cbn [mbind result_bind]. rewrite <-Hws. intros [= <- <- <-].
  destruct (change_writes_valid (reg_versions r) v (reg_events r) events) as [Hval Hdel].
  destruct (apply_writes_total st (change_writes (reg_versions r) v (reg_events r) events)) as (st' & Happ & Hok & Hc);
    [apply Hst|done..|].
  assert (stored (put_version (reg_versions r) v) (reg_events r ++ events) st') as Hst'.
  { eapply stored_change; [done|by split; [|apply Hm..]| |done..]. apply rotation_event_kept; [unfold is_u64; lia|done..]. }
  destruct (commit_staged r st s h m (snap_hash (map_snapshot m)) updates st'
    (mkStoreRegistry (sreg_policy s) (sreg_effectiveHeight s) (sreg_events s) (<[h := events]> (sreg_pendingEvents s))))
    as (s2 & Hcommit & Hev); [done..|apply Hsim|apply lookup_insert_eq|].
  exists st', s2. split_and!; [done..| | |by rewrite (loadRotationEvents_stored _ _ _ Hst'), Hev].
  - rewrite (ValidatorSet_stored _ _ _ _ _ Hst') by lia. rewrite select_put_version by done.
    by rewrite decide_True by (split; [done|by apply Forall_true]).
  - intros h' Hh'. rewrite (ValidatorSet_stored _ _ _ _ _ Hst'), (ValidatorSet_stored _ _ _ _ _ Hst) by lia.
    rewrite select_put_version by done. by rewrite decide_False by (cbn; intros [? _]; lia).
Qed.
End simulation.

(** ** A concrete history *)

Module StoreRegistryExample.
Import RegistryExample.

Definition vals : list Validator := [val "b" 20; mkValidator "a" "a" [x01] 10 12 {[ "moniker" := "node" ]}].
Definition ops : list RegistryOp :=
  [OpJoin 7 (cand "c" 30); OpLeave 3 "a"; OpLeave 5 "a"; OpPower 7 "b" 25].
Definition updates : list ValidatorUpdate :=
  [mkValidatorUpdate "a" "" [] 0 0 ∅; mkValidatorUpdate "" "c" [] 7 0 ∅].

Definition memory0 : InMemoryRegistry :=
  match NewInMemoryRegistry (Some policy) vals with Ok r => r | Err _ => mkRegistry None ∅ 0 [] [] end.
Definition store0 : gmap bytes bytes := (NewStoreRegistry (T:=gmap bytes bytes) ∅ None (Some policy) 1 vals).1.
Definition registry0 : StoreRegistry :=
  match (NewStoreRegistry (T:=gmap bytes bytes) ∅ None (Some policy) 1 vals).2 with
  | Ok s => s | Err _ => mkStoreRegistry None 0 [] ∅ end.
Definition staged_ids : result (list ValidatorID) :=
  '(set, _) ← (StageValidatorUpdatesAt store0 registry0 None 5 updates).2; Ok (Validator_ID <$> Set_List set).

Lemma memory0_ok : NewInMemoryRegistry (Some policy) vals = Ok memory0.
Proof. vm_compute. reflexivity. Qed.

Lemma vals_kept : Forall kept vals.
Proof.
  apply Forall_cons. split; [|apply Forall_singleton]; (split; [split_and!|]); try done.
  by apply map_Forall_singleton.
Qed.

Lemma vals_nodup : NoDup (Validator_ID <$> vals).
Proof. by apply (bool_decide_unpack _). Qed.

Lemma empty_namespace k : content (∅ : gmap bytes bytes) registry_ns k = None.
Proof. apply lookup_empty. Qed.

Lemma registry0_sim : simulates memory0 store0 registry0.
Proof.
  pose proof (new_sim (T:=gmap bytes bytes) (Some policy) vals ∅ I empty_namespace vals_kept vals_nodup) as Hnew.
  rewrite memory0_ok in Hnew. destruct Hnew as (st & s & Hnew & Hsim).
  unfold store0, registry0. by rewrite Hnew.
Qed.

Lemma staged_ids_ok : staged_ids = Ok ["b"; "c"].
Proof. vm_compute. reflexivity. Qed.

Lemma staged_ok :
  ∃ s1 set writes, StageValidatorUpdatesAt store0 registry0 None 5 updates = (s1, Ok (set, writes)) ∧
    Validator_ID <$> Set_List set = ["b"; "c"].
Proof.
  pose proof staged_ids_ok as Hids. unfold staged_ids in Hids.
  destruct (StageValidatorUpdatesAt store0 registry0 None 5 updates) as [s1 [[set writes]|e]]; [|discriminate].
  exists s1, set, writes. split; [done|]. by injection Hids.
Qed.

Lemma updates_ok : Forall update_ok updates.
Proof. repeat constructor; try done; apply map_Forall_empty. Qed.

Lemma height_ok : 1 ≤ 5 < two64.
Proof. done. Qed.

Lemma ops_ok : Forall op_ok ops.
Proof. repeat constructor; try done; apply map_Forall_empty. Qed.


Lemma staged_updates_commit_witness :
  ∃ s1 set writes st' s2,
    StageValidatorUpdatesAt store0 registry0 None 5 updates = (s1, Ok (set, writes)) ∧
    Validator_ID <$> Set_List set = ["b"; "c"] ∧
    apply_writes store0 None writes = (st', Ok tt) ∧
    CommitStagedValidatorUpdates st' s1 None 5 updates = (s2, Ok tt) ∧
    StoreRegistry_ValidatorSet st' s2 None 5 = Ok set ∧
    loadRotationEvents st' None = Ok (StoreRegistry_RotationEvents s2).
Proof.
  destruct staged_ok as (s1 & set & writes & Hstaged & Hids).
  assert (5 ∉ version_height <$> reg_versions memory0) as Hnew.
  { replace (version_height <$> reg_versions memory0) with [1] by (vm_compute; reflexivity).
    by rewrite list_elem_of_singleton. }
  destruct (staged_updates_commit memory0 store0 registry0 5 updates s1 set writes registry0_sim
    height_ok Hnew updates_ok Hstaged) as (st' & s2 & Happ & Hcommit & Hset & _ & Hev).
  exists s1, set, writes, st', s2.
  exact (conj Hstaged (conj Hids (conj Happ (conj Hcommit (conj Hset Hev))))).
Defined.
End StoreRegistryExample.
