(* ===== verification/Finality.v ===== *)
(** * Finality proofs and accountable safety ([src/finality/proof.go],
    [verifier.go], [builder.go], [attack_detector.go])

    A finality proof is a header with a quorum certificate and, for strict
    verification, two descendant links.  The verifier is given the validator
    set (or a registry to take it from) and an aggregate-signature verifier,
    which is the parameter of the model; the attack detector keeps the first
    verified proof of each height and compares later ones with it. *)

From S2P Require Import Prelude GoLib Sha256 Types Validator SignBytes.

Record CommitLink := mkCommitLink {
  Link_Header : Header;
  Link_BlockHash : Hash;
  Link_QuorumCert : QuorumCert
}.

(** [finality.Proof] *)
Record FinalityProof := mkFinalityProof {
  Proof_Header : Header;
  Proof_BlockHash : Hash;
  Proof_QuorumCert : QuorumCert;
  Proof_CommitChain : list CommitLink;
  Proof_ValidatorSetHeight : Height;
  Proof_ValidatorSetHash : Hash
}.

#[global] Instance CommitLink_eq_dec : EqDecision CommitLink.
Proof. solve_decision. Defined.
#[global] Instance FinalityProof_eq_dec : EqDecision FinalityProof.
Proof. solve_decision. Defined.

Definition ErrValidatorSetMismatch := ErrNew "finality.ErrValidatorSetMismatch".
Definition ErrBlockHashMismatch := ErrNew "finality.ErrBlockHashMismatch".
Definition ErrHeightMismatch := ErrNew "finality.ErrHeightMismatch".
Definition ErrInsufficientQuorum := ErrNew "finality.ErrInsufficientQuorum".
Definition ErrVotingPowerMismatch := ErrNew "finality.ErrVotingPowerMismatch".
Definition ErrMissingQCSignature := ErrNew "finality.ErrMissingQCSignature".
Definition ErrUnknownSigner := ErrNew "finality.ErrUnknownSigner".
Definition ErrDuplicateSigner := ErrNew "finality.ErrDuplicateSigner".
Definition ErrCommitChainTooShort := ErrNew "finality.ErrCommitChainTooShort".
Definition ErrCommitChainBroken := ErrNew "finality.ErrCommitChainBroken".
Definition ErrNoFinalityConflict := ErrNew "finality.ErrNoFinalityConflict".
Definition ErrFinalitySetUnavailable := ErrNew "finality.ErrFinalitySetUnavailable".

(** ** Hashes and sign bytes of a proof *)

(** [finality.hashHeader], written field by field as in [proof.go]. *)
Definition finality_hashHeader (header : Header) : Hash :=
  sha256 (bytes_of_string (Header_ChainID header) ++
          be64 (Header_Height header) ++
          be64 (wrap64 (Header_TimeUnixNano header)) ++
          hash_bytes (Header_PreviousBlockHash header) ++
          hash_bytes (Header_AppHash header) ++
          hash_bytes (Header_ValidatorSetHash header) ++
          hash_bytes (Header_ConsensusHash header) ++
          hash_bytes (Header_TxRoot header)).

Definition Proof_HeaderHash (proof : FinalityProof) : Hash :=
  finality_hashHeader (Proof_Header proof).
Definition Link_HeaderHash (link : CommitLink) : Hash :=
  finality_hashHeader (Link_Header link).

(** [if h == (types.Hash{}) { h = alt }] *)
Definition hash_or (h alt : Hash) : Hash := if bool_decide (h = zero_hash) then alt else h.

Lemma hash_or_nonzero h alt : h ≠ zero_hash → hash_or h alt = h.
Proof. intros. unfold hash_or. by rewrite bool_decide_eq_false_2. Qed.

Definition Proof_SignBytes (proof : FinalityProof) : bytes :=
  let cert := Proof_QuorumCert proof in
  let blockHash := hash_or (Proof_BlockHash proof) (QC_BlockHash cert) in
  let blockHash := hash_or blockHash (Proof_HeaderHash proof) in
  signbytes_Vote (QC_Height cert) (QC_Round cert) blockHash.

Definition HasThreeChainCommitProof (proof : FinalityProof) : bool :=
  bool_decide (2 ≤ length (Proof_CommitChain proof))%nat.

Definition Link_SignBytes (link : CommitLink) : bytes :=
  let cert := Link_QuorumCert link in
  signbytes_Vote (QC_Height cert) (QC_Round cert)
    (hash_or (QC_BlockHash cert) (Link_BlockHash link)).

(** [finality.NewProof] *)
Definition NewProof (header : Header) (quorumCert : QuorumCert) : FinalityProof :=
  mkFinalityProof header
    (hash_or (QC_BlockHash quorumCert) (finality_hashHeader header))
    quorumCert [] (Header_Height header) (Header_ValidatorSetHash header).

(** ** The verifier *)

Record Verifier := mkVerifier {
  verifier_validatorSet : ValidatorSet;
  verifier_signatures : option AggregateVerifier;
  verifier_requireCommitChain : bool
}.

Definition newVerifier (validatorSet : ValidatorSet) (signatures : option AggregateVerifier)
    (requireCommitChain : bool) : Verifier :=
  let signatures :=
    match signatures with
    | None => None
    | Some _ =>
        match NewDomainAggregateVerifier signatures DomainConsensusVote with
        | Ok wrapped => Some wrapped
        | Err _ => signatures
        end
    end in
  mkVerifier validatorSet signatures requireCommitChain.

Definition NewVerifier vs signatures : Verifier := newVerifier vs signatures false.
Definition NewStrictVerifier vs signatures : Verifier := newVerifier vs signatures true.

Definition HasQuorum (power total : VotingPower) : bool := HasTwoThirdsQuorum power total.

(** The loop of [verifyQuorumCert] over the parsed signers. *)
Fixpoint collect_signers (vs : ValidatorSet) (signers : list ValidatorID)
    (seen : gset ValidatorID) (votingPower : VotingPower) (publicKeys : list PublicKey)
    : result (VotingPower * list PublicKey) :=
  match signers with
  | [] => Ok (votingPower, publicKeys)
  | signer :: signers =>
      if bool_decide (signer ∈ seen) then Err ErrDuplicateSigner
      else match Set_Get vs signer with
           | None => Err ErrUnknownSigner
           | Some validatorInfo =>
               votingPower ← AddVotingPower votingPower (Validator_VotingPower validatorInfo);
               collect_signers vs signers ({[signer]} ∪ seen) votingPower
                 (publicKeys ++ [Validator_PublicKey validatorInfo])
           end
  end.

Definition verifyQuorumCert (verifier : Verifier) (ctx : Ctx) (cert : QuorumCert)
    (height : Height) (blockHash : Hash) (signBytes : bytes) : result unit :=
  ctx_guard ctx ≫= λ _,
  check ErrHeightMismatch (bool_decide (QC_Height cert = height)) ≫= λ _,
  check ErrBlockHashMismatch (bool_decide (QC_BlockHash cert = blockHash)) ≫= λ _,
  check ErrMissingQCSignature (bool_decide (length (QC_Signature cert) ≠ 0%nat)) ≫= λ _,
  ParseSigners (QC_Signers cert) ≫= λ signers,
  collect_signers (verifier_validatorSet verifier) signers ∅ 0 [] ≫= λ '(votingPower, publicKeys),
  check ErrInsufficientQuorum
    (HasQuorum votingPower (Set_TotalVotingPower (verifier_validatorSet verifier))) ≫= λ _,
  check ErrVotingPowerMismatch
    (bool_decide (QC_VotingPower cert = 0) || bool_decide (QC_VotingPower cert = votingPower))
    ≫= λ _,
  match verifier_signatures verifier with
  | None => Ok tt
  | Some verifyAggregate =>
      check ErrMissingQCSignature (verifyAggregate publicKeys signBytes (QC_Signature cert))
  end.

(** The loop of [verifyCommitChain] from position [index]. *)
Fixpoint verify_links (verifier : Verifier) (ctx : Ctx) (proof : FinalityProof)
    (index : nat) (previousHeader : Header) (previousHash : Hash) (links : list CommitLink)
    : result unit :=
  match links with
  | [] => Ok tt
  | link :: links =>
      let cert := Link_QuorumCert link in
      check ErrCommitChainBroken (bool_decide (Link_BlockHash link ≠ zero_hash)) ≫= λ _,
      check ErrBlockHashMismatch (bool_decide (Link_BlockHash link = Link_HeaderHash link))
        ≫= λ _,
      check ErrCommitChainBroken
        (bool_decide (Header_ChainID (Link_Header link) = Header_ChainID (Proof_Header proof)))
        ≫= λ _,
      check ErrValidatorSetMismatch
        (bool_decide (Header_ValidatorSetHash (Link_Header link) =
                      Header_ValidatorSetHash (Proof_Header proof))) ≫= λ _,
      check ErrCommitChainBroken
        (bool_decide (Header_Height (Link_Header link) =
                      wrap64 (Header_Height previousHeader + 1))) ≫= λ _,
      check ErrCommitChainBroken
        (bool_decide (Header_PreviousBlockHash (Link_Header link) = previousHash)) ≫= λ _,
      check ErrHeightMismatch
        (bool_decide (QC_Height cert = Header_Height previousHeader)) ≫= λ _,
      check ErrBlockHashMismatch (bool_decide (QC_BlockHash cert = previousHash)) ≫= λ _,
      (if bool_decide (index < 2)%nat
       then verifyQuorumCert verifier ctx cert (Header_Height previousHeader) previousHash
              (Link_SignBytes link)
       else Ok tt) ≫= λ _,
      verify_links verifier ctx proof (S index) (Link_Header link) (Link_BlockHash link) links
  end.

Definition verifyCommitChain (verifier : Verifier) (ctx : Ctx) (proof : FinalityProof)
    : result unit :=
  if bool_decide (length (Proof_CommitChain proof) = 0%nat) then
    if verifier_requireCommitChain verifier then Err ErrCommitChainTooShort else Ok tt
  else if negb (HasThreeChainCommitProof proof) then Err ErrCommitChainTooShort
  else verify_links verifier ctx proof 0 (Proof_Header proof)
         (hash_or (Proof_BlockHash proof) (Proof_HeaderHash proof)) (Proof_CommitChain proof).

(** [Verifier.VerifyFinalityProofWithContext] *)
Definition VerifyFinalityProof (verifier : Verifier) (ctx : Ctx) (proof : FinalityProof)
    : result unit :=
  ctx_guard ctx ≫= λ _,
  let validatorSetHash := Set_Hash (verifier_validatorSet verifier) in
  check ErrValidatorSetMismatch
    (bool_decide (Proof_ValidatorSetHash proof = validatorSetHash) &&
     bool_decide (Header_ValidatorSetHash (Proof_Header proof) = validatorSetHash)) ≫= λ _,
  check ErrHeightMismatch
    (bool_decide (Proof_ValidatorSetHeight proof ≠ 0) &&
     bool_decide (Proof_ValidatorSetHeight proof ≤ Header_Height (Proof_Header proof))) ≫= λ _,
  let blockHash := hash_or (Proof_BlockHash proof) (Proof_HeaderHash proof) in
  verifyQuorumCert verifier ctx (Proof_QuorumCert proof) (Header_Height (Proof_Header proof))
    blockHash (Proof_SignBytes proof) ≫= λ _,
  verifyCommitChain verifier ctx proof.

(** ** Verification against a registry *)

(** [ValidatorSet(ctx, height)] of a registry or set provider; the interface
    value it returns may be nil. *)
Abbreviation SetProvider := (Ctx → Height → result (option ValidatorSet)).

Record RegistryVerifier := mkRegistryVerifier {
  rverifier_registry : option SetProvider;
  rverifier_signatures : option AggregateVerifier;
  rverifier_requireCommitChain : bool
}.

Definition NewRegistryVerifier registry signatures : RegistryVerifier :=
  mkRegistryVerifier registry signatures false.
Definition NewStrictRegistryVerifier registry signatures : RegistryVerifier :=
  mkRegistryVerifier registry signatures true.

(** [RegistryVerifier.VerifyFinalityProofWithContext]; a registry that returns
    a nil set without an error makes the method call on it panic, written
    here as an error of its own. *)
Definition ErrNilDereference := ErrNew "runtime.nil_dereference".

Definition RegistryVerifier_VerifyFinalityProof (verifier : RegistryVerifier) (ctx : Ctx)
    (proof : FinalityProof) : result unit :=
  ctx_guard ctx ≫= λ _,
  match rverifier_registry verifier with
  | None => Err ErrValidatorSetMismatch
  | Some registry =>
      let validatorSetHeight :=
        if bool_decide (Proof_ValidatorSetHeight proof = 0)
        then Header_Height (Proof_Header proof) else Proof_ValidatorSetHeight proof in
      registry ctx validatorSetHeight ≫= λ validatorSet,
      match validatorSet with
      | None => Err ErrNilDereference
      | Some vs =>
          VerifyFinalityProof
            (newVerifier vs (rverifier_signatures verifier) (rverifier_requireCommitChain verifier))
            ctx proof
      end
  end.

(** ** Accountable safety *)

Record AccountableSafetyViolation := mkViolation {
  Violation_ChainID : string;
  Violation_Height : Height;
  Violation_ValidatorSetHeight : Height;
  Violation_ValidatorSetHash : Hash;
  Violation_FirstBlockHash : Hash;
  Violation_SecondBlockHash : Hash;
  Violation_FirstAppHash : Hash;
  Violation_SecondAppHash : Hash;
  Violation_FirstRound : Round;
  Violation_SecondRound : Round;
  Violation_FirstSigners : list ValidatorID;
  Violation_SecondSigners : list ValidatorID;
  Violation_DoubleSigners : list ValidatorID;
  Violation_DoubleSignVotingPower : VotingPower;
  Violation_TotalVotingPower : VotingPower;
  Violation_FaultPowerThreshold : VotingPower
}.

Definition MeetsFaultThreshold (violation : AccountableSafetyViolation) : bool :=
  bool_decide (Violation_FaultPowerThreshold violation ≤ Violation_DoubleSignVotingPower violation)
  && bool_decide (0 < Violation_FaultPowerThreshold violation).

Definition proofBlockHash (proof : FinalityProof) : Hash :=
  if bool_decide (Proof_BlockHash proof ≠ zero_hash) then Proof_BlockHash proof
  else if bool_decide (QC_BlockHash (Proof_QuorumCert proof) ≠ zero_hash)
  then QC_BlockHash (Proof_QuorumCert proof)
  else Proof_HeaderHash proof.

(** The loop of [overlappingVotingPower] over the first proof's signers. *)
Fixpoint overlap_loop (vs : ValidatorSet) (secondSet : gset ValidatorID)
    (firstSigners : list ValidatorID) (seen : gset ValidatorID)
    (overlapping : list ValidatorID) (power : VotingPower)
    : result (list ValidatorID * VotingPower) :=
  match firstSigners with
  | [] => Ok (overlapping, power)
  | signer :: rest =>
      if bool_decide (signer ∈ seen) then overlap_loop vs secondSet rest seen overlapping power
      else
        let seen := {[signer]} ∪ seen in
        if bool_decide (signer ∉ secondSet)
        then overlap_loop vs secondSet rest seen overlapping power
        else match Set_Get vs signer with
             | None => Err ErrUnknownSigner
             | Some validatorInfo =>
                 power ← AddVotingPower power (Validator_VotingPower validatorInfo);
                 overlap_loop vs secondSet rest seen (overlapping ++ [signer]) power
             end
  end.

Definition sortedSigners (signers : list ValidatorID) : list ValidatorID :=
  sort_by id String.le signers.

Definition overlappingVotingPower (vs : ValidatorSet)
    (firstSigners secondSigners : list ValidatorID) : result (list ValidatorID * VotingPower) :=
  '(overlapping, power) ← overlap_loop vs (list_to_set secondSigners) firstSigners ∅ [] 0;
  Ok (sort_by id String.le overlapping, power).

Definition faultPowerThreshold (total : VotingPower) : VotingPower :=
  if bool_decide (total = 0) then 0
  else
    let threshold := total / 3 in
    if bool_decide (total mod 3 ≠ 0) then wrap64 (threshold + 1) else threshold.

(** [DetectAccountableSafetyViolationWithContext] *)
Definition DetectAccountableSafetyViolationWithContext (ctx : Ctx) (sets : option SetProvider)
    (first second : FinalityProof) : result AccountableSafetyViolation :=
  ctx_guard ctx ≫= λ _,
  check ErrHeightMismatch
    (bool_decide (Header_Height (Proof_Header first) = Header_Height (Proof_Header second)))
    ≫= λ _,
  let firstBlockHash := proofBlockHash first in
  let secondBlockHash := proofBlockHash second in
  check ErrNoFinalityConflict (bool_decide (firstBlockHash ≠ secondBlockHash)) ≫= λ _,
  check ErrHeightMismatch
    (bool_decide (Proof_ValidatorSetHeight first ≠ 0) &&
     bool_decide (Proof_ValidatorSetHeight second ≠ 0) &&
     bool_decide (Proof_ValidatorSetHeight first = Proof_ValidatorSetHeight second)) ≫= λ _,
  check ErrValidatorSetMismatch
    (bool_decide (Proof_ValidatorSetHash first = Proof_ValidatorSetHash second) &&
     bool_decide (Header_ValidatorSetHash (Proof_Header first) =
                  Header_ValidatorSetHash (Proof_Header second))) ≫= λ _,
  match sets with
  | None => Err ErrFinalitySetUnavailable
  | Some sets =>
      sets ctx (Proof_ValidatorSetHeight first) ≫= λ validatorSet,
      match validatorSet with
      | None => Err ErrFinalitySetUnavailable
      | Some vs =>
          check ErrValidatorSetMismatch
            (bool_decide (Proof_ValidatorSetHash first = Set_Hash vs)) ≫= λ _,
          firstSigners ← ParseSigners (QC_Signers (Proof_QuorumCert first));
          secondSigners ← ParseSigners (QC_Signers (Proof_QuorumCert second));
          '(doubleSigners, doubleSignPower) ←
             overlappingVotingPower vs firstSigners secondSigners;
          Ok (mkViolation (Header_ChainID (Proof_Header first))
            (Header_Height (Proof_Header first)) (Proof_ValidatorSetHeight first)
            (Proof_ValidatorSetHash first) firstBlockHash secondBlockHash
            (Header_AppHash (Proof_Header first)) (Header_AppHash (Proof_Header second))
            (QC_Round (Proof_QuorumCert first)) (QC_Round (Proof_QuorumCert second))
            (sortedSigners firstSigners) (sortedSigners secondSigners)
            doubleSigners doubleSignPower (Set_TotalVotingPower vs)
            (faultPowerThreshold (Set_TotalVotingPower vs)))
      end
  end.

(** [staticValidatorSetProvider.ValidatorSet] *)
Definition staticValidatorSetProvider (vs : option ValidatorSet) : SetProvider :=
  λ ctx _, ctx_guard ctx ≫= λ _,
    match vs with None => Err ErrFinalitySetUnavailable | Some _ => Ok vs end.

Definition DetectAccountableSafetyViolation (vs : option ValidatorSet)
    (first second : FinalityProof) : result AccountableSafetyViolation :=
  DetectAccountableSafetyViolationWithContext None (Some (staticValidatorSetProvider vs))
    first second.

(** *** The attack detector *)

Record AttackDetector := mkDetector {
  detector_verifier : option (Ctx → FinalityProof → result unit);
  detector_sets : option SetProvider;
  detector_proofs : gmap Height FinalityProof
}.

Definition NewAttackDetector (vs : ValidatorSet) (signatures : option AggregateVerifier)
    : AttackDetector :=
  mkDetector (Some (VerifyFinalityProof (NewVerifier vs signatures)))
    (Some (staticValidatorSetProvider (Some vs))) ∅.

Definition NewRegistryAttackDetector (registry : option SetProvider)
    (signatures : option AggregateVerifier) : AttackDetector :=
  mkDetector
    (Some (RegistryVerifier_VerifyFinalityProof (NewRegistryVerifier registry signatures)))
    registry ∅.

(** [ObserveWithContext]; a nil violation is [None]. *)
Definition Observe (detector : AttackDetector) (ctx : Ctx) (proof : FinalityProof)
    : AttackDetector * result (option AccountableSafetyViolation) :=
  match ctx with Some e => (detector, Err e) | None =>
  match detector_verifier detector, detector_sets detector with
  | Some verify, Some sets =>
      match verify ctx proof with
      | Err e => (detector, Err e)
      | Ok _ =>
          match detector_proofs detector !! Header_Height (Proof_Header proof) with
          | None =>
              (mkDetector (Some verify) (Some sets)
                 (<[Header_Height (Proof_Header proof) := proof]> (detector_proofs detector)),
               Ok None)
          | Some previous =>
              (detector,
               match DetectAccountableSafetyViolationWithContext ctx (Some sets) previous proof with
               | Ok violation => Ok (Some violation)
               | Err e => if errors_is e ErrNoFinalityConflict then Ok None else Err e
               end)
          end
      end
  | _, _ => (detector, Err ErrFinalitySetUnavailable)
  end end.

(** ** What verification establishes *)

(** The public keys of a list of members. *)
Definition signer_keys (vs : ValidatorSet) (signers : list ValidatorID) : list PublicKey :=
  omap (λ id, Validator_PublicKey <$> Set_Get vs id) signers.

(** Specification of a verified certificate: a duplicate-free list of members
    with a two-thirds quorum of the power signed the vote bytes. *)
Record certified (vs : ValidatorSet) (signatures : option AggregateVerifier)
    (cert : QuorumCert) (height : Height) (blockHash : Hash) (signBytes : bytes)
    (signers : list ValidatorID) : Prop := {
  certified_height : QC_Height cert = height;
  certified_hash : QC_BlockHash cert = blockHash;
  certified_signature : QC_Signature cert ≠ [];
  certified_signers : ParseSigners (QC_Signers cert) = Ok signers;
  certified_nodup : NoDup signers;
  certified_members : signers ⊆ set_ids vs;
  certified_quorum :
    HasTwoThirdsQuorum (weight (power_of vs) signers) (Set_TotalVotingPower vs) = true;
  certified_power :
    QC_VotingPower cert = 0 ∨ QC_VotingPower cert = weight (power_of vs) signers;
  certified_verified :
    match signatures with
    | None => True
    | Some verify => verify (signer_keys vs signers) signBytes (QC_Signature cert) = true
    end
}.

Section verification.
Context (vs : ValidatorSet) `{!LawfulSet vs}.

Lemma collect_signers_Ok signers seen power keys power' keys' :
  is_u64 power →
  collect_signers vs signers seen power keys = Ok (power', keys') ↔
    NoDup signers ∧ (∀ id, id ∈ signers → id ∉ seen) ∧ signers ⊆ set_ids vs ∧
    power' = power + weight (power_of vs) signers ∧ power' < two64 ∧
    keys' = keys ++ signer_keys vs signers.
Proof.
  revert seen power keys. induction signers as [|x signers IH]; intros seen power keys Hp; simpl.
  { rewrite weight_nil, app_nil_r. unfold is_u64 in Hp. split.
    - intros [= <- <-]. split_and!; [constructor|set_solver|set_solver|lia|lia|done].
    - intros (_ & _ & _ & -> & _ & ->). do 2 f_equal. lia. }
  rewrite weight_cons. case_bool_decide as Hseen.
  { split; [done|]. intros (_ & Hs & _). exfalso. apply (Hs x); [by left|done]. }
  destruct (Set_Get vs x) as [v|] eqn:E; last first.
  { split; [done|]. intros (_ & _ & Hsub & _). exfalso.
    assert (is_Some (Set_Get vs x)) as [? ?]; [|congruence].
    apply elem_of_set_ids; [done|]. apply Hsub. by left. }
  assert (power_of vs x = Validator_VotingPower v) as Hpx by (unfold power_of; by rewrite E).
  assert (x ∈ set_ids vs) as Hx by (apply elem_of_set_ids; eauto).
  pose proof (Set_Get_u64 vs x v E) as Hv.
  pose proof (weight_nonneg (power_of vs) (power_of_nonneg vs) signers) as Hw.
  rewrite AddVotingPower_spec by done. case_bool_decide as Hov; simpl; last first.
  { split; [done|]. unfold is_u64 in Hv. lia. }
  rewrite IH by (unfold is_u64 in *; lia). rewrite Hpx, NoDup_cons, <-app_assoc. simpl.
  setoid_rewrite not_elem_of_union. setoid_rewrite not_elem_of_singleton.
  split.
  - intros (Hnd & Hs & Hsub & -> & Hlt & ->). split_and!; try done; [|set_solver|set_solver|lia].
    intros Hin. by destruct (Hs x Hin).
  - intros ((Hnx & Hnd) & Hs & Hsub & -> & Hlt & ->).
    split_and!; try done; [|set_solver|lia].
    intros y Hy. split; [by intros ->|]. apply Hs. by right.
Qed.

(** The verifier implements the specification. *)
Lemma verifyQuorumCert_certified signatures strict cert height blockHash signBytes :
  unsaturated vs →
  verifyQuorumCert (mkVerifier vs signatures strict) None cert height blockHash signBytes = Ok tt ↔
  ∃ signers, certified vs signatures cert height blockHash signBytes signers.
Proof.
  intros Hu. unfold verifyQuorumCert. simpl. split.
  - intros H. result_inv H. destruct r3 as [power keys]. result_inv H.
    rewrite !bool_decide_eq_true in *.
    apply collect_signers_Ok in H4 as (Hnd & _ & Hsub & -> & _ & ->); [|done].
    rewrite Z.add_0_l in *. exists r2. split; try done.
    + intros Hnil. by rewrite Hnil in *.
    + apply orb_true_iff in H6. by rewrite !bool_decide_eq_true in H6.
    + destruct signatures as [verify|]; [|done]. by result_inv H.
  - intros [signers [Hh Hb Hs Hp Hnd Hsub Hq Hpow Hver]].
    rewrite (bool_decide_eq_true_2 _ Hh), (bool_decide_eq_true_2 _ Hb). simpl.
    rewrite (bool_decide_eq_true_2 (length (QC_Signature cert) ≠ 0%nat))
      by (intros Hl; by apply length_zero_iff_nil in Hl).
    simpl. rewrite Hp. simpl.
    assert (weight (power_of vs) signers < two64) as Hlt.
    { pose proof (weight_subset_total vs signers Hu Hnd Hsub). pose proof (total_u64 vs).
      unfold is_u64 in *. lia. }
    rewrite (proj2 (collect_signers_Ok signers ∅ 0 [] (weight (power_of vs) signers)
      (signer_keys vs signers) ltac:(done))) by (split_and!; auto; set_solver).
    simpl. unfold HasQuorum. rewrite Hq. simpl.
    assert (bool_decide (QC_VotingPower cert = 0) ||
      bool_decide (QC_VotingPower cert = weight (power_of vs) signers) = true) as ->.
    { apply orb_true_iff. by rewrite !bool_decide_eq_true. }
    simpl. destruct signatures; [|done]. by rewrite Hver.
Qed.
End verification.

Lemma VerifyFinalityProof_Ok verifier proof :
  VerifyFinalityProof verifier None proof = Ok tt ↔
    Proof_ValidatorSetHash proof = Set_Hash (verifier_validatorSet verifier) ∧
    Header_ValidatorSetHash (Proof_Header proof) = Set_Hash (verifier_validatorSet verifier) ∧
    Proof_ValidatorSetHeight proof ≠ 0 ∧
    Proof_ValidatorSetHeight proof ≤ Header_Height (Proof_Header proof) ∧
    verifyQuorumCert verifier None (Proof_QuorumCert proof) (Header_Height (Proof_Header proof))
      (hash_or (Proof_BlockHash proof) (Proof_HeaderHash proof)) (Proof_SignBytes proof) = Ok tt ∧
    verifyCommitChain verifier None proof = Ok tt.
Proof.
  unfold VerifyFinalityProof. split.
  - intros H. simpl in H. result_inv H. destruct r, r0, r1.
    apply andb_true_iff in H0, H1. rewrite !bool_decide_eq_true in *. tauto.
  - intros (H1 & H2 & H3 & H4 & H5 & H6). simpl.
    by rewrite !bool_decide_eq_true_2, H5, H6.
Qed.

(** The wrapped verifier of [newVerifier]: signatures are checked over the vote
    domain's message. *)
Lemma newVerifier_signatures vs signatures strict :
  newVerifier vs signatures strict =
    mkVerifier vs ((λ f, DomainAggregateVerifier_VerifyAggregate f DomainConsensusVote)
                     <$> signatures) strict.
Proof. by destruct signatures. Qed.

Section accountability.
Context (vs : ValidatorSet) `{!LawfulSet vs} (Hunsat : unsaturated vs).

Lemma overlap_loop_Ok second first seen acc p :
  NoDup first → (∀ x, x ∈ first → x ∉ seen) → first ⊆ set_ids vs → is_u64 p →
  p + weight (power_of vs) (filter (.∈ second) first) < two64 →
  overlap_loop vs (list_to_set second) first seen acc p =
    Ok (acc ++ filter (.∈ second) first, p + weight (power_of vs) (filter (.∈ second) first)).
Proof.
  intros Hnd. revert seen acc p. induction Hnd as [|x first Hx Hnd IH];
    intros seen acc p Hs Hsub Hp Hlt.
  { simpl. rewrite filter_nil, app_nil_r. by rewrite weight_nil, Z.add_0_r. }
  simpl. rewrite bool_decide_eq_false_2 by (apply Hs; by left).
  assert (∀ y, y ∈ first → y ∉ ({[x]} ∪ seen : gset ValidatorID)) as Hs'.
  { intros y Hy. rewrite not_elem_of_union, not_elem_of_singleton.
    split; [by intros ->|apply Hs; by right]. }
  rewrite filter_cons in *. destruct (decide (x ∈ second)) as [Hin|Hnin].
  - rewrite bool_decide_eq_false_2 by (rewrite elem_of_list_to_set; tauto).
    destruct (proj1 (elem_of_set_ids vs x)) as [v Hv]; [apply Hsub; by left|]. rewrite Hv.
    assert (power_of vs x = Validator_VotingPower v) as Hpx by (unfold power_of; by rewrite Hv).
    rewrite weight_cons, Hpx in *. pose proof (Set_Get_u64 vs x v Hv) as Hu.
    pose proof (weight_nonneg (power_of vs) (power_of_nonneg vs) (filter (.∈ second) first)).
    rewrite AddVotingPower_spec, bool_decide_eq_true_2 by (done || lia). simpl.
    rewrite IH; [|done|set_solver|unfold is_u64 in *; lia|lia].
    by rewrite <-app_assoc, Z.add_assoc.
  - rewrite bool_decide_eq_true_2 by (rewrite elem_of_list_to_set; tauto).
    apply IH; [done|set_solver|done|done].
Qed.

Lemma overlappingVotingPower_Ok first second :
  NoDup first → first ⊆ set_ids vs →
  overlappingVotingPower vs first second =
    Ok (sort_by id String.le (filter (.∈ second) first),
        weight (power_of vs) (filter (.∈ second) first)).
Proof using Hunsat LawfulSet0.
  intros Hnd Hsub. unfold overlappingVotingPower.
  pose proof (weight_subset_total vs (filter (.∈ second) first) Hunsat
    (NoDup_filter _ _ Hnd)) as Hw.
  pose proof (total_u64 vs) as Ht. unfold is_u64 in Ht.
  rewrite overlap_loop_Ok; [by rewrite Z.add_0_l|done|set_solver|done|done|].
  rewrite Z.add_0_l. eapply Z.le_lt_trans; [apply Hw|apply Ht].
  intros x [_ Hx]%list_elem_of_filter. by apply Hsub.
Qed.

Lemma faultPowerThreshold_ceil total :
  is_u64 total → 0 < total → ∀ power,
  faultPowerThreshold total ≤ power ↔ total ≤ 3 * power.
Proof.
  intros [_ Hu] Ht power. unfold faultPowerThreshold. rewrite bool_decide_eq_false_2 by lia.
  pose proof (Z.div_mod total 3 ltac:(lia)). pose proof (Z.mod_pos_bound total 3 ltac:(lia)).
  rewrite wrap64_small by (unfold is_u64; unfold two64 in *; lia).
  case_bool_decide; lia.
Qed.

Lemma faultPowerThreshold_pos total :
  is_u64 total → 0 < total → 0 < faultPowerThreshold total.
Proof.
  intros Hu Ht. destruct (decide (faultPowerThreshold total ≤ 0)) as [Hle|]; [|lia].
  apply faultPowerThreshold_ceil in Hle; [lia|done..].
Qed.

(** A verified proof's certificate is for its block hash, and its signatures
    are over the vote for that hash. *)
Lemma verified_certificate signatures strict proof :
  VerifyFinalityProof (newVerifier vs signatures strict) None proof = Ok tt →
  ∃ signers,
    certified vs ((λ f, DomainAggregateVerifier_VerifyAggregate f DomainConsensusVote)
                    <$> signatures)
      (Proof_QuorumCert proof) (Header_Height (Proof_Header proof)) (proofBlockHash proof)
      (signbytes_Vote (Header_Height (Proof_Header proof)) (QC_Round (Proof_QuorumCert proof))
         (proofBlockHash proof)) signers.
Proof using Hunsat LawfulSet0.
  rewrite newVerifier_signatures. intros (_ & _ & _ & _ & Hq & _)%VerifyFinalityProof_Ok.
  simpl in Hq. apply verifyQuorumCert_certified in Hq as [signers Hc]; [|done..].
  exists signers. pose proof (certified_hash _ _ _ _ _ _ _ Hc) as Hh.
  pose proof (certified_height _ _ _ _ _ _ _ Hc) as Hheight.
  assert (proofBlockHash proof = hash_or (Proof_BlockHash proof) (Proof_HeaderHash proof)) as Hb.
  { unfold proofBlockHash. unfold hash_or in *. repeat case_bool_decide; try done; tauto. }
  assert (Proof_SignBytes proof = signbytes_Vote (Header_Height (Proof_Header proof))
    (QC_Round (Proof_QuorumCert proof)) (proofBlockHash proof)) as Hs.
  { unfold Proof_SignBytes. rewrite Hheight, Hb. f_equal.
    unfold hash_or in *. repeat case_bool_decide; congruence. }
  by rewrite <-Hs, Hb.
Qed.
End accountability.

(** ** Accountable safety *)

Section accountable_safety.
Context (vs : ValidatorSet) `{!LawfulSet vs} (Hunsat : unsaturated vs).
Context (signatures : option AggregateVerifier) (strict : bool).

(** Two verified proofs that conflict. *)
Record conflicting (p1 p2 : FinalityProof) : Prop := {
  conflicting_first : VerifyFinalityProof (newVerifier vs signatures strict) None p1 = Ok tt;
  conflicting_second : VerifyFinalityProof (newVerifier vs signatures strict) None p2 = Ok tt;
  conflicting_height : Header_Height (Proof_Header p1) = Header_Height (Proof_Header p2);
  conflicting_set : Proof_ValidatorSetHeight p1 = Proof_ValidatorSetHeight p2;
  conflicting_hash : proofBlockHash p1 ≠ proofBlockHash p2
}.

(** What the detector reports of two conflicting proofs. *)
Record accountable (p1 p2 : FinalityProof) (v : AccountableSafetyViolation) : Prop := {
  accountable_hashes :
    Violation_FirstBlockHash v = proofBlockHash p1 ∧
    Violation_SecondBlockHash v = proofBlockHash p2;
  accountable_threshold : MeetsFaultThreshold v = true;
  accountable_third :
    Violation_TotalVotingPower v = Set_TotalVotingPower vs ∧
    Violation_TotalVotingPower v ≤ 3 * weight (power_of vs) (Violation_DoubleSigners v);
  accountable_double id :
    id ∈ Violation_DoubleSigners v ↔
      id ∈ Violation_FirstSigners v ∧ id ∈ Violation_SecondSigners v;
  accountable_signers :
    ∃ l1 l2, ParseSigners (QC_Signers (Proof_QuorumCert p1)) = Ok l1 ∧
      ParseSigners (QC_Signers (Proof_QuorumCert p2)) = Ok l2 ∧
      Violation_FirstSigners v ≡ₚ l1 ∧ Violation_SecondSigners v ≡ₚ l2
}.

Lemma detect_conflict ctx_sets p1 p2 :
  ctx_sets None (Proof_ValidatorSetHeight p1) = Ok (Some vs) →
  conflicting p1 p2 →
  ∃ v, DetectAccountableSafetyViolationWithContext None (Some ctx_sets) p1 p2 = Ok v ∧
    accountable p1 p2 v.
Proof using Hunsat LawfulSet0.
  intros Hsets [H1 H2 Hh Hv Hne].
  pose proof (verified_certificate vs Hunsat _ _ _ H1) as [l1 Hc1].
  pose proof (verified_certificate vs Hunsat _ _ _ H2) as [l2 Hc2].
  apply VerifyFinalityProof_Ok in H1 as (Ha1 & Hb1 & Hz1 & _).
  apply VerifyFinalityProof_Ok in H2 as (Ha2 & Hb2 & Hz2 & _).
  rewrite newVerifier_signatures in *. simpl in *.
  destruct Hc1 as [_ _ _ Hp1 Hnd1 Hsub1 Hq1 _ _]. destruct Hc2 as [_ _ _ Hp2 Hnd2 Hsub2 Hq2 _ _].
  pose proof (quorum_overlap vs l1 l2 Hunsat Hnd1 Hnd2 Hsub1 Hsub2 Hq1 Hq2) as [Ht Hov].
  unfold DetectAccountableSafetyViolationWithContext. simpl.
  rewrite !bool_decide_eq_true_2 by congruence. simpl.
  rewrite Hsets. simpl. rewrite bool_decide_eq_true_2 by done. simpl.
  rewrite Hp1, Hp2. simpl. rewrite overlappingVotingPower_Ok by done. simpl.
  eexists. split; [done|]. split; simpl.
  - done.
  - unfold MeetsFaultThreshold. simpl. pose proof (total_u64 vs) as Hu.
    rewrite !bool_decide_eq_true_2; [done|by apply faultPowerThreshold_pos|].
    by apply faultPowerThreshold_ceil.
  - split; [done|]. by rewrite sort_by_perm.
  - intros id. unfold sortedSigners. rewrite !elem_of_sort_by, list_elem_of_filter. tauto.
  - exists l1, l2. unfold sortedSigners. by rewrite !sort_by_perm.
Qed.
End accountable_safety.


(** ** The detector over a history of observations *)

(** The proofs a detector retains were verified by its verifier and are stored
    at their own height. *)
Definition detector_wf (d : AttackDetector) : Prop :=
  map_Forall (λ h p, Header_Height (Proof_Header p) = h ∧
    ∃ verify, detector_verifier d = Some verify ∧ verify None p = Ok tt) (detector_proofs d).

Inductive detector_step : relation AttackDetector :=
| step_Observe d ctx p : detector_step d (Observe d ctx p).1.

Lemma Observe_fields d ctx p :
  detector_verifier (Observe d ctx p).1 = detector_verifier d ∧
  detector_sets (Observe d ctx p).1 = detector_sets d.
Proof.
  unfold Observe. destruct ctx; [done|].
  destruct (detector_verifier d) as [verify|] eqn:Ev; [|by simpl; rewrite Ev].
  destruct (detector_sets d) as [sets|] eqn:Es; [|by simpl; rewrite Ev, Es].
  destruct (verify None p); [|by simpl; rewrite Ev, Es].
  destruct (detector_proofs d !! _); [by simpl; rewrite Ev, Es|done].
Qed.

Lemma Observe_wf d ctx p : detector_wf d → detector_wf (Observe d ctx p).1.
Proof.
  intros Hwf. unfold Observe. destruct ctx; [done|].
  destruct (detector_verifier d) as [verify|] eqn:Ev; [|done].
  destruct (detector_sets d) as [sets|] eqn:Es; [|done].
  destruct (verify None p) as [[]|] eqn:E; [|done].
  destruct (detector_proofs d !! _) eqn:El; [done|].
  unfold detector_wf in *. simpl. rewrite Ev in Hwf. apply map_Forall_insert_2; eauto.
Qed.

(** A retained proof stays. *)
Lemma Observe_retains d ctx p h q :
  detector_proofs d !! h = Some q → detector_proofs (Observe d ctx p).1 !! h = Some q.
Proof.
  intros Hq. unfold Observe. destruct ctx; [done|].
  destruct (detector_verifier d) as [verify|]; [|done]. destruct (detector_sets d); [|done].
  destruct (verify None p); [|done].
  destruct (detector_proofs d !! Header_Height (Proof_Header p)) eqn:El; [done|].
  simpl. rewrite lookup_insert_ne; congruence.
Qed.

Lemma detector_steps d d' :
  rtc detector_step d d' → detector_wf d →
  detector_wf d' ∧ detector_verifier d' = detector_verifier d ∧
  detector_sets d' = detector_sets d ∧
  ∀ h q, detector_proofs d !! h = Some q → detector_proofs d' !! h = Some q.
Proof.
  induction 1 as [d|d1 d2 d3 Hstep _ IH]; [done|]. intros Hwf. destruct Hstep as [d ctx p].
  destruct (IH (Observe_wf _ _ _ Hwf)) as (Hwf' & Hv & Hs & Hr).
  destruct (Observe_fields d ctx p) as [Hv' Hs'].
  split_and!; [done|congruence..|]. intros h q Hq. by apply Hr, Observe_retains.
Qed.

(** The attack detector catches every later conflict and raises no false
    alarm.  After the first verified proof [p1] of a height has been observed,
    and whatever else is observed in between, a verified proof [p2] of that
    height and validator-set height is reported with an accountable violation
    against [p1] when its block hash differs, and passes silently otherwise. *)
Theorem detector_catches vs signatures d d1 d2 p1 p2 :
  LawfulSet vs → unsaturated vs →
  rtc detector_step (NewAttackDetector vs signatures) d →
  detector_proofs d !! Header_Height (Proof_Header p1) = None →
  Observe d None p1 = (d1, Ok None) →
  rtc detector_step d1 d2 →
  VerifyFinalityProof (NewVerifier vs signatures) None p2 = Ok tt →
  Header_Height (Proof_Header p1) = Header_Height (Proof_Header p2) →
  Proof_ValidatorSetHeight p1 = Proof_ValidatorSetHeight p2 →
  if decide (proofBlockHash p1 = proofBlockHash p2)
  then Observe d2 None p2 = (d2, Ok None)
  else ∃ v, Observe d2 None p2 = (d2, Ok (Some v)) ∧ accountable vs p1 p2 v.
Proof.
  intros Hl Hu Hd Hnone Ho Hd2 Hv2 Hh Hs.
  apply detector_steps in Hd as (Hwf & Hv & Hsets & _); [|by apply map_Forall_empty].
  simpl in Hv, Hsets. pose proof (Observe_wf d None p1 Hwf) as Hwf1.
  destruct (Observe_fields d None p1) as [Hf1 Hf2]. rewrite Ho, ?Hv, ?Hsets in *. simpl in *.
  assert (VerifyFinalityProof (NewVerifier vs signatures) None p1 = Ok tt ∧
    detector_proofs d1 !! Header_Height (Proof_Header p1) = Some p1) as [Hv1 Hp1].
  { revert Ho. unfold Observe. rewrite Hv, Hsets. cbn [detector_proofs].
    destruct (VerifyFinalityProof _ None p1) as [[]|]; [|done]. rewrite Hnone.
    intros [= <-]. split; [done|]. apply lookup_insert_eq. }
  apply detector_steps in Hd2 as (_ & Hv' & Hsets' & Hret); [|done].
  apply Hret in Hp1. rewrite Hf1 in Hv'. rewrite Hf2 in Hsets'.
  unfold Observe. rewrite Hv', Hsets', Hv2, <-Hh, Hp1.
  case_decide as Heq.
  - unfold DetectAccountableSafetyViolationWithContext. simpl.
    rewrite (bool_decide_eq_true_2 _ Hh). simpl.
    by rewrite (bool_decide_eq_false_2 (proofBlockHash p1 ≠ _)) by tauto.
  - destruct (detect_conflict vs Hu signatures false
      (staticValidatorSetProvider (Some vs)) p1 p2) as (v & -> & Hacc); [done|by split|].
    by exists v.
Qed.

(** ** Strict proofs *)

Lemma verify_links_cons verifier proof index prev hash link links :
  verify_links verifier None proof index prev hash (link :: links) = Ok tt →
  Link_BlockHash link = Link_HeaderHash link ∧
  Header_ChainID (Link_Header link) = Header_ChainID (Proof_Header proof) ∧
  Header_Height (Link_Header link) = wrap64 (Header_Height prev + 1) ∧
  Header_PreviousBlockHash (Link_Header link) = hash ∧
  (index < 2 → verifyQuorumCert verifier None (Link_QuorumCert link) (Header_Height prev) hash
    (Link_SignBytes link) = Ok tt)%nat ∧
  QC_BlockHash (Link_QuorumCert link) = hash ∧
  verify_links verifier None proof (S index) (Link_Header link) (Link_BlockHash link) links = Ok tt.
Proof.
  intros H. simpl in H. result_inv H. rewrite !bool_decide_eq_true in *.
  split_and!; try done. intros Hi. rewrite bool_decide_eq_true_2 in * by done. by destruct r7.
Qed.

(** A strictly verified proof carries a certified three-chain.  The block
    and its child are each certified by a two-thirds quorum of the validator
    set over the vote for exactly that block hash, and child and grandchild
    are headers of the same chain at the next two heights, each naming its
    parent's hash. *)
Theorem strict_proof_three_chain vs signatures proof :
  LawfulSet vs → unsaturated vs →
  VerifyFinalityProof (NewStrictVerifier vs (Some signatures)) None proof = Ok tt →
  let verify := Some (DomainAggregateVerifier_VerifyAggregate signatures DomainConsensusVote) in
  let h := Header_Height (Proof_Header proof) in
  ∃ child grandchild rest s0 s1 s2,
    Proof_CommitChain proof = child :: grandchild :: rest ∧
    Header_Height (Link_Header child) = wrap64 (h + 1) ∧
    Header_Height (Link_Header grandchild) = wrap64 (wrap64 (h + 1) + 1) ∧
    Header_PreviousBlockHash (Link_Header child) = proofBlockHash proof ∧
    Header_PreviousBlockHash (Link_Header grandchild) = finality_hashHeader (Link_Header child) ∧
    Header_ChainID (Link_Header child) = Header_ChainID (Proof_Header proof) ∧
    Header_ChainID (Link_Header grandchild) = Header_ChainID (Proof_Header proof) ∧
    certified vs verify (Proof_QuorumCert proof) h (proofBlockHash proof)
      (signbytes_Vote h (QC_Round (Proof_QuorumCert proof)) (proofBlockHash proof)) s0 ∧
    certified vs verify (Link_QuorumCert child) h (proofBlockHash proof)
      (Link_SignBytes child) s1 ∧
    certified vs verify (Link_QuorumCert grandchild) (wrap64 (h + 1))
      (finality_hashHeader (Link_Header child)) (Link_SignBytes grandchild) s2.
Proof.
  intros Hl Hu Hv verify h. unfold NewStrictVerifier in Hv.
  destruct (verified_certificate vs Hu _ _ _ Hv) as [s0 Hc0].
  assert (proofBlockHash proof = hash_or (Proof_BlockHash proof) (Proof_HeaderHash proof)) as Hb.
  { pose proof (certified_hash _ _ _ _ _ _ _ Hc0) as Hh0.
    apply VerifyFinalityProof_Ok in Hv as (_ & _ & _ & _ & Hq & _).
    rewrite newVerifier_signatures in Hq. simpl in Hq.
    apply verifyQuorumCert_certified in Hq as [? Hq]; [|done..].
    pose proof (certified_hash _ _ _ _ _ _ _ Hq). congruence. }
  apply VerifyFinalityProof_Ok in Hv as (_ & _ & _ & _ & _ & Hc).
  rewrite newVerifier_signatures in Hc.
  unfold verifyCommitChain in Hc. simpl in Hc. rewrite <-Hb in Hc.
  destruct (Proof_CommitChain proof) as [|child [|grandchild rest]] eqn:Echain; [done| |].
  { unfold HasThreeChainCommitProof in Hc. by rewrite Echain in Hc. }
  unfold HasThreeChainCommitProof in Hc. rewrite Echain in Hc.
  rewrite (bool_decide_eq_true_2 (2 ≤ length _)%nat) in Hc by (simpl; lia).
  rewrite bool_decide_eq_false_2 in Hc by done. cbn [negb] in Hc.
  apply verify_links_cons in Hc as (Hh1 & Hid1 & Hht1 & Hp1 & Hq1 & _ & Hc).
  apply verify_links_cons in Hc as (Hh2 & Hid2 & Hht2 & Hp2 & Hq2 & _ & _).
  specialize (Hq1 ltac:(lia)). specialize (Hq2 ltac:(lia)).
  apply verifyQuorumCert_certified in Hq1 as [s1 Hc1]; [|done..].
  apply verifyQuorumCert_certified in Hq2 as [s2 Hc2]; [|done..].
  rewrite Hht1 in *. rewrite Hh1 in *.
  by exists child, grandchild, rest, s0, s1, s2.
Qed.

(** ** The header of a proof *)

Definition with_header (proof : FinalityProof) (header : Header) : FinalityProof :=
  mkFinalityProof header (Proof_BlockHash proof) (Proof_QuorumCert proof)
    (Proof_CommitChain proof) (Proof_ValidatorSetHeight proof) (Proof_ValidatorSetHash proof).

(** The header fields verification looks at when the block hash is given. *)
Definition header_agree (h1 h2 : Header) : Prop :=
  Header_ChainID h1 = Header_ChainID h2 ∧ Header_Height h1 = Header_Height h2 ∧
  Header_ValidatorSetHash h1 = Header_ValidatorSetHash h2.

Lemma verify_links_header verifier ctx proof header index prev prev' hash links :
  header_agree (Proof_Header proof) header → Header_Height prev = Header_Height prev' →
  verify_links verifier ctx (with_header proof header) index prev' hash links =
  verify_links verifier ctx proof index prev hash links.
Proof.
  intros (Hc & Hh & Hv). revert index prev prev' hash.
  induction links as [|link links IH]; intros index prev prev' hash Hp; simpl; [done|].
  rewrite <-Hc, <-Hv, <-Hp. rewrite (IH _ (Link_Header link) (Link_Header link)) by done. done.
Qed.


(** ** Concrete proofs *)

Module FinalityExample.
Definition val (id : string) (key : byte) : Validator := mkValidator id id [key] 1 1 ∅.
Definition set : ValidatorSet :=
  snapshot_Set (newSetSnapshot [val "v1" x01; val "v2" x02; val "v3" x03; val "v4" x04]).

(** A transparent aggregate scheme: the signature lists the keys and the message. *)
Definition aggregate (keys : list PublicKey) (message : bytes) : AggregateSignature :=
  concat keys ++ message.
Definition verify : AggregateVerifier := λ keys message signature,
  bool_decide (signature = aggregate keys message).

Definition sign (height round : Z) (hash : Hash) (signers : list ValidatorID) : QuorumCert :=
  mkQuorumCert height round hash (EncodeSigners signers)
    match DomainMessage DomainConsensusVote (signbytes_Vote height round hash) with
    | Ok m => aggregate (signer_keys set signers) m
    | Err _ => []
    end 3.

Definition header (height : Z) (parent app : Hash) : Header :=
  mkHeader "vexo" height 0 parent app (Set_Hash set) zero_hash zero_hash.

Definition root (app : byte) : Header := header 5 zero_hash (sha256 [app]).
Definition proof (app : byte) (signers : list ValidatorID) : FinalityProof :=
  NewProof (root app) (sign 5 0 (finality_hashHeader (root app)) signers).

Definition child : Header := header 6 (finality_hashHeader (root x01)) zero_hash.
Definition grandchild : Header := header 7 (finality_hashHeader child) zero_hash.
Definition strict_proof : FinalityProof :=
  let signers := ["v1"; "v2"; "v4"] in
  let p := proof x01 signers in
  mkFinalityProof (Proof_Header p) (Proof_BlockHash p) (Proof_QuorumCert p)
    [mkCommitLink child (finality_hashHeader child) (Proof_QuorumCert p);
     mkCommitLink grandchild (finality_hashHeader grandchild)
       (sign 6 1 (finality_hashHeader child) signers)]
    5 (Set_Hash set).

Lemma set_lawful : LawfulSet set.
Proof. apply newSetSnapshot_lawful; [by vm_compute; repeat constructor; set_solver|by repeat constructor]. Qed.

Lemma set_unsaturated : unsaturated set.
Proof. by vm_compute. Qed.

Definition p1 := proof x01 ["v1"; "v2"; "v3"].
Definition p2 := proof x02 ["v2"; "v3"; "v4"].

Lemma p1_p2_conflict : conflicting set (Some verify) false p1 p2.
Proof. split; by vm_compute. Qed.
End FinalityExample.
Import FinalityExample.


Definition observed := (Observe (NewAttackDetector set (Some verify)) None p1).1.

Lemma detector_catches_witness :
  ∃ v, Observe observed None p2 = (observed, Ok (Some v)) ∧ accountable set p1 p2 v.
Proof.
  assert (Observe (NewAttackDetector set (Some verify)) None p1 = (observed, Ok None)) as Ho.
  { apply injective_projections; [reflexivity|by vm_compute]. }
  pose proof (detector_catches set (Some verify) (NewAttackDetector set (Some verify))
    observed observed p1 p2 set_lawful set_unsaturated (rtc_refl _ _)) as H.
  rewrite decide_False in H by (apply p1_p2_conflict).
  apply H; [by vm_compute|exact Ho|apply rtc_refl|by vm_compute..].
Defined.

Lemma strict_proof_three_chain_witness :
  ∃ link, link ∈ Proof_CommitChain strict_proof ∧
    Header_PreviousBlockHash (Link_Header link) = proofBlockHash strict_proof.
Proof.
  destruct (strict_proof_three_chain set verify strict_proof set_lawful set_unsaturated)
    as (c & g & rest & s0 & s1 & s2 & Hc & _ & _ & Hp & _); [by vm_compute|].
  exists c. split; [rewrite Hc; by left|done].
Defined.

