(* ===== verification/BlockTree.v ===== *)
(** * Block tree, commit rule and commit index ([src/consensus/block_tree.go],
    [commit_rule.go], [internal/safety/commit_index.go])

    The tree is a map from block hashes to nodes.  [Extends] follows parent
    hashes; it is a loop without a bound in the source, run here with fuel, and
    [Extends_correct] and [Extends_terminates] say when the loop ends and what
    it answers. *)

From S2P Require Import Prelude GoLib Sha256 Types Validator SignBytes.

Definition ErrBlockNotFound := ErrNew "consensus.ErrBlockNotFound".
Definition ErrInvalidBlockCert := ErrNew "consensus.ErrInvalidBlockCert".
Definition ErrCommitRuleNotSatisfied := ErrNew "consensus.ErrCommitRuleNotSatisfied".
Definition ErrConflictingCommit := ErrNew "safety.ErrConflictingCommit".

Record BlockNode := mkBlockNode {
  Node_Block : Block;
  Node_Hash : Hash;
  Node_ParentHash : Hash;
  Node_JustifyQC : QuorumCert;
  Node_QuorumCert : QuorumCert
}.

Record BlockTree := mkBlockTree {
  tree_blocks : gmap Hash BlockNode;
  tree_highQC : QuorumCert
}.

Definition NewBlockTree : BlockTree := mkBlockTree ∅ zero_QC.

Definition isBetterQC (candidate current : QuorumCert) : bool :=
  if bool_decide (QC_Height candidate ≠ QC_Height current)
  then bool_decide (QC_Height current < QC_Height candidate)
  else bool_decide (QC_Round current < QC_Round candidate).

Definition ObserveQuorumCert (tree : BlockTree) (qc : QuorumCert) : BlockTree :=
  if bool_decide (QC_Height qc = 0) || bool_decide (QC_BlockHash qc = zero_hash) then tree
  else if isBetterQC qc (tree_highQC tree) then mkBlockTree (tree_blocks tree) qc
  else tree.

Definition Tree_Get (tree : BlockTree) (blockHash : Hash) : option BlockNode :=
  tree_blocks tree !! blockHash.

(** The node [Insert] stores: a known block keeps its certificate. *)
Definition insert_node (tree : BlockTree) (block : Block) (blockHash : Hash)
    (justifyQC : QuorumCert) : BlockNode :=
  mkBlockNode block blockHash (Header_PreviousBlockHash (Block_Header block)) justifyQC
    match tree_blocks tree !! blockHash with
    | Some previous => Node_QuorumCert previous
    | None => zero_QC
    end.

Definition Tree_Insert (tree : BlockTree) (block : Block) (blockHash : Hash)
    (justifyQC : QuorumCert) : BlockTree :=
  ObserveQuorumCert
    (mkBlockTree (<[blockHash := insert_node tree block blockHash justifyQC]> (tree_blocks tree))
       (tree_highQC tree)) justifyQC.

Definition set_node_QC (node : BlockNode) (qc : QuorumCert) : BlockNode :=
  mkBlockNode (Node_Block node) (Node_Hash node) (Node_ParentHash node) (Node_JustifyQC node) qc.

Definition Tree_SetQuorumCert (tree : BlockTree) (qc : QuorumCert) : result BlockTree :=
  if bool_decide (QC_Height qc = 0) || bool_decide (QC_BlockHash qc = zero_hash)
  then Err ErrInvalidBlockCert
  else match Tree_Get tree (QC_BlockHash qc) with
  | None => Err ErrBlockNotFound
  | Some node =>
      if bool_decide (Header_Height (Block_Header (Node_Block node)) ≠ QC_Height qc)
      then Err ErrInvalidBlockCert
      else Ok (ObserveQuorumCert
        (mkBlockTree (<[QC_BlockHash qc := set_node_QC node qc]> (tree_blocks tree))
           (tree_highQC tree)) qc)
  end.

(** The loop of [Extends] for at most [fuel] iterations; [None] when it is
    still running. *)
Fixpoint extends_loop (fuel : nat) (tree : BlockTree) (current ancestor : Hash) : option bool :=
  match fuel with
  | O => None
  | S fuel =>
      if bool_decide (current = zero_hash) then Some false
      else if bool_decide (current = ancestor) then Some true
      else match Tree_Get tree current with
           | None => Some false
           | Some node => extends_loop fuel tree (Node_ParentHash node) ancestor
           end
  end.

(** [Extends]; [None] when the source's loop does not end.  A loop that visits
    more hashes than the tree has nodes is in a cycle. *)
Definition Extends (tree : BlockTree) (descendant ancestor : Hash) : option bool :=
  if bool_decide (descendant = zero_hash) || bool_decide (ancestor = zero_hash)
  then Some false
  else extends_loop (S (S (size (tree_blocks tree)))) tree descendant ancestor.

(** ** The three-chain commit rule *)

Record CommitCandidate := mkCommitCandidate {
  Cand_BlockHeight : Height;
  Cand_BlockHash : Hash;
  Cand_ParentHeight : Height;
  Cand_ParentHash : Hash;
  Cand_GrandparentHeight : Height;
  Cand_GrandparentHash : Hash;
  Cand_BlockQC : QuorumCert;
  Cand_ParentQC : QuorumCert
}.

Record CommitDecision := mkCommitDecision {
  Decision_CommittedHeight : Height;
  Decision_CommittedBlockHash : Hash;
  Decision_CommitQC : QuorumCert
}.

(** [BlockTree.CommitCandidate] *)
Definition Tree_CommitCandidate (tree : BlockTree) (blockHash : Hash) : option CommitCandidate :=
  node ← Tree_Get tree blockHash;
  if bool_decide (QC_Height (Node_JustifyQC node) = 0) then None
  else
    parent ← Tree_Get tree (QC_BlockHash (Node_JustifyQC node));
    if bool_decide (QC_Height (Node_JustifyQC parent) = 0) then None
    else Some (mkCommitCandidate
      (Header_Height (Block_Header (Node_Block node))) (Node_Hash node)
      (Header_Height (Block_Header (Node_Block parent))) (Node_Hash parent)
      (QC_Height (Node_JustifyQC parent)) (QC_BlockHash (Node_JustifyQC parent))
      (Node_JustifyQC node) (Node_JustifyQC parent)).

(** [ThreeChainCommitRule.Decide] *)
Definition Decide (candidate : CommitCandidate) : result CommitDecision :=
  check ErrCommitRuleNotSatisfied
    (negb (bool_decide (Cand_BlockHash candidate = zero_hash) ||
           bool_decide (Cand_ParentHash candidate = zero_hash) ||
           bool_decide (Cand_GrandparentHash candidate = zero_hash))) ≫= λ _,
  check ErrCommitRuleNotSatisfied
    (bool_decide (QC_BlockHash (Cand_BlockQC candidate) = Cand_ParentHash candidate)) ≫= λ _,
  check ErrCommitRuleNotSatisfied
    (bool_decide (QC_BlockHash (Cand_ParentQC candidate) = Cand_GrandparentHash candidate))
    ≫= λ _,
  check ErrCommitRuleNotSatisfied
    (negb (bool_decide (Cand_BlockHeight candidate = 0) ||
           bool_decide (Cand_ParentHeight candidate = 0) ||
           bool_decide (Cand_GrandparentHeight candidate = 0) ||
           bool_decide (QC_Height (Cand_BlockQC candidate) = 0) ||
           bool_decide (QC_Height (Cand_ParentQC candidate) = 0))) ≫= λ _,
  check ErrCommitRuleNotSatisfied
    (bool_decide (Cand_BlockHeight candidate = wrap64 (Cand_ParentHeight candidate + 1)) &&
     bool_decide (Cand_ParentHeight candidate = wrap64 (Cand_GrandparentHeight candidate + 1)) &&
     bool_decide (QC_Height (Cand_BlockQC candidate) = Cand_ParentHeight candidate) &&
     bool_decide (QC_Height (Cand_ParentQC candidate) = Cand_GrandparentHeight candidate))
    ≫= λ _,
  Ok (mkCommitDecision (Cand_GrandparentHeight candidate) (Cand_GrandparentHash candidate)
        (Cand_ParentQC candidate)).

(** ** The commit index *)

(** [safety.CommitIndex]; [Record] *)
Abbreviation CommitIndex := (gmap Height Hash).

Definition CommitIndex_Record (index : CommitIndex) (height : Height) (blockHash : Hash)
    : result CommitIndex :=
  match index !! height with
  | Some existing =>
      if bool_decide (existing ≠ blockHash) then Err ErrConflictingCommit
      else Ok (<[height := blockHash]> index)
  | None => Ok (<[height := blockHash]> index)
  end.

(** ** [Extends] is ancestry *)

(** The parent link of a known block. *)
Definition parent_link (tree : BlockTree) (child parent : Hash) : Prop :=
  child ≠ zero_hash ∧ ∃ node, Tree_Get tree child = Some node ∧ Node_ParentHash node = parent.

(** [ancestor] is reached from [descendant] by parent links. *)
Definition is_ancestor (tree : BlockTree) (descendant ancestor : Hash) : Prop :=
  rtc (parent_link tree) descendant ancestor.

(** The loop ends after exactly [n] iterations with answer [b]. *)
Inductive stops (tree : BlockTree) (ancestor : Hash) : Hash → nat → bool → Prop :=
| stops_zero : stops tree ancestor zero_hash 1 false
| stops_found current :
    current ≠ zero_hash → current = ancestor → stops tree ancestor current 1 true
| stops_unknown current :
    current ≠ zero_hash → current ≠ ancestor → Tree_Get tree current = None →
    stops tree ancestor current 1 false
| stops_parent current node n b :
    current ≠ zero_hash → current ≠ ancestor → Tree_Get tree current = Some node →
    stops tree ancestor (Node_ParentHash node) n b → stops tree ancestor current (S n) b.

Section extends.
Context (tree : BlockTree) (ancestor : Hash).

Lemma extends_loop_stops fuel current b :
  extends_loop fuel tree current ancestor = Some b ↔
    ∃ n, (n ≤ fuel)%nat ∧ stops tree ancestor current n b.
Proof.
  split.
  - revert current. induction fuel as [|fuel IH]; intros current; simpl; [done|].
    case_bool_decide as Hz. { intros [= <-]. subst. exists 1%nat. split; [lia|constructor]. }
    case_bool_decide as Ha. { intros [= <-]. exists 1%nat. split; [lia|by constructor]. }
    destruct (Tree_Get tree current) as [node|] eqn:E.
    + intros (n & Hn & Hs)%IH. exists (S n). split; [lia|by eapply stops_parent].
    + intros [= <-]. exists 1%nat. split; [lia|by constructor].
  - intros (n & Hn & Hs). revert fuel Hn. induction Hs; intros [|fuel] Hn; simpl; try lia;
      repeat case_bool_decide; try done.
    + by destruct (Tree_Get tree current).
    + destruct (Tree_Get tree current); [|done]. simplify_eq. apply IHHs. lia.
Qed.

Lemma stops_det current n b n' b' :
  stops tree ancestor current n b → stops tree ancestor current n' b' → n = n' ∧ b = b'.
Proof.
  intros Hs. revert n' b'. induction Hs as [|c ? ->|c|c node n b ??? Hs IH];
    intros n' b' Hs'; inversion Hs'; simplify_eq; try done.
  match goal with H : stops _ _ _ _ _ |- _ => apply IH in H as [-> ->]; done end.
Qed.

(** The hashes a terminating loop looks up are distinct and known. *)
Lemma stops_trace current n b :
  stops tree ancestor current n b →
  ∃ l, length l = (n - 1)%nat ∧ NoDup l ∧
    Forall (λ h, h ∈ dom (tree_blocks tree) ∧ ∃ k b, (k ≤ n)%nat ∧ stops tree ancestor h k b) l.
Proof.
  induction 1 as [|c|c|c node n b Hz Ha Hg Hs (l & Hl & Hnd & Hf)];
    [by exists []; repeat constructor..|].
  exists (c :: l). split_and!.
  - simpl. rewrite Hl. assert (1 ≤ n)%nat by (inversion Hs; lia). lia.
  - constructor; [|done]. intros Hin. rewrite Forall_forall in Hf.
    destruct (Hf c Hin) as [_ (k & b' & Hk & Hsk)].
    assert (stops tree ancestor c (S n) b) as Hsc by (by eapply stops_parent).
    destruct (stops_det _ _ _ _ _ Hsc Hsk). lia.
  - apply Forall_cons. split.
    + split; [apply elem_of_dom; by exists node|]. exists (S n), b.
      split; [lia|by eapply stops_parent].
    + eapply Forall_impl; [exact Hf|]. intros h (Hd & k & b' & Hk & Hsk).
      split; [done|]. exists k, b'. split; [lia|done].
Qed.

Lemma stops_bound current n b :
  stops tree ancestor current n b → (n ≤ S (size (tree_blocks tree)))%nat.
Proof.
  intros (l & Hl & Hnd & Hf)%stops_trace.
  assert (length l ≤ size (dom (tree_blocks tree)))%nat as Hle; [|rewrite size_dom in Hle; lia].
  rewrite <-(size_list_to_set (C := gset Hash) l Hnd). apply subseteq_size.
  intros h Hh%elem_of_list_to_set. rewrite Forall_forall in Hf. by apply Hf.
Qed.

(** The fuel of [Extends] is enough: it answers whenever the loop ends. *)
Lemma extends_loop_enough fuel current b :
  extends_loop fuel tree current ancestor = Some b →
  extends_loop (S (S (size (tree_blocks tree)))) tree current ancestor = Some b.
Proof.
  intros (n & _ & Hs)%extends_loop_stops. apply extends_loop_stops.
  exists n. split; [|done]. apply stops_bound in Hs. lia.
Qed.

Lemma stops_ancestor current n b :
  ancestor ≠ zero_hash → stops tree ancestor current n b →
  b = true ↔ is_ancestor tree current ancestor.
Proof.
  intros Ha. induction 1 as [|c ? ->|c Hz Hne Hg|c node n b Hz Hne Hg Hs IH].
  - split; [done|]. intros Hr. inversion Hr as [|? ? ? [Hl _]]; by simplify_eq.
  - split; [|done]. intros _. apply rtc_refl.
  - split; [done|]. intros Hr. inversion Hr as [|? ? ? [_ (node & Hn & _)]]; by simplify_eq.
  - rewrite IH. split.
    + intros Hr. eapply rtc_l; [|done]. split; [done|]. by exists node.
    + intros Hr. inversion Hr as [|? y ? [_ (node' & Hn & Hp)] Hr']; by simplify_eq.
Qed.
End extends.

Lemma Extends_spec tree descendant ancestor :
  match Extends tree descendant ancestor with
  | Some b =>
      b = true ↔ descendant ≠ zero_hash ∧ ancestor ≠ zero_hash ∧
                 is_ancestor tree descendant ancestor
  | None => ∀ fuel, extends_loop fuel tree descendant ancestor = None
  end.
Proof.
  unfold Extends. destruct (_ || _) eqn:Hz.
  { apply orb_true_iff in Hz. rewrite !bool_decide_eq_true in Hz. naive_solver. }
  apply orb_false_iff in Hz as [Hd Ha]. rewrite !bool_decide_eq_false in Hd, Ha.
  destruct (extends_loop _ _ _ _) as [b|] eqn:E.
  - apply extends_loop_stops in E as (n & _ & Hs).
    rewrite (stops_ancestor tree ancestor descendant n b Ha Hs). tauto.
  - intros fuel. destruct (extends_loop fuel tree descendant ancestor) as [b|] eqn:E'; [|done].
    apply extends_loop_enough in E'. congruence.
Qed.

(** C11: [Extends] decides ancestry.  When it answers, the answer is whether the
    ancestor is reached from the descendant by parent links of known blocks;
    when the model has no answer, the source's loop never ends. *)
Theorem Extends_correct tree descendant ancestor :
  match Extends tree descendant ancestor with
  | Some b =>
      b = true ↔ descendant ≠ zero_hash ∧ ancestor ≠ zero_hash ∧
                 is_ancestor tree descendant ancestor
  | None => ∀ fuel, extends_loop fuel tree descendant ancestor = None
  end.
Proof. apply Extends_spec. Qed.

(** Parent links go down in some rank: there is no cycle of parent hashes. *)
Definition acyclic (tree : BlockTree) : Prop :=
  ∃ rank : Hash → nat, ∀ h node, Tree_Get tree h = Some node →
    (rank (Node_ParentHash node) < rank h)%nat.

(** Without a cycle [Extends] always answers. *)
Lemma Extends_terminates tree descendant ancestor :
  acyclic tree → is_Some (Extends tree descendant ancestor).
Proof.
  intros [rank Hrank]. unfold Extends. destruct (_ || _); [done|].
  assert (∀ k current, (rank current < k)%nat → ∃ n b, stops tree ancestor current n b) as Hall.
  { induction k as [|k IH]; intros current Hk; [lia|].
    destruct (decide (current = zero_hash)) as [->|Hz]; [by eexists _, _; constructor|].
    destruct (decide (current = ancestor)) as [->|Ha]; [by eexists _, _; constructor|].
    destruct (Tree_Get tree current) as [node|] eqn:E; [|by eexists _, _; constructor].
    destruct (IH (Node_ParentHash node)) as (n & b & Hs).
    { apply Hrank in E. lia. }
    exists (S n), b. by eapply stops_parent. }
  destruct (Hall (S (rank descendant)) descendant ltac:(lia)) as (n & b & Hs).
  exists b. apply extends_loop_stops. exists n. split; [|done]. apply stops_bound in Hs. lia.
Qed.

(** ** The order of certificates *)

(** Lexicographic comparison of (height, round). *)
Definition qc_lt (q1 q2 : QuorumCert) : Prop :=
  QC_Height q1 < QC_Height q2 ∨ (QC_Height q1 = QC_Height q2 ∧ QC_Round q1 < QC_Round q2).
Definition qc_le (q1 q2 : QuorumCert) : Prop :=
  QC_Height q1 < QC_Height q2 ∨ (QC_Height q1 = QC_Height q2 ∧ QC_Round q1 ≤ QC_Round q2).

Lemma isBetterQC_iff candidate current : isBetterQC candidate current = true ↔ qc_lt current candidate.
Proof.
  unfold isBetterQC, qc_lt. case_bool_decide; rewrite bool_decide_eq_true; lia.
Qed.

#[global] Instance qc_le_preorder : PreOrder qc_le.
Proof. split; [intros q; right; lia|]. intros q1 q2 q3. unfold qc_le. lia. Qed.

Lemma ObserveQuorumCert_blocks tree qc : tree_blocks (ObserveQuorumCert tree qc) = tree_blocks tree.
Proof. unfold ObserveQuorumCert. destruct (_ || _); [done|]. by destruct (isBetterQC _ _). Qed.

(** The high certificate only gets better, and is the old or the new one. *)
Lemma ObserveQuorumCert_high tree qc :
  qc_le (tree_highQC tree) (tree_highQC (ObserveQuorumCert tree qc)) ∧
  (tree_highQC (ObserveQuorumCert tree qc) = tree_highQC tree ∨
   tree_highQC (ObserveQuorumCert tree qc) = qc).
Proof.
  unfold ObserveQuorumCert. destruct (_ || _); [by split; [|left]|].
  destruct (isBetterQC _ _) eqn:E; [|by split; [|left]]. apply isBetterQC_iff in E.
  split; [|by right]. unfold qc_lt, qc_le in *. simpl. lia.
Qed.

Lemma ObserveQuorumCert_le blocks high qc :
  qc_le high (tree_highQC (ObserveQuorumCert (mkBlockTree blocks high) qc)).
Proof. apply (ObserveQuorumCert_high (mkBlockTree blocks high)). Qed.

(** ** The commit rule *)

(** Specification of the three-chain rule. *)
Definition three_chain (c : CommitCandidate) (d : CommitDecision) : Prop :=
  Cand_BlockHash c ≠ zero_hash ∧ Cand_ParentHash c ≠ zero_hash ∧
  Cand_GrandparentHash c ≠ zero_hash ∧
  QC_BlockHash (Cand_BlockQC c) = Cand_ParentHash c ∧
  QC_BlockHash (Cand_ParentQC c) = Cand_GrandparentHash c ∧
  QC_Height (Cand_BlockQC c) = Cand_ParentHeight c ∧
  QC_Height (Cand_ParentQC c) = Cand_GrandparentHeight c ∧
  Cand_BlockHeight c ≠ 0 ∧ Cand_ParentHeight c ≠ 0 ∧ Cand_GrandparentHeight c ≠ 0 ∧
  Cand_ParentHeight c = wrap64 (Cand_GrandparentHeight c + 1) ∧
  Cand_BlockHeight c = wrap64 (Cand_ParentHeight c + 1) ∧
  d = mkCommitDecision (Cand_GrandparentHeight c) (Cand_GrandparentHash c) (Cand_ParentQC c).

Lemma Decide_iff c d : Decide c = Ok d ↔ three_chain c d.
Proof.
  unfold Decide, three_chain. split.
  - intros H. result_inv H. rewrite ?negb_true_iff, ?orb_false_iff, ?andb_true_iff,
      ?bool_decide_eq_true, ?bool_decide_eq_false in *. naive_solver.
  - intros (?&?&?&?&?&?&?&?&?&?&?&?&->).
    by bool_decide_all.
Qed.

Lemma Decide_Err c e : Decide c = Err e → e = ErrCommitRuleNotSatisfied.
Proof.
  unfold Decide, check. intros H.
  repeat match type of H with
  | (if ?b then _ else _) ≫= _ = _ => destruct b; [cbn in H|by injection H]
  end. done.
Qed.
