(* ===== verification/Evidence.v ===== *)
(** * Slashing evidence for conflicting votes ([src/slashing/slashing.go],
    [src/consensus/evidence.go], [src/consensus/timeout.go])

    Evidence carries a JSON proof.  [encoding/json] on the proof structures is
    the parameter [EvidenceCodec]: encoding may fail, decoding returns the pair
    of votes or an error; the round trip is a hypothesis on the pair at hand. *)

From S2P Require Import Prelude GoLib Sha256 Types Validator SignBytes.

(** [slashing.EvidenceType] is a Go string. *)
Abbreviation EvidenceType := string.
Definition EvidenceDoubleSign : EvidenceType := "double_sign".
Definition EvidenceConflictingVote : EvidenceType := "conflicting_vote".
Definition EvidenceConflictingTimeoutVote : EvidenceType := "conflicting_timeout_vote".
Definition EvidenceInvalidProposal : EvidenceType := "invalid_proposal".
Definition EvidenceUnavailableData : EvidenceType := "unavailable_data".
Definition EvidenceFinalityConflict : EvidenceType := "finality_conflict".

(** [slashing.Evidence] *)
Record Evidence := mkEvidence {
  Evidence_Type : EvidenceType;
  Evidence_Validator : ValidatorID;
  Evidence_Height : Height;
  Evidence_Round : Round;
  Evidence_Proof : bytes
}.

#[global] Instance Evidence_eq_dec : EqDecision Evidence.
Proof. solve_decision. Defined.

Definition ErrUnknownEvidenceType := ErrNew "slashing.ErrUnknownEvidenceType".
Definition ErrVotesDoNotConflict := ErrNew "consensus.ErrVotesDoNotConflict".
Definition ErrTimeoutVotesDoNotConflict := ErrNew "consensus.ErrTimeoutVotesDoNotConflict".
Definition ErrVotePairMismatch := ErrNew "consensus.ErrVotePairMismatch".

Record ConflictingVoteProof := mkConflictingVoteProof {
  CVP_First : Vote;
  CVP_Second : Vote
}.

Record ConflictingTimeoutVoteProof := mkConflictingTimeoutVoteProof {
  CTP_First : TimeoutVote;
  CTP_Second : TimeoutVote
}.

(** [json.Marshal] and [json.Unmarshal] on the two proof types. *)
Class EvidenceCodec := {
  marshal_votes : ConflictingVoteProof → result bytes;
  unmarshal_votes : bytes → result ConflictingVoteProof;
  marshal_timeout_votes : ConflictingTimeoutVoteProof → result bytes;
  unmarshal_timeout_votes : bytes → result ConflictingTimeoutVoteProof
}.

(** [consensus.sameQC] *)
Definition sameQC (first second : QuorumCert) : bool :=
  bool_decide (QC_Height first = QC_Height second) &&
  bool_decide (QC_Round first = QC_Round second) &&
  bool_decide (QC_BlockHash first = QC_BlockHash second).

Section evidence.
Context `{!EvidenceCodec}.

Definition NewConflictingVoteEvidence (first second : Vote) : result Evidence :=
  check ErrVotePairMismatch
    (bool_decide (Vote_ValidatorID first = Vote_ValidatorID second) &&
     bool_decide (Vote_Height first = Vote_Height second) &&
     bool_decide (Vote_Round first = Vote_Round second)) ≫= λ _,
  check ErrVotesDoNotConflict (bool_decide (Vote_BlockHash first ≠ Vote_BlockHash second)) ≫= λ _,
  proof ← marshal_votes (mkConflictingVoteProof first second);
  Ok (mkEvidence EvidenceConflictingVote (Vote_ValidatorID first) (Vote_Height first)
        (Vote_Round first) proof).

Definition NewConflictingTimeoutVoteEvidence (first second : TimeoutVote) : result Evidence :=
  check ErrVotePairMismatch
    (bool_decide (TimeoutVote_ValidatorID first = TimeoutVote_ValidatorID second) &&
     bool_decide (TimeoutVote_Height first = TimeoutVote_Height second) &&
     bool_decide (TimeoutVote_Round first = TimeoutVote_Round second)) ≫= λ _,
  check ErrTimeoutVotesDoNotConflict
    (negb (sameQC (TimeoutVote_HighQC first) (TimeoutVote_HighQC second))) ≫= λ _,
  proof ← marshal_timeout_votes (mkConflictingTimeoutVoteProof first second);
  Ok (mkEvidence EvidenceConflictingTimeoutVote (TimeoutVote_ValidatorID first)
        (TimeoutVote_Height first) (TimeoutVote_Round first) proof).

Definition DecodeConflictingVoteProof (proof : bytes) : result ConflictingVoteProof :=
  unmarshal_votes proof.
Definition DecodeConflictingTimeoutVoteProof (proof : bytes)
    : result ConflictingTimeoutVoteProof :=
  unmarshal_timeout_votes proof.

(** A vote is by the validator, height and round the evidence names. *)
Definition vote_matches (evidence : Evidence) (vote : Vote) : bool :=
  bool_decide (Vote_ValidatorID vote = Evidence_Validator evidence) &&
  bool_decide (Vote_Height vote = Evidence_Height evidence) &&
  bool_decide (Vote_Round vote = Evidence_Round evidence).

Definition VerifyConflictingVoteEvidence (evidence : Evidence) : result unit :=
  check ErrUnknownEvidenceType
    (bool_decide (Evidence_Type evidence = EvidenceConflictingVote)) ≫= λ _,
  decoded ← DecodeConflictingVoteProof (Evidence_Proof evidence);
  check ErrVotePairMismatch (vote_matches evidence (CVP_First decoded)) ≫= λ _,
  check ErrVotePairMismatch (vote_matches evidence (CVP_Second decoded)) ≫= λ _,
  check ErrVotesDoNotConflict
    (bool_decide (Vote_BlockHash (CVP_First decoded) ≠ Vote_BlockHash (CVP_Second decoded))).

Definition timeout_matches (evidence : Evidence) (vote : TimeoutVote) : bool :=
  bool_decide (TimeoutVote_ValidatorID vote = Evidence_Validator evidence) &&
  bool_decide (TimeoutVote_Height vote = Evidence_Height evidence) &&
  bool_decide (TimeoutVote_Round vote = Evidence_Round evidence).

Definition VerifyConflictingTimeoutVoteEvidence (evidence : Evidence) : result unit :=
  check ErrUnknownEvidenceType
    (bool_decide (Evidence_Type evidence = EvidenceConflictingTimeoutVote)) ≫= λ _,
  decoded ← DecodeConflictingTimeoutVoteProof (Evidence_Proof evidence);
  check ErrVotePairMismatch (timeout_matches evidence (CTP_First decoded)) ≫= λ _,
  check ErrVotePairMismatch (timeout_matches evidence (CTP_Second decoded)) ≫= λ _,
  check ErrTimeoutVotesDoNotConflict
    (negb (sameQC (TimeoutVote_HighQC (CTP_First decoded))
             (TimeoutVote_HighQC (CTP_Second decoded)))).

Definition VoteConflictFromPrevious (previousBlock : Hash) (vote : Vote) : result Evidence :=
  NewConflictingVoteEvidence
    (mkVote (Vote_Height vote) (Vote_Round vote) previousBlock (Vote_ValidatorID vote) []) vote.

(** Evidence that [NewConflictingVoteEvidence] creates verifies, when its own
    proof survives the encoding. *)
Lemma NewConflictingVoteEvidence_verifies first second evidence :
  (∀ proof, marshal_votes (mkConflictingVoteProof first second) = Ok proof →
     unmarshal_votes proof = Ok (mkConflictingVoteProof first second)) →
  NewConflictingVoteEvidence first second = Ok evidence →
  VerifyConflictingVoteEvidence evidence = Ok tt ∧
  Evidence_Validator evidence = Vote_ValidatorID first ∧
  Evidence_Height evidence = Vote_Height first ∧ Evidence_Round evidence = Vote_Round first.
Proof.
  intros Hrt Hnew. unfold NewConflictingVoteEvidence in Hnew. result_inv Hnew. subst evidence.
  rewrite !andb_true_iff, !bool_decide_eq_true in *. destruct Hnew0 as [[H1 H2] H3].
  unfold VerifyConflictingVoteEvidence, DecodeConflictingVoteProof. simpl.
  rewrite (Hrt _ Hnew2). simpl. unfold vote_matches. simpl. by bool_decide_all.
Qed.

Lemma NewConflictingTimeoutVoteEvidence_verifies first second evidence :
  (∀ proof, marshal_timeout_votes (mkConflictingTimeoutVoteProof first second) = Ok proof →
     unmarshal_timeout_votes proof = Ok (mkConflictingTimeoutVoteProof first second)) →
  NewConflictingTimeoutVoteEvidence first second = Ok evidence →
  VerifyConflictingTimeoutVoteEvidence evidence = Ok tt ∧
  Evidence_Validator evidence = TimeoutVote_ValidatorID first.
Proof.
  intros Hrt Hnew. unfold NewConflictingTimeoutVoteEvidence in Hnew. result_inv Hnew.
  subst evidence. rewrite !andb_true_iff, !bool_decide_eq_true in *.
  destruct Hnew0 as [[H1 H2] H3].
  unfold VerifyConflictingTimeoutVoteEvidence, DecodeConflictingTimeoutVoteProof. simpl.
  rewrite (Hrt _ Hnew2). simpl. unfold timeout_matches. simpl. bool_decide_all. simpl.
  by rewrite Hnew1.
Qed.
End evidence.
