(* ===== verification/Slashing.v ===== *)
(** * Penalties ([src/slashing/slashing.go], [src/store/store.go])

    The penalty types of the slashing package and the key under which the
    evidence of a penalty is known. *)

From S2P Require Import Prelude GoLib Sha256 Types Strconv TxTags Text Validator SignBytes Evidence.

Record Penalty := mkPenalty {
  Penalty_SlashFraction : string;
  Penalty_JailDuration : Z
}.

Record PenaltyReceipt := mkReceipt {
  Receipt_Evidence : Evidence;
  Receipt_Penalty : Penalty;
  Receipt_PreviousPower : VotingPower;
  Receipt_RemainingPower : VotingPower
}.

(** [store.EvidenceKey] *)
Definition EvidenceKey (evidence : Evidence) : string :=
  if bool_decide (Evidence_Type evidence = "") || bool_decide (Evidence_Validator evidence = "")
     || bool_decide (Evidence_Height evidence = 0) || bool_decide (length (Evidence_Proof evidence) = 0%nat)
  then ""
  else
    (Evidence_Type evidence ++ ":" ++ Evidence_Validator evidence ++ ":" ++
     format_uint (Evidence_Height evidence) ++ ":" ++ format_uint (Evidence_Round evidence) ++ ":" ++
     hex_encode (hash_bytes (sha256 (Evidence_Proof evidence))))%string.
