(* ===== verification/Staking.v ===== *)
(** * The staking module ([src/modules/staking/staking.go])

    Delegation moves coins of the bank into stake and voting power; undelegation
    queues them until a release height; fees are shared among the delegators of
    each validator; a slashing penalty scales the stakes of a validator down.
    The module keeps the validator updates of the block as its only state; all
    else is in the store.  Unbonding entries are kept as JSON (Json.v). *)

From S2P Require Import Prelude GoLib Sha256 Merkle Types Strconv TxTags Text Json JsonPrint Economics Address CanonicalTx.
From S2P Require Import FairOrdering Validator SignBytes StateProof Store Staged Bank Ante Events App.
From S2P Require Import Evidence Slashing.

Definition StakingName : string := "staking".

Definition delegateGasCost : Z := 50.
Definition undelegateGasCost : Z := 40.
Definition unjailGasCost : Z := 20.
Definition claimRewardsGasCost : Z := 20.
Definition withdrawUnbondedGasCost : Z := 25.
Definition setCommissionGasCost : Z := 20.
Definition defaultFeeCollector : Address := "fee_collector".
Definition defaultUnbondingDelay : Height := 1209600.
Definition commissionDenominatorBPS : Z := 10000.

Definition ErrInvalidStakingTx := ErrNew "staking.ErrInvalidStakingTx".
Definition ErrInsufficientBalance := ErrNew "staking.ErrInsufficientBalance".
Definition ErrInsufficientStake := ErrNew "staking.ErrInsufficientStake".
Definition ErrInvalidStakeRecord := ErrNew "staking.ErrInvalidStakeRecord".
Definition ErrMissingValidatorKey := ErrNew "staking.ErrMissingValidatorKey".
Definition ErrStakingStoreRequired := ErrNew "staking.ErrStakingStoreRequired".
Definition ErrStakeOverflow := ErrNew "staking.ErrStakeOverflow".
Definition ErrNoRewards := ErrNew "staking.ErrNoRewards".
Definition ErrNoUnbonding := ErrNew "staking.ErrNoUnbonding".
Definition ErrUnbondingNotMature := ErrNew "staking.ErrUnbondingNotMature".
Definition ErrInvalidCommission := ErrNew "staking.ErrInvalidCommission".
Definition ErrUnauthorizedStaking := ErrNew "staking.ErrUnauthorizedStaking".
Definition ErrInvalidSlashReceipt := ErrNew "staking.ErrInvalidSlashReceipt".
Definition ErrValidatorTombstoned := ErrNew "staking.ErrValidatorTombstoned".
Definition ErrStakingSnapshot := ErrNew "staking.ErrStakingSnapshot".
Definition ErrStakingAtomicStoreRequired := ErrNew "staking.ErrStakingAtomicStoreRequired".

(** ** Module *)

Record StakingPolicy := mkStakingPolicy {
  Policy_UnbondingDelay : Height;
  Policy_FeeCollector : Address;
  Policy_MaxCommissionBPS : Z
}.

Record StakingModule := mkStakingModule {
  unbondingDelay : Height;
  feeCollector : Address;
  maxCommissionBPS : Z;
  pending : list ValidatorUpdate
}.

Definition NewModuleWithPolicy (policy : StakingPolicy) : StakingModule :=
  let delay := Policy_UnbondingDelay policy in
  let collector := Policy_FeeCollector policy in
  let commission := Policy_MaxCommissionBPS policy in
  mkStakingModule
    (if bool_decide (delay = 0) then defaultUnbondingDelay else delay)
    (if bool_decide (collector = "") then defaultFeeCollector else collector)
    (if bool_decide (commission = 0) then commissionDenominatorBPS
     else if bool_decide (commissionDenominatorBPS < commission) then commissionDenominatorBPS
     else commission)
    [].

Definition Staking_NewModule : StakingModule := NewModuleWithPolicy (mkStakingPolicy 0 "" 0).
Definition NewModuleWithUnbondingDelay (delay : Height) : StakingModule :=
  NewModuleWithPolicy (mkStakingPolicy delay "" 0).
Definition NewModuleWithFeeCollector (collector : Address) : StakingModule :=
  NewModuleWithPolicy (mkStakingPolicy 0 collector 0).

Definition Staking_Policy (module : StakingModule) : StakingPolicy :=
  mkStakingPolicy (unbondingDelay module) (feeCollector module) (maxCommissionBPS module).

Definition Staking_CloneModule (module : StakingModule) : StakingModule :=
  NewModuleWithPolicy (Staking_Policy module).

Definition set_pending (module : StakingModule) (updates : list ValidatorUpdate) : StakingModule :=
  mkStakingModule (unbondingDelay module) (feeCollector module) (maxCommissionBPS module) updates.

(** ** Keys *)

Definition stakeKey (delegator : Address) (validatorID : ValidatorID) : bytes :=
  bytes_of_string ("stake/" ++ delegator ++ "/" ++ validatorID).
Definition validatorPowerKey (validatorID : ValidatorID) : bytes :=
  bytes_of_string ("validator/" ++ validatorID ++ "/power").
Definition validatorKeyKey (validatorID : ValidatorID) : bytes :=
  bytes_of_string ("validator/" ++ validatorID ++ "/public_key").
Definition jailKey (validatorID : ValidatorID) : bytes :=
  bytes_of_string ("validator/" ++ validatorID ++ "/jail").
Definition tombstoneKey (validatorID : ValidatorID) : bytes :=
  bytes_of_string ("validator/" ++ validatorID ++ "/tombstone").
Definition unbondingKey (delegator : Address) (validatorID : ValidatorID) : bytes :=
  bytes_of_string ("unbonding/" ++ delegator ++ "/" ++ validatorID).
Definition unbondingAmountKey (delegator : Address) (validatorID : ValidatorID) : bytes :=
  bytes_of_string ("unbonding_amount/" ++ delegator ++ "/" ++ validatorID).
Definition unbondingIndexKey (delegator : Address) (validatorID : ValidatorID) : bytes :=
  bytes_of_string ("unbonding_entries/" ++ delegator ++ "/" ++ validatorID ++ "/index").
Definition unbondingNextIDKey (delegator : Address) (validatorID : ValidatorID) : bytes :=
  bytes_of_string ("unbonding_entries/" ++ delegator ++ "/" ++ validatorID ++ "/next_id").
Definition unbondingEntryKey (delegator : Address) (validatorID : ValidatorID) (id : Z) : bytes :=
  bytes_of_string ("unbonding_entries/" ++ delegator ++ "/" ++ validatorID ++ "/" ++ format_uint id).
Definition rewardKey (delegator : Address) (validatorID : ValidatorID) : bytes :=
  bytes_of_string ("rewards/" ++ delegator ++ "/" ++ validatorID).
Definition commissionKey (validatorID : ValidatorID) : bytes :=
  bytes_of_string ("validator/" ++ validatorID ++ "/commission_bps").

Definition stakingSlashKey (evidence : Evidence) : bytes :=
  let key := EvidenceKey evidence in
  if bool_decide (key = "") then [] else bytes_of_string ("slash/" ++ key).

(** [staking.bankBalanceKey] *)
Definition staking_bankBalanceKey (address : Address) : bytes :=
  if negb (has_prefix address "0x") then bytes_of_string address
  else
    let clean := trim_prefix address "0x" in
    let clean := if Nat.odd (String.length clean) then String "0" clean else clean in
    match hex_decode clean with
    | None => bytes_of_string address
    | Some decoded =>
        if bool_decide (20 < length decoded)%nat then bytes_of_string address
        else bytes_of_string ("0x" ++ hex_encode (replicate (20 - length decoded) x00 ++ decoded))
    end.

(** ** Records *)

(** [staking.encodeBankBalanceBig]; eight bytes are not enforced. *)
Definition staking_encodeBankBalanceBig (amount : Z) : bytes :=
  if bool_decide (amount ≤ 0) then [x00] else big_bytes amount.

Definition validateBankBalanceBig (amount : Z) : result unit :=
  check ErrStakeOverflow (negb (bool_decide (amount < 0) || bool_decide (256 < bit_len amount))).

Definition encodeUint64 (amount : Z) : bytes := be64 amount.

Definition decodeUint64 (value : bytes) : result Z :=
  if bool_decide (length value = 0%nat) then Ok 0
  else check ErrInvalidStakeRecord (bool_decide (length value = 8%nat)) ≫= λ _, Ok (be_decode value).

Definition encodeSlashMarker (receipt : PenaltyReceipt) : bytes :=
  be64 (Receipt_PreviousPower receipt) ++ be64 (Receipt_RemainingPower receipt).

(** [staking.parseAmount] *)
Definition staking_parseAmount (value : string) : result Z :=
  match parse_uint value with
  | Some amount => check ErrInvalidStakingTx (bool_decide (amount ≠ 0)) ≫= λ _, Ok amount
  | None => Err ErrInvalidStakingTx
  end.

Definition isExecutionTagPart (part : string) : bool :=
  has_prefix part "fee=" || has_prefix part "gas=" || has_prefix part "signer=" || has_prefix part "nonce=".

Definition stakingTxParts (tx : Tx) : list string :=
  filter (λ part, isExecutionTagPart part = false) (str_split ":" (string_of_bytes tx)).

Record validatorPowerRecord := mkPowerRecord {
  power_validatorID : ValidatorID;
  power_power : Z
}.

Record delegationRecord := mkDelegation {
  delegation_delegator : Address;
  delegation_validatorID : ValidatorID;
  delegation_stake : Z
}.

Record unbondingEntry := mkUnbonding {
  unbonding_ID : Z;
  unbonding_Amount : Z;
  unbonding_ReleaseHeight : Height;
  unbonding_legacy : bool
}.

(** JSON of an entry. *)
Definition unbonding_fields (entry : unbondingEntry) : list (string * Z) :=
  [("id", unbonding_ID entry); ("amount", unbonding_Amount entry);
   ("release_height", unbonding_ReleaseHeight entry)].

Definition marshal_unbonding (entry : unbondingEntry) : bytes := marshal_uint_struct (unbonding_fields entry).

Definition unmarshal_unbonding (data : bytes) : option unbondingEntry :=
  document ← parse_document data;
  values ← decode_uint_struct ["id"; "amount"; "release_height"] document;
  Some (mkUnbonding (default 0 (values !! "id")) (default 0 (values !! "amount"))
          (default 0 (values !! "release_height")) false).

(** ** Shares *)

Definition proportionalShareBig (total : Z) (part whole : Z) : Z :=
  if bool_decide (total = 0) || bool_decide (part = 0) || bool_decide (whole = 0) then 0
  else total * part / whole.

Definition proportionalShare (total part whole : Z) : Z :=
  let share := proportionalShareBig total part whole in
  if bool_decide (is_u64 share) then share else max_u64.

Definition parseValidatorPowerKey (key : string) : option ValidatorID :=
  match str_split "/" key with
  | [kind; validatorID; what] =>
      if bool_decide (kind = "validator") && bool_decide (validatorID ≠ "") && bool_decide (what = "power")
      then Some validatorID else None
  | _ => None
  end.

Definition parseStakeKey (key : string) : option (Address * ValidatorID) :=
  match str_split "/" key with
  | [kind; delegator; validatorID] =>
      if bool_decide (kind = "stake") && bool_decide (delegator ≠ "") && bool_decide (validatorID ≠ "")
      then Some (delegator, validatorID) else None
  | _ => None
  end.

(** [strings.HasSuffix] *)
Definition has_suffix (s suffix : string) : bool := bool_decide (is_Some (cut_suffix s suffix)).

(** The validators with power and the delegations with stake, in key order. *)
Fixpoint stakingRewardInputs (pairs : list KVPair)
    : result (list validatorPowerRecord * list delegationRecord) :=
  match pairs with
  | [] => Ok ([], [])
  | kv :: pairs =>
      let key := string_of_bytes (KV_Key kv) in
      if has_prefix key "validator/" && has_suffix key "/power" then
        match parseValidatorPowerKey key with
        | None => stakingRewardInputs pairs
        | Some validatorID =>
            power ← decodeUint64 (KV_Value kv);
            '(validators, delegations) ← stakingRewardInputs pairs;
            Ok (if bool_decide (0 < power) then mkPowerRecord validatorID power :: validators else validators,
                delegations)
        end
      else if has_prefix key "stake/" then
        match parseStakeKey key with
        | None => stakingRewardInputs pairs
        | Some (delegator, validatorID) =>
            stake ← decodeUint64 (KV_Value kv);
            '(validators, delegations) ← stakingRewardInputs pairs;
            Ok (validators,
                if bool_decide (0 < stake) then mkDelegation delegator validatorID stake :: delegations
                else delegations)
        end
      else stakingRewardInputs pairs
  end.

(** A pair as a delegation to the validator; records that do not decode are skipped. *)
Definition delegation_of (validatorID : ValidatorID) (kv : KVPair) : option delegationRecord :=
  let key := string_of_bytes (KV_Key kv) in
  if negb (has_prefix key "stake/") then None
  else
    '(delegator, parsedValidatorID) ← parseStakeKey key;
    if bool_decide (parsedValidatorID ≠ validatorID) then None
    else
      match decodeUint64 (KV_Value kv) with
      | Err _ => None
      | Ok stake =>
          if bool_decide (stake = 0) then None else Some (mkDelegation delegator parsedValidatorID stake)
      end.

Definition delegationsForValidator (pairs : list KVPair) (validatorID : ValidatorID)
    : list delegationRecord := omap (delegation_of validatorID) pairs.

(** The sum of the powers, with the check that it fits. *)
Fixpoint total_power (validators : list validatorPowerRecord) (total : Z) : result Z :=
  match validators with
  | [] => Ok total
  | validator :: validators =>
      check ErrStakeOverflow (negb (bool_decide (wrap64 (max_u64 - power_power validator) < total))) ≫= λ _,
      total_power validators (wrap64 (total + power_power validator))
  end.

Definition totalValidatorPower (validators : list validatorPowerRecord) : result Z :=
  total_power validators 0.

Definition rewardMapKey (delegator : Address) (validatorID : ValidatorID) : string :=
  (delegator ++ String "000" validatorID)%string.

(** [strings.SplitN(key, "\x00", 2)] of a key that holds the separator. *)
Definition splitRewardMapKey (key : string) : Address * ValidatorID :=
  match str_cut "000" key with Some parts => parts | None => (key, "") end.

Definition addReward (rewards : gmap string Z) (delegator : Address) (validatorID : ValidatorID) (amount : Z)
    : result (gmap string Z) :=
  check ErrInvalidStakeRecord (negb (bool_decide (amount < 0))) ≫= λ _,
  let key := rewardMapKey delegator validatorID in
  Ok (<[key := default 0 (rewards !! key) + amount]> rewards).

(** ** Unbonding entries *)

(** The sum of the amounts; entries without amount or height are refused. *)
Fixpoint sum_entries (entries : list unbondingEntry) (total : Z) : result Z :=
  match entries with
  | [] => Ok total
  | entry :: entries =>
      check ErrInvalidStakeRecord
        (negb (bool_decide (unbonding_Amount entry = 0) || bool_decide (unbonding_ReleaseHeight entry = 0)))
        ≫= λ _,
      check ErrStakeOverflow (negb (bool_decide (wrap64 (max_u64 - unbonding_Amount entry) < total))) ≫= λ _,
      sum_entries entries (wrap64 (total + unbonding_Amount entry))
  end.

Definition sumUnbondingEntries (entries : list unbondingEntry) : result Z := sum_entries entries 0.

(** The loop of [replaceUnbondingEntriesWritesWithNextID]: ids, sum, earliest
    release and writes of the entries. *)
Fixpoint replace_entries (delegator : Address) (validatorID : ValidatorID) (entries : list unbondingEntry)
    (total : Z) (nextRelease : Height) : result (list Z * Z * Height * list KVWrite) :=
  match entries with
  | [] => Ok ([], total, nextRelease, [])
  | entry :: entries =>
      check ErrInvalidStakeRecord
        (negb (bool_decide (unbonding_Amount entry = 0) || bool_decide (unbonding_ReleaseHeight entry = 0)))
        ≫= λ _,
      check ErrInvalidStakeRecord (bool_decide (unbonding_ID entry ≠ 0)) ≫= λ _,
      check ErrStakeOverflow (negb (bool_decide (wrap64 (max_u64 - unbonding_Amount entry) < total))) ≫= λ _,
      '(ids, total, nextRelease, writes) ←
        replace_entries delegator validatorID entries (wrap64 (total + unbonding_Amount entry))
          (if bool_decide (nextRelease = 0) || bool_decide (unbonding_ReleaseHeight entry < nextRelease)
           then unbonding_ReleaseHeight entry else nextRelease);
      Ok (unbonding_ID entry :: ids, total, nextRelease,
          mkWrite StakingName (unbondingEntryKey delegator validatorID (unbonding_ID entry))
            (marshal_unbonding entry) false :: writes)
  end.

Definition replaceUnbondingEntriesWritesWithNextID (delegator : Address) (validatorID : ValidatorID)
    (entries : list unbondingEntry) (nextID : Z) : result (list KVWrite) :=
  '(ids, total, nextRelease, writes) ← replace_entries delegator validatorID entries 0 0;
  Ok (writes ++
      if bool_decide (length entries = 0%nat) then
        [mkWrite StakingName (unbondingIndexKey delegator validatorID) [] true;
         mkWrite StakingName (unbondingKey delegator validatorID) [] true;
         mkWrite StakingName (unbondingAmountKey delegator validatorID) [] true]
      else
        [mkWrite StakingName (unbondingIndexKey delegator validatorID) (marshal_uints ids) false;
         mkWrite StakingName (unbondingNextIDKey delegator validatorID) (encodeUint64 nextID) false;
         mkWrite StakingName (unbondingKey delegator validatorID) (encodeUint64 nextRelease) false;
         mkWrite StakingName (unbondingAmountKey delegator validatorID) (encodeUint64 total) false]).

Definition replaceUnbondingEntriesWrites (delegator : Address) (validatorID : ValidatorID)
    (entries : list unbondingEntry) : result (list KVWrite) :=
  let nextID :=
    foldl (λ nextID entry, if bool_decide (nextID < unbonding_ID entry) then unbonding_ID entry else nextID)
      0 entries in
  replaceUnbondingEntriesWritesWithNextID delegator validatorID entries nextID.

(** The loop of [appendUnbondingEntryWrites]: an entry without id gets the next one. *)
Fixpoint assign_ids (existing : list unbondingEntry) (nextID : Z) : list unbondingEntry * Z :=
  match existing with
  | [] => ([], nextID)
  | entry :: existing =>
      let '(entry, nextID) :=
        if bool_decide (unbonding_ID entry = 0) then
          let nextID := wrap64 (nextID + 1) in
          (mkUnbonding nextID (unbonding_Amount entry) (unbonding_ReleaseHeight entry) false, nextID)
        else (entry, nextID) in
      let nextID := if bool_decide (nextID < unbonding_ID entry) then unbonding_ID entry else nextID in
      let '(entries, nextID) := assign_ids existing nextID in (entry :: entries, nextID)
  end.

(** ** Reading and writing the store *)

Section staking.
Context {T : Type} `{!StateStore T} `{!SnapshotStore T}.

(** A read that maps a missing key to [None]. *)
Definition get_optional (store : T) (ctx : Ctx) (namespace : string) (key : bytes) : result (option bytes) :=
  match store_Get store ctx namespace key with
  | Ok value => Ok (Some value)
  | Err e => if errors_is e ErrKeyNotFound then Ok None else Err e
  end.

(** [staking.getUint64] *)
Definition getUint64 (store : T) (ctx : Ctx) (key : bytes) : result Z :=
  value ← get_optional store ctx StakingName key;
  match value with None => Ok 0 | Some value => decodeUint64 value end.

Definition decode_amount (value : option bytes) : result Z :=
  match value with
  | None => Ok 0
  | Some value =>
      if bool_decide (length value = 0%nat) then Ok 0
      else check ErrInvalidStakeRecord (negb (bool_decide (32 < length value)%nat)) ≫= λ _,
           Ok (be_decode value)
  end.

Definition getModuleAmountBig (store : T) (ctx : Ctx) (key : bytes) : result Z :=
  get_optional store ctx StakingName key ≫= decode_amount.

(** [staking.bankBalanceBig] *)
Definition staking_bankBalanceBig (store : T) (ctx : Ctx) (address : Address) : result Z :=
  value ← get_optional store ctx BankName (staking_bankBalanceKey address);
  value ← match value with
          | Some value => Ok (Some value)
          | None => get_optional store ctx BankName (bytes_of_string address)
          end;
  decode_amount value.

Definition staking_bankBalance (store : T) (ctx : Ctx) (address : Address) : result Z :=
  amount ← staking_bankBalanceBig store ctx address;
  check ErrStakeOverflow (bool_decide (is_u64 amount)) ≫= λ _, Ok amount.

Definition setUint64 (store : T) (ctx : Ctx) (namespace : string) (key : bytes) (amount : Z)
    : T * result unit := store_Set store ctx namespace key (encodeUint64 amount).

Definition setStake (store : T) (ctx : Ctx) (delegator : Address) (validatorID : ValidatorID) (amount : Z)
    : T * result unit := setUint64 store ctx StakingName (stakeKey delegator validatorID) amount.

Definition setValidatorPower (store : T) (ctx : Ctx) (validatorID : ValidatorID) (amount : Z)
    : T * result unit := setUint64 store ctx StakingName (validatorPowerKey validatorID) amount.

Definition setUnbondingReleaseHeight (store : T) (ctx : Ctx) (delegator : Address) (validatorID : ValidatorID)
    (releaseHeight : Height) : T * result unit :=
  setUint64 store ctx StakingName (unbondingKey delegator validatorID) releaseHeight.

Definition setBankBalance (store : T) (ctx : Ctx) (address : Address) (amount : Z) : T * result unit :=
  setUint64 store ctx BankName (staking_bankBalanceKey address) amount.

Definition staking_setBankBalanceBig (store : T) (ctx : Ctx) (address : Address) (amount : Z) : T * result unit :=
  match validateBankBalanceBig amount with
  | Err e => (store, Err e)
  | Ok _ => store_Set store ctx BankName (staking_bankBalanceKey address) (staking_encodeBankBalanceBig amount)
  end.

Definition applyAtomicWrites (store : T) (ctx : Ctx) (writes : list KVWrite) : T * result unit :=
  match store_SetBatch with
  | None => (store, Err ErrStakingAtomicStoreRequired)
  | Some batch => batch store ctx writes
  end.

Definition Stake (store : T) (ctx : Ctx) (delegator : Address) (validatorID : ValidatorID) : result Z :=
  getUint64 store ctx (stakeKey delegator validatorID).
Definition ValidatorPower (store : T) (ctx : Ctx) (validatorID : ValidatorID) : result Z :=
  getUint64 store ctx (validatorPowerKey validatorID).
Definition RewardsBig (store : T) (ctx : Ctx) (delegator : Address) (validatorID : ValidatorID) : result Z :=
  getModuleAmountBig store ctx (rewardKey delegator validatorID).
Definition Rewards (store : T) (ctx : Ctx) (delegator : Address) (validatorID : ValidatorID) : result Z :=
  amount ← RewardsBig store ctx delegator validatorID;
  check ErrStakeOverflow (bool_decide (is_u64 amount)) ≫= λ _, Ok amount.
Definition Commission (store : T) (ctx : Ctx) (validatorID : ValidatorID) : result Z :=
  getUint64 store ctx (commissionKey validatorID).

Definition Tombstoned (store : T) (ctx : Ctx) (validatorID : ValidatorID) : result bool :=
  check ErrInvalidStakingTx (bool_decide (validatorID ≠ "")) ≫= λ _,
  value ← get_optional store ctx StakingName (tombstoneKey validatorID);
  Ok (bool_decide (is_Some value)).

(** The stakes of a delegator with all validators. *)
Fixpoint sum_stakes (delegator : Address) (pairs : list KVPair) (total : Z) : result Z :=
  match pairs with
  | [] => Ok total
  | kv :: pairs =>
      match parseStakeKey (string_of_bytes (KV_Key kv)) with
      | None => sum_stakes delegator pairs total
      | Some (parsedDelegator, _) =>
          if bool_decide (parsedDelegator ≠ delegator) then sum_stakes delegator pairs total
          else
            stake ← decodeUint64 (KV_Value kv);
            check ErrStakeOverflow (negb (bool_decide (wrap64 (max_u64 - stake) < total))) ≫= λ _,
            sum_stakes delegator pairs (wrap64 (total + stake))
      end
  end.

Definition DelegatedPower (store : T) (ctx : Ctx) (delegator : Address) : result VotingPower :=
  check ErrInvalidStakingTx (bool_decide (delegator ≠ "")) ≫= λ _,
  match store_ExportPrefix with
  | None => Err ErrStakingSnapshot
  | Some export =>
      pairs ← export store ctx StakingName (bytes_of_string ("stake/" ++ delegator ++ "/"));
      sum_stakes delegator pairs 0
  end.

(** ** Unbonding entries in the store *)

Fixpoint load_entries (store : T) (ctx : Ctx) (delegator : Address) (validatorID : ValidatorID)
    (ids : list Z) : result (list unbondingEntry) :=
  match ids with
  | [] => Ok []
  | id :: ids =>
      rawEntry ← store_Get store ctx StakingName (unbondingEntryKey delegator validatorID id);
      match unmarshal_unbonding rawEntry with
      | None => Err ErrInvalidStakeRecord
      | Some entry =>
          check ErrInvalidStakeRecord
            (negb (bool_decide (unbonding_ID entry ≠ id) || bool_decide (unbonding_Amount entry = 0)
                   || bool_decide (unbonding_ReleaseHeight entry = 0))) ≫= λ _,
          entries ← load_entries store ctx delegator validatorID ids;
          Ok (entry :: entries)
      end
  end.

Definition loadUnbondingEntries (store : T) (ctx : Ctx) (delegator : Address) (validatorID : ValidatorID)
    : result (list unbondingEntry) :=
  check ErrInvalidStakingTx (negb (bool_decide (delegator = "") || bool_decide (validatorID = ""))) ≫= λ _,
  rawIndex ← get_optional store ctx StakingName (unbondingIndexKey delegator validatorID);
  if bool_decide (0 < length (default [] rawIndex))%nat then
    match parse_document (default [] rawIndex) ≫= decode_uints with
    | None => Err ErrInvalidStakeRecord
    | Some ids => load_entries store ctx delegator validatorID ids
    end
  else
    releaseHeight ← getUint64 store ctx (unbondingKey delegator validatorID);
    amount ← getUint64 store ctx (unbondingAmountKey delegator validatorID);
    if bool_decide (amount = 0) then Ok []
    else
      check ErrInvalidStakeRecord (bool_decide (releaseHeight ≠ 0)) ≫= λ _,
      Ok [mkUnbonding 0 amount releaseHeight true].

Definition UnbondingReleaseHeight (store : T) (ctx : Ctx) (delegator : Address) (validatorID : ValidatorID)
    : result Height :=
  entries ← loadUnbondingEntries store ctx delegator validatorID;
  match entries with
  | [] => Ok 0
  | entry :: entries =>
      Ok (foldl (λ release entry, if bool_decide (unbonding_ReleaseHeight entry < release)
                                  then unbonding_ReleaseHeight entry else release)
            (unbonding_ReleaseHeight entry) entries)
  end.

Definition UnbondingAmount (store : T) (ctx : Ctx) (delegator : Address) (validatorID : ValidatorID)
    : result Z :=
  entries ← loadUnbondingEntries store ctx delegator validatorID; sumUnbondingEntries entries.

Definition appendUnbondingEntryWrites (store : T) (ctx : Ctx) (delegator : Address)
    (validatorID : ValidatorID) (existing : list unbondingEntry) (amount : Z) (releaseHeight : Height)
    : result (list KVWrite) :=
  nextID ← getUint64 store ctx (unbondingNextIDKey delegator validatorID);
  let '(entries, nextID) := assign_ids existing nextID in
  let nextID := wrap64 (nextID + 1) in
  replaceUnbondingEntriesWritesWithNextID delegator validatorID
    (entries ++ [mkUnbonding nextID amount releaseHeight false]) nextID.

(** ** Transactions *)

Definition staking_update (validatorID : ValidatorID) (publicKey : PublicKey) (newPower : Z)
    : ValidatorUpdate :=
  mkValidatorUpdate validatorID validatorID publicKey newPower newPower {["source" := "staking"]}.

(** The checks of [delegate], its writes and its update. *)
Definition delegate_writes (store : T) (ctx : Ctx) (delegator : Address) (validatorID : ValidatorID)
    (amount : Z) (publicKey : PublicKey) : result (list KVWrite * ValidatorUpdate) :=
  check ErrInvalidStakingTx
    (negb (bool_decide (delegator = "") || bool_decide (validatorID = "") || bool_decide (amount = 0)))
    ≫= λ _,
  tombstoned ← Tombstoned store ctx validatorID;
  check ErrValidatorTombstoned (negb tombstoned) ≫= λ _,
  balance ← staking_bankBalanceBig store ctx delegator;
  check ErrInsufficientBalance (negb (bool_decide (balance < amount))) ≫= λ _,
  currentStake ← Stake store ctx delegator validatorID;
  currentPower ← ValidatorPower store ctx validatorID;
  check ErrStakeOverflow
    (negb (bool_decide (wrap64 (max_u64 - amount) < currentPower)
           || bool_decide (wrap64 (max_u64 - amount) < currentStake))) ≫= λ _,
  let newPower := wrap64 (currentPower + amount) in
  let newBalance := balance - amount in
  Ok ([mkWrite BankName (staking_bankBalanceKey delegator) (staking_encodeBankBalanceBig newBalance) false;
       mkWrite StakingName (stakeKey delegator validatorID) (encodeUint64 (wrap64 (currentStake + amount))) false;
       mkWrite StakingName (validatorPowerKey validatorID) (encodeUint64 newPower) false;
       mkWrite StakingName (validatorKeyKey validatorID) publicKey false],
      staking_update validatorID publicKey newPower).

Definition delegate (store : T) (ctx : Ctx) (delegator : Address) (validatorID : ValidatorID)
    (amount : Z) (publicKey : PublicKey) : T * result ValidatorUpdate :=
  match delegate_writes store ctx delegator validatorID amount publicKey with
  | Err e => (store, Err e)
  | Ok (writes, update) =>
      match applyAtomicWrites store ctx writes with
      | (store, Err e) => (store, Err e)
      | (store, Ok _) => (store, Ok update)
      end
  end.

(** The checks of [undelegate], its writes and the new power. *)
Definition undelegate_writes (module : StakingModule) (store : T) (ctx : Ctx) (height : Height)
    (delegator : Address) (validatorID : ValidatorID) (amount : Z) : result (list KVWrite * Z) :=
  check ErrInvalidStakingTx
    (negb (bool_decide (delegator = "") || bool_decide (validatorID = "") || bool_decide (amount = 0)))
    ≫= λ _,
  currentStake ← Stake store ctx delegator validatorID;
  check ErrInsufficientStake (negb (bool_decide (currentStake < amount))) ≫= λ _,
  currentPower ← ValidatorPower store ctx validatorID;
  check ErrInvalidStakeRecord (negb (bool_decide (currentPower < amount))) ≫= λ _,
  let newPower := wrap64 (currentPower - amount) in
  entries ← loadUnbondingEntries store ctx delegator validatorID;
  unbondingAmount ← sumUnbondingEntries entries;
  check ErrStakeOverflow (negb (bool_decide (wrap64 (max_u64 - amount) < unbondingAmount))) ≫= λ _,
  check ErrStakeOverflow (negb (bool_decide (wrap64 (max_u64 - unbondingDelay module) < height))) ≫= λ _,
  let releaseHeight := wrap64 (height + unbondingDelay module) in
  unbondingWrites ←
    appendUnbondingEntryWrites store ctx delegator validatorID entries amount releaseHeight;
  Ok ([mkWrite StakingName (stakeKey delegator validatorID) (encodeUint64 (wrap64 (currentStake - amount))) false;
       mkWrite StakingName (validatorPowerKey validatorID) (encodeUint64 newPower) false] ++ unbondingWrites,
      newPower).

Definition undelegate (module : StakingModule) (store : T) (ctx : Ctx) (height : Height)
    (delegator : Address) (validatorID : ValidatorID) (amount : Z) : T * result ValidatorUpdate :=
  match undelegate_writes module store ctx height delegator validatorID amount with
  | Err e => (store, Err e)
  | Ok (writes, newPower) =>
      match applyAtomicWrites store ctx writes with
      | (store, Err e) => (store, Err e)
      | (store, Ok _) =>
          match get_optional store ctx StakingName (validatorKeyKey validatorID) with
          | Err e => (store, Err e)
          | Ok publicKey => (store, Ok (staking_update validatorID (default [] publicKey) newPower))
          end
      end
  end.

Definition claimRewards_writes (store : T) (ctx : Ctx) (delegator : Address) (validatorID : ValidatorID)
    : result (list KVWrite) :=
  check ErrInvalidStakingTx (negb (bool_decide (delegator = "") || bool_decide (validatorID = ""))) ≫= λ _,
  reward ← RewardsBig store ctx delegator validatorID;
  check ErrNoRewards (bool_decide (reward ≠ 0)) ≫= λ _,
  balance ← staking_bankBalanceBig store ctx delegator;
  let newBalance := balance + reward in
  validateBankBalanceBig newBalance ≫= λ _,
  Ok [mkWrite BankName (staking_bankBalanceKey delegator) (staking_encodeBankBalanceBig newBalance) false;
      mkWrite StakingName (rewardKey delegator validatorID) (staking_encodeBankBalanceBig 0) false].

(** Writes that are computed and then applied in one batch. *)
Definition atomically (store : T) (ctx : Ctx) (writes : result (list KVWrite)) : T * result unit :=
  match writes with
  | Err e => (store, Err e)
  | Ok writes => applyAtomicWrites store ctx writes
  end.

Definition claimRewards (store : T) (ctx : Ctx) (delegator : Address) (validatorID : ValidatorID)
    : T * result unit := atomically store ctx (claimRewards_writes store ctx delegator validatorID).

Definition withdrawUnbonded_writes (store : T) (ctx : Ctx) (height : Height) (delegator : Address)
    (validatorID : ValidatorID) : result (list KVWrite) :=
  check ErrInvalidStakingTx (negb (bool_decide (delegator = "") || bool_decide (validatorID = ""))) ≫= λ _,
  entries ← loadUnbondingEntries store ctx delegator validatorID;
  check ErrNoUnbonding (bool_decide (entries ≠ [])) ≫= λ _,
  let matured := filter (λ entry, unbonding_ReleaseHeight entry ≤ height) entries in
  let pending := filter (λ entry, ¬ unbonding_ReleaseHeight entry ≤ height) entries in
  check ErrUnbondingNotMature (bool_decide (matured ≠ [])) ≫= λ _,
  amount ← sumUnbondingEntries matured;
  balance ← staking_bankBalanceBig store ctx delegator;
  writes ← replaceUnbondingEntriesWrites delegator validatorID pending;
  let deletes :=
    (λ entry, mkWrite StakingName (unbondingEntryKey delegator validatorID (unbonding_ID entry)) [] true)
      <$> filter (λ entry, unbonding_legacy entry = false) matured in
  let newBalance := balance + amount in
  validateBankBalanceBig newBalance ≫= λ _,
  Ok (mkWrite BankName (staking_bankBalanceKey delegator) (staking_encodeBankBalanceBig newBalance) false ::
      writes ++ deletes).

Definition withdrawUnbonded (store : T) (ctx : Ctx) (height : Height) (delegator : Address)
    (validatorID : ValidatorID) : T * result unit :=
  atomically store ctx (withdrawUnbonded_writes store ctx height delegator validatorID).

Definition unjail (store : T) (ctx : Ctx) (validatorID : ValidatorID) : T * result unit :=
  match Tombstoned store ctx validatorID ≫= λ tombstoned, check ErrValidatorTombstoned (negb tombstoned) with
  | Err e => (store, Err e)
  | Ok _ => store_Delete store ctx StakingName (jailKey validatorID)
  end.

(** ** Slashing *)

Definition slash_write (receipt : PenaltyReceipt) (delegation : delegationRecord) : KVWrite :=
  let nextStake := proportionalShare (delegation_stake delegation) (Receipt_RemainingPower receipt)
                     (Receipt_PreviousPower receipt) in
  let key := stakeKey (delegation_delegator delegation) (delegation_validatorID delegation) in
  if bool_decide (nextStake = 0) then mkWrite StakingName key [] true
  else mkWrite StakingName key (encodeUint64 nextStake) false.

(** The writes of a penalty, or [None] when it was applied before. *)
Definition slashing_writes (store : T) (ctx : Ctx) (receipt : PenaltyReceipt)
    : result (option (list KVWrite)) :=
  let validatorID := Evidence_Validator (Receipt_Evidence receipt) in
  check ErrInvalidSlashReceipt
    (negb (bool_decide (validatorID = "") || bool_decide (Receipt_PreviousPower receipt = 0)
           || bool_decide (Receipt_PreviousPower receipt < Receipt_RemainingPower receipt))) ≫= λ _,
  let markerKey := stakingSlashKey (Receipt_Evidence receipt) in
  check ErrInvalidSlashReceipt (negb (bool_decide (length markerKey = 0%nat))) ≫= λ _,
  marker ← get_optional store ctx StakingName markerKey;
  match marker with
  | Some _ => Ok None
  | None =>
      match store_ExportNamespace with
      | None => Err ErrStakingSnapshot
      | Some export =>
          pairs ← export store ctx StakingName;
          Ok (Some
            ([mkWrite StakingName (validatorPowerKey validatorID)
                (encodeUint64 (Receipt_RemainingPower receipt)) false;
              mkWrite StakingName markerKey (encodeSlashMarker receipt) false] ++
             (if bool_decide (Receipt_RemainingPower receipt = 0)
              then [mkWrite StakingName (tombstoneKey validatorID)
                      (encodeUint64 (Evidence_Height (Receipt_Evidence receipt))) false]
              else []) ++
             (slash_write receipt <$> delegationsForValidator pairs validatorID)))
      end
  end.

(** [Module.ApplySlashingPenalty] *)
Definition ApplySlashingPenalty (store : option T) (ctx : Ctx) (receipt : PenaltyReceipt)
    : option T * result unit :=
  match store with
  | None => (None, Err ErrStakingStoreRequired)
  | Some store =>
      match slashing_writes store ctx receipt with
      | Err e => (Some store, Err e)
      | Ok None => (Some store, Ok tt)
      | Ok (Some writes) => let '(store, r) := applyAtomicWrites store ctx writes in (Some store, r)
      end
  end.

(** ** Fees *)

(** The delegations of each validator and their stakes. *)
Fixpoint group_delegations (delegations : list delegationRecord)
    (byValidator : gmap ValidatorID (list delegationRecord)) (stakes : gmap ValidatorID Z)
    : result (gmap ValidatorID (list delegationRecord) * gmap ValidatorID Z) :=
  match delegations with
  | [] => Ok (byValidator, stakes)
  | delegation :: delegations =>
      let validatorID := delegation_validatorID delegation in
      let stake := default 0 (stakes !! validatorID) in
      check ErrStakeOverflow
        (negb (bool_decide (wrap64 (max_u64 - delegation_stake delegation) < stake))) ≫= λ _,
      group_delegations delegations
        (<[validatorID := default [] (byValidator !! validatorID) ++ [delegation]]> byValidator)
        (<[validatorID := wrap64 (stake + delegation_stake delegation)]> stakes)
  end.

(** The loop over the delegations of a validator: rewards and what is given. *)
Fixpoint share_pool (delegations : list delegationRecord) (pool totalStake : Z) (rewards : gmap string Z)
    (given : Z) : result (gmap string Z * Z) :=
  match delegations with
  | [] => Ok (rewards, given)
  | delegation :: delegations =>
      let share := proportionalShareBig pool (delegation_stake delegation) totalStake in
      if bool_decide (share = 0) then share_pool delegations pool totalStake rewards given
      else
        rewards ← addReward rewards (delegation_delegator delegation) (delegation_validatorID delegation) share;
        share_pool delegations pool totalStake rewards (given + share)
  end.

(** The rewards of one validator and its delegators out of its fee. *)
Definition share_fee (validatorID : ValidatorID) (validatorFee commissionBPS : Z)
    (validatorDelegations : list delegationRecord) (totalStake : Z) (rewards : gmap string Z)
    : result (gmap string Z) :=
  let commission := proportionalShareBig validatorFee commissionBPS commissionDenominatorBPS in
  rewards ← (if bool_decide (0 < commission) then addReward rewards validatorID validatorID commission
             else Ok rewards);
  let distributionPool := validatorFee - commission in
  '(rewards, given) ←
    (if bool_decide (0 < distributionPool)
        && (bool_decide (length validatorDelegations = 0%nat) || bool_decide (totalStake = 0))
     then rewards ← addReward rewards validatorID validatorID distributionPool;
          Ok (rewards, commission + distributionPool)
     else Ok (rewards, commission));
  '(rewards, given) ← share_pool validatorDelegations distributionPool totalStake rewards given;
  if bool_decide (given < validatorFee)
  then addReward rewards validatorID validatorID (validatorFee - given)
  else Ok rewards.

(** The loop over the validators: rewards and what is distributed. *)
Fixpoint share_fees (store : T) (ctx : Ctx) (collectorBalance totalPower : Z)
    (byValidator : gmap ValidatorID (list delegationRecord)) (stakes : gmap ValidatorID Z)
    (validators : list validatorPowerRecord) (rewards : gmap string Z) (distributed : Z)
    : result (gmap string Z * Z) :=
  match validators with
  | [] => Ok (rewards, distributed)
  | validator :: validators =>
      let validatorID := power_validatorID validator in
      let validatorFee := proportionalShareBig collectorBalance (power_power validator) totalPower in
      if bool_decide (validatorFee = 0)
      then share_fees store ctx collectorBalance totalPower byValidator stakes validators rewards distributed
      else
        commissionBPS ← Commission store ctx validatorID;
        rewards ← share_fee validatorID validatorFee commissionBPS
                    (default [] (byValidator !! validatorID)) (default 0 (stakes !! validatorID)) rewards;
        share_fees store ctx collectorBalance totalPower byValidator stakes validators rewards
          (distributed + validatorFee)
  end.

(** The writes that add the rewards to what is stored, in some order. *)
Fixpoint reward_writes (store : T) (ctx : Ctx) (entries : list (string * Z)) : result (list KVWrite) :=
  match entries with
  | [] => Ok []
  | (encodedKey, amount) :: entries =>
      let '(delegator, validatorID) := splitRewardMapKey encodedKey in
      current ← RewardsBig store ctx delegator validatorID;
      let nextReward := current + amount in
      validateBankBalanceBig nextReward ≫= λ _,
      writes ← reward_writes store ctx entries;
      Ok (mkWrite StakingName (rewardKey delegator validatorID) (staking_encodeBankBalanceBig nextReward) false
          :: writes)
  end.

Definition fees_writes (order : MapOrder string Z) (module : StakingModule) (store : T) (ctx : Ctx)
    : result (option (list KVWrite)) :=
  collectorBalance ← staking_bankBalanceBig store ctx (feeCollector module);
  if bool_decide (collectorBalance = 0) then Ok None
  else
    match store_ExportNamespace with
    | None => Err ErrStakingSnapshot
    | Some export =>
        pairs ← export store ctx StakingName;
        '(validators, delegations) ← stakingRewardInputs pairs;
        totalPower ← totalValidatorPower validators;
        if bool_decide (totalPower = 0) then Ok None
        else
          '(byValidator, stakes) ← group_delegations delegations ∅ ∅;
          '(rewards, distributed) ←
            share_fees store ctx collectorBalance totalPower byValidator stakes validators ∅ 0;
          if bool_decide (distributed = 0) then Ok None
          else
            writes ← reward_writes store ctx (order rewards);
            Ok (Some (mkWrite BankName (staking_bankBalanceKey (feeCollector module))
                        (staking_encodeBankBalanceBig (collectorBalance - distributed)) false :: writes))
    end.

Definition distributeFees (order : MapOrder string Z) (module : StakingModule) (store : T) (ctx : Ctx)
    : T * result unit :=
  match fees_writes order module store ctx with
  | Err e => (store, Err e)
  | Ok None => (store, Ok tt)
  | Ok (Some writes) => applyAtomicWrites store ctx writes
  end.

(** ** The module interface *)

Fixpoint init_stakes (store : T) (ctx : Ctx) (entries : list (string * bytes)) : T * result unit :=
  match entries with
  | [] => (store, Ok tt)
  | (rawKey, rawValue) :: entries =>
      if negb (has_prefix rawKey (StakingName ++ ":stake:")) then init_stakes store ctx entries
      else
        match str_split ":" rawKey, parse_uint (string_of_bytes rawValue) with
        | [_; _; delegator; validatorID], Some amount =>
            match setStake store ctx delegator validatorID amount with
            | (store, Err e) => (store, Err e)
            | (store, Ok _) => init_stakes store ctx entries
            end
        | _, _ => (store, Err (ErrWrap [ErrInvalidStakeRecord] rawKey))
        end
  end.

Definition Staking_InitGenesis (order : MapOrder string bytes) (store : option T) (ctx : Ctx)
    (genesis : gmap string bytes) : option T * result unit :=
  match store with
  | None => (None, Ok tt)
  | Some store => let '(store, r) := init_stakes store ctx (order genesis) in (Some store, r)
  end.

Definition Staking_BeginBlock (module : StakingModule) : StakingModule := set_pending module [].

Definition Staking_EndBlock (order : MapOrder string Z) (module : StakingModule) (store : option T) (ctx : Ctx)
    : option T * result unit :=
  match store with
  | None => (None, Ok tt)
  | Some store => let '(store, r) := distributeFees order module store ctx in (Some store, r)
  end.

Definition Staking_ValidatorUpdates (module : StakingModule) : list ValidatorUpdate := pending module.

Definition Staking_EstimateGas (tx : Tx) : result Z :=
  match stakingTxParts tx with
  | [_; action; _; _; _; _] =>
      if bool_decide (action = "delegate") then Ok delegateGasCost else Err ErrInvalidStakingTx
  | [_; action; _; _; _] =>
      if bool_decide (action = "undelegate") then Ok undelegateGasCost else Err ErrInvalidStakingTx
  | [_; action; _] =>
      if bool_decide (action = "unjail") then Ok unjailGasCost else Err ErrInvalidStakingTx
  | [_; action; _; _] =>
      if bool_decide (action = "claim-rewards") then Ok claimRewardsGasCost
      else if bool_decide (action = "withdraw-unbonded") then Ok withdrawUnbondedGasCost
      else if bool_decide (action = "set-commission") then Ok setCommissionGasCost
      else Err ErrInvalidStakingTx
  | _ => Err ErrInvalidStakingTx
  end.

Context (error_text : error → string).

Definition setCommission (module : StakingModule) (store : T) (ctx : Ctx) (tx : Tx)
    (validatorID : ValidatorID) (commissionBPS : Z) : T * result unit :=
  if bool_decide (validatorID = "") || bool_decide (maxCommissionBPS module < commissionBPS)
  then (store, Err ErrInvalidCommission)
  else
    match TxTag tx "signer" with
    | Some signer =>
        if bool_decide (signer = validatorID)
        then setUint64 store ctx StakingName (commissionKey validatorID) commissionBPS
        else (store, Err ErrUnauthorizedStaking)
    | None => (store, Err ErrUnauthorizedStaking)
    end.

(** What a transaction did to module, store and gas, and its result. *)
Abbreviation delivered := (StakingModule * T * option GasMeter * Result)%type.

(** A case of [DeliverTx]: gas is taken first, and an action that fails has the
    code its caller gives. *)
Definition with_gas (module : StakingModule) (store : T) (gas : option GasMeter) (cost : Z)
    (run : option GasMeter → delivered) : delivered :=
  let '(gas, r) := Gas_Consume gas cost in
  match r with
  | Err e => (module, store, gas, result_code 5 (error_text e))
  | Ok _ => run gas
  end.

(** The result of an action without update, and of one with an update. *)
Definition finish (module : StakingModule) (gas : option GasMeter) (done : T * result unit) : delivered :=
  match done with
  | (store, Err e) => (module, store, gas, result_code 4 (error_text e))
  | (store, Ok _) => (module, store, gas, result_code 0 "")
  end.

Definition finish_update (module : StakingModule) (gas : option GasMeter) (done : T * result ValidatorUpdate)
    : delivered :=
  match done with
  | (store, Err e) => (module, store, gas, result_code 4 (error_text e))
  | (store, Ok update) => (set_pending module (pending module ++ [update]), store, gas, result_code 0 "")
  end.

(** The switch of [DeliverTx] on the parts after the name of the module. *)
Definition deliver_parts (module : StakingModule) (store : T) (gas : option GasMeter) (ctx : Ctx)
    (height : Height) (tx : Tx) (parts : list string) : delivered :=
  let invalid := (module, store, gas, result_code 2 (error_text ErrInvalidStakingTx)) in
  match parts with
  | [action; delegator; validatorID; value; key] =>
      if bool_decide (action = "delegate") then
        with_gas module store gas delegateGasCost (λ gas,
          match staking_parseAmount value with
          | Err e => (module, store, gas, result_code 3 (error_text e))
          | Ok amount =>
              match base64_decode key with
              | Some (b :: publicKey) =>
                  finish_update module gas (delegate store ctx delegator validatorID amount (b :: publicKey))
              | _ => (module, store, gas, result_code 3 (error_text ErrMissingValidatorKey))
              end
          end)
      else invalid
  | [action; delegator; validatorID; value] =>
      if bool_decide (action = "undelegate") then
        with_gas module store gas undelegateGasCost (λ gas,
          match staking_parseAmount value with
          | Err e => (module, store, gas, result_code 3 (error_text e))
          | Ok amount =>
              finish_update module gas (undelegate module store ctx height delegator validatorID amount)
          end)
      else invalid
  | [action; validatorID] =>
      if bool_decide (action = "unjail")
      then with_gas module store gas unjailGasCost (λ gas, finish module gas (unjail store ctx validatorID))
      else invalid
  | [action; first; second] =>
      if bool_decide (action = "claim-rewards") then
        with_gas module store gas claimRewardsGasCost
          (λ gas, finish module gas (claimRewards store ctx first second))
      else if bool_decide (action = "withdraw-unbonded") then
        with_gas module store gas withdrawUnbondedGasCost
          (λ gas, finish module gas (withdrawUnbonded store ctx height first second))
      else if bool_decide (action = "set-commission") then
        with_gas module store gas setCommissionGasCost (λ gas,
          match parse_uint second with
          | None => (module, store, gas, result_code 3 (error_text ErrInvalidCommission))
          | Some commissionBPS => finish module gas (setCommission module store ctx tx first commissionBPS)
          end)
      else invalid
  | _ => invalid
  end.

Definition Staking_DeliverTx (module : StakingModule) (store : option T) (gas : option GasMeter)
    (ctx : Ctx) (height : Height) (tx : Tx) : StakingModule * option T * option GasMeter * Result :=
  match store with
  | None => (module, None, gas, result_code 1 (error_text ErrStakingStoreRequired))
  | Some st =>
      match stakingTxParts tx with
      | name :: parts =>
          if bool_decide (name = StakingName) then
            let '(module, st, gas, result) := deliver_parts module st gas ctx height tx parts in
            (module, Some st, gas, result)
          else (module, store, gas, result_code 2 (error_text ErrInvalidStakingTx))
      | [] => (module, store, gas, result_code 2 (error_text ErrInvalidStakingTx))
      end
  end.

(** The answer to a query for a number. *)
Definition query_uint (r : result Z) : Z * bytes * string :=
  match r with
  | Err e => (3, [], error_text e)
  | Ok amount => (0, bytes_of_string (format_uint amount), "")
  end.

Definition Staking_Query (store : option T) (ctx : Ctx) (path : list string) : Z * bytes * string :=
  match store with
  | None => (1, [], error_text ErrStakingStoreRequired)
  | Some store =>
      let invalid := (2, [], "invalid staking query") in
      match path with
      | [kind; delegator; validatorID] =>
          if bool_decide (kind = "stake") then query_uint (Stake store ctx delegator validatorID)
          else if bool_decide (kind = "unbonding") then
            query_uint (UnbondingReleaseHeight store ctx delegator validatorID)
          else if bool_decide (kind = "unbonding-balance") then
            query_uint (UnbondingAmount store ctx delegator validatorID)
          else if bool_decide (kind = "rewards") then query_uint (Rewards store ctx delegator validatorID)
          else invalid
      | [kind; validatorID] =>
          if bool_decide (kind = "validator") then query_uint (ValidatorPower store ctx validatorID)
          else if bool_decide (kind = "commission") then query_uint (Commission store ctx validatorID)
          else if bool_decide (kind = "tombstone") then
            match Tombstoned store ctx validatorID with
            | Err e => (3, [], error_text e)
            | Ok tombstoned => (0, bytes_of_string (if tombstoned then "true" else "false"), "")
            end
          else invalid
      | _ => invalid
      end
  end.
End staking.

#[global] Instance staking_ops (error_text : error → string)
    (genesis_order : MapOrder string bytes) (order : MapOrder string Z) : ModuleOps StakingModule := {|
  mod_Name _ := StakingName;
  mod_InitGenesis _ _ _ module actx store genesis :=
    let '(store, r) := Staking_InitGenesis genesis_order store (actx_Ctx actx) genesis in (module, store, r);
  mod_BeginBlock _ _ _ module _ store _ := (Staking_BeginBlock module, store, Ok tt);
  mod_DeliverTx _ _ _ module actx store gas tx :=
    Staking_DeliverTx error_text module store gas (actx_Ctx actx) (actx_Height actx) tx;
  mod_EndBlock _ _ _ module actx store :=
    let '(store, r) := Staking_EndBlock order module store (actx_Ctx actx) in (module, store, r);
  mod_EstimateGas _ _ _ _ := Some (λ _ _ tx, Staking_EstimateGas tx);
  mod_ValidateTx _ _ _ _ := None;
  mod_Events _ _ _ _ := None;
  mod_ValidatorUpdates _ _ _ module := Some (λ _ _, Staking_ValidatorUpdates module);
  mod_Query _ _ _ _ := Some (λ actx store path _, Staking_Query error_text store (actx_Ctx actx) path);
  mod_BindStore _ _ _ _ := None;
  mod_CloneModule module := Some (Staking_CloneModule module)
|}.
