(* ===== verification/StakingStore.v ===== *)
(** * The staking module and its store ([src/modules/staking/staking.go])

    What the module reads and writes depends on the content of the store only,
    every write it makes is valid, and its writes are one batch: the staking
    module keeps the promise of [LawfulModule], so a block of bank and staking
    transactions has the same outcome staged and direct. *)

From S2P Require Import Prelude GoLib Sha256 Merkle Types Strconv TxTags Text Json JsonPrint Economics Address CanonicalTx.
From S2P Require Import FairOrdering Validator SignBytes StateProof Store Staged Bank Ante Events App.
From S2P Require Import BlockExecution Evidence Slashing Staking.

Lemma staking_valid : valid_namespace StakingName.
Proof. by split. Qed.

Lemma staking_bankBalanceKey_eq address : staking_bankBalanceKey address = balanceKey address.
Proof. rewrite <-bankBalanceKey_eq. done. Qed.

#[global] Hint Resolve staking_valid : core.
#[global] Hint Extern 1 (_ ≠ []) => (apply bytes_of_string_nonempty; discriminate) : core.

(** A write of the module under one of its keys. *)
Ltac valid_writes := repeat (apply Forall_cons; split; [by split; cbn; auto|]); try done.

(** ** Writes *)

Lemma replace_entries_valid d v entries total release ids total' release' ws :
  replace_entries d v entries total release = Ok (ids, total', release', ws) → Forall valid_write ws.
Proof.
  revert total release ids total' release' ws.
  induction entries as [|e entries IH]; intros total release ids total' release' ws HR; cbn in HR.
  { by injection HR as _ _ _ <-. }
  result_inv HR. destruct r2 as [[[ids' t'] n'] ws']. injection HR as _ _ _ <-.
  apply IH in HR3. valid_writes.
Qed.

Lemma replace_writes_valid d v entries nextID ws :
  replaceUnbondingEntriesWritesWithNextID d v entries nextID = Ok ws → Forall valid_write ws.
Proof.
  unfold replaceUnbondingEntriesWritesWithNextID. intros HR. result_inv HR.
  destruct r as [[[ids t] n] ws']. injection HR as <-. apply Forall_app. split; [by eapply replace_entries_valid|].
  case_bool_decide; valid_writes.
Qed.

(** ** Reading *)

Section reading.
Context {T1 T2 : Type} `{LawfulSnapshot T1} `{!BatchStore T1} `{LawfulSnapshot T2} `{!BatchStore T2}.
Context (s1 : T1) (s2 : T2) (Hs : store_sim s1 s2).

Lemma get_optional_sim ns k :
  valid_namespace ns → k ≠ [] → get_optional s1 None ns k = get_optional s2 None ns k.
Proof. intros Hns Hk. unfold get_optional. by rewrite (Get_sim s1 s2). Qed.

Lemma getUint64_sim k : k ≠ [] → getUint64 s1 None k = getUint64 s2 None k.
Proof. intros Hk. unfold getUint64. by rewrite get_optional_sim. Qed.

Lemma getModuleAmountBig_sim k : k ≠ [] → getModuleAmountBig s1 None k = getModuleAmountBig s2 None k.
Proof. intros Hk. unfold getModuleAmountBig. by rewrite get_optional_sim. Qed.

Lemma staking_bankBalanceBig_sim address :
  address ≠ "" → staking_bankBalanceBig s1 None address = staking_bankBalanceBig s2 None address.
Proof.
  intros Ha. unfold staking_bankBalanceBig. rewrite staking_bankBalanceKey_eq.
  by rewrite !get_optional_sim by auto.
Qed.

Lemma Tombstoned_sim v : Tombstoned s1 None v = Tombstoned s2 None v.
Proof. unfold Tombstoned. by rewrite get_optional_sim by auto. Qed.

Lemma load_entries_sim d v ids : load_entries s1 None d v ids = load_entries s2 None d v ids.
Proof.
  induction ids as [|id ids IH]; [done|]. cbn [load_entries].
  rewrite (Get_sim s1 s2) by auto. by rewrite IH.
Qed.

Lemma loadUnbondingEntries_sim d v :
  loadUnbondingEntries s1 None d v = loadUnbondingEntries s2 None d v.
Proof.
  unfold loadUnbondingEntries. rewrite get_optional_sim, !getUint64_sim by auto.
  destruct (get_optional s2 None StakingName (unbondingIndexKey d v)) as [raw|e]; [|done].
  cbn [mbind result_bind]. case_bool_decide; [|done].
  destruct (parse_document (default [] raw) ≫= decode_uints); [|done]. by rewrite load_entries_sim.
Qed.

Lemma export_sim ns :
  valid_namespace ns →
  ∃ e1 e2, store_ExportNamespace (S:=T1) = Some e1 ∧ store_ExportNamespace (S:=T2) = Some e2 ∧
    e1 s1 None ns = e2 s2 None ns.
Proof.
  intros Hns. destruct Hs as (Hok1 & Hok2 & Hc).
  destruct (ExportNamespace_listing s1 ns Hok1 Hns) as (e1 & p1 & E1 & R1 & L1).
  destruct (ExportNamespace_listing s2 ns Hok2 Hns) as (e2 & p2 & E2 & R2 & L2).
  exists e1, e2. split; [done|]. split; [done|]. rewrite R1, R2. f_equal.
  apply (listing_unique ns _ _ _ _ L1 L2). intros k. by apply Hc.
Qed.

Lemma applyAtomicWrites_op {T} `{ReliableStore T} `{!BatchStore T} (s : T) ws :
  store_ok s → Forall valid_write ws → applyAtomicWrites s None ws = (run_op s (OpBatch ws), Ok tt).
Proof.
  intros Hok Hws. rewrite <-apply_writes_op by done. unfold applyAtomicWrites, apply_writes.
  pose proof (has_batch (T:=T)). by destruct store_SetBatch.
Qed.

Lemma batch_alike ws :
  Forall valid_write ws →
  alike s1 s2 (Some (run_op s1 (OpBatch ws))) (Some (run_op s2 (OpBatch ws))).
Proof. intros Hws. by apply alike_op. Qed.
End reading.

(** ** What each action writes *)

Section writes.
Context {T : Type} `{!StateStore T} `{!SnapshotStore T}.

Lemma delegate_writes_valid (s : T) ctx d v amount key ws u :
  delegate_writes s ctx d v amount key = Ok (ws, u) → Forall valid_write ws.
Proof.
  intros HD. unfold delegate_writes in HD. result_inv HD. subst ws.
  rewrite negb_true_iff, !orb_false_iff, !bool_decide_eq_false in HD0. destruct HD0 as [[Hd _] _].
  rewrite staking_bankBalanceKey_eq. valid_writes.
Qed.

Lemma undelegate_writes_valid module (s : T) ctx height d v amount ws p :
  undelegate_writes module s ctx height d v amount = Ok (ws, p) → Forall valid_write ws.
Proof.
  intros HD. unfold undelegate_writes in HD. result_inv HD. subst ws.
  cbn [app]. valid_writes. unfold appendUnbondingEntryWrites in HD9. result_inv HD9.
  destruct (assign_ids _ _). by eapply replace_writes_valid.
Qed.

Lemma claimRewards_writes_valid (s : T) ctx d v ws :
  claimRewards_writes s ctx d v = Ok ws → Forall valid_write ws.
Proof.
  intros HD. unfold claimRewards_writes in HD. result_inv HD. subst ws.
  rewrite negb_true_iff, !orb_false_iff, !bool_decide_eq_false in HD0. destruct HD0 as [Hd _].
  rewrite staking_bankBalanceKey_eq. valid_writes.
Qed.

Lemma withdrawUnbonded_writes_valid (s : T) ctx height d v ws :
  withdrawUnbonded_writes s ctx height d v = Ok ws → Forall valid_write ws.
Proof.
  intros HD. unfold withdrawUnbonded_writes in HD. result_inv HD. subst ws.
  rewrite negb_true_iff, !orb_false_iff, !bool_decide_eq_false in HD0. destruct HD0 as [Hd _].
  rewrite staking_bankBalanceKey_eq. apply Forall_cons. split; [by split; cbn; auto|]. apply Forall_app. split.
  - by eapply replace_writes_valid.
  - apply Forall_fmap, Forall_true. intros e. by split; cbn; auto.
Qed.

Lemma reward_writes_valid (s : T) ctx entries ws : reward_writes s ctx entries = Ok ws → Forall valid_write ws.
Proof.
  revert ws. induction entries as [|[key amount] entries IH]; intros ws HR; cbn in HR.
  { by injection HR as <-. }
  destruct (splitRewardMapKey key) as [d v]. result_inv HR. subst ws. apply Forall_cons. split; [|by apply IH].
  by split; cbn; auto.
Qed.

Lemma fees_writes_valid order module (s : T) ctx ws :
  feeCollector module ≠ "" → fees_writes order module s ctx = Ok (Some ws) → Forall valid_write ws.
Proof.
  intros Hc HF. unfold fees_writes in HF. apply bind_Ok in HF as (balance & _ & HF).
  case_bool_decide; [done|]. destruct store_ExportNamespace; [|done].
  apply bind_Ok in HF as (pairs & _ & HF). apply bind_Ok in HF as ([vs ds] & _ & HF).
  apply bind_Ok in HF as (total & _ & HF). case_bool_decide; [done|].
  apply bind_Ok in HF as ([byV stakes] & _ & HF). apply bind_Ok in HF as ([rewards dist] & _ & HF).
  case_bool_decide; [done|]. apply bind_Ok in HF as (ws' & HR & HF). injection HF as <-.
  rewrite staking_bankBalanceKey_eq. apply Forall_cons. split; [by split; cbn; auto|]. by eapply reward_writes_valid.
Qed.

Lemma slashing_writes_valid (s : T) ctx receipt ws :
  slashing_writes s ctx receipt = Ok (Some ws) → Forall valid_write ws.
Proof.
  intros HS. unfold slashing_writes in HS. apply bind_Ok in HS as (_ & _ & HS).
  apply bind_Ok in HS as (_ & Hk%check_Ok & HS). apply bind_Ok in HS as ([?|] & _ & HS); [done|].
  destruct store_ExportNamespace; [|done]. apply bind_Ok in HS as (pairs & _ & HS). injection HS as <-.
  apply negb_true_iff, bool_decide_eq_false in Hk.
  assert (stakingSlashKey (Receipt_Evidence receipt) ≠ []) as Hne by (by destruct (stakingSlashKey _)).
  repeat (apply Forall_cons; split; [by split; cbn; auto|]). apply Forall_app. split.
  - case_bool_decide; valid_writes.
  - apply Forall_fmap, Forall_true. intros d. cbn. unfold slash_write. case_bool_decide; by split; cbn; auto.
Qed.
End writes.

(** ** The module keeps the promise of a module *)

Definition staking_module_ok (module : StakingModule) : Prop :=
  feeCollector module ≠ "" ∧ 0 ≤ maxCommissionBPS module ≤ commissionDenominatorBPS ∧
  is_u64 (unbondingDelay module) ∧ unbondingDelay module ≠ 0.

Section runs.
Context {T1 T2 : Type} `{LawfulSnapshot T1} `{!BatchStore T1} `{LawfulSnapshot T2} `{!BatchStore T2}.

(** Two runs with the same outcome and the same operations. *)
Definition same_run {A} (s1 : T1) (s2 : T2) (p1 : T1 * result A) (p2 : T2 * result A) : Prop :=
  ∃ s1' s2' r, p1 = (s1', r) ∧ p2 = (s2', r) ∧ alike s1 s2 (Some s1') (Some s2').

Context (s1 : T1) (s2 : T2) (Hs : store_sim s1 s2).

Lemma same_run_refl {A} (r : result A) : same_run s1 s2 (s1, r) (s2, r).
Proof. unfold same_run. unchanged. Qed.

Lemma atomic_run ws1 ws2 :
  ws1 = ws2 → (∀ ws, ws1 = Ok ws → Forall valid_write ws) →
  same_run s1 s2 (atomically s1 None ws1) (atomically s2 None ws2).
Proof.
  intros <- Hv. pose proof Hs as (Hok1 & Hok2 & _). unfold atomically.
  destruct ws1 as [ws|e]; [|apply same_run_refl]. specialize (Hv ws eq_refl).
  rewrite !applyAtomicWrites_op by done. eexists _, _, _. split_and!; [done..|]. by apply batch_alike.
Qed.

Lemma delegate_run d v amount key :
  same_run s1 s2 (delegate s1 None d v amount key) (delegate s2 None d v amount key).
Proof.
  pose proof Hs as (Hok1 & Hok2 & _). unfold delegate.
  assert (delegate_writes s1 None d v amount key = delegate_writes s2 None d v amount key) as ->.
  { unfold delegate_writes, Stake, ValidatorPower. destruct (decide (d = "")) as [->|Hd]; [done|].
    by rewrite (Tombstoned_sim s1 s2), (staking_bankBalanceBig_sim s1 s2), !(getUint64_sim s1 s2) by auto. }
  destruct (delegate_writes s2 None d v amount key) as [[ws u]|e] eqn:E; [|apply same_run_refl].
  apply delegate_writes_valid in E. rewrite !applyAtomicWrites_op by done.
  eexists _, _, _. split_and!; [done..|]. by apply batch_alike.
Qed.

Lemma undelegate_run module height d v amount :
  same_run s1 s2 (undelegate module s1 None height d v amount) (undelegate module s2 None height d v amount).
Proof.
  pose proof Hs as (Hok1 & Hok2 & _). unfold undelegate.
  assert (undelegate_writes module s1 None height d v amount =
    undelegate_writes module s2 None height d v amount) as ->.
  { unfold undelegate_writes, Stake, ValidatorPower, appendUnbondingEntryWrites.
    by rewrite (loadUnbondingEntries_sim s1 s2), !(getUint64_sim s1 s2) by auto. }
  destruct (undelegate_writes module s2 None height d v amount) as [[ws p]|e] eqn:E; [|apply same_run_refl].
  apply undelegate_writes_valid in E. rewrite !applyAtomicWrites_op by done.
  pose proof (batch_alike s1 s2 ws E) as Ha.
  destruct (alike_sim s1 s2 _ _ Hs Ha) as (? & ? & [= <-] & [= <-] & Hs').
  rewrite (get_optional_sim _ _ Hs') by auto.
  destruct (get_optional _ None StakingName (validatorKeyKey v)); by eexists _, _, _.
Qed.

Lemma claimRewards_run d v : same_run s1 s2 (claimRewards s1 None d v) (claimRewards s2 None d v).
Proof.
  apply atomic_run; [|by apply claimRewards_writes_valid].
  unfold claimRewards_writes, RewardsBig. destruct (decide (d = "")) as [->|Hd]; [done|].
  by rewrite (getModuleAmountBig_sim s1 s2), (staking_bankBalanceBig_sim s1 s2) by auto.
Qed.

Lemma withdrawUnbonded_run height d v :
  same_run s1 s2 (withdrawUnbonded s1 None height d v) (withdrawUnbonded s2 None height d v).
Proof.
  apply atomic_run; [|by apply withdrawUnbonded_writes_valid].
  unfold withdrawUnbonded_writes. destruct (decide (d = "")) as [->|Hd]; [done|].
  by rewrite (loadUnbondingEntries_sim s1 s2), (staking_bankBalanceBig_sim s1 s2) by auto.
Qed.

Lemma unjail_run v : same_run s1 s2 (unjail s1 None v) (unjail s2 None v).
Proof.
  pose proof Hs as (Hok1 & Hok2 & _). unfold unjail. rewrite (Tombstoned_sim s1 s2) by done.
  destruct (Tombstoned s2 None v ≫= _); [|apply same_run_refl].
  pose proof (Delete_total s1 StakingName (jailKey v) Hok1 ltac:(auto) ltac:(auto)) as D1.
  pose proof (Delete_total s2 StakingName (jailKey v) Hok2 ltac:(auto) ltac:(auto)) as D2.
  exists (run_op s1 (OpDelete StakingName (jailKey v))), (run_op s2 (OpDelete StakingName (jailKey v))), (Ok tt).
  rewrite <-D1 at 1. rewrite <-D2 at 1. split; [apply surjective_pairing|]. split; [apply surjective_pairing|].
  apply alike_op. apply Forall_singleton. by split; cbn; auto.
Qed.

Lemma setUint64_run k amount :
  k ≠ [] → same_run s1 s2 (setUint64 s1 None StakingName k amount) (setUint64 s2 None StakingName k amount).
Proof.
  intros Hk. pose proof Hs as (Hok1 & Hok2 & _). unfold setUint64. rewrite !store_Set_op by auto.
  eexists _, _, _. split_and!; [done..|]. apply alike_op, Forall_singleton. by split.
Qed.

Lemma setCommission_run module tx v bps :
  same_run s1 s2 (setCommission module s1 None tx v bps) (setCommission module s2 None tx v bps).
Proof.
  unfold setCommission. destruct (_ || _); [apply same_run_refl|].
  destruct (TxTag tx "signer") as [signer|]; [|apply same_run_refl].
  case_bool_decide; [|apply same_run_refl]. by apply setUint64_run; auto.
Qed.

Lemma share_fees_sim balance total byV stakes validators rewards dist :
  share_fees s1 None balance total byV stakes validators rewards dist =
  share_fees s2 None balance total byV stakes validators rewards dist.
Proof.
  revert rewards dist. induction validators as [|v validators IH]; intros rewards dist; [done|].
  cbn [share_fees]. unfold Commission. rewrite (getUint64_sim s1 s2) by auto. rewrite IH.
  case_bool_decide; [done|]. destruct (getUint64 s2 None _) as [bps|e]; [|done]. cbn [mbind result_bind].
  destruct (share_fee _ _ _ _ _ rewards); [|done]. cbn [mbind result_bind]. apply IH.
Qed.

Lemma reward_writes_sim entries : reward_writes s1 None entries = reward_writes s2 None entries.
Proof.
  induction entries as [|[key amount] entries IH]; [done|]. cbn [reward_writes].
  destruct (splitRewardMapKey key) as [d v]. unfold RewardsBig.
  by rewrite (getModuleAmountBig_sim s1 s2), IH by auto.
Qed.

Lemma distributeFees_run order module :
  feeCollector module ≠ "" →
  same_run s1 s2 (distributeFees order module s1 None) (distributeFees order module s2 None).
Proof.
  intros Hc. pose proof Hs as (Hok1 & Hok2 & _). unfold distributeFees.
  assert (fees_writes order module s1 None = fees_writes order module s2 None) as ->.
  { unfold fees_writes. rewrite (staking_bankBalanceBig_sim s1 s2) by auto.
    destruct (export_sim s1 s2 Hs StakingName staking_valid) as (e1 & e2 & -> & -> & E). rewrite E.
    destruct (staking_bankBalanceBig s2 None _) as [balance|e]; [|done]. cbn [mbind result_bind].
    case_bool_decide; [done|]. destruct (e2 s2 None StakingName) as [pairs|e]; [|done]. cbn [mbind result_bind].
    destruct (stakingRewardInputs pairs) as [[vs ds]|e]; [|done]. cbn [mbind result_bind].
    destruct (totalValidatorPower vs) as [total|e]; [|done]. cbn [mbind result_bind].
    case_bool_decide; [done|]. destruct (group_delegations ds ∅ ∅) as [[byV stakes]|e]; [|done].
    cbn [mbind result_bind]. rewrite share_fees_sim. destruct (share_fees s2 _ _ _ _ _ _ _ _) as [[rewards dist]|e]; [|done].
    cbn [mbind result_bind]. case_bool_decide; [done|]. by rewrite reward_writes_sim. }
  destruct (fees_writes order module s2 None) as [[ws|]|e] eqn:E; [|apply same_run_refl..].
  apply fees_writes_valid in E; [|done]. rewrite !applyAtomicWrites_op by done.
  eexists _, _, _. split_and!; [done..|]. by apply batch_alike.
Qed.
End runs.

Section deliver.
Context {T1 T2 : Type} `{LawfulSnapshot T1} `{!BatchStore T1} `{LawfulSnapshot T2} `{!BatchStore T2}.
Context (error_text : error → string).
Context (s1 : T1) (s2 : T2) (Hs : store_sim s1 s2).

(** The same result, gas and good module, and the same operations. *)
Definition same_delivery (p1 : StakingModule * T1 * option GasMeter * Result)
    (p2 : StakingModule * T2 * option GasMeter * Result) : Prop :=
  ∃ m s1' s2' gas r, p1 = (m, s1', gas, r) ∧ p2 = (m, s2', gas, r) ∧ staking_module_ok m ∧
    alike s1 s2 (Some s1') (Some s2').

Context (module : StakingModule) (Hm : staking_module_ok module).

Lemma same_delivery_refl gas r : same_delivery (module, s1, gas, r) (module, s2, gas, r).
Proof. unfold same_delivery. unchanged. Qed.

Lemma with_gas_alike gas cost run1 run2 :
  (∀ gas, same_delivery (run1 gas) (run2 gas)) →
  same_delivery (with_gas error_text module s1 gas cost run1) (with_gas error_text module s2 gas cost run2).
Proof.
  intros Hrun. unfold with_gas. destruct (Gas_Consume gas cost) as [gas' [u|e]]; [apply Hrun|].
  apply same_delivery_refl.
Qed.

Lemma finish_alike gas p1 p2 :
  same_run s1 s2 p1 p2 → same_delivery (finish error_text module gas p1) (finish error_text module gas p2).
Proof.
  intros (s1' & s2' & r & -> & -> & Ha). unfold finish. destruct r; by eexists _, _, _, _, _.
Qed.

Lemma finish_update_alike gas p1 p2 :
  same_run s1 s2 p1 p2 →
  same_delivery (finish_update error_text module gas p1) (finish_update error_text module gas p2).
Proof.
  intros (s1' & s2' & r & -> & -> & Ha). unfold finish_update.
  destruct r; eexists _, _, _, _, _; split_and!; try done; by destruct Hm as (? & ? & ?).
Qed.

Lemma deliver_parts_alike gas height tx parts :
  same_delivery (deliver_parts error_text module s1 gas None height tx parts)
    (deliver_parts error_text module s2 gas None height tx parts).
Proof.
  pose proof same_delivery_refl as Hr. unfold deliver_parts.
  destruct parts as [|action [|a [|b [|c [|k [|? ?]]]]]]; try apply Hr.
  - case_bool_decide; [|apply Hr]. apply with_gas_alike. intros g. by apply finish_alike, unjail_run.
  - case_bool_decide; [apply with_gas_alike; intros g; by apply finish_alike, claimRewards_run|].
    case_bool_decide; [apply with_gas_alike; intros g; by apply finish_alike, withdrawUnbonded_run|].
    case_bool_decide; [|apply Hr]. apply with_gas_alike. intros g. destruct (parse_uint b); [|apply Hr].
    by apply finish_alike, setCommission_run.
  - case_bool_decide; [|apply Hr]. apply with_gas_alike. intros g.
    destruct (staking_parseAmount c); [|apply Hr]. by apply finish_update_alike, undelegate_run.
  - case_bool_decide; [|apply Hr]. apply with_gas_alike. intros g.
    destruct (staking_parseAmount c); [|apply Hr].
    destruct (base64_decode k) as [[|x key]|]; [apply Hr| |apply Hr]. by apply finish_update_alike, delegate_run.
Qed.
End deliver.

#[global] Program Instance staking_lawful (error_text : error → string)
    (genesis_order : MapOrder string bytes) (order : MapOrder string Z)
    : LawfulModule (ModuleOps0 := staking_ops error_text genesis_order order) StakingModule := {|
  mod_ok := staking_module_ok
|}.
Next Obligation. intros. apply staking_valid. Qed.
Next Obligation. intros. unchanged. Qed.
Next Obligation.
  intros error_text ? order T1 ?????? T2 ?????? module actx s1 s2 gas tx Hm Hctx Hs.
  cbn [mod_DeliverTx staking_ops]. rewrite Hctx. unfold Staking_DeliverTx.
  destruct (stakingTxParts tx) as [|name parts]; [unchanged|]. case_bool_decide; [|unchanged].
  destruct (deliver_parts_alike error_text s1 s2 Hs module Hm gas (actx_Height actx) tx parts)
    as (m & s1' & s2' & gas' & r & -> & -> & Hm' & Ha).
  by eexists _, _, _, _, _.
Qed.
Next Obligation.
  intros error_text ? order T1 ?????? T2 ?????? module actx s1 s2 Hm Hctx Hs.
  cbn [mod_EndBlock staking_ops]. rewrite Hctx. unfold Staking_EndBlock.
  destruct (distributeFees_run s1 s2 Hs order module (proj1 Hm)) as (s1' & s2' & r & -> & -> & Ha).
  by eexists _, _, _, _.
Qed.
Next Obligation. done. Qed.
Next Obligation. done. Qed.

Lemma NewModuleWithPolicy_ok policy :
  is_u64 (Policy_UnbondingDelay policy) → 0 ≤ Policy_MaxCommissionBPS policy →
  staking_module_ok (NewModuleWithPolicy policy).
Proof.
  intros Hd Hc. unfold NewModuleWithPolicy, staking_module_ok. cbn. split_and!.
  - by case_bool_decide.
  - repeat case_bool_decide; unfold commissionDenominatorBPS in *; lia.
  - repeat case_bool_decide; unfold commissionDenominatorBPS in *; lia.
  - by case_bool_decide.
  - by case_bool_decide.
Qed.

(** ** Modules of two kinds *)

(** An application of modules of either kind. *)
#[global] Instance sum_ops {M1 M2} `{!ModuleOps M1} `{!ModuleOps M2} : ModuleOps (M1 + M2) := {|
  mod_Name m := match m with inl m => mod_Name m | inr m => mod_Name m end;
  mod_InitGenesis _ _ _ m actx store genesis :=
    match m with
    | inl m => let '(m, store, r) := mod_InitGenesis m actx store genesis in (inl m, store, r)
    | inr m => let '(m, store, r) := mod_InitGenesis m actx store genesis in (inr m, store, r)
    end;
  mod_BeginBlock _ _ _ m actx store header :=
    match m with
    | inl m => let '(m, store, r) := mod_BeginBlock m actx store header in (inl m, store, r)
    | inr m => let '(m, store, r) := mod_BeginBlock m actx store header in (inr m, store, r)
    end;
  mod_DeliverTx _ _ _ m actx store gas tx :=
    match m with
    | inl m => let '(m, store, gas, r) := mod_DeliverTx m actx store gas tx in (inl m, store, gas, r)
    | inr m => let '(m, store, gas, r) := mod_DeliverTx m actx store gas tx in (inr m, store, gas, r)
    end;
  mod_EndBlock _ _ _ m actx store :=
    match m with
    | inl m => let '(m, store, r) := mod_EndBlock m actx store in (inl m, store, r)
    | inr m => let '(m, store, r) := mod_EndBlock m actx store in (inr m, store, r)
    end;
  mod_EstimateGas _ _ _ m := match m with inl m => mod_EstimateGas m | inr m => mod_EstimateGas m end;
  mod_ValidateTx _ _ _ m := match m with inl m => mod_ValidateTx m | inr m => mod_ValidateTx m end;
  mod_Events _ _ _ m := match m with inl m => mod_Events m | inr m => mod_Events m end;
  mod_ValidatorUpdates _ _ _ m :=
    match m with inl m => mod_ValidatorUpdates m | inr m => mod_ValidatorUpdates m end;
  mod_Query _ _ _ m := match m with inl m => mod_Query m | inr m => mod_Query m end;
  mod_BindStore _ _ _ m :=
    match m with
    | inl m => (λ bind actx store, let '(m, r) := bind actx store in (inl m, r)) <$> mod_BindStore m
    | inr m => (λ bind actx store, let '(m, r) := bind actx store in (inr m, r)) <$> mod_BindStore m
    end;
  mod_CloneModule m :=
    match m with inl m => inl <$> mod_CloneModule m | inr m => inr <$> mod_CloneModule m end
|}.

#[global] Program Instance sum_lawful {M1 M2} `{LawfulModule M1} `{LawfulModule M2} : LawfulModule (M1 + M2) := {|
  mod_ok m := match m with inl m => mod_ok m | inr m => mod_ok m end
|}.
Next Obligation. intros M1 M2 ???? [m|m]; apply (name_valid m). Qed.
Next Obligation.
  intros M1 M2 ???? T1 ?????? T2 ?????? [m|m] actx s1 s2 header Hm Hctx Hs; cbn [mod_BeginBlock sum_ops];
    destruct (begin_alike m actx s1 s2 header Hm Hctx Hs) as (m' & o1 & o2 & r & -> & -> & ? & ?);
    by eexists _, _, _, _.
Qed.
Next Obligation.
  intros M1 M2 ???? T1 ?????? T2 ?????? [m|m] actx s1 s2 gas tx Hm Hctx Hs; cbn [mod_DeliverTx sum_ops];
    destruct (deliver_alike m actx s1 s2 gas tx Hm Hctx Hs) as (m' & o1 & o2 & gas' & r & -> & -> & ? & ?);
    by eexists _, _, _, _, _.
Qed.
Next Obligation.
  intros M1 M2 ???? T1 ?????? T2 ?????? [m|m] actx s1 s2 Hm Hctx Hs; cbn [mod_EndBlock sum_ops];
    destruct (end_alike m actx s1 s2 Hm Hctx Hs) as (m' & o1 & o2 & r & -> & -> & ? & ?);
    by eexists _, _, _, _.
Qed.
Next Obligation.
  intros M1 M2 ???? T1 ????? T2 ????? [m|m] actx s1 s2 tx r Hm Hctx Hs; apply (events_alike m actx s1 s2 tx r Hm Hctx Hs).
Qed.
Next Obligation.
  intros M1 M2 ???? T1 ????? T2 ????? [m|m] actx s1 s2 Hm Hctx Hs; apply (updates_alike m actx s1 s2 Hm Hctx Hs).
Qed.
