(* ===== verification/StakingLedger.v ===== *)
(** * Coins of the staking module ([src/modules/staking/staking.go])

    The coins of the chain are the balances of the bank, the stakes, the amounts
    being unbonded and the rewards.  This file shows what every action does to
    their sum and that the records of the module stay well formed. *)

From S2P Require Import Prelude GoLib Sha256 Merkle Types Strconv TxTags Text Json JsonPrint Economics Address CanonicalTx.
From S2P Require Import FairOrdering Validator SignBytes StateProof Store Staged Bank Ante Events App.
From S2P Require Import BlockExecution Evidence Slashing Staking StakingStore.

(** ** Contents after writes *)

Definition write_key (w : KVWrite) : string * bytes := (KW_Namespace w, KW_Key w).
Definition write_value (w : KVWrite) : option bytes := if KW_Delete w then None else Some (KW_Value w).

Lemma write_content_key w c ns k :
  write_content w c ns k = if decide (write_key w = (ns, k)) then write_value w else c ns k.
Proof.
  unfold write_content, write_key, write_value. apply decide_ext.
  split; [by intros [-> ->]|by intros [= -> ->]].
Qed.

Lemma writes_content_out ws c ns k :
  (ns, k) ∉ write_key <$> ws → writes_content ws c ns k = c ns k.
Proof.
  revert c. induction ws as [|w ws IH]; intros c Hn; [done|].
  rewrite fmap_cons, not_elem_of_cons in Hn. destruct Hn as [Hw Hn]. unfold writes_content. cbn [foldl].
  fold (writes_content ws (write_content w c)). rewrite IH by done. rewrite write_content_key.
  by rewrite decide_False.
Qed.

Lemma writes_content_in ws c w :
  NoDup (write_key <$> ws) → w ∈ ws →
  writes_content ws c (KW_Namespace w) (KW_Key w) = write_value w.
Proof.
  revert c. induction ws as [|w' ws IH]; intros c Hnd Hw; [by apply elem_of_nil in Hw|].
  rewrite fmap_cons, NoDup_cons in Hnd. destruct Hnd as [Hn Hnd].
  unfold writes_content. cbn [foldl]. fold (writes_content ws (write_content w' c)).
  apply elem_of_cons in Hw as [->|Hw]; [|by apply IH].
  rewrite writes_content_out by done. rewrite write_content_key. by rewrite decide_True.
Qed.

(** ** Sums over maps *)

Section totals.
Context {K V : Type} `{Countable K} (w : K → V → Z).

Definition map_total (m : gmap K V) : Z := sumZ ((λ p, w p.1 p.2) <$> map_to_list m).

Lemma map_total_delete m k : map_total (delete k m) = map_total m - from_option (w k) 0 (m !! k).
Proof.
  unfold map_total. destruct (m !! k) as [v|] eqn:E.
  - rewrite <-(map_to_list_delete m k v E). cbn [fmap list_fmap from_option fst snd]. rewrite sumZ_cons. lia.
  - rewrite delete_id by done. cbn. lia.
Qed.

Lemma map_total_insert m k v :
  map_total (<[k := v]> m) = map_total m - from_option (w k) 0 (m !! k) + w k v.
Proof.
  rewrite <-map_total_delete, <-insert_delete_eq. unfold map_total at 1.
  rewrite map_to_list_insert by apply lookup_delete_eq. cbn [fmap list_fmap fst snd]. rewrite sumZ_cons.
  unfold map_total. lia.
Qed.
End totals.

(** ** Sums over records *)

(** The sum of the numbers kept at some places of the two namespaces. *)
Section sums.
Context (counted : string * bytes → bool).

(** What a value counts at its place. *)
Definition worth (p : string * bytes) (v : bytes) : Z := if counted p then be_decode v else 0.

Definition worth_at (c : Content) (p : string * bytes) : Z := from_option (worth p) 0 (c p.1 p.2).

Definition total_of (c : Content) (n : Z) : Prop :=
  ∃ mb ms, (∀ k, c BankName k = mb !! k) ∧ (∀ k, c StakingName k = ms !! k) ∧
    n = map_total (λ k, worth (BankName, k)) mb + map_total (λ k, worth (StakingName, k)) ms.

Lemma total_unique c n1 n2 : total_of c n1 → total_of c n2 → n1 = n2.
Proof.
  intros (mb1 & ms1 & Hb1 & Hs1 & ->) (mb2 & ms2 & Hb2 & Hs2 & ->).
  assert (mb1 = mb2) as -> by (apply map_eq; intros k; by rewrite <-Hb1, Hb2).
  assert (ms1 = ms2) as -> by (apply map_eq; intros k; by rewrite <-Hs1, Hs2). done.
Qed.

Lemma total_ext c1 c2 n : same_content c1 c2 → total_of c1 n → total_of c2 n.
Proof.
  intros Hc (mb & ms & Hb & Hs & ->). exists mb, ms. split_and!; [| |done]; intros k.
  - rewrite <-Hb. symmetry. by apply Hc.
  - rewrite <-Hs. symmetry. by apply Hc.
Qed.

(** What a write adds to the sum. *)
Definition gain_of (c : Content) (w : KVWrite) : Z :=
  from_option (worth (write_key w)) 0 (write_value w) - worth_at c (write_key w).

Context (Hcounted : ∀ p, counted p = true → p.1 = BankName ∨ p.1 = StakingName).

Lemma total_write w c n : total_of c n → total_of (write_content w c) (n + gain_of c w).
Proof.
  intros (mb & ms & Hb & Hs & ->). unfold total_of, gain_of, worth_at.
  assert (∀ m k, map_total (λ k, worth (KW_Namespace w, k)) (partial_alter (λ _, write_value w) k m) =
    map_total (λ k, worth (KW_Namespace w, k)) m - from_option (worth (KW_Namespace w, k)) 0 (m !! k) +
    from_option (worth (KW_Namespace w, k)) 0 (write_value w)) as Hm.
  { intros m k. destruct (write_value w) as [v|]; [exact (map_total_insert _ m k v)|].
    etrans; [exact (map_total_delete _ m k)|]. cbn [from_option]. lia. }
  destruct (decide (KW_Namespace w = BankName)) as [Ew|Ew]; [|destruct (decide (KW_Namespace w = StakingName)) as [Es|Es]].
  - exists (partial_alter (λ _, write_value w) (KW_Key w) mb), ms. split_and!.
    + intros k. rewrite write_content_key. unfold write_key. rewrite Ew. case_decide as Hk.
      * injection Hk as ->. by rewrite lookup_partial_alter_eq.
      * rewrite lookup_partial_alter_ne by congruence. apply Hb.
    + intros k. rewrite write_content_key. unfold write_key. rewrite Ew. by rewrite decide_False.
    + specialize (Hm mb (KW_Key w)). unfold write_key. rewrite Ew in *. cbn [fst snd]. rewrite Hb. lia.
  - exists mb, (partial_alter (λ _, write_value w) (KW_Key w) ms). split_and!.
    + intros k. rewrite write_content_key. unfold write_key. rewrite Es. by rewrite decide_False.
    + intros k. rewrite write_content_key. unfold write_key. rewrite Es. case_decide as Hk.
      * injection Hk as ->. by rewrite lookup_partial_alter_eq.
      * rewrite lookup_partial_alter_ne by congruence. apply Hs.
    + specialize (Hm ms (KW_Key w)). unfold write_key. rewrite Es in *. cbn [fst snd]. rewrite Hs. lia.
  - exists mb, ms. assert (counted (write_key w) = false) as Hf.
    { destruct (counted (write_key w)) eqn:E; [|done]. by apply Hcounted in E as [?|?]. }
    split_and!.
    + intros k. rewrite write_content_key. rewrite decide_False; [apply Hb|]. unfold write_key. congruence.
    + intros k. rewrite write_content_key. rewrite decide_False; [apply Hs|]. unfold write_key. congruence.
    + unfold worth at 3 4. rewrite Hf. destruct (write_value w), (c _ _); cbn [from_option]; lia.
Qed.

Definition counts (w : KVWrite) : Prop := counted (write_key w) = true.
#[global] Instance counts_dec w : Decision (counts w).
Proof. unfold counts. apply _. Defined.

Lemma gain_of_other w w' c :
  (counts w → write_key w' ≠ write_key w) → gain_of (write_content w' c) w = gain_of c w.
Proof.
  intros Hw. unfold gain_of, worth_at, worth. destruct (counted (write_key w)) eqn:E.
  - rewrite write_content_key. change ((write_key w).1, (write_key w).2) with (write_key w).
    by rewrite decide_False by auto.
  - by destruct (c _ _), (write_content w' c _ _).
Qed.

(** A batch that writes each record of coins at most once. *)
Lemma total_writes ws c n :
  NoDup (write_key <$> filter counts ws) → total_of c n →
  total_of (writes_content ws c) (n + sumZ (gain_of c <$> ws)).
Proof.
  revert c n. induction ws as [|w ws IH]; intros c n Hnd Hsup.
  { change (sumZ (gain_of c <$> [])) with 0. by rewrite Z.add_0_r. }
  assert (NoDup (write_key <$> filter counts ws)) as Hnd'.
  { rewrite filter_cons in Hnd. case_decide; [|done]. by apply NoDup_cons in Hnd as [_ ?]. }
  pose proof (IH _ _ Hnd' (total_write w c n Hsup)) as HI. cbn [fmap list_fmap]. rewrite sumZ_cons.
  replace (gain_of c <$> ws) with (gain_of (write_content w c) <$> ws); [by rewrite Z.add_assoc|].
  apply list_fmap_ext. intros i w' Hw'%list_elem_of_lookup_2. apply gain_of_other. intros Hc Heq.
  rewrite filter_cons in Hnd. assert (counts w) as Hcw by (unfold counts; by rewrite Heq).
  rewrite decide_True in Hnd by done. apply NoDup_cons in Hnd as [Hn _]. apply Hn. rewrite Heq.
  apply list_elem_of_fmap_2, list_elem_of_filter. by split.
Qed.

Lemma gain_of_uncounted c w : ¬ counts w → gain_of c w = 0.
Proof.
  intros Hw. unfold gain_of, worth_at, worth, counts in *. destruct (counted (write_key w)); [done|].
  by destruct (write_value w), (c _ _).
Qed.

Lemma gains_of_filter c ws : sumZ (gain_of c <$> ws) = sumZ (gain_of c <$> filter counts ws).
Proof.
  induction ws as [|w ws IH]; [done|]. rewrite filter_cons. cbn [fmap list_fmap]. rewrite sumZ_cons, IH.
  case_decide as Hw; [done|]. rewrite gain_of_uncounted by done. lia.
Qed.

(** A batch whose counted writes are known. *)
Lemma total_counted_writes ws ws' c n :
  filter counts ws = ws' → NoDup (write_key <$> ws') → total_of c n →
  total_of (writes_content ws c) (n + sumZ (gain_of c <$> ws')).
Proof. intros <- Hnd Hsup. rewrite <-gains_of_filter. by apply total_writes. Qed.
End sums.

(** ** Coins *)

(** The records of the module that hold coins. *)
Definition coin_key (k : bytes) : bool :=
  let key := string_of_bytes k in
  has_prefix key "stake/" || has_prefix key "rewards/" || has_prefix key "unbonding_amount/".

Definition coin_place (p : string * bytes) : bool :=
  bool_decide (p.1 = BankName) || bool_decide (p.1 = StakingName) && coin_key p.2.

Lemma coin_place_namespace p : coin_place p = true → p.1 = BankName ∨ p.1 = StakingName.
Proof.
  unfold coin_place. intros [Hb|[Hs _]%andb_true_iff]%orb_true_iff; [left|right]; by eapply bool_decide_eq_true_1.
Qed.

(** The sum of all coins, and what a write adds to it. *)
Abbreviation supply := (total_of coin_place).
Abbreviation coins := (worth_at coin_place).
Abbreviation gain := (gain_of coin_place).
Abbreviation coin_write := (counts coin_place).

(** ** Keys *)

Lemma string_app_inj p a b : (p ++ a = p ++ b)%string → a = b.
Proof.
  induction p as [|x p IH]; [done|].
  change (String x p ++ ?t)%string with (String x (p ++ t)). intros H. injection H as H. by apply IH.
Qed.

(** A string is determined by what is before and after its last slash. *)
Lemma last_slash_inj x y s t :
  str_elem "/" s = false → str_elem "/" t = false → (x ++ "/" ++ s = y ++ "/" ++ t)%string → x = y ∧ s = t.
Proof.
  intros Hs Ht. revert y. induction x as [|a x IH]; intros [|b y].
  - change ("" ++ ?t)%string with t. intros H%string_app_inj. done.
  - change ("" ++ ?t)%string with t. change (String b y ++ ?t)%string with (String b (y ++ t)).
    change ("/" ++ s)%string with (String "/" s). intros [= <- ->]. by rewrite str_elem_app in Hs; cbn in Hs; destruct (str_elem "/" y).
  - change ("" ++ ?t)%string with t. change (String a x ++ ?t)%string with (String a (x ++ t)).
    change ("/" ++ t)%string with (String "/" t). intros [= -> <-]. by rewrite str_elem_app in Ht; cbn in Ht; destruct (str_elem "/" x).
  - change (String b y ++ ?t)%string with (String b (y ++ t)).
    change (String a x ++ ?t)%string with (String a (x ++ t)). intros [= -> H]. by destruct (IH y H) as [-> ->].
Qed.

Lemma pretty_go_no_slash x t : str_elem "/" (pretty_N_go x t) = str_elem "/" t.
Proof.
  revert t. induction x as [x IH] using (well_founded_induction N.lt_wf_0). intros t.
  destruct (decide (x = 0)%N) as [->|Hx]; [by rewrite pretty_N_go_0|].
  rewrite pretty_N_go_step by lia. rewrite IH by (apply N.div_lt; lia). cbn [str_elem].
  rewrite bool_decide_eq_false_2; [done|]. intros Hc.
  destruct (pretty_digit (x `mod` 10)) as [Hv _]; [by apply N.mod_lt|]. by rewrite Hc in Hv.
Qed.

Lemma format_uint_no_slash x : str_elem "/" (format_uint x) = false.
Proof. unfold format_uint, pretty, pretty_N. case_decide; [done|]. apply pretty_go_no_slash. Qed.

(** Everything about a delegation is kept under this string. *)
Definition account (d : Address) (v : ValidatorID) : string := (d ++ "/" ++ v)%string.

Definition release_key (x : string) : bytes := bytes_of_string ("unbonding/" ++ x).
Definition amount_key (x : string) : bytes := bytes_of_string ("unbonding_amount/" ++ x).
Definition entries_key (x field : string) : bytes :=
  bytes_of_string ("unbonding_entries/" ++ x ++ "/" ++ field).

Lemma entries_key_inj x y s t :
  str_elem "/" s = false → str_elem "/" t = false → entries_key x s = entries_key y t → x = y ∧ s = t.
Proof.
  intros Hs Ht H%(inj bytes_of_string). apply string_app_inj in H. by apply last_slash_inj.
Qed.

Lemma unbondingKey_account d v : unbondingKey d v = release_key (account d v).
Proof. done. Qed.
Lemma unbondingAmountKey_account d v : unbondingAmountKey d v = amount_key (account d v).
Proof. done. Qed.
Lemma unbondingIndexKey_account d v : unbondingIndexKey d v = entries_key (account d v) "index".
Proof. unfold unbondingIndexKey, entries_key, account. by rewrite <-!string_app_comp. Qed.
Lemma unbondingNextIDKey_account d v : unbondingNextIDKey d v = entries_key (account d v) "next_id".
Proof. unfold unbondingNextIDKey, entries_key, account. by rewrite <-!string_app_comp. Qed.
Lemma unbondingEntryKey_account d v id : unbondingEntryKey d v id = entries_key (account d v) (format_uint id).
Proof. unfold unbondingEntryKey, entries_key, account. by rewrite <-!string_app_comp. Qed.

Create Rewrite HintDb accounts.
#[global] Hint Rewrite unbondingKey_account unbondingAmountKey_account unbondingIndexKey_account
  unbondingNextIDKey_account unbondingEntryKey_account : accounts.

(** The records about the unbonding of an account. *)
Definition unbonding_field (x : string) (k : bytes) : Prop :=
  k = release_key x ∨ k = amount_key x ∨ ∃ field, str_elem "/" field = false ∧ k = entries_key x field.

(** Keys that start differently are different. *)
Ltac other_key := let H := fresh in intros H; apply (inj bytes_of_string) in H; discriminate H.

Lemma unbonding_field_account x y k : unbonding_field x k → unbonding_field y k → x = y.
Proof.
  intros [->|[->|(f & Hf & ->)]] [H|[H|(g & Hg & H)]];
    try (exfalso; revert H; other_key); try (by apply (inj bytes_of_string), string_app_inj in H).
  by apply entries_key_inj in H as [-> _].
Qed.

Lemma coin_key_stake d v : coin_key (stakeKey d v) = true.
Proof. unfold coin_key, stakeKey. by rewrite string_of_bytes_of_string, has_prefix_app. Qed.
Lemma coin_key_reward d v : coin_key (rewardKey d v) = true.
Proof. unfold coin_key, rewardKey. rewrite string_of_bytes_of_string, has_prefix_app. by rewrite orb_true_r. Qed.
Lemma coin_key_amount x : coin_key (amount_key x) = true.
Proof. unfold coin_key, amount_key. rewrite string_of_bytes_of_string, has_prefix_app. by rewrite orb_true_r. Qed.
Lemma coin_key_release x : coin_key (release_key x) = false.
Proof. unfold coin_key, release_key. by rewrite string_of_bytes_of_string. Qed.
Lemma coin_key_entries x field : coin_key (entries_key x field) = false.
Proof. unfold coin_key, entries_key. by rewrite string_of_bytes_of_string. Qed.
Lemma coin_key_validator v field : coin_key (bytes_of_string ("validator/" ++ v ++ field)) = false.
Proof. unfold coin_key. by rewrite string_of_bytes_of_string. Qed.

Create Rewrite HintDb coin_keys.
#[global] Hint Rewrite coin_key_stake coin_key_reward coin_key_amount coin_key_release coin_key_entries
  coin_key_validator : coin_keys.

(** ** Reading *)

(** The number a record of the module holds. *)
Definition uint_at (c : Content) (k : bytes) : Z := be_decode (default [] (c StakingName k)).

Lemma be_decode_short v : (length v ≤ 8)%nat → is_u64 (be_decode v).
Proof.
  intros Hv. pose proof (be_decode_range v) as [H0 H1]. split; [done|]. eapply Z.lt_le_trans; [exact H1|].
  change two64 with (256 ^ 8). apply Z.pow_le_mono_r; lia.
Qed.

Lemma decodeUint64_Ok v x : decodeUint64 v = Ok x → x = be_decode v ∧ is_u64 x.
Proof.
  unfold decodeUint64. case_bool_decide as H0.
  - intros [= <-]. by apply nil_length_inv in H0 as ->.
  - intros HD. result_inv HD. subst x. apply bool_decide_eq_true in HD0. split; [done|].
    apply be_decode_short. lia.
Qed.

Lemma decode_amount_Ok v x : decode_amount v = Ok x → x = be_decode (default [] v) ∧ 0 ≤ x < 2 ^ 256.
Proof.
  unfold decode_amount. destruct v as [v|]; [|by intros [= <-]]. cbn [default]. case_bool_decide as H0.
  - intros [= <-]. by apply nil_length_inv in H0 as ->.
  - intros HD. result_inv HD. subst x. rewrite negb_true_iff, bool_decide_eq_false in HD0. split; [done|].
    pose proof (be_decode_range v) as [? Hr]. split; [done|]. eapply Z.lt_le_trans; [exact Hr|].
    change (2 ^ 256) with (256 ^ 32). apply Z.pow_le_mono_r; lia.
Qed.

Lemma encodeUint64_decode x : is_u64 x → be_decode (encodeUint64 x) = x.
Proof. apply be64_decode. Qed.

Lemma staking_encode_decode x : 0 ≤ x → be_decode (staking_encodeBankBalanceBig x) = x.
Proof.
  intros Hx. unfold staking_encodeBankBalanceBig. case_bool_decide; [by replace x with 0 by lia|].
  by apply big_bytes_decode.
Qed.

Section reading.
Context {T : Type} `{ReliableStore T} (s : T) (Hok : store_ok s).

Lemma get_optional_total ns k :
  valid_namespace ns → k ≠ [] → get_optional s None ns k = Ok (content s ns k).
Proof. intros Hns Hk. unfold get_optional. rewrite Get_total by done. by destruct (content s ns k). Qed.

Lemma getUint64_total k : k ≠ [] → getUint64 s None k = decodeUint64 (default [] (content s StakingName k)).
Proof. intros Hk. unfold getUint64. rewrite get_optional_total by auto. by destruct (content s StakingName k). Qed.

Lemma getUint64_Ok k x : k ≠ [] → getUint64 s None k = Ok x → x = uint_at (content s) k ∧ is_u64 x.
Proof. intros Hk. rewrite getUint64_total by done. apply decodeUint64_Ok. Qed.

Lemma RewardsBig_Ok d v x :
  RewardsBig s None d v = Ok x → x = uint_at (content s) (rewardKey d v) ∧ 0 ≤ x < 2 ^ 256.
Proof.
  unfold RewardsBig, getModuleAmountBig. rewrite get_optional_total by auto. apply decode_amount_Ok.
Qed.

Lemma staking_balance_Ok d x :
  d ≠ "" → no_legacy (content s) d → staking_bankBalanceBig s None d = Ok x →
  x = balance_of (content s) d ∧ 0 ≤ x < 2 ^ 256.
Proof.
  intros Hd Hleg HB. unfold staking_bankBalanceBig in HB.
  rewrite staking_bankBalanceKey_eq, !get_optional_total in HB by auto. cbn [mbind result_bind] in HB.
  destruct (content s BankName (balanceKey d)) as [v|] eqn:E; cbn [mbind result_bind] in HB;
    [|assert (content s BankName (bytes_of_string d) = None) as Hn
        by (destruct Hleg as [Heq|Hn]; [by rewrite <-Heq|done]); rewrite Hn in HB];
    apply decode_amount_Ok in HB as [-> Hr]; (split; [|done]); unfold balance_of, key_balance; by rewrite E.
Qed.

Lemma staking_balance_total d :
  d ≠ "" → no_legacy (content s) d → stored_ok (content s) d →
  staking_bankBalanceBig s None d = Ok (balance_of (content s) d).
Proof.
  intros Hd Hleg Hst. unfold staking_bankBalanceBig, balance_of, key_balance, stored_ok in *.
  rewrite staking_bankBalanceKey_eq, !get_optional_total by auto. cbn [mbind result_bind].
  destruct (content s BankName (balanceKey d)) as [v|] eqn:E; cbn [mbind result_bind].
  - unfold decode_amount. destruct (decide (length v = 0%nat)) as [Hz|Hz]; bool_decide_all;
      [by apply nil_length_inv in Hz as ->|done].
  - destruct Hleg as [Heq|Hn]; [by rewrite <-Heq, E|by rewrite Hn].
Qed.
End reading.

(** ** Unbonding entries of an account *)

Definition entry_ok (e : unbondingEntry) : Prop :=
  is_u64 (unbonding_ID e) ∧ is_u64 (unbonding_Amount e) ∧ is_u64 (unbonding_ReleaseHeight e) ∧
  unbonding_Amount e ≠ 0 ∧ unbonding_ReleaseHeight e ≠ 0.

Definition entry_sum (entries : list unbondingEntry) : Z := sumZ (unbonding_Amount <$> entries).

(** The entry with an id, and the entries of an account as the module reads them. *)
Definition entry_at (c : Content) (x : string) (id : Z) : option unbondingEntry :=
  raw ← c StakingName (entries_key x (format_uint id));
  entry ← unmarshal_unbonding raw;
  if bool_decide (unbonding_ID entry = id) && bool_decide (unbonding_Amount entry ≠ 0)
     && bool_decide (unbonding_ReleaseHeight entry ≠ 0)
  then Some entry else None.

Definition to_option {A} (r : result A) : option A := match r with Ok a => Some a | Err _ => None end.

Definition entries_of (c : Content) (x : string) : option (list unbondingEntry) :=
  let raw := default [] (c StakingName (entries_key x "index")) in
  if bool_decide (0 < length raw)%nat then
    ids ← parse_document raw ≫= decode_uints; mapM (entry_at c x) ids
  else
    release ← to_option (decodeUint64 (default [] (c StakingName (release_key x))));
    amount ← to_option (decodeUint64 (default [] (c StakingName (amount_key x))));
    if bool_decide (amount = 0) then Some []
    else if bool_decide (release = 0) then None else Some [mkUnbonding 0 amount release true].

(** The entries of an account are readable, have different ids, and their sum is
    the recorded amount. *)
Definition unbonding_ok (c : Content) (x : string) : Prop :=
  ∃ entries, entries_of c x = Some entries ∧ Forall entry_ok entries ∧
    NoDup (unbonding_ID <$> entries) ∧ entry_sum entries = uint_at c (amount_key x) ∧
    Forall (λ e, unbonding_legacy e = false → unbonding_ID e ≠ 0) entries.

Lemma unbonding_field_entries x field : str_elem "/" field = false → unbonding_field x (entries_key x field).
Proof. intros Hf. right; right. by exists field. Qed.

Lemma entries_of_ext c c' x :
  (∀ k, unbonding_field x k → c' StakingName k = c StakingName k) → entries_of c' x = entries_of c x.
Proof.
  intros Hc. unfold entries_of.
  rewrite !(Hc (entries_key x "index")) by (by apply unbonding_field_entries).
  rewrite !(Hc (release_key x)) by (by left). rewrite !(Hc (amount_key x)) by (by right; left).
  destruct (bool_decide _); [|done].
  destruct (parse_document _ ≫= decode_uints) as [ids|]; [|done]. cbn [mbind option_bind].
  induction ids as [|id ids IH]; [done|]. cbn [mapM]. rewrite IH. f_equal. unfold entry_at.
  rewrite Hc; [done|]. apply unbonding_field_entries, format_uint_no_slash.
Qed.

Lemma unbonding_ok_ext c c' x :
  (∀ k, unbonding_field x k → c' StakingName k = c StakingName k) → unbonding_ok c x → unbonding_ok c' x.
Proof.
  intros Hc. unfold unbonding_ok, uint_at. rewrite (entries_of_ext c c' x Hc).
  by rewrite (Hc (amount_key x)) by (by right; left).
Qed.

(** ** Loading and summing entries *)

Lemma to_option_Some {A} (r : result A) a : to_option r = Some a ↔ r = Ok a.
Proof. destruct r; cbn; naive_solver. Qed.

Section loading.
Context {T : Type} `{ReliableStore T} (s : T) (Hok : store_ok s).

Lemma load_entries_Ok d v ids entries :
  load_entries s None d v ids = Ok entries ↔ mapM (entry_at (content s) (account d v)) ids = Some entries.
Proof.
  revert entries. induction ids as [|id ids IH]; intros entries; [by split; intros [= <-]|].
  cbn [load_entries mapM]. rewrite Get_total by auto. rewrite unbondingEntryKey_account.
  unfold entry_at at 2. destruct (content s StakingName _) as [raw|]; [|by split]. cbn [mbind result_bind option_bind].
  destruct (unmarshal_unbonding raw) as [e|]; [|by split]. cbn [mbind result_bind option_bind].
  repeat case_bool_decide; cbn [negb orb andb check mbind result_bind option_bind]; try by split.
  rewrite bind_Some. split.
  - intros HL. result_inv HL. subst entries. apply IH in HL0. by exists r.
  - intros (r & Hr%IH & [= <-]). by rewrite Hr.
Qed.

Lemma load_Ok d v entries :
  d ≠ "" → v ≠ "" →
  loadUnbondingEntries s None d v = Ok entries ↔ entries_of (content s) (account d v) = Some entries.
Proof.
  intros Hd Hv. unfold loadUnbondingEntries, entries_of. bool_decide_all. cbn [orb negb check mbind result_bind].
  rewrite get_optional_total, !getUint64_total by auto. autorewrite with accounts. cbn [mbind result_bind].
  destruct (bool_decide _).
  - destruct (parse_document _ ≫= decode_uints) as [ids|]; [|by split]. apply load_entries_Ok.
  - destruct (decodeUint64 (default [] (content s StakingName (release_key _)))) as [release|]; [|by split].
    cbn [mbind result_bind option_bind to_option].
    destruct (decodeUint64 (default [] (content s StakingName (amount_key _)))) as [amount|]; [|by split].
    cbn [mbind result_bind option_bind to_option]. destruct (bool_decide (amount = 0)); [naive_solver|].
    destruct (decide (release = 0)) as [Hr|Hr]; bool_decide_all; cbn; naive_solver.
Qed.
End loading.

Lemma entry_sum_cons e entries : entry_sum (e :: entries) = unbonding_Amount e + entry_sum entries.
Proof. done. Qed.

Lemma entry_sum_app es1 es2 : entry_sum (es1 ++ es2) = entry_sum es1 + entry_sum es2.
Proof. unfold entry_sum. by rewrite fmap_app, sumZ_app. Qed.

Lemma entry_sum_nonneg entries : Forall entry_ok entries → 0 ≤ entry_sum entries.
Proof.
  intros He. apply sumZ_nonneg, Forall_fmap. eapply Forall_impl; [exact He|].
  by intros e (_ & [? _] & _).
Qed.

(** The overflow check of a sum of [uint64]s. *)
Lemma no_overflow amount total :
  is_u64 amount → is_u64 total → (wrap64 (max_u64 - amount) < total) ↔ two64 ≤ total + amount.
Proof.
  intros [? ?] [? ?]. rewrite wrap64_small by (unfold is_u64, max_u64, two64 in *; lia).
  unfold max_u64, two64. lia.
Qed.

Lemma sum_entries_Ok entries total n :
  Forall entry_ok entries → is_u64 total →
  sum_entries entries total = Ok n ↔ n = total + entry_sum entries ∧ total + entry_sum entries < two64.
Proof.
  intros He. revert total. induction He as [|e entries (_ & Ha & _ & Ha0 & Hr0) He IH]; intros total Ht.
  { change (entry_sum []) with 0. destruct Ht. cbn. split; [intros [= <-]; lia|]. intros [-> _]. f_equal. lia. }
  cbn [sum_entries]. bool_decide_all. cbn [orb negb check mbind result_bind]. rewrite entry_sum_cons.
  pose proof (entry_sum_nonneg entries He) as Hn. pose proof (no_overflow _ _ Ha Ht) as Ho.
  destruct (decide (total + unbonding_Amount e < two64)) as [Hlt|Hge].
  - rewrite bool_decide_eq_false_2 by lia. cbn [negb check mbind result_bind].
    assert (is_u64 (total + unbonding_Amount e)) as Hu by (destruct Ha, Ht; split; lia).
    rewrite wrap64_small by done. rewrite IH by done. rewrite <-!Z.add_assoc. done.
  - rewrite bool_decide_eq_true_2 by lia. cbn [negb check mbind result_bind]. split; [done|]. intros [_ ?]. lia.
Qed.

Lemma sumUnbondingEntries_Ok entries n :
  Forall entry_ok entries → sumUnbondingEntries entries = Ok n ↔ n = entry_sum entries ∧ entry_sum entries < two64.
Proof. intros He. unfold sumUnbondingEntries. by rewrite sum_entries_Ok by done. Qed.

(** ** Writing entries *)

Definition plain_entry (e : unbondingEntry) : unbondingEntry :=
  mkUnbonding (unbonding_ID e) (unbonding_Amount e) (unbonding_ReleaseHeight e) false.

Lemma unmarshal_marshal e : entry_ok e → unmarshal_unbonding (marshal_unbonding e) = Some (plain_entry e).
Proof.
  intros (Hi & Ha & Hr & _). unfold unmarshal_unbonding, marshal_unbonding.
  assert (Forall plain_field (unbonding_fields e)) as Hf by (repeat (constructor; [by split|]); constructor).
  pose proof (decode_marshal_struct (unbonding_fields e) Hf) as HD.
  destruct (parse_document _) as [doc|]; [|done]. cbn [mbind option_bind] in *.
  change (unbonding_fields e).*1 with ["id"; "amount"; "release_height"] in HD. by rewrite HD.
Qed.

Definition entry_write (x : string) (e : unbondingEntry) : KVWrite :=
  mkWrite StakingName (entries_key x (format_uint (unbonding_ID e))) (marshal_unbonding e) false.

Lemma replace_entries_Ok d v entries total release ids total' release' ws :
  Forall entry_ok entries → is_u64 total →
  replace_entries d v entries total release = Ok (ids, total', release', ws) →
  ids = unbonding_ID <$> entries ∧ total' = total + entry_sum entries ∧ is_u64 total' ∧
  ws = entry_write (account d v) <$> entries ∧ Forall (λ e, unbonding_ID e ≠ 0) entries ∧
  (release ≠ 0 ∨ entries ≠ [] → release' ≠ 0).
Proof.
  intros He. revert total release ids total' release' ws.
  induction He as [|e entries (_ & Ha & _ & Ha0 & Hr0) He IH]; intros total release ids total' release' ws Ht HR;
    cbn [replace_entries] in HR.
  { injection HR as <- <- <- <-. change (entry_sum []) with 0.
    split_and!; [done|lia|done|done|done|by intros [?|?]]. }
  result_inv HR. destruct r2 as [[[ids1 t1] rel1] ws1]. injection HR as <- <- <- <-.
  rewrite negb_true_iff, bool_decide_eq_false, no_overflow in HR2 by done.
  assert (is_u64 (total + unbonding_Amount e)) as Hu by (destruct Ha, Ht; split; lia).
  rewrite wrap64_small in HR3 by done. apply bool_decide_eq_true in HR1.
  apply IH in HR3 as (-> & -> & Hu' & -> & Hids & Hrel); [|done]. rewrite entry_sum_cons.
  split_and!; [done|lia|done|by rewrite unbondingEntryKey_account|by constructor|].
  intros _. apply Hrel. left. destruct (bool_decide (release = 0)) eqn:E0; [done|].
  destruct (bool_decide (unbonding_ReleaseHeight e < release)) eqn:E1; cbn; [done|]. by apply bool_decide_eq_false in E0.
Qed.

Lemma replace_entries_total d v entries total release :
  Forall entry_ok entries → Forall (λ e, unbonding_ID e ≠ 0) entries → is_u64 total →
  total + entry_sum entries < two64 → is_ok (replace_entries d v entries total release) = true.
Proof.
  intros He. revert total release.
  induction He as [|e entries (_ & Ha & _ & Ha0 & Hr0) He IH]; intros total release Hids Ht Hsum; [done|].
  apply Forall_cons in Hids as [Hid Hids]. cbn [replace_entries]. rewrite entry_sum_cons in Hsum.
  pose proof (entry_sum_nonneg entries He) as Hn. pose proof (no_overflow _ _ Ha Ht) as Ho.
  bool_decide_all. cbn [orb negb check mbind result_bind].
  assert (is_u64 (total + unbonding_Amount e)) as Hu by (destruct Ha, Ht; split; lia).
  rewrite wrap64_small by done.
  set (rel := if bool_decide (release = 0) || _ then _ else _).
  specialize (IH (total + unbonding_Amount e) rel Hids Hu ltac:(lia)).
  by destruct (replace_entries d v entries _ rel) as [[[[? ?] ?] ?]|].
Qed.

Lemma coins_uint c k : coin_key k = true → coins c (StakingName, k) = uint_at c k.
Proof.
  intros Hk. unfold worth_at, uint_at, worth, coin_place. cbn [fst snd]. rewrite Hk. by destruct (c StakingName k).
Qed.

Lemma coins_bank c k : coins c (BankName, k) = key_balance c k.
Proof. unfold worth_at, key_balance, worth. cbn. by destruct (c BankName k). Qed.

(** Gains of the writes of the module. *)
Lemma gain_staking c k v :
  coin_key k = true → gain c (mkWrite StakingName k v false) = be_decode v - uint_at c k.
Proof.
  intros Hk. unfold gain_of, write_key, write_value. cbn [KW_Namespace KW_Key KW_Value KW_Delete from_option].
  rewrite coins_uint by done. unfold worth, coin_place. cbn [fst snd]. by rewrite Hk.
Qed.

Lemma gain_delete c k : coin_key k = true → gain c (mkWrite StakingName k [] true) = - uint_at c k.
Proof.
  intros Hk. unfold gain_of, write_key, write_value. cbn [KW_Namespace KW_Key KW_Value KW_Delete from_option].
  rewrite coins_uint by done. lia.
Qed.

Lemma gain_bank c k v : gain c (mkWrite BankName k v false) = be_decode v - key_balance c k.
Proof.
  unfold gain_of, write_key, write_value. cbn [KW_Namespace KW_Key KW_Value KW_Delete from_option].
  by rewrite coins_bank.
Qed.

(** The writes that replace the entries of an account. *)
Record replaces (x : string) (entries : list unbondingEntry) (ws : list KVWrite) : Prop := {
  replaces_fields : Forall (λ w, KW_Namespace w = StakingName ∧ unbonding_field x (KW_Key w)) ws;
  replaces_entries c : entries_of (writes_content ws c) x = Some entries;
  replaces_sum c : uint_at (writes_content ws c) (amount_key x) = entry_sum entries;
  replaces_coins : ∃ w, filter coin_write ws = [w] ∧ write_key w = (StakingName, amount_key x) ∧
    ∀ c, gain c w = entry_sum entries - uint_at c (amount_key x)
}.

Lemma unbonding_field_next x : unbonding_field x (entries_key x "next_id").
Proof. by apply unbonding_field_entries. Qed.
Lemma unbonding_field_index x : unbonding_field x (entries_key x "index").
Proof. by apply unbonding_field_entries. Qed.
Lemma unbonding_field_entry x id : unbonding_field x (entries_key x (format_uint id)).
Proof. apply unbonding_field_entries, format_uint_no_slash. Qed.
Lemma unbonding_field_release x : unbonding_field x (release_key x).
Proof. by left. Qed.
Lemma unbonding_field_amount x : unbonding_field x (amount_key x).
Proof. by right; left. Qed.
#[global] Hint Resolve unbonding_field_next unbonding_field_index unbonding_field_entry
  unbonding_field_release unbonding_field_amount : core.

Lemma staking_coin_write k v del : coin_write (mkWrite StakingName k v del) ↔ coin_key k = true.
Proof. done. Qed.

Lemma entry_key_other x id field :
  is_u64 id → str_elem "/" field = false → is_digit (match field with String a _ => a | "" => "a" end) = false →
  entries_key x (format_uint id) ≠ entries_key x field.
Proof.
  intros Hid Hf Hd Heq. apply entries_key_inj in Heq as [_ Heq]; [|apply format_uint_no_slash|done].
  destruct (format_uint_digits id Hid) as (a & t & Ht & Hdig & _). rewrite <-Heq, Ht in Hd.
  cbn [str_forall] in Hdig. by rewrite Hd in Hdig.
Qed.

Lemma place_inj {A B} (a : A) (b1 b2 : B) : (a, b1) = (a, b2) → b1 = b2.
Proof. congruence. Qed.

(** The records of an account are at different keys. *)
Lemma fields_NoDup x ids :
  NoDup ids → Forall is_u64 ids →
  NoDup (((λ id, (StakingName, entries_key x (format_uint id))) <$> ids) ++
    [(StakingName, entries_key x "index"); (StakingName, entries_key x "next_id");
     (StakingName, release_key x); (StakingName, amount_key x)]).
Proof.
  intros Hnd Hids. apply NoDup_app. split_and!.
  - apply NoDup_fmap_2_strong; [|done]. intros i j Hi Hj Heq%place_inj.
    rewrite Forall_forall in Hids. apply entries_key_inj in Heq as [_ Heq]; [|apply format_uint_no_slash..].
    by apply format_uint_inj in Heq; [|apply Hids..].
  - intros p (id & -> & Hid)%list_elem_of_fmap Hp. rewrite Forall_forall in Hids. specialize (Hids id Hid).
    rewrite !elem_of_cons, elem_of_nil in Hp. destruct Hp as [H|[H|[H|[H|[]]]]]; apply place_inj in H.
    + by apply entry_key_other in H.
    + by apply entry_key_other in H.
    + revert H. other_key.
    + revert H. other_key.
  - repeat (apply NoDup_cons; split; [rewrite ?elem_of_cons, ?elem_of_nil; intros HH;
      repeat destruct HH as [HH|HH]; try done; apply place_inj in HH; revert HH;
      (other_key || (intros HH; by apply entries_key_inj in HH as [_ HH]))|]). apply NoDup_nil_2.
Qed.

(** Writes at different keys take effect. *)
Lemma writes_at ws c k v :
  NoDup (write_key <$> ws) → mkWrite StakingName k v false ∈ ws → writes_content ws c StakingName k = Some v.
Proof. intros Hnd Hw. exact (writes_content_in ws c _ Hnd Hw). Qed.

Lemma deletes_at ws c k :
  NoDup (write_key <$> ws) → mkWrite StakingName k [] true ∈ ws → writes_content ws c StakingName k = None.
Proof. intros Hnd Hw. exact (writes_content_in ws c _ Hnd Hw). Qed.

(** Find a given element in a list. *)
Ltac in_list := rewrite ?elem_of_app, ?elem_of_cons; repeat first [left; reflexivity | right].

(** Select the records of coins of a list of writes of the module. *)
Ltac coin_filter :=
  repeat first
    [ rewrite filter_nil
    | rewrite filter_cons_True by done
    | rewrite filter_cons_True by (apply staking_coin_write; autorewrite with coin_keys; done)
    | rewrite filter_cons_False by (rewrite staking_coin_write; autorewrite with coin_keys; done) ].

Lemma filter_none {A} (P : A → Prop) `{∀ a, Decision (P a)} l : Forall (λ a, ¬ P a) l → filter P l = [].
Proof. induction 1 as [|a l Ha Hl IH]; [done|]. by rewrite filter_cons_False. Qed.

Lemma Forall_filter {A} (Q P : A → Prop) `{∀ a, Decision (P a)} l : Forall Q l → Forall Q (filter P l).
Proof. rewrite !Forall_forall. intros HQ a [_ Ha]%list_elem_of_filter. by apply HQ. Qed.

Lemma replaces_none d v ws nextID :
  replaceUnbondingEntriesWritesWithNextID d v [] nextID = Ok ws → replaces (account d v) [] ws.
Proof.
  intros [= <-]. autorewrite with accounts. set (x := account d v). set (ws := [_; _; _]).
  assert (NoDup (write_key <$> ws)) as Hnd.
  { apply (sublist_NoDup _ _ (fields_NoDup x [] (NoDup_nil_2) (Forall_nil_2 _))). cbn.
    apply sublist_skip, sublist_cons. done. }
  split.
  - repeat (constructor; [split; [done|cbn; auto]|]). constructor.
  - intros c. unfold entries_of. by rewrite !(deletes_at ws) by (done || (subst ws; in_list)).
  - intros c. unfold uint_at. by rewrite !(deletes_at ws) by (done || (subst ws; in_list)).
  - eexists. subst ws. coin_filter. split; [done|]. split; [done|].
    intros c. by rewrite gain_delete by (autorewrite with coin_keys; done).
Qed.

Lemma replaces_some d v entries ws nextID :
  entries ≠ [] → Forall entry_ok entries → NoDup (unbonding_ID <$> entries) →
  Forall (λ e, unbonding_legacy e = false) entries →
  replaceUnbondingEntriesWritesWithNextID d v entries nextID = Ok ws → replaces (account d v) entries ws.
Proof.
  intros Hne He Hnd Hleg HR. unfold replaceUnbondingEntriesWritesWithNextID in HR. result_inv HR.
  destruct r as [[[ids total] release] ews]. injection HR as <-.
  apply replace_entries_Ok in HR0 as (-> & -> & Hu & -> & Hids & _); [|done..].
  rewrite bool_decide_eq_false_2 by (by destruct entries). autorewrite with accounts. set (x := account d v).
  assert (Forall is_u64 (unbonding_ID <$> entries)) as Hidu.
  { apply Forall_fmap. eapply Forall_impl; [exact He|]. by intros e (? & _). }
  set (ws := _ ++ _). assert (NoDup (write_key <$> ws)) as Hk.
  { subst ws. pose proof (fields_NoDup x _ Hnd Hidu) as HN. rewrite <-list_fmap_compose in HN.
    rewrite fmap_app, <-list_fmap_compose. exact HN. }
  rewrite Z.add_0_l in *.
  split.
  - subst ws. apply Forall_app. split; [apply Forall_fmap, Forall_true; intros e; split; [done|cbn; auto]|].
    repeat (constructor; [split; [done|cbn; auto]|]). constructor.
  - intros c. unfold entries_of.
    rewrite (writes_at ws c (entries_key x "index") (marshal_uints (unbonding_ID <$> entries)))
      by (done || (subst ws; in_list)). change (default [] (Some ?a)) with a.
    rewrite bool_decide_eq_true_2 by apply marshal_uints_length.
    rewrite decode_marshal_uints by done. cbn [mbind option_bind].
    apply mapM_Some. rewrite Forall2_fmap_l. apply Forall_Forall2_diag, Forall_forall. intros e Hin.
    rewrite Forall_forall in He, Hleg. specialize (He e Hin). specialize (Hleg e Hin).
    change (entry_at (writes_content ws c) x (unbonding_ID e) = Some e). unfold entry_at.
    rewrite (writes_at ws c _ (marshal_unbonding e))
      by (done || (subst ws; apply elem_of_app; left; by apply (list_elem_of_fmap_2 (entry_write x)))).
    cbn [mbind option_bind]. rewrite unmarshal_marshal by done. cbn [mbind option_bind].
    destruct He as (_ & _ & _ & Ha & Hr), e as [id amt rel leg]. cbn in Ha, Hr, Hleg |- *. subst leg.
    by bool_decide_all.
  - intros c. unfold uint_at.
    rewrite (writes_at ws c (amount_key x) (encodeUint64 (entry_sum entries)))
      by (done || (subst ws; in_list)). by apply encodeUint64_decode.
  - exists (mkWrite StakingName (amount_key x) (encodeUint64 (entry_sum entries)) false). split; [|split; [done|]].
    + subst ws. rewrite filter_app.
      rewrite (filter_none coin_write (entry_write x <$> entries)); [by coin_filter|].
      apply Forall_fmap, Forall_true. intros e Hw. apply staking_coin_write in Hw. autorewrite with coin_keys in Hw. done.
    + intros c. rewrite gain_staking by (autorewrite with coin_keys; done). by rewrite encodeUint64_decode.
Qed.

Lemma mapM_entry_ids c x ids entries :
  mapM (entry_at c x) ids = Some entries → ids = unbonding_ID <$> entries.
Proof.
  rewrite mapM_Some. induction 1 as [|id e ids entries He Hes IH]; [done|]. rewrite fmap_cons, <-IH. f_equal.
  unfold entry_at in He. apply bind_Some in He as (raw & _ & He). apply bind_Some in He as (e' & _ & He).
  destruct (_ && _) eqn:E in He; [|done]. injection He as ->. rewrite !andb_true_iff in E.
  destruct E as [[E _] _]. by apply bool_decide_eq_true in E.
Qed.

Lemma mapM_agree {A B} (f g : A → option B) l : (∀ a, a ∈ l → f a = g a) → mapM f l = mapM g l.
Proof.
  induction l as [|a l IH]; intros Hl; [done|]. cbn [mapM].
  rewrite (Hl a) by (by left). rewrite IH; [done|]. intros b Hb. apply Hl. by right.
Qed.

(** Reading the entries needs their records only. *)
Lemma entries_of_agree c c' x entries :
  entries_of c x = Some entries →
  (∀ k, k = entries_key x "index" ∨ k = release_key x ∨ k = amount_key x → c' StakingName k = c StakingName k) →
  (∀ id, id ∈ unbonding_ID <$> entries →
    c' StakingName (entries_key x (format_uint id)) = c StakingName (entries_key x (format_uint id))) →
  entries_of c' x = Some entries.
Proof.
  intros HE Hk Hid. unfold entries_of in *.
  rewrite (Hk (entries_key x "index")), (Hk (release_key x)), (Hk (amount_key x)) by auto.
  destruct (bool_decide _); [|done]. destruct (parse_document _ ≫= decode_uints) as [ids|]; [|done].
  cbn [mbind option_bind] in *. pose proof (mapM_entry_ids _ _ _ _ HE) as Hids.
  rewrite <-HE. apply mapM_agree. intros id Hin. unfold entry_at. rewrite Hid; [done|]. by rewrite <-Hids.
Qed.

(** Deleting entries that are not kept does not matter. *)
Lemma replaces_deletes x entries ws gone :
  Forall is_u64 (unbonding_ID <$> entries) → Forall is_u64 gone →
  (∀ id, id ∈ gone → id ∉ unbonding_ID <$> entries) → replaces x entries ws →
  replaces x entries (ws ++ ((λ id, mkWrite StakingName (entries_key x (format_uint id)) [] true) <$> gone)).
Proof.
  intros Hids Hgone Hdis [Hf He Hs Hc]. set (dels := _ <$> gone).
  assert (∀ k, (∀ id, id ∈ gone → k ≠ entries_key x (format_uint id)) → (StakingName, k) ∉ write_key <$> dels) as Hout.
  { intros k Hk (w & Hw & Hin)%list_elem_of_fmap. subst dels.
    apply list_elem_of_fmap in Hin as (id & -> & Hid). by apply place_inj, (Hk id) in Hw. }
  rewrite Forall_forall in Hids, Hgone. split.
  - apply Forall_app. split; [done|]. apply Forall_fmap, Forall_true. intros id. split; [done|cbn; auto].
  - intros c. rewrite writes_content_app. apply (entries_of_agree (writes_content ws c)); [done| |].
    + intros k Hk. apply writes_content_out, Hout. intros id Hid ->.
      destruct Hk as [Hk|[Hk|Hk]]; [|revert Hk; other_key..]. apply entry_key_other in Hk; auto.
    + intros id Hid. apply writes_content_out, Hout. intros id' Hid' Heq.
      apply entries_key_inj in Heq as [_ Heq]; [|apply format_uint_no_slash..].
      apply format_uint_inj in Heq; [|by apply Hids|by apply Hgone]. subst id'. by apply (Hdis id).
  - intros c. rewrite writes_content_app. unfold uint_at. rewrite (writes_content_out dels); [apply Hs|].
    apply Hout. intros id _. other_key.
  - destruct Hc as (w & Hw & Hk & Hg). exists w. split; [|done]. rewrite filter_app, Hw.
    rewrite filter_none; [done|]. apply Forall_fmap, Forall_true. intros id Hc.
    apply staking_coin_write in Hc. autorewrite with coin_keys in Hc. done.
Qed.

(** ** Well-formed contents *)

(** Stakes and powers are numbers. *)
Definition number_key (k : bytes) : Prop := (∃ d v, k = stakeKey d v) ∨ ∃ v, k = validatorPowerKey v.
Definition readable (value : option bytes) : Prop := is_ok (decodeUint64 (default [] value)) = true.

Record staking_ok (c : Content) : Prop := {
  ok_bank a : no_legacy c a;
  ok_unbonding x : unbonding_ok c x;
  ok_commission v : uint_at c (commissionKey v) ≤ commissionDenominatorBPS;
  ok_number k : number_key k → readable (c StakingName k)
}.

Lemma readable_uint x : readable (Some (encodeUint64 x)).
Proof.
  unfold readable, decodeUint64. change (default [] (Some ?a)) with a. unfold encodeUint64.
  rewrite be64_length. done.
Qed.

Lemma number_not_unbonding k x : number_key k → ¬ unbonding_field x k.
Proof. intros [(d & v & ->)|[v ->]] [H|[H|(f & _ & H)]]; revert H; other_key. Qed.

Lemma number_not_commission k v : number_key k → k ≠ commissionKey v.
Proof.
  intros [(d & w & ->)|[w ->]]; [other_key|]. intros Heq%(inj bytes_of_string)%string_app_inj.
  change ("/power") with ("/" ++ "power")%string in Heq.
  change ("/commission_bps") with ("/" ++ "commission_bps")%string in Heq.
  by apply last_slash_inj in Heq as [_ ?].
Qed.

(** Contents that agree on the records of bank and staking. *)
Definition same_ledger (c c' : Content) : Prop :=
  (∀ k, c BankName k = c' BankName k) ∧ (∀ k, c StakingName k = c' StakingName k).

Lemma same_content_ledger c c' : same_content c c' → same_ledger c c'.
Proof. intros Hc. split; intros k; by apply Hc. Qed.

Lemma staking_ok_ledger c c' : same_ledger c c' → staking_ok c → staking_ok c'.
Proof.
  intros [Hcb Hcs] [Hb Hu Hcom Hnum]. split.
  - intros a. destruct (Hb a) as [?|Hn]; [by left|]. right. by rewrite <-Hcb.
  - intros x. apply (unbonding_ok_ext c); [|done]. intros k _. symmetry. by apply Hcs.
  - intros v. unfold uint_at in *. rewrite <-Hcs. apply Hcom.
  - intros k Hk. rewrite <-Hcs. by apply Hnum.
Qed.

Lemma staking_ok_ext c c' : same_content c c' → staking_ok c → staking_ok c'.
Proof. intros Hc. by apply staking_ok_ledger, same_content_ledger. Qed.

(** A key of the bank is the key of the address it spells. *)
Lemma balanceKey_canonical a d : bytes_of_string a = balanceKey d → balanceKey a = bytes_of_string a.
Proof.
  intros Ha. destruct (decide (balanceKey d = bytes_of_string d)) as [Hd|Hd].
  { rewrite Hd in Ha. apply (inj bytes_of_string) in Ha. by subst a. }
  unfold balanceKey in Ha, Hd. destruct (hex_decode _) as [decoded|]; [|done].
  destruct (bool_decide (20 < length decoded)%nat || _) eqn:E; [done|].
  apply orb_false_iff in E as [E _]. apply bool_decide_eq_false in E.
  apply (inj bytes_of_string) in Ha. subst a. set (padded := replicate _ x00 ++ decoded).
  assert (length padded = 20%nat) as Hlen by (subst padded; rewrite length_app, length_replicate; lia).
  unfold balanceKey. rewrite (trim_prefix_app "0x" (hex_encode padded)).
  rewrite hex_encode_length, Hlen. change (Nat.odd (2 * 20)) with false. cbv zeta iota.
  rewrite hex_decode_encode. rewrite Hlen, has_prefix_app. done.
Qed.

(** ** Writes that keep the contents well formed *)

(** A balance, or a record that is neither an unbonding nor a commission, and a
    number where it has to be one. *)
Definition harmless (w : KVWrite) : Prop :=
  (∃ d, write_key w = (BankName, balanceKey d)) ∨
  (KW_Namespace w = StakingName ∧ (∀ x, ¬ unbonding_field x (KW_Key w)) ∧ (∀ v, KW_Key w ≠ commissionKey v) ∧
   (number_key (KW_Key w) → readable (write_value w))).

Lemma write_other w c ns k : write_key w ≠ (ns, k) → write_content w c ns k = c ns k.
Proof. intros Hw. rewrite write_content_key. by rewrite decide_False. Qed.

Lemma staking_ok_bank w c d : write_key w = (BankName, balanceKey d) → staking_ok c → staking_ok (write_content w c).
Proof.
  intros Hw [Hb Hu Hcom Hnum]. split.
  - intros a. destruct (decide (balanceKey a = bytes_of_string a)) as [Ha|Ha]; [by left|]. right.
    destruct (Hb a) as [?|Hn]; [done|]. rewrite write_other; [done|]. rewrite Hw. intros [= Heq].
    apply Ha, (balanceKey_canonical a d). done.
  - intros x. apply (unbonding_ok_ext c); [|done]. intros k _. apply write_other. by rewrite Hw.
  - intros v. unfold uint_at. rewrite write_other by (by rewrite Hw). apply Hcom.
  - intros k Hk. rewrite write_other by (by rewrite Hw). by apply Hnum.
Qed.

Lemma staking_ok_harmless ws c : Forall harmless ws → staking_ok c → staking_ok (writes_content ws c).
Proof.
  intros Hws. revert c. induction Hws as [|w ws Hw Hws IH]; intros c Hc; [done|].
  apply (IH (write_content w c)). destruct Hw as [[d Hw]|(Hns & Hx & Hv & Hr)]; [by eapply staking_ok_bank|].
  destruct Hc as [Hb Hu Hcom Hnum]. split.
  - intros a. destruct (Hb a) as [?|Hn]; [by left|]. right. rewrite write_other; [done|].
    unfold write_key. rewrite Hns. done.
  - intros x. apply (unbonding_ok_ext c); [|done]. intros k Hk. apply write_other. intros Heq.
    apply (Hx x). injection Heq as _ ->. done.
  - intros v. unfold uint_at. rewrite write_other; [apply Hcom|]. intros Heq. injection Heq as _ Heq. by apply (Hv v).
  - intros k Hk. rewrite write_content_key. case_decide as Heq; [|by apply Hnum]. apply Hr. by injection Heq as _ ->.
Qed.

Lemma unbonding_not_validator x v field : ¬ unbonding_field x (bytes_of_string ("validator/" ++ v ++ field)).
Proof. intros [H|[H|(f & _ & H)]]; revert H; other_key. Qed.

Lemma unbonding_not_coins x d v : ¬ unbonding_field x (stakeKey d v) ∧ ¬ unbonding_field x (rewardKey d v).
Proof. split; intros [H|[H|(f & _ & H)]]; revert H; other_key. Qed.

Lemma staking_ok_replaces c x entries ws :
  replaces x entries ws → Forall entry_ok entries → NoDup (unbonding_ID <$> entries) →
  Forall (λ e, unbonding_legacy e = false → unbonding_ID e ≠ 0) entries →
  staking_ok c → staking_ok (writes_content ws c).
Proof.
  intros [Hf He Hs _] Hok Hnd Hleg [Hb Hu Hcom Hnum].
  assert (∀ ns k, (ns = StakingName → ¬ unbonding_field x k) → writes_content ws c ns k = c ns k) as Hout.
  { intros ns k Hk. apply writes_content_out. intros (w & Hw & Hin)%list_elem_of_fmap.
    rewrite Forall_forall in Hf. destruct (Hf w Hin) as [Hns Hfw]. injection Hw as -> ->. by apply Hk. }
  split.
  - intros a. destruct (Hb a) as [?|Hn]; [by left|]. right. by rewrite Hout.
  - intros y. destruct (decide (x = y)) as [<-|Hxy]; [by exists entries|].
    apply (unbonding_ok_ext c); [|done]. intros k Hk. apply Hout. intros _ Hx. apply Hxy.
    by apply (unbonding_field_account _ _ k).
  - intros v. unfold uint_at. rewrite Hout; [apply Hcom|]. intros _. apply unbonding_not_validator.
  - intros k Hk. rewrite Hout; [by apply Hnum|]. intros _. by apply number_not_unbonding.
Qed.

(** ** Actions *)

(** A step that keeps the contents well formed and all coins. *)
Definition keeps_coins (c c' : Content) : Prop :=
  staking_ok c' ∧ ∀ n, supply c n → supply c' n.

Lemma keeps_coins_refl c : staking_ok c → keeps_coins c c.
Proof. by split. Qed.

(** A batch that keeps the contents well formed and whose gains cancel. *)
Lemma keeps_coins_writes c ws ws' :
  staking_ok (writes_content ws c) → filter coin_write ws = ws' → NoDup (write_key <$> ws') →
  sumZ (gain c <$> ws') = 0 → keeps_coins c (writes_content ws c).
Proof.
  intros Hok Hf Hnd Hg. split; [done|]. intros n Hn. rewrite <-(Z.add_0_r n), <-Hg. by apply (total_counted_writes _ coin_place_namespace).
Qed.

(** Invert a guard [check _ (negb (a || b))]. *)
Ltac guard_inv H := rewrite negb_true_iff, ?orb_false_iff, ?bool_decide_eq_false in H.

Lemma harmless_bank d v : harmless (mkWrite BankName (balanceKey d) v false).
Proof. left. by exists d. Qed.
Lemma harmless_record (k x : bytes) (del : bool) :
  (∀ y, ¬ unbonding_field y k) → (∀ v, k ≠ commissionKey v) →
  (number_key k → readable (write_value (mkWrite StakingName k x del))) → harmless (mkWrite StakingName k x del).
Proof. intros Hu Hc Hn. right. done. Qed.

Lemma harmless_stake d v x : harmless (mkWrite StakingName (stakeKey d v) (encodeUint64 x) false).
Proof.
  apply harmless_record; [intros y; apply unbonding_not_coins|intros w; other_key|]. intros _. apply readable_uint.
Qed.
Lemma harmless_unstake d v : harmless (mkWrite StakingName (stakeKey d v) [] true).
Proof. apply harmless_record; [intros y; apply unbonding_not_coins|intros w; other_key|done]. Qed.
Lemma harmless_reward d v x : harmless (mkWrite StakingName (rewardKey d v) x false).
Proof.
  apply harmless_record; [intros y; apply unbonding_not_coins|intros w; other_key|].
  intros [(d' & v' & H)|[v' H]]; revert H; other_key.
Qed.

(** A record of a validator other than power and commission. *)
Lemma harmless_validator v field (x : bytes) (del : bool) :
  str_elem "/" field = false → field ≠ "commission_bps" →
  (field = "power" → readable (if del then None else Some x)) →
  harmless (mkWrite StakingName (bytes_of_string ("validator/" ++ v ++ "/" ++ field)) x del).
Proof.
  intros Hs Hf Hp. apply harmless_record; [intros y; apply unbonding_not_validator|..].
  - intros w Heq. apply (inj bytes_of_string), string_app_inj in Heq.
    change ("/commission_bps") with ("/" ++ "commission_bps")%string in Heq.
    by apply last_slash_inj in Heq as [_ ?].
  - intros [(d & w & H)|[w H]]; [revert H; other_key|]. apply Hp.
    apply (inj bytes_of_string), string_app_inj in H. change ("/power") with ("/" ++ "power")%string in H.
    by apply last_slash_inj in H as [_ ?].
Qed.

Lemma harmless_power v x : harmless (mkWrite StakingName (validatorPowerKey v) (encodeUint64 x) false).
Proof. apply (harmless_validator v); [done|done|]. intros _. apply readable_uint. Qed.
Lemma harmless_key v x del : harmless (mkWrite StakingName (validatorKeyKey v) x del).
Proof. by apply (harmless_validator v). Qed.
Lemma harmless_jail v x del : harmless (mkWrite StakingName (jailKey v) x del).
Proof. by apply (harmless_validator v). Qed.
Lemma harmless_tombstone v x del : harmless (mkWrite StakingName (tombstoneKey v) x del).
Proof. by apply (harmless_validator v). Qed.

#[global] Hint Resolve harmless_bank harmless_stake harmless_unstake harmless_reward harmless_power harmless_key
  harmless_jail harmless_tombstone : core.

Ltac all_harmless := repeat (apply Forall_cons; split; [by auto|]); try apply Forall_nil_2.

(** ** New entries *)

Lemma replace_ids d v entries nextID ws :
  Forall entry_ok entries → replaceUnbondingEntriesWritesWithNextID d v entries nextID = Ok ws →
  Forall (λ e, unbonding_ID e ≠ 0) entries.
Proof.
  intros He HR. unfold replaceUnbondingEntriesWritesWithNextID in HR. result_inv HR.
  destruct r as [[[ids total] rel] ews]. by apply replace_entries_Ok in HR0 as (_ & _ & _ & _ & Hz & _).
Qed.

(** What loading returns: entries with ids, or one legacy record. *)
Lemma entries_of_shape c x es :
  entries_of c x = Some es →
  Forall (λ e, unbonding_legacy e = false) es ∨ ∃ amount release, es = [mkUnbonding 0 amount release true].
Proof.
  intros HE. unfold entries_of in HE. destruct (bool_decide _).
  - left. apply bind_Some in HE as (ids & _ & HE). apply mapM_Some in HE. clear -HE.
    induction HE as [|id e ids es He _ IH]; [done|]. constructor; [|done]. unfold entry_at in He.
    apply bind_Some in He as (raw & _ & He). apply bind_Some in He as (e' & Hu & He).
    destruct (_ && _) in He; [|done]. injection He as ->. unfold unmarshal_unbonding in Hu.
    apply bind_Some in Hu as (doc & _ & Hu). apply bind_Some in Hu as (vals & _ & Hu). by injection Hu as <-.
  - apply bind_Some in HE as (release & _ & HE). apply bind_Some in HE as (amount & _ & HE).
    destruct (bool_decide (amount = 0)); [injection HE as <-; by left|].
    destruct (bool_decide (release = 0)); [done|]. injection HE as <-. right. by eexists _, _.
Qed.

Lemma assign_ids_plain es n :
  Forall (λ e, is_u64 (unbonding_ID e) ∧ unbonding_ID e ≠ 0) es → is_u64 n →
  ∃ n', assign_ids es n = (es, n') ∧ is_u64 n' ∧ n ≤ n' ∧ Forall (λ e, unbonding_ID e ≤ n') es.
Proof.
  intros Hes. revert n. induction Hes as [|e es [Hu H0] Hes IH]; intros n Hn; [by exists n|].
  cbn [assign_ids]. bool_decide_all. cbn beta iota zeta.
  assert (is_u64 (if bool_decide (n < unbonding_ID e) then unbonding_ID e else n)) as Hm by (by case_bool_decide).
  destruct (IH _ Hm) as (n' & -> & Hn' & Hle & Hes'). exists n'. revert Hle.
  case_bool_decide; intros Hle; split_and!; try done; try lia; constructor; done || lia.
Qed.

Lemma assign_ids_Ok es n es' n' :
  Forall entry_ok es → NoDup (unbonding_ID <$> es) →
  Forall (λ e, unbonding_legacy e = false → unbonding_ID e ≠ 0) es →
  Forall (λ e, unbonding_legacy e = false) es ∨ (∃ amount release, es = [mkUnbonding 0 amount release true]) →
  is_u64 n → assign_ids es n = (es', n') →
  Forall entry_ok es' ∧ NoDup (unbonding_ID <$> es') ∧ Forall (λ e, unbonding_legacy e = false) es' ∧
  entry_sum es' = entry_sum es ∧ is_u64 n' ∧ Forall (λ e, unbonding_ID e ≤ n') es'.
Proof.
  intros He Hnd Hids Hshape Hn HA. destruct Hshape as [Hleg|(amount & release & ->)].
  - destruct (assign_ids_plain es n) as (n1 & HA' & Hn1 & _ & Hle); [|done|].
    { apply Forall_forall. intros e Hin. rewrite Forall_forall in He, Hids, Hleg.
      split; [by apply (He e)|]. by apply Hids, Hleg. }
    rewrite HA' in HA. injection HA as <- <-. done.
  - apply Forall_singleton in He as (_ & Ha & Hr & Ha0 & Hr0). cbn in Ha, Hr, Ha0, Hr0.
    cbn [assign_ids unbonding_ID] in HA. rewrite bool_decide_eq_true_2 in HA by done.
    cbn [unbonding_ID unbonding_Amount unbonding_ReleaseHeight] in HA.
    rewrite bool_decide_eq_false_2 in HA by apply Z.lt_irrefl. injection HA as <- <-.
    pose proof (wrap64_u64 (n + 1)) as Hw.
    split; [apply Forall_singleton; by split_and!|]. split; [apply NoDup_singleton|].
    split; [by apply Forall_singleton|]. split; [done|]. split; [done|]. apply Forall_singleton. cbn. lia.
Qed.

Lemma entry_sum_perm es1 es2 : es1 ≡ₚ es2 → entry_sum es1 = entry_sum es2.
Proof. intros Hp. unfold entry_sum. by rewrite Hp. Qed.

Section actions.
Context {T : Type} `{LawfulSnapshot T} `{!BatchStore T} (s : T) (Hok : store_ok s).
Context (Hst : staking_ok (content s)).

Lemma atomic_content ws :
  Forall valid_write ws →
  ∃ s', applyAtomicWrites s None ws = (s', Ok tt) ∧ store_ok s' ∧
    same_content (content s') (writes_content ws (content s)).
Proof.
  intros Hws. rewrite applyAtomicWrites_op by done. eexists. split; [done|].
  destruct (run_ops_content s [OpBatch ws]) as [Hok' Hc]; [apply has_batch|done|by constructor|].
  cbn [mbind list_bind op_writes] in Hc. rewrite app_nil_r in Hc. done.
Qed.

Lemma delegate_writes_coins d v amount key ws u :
  is_u64 amount → delegate_writes s None d v amount key = Ok (ws, u) →
  keeps_coins (content s) (writes_content ws (content s)).
Proof.
  intros Ham HD. unfold delegate_writes in HD. result_inv HD. subst ws. guard_inv HD0. destruct HD0 as [[Hd Hv] Ha].
  apply staking_balance_Ok in HD3 as [-> [Hb0 _]]; [|done|done|apply Hst].
  guard_inv HD4. apply getUint64_Ok in HD5 as [-> Hu1]; [|done|auto]. apply getUint64_Ok in HD6 as [-> Hu2]; [|done|auto].
  guard_inv HD7. rewrite !no_overflow in HD7 by done. destruct HD7 as [Ho1 Ho2].
  assert (is_u64 (uint_at (content s) (stakeKey d v) + amount)) as Hsum by (destruct Ham, Hu1; split; lia).
  rewrite staking_bankBalanceKey_eq. eapply keeps_coins_writes.
  - apply staking_ok_harmless; [all_harmless|done].
  - coin_filter. done.
  - apply NoDup_cons. split; [by intros Hin%list_elem_of_singleton|apply NoDup_singleton].
  - cbn [fmap list_fmap]. rewrite !sumZ_cons. change (sumZ []) with 0.
    rewrite gain_bank, gain_staking by (autorewrite with coin_keys; done).
    rewrite wrap64_small by done. rewrite encodeUint64_decode by done.
    rewrite staking_encode_decode by lia. unfold balance_of. lia.
Qed.

Lemma append_replaces d v existing amount release ws :
  entries_of (content s) (account d v) = Some existing → Forall entry_ok existing →
  NoDup (unbonding_ID <$> existing) →
  Forall (λ e, unbonding_legacy e = false → unbonding_ID e ≠ 0) existing →
  is_u64 amount → amount ≠ 0 → is_u64 release → release ≠ 0 →
  appendUnbondingEntryWrites s None d v existing amount release = Ok ws →
  ∃ entries, replaces (account d v) entries ws ∧ Forall entry_ok entries ∧
    NoDup (unbonding_ID <$> entries) ∧ Forall (λ e, unbonding_legacy e = false → unbonding_ID e ≠ 0) entries ∧
    entry_sum entries = entry_sum existing + amount ∧
    ∃ e, e ∈ entries ∧ unbonding_Amount e = amount ∧ unbonding_ReleaseHeight e = release.
Proof.
  intros HE He Hnd Hids Ham Ha0 Hrel Hr0 HA. unfold appendUnbondingEntryWrites in HA. result_inv HA.
  apply getUint64_Ok in HA0 as [_ Hr]; [|done|auto].
  destruct (assign_ids existing r) as [es n] eqn:Eas.
  apply assign_ids_Ok in Eas as (Hes & Hnd' & Hleg & Hsum & Hn & Hle); [|done..|by eapply entries_of_shape|done].
  set (new := mkUnbonding (wrap64 (n + 1)) amount release false) in *.
  assert (Forall entry_ok (es ++ [new])) as Hok'.
  { apply Forall_app. split; [done|]. apply Forall_singleton. split_and!; try done. apply wrap64_u64. }
  pose proof (replace_ids d v _ _ _ Hok' HA) as Hz.
  assert (wrap64 (n + 1) ≠ 0) as Hnew.
  { apply Forall_app in Hz as [_ Hz]. by rewrite Forall_singleton in Hz. }
  assert (n < wrap64 (n + 1)) as Hlt.
  { destruct Hn as [Hn0 Hn1]. destruct (decide (n + 1 = two64)) as [Heq|Hne].
    - rewrite Heq in Hnew. done.
    - rewrite wrap64_small; [lia|]. unfold is_u64. lia. }
  assert (NoDup (unbonding_ID <$> es ++ [new])) as HN.
  { rewrite fmap_app. apply NoDup_app. split; [done|]. split; [|apply NoDup_singleton].
    intros id (e & -> & Hin)%list_elem_of_fmap Hid. rewrite Forall_forall in Hle.
    specialize (Hle e Hin). apply (list_elem_of_singleton _ (unbonding_ID new)) in Hid. cbn in Hid. lia. }
  assert (Forall (λ e, unbonding_legacy e = false) (es ++ [new])) as HL.
  { apply Forall_app. split; [done|]. by apply Forall_singleton. }
  pose proof HA as HR. apply replaces_some in HR; [|by destruct es|done..].
  exists (es ++ [new]). split_and!; try done.
  - eapply Forall_impl; [exact Hz|]. done.
  - rewrite entry_sum_app, Hsum. unfold entry_sum at 2. cbn. rewrite sumZ_cons. change (sumZ []) with 0. lia.
  - exists new. split; [|done]. apply elem_of_app. right. by apply list_elem_of_singleton.
Qed.

Lemma undelegate_writes_coins module height d v amount ws p :
  is_u64 amount → is_u64 height → staking_module_ok module →
  undelegate_writes module s None height d v amount = Ok (ws, p) →
  keeps_coins (content s) (writes_content ws (content s)).
Proof.
  intros Ham Hh (_ & _ & Hdel & Hdel0) HD. unfold undelegate_writes in HD. result_inv HD. subst ws. guard_inv HD0.
  destruct HD0 as [[Hd Hv] Ha]. apply getUint64_Ok in HD1 as [-> Hu1]; [|done|auto].
  guard_inv HD2. apply load_Ok in HD5; [|done..].
  destruct (ok_unbonding _ Hst (account d v)) as (es & HE & He & Hnd & Hsum & Hids).
  rewrite HD5 in HE. injection HE as ->. guard_inv HD8. rewrite no_overflow in HD8 by done.
  assert (is_u64 (height + unbondingDelay module)) as Hrel by (destruct Hh, Hdel; split; lia).
  rewrite wrap64_small in HD9 by done.
  apply append_replaces in HD9 as (entries & HR & Hok' & Hnd' & Hids' & Hsum' & _); [|done..|destruct Hh, Hdel; lia].
  pose proof HR as [_ _ _ (w & Hf & Hw & Hg)].
  change (writes_content (?a :: ?b :: ?l)) with (writes_content ([a; b] ++ l)). eapply keeps_coins_writes.
  - rewrite writes_content_app. eapply staking_ok_replaces; [done..|].
    apply staking_ok_harmless; [all_harmless|done].
  - rewrite filter_app, Hf. coin_filter. done.
  - cbn. rewrite Hw. apply NoDup_cons. split; [|apply NoDup_singleton].
    intros Hin%list_elem_of_singleton%place_inj. revert Hin. other_key.
  - cbn [fmap list_fmap app]. rewrite !sumZ_cons. change (sumZ []) with 0. rewrite Hg, Hsum', Hsum.
    rewrite gain_staking by (autorewrite with coin_keys; done).
    rewrite wrap64_small by (destruct Hu1, Ham; split; lia).
    rewrite encodeUint64_decode by (destruct Hu1, Ham; split; lia). lia.
Qed.

Lemma claimRewards_writes_coins d v ws :
  claimRewards_writes s None d v = Ok ws → keeps_coins (content s) (writes_content ws (content s)).
Proof.
  intros HD. unfold claimRewards_writes, validateBankBalanceBig in HD. result_inv HD. subst ws. guard_inv HD0.
  destruct HD0 as [Hd Hv]. apply RewardsBig_Ok in HD1 as [-> [Hr0 _]]; [|done].
  apply staking_balance_Ok in HD3 as [-> [Hb0 _]]; [|done|done|apply Hst].
  rewrite staking_bankBalanceKey_eq. eapply keeps_coins_writes.
  - apply staking_ok_harmless; [all_harmless|done].
  - coin_filter. done.
  - apply NoDup_cons. split; [by intros Hin%list_elem_of_singleton|apply NoDup_singleton].
  - cbn [fmap list_fmap]. rewrite !sumZ_cons. change (sumZ []) with 0.
    rewrite gain_bank, gain_staking by (autorewrite with coin_keys; done).
    rewrite !staking_encode_decode by lia. unfold balance_of. lia.
Qed.

(** The entries a withdrawal keeps, and the writes that drop the others. *)
Lemma withdraw_replaces d v es P `{∀ e, Decision (P e)} ws :
  entries_of (content s) (account d v) = Some es → Forall entry_ok es → NoDup (unbonding_ID <$> es) →
  Forall (λ e, unbonding_legacy e = false → unbonding_ID e ≠ 0) es → filter P es ≠ [] →
  replaceUnbondingEntriesWrites d v (filter (λ e, ¬ P e) es) = Ok ws →
  replaces (account d v) (filter (λ e, ¬ P e) es)
    (ws ++ ((λ e, mkWrite StakingName (unbondingEntryKey d v (unbonding_ID e)) [] true) <$>
              filter (λ e, unbonding_legacy e = false) (filter P es))).
Proof.
  intros HE He Hnd Hids Hne HW. set (gone := filter P es) in *. set (kept := filter (λ e, ¬ P e) es) in *.
  assert (Forall entry_ok kept) as Hk by (by apply Forall_filter).
  assert (Forall entry_ok gone) as Hg by (by apply Forall_filter).
  assert (gone ++ kept ≡ₚ es) as Hp by apply filter_app_complement.
  assert (NoDup (unbonding_ID <$> gone) ∧ NoDup (unbonding_ID <$> kept) ∧
    ∀ id, id ∈ unbonding_ID <$> gone → id ∉ unbonding_ID <$> kept) as (_ & Hndk & Hdis).
  { rewrite <-Hp, fmap_app, NoDup_app in Hnd. naive_solver. }
  replace ((λ e, mkWrite StakingName (unbondingEntryKey d v (unbonding_ID e)) [] true) <$>
    filter (λ e, unbonding_legacy e = false) gone)
    with ((λ id, mkWrite StakingName (entries_key (account d v) (format_uint id)) [] true) <$>
      (unbonding_ID <$> filter (λ e, unbonding_legacy e = false) gone)).
  2:{ rewrite <-list_fmap_compose. apply list_fmap_ext. intros i e _. cbn. by rewrite unbondingEntryKey_account. }
  apply replaces_deletes.
  - apply Forall_fmap. eapply Forall_impl; [exact Hk|]. by intros e (? & _).
  - apply Forall_fmap. eapply Forall_impl; [apply Forall_filter, Hg|]. by intros e (? & _).
  - intros id (e & -> & [_ Hin]%list_elem_of_filter)%list_elem_of_fmap. apply Hdis. by apply list_elem_of_fmap_2.
  - unfold replaceUnbondingEntriesWrites in HW. destruct kept as [|e kept'] eqn:Ek; [by eapply replaces_none|].
    eapply replaces_some; [done|done|done| |exact HW]. rewrite <-Ek in *.
    destruct (entries_of_shape _ _ _ HE) as [Hleg|(amount & release & ->)]; [by apply Forall_filter|].
    exfalso. apply Permutation_length in Hp. rewrite length_app, Ek in Hp. destruct gone; [done|]. cbn in Hp. lia.
Qed.

Lemma withdrawUnbonded_writes_coins height d v ws :
  withdrawUnbonded_writes s None height d v = Ok ws →
  keeps_coins (content s) (writes_content ws (content s)).
Proof.
  intros HD. unfold withdrawUnbonded_writes, validateBankBalanceBig in HD. result_inv HD. subst ws.
  guard_inv HD0. destruct HD0 as [Hd Hv]. apply load_Ok in HD1; [|done..].
  destruct (ok_unbonding _ Hst (account d v)) as (es & HE & He & Hnd & Hsum & Hids).
  rewrite HD1 in HE. injection HE as ->. apply bool_decide_eq_true in HD3.
  apply sumUnbondingEntries_Ok in HD4 as [-> _]; [|by apply Forall_filter].
  apply staking_balance_Ok in HD5 as [-> [Hb0 _]]; [|done|done|apply Hst].
  apply withdraw_replaces in HD6 as HR; [|done..]. pose proof HR as [_ _ _ (w & Hf & Hw & Hg)].
  set (gone := filter (λ e, unbonding_ReleaseHeight e ≤ height) es) in *.
  set (kept := filter (λ e, ¬ unbonding_ReleaseHeight e ≤ height) es) in *.
  assert (entry_sum gone + entry_sum kept = entry_sum es) as Hsplit.
  { rewrite <-entry_sum_app. apply entry_sum_perm, filter_app_complement. }
  rewrite staking_bankBalanceKey_eq.
  change (writes_content (?a :: ?l)) with (writes_content ([a] ++ l)). eapply keeps_coins_writes.
  - rewrite writes_content_app. eapply staking_ok_replaces; [exact HR|by apply Forall_filter| |by apply Forall_filter|].
    + eapply sublist_NoDup; [exact Hnd|]. apply fmap_sublist, sublist_filter.
    + apply staking_ok_harmless; [all_harmless|done].
  - rewrite filter_app, Hf. coin_filter. done.
  - cbn. rewrite Hw. apply NoDup_cons. split; [by intros Hin%list_elem_of_singleton|apply NoDup_singleton].
  - cbn [fmap list_fmap app]. rewrite !sumZ_cons. change (sumZ []) with 0. rewrite Hg, gain_bank.
    pose proof (entry_sum_nonneg gone ltac:(by apply Forall_filter)) as Hn.
    rewrite staking_encode_decode by lia. unfold balance_of. lia.
Qed.
End actions.
