(* ===== verification/StakingFees.v ===== *)
(** * Sharing the fees ([src/modules/staking/staking.go], [distributeFees])

    At the end of a block the balance of the fee collector is divided among the
    validators by power and, after the commission, among the delegators of each
    validator by stake.  What the collector pays is what the rewards receive. *)

From S2P Require Import Prelude GoLib Sha256 Merkle Types Strconv TxTags Text Json JsonPrint Economics Address CanonicalTx.
From S2P Require Import FairOrdering Validator SignBytes StateProof Store Staged Bank Ante Events App.
From S2P Require Import BlockExecution Evidence Slashing Staking StakingStore StakingLedger.

(** ** Shares *)

Lemma proportionalShareBig_eq total part whole :
  whole ≠ 0 → proportionalShareBig total part whole = total * part / whole.
Proof.
  intros Hw. unfold proportionalShareBig.
  destruct (decide (total = 0)) as [->|Ht]; [by bool_decide_all|].
  destruct (decide (part = 0)) as [->|Hp]; [|by bool_decide_all].
  bool_decide_all. by rewrite Z.mul_0_r.
Qed.

Lemma proportionalShareBig_nonneg total part whole :
  0 ≤ total → 0 ≤ part → 0 ≤ whole → 0 ≤ proportionalShareBig total part whole.
Proof.
  intros Ht Hp Hw. destruct (decide (whole = 0)) as [->|Hw0].
  - unfold proportionalShareBig. destruct (_ || _); [done|]. by rewrite Z.div_0_r.
  - rewrite proportionalShareBig_eq by done. apply Z.div_pos; nia.
Qed.

Lemma proportionalShareBig_le total part whole :
  0 ≤ total → 0 ≤ part ≤ whole → proportionalShareBig total part whole ≤ total.
Proof.
  intros Ht Hp. destruct (decide (whole = 0)) as [->|Hw0].
  - unfold proportionalShareBig. destruct (_ || _); [done|]. by rewrite Z.div_0_r.
  - rewrite proportionalShareBig_eq by done. apply Z.div_le_upper_bound; nia.
Qed.

Lemma shares_zero {A} total (f : A → Z) l : sumZ ((λ a, proportionalShareBig total (f a) 0) <$> l) = 0.
Proof.
  induction l as [|a l IH]; [done|]. cbn [fmap list_fmap]. rewrite sumZ_cons, IH.
  unfold proportionalShareBig. rewrite (bool_decide_eq_true_2 (0 = 0)) by done. by rewrite orb_true_r.
Qed.

(** Shares of parts that do not exceed the whole do not exceed the total. *)
Lemma shares_le total parts whole :
  0 ≤ total → Forall (λ p, 0 ≤ p) parts → 0 ≤ whole → sumZ parts ≤ whole →
  sumZ ((λ p, proportionalShareBig total p whole) <$> parts) ≤ total.
Proof.
  intros Ht Hp Hw Hs. destruct (decide (whole = 0)) as [->|Hw0].
  - by rewrite shares_zero.
  - assert (sumZ ((λ p, proportionalShareBig total p whole) <$> parts) * whole ≤ total * sumZ parts) as Hb.
    { clear Hs. induction Hp as [|p parts Hp0 Hp IH]; [cbn; change (sumZ []) with 0; lia|].
      cbn [fmap list_fmap]. rewrite !sumZ_cons. rewrite (proportionalShareBig_eq total p) by done.
      pose proof (Z.mul_div_le (total * p) whole ltac:(lia)). nia. }
    nia.
Qed.

(** ** The map of rewards *)

Abbreviation rewards_total := (map_total (λ (_ : string) (amount : Z), amount)).

Lemma addReward_total rewards d v amount rewards' :
  addReward rewards d v amount = Ok rewards' → rewards_total rewards' = rewards_total rewards + amount.
Proof.
  unfold addReward. intros HA. result_inv HA. subst rewards'. rewrite map_total_insert.
  destruct (rewards !! rewardMapKey d v); cbn; lia.
Qed.

(** Keys of rewards are free of slashes and hold the separator. *)
Definition reward_key_ok (key : string) : Prop :=
  str_elem "/" key = false ∧ is_Some (str_cut "000" key).

Definition rewards_ok (rewards : gmap string Z) : Prop := ∀ key, is_Some (rewards !! key) → reward_key_ok key.

Lemma str_cut_app sep s t : str_elem sep s = false → str_cut sep (s ++ String sep t) = Some (s, t).
Proof.
  induction s as [|a s IH]; intros Hs.
  - change ("" ++ ?t)%string with t. cbn [str_cut]. by rewrite bool_decide_eq_true_2.
  - change (String a s ++ ?t)%string with (String a (s ++ t)). cbn [str_elem str_cut] in *.
    apply orb_false_iff in Hs as [Ha Hs]. apply bool_decide_eq_false in Ha.
    rewrite bool_decide_eq_false_2 by done. by rewrite IH.
Qed.

Lemma str_cut_Some sep s a b : str_cut sep s = Some (a, b) → s = (a ++ String sep b)%string.
Proof.
  revert a b. induction s as [|x s IH]; intros a b HC; [done|]. cbn [str_cut] in HC. case_bool_decide as Hx.
  - injection HC as <- <-. by subst x.
  - apply bind_Some in HC as ([a' b'] & HC & [= <- <-]). by rewrite (IH _ _ HC).
Qed.

Lemma str_cut_is_Some sep s t : is_Some (str_cut sep (s ++ String sep t)).
Proof.
  induction s as [|a s IH]; [|].
  { change ("" ++ ?t)%string with t. cbn [str_cut]. rewrite bool_decide_eq_true_2 by done. by eexists. }
  change (String a s ++ ?t)%string with (String a (s ++ t)). cbn [str_cut]. case_bool_decide; [by eexists|].
  destruct IH as [[x y] ->]. by eexists.
Qed.

Lemma rewardMapKey_ok d v : str_elem "/" d = false → str_elem "/" v = false → reward_key_ok (rewardMapKey d v).
Proof.
  intros Hd Hv. split; [|apply str_cut_is_Some]. unfold rewardMapKey. rewrite str_elem_app, Hd. done.
Qed.

Lemma addReward_ok rewards d v amount rewards' :
  str_elem "/" d = false → str_elem "/" v = false → rewards_ok rewards →
  addReward rewards d v amount = Ok rewards' → rewards_ok rewards'.
Proof.
  intros Hd Hv Hr. unfold addReward. intros HA. result_inv HA. subst rewards'. intros key Hkey.
  destruct (decide (key = rewardMapKey d v)) as [->|Hne]; [by apply rewardMapKey_ok|].
  rewrite lookup_insert_ne in Hkey by done. by apply Hr.
Qed.

(** Different keys of the map are different records of the store. *)
Lemma rewardKey_inj k1 k2 :
  reward_key_ok k1 → reward_key_ok k2 →
  rewardKey (splitRewardMapKey k1).1 (splitRewardMapKey k1).2 =
  rewardKey (splitRewardMapKey k2).1 (splitRewardMapKey k2).2 → k1 = k2.
Proof.
  intros [H1 [[d1 v1] E1]] [H2 [[d2 v2] E2]]. unfold splitRewardMapKey. rewrite E1, E2. cbn [fst snd].
  intros Heq%(inj bytes_of_string). apply string_app_inj in Heq.
  apply str_cut_Some in E1 as ->, E2 as ->. rewrite str_elem_app in H1, H2.
  apply orb_false_iff in H1 as [_ H1], H2 as [_ H2]. cbn [str_elem] in H1, H2.
  apply orb_false_iff in H1 as [_ H1], H2 as [_ H2].
  by destruct (last_slash_inj d1 d2 v1 v2 H1 H2 Heq) as [-> ->].
Qed.

(** ** Inputs *)

Definition delegation_ok (d : delegationRecord) : Prop :=
  str_elem "/" (delegation_delegator d) = false ∧ str_elem "/" (delegation_validatorID d) = false ∧
  0 < delegation_stake d < two64.

Definition power_ok (p : validatorPowerRecord) : Prop :=
  str_elem "/" (power_validatorID p) = false ∧ 0 < power_power p < two64.

Lemma str_split_pieces sep s : Forall (λ w, str_elem sep w = false) (str_split sep s).
Proof.
  induction s as [|a s IH]; [by repeat constructor|]. cbn [str_split]. case_bool_decide as Ha; [by constructor|].
  destruct (str_split sep s) as [|w ws]; [repeat constructor; cbn; by rewrite bool_decide_eq_false_2|].
  apply Forall_cons in IH as [Hw Hws]. constructor; [|done]. cbn [str_elem].
  by rewrite bool_decide_eq_false_2, Hw.
Qed.

Lemma parseStakeKey_ok key d v :
  parseStakeKey key = Some (d, v) → str_elem "/" d = false ∧ str_elem "/" v = false.
Proof.
  unfold parseStakeKey. pose proof (str_split_pieces "/" key) as Hp.
  destruct (str_split "/" key) as [|k [|x [|y [|? ?]]]]; try done. destruct (_ && _); [|done].
  intros [= <- <-]. apply Forall_cons in Hp as [_ Hp]. apply Forall_cons in Hp as [Hx Hp].
  by apply Forall_cons in Hp as [Hy _].
Qed.

Lemma parseValidatorPowerKey_ok key v : parseValidatorPowerKey key = Some v → str_elem "/" v = false.
Proof.
  unfold parseValidatorPowerKey. pose proof (str_split_pieces "/" key) as Hp.
  destruct (str_split "/" key) as [|k [|x [|y [|? ?]]]]; try done. destruct (_ && _); [|done].
  intros [= <-]. apply Forall_cons in Hp as [_ Hp]. by apply Forall_cons in Hp as [Hx _].
Qed.

Lemma stakingRewardInputs_ok pairs vs ds :
  stakingRewardInputs pairs = Ok (vs, ds) → Forall power_ok vs ∧ Forall delegation_ok ds.
Proof.
  revert vs ds. induction pairs as [|kv pairs IH]; intros vs ds HI; cbn [stakingRewardInputs] in HI.
  { injection HI as <- <-. done. }
  destruct (_ && _).
  - destruct (parseValidatorPowerKey _) as [v|] eqn:EP; [|by apply IH].
    apply bind_Ok in HI as (power & [_ Hu]%decodeUint64_Ok & HI). apply bind_Ok in HI as ([vs' ds'] & HI' & HI).
    apply IH in HI' as [Hvs Hds]. injection HI as <- <-. split; [|done]. case_bool_decide; [|done].
    constructor; [|done]. apply parseValidatorPowerKey_ok in EP. destruct Hu. by split.
  - destruct (has_prefix _ _); [|by apply IH].
    destruct (parseStakeKey _) as [[d v]|] eqn:EP; [|by apply IH].
    apply bind_Ok in HI as (stake & [_ Hu]%decodeUint64_Ok & HI). apply bind_Ok in HI as ([vs' ds'] & HI' & HI).
    apply IH in HI' as [Hvs Hds]. injection HI as <- <-. split; [done|]. case_bool_decide; [|done].
    constructor; [|done]. apply parseStakeKey_ok in EP as [Hd Hv]. destruct Hu. by split_and!.
Qed.

Lemma total_power_Ok vs total n :
  Forall power_ok vs → is_u64 total → total_power vs total = Ok n →
  n = total + sumZ (power_power <$> vs).
Proof.
  intros Hvs. revert total. induction Hvs as [|p vs [_ Hp] Hvs IH]; intros total Ht HT; cbn [total_power] in HT.
  { injection HT as <-. change (sumZ (power_power <$> [])) with 0. lia. }
  result_inv HT. assert (is_u64 (power_power p)) as Hu by (split; lia).
  rewrite negb_true_iff, bool_decide_eq_false, no_overflow in HT0 by done.
  assert (is_u64 (total + power_power p)) as Hs by (destruct Ht; split; lia).
  rewrite wrap64_small in HT by done. apply IH in HT; [|done]. cbn [fmap list_fmap]. rewrite sumZ_cons. lia.
Qed.

(** Grouping collects the delegations of each validator and their stakes. *)
Lemma group_delegations_Ok ds byV stakes byV' stakes' v :
  Forall delegation_ok ds → (∀ v, is_u64 (default 0 (stakes !! v))) →
  group_delegations ds byV stakes = Ok (byV', stakes') →
  let mine := filter (λ d, delegation_validatorID d = v) ds in
  default [] (byV' !! v) = default [] (byV !! v) ++ mine ∧
  default 0 (stakes' !! v) = default 0 (stakes !! v) + sumZ (delegation_stake <$> mine).
Proof.
  intros Hds. revert byV stakes. induction Hds as [|d ds (_ & _ & Hd) Hds IH]; intros byV stakes Hst HG;
    cbn [group_delegations] in HG.
  { injection HG as <- <-. cbn. rewrite app_nil_r. split; [done|]. change (sumZ []) with 0. lia. }
  result_inv HG. assert (is_u64 (delegation_stake d)) as Hu by (split; lia).
  specialize (Hst (delegation_validatorID d)) as Hst'.
  rewrite negb_true_iff, bool_decide_eq_false, no_overflow in HG0 by done.
  assert (is_u64 (default 0 (stakes !! delegation_validatorID d) + delegation_stake d)) as Hs
    by (destruct Hst'; split; lia).
  rewrite wrap64_small in HG by done. apply IH in HG as [HB HS].
  - cbv zeta. rewrite filter_cons. case_decide as Hv.
    + subst v. rewrite lookup_insert_eq in HB. rewrite lookup_insert_eq in HS. cbn [default from_option id] in HB, HS.
      rewrite <-app_assoc in HB. cbn [fmap list_fmap]. rewrite sumZ_cons. split; [exact HB|]. cbn in HS. lia.
    + rewrite lookup_insert_ne in HB by done. by rewrite lookup_insert_ne in HS by done.
  - intros w. destruct (decide (w = delegation_validatorID d)) as [->|Hw].
    + by rewrite lookup_insert_eq.
    + by rewrite lookup_insert_ne.
Qed.

(** ** One validator *)

Lemma share_pool_Ok ds pool totalStake rewards given rewards' given' :
  Forall delegation_ok ds → rewards_ok rewards →
  share_pool ds pool totalStake rewards given = Ok (rewards', given') →
  given' = given + sumZ ((λ d, proportionalShareBig pool (delegation_stake d) totalStake) <$> ds) ∧
  rewards_total rewards' = rewards_total rewards + (given' - given) ∧ rewards_ok rewards'.
Proof.
  intros Hds. revert rewards given.
  induction Hds as [|d ds (Hd & Hv & _) Hds IH]; intros rewards given Hr HS; cbn [share_pool] in HS.
  { injection HS as <- <-. change (sumZ (_ <$> [])) with 0. split_and!; [lia|lia|done]. }
  cbn [fmap list_fmap]. rewrite sumZ_cons. case_bool_decide as H0.
  - apply IH in HS as (-> & Ht & Hok); [|done]. rewrite H0. split_and!; [lia|lia|done].
  - apply bind_Ok in HS as (rewards1 & HA & HS). apply addReward_ok in HA as Hok1; [|done..].
    apply addReward_total in HA. apply IH in HS as (-> & Ht & Hok); [|done]. split_and!; [lia|lia|done].
Qed.

Lemma share_fee_Ok v fee bps ds totalStake rewards rewards' :
  str_elem "/" v = false → Forall delegation_ok ds → rewards_ok rewards →
  0 ≤ fee → 0 ≤ bps ≤ commissionDenominatorBPS → totalStake = sumZ (delegation_stake <$> ds) →
  share_fee v fee bps ds totalStake rewards = Ok rewards' →
  rewards_total rewards' = rewards_total rewards + fee ∧ rewards_ok rewards'.
Proof.
  intros Hv Hds Hr Hfee Hbps Htot HS. unfold share_fee in HS.
  set (commission := proportionalShareBig fee bps commissionDenominatorBPS) in *.
  pose proof (proportionalShareBig_le fee bps commissionDenominatorBPS Hfee Hbps) as Hc1.
  pose proof (proportionalShareBig_nonneg fee bps commissionDenominatorBPS Hfee ltac:(lia) ltac:(done)) as Hc0.
  fold commission in Hc0, Hc1.
  apply bind_Ok in HS as (r1 & HR1 & HS).
  assert (rewards_total r1 = rewards_total rewards + commission ∧ rewards_ok r1) as [T1 O1].
  { destruct (bool_decide (0 < commission)) eqn:Ec; [|injection HR1 as <-; apply bool_decide_eq_false in Ec; split; [lia|done]].
    split; [by eapply addReward_total|]. by eapply addReward_ok. }
  apply bind_Ok in HS as ([r2 given] & HR2 & HS).
  assert (rewards_total r2 = rewards_total rewards + given ∧ rewards_ok r2 ∧ commission ≤ given ∧
    (given = commission ∨ given = fee ∧ totalStake = 0)) as (T2 & O2 & Hge & Hg).
  { destruct (bool_decide (0 < fee - commission) && _) eqn:Eb in HR2.
    - apply bind_Ok in HR2 as (r & HA & HR2). injection HR2 as <- <-.
      apply andb_true_iff in Eb as [Hpos%bool_decide_eq_true Eb]. apply addReward_ok in HA as HO; [|done..].
      apply addReward_total in HA. split_and!; [lia|done|lia|]. right. split; [lia|].
      apply orb_true_iff in Eb as [Eb%bool_decide_eq_true|Eb%bool_decide_eq_true]; [|done].
      apply nil_length_inv in Eb. rewrite Eb in Htot. done.
    - injection HR2 as <- <-. split_and!; [done|done|lia|by left]. }
  apply bind_Ok in HS as ([r3 given'] & HR3 & HS). apply share_pool_Ok in HR3 as (Hgiven & T3 & O3); [|done..].
  assert (given' ≤ fee) as Hle.
  { subst given'. destruct Hg as [->|[-> ->]]; [|rewrite shares_zero; lia].
    pose proof (shares_le (fee - commission) (delegation_stake <$> ds) totalStake ltac:(lia)) as Hsh.
    rewrite <-list_fmap_compose in Hsh. unfold compose in Hsh.
    assert (Forall (λ p, 0 ≤ p) (delegation_stake <$> ds)) as Hpos.
    { apply Forall_fmap. eapply Forall_impl; [exact Hds|]. intros d (_ & _ & ?). cbn. lia. }
    specialize (Hsh Hpos). pose proof (sumZ_nonneg _ Hpos). specialize (Hsh ltac:(lia) ltac:(lia)). lia. }
  case_bool_decide as Hlt.
  - apply addReward_ok in HS as HO; [|done..]. apply addReward_total in HS. split; [lia|done].
  - injection HS as <-. split; [lia|done].
Qed.

(** ** All validators *)

Section fees.
Context {T : Type} `{LawfulSnapshot T} `{!BatchStore T} (s : T) (Hok : store_ok s).
Context (Hst : staking_ok (content s)).

Lemma share_fees_Ok balance totalPower ds byV stakes vs rewards distributed rewards' distributed' :
  0 ≤ balance → 0 < totalPower → Forall power_ok vs → Forall delegation_ok ds → rewards_ok rewards →
  (∀ v, let mine := filter (λ d, delegation_validatorID d = v) ds in
    default [] (byV !! v) = mine ∧ default 0 (stakes !! v) = sumZ (delegation_stake <$> mine)) →
  share_fees s None balance totalPower byV stakes vs rewards distributed = Ok (rewards', distributed') →
  distributed' = distributed + sumZ ((λ p, proportionalShareBig balance (power_power p) totalPower) <$> vs) ∧
  rewards_total rewards' = rewards_total rewards + (distributed' - distributed) ∧ rewards_ok rewards'.
Proof.
  intros Hb Htp Hvs Hds Hr Hgroup. revert rewards distributed Hr.
  induction Hvs as [|p vs [Hp Hpow] Hvs IH]; intros rewards distributed Hr HS; cbn [share_fees] in HS.
  { injection HS as <- <-. change (sumZ (_ <$> [])) with 0. split_and!; [lia|lia|done]. }
  cbn [fmap list_fmap]. rewrite sumZ_cons. case_bool_decide as H0'.
  - apply IH in HS as (-> & Ht & Hok'); [|done]. rewrite H0'. split_and!; [lia|lia|done].
  - apply bind_Ok in HS as (bps & [-> Hu]%(getUint64_Ok s Hok) & HS); [|auto].
    apply bind_Ok in HS as (rewards1 & HF & HS).
    destruct (Hgroup (power_validatorID p)) as [Hmine Hsum].
    pose proof (ok_commission _ Hst (power_validatorID p)) as Hcom.
    apply share_fee_Ok in HF as [T1 O1]; [|done| |done| |destruct Hu; lia|by rewrite Hmine].
    + apply IH in HS as (-> & Ht & Hok'); [|done]. split_and!; [lia|lia|done].
    + rewrite Hmine. by apply Forall_filter.
    + apply proportionalShareBig_nonneg; lia.
Qed.

(** The reward writes are at different keys, and each adds its amount. *)
Lemma reward_writes_Ok entries ws :
  NoDup entries.*1 → Forall (λ e, reward_key_ok e.1) entries →
  reward_writes s None entries = Ok ws →
  NoDup (write_key <$> ws) ∧ Forall harmless ws ∧ filter coin_write ws = ws ∧
  sumZ (gain (content s) <$> ws) = sumZ entries.*2 ∧
  write_key <$> ws = (λ e, (StakingName, rewardKey (splitRewardMapKey e.1).1 (splitRewardMapKey e.1).2)) <$> entries.
Proof.
  revert ws. induction entries as [|[key amount] entries IH]; intros ws Hnd Hk HR; cbn [reward_writes] in HR.
  { injection HR as <-. split_and!; [apply NoDup_nil_2|done..]. }
  destruct (splitRewardMapKey key) as [d v] eqn:Esp. result_inv HR. subst ws.
  cbn [fmap list_fmap fst] in Hnd. apply NoDup_cons in Hnd as [Hn Hnd]. apply Forall_cons in Hk as [Hkey Hk].
  apply RewardsBig_Ok in HR0 as [-> [Hr0 _]]; [|done]. unfold validateBankBalanceBig in HR1. apply check_Ok in HR1.
  guard_inv HR1. destruct HR1 as [Hpos _].
  apply IH in HR2 as (HN & HH & HF & HG & HK); [|done..]. split_and!.
  - cbn [fmap list_fmap]. apply NoDup_cons. split; [|done]. rewrite HK. intros ([key' a'] & Heq & Hin)%list_elem_of_fmap.
    apply place_inj in Heq. apply Hn. cbn [KW_Key fst] in Heq.
    rewrite Forall_forall in Hk. specialize (Hk _ Hin). cbn [fst] in Hk.
    assert (key = key') as ->; [|by apply (list_elem_of_fmap_2 fst) in Hin].
    apply rewardKey_inj; [done|done|]. by rewrite Esp.
  - constructor; [auto|done].
  - rewrite filter_cons_True by (apply staking_coin_write; autorewrite with coin_keys; done). by rewrite HF.
  - cbn [fmap list_fmap snd]. rewrite !sumZ_cons, HG. rewrite gain_staking by (autorewrite with coin_keys; done).
    rewrite staking_encode_decode by lia. lia.
  - cbn [fmap list_fmap fst]. rewrite HK, Esp. done.
Qed.

Lemma fees_writes_coins order module ws :
  feeCollector module ≠ "" → fees_writes order module s None = Ok (Some ws) →
  keeps_coins (content s) (writes_content ws (content s)).
Proof.
  intros Hc HF. unfold fees_writes in HF. apply bind_Ok in HF as (balance & HB & HF).
  apply staking_balance_Ok in HB as [-> [Hb0 _]]; [|done|done|apply Hst].
  case_bool_decide; [done|]. destruct store_ExportNamespace as [export|]; [|done].
  apply bind_Ok in HF as (pairs & _ & HF). apply bind_Ok in HF as ([vs ds] & HI & HF).
  apply stakingRewardInputs_ok in HI as [Hvs Hds]. apply bind_Ok in HF as (total & HT & HF).
  apply total_power_Ok in HT as ->; [|done|done]. rewrite Z.add_0_l in HF.
  assert (0 ≤ sumZ (power_power <$> vs)) as Hp0.
  { apply sumZ_nonneg, Forall_fmap. eapply Forall_impl; [exact Hvs|]. intros p [_ ?]. cbn. lia. }
  case_bool_decide as Hz; [done|]. apply bind_Ok in HF as ([byV stakes] & HG & HF).
  apply bind_Ok in HF as ([rewards dist] & HS & HF). case_bool_decide; [done|].
  apply bind_Ok in HF as (rws & HR & HF). injection HF as <-.
  apply (share_fees_Ok _ _ ds) in HS as (-> & Ht & Hrok); [|done|lia|done|done|by intros key [x Hx]|].
  2:{ intros v. apply (group_delegations_Ok _ _ _ _ _ v) in HG as [HGb HGs]; [|done|done]. cbn. by rewrite HGb, HGs. }
  apply reward_writes_Ok in HR as (HN & HH & HFl & HGn & HK).
  2:{ apply map_range_NoDup. }
  2:{ apply Forall_forall. intros [k a] Hin%elem_of_map_range. apply Hrok. by eexists. }
  rewrite staking_bankBalanceKey_eq. eapply keeps_coins_writes.
  - apply staking_ok_harmless; [|done]. constructor; [auto|done].
  - rewrite filter_cons_True by done. by rewrite HFl.
  - cbn [fmap list_fmap]. apply NoDup_cons. split; [|done]. rewrite HK.
    intros (e & Heq & _)%list_elem_of_fmap. done.
  - cbn [fmap list_fmap]. rewrite sumZ_cons, HGn, gain_bank.
    assert (sumZ (order rewards).*2 = rewards_total rewards) as ->.
    { unfold map_total. by rewrite (map_range_perm order rewards). }
    rewrite Ht. pose proof (shares_le (balance_of (content s) (feeCollector module)) (power_power <$> vs)
      (sumZ (power_power <$> vs)) Hb0) as Hle.
    rewrite <-list_fmap_compose in Hle. unfold compose in Hle.
    assert (Forall (λ p, 0 ≤ p) (power_power <$> vs)) as Hpos.
    { apply Forall_fmap. eapply Forall_impl; [exact Hvs|]. intros p [_ ?]. cbn. lia. }
    specialize (Hle Hpos Hp0 ltac:(lia)). change (rewards_total ∅) with 0.
    rewrite staking_encode_decode by lia. unfold balance_of. lia.
Qed.
End fees.
