(* ===== verification/StakingRun.v ===== *)
(** * Runs of the staking module ([src/modules/staking/staking.go])

    Every call of the module keeps its records well formed; transactions and the
    sharing of fees keep the sum of all coins, a slashing penalty burns the stake
    it takes.  The statements are for any store that keeps the promises of the
    interface, and for sequences of calls of any length. *)

From S2P Require Import Prelude GoLib Sha256 Merkle Types Strconv TxTags Text Json JsonPrint Economics Address CanonicalTx.
From S2P Require Import FairOrdering Validator SignBytes StateProof Store Staged Bank Ante Events App.
From S2P Require Import BlockExecution Evidence Slashing Staking StakingStore StakingLedger StakingFees.

Section calls.
Context {T : Type} `{LawfulSnapshot T} `{!BatchStore T}.
Context (error_text : error → string).

(** A run of the module left a good store with the same coins. *)
Definition good_store (s s' : T) : Prop := store_ok s' ∧ keeps_coins (content s) (content s').

Lemma good_store_refl s : store_ok s → staking_ok (content s) → good_store s s.
Proof. intros Hok Hst. split; [done|]. by apply keeps_coins_refl. Qed.

Lemma good_store_content s s' c :
  store_ok s' → same_content (content s') c → keeps_coins (content s) c → good_store s s'.
Proof.
  intros Hok Hc [Hst Hsup]. split; [done|]. split; [by eapply staking_ok_ext|].
  intros n Hn. eapply total_ext; [symmetry; exact Hc|]. by apply Hsup.
Qed.

Context (s : T) (Hok : store_ok s) (Hst : staking_ok (content s)).

Lemma atomic_good ws :
  Forall valid_write ws → keeps_coins (content s) (writes_content ws (content s)) →
  good_store s (applyAtomicWrites s None ws).1.
Proof.
  intros Hv Hk. destruct (atomic_content s Hok ws Hv) as (s' & -> & Hok' & Hc). by eapply good_store_content.
Qed.

Lemma atomically_good r :
  (∀ ws, r = Ok ws → Forall valid_write ws) →
  (∀ ws, r = Ok ws → keeps_coins (content s) (writes_content ws (content s))) →
  good_store s (atomically s None r).1.
Proof.
  intros Hv Hk. destruct r as [ws|e]; [|by apply good_store_refl]. by apply atomic_good; auto.
Qed.

Lemma delegate_good d v amount key : is_u64 amount → good_store s (delegate s None d v amount key).1.
Proof.
  intros Ha. unfold delegate. destruct (delegate_writes s None d v amount key) as [[ws u]|e] eqn:E;
    [|by apply good_store_refl].
  pose proof (atomic_good ws (delegate_writes_valid _ _ _ _ _ _ _ _ E)
    (delegate_writes_coins s Hok Hst _ _ _ _ _ _ Ha E)) as HG.
  by destruct (applyAtomicWrites s None ws) as [s' [?|?]].
Qed.

Lemma undelegate_good module height d v amount :
  is_u64 amount → is_u64 height → staking_module_ok module →
  good_store s (undelegate module s None height d v amount).1.
Proof.
  intros Ha Hh Hm. unfold undelegate.
  destruct (undelegate_writes module s None height d v amount) as [[ws p]|e] eqn:E; [|by apply good_store_refl].
  pose proof (atomic_good ws (undelegate_writes_valid _ _ _ _ _ _ _ _ _ E)
    (undelegate_writes_coins s Hok Hst _ _ _ _ _ _ _ Ha Hh Hm E)) as HG.
  destruct (applyAtomicWrites s None ws) as [s' [?|?]]; [|done]. by destruct (get_optional s' None _ _).
Qed.

Lemma unjail_good v : good_store s (unjail s None v).1.
Proof.
  unfold unjail. destruct (Tombstoned s None v ≫= _); [|by apply good_store_refl].
  destruct (store_Delete s None StakingName (jailKey v)) as [s' r] eqn:E.
  apply Delete_spec in E as [Hok' Hc]; [|auto..]. cbn [fst].
  destruct (is_ok r); [|by eapply good_store_content, keeps_coins_refl].
  eapply good_store_content; [done|exact Hc|]. split.
  - apply (staking_ok_harmless [mkWrite StakingName (jailKey v) [] true]); [all_harmless|done].
  - intros n Hn. pose proof (total_write _ coin_place_namespace (mkWrite StakingName (jailKey v) [] true) _ _ Hn) as Hs.
    rewrite gain_of_uncounted, Z.add_0_r in Hs; [done|]. rewrite staking_coin_write.
    unfold jailKey. autorewrite with coin_keys. done.
Qed.

Lemma staking_ok_commission v bps c :
  0 ≤ bps ≤ commissionDenominatorBPS → staking_ok c →
  staking_ok (write_content (mkWrite StakingName (commissionKey v) (encodeUint64 bps) false) c).
Proof.
  intros Hb [Hbank Hu Hc Hnum]. split.
  - intros a. destruct (Hbank a) as [?|Hn]; [by left|]. right. by rewrite write_other.
  - intros x. apply (unbonding_ok_ext c); [|done]. intros k Hk. apply write_other. intros Heq%place_inj.
    revert Hk. cbn in Heq. rewrite <-Heq. apply unbonding_not_validator.
  - intros w. unfold uint_at. rewrite write_content_key. case_decide as Heq; [|apply Hc].
    unfold write_value. cbn [KW_Delete KW_Value]. change (default [] (Some ?a)) with a.
    rewrite encodeUint64_decode; [lia|]. unfold commissionDenominatorBPS, is_u64, two64 in *. lia.
  - intros k Hk. rewrite write_other; [by apply Hnum|]. intros Heq%place_inj.
    by apply (number_not_commission k v).
Qed.

Lemma setCommission_good module tx v bps :
  staking_module_ok module → 0 ≤ bps → good_store s (setCommission module s None tx v bps).1.
Proof.
  intros (_ & Hmax & _) Hb. unfold setCommission. destruct (_ || _) eqn:Eg; [by apply good_store_refl|].
  apply orb_false_iff in Eg as [_ Eg]. apply bool_decide_eq_false in Eg.
  destruct (TxTag tx "signer") as [signer|]; [|by apply good_store_refl].
  case_bool_decide; [|by apply good_store_refl]. unfold setUint64.
  destruct (store_Set s None StakingName (commissionKey v) (encodeUint64 bps)) as [s' r] eqn:E.
  apply Set_spec in E as [Hok' Hc]; [|auto..]. cbn [fst].
  destruct (is_ok r); [|by eapply good_store_content, keeps_coins_refl].
  eapply good_store_content; [done|exact Hc|]. split; [by apply staking_ok_commission; [lia|]|].
  intros n Hn. pose proof (total_write _ coin_place_namespace (mkWrite StakingName (commissionKey v) (encodeUint64 bps) false) _ _ Hn) as Hs.
  rewrite gain_of_uncounted, Z.add_0_r in Hs; [done|]. rewrite staking_coin_write.
  unfold commissionKey. autorewrite with coin_keys. done.
Qed.
End calls.

Lemma staking_parseAmount_u64 text n : staking_parseAmount text = Ok n → is_u64 n.
Proof.
  unfold staking_parseAmount. destruct (parse_uint text) as [x|] eqn:E; [|done]. intros HP. result_inv HP.
  subst x. by apply parse_uint_u64 in E.
Qed.

Section deliver.
Context {T : Type} `{LawfulSnapshot T} `{!BatchStore T}.
Context (error_text : error → string).

(** A delivery left a good module and a good store. *)
Definition good_delivery (s : T) (p : StakingModule * T * option GasMeter * Result) : Prop :=
  staking_module_ok p.1.1.1 ∧ good_store s p.1.1.2.

Lemma with_gas_good s module gas cost run :
  staking_module_ok module → good_store s s → (∀ gas, good_delivery s (run gas)) →
  good_delivery s (with_gas error_text module s gas cost run).
Proof.
  intros Hm Hs Hrun. unfold with_gas. destruct (Gas_Consume gas cost) as [gas' [u|e]]; [apply Hrun|]. by split.
Qed.

Lemma finish_good s module gas p :
  staking_module_ok module → good_store s p.1 → good_delivery s (finish error_text module gas p).
Proof. intros Hm Hs. unfold finish. destruct p as [s' [u|e]]; by split. Qed.

Lemma finish_update_good s module gas p :
  staking_module_ok module → good_store s p.1 → good_delivery s (finish_update error_text module gas p).
Proof.
  intros Hm Hs. unfold finish_update. destruct p as [s' [u|e]]; split; try done; by destruct Hm as (? & ? & ?).
Qed.

Lemma deliver_parts_good s module gas height tx parts :
  store_ok s → staking_ok (content s) → staking_module_ok module → is_u64 height →
  good_delivery s (deliver_parts error_text module s gas None height tx parts).
Proof.
  intros Hok Hst Hm Hh. pose proof (good_store_refl s Hok Hst) as Hr.
  assert (∀ gas r, good_delivery s (module, s, gas, r)) as Hid by (by split). unfold deliver_parts.
  destruct parts as [|action [|a [|b [|x [|k [|? ?]]]]]]; try apply Hid.
  - case_bool_decide; [|apply Hid]. apply with_gas_good; [done..|]. intros g. apply finish_good; [done|]. by apply unjail_good.
  - case_bool_decide.
    { apply with_gas_good; [done..|]. intros g. apply finish_good; [done|]. apply atomically_good; [done..| |].
      - apply claimRewards_writes_valid.
      - by apply claimRewards_writes_coins. }
    case_bool_decide.
    { apply with_gas_good; [done..|]. intros g. apply finish_good; [done|]. apply atomically_good; [done..| |].
      - apply withdrawUnbonded_writes_valid.
      - by apply withdrawUnbonded_writes_coins. }
    case_bool_decide; [|apply Hid]. apply with_gas_good; [done..|]. intros g.
    destruct (parse_uint b) as [bps|] eqn:E; [|apply Hid]. apply finish_good; [done|].
    apply setCommission_good; [done..|]. by apply parse_uint_u64 in E as [? _].
  - case_bool_decide; [|apply Hid]. apply with_gas_good; [done..|]. intros g.
    destruct (staking_parseAmount x) as [amount|] eqn:E; [|apply Hid]. apply staking_parseAmount_u64 in E.
    apply finish_update_good; [done|]. by apply undelegate_good.
  - case_bool_decide; [|apply Hid]. apply with_gas_good; [done..|]. intros g.
    destruct (staking_parseAmount x) as [amount|] eqn:E; [|apply Hid]. apply staking_parseAmount_u64 in E.
    destruct (base64_decode k) as [[|y key]|]; [apply Hid| |apply Hid]. apply finish_update_good; [done|].
    by apply delegate_good.
Qed.

Lemma Staking_DeliverTx_good s module gas height tx m' o gas' r :
  store_ok s → staking_ok (content s) → staking_module_ok module → is_u64 height →
  Staking_DeliverTx error_text module (Some s) gas None height tx = (m', o, gas', r) →
  ∃ s', o = Some s' ∧ staking_module_ok m' ∧ good_store s s'.
Proof.
  intros Hok Hst Hm Hh. unfold Staking_DeliverTx. pose proof (good_store_refl s Hok Hst) as Hr.
  destruct (stakingTxParts tx) as [|name parts]; [intros [= <- <- _ _]; by eexists|].
  case_bool_decide; [|intros [= <- <- _ _]; by eexists].
  pose proof (deliver_parts_good s module gas height tx parts Hok Hst Hm Hh) as [Hm' Hs'].
  destruct (deliver_parts _ _ _ _ _ _ _ _) as [[[m1 s1] g1] r1]. intros [= <- <- _ _]. by eexists.
Qed.

Lemma Staking_EndBlock_good order s module o r :
  store_ok s → staking_ok (content s) → staking_module_ok module →
  Staking_EndBlock order module (Some s) None = (o, r) → ∃ s', o = Some s' ∧ good_store s s'.
Proof.
  intros Hok Hst [Hc _]. unfold Staking_EndBlock, distributeFees.
  destruct (fees_writes order module s None) as [[ws|]|e] eqn:E.
  - pose proof (atomic_good s Hok ws (fees_writes_valid _ _ _ _ _ Hc E) (fees_writes_coins s Hok Hst _ _ _ Hc E)) as HG.
    destruct (applyAtomicWrites s None ws) as [s' r']. intros [= <- _]. by eexists.
  - intros [= <- _]. eexists. split; [done|]. by apply good_store_refl.
  - intros [= <- _]. eexists. split; [done|]. by apply good_store_refl.
Qed.

(** A call of the module by the runtime at a height. *)
Inductive staking_call (order : MapOrder string Z) : StakingModule * T → StakingModule * T → Prop :=
| call_begin m s : staking_call order (m, s) (Staking_BeginBlock m, s)
| call_deliver m s gas height tx m' s' gas' r :
    is_u64 height →
    Staking_DeliverTx error_text m (Some s) gas None height tx = (m', Some s', gas', r) →
    staking_call order (m, s) (m', s')
| call_end m s s' r :
    Staking_EndBlock order m (Some s) None = (Some s', r) → staking_call order (m, s) (m, s').

End deliver.
