(* ===== verification/StakingSlash.v ===== *)
(** * Slashing penalties ([src/modules/staking/staking.go], [ApplySlashingPenalty])

    A penalty sets the power of the validator to what remains and scales every
    delegation to it down; the same evidence is applied once.  Delegations are
    found by parsing the keys of the stakes. *)

From S2P Require Import Prelude GoLib Sha256 Merkle Types Strconv TxTags Text Json JsonPrint Economics Address CanonicalTx.
From S2P Require Import FairOrdering Validator SignBytes StateProof Store Staged Bank Ante Events App.
From S2P Require Import BlockExecution Evidence Slashing Staking StakingStore StakingLedger StakingFees StakingRun.

(** ** Keys of stakes *)

(** Names without slashes. *)
Definition name_ok (x : string) : Prop := x ≠ "" ∧ str_elem "/" x = false.

Lemma parseStakeKey_Some key d v :
  parseStakeKey key = Some (d, v) ↔ name_ok d ∧ name_ok v ∧ bytes_of_string key = stakeKey d v.
Proof.
  split.
  - intros HP. pose proof (parseStakeKey_ok _ _ _ HP) as [Hd Hv]. unfold parseStakeKey in HP.
    pose proof (str_join_split "/" key) as HJ.
    destruct (str_split "/" key) as [|k [|x [|y [|? ?]]]]; try done.
    destruct (_ && _) eqn:E in HP; [|done]. injection HP as -> ->. rewrite !andb_true_iff in E.
    destruct E as [[Hk%bool_decide_eq_true Hd0%bool_decide_eq_true] Hv0%bool_decide_eq_true]. subst k.
    split; [by split|]. split; [by split|]. rewrite <-HJ. done.
  - intros ([Hd0 Hd] & [Hv0 Hv] & Hkey%(inj bytes_of_string)). subst key. unfold parseStakeKey.
    pose proof (str_split_join "/" ["stake"; d; v] ltac:(done)) as HS.
    change (str_join _ _) with ("stake/" ++ d ++ "/" ++ v)%string in HS.
    rewrite HS by (by repeat constructor). by bool_decide_all.
Qed.

Lemma stakeKey_inj d v d' v' : name_ok d → name_ok v → name_ok d' → name_ok v' →
  stakeKey d v = stakeKey d' v' → d = d' ∧ v = v'.
Proof.
  intros _ [_ Hv] _ [_ Hv'] Heq%(inj bytes_of_string)%string_app_inj. by apply last_slash_inj in Heq.
Qed.

(** ** The stakes of a validator *)

(** The places of the stakes with a validator, as the module finds them. *)
Definition stake_place (v : ValidatorID) (p : string * bytes) : bool :=
  bool_decide (p.1 = StakingName) &&
  match parseStakeKey (string_of_bytes p.2) with Some (_, w) => bool_decide (w = v) | None => false end.

Lemma stake_place_namespace v p : stake_place v p = true → p.1 = BankName ∨ p.1 = StakingName.
Proof. unfold stake_place. intros [Hs _]%andb_true_iff. right. by eapply bool_decide_eq_true_1. Qed.

(** The sum of the stakes with a validator. *)
Abbreviation staked v := (total_of (stake_place v)).

Lemma stake_place_key v d w :
  name_ok d → name_ok w → stake_place v (StakingName, stakeKey d w) = bool_decide (w = v).
Proof.
  intros Hd Hw. unfold stake_place. cbn [fst snd].
  assert (parseStakeKey (string_of_bytes (stakeKey d w)) = Some (d, w)) as ->; [|done].
  apply parseStakeKey_Some. by rewrite bytes_of_string_of_bytes.
Qed.

Lemma stake_place_other v k :
  (∀ d w, k ≠ stakeKey d w) → stake_place v (StakingName, k) = false.
Proof.
  intros Hk. unfold stake_place. cbn [fst snd]. destruct (parseStakeKey _) as [[d w]|] eqn:E; [|done].
  apply parseStakeKey_Some in E as (_ & _ & E). rewrite bytes_of_string_of_bytes in E. by apply Hk in E.
Qed.

Section totals.
Context {T : Type} `{LawfulSnapshot T}.

Lemma listing_map ns c pairs : listing ns c pairs → ∀ k, c k = pair_values pairs !! k.
Proof.
  intros HL k. destruct (listing_pairs _ _ _ HL) as [Hnd Hin]. apply option_eq. intros v.
  by rewrite pair_values_lookup, Hin.
Qed.

(** A store has a sum. *)
Lemma total_exists counted (s : T) : store_ok s → ∃ n, total_of counted (content s) n.
Proof.
  intros Hok. destruct (ExportNamespace_listing s BankName Hok bank_valid) as (_ & pb & _ & _ & Lb).
  destruct (ExportNamespace_listing s StakingName Hok staking_valid) as (_ & ps & _ & _ & Ls).
  eexists _, (pair_values pb), (pair_values ps). split_and!; [by eapply listing_map..|done].
Qed.
End totals.

(** ** The delegations of a listing *)

Definition delegation_key (d : delegationRecord) : bytes :=
  stakeKey (delegation_delegator d) (delegation_validatorID d).

Lemma delegation_of_Some v kv d :
  delegation_of v kv = Some d ↔
  name_ok (delegation_delegator d) ∧ name_ok v ∧ delegation_validatorID d = v ∧ KV_Key kv = delegation_key d ∧
  decodeUint64 (KV_Value kv) = Ok (delegation_stake d) ∧ delegation_stake d ≠ 0.
Proof.
  unfold delegation_of, delegation_key. split.
  - destruct (negb _); [done|]. intros (p & HP & HD)%bind_Some. destruct p as [del w].
    apply parseStakeKey_Some in HP as (Hdel & Hw & Hk). rewrite bytes_of_string_of_bytes in Hk.
    case_bool_decide as Ev; [done|]. subst w.
    destruct (decodeUint64 (KV_Value kv)) as [stake|]; [|done]. case_bool_decide; [done|]. by injection HD as <-.
  - intros (Hd & Hv & Hv' & Hk & Hdec & H0). rewrite Hk. unfold stakeKey. rewrite string_of_bytes_of_string.
    rewrite has_prefix_app. cbn [negb].
    assert (parseStakeKey ("stake/" ++ delegation_delegator d ++ "/" ++ delegation_validatorID d) =
      Some (delegation_delegator d, delegation_validatorID d)) as ->
      by (apply parseStakeKey_Some; by rewrite Hv').
    cbn [mbind option_bind]. rewrite Hv', Hdec. bool_decide_all. destruct d. cbn in *. by subst.
Qed.

Section listed.
Context (c : Content) (pairs : list KVPair) (HL : listing StakingName (c StakingName) pairs) (v : ValidatorID).

Lemma delegations_listed d :
  d ∈ delegationsForValidator pairs v ↔
  name_ok (delegation_delegator d) ∧ name_ok v ∧ delegation_validatorID d = v ∧
  decodeUint64 (default [] (c StakingName (delegation_key d))) = Ok (delegation_stake d) ∧ delegation_stake d ≠ 0.
Proof.
  destruct HL as (Hns & _ & _ & Hin). unfold delegationsForValidator. rewrite list_elem_of_omap. split.
  - intros (kv & Hkv & (Hd & Hv & Hw & Hk & Hdec & H0)%delegation_of_Some). destruct kv as [ns k val].
    rewrite Forall_forall in Hns. specialize (Hns _ Hkv) as Hn. cbn in Hn, Hk, Hdec. subst ns k.
    apply Hin in Hkv. rewrite Hkv. done.
  - intros (Hd & Hv & Hw & Hdec & H0). destruct (c StakingName (delegation_key d)) as [val|] eqn:E.
    + exists (mkKVPair StakingName (delegation_key d) val). split; [by apply Hin|]. by apply delegation_of_Some.
    + injection Hdec as Hz. by rewrite <-Hz in H0.
Qed.

Lemma delegation_keys_NoDup : NoDup (delegation_key <$> delegationsForValidator pairs v).
Proof.
  destruct HL as (_ & Hnd & _ & _). unfold delegationsForValidator. clear HL.
  induction pairs as [|kv ps IH]; [apply NoDup_nil_2|]. cbn [fmap list_fmap] in Hnd.
  apply NoDup_cons in Hnd as [Hn Hnd]. cbn [omap list_omap]. destruct (delegation_of v kv) as [d|] eqn:E; [|by apply IH].
  cbn [fmap list_fmap]. apply NoDup_cons. split; [|by apply IH].
  apply delegation_of_Some in E as (_ & _ & _ & Hk & _). rewrite <-Hk.
  intros (d' & Hd' & (kv' & Hkv' & (_ & _ & _ & Hk' & _)%delegation_of_Some)%list_elem_of_omap)%list_elem_of_fmap.
  apply Hn. rewrite Hd', <-Hk'. by apply list_elem_of_fmap_2.
Qed.
End listed.

(** ** The writes of a penalty *)

(** A receipt of the slashing keeper for complete evidence. *)
Record valid_receipt (receipt : PenaltyReceipt) : Prop := {
  receipt_validator : Evidence_Validator (Receipt_Evidence receipt) ≠ "";
  receipt_type : Evidence_Type (Receipt_Evidence receipt) ≠ "";
  receipt_height : Evidence_Height (Receipt_Evidence receipt) ≠ 0;
  receipt_proof : Evidence_Proof (Receipt_Evidence receipt) ≠ [];
  receipt_powers : 0 ≤ Receipt_RemainingPower receipt ≤ Receipt_PreviousPower receipt ∧
    0 < Receipt_PreviousPower receipt < two64
}.

Lemma EvidenceKey_nonempty receipt : valid_receipt receipt → EvidenceKey (Receipt_Evidence receipt) ≠ "".
Proof.
  intros [Hv Ht Hh Hp _]. unfold EvidenceKey.
  rewrite !bool_decide_eq_false_2 by (done || (by intros ?%nil_length_inv)). cbn [orb].
  by destruct (Evidence_Type (Receipt_Evidence receipt)).
Qed.

Lemma stakingSlashKey_eq receipt :
  valid_receipt receipt →
  stakingSlashKey (Receipt_Evidence receipt) = bytes_of_string ("slash/" ++ EvidenceKey (Receipt_Evidence receipt)).
Proof.
  intros Hr%EvidenceKey_nonempty. unfold stakingSlashKey. by rewrite bool_decide_eq_false_2.
Qed.

(** The stake that remains. *)
Definition slashed_stake (receipt : PenaltyReceipt) (stake : Z) : Z :=
  stake * Receipt_RemainingPower receipt / Receipt_PreviousPower receipt.

Lemma slashed_stake_range receipt stake :
  valid_receipt receipt → 0 ≤ stake → 0 ≤ slashed_stake receipt stake ≤ stake.
Proof.
  intros [_ _ _ _ Hp] Hs. unfold slashed_stake. split; [apply Z.div_pos; nia|].
  apply Z.div_le_upper_bound; nia.
Qed.

Lemma proportionalShare_slash receipt stake :
  valid_receipt receipt → is_u64 stake →
  proportionalShare stake (Receipt_RemainingPower receipt) (Receipt_PreviousPower receipt) =
    slashed_stake receipt stake.
Proof.
  intros Hr [Hs0 Hs1]. pose proof (slashed_stake_range receipt stake Hr Hs0) as Hb. unfold proportionalShare.
  destruct Hr as [_ _ _ _ Hp]. rewrite proportionalShareBig_eq by lia. fold (slashed_stake receipt stake).
  rewrite bool_decide_eq_true_2; [done|]. unfold is_u64. lia.
Qed.

Section writes.
Context (receipt : PenaltyReceipt) (Hr : valid_receipt receipt).
Abbreviation validator := (Evidence_Validator (Receipt_Evidence receipt)).
Abbreviation marker := (stakingSlashKey (Receipt_Evidence receipt)).

(** The writes before those of the delegations. *)
Definition slash_head : list KVWrite :=
  [mkWrite StakingName (validatorPowerKey validator) (encodeUint64 (Receipt_RemainingPower receipt)) false;
   mkWrite StakingName marker (encodeSlashMarker receipt) false] ++
  (if bool_decide (Receipt_RemainingPower receipt = 0)
   then [mkWrite StakingName (tombstoneKey validator)
           (encodeUint64 (Evidence_Height (Receipt_Evidence receipt))) false]
   else []).

Lemma slash_write_key d : write_key (slash_write receipt d) = (StakingName, delegation_key d).
Proof. unfold slash_write. by case_bool_decide. Qed.

Lemma slash_write_value d :
  is_u64 (delegation_stake d) →
  be_decode (default [] (write_value (slash_write receipt d))) = slashed_stake receipt (delegation_stake d).
Proof.
  intros Hd. unfold slash_write. rewrite proportionalShare_slash by done. destruct Hd as [Hd0 Hd1].
  pose proof (slashed_stake_range receipt (delegation_stake d) Hr Hd0) as Hb.
  case_bool_decide as Hz; [done|]. unfold write_value. cbn [KW_Delete KW_Value].
  change (default [] (Some ?a)) with a. apply encodeUint64_decode. unfold is_u64. lia.
Qed.

Lemma slash_write_harmless d : harmless (slash_write receipt d).
Proof. unfold slash_write. case_bool_decide; auto. Qed.

Lemma slash_head_harmless : Forall harmless slash_head.
Proof.
  unfold slash_head. repeat (apply Forall_cons; split; [try by auto|]); [|by case_bool_decide; all_harmless].
  rewrite stakingSlashKey_eq by done. apply harmless_record.
  - intros y [H|[H|(f & _ & H)]]; revert H; other_key.
  - intros w. other_key.
  - intros [(d & w & H)|[w H]]; revert H; other_key.
Qed.

Lemma slash_head_NoDup : NoDup (write_key <$> slash_head).
Proof.
  unfold slash_head. rewrite stakingSlashKey_eq by done.
  assert (NoDup [(StakingName, validatorPowerKey validator);
    (StakingName, bytes_of_string ("slash/" ++ EvidenceKey (Receipt_Evidence receipt)));
    (StakingName, tombstoneKey validator)]) as Hnd.
  { repeat (apply NoDup_cons; split; [rewrite ?elem_of_cons, ?elem_of_nil; intros HH;
      repeat destruct HH as [HH|HH]; try done; apply place_inj in HH; revert HH; try other_key|]); [|apply NoDup_nil_2].
    intros Heq%(inj bytes_of_string)%string_app_inj.
    change ("/power") with ("/" ++ "power")%string in Heq.
    change ("/tombstone") with ("/" ++ "tombstone")%string in Heq. by apply last_slash_inj in Heq as [_ ?]. }
  case_bool_decide; [exact Hnd|]. eapply sublist_NoDup; [exact Hnd|].
  apply sublist_skip, sublist_skip, sublist_nil_l.
Qed.

Lemma slash_head_keys d w : (StakingName, stakeKey d w) ∉ write_key <$> slash_head.
Proof.
  unfold slash_head. rewrite stakingSlashKey_eq by done. intros (w' & Hw & Hin)%list_elem_of_fmap.
  rewrite elem_of_app, !elem_of_cons, elem_of_nil in Hin. destruct Hin as [[->|[->|[]]]|Hin].
  - apply place_inj in Hw. revert Hw. other_key.
  - apply place_inj in Hw. revert Hw. other_key.
  - case_bool_decide; [|by apply elem_of_nil in Hin]. apply list_elem_of_singleton in Hin as ->.
    apply place_inj in Hw. revert Hw. other_key.
Qed.
End writes.

(** ** The sum of the stakes *)

Lemma map_total_pairs (w : bytes → bytes → Z) ns c pairs m :
  listing ns c pairs → (∀ k, c k = m !! k) →
  map_total w m = sumZ ((λ p, w (KV_Key p) (KV_Value p)) <$> pairs).
Proof.
  intros (Hns & Hnd & _ & Hin) Hm.
  assert (map_to_list m ≡ₚ (λ p, (KV_Key p, KV_Value p)) <$> pairs) as Hp.
  { apply NoDup_Permutation; [apply NoDup_map_to_list| |].
    - apply (NoDup_fmap_1 fst). by rewrite <-list_fmap_compose.
    - intros [k v]. rewrite elem_of_map_to_list, <-Hm, <-Hin, list_elem_of_fmap. split.
      + intros Hp. by exists (mkKVPair ns k v).
      + intros ([ns' k' v'] & [= -> ->] & Hp). rewrite Forall_forall in Hns. specialize (Hns _ Hp). cbn in Hns. by subst ns'. }
  unfold map_total. rewrite Hp. by rewrite <-list_fmap_compose.
Qed.

Lemma map_total_zero {K V} `{Countable K} (w : K → V → Z) (m : gmap K V) : (∀ k v, w k v = 0) → map_total w m = 0.
Proof.
  intros Hw. unfold map_total. induction (map_to_list m) as [|p l IH]; [done|]. cbn [fmap list_fmap].
  rewrite sumZ_cons, IH, Hw. done.
Qed.

Lemma delegation_worth v kv :
  (∀ d w, KV_Key kv = stakeKey d w → readable (Some (KV_Value kv))) →
  worth (stake_place v) (StakingName, KV_Key kv) (KV_Value kv) =
    from_option delegation_stake 0 (delegation_of v kv).
Proof.
  intros Hread. unfold worth. destruct (delegation_of v kv) as [d|] eqn:E.
  - apply delegation_of_Some in E as (Hd & Hv & Hw & Hk & Hdec & _). rewrite Hk. unfold delegation_key. rewrite Hw.
    rewrite stake_place_key by done. rewrite bool_decide_eq_true_2 by done. cbn.
    by apply decodeUint64_Ok in Hdec as [-> _].
  - destruct (stake_place v (StakingName, KV_Key kv)) eqn:Ep; [|done]. cbn.
    unfold stake_place in Ep. cbn [fst snd] in Ep. apply andb_true_iff in Ep as [_ Ep].
    destruct (parseStakeKey (string_of_bytes (KV_Key kv))) as [[d w]|] eqn:EP; [|done].
    apply bool_decide_eq_true in Ep. subst w. apply parseStakeKey_Some in EP as (Hd & Hv & Hk).
    rewrite bytes_of_string_of_bytes in Hk. specialize (Hread d v Hk). unfold readable in Hread.
    change (default [] (Some ?a)) with a in Hread.
    destruct (decodeUint64 (KV_Value kv)) as [x|] eqn:Ed; [|done].
    destruct (decide (x = 0)) as [->|Hx]; [by apply decodeUint64_Ok in Ed as [<- _]|].
    assert (delegation_of v kv = Some (mkDelegation d v x)) as E'; [|congruence]. by apply delegation_of_Some.
Qed.

Lemma staked_delegations c pairs v :
  (∃ m : gmap bytes bytes, ∀ k, c BankName k = m !! k) → (∀ k, number_key k → readable (c StakingName k)) →
  listing StakingName (c StakingName) pairs →
  staked v c (sumZ (delegation_stake <$> delegationsForValidator pairs v)).
Proof.
  intros [mb Hb] Hread HL. exists mb, (pair_values pairs). split; [done|]. split; [by eapply listing_map|].
  rewrite map_total_zero by done. rewrite Z.add_0_l.
  rewrite (map_total_pairs _ StakingName (c StakingName) pairs) by (done || by eapply listing_map).
  destruct HL as (Hns & _ & _ & Hin). unfold delegationsForValidator.
  assert (∀ p, p ∈ pairs → c StakingName (KV_Key p) = Some (KV_Value p)) as Hc.
  { intros [ns k x] Hp. rewrite Forall_forall in Hns. specialize (Hns _ Hp) as Hn. cbn in Hn. subst ns. by apply Hin. }
  clear Hns Hin. induction pairs as [|kv ps IH]; [done|]. cbn [fmap list_fmap omap list_omap].
  rewrite sumZ_cons, delegation_worth.
  - rewrite <-IH by (intros p Hp; apply Hc; by right). by destruct (delegation_of v kv).
  - intros d w Hk. rewrite <-(Hc kv) by (by left). apply Hread. left. by exists d, w.
Qed.

(** ** A penalty *)

Section penalty.
Context {T : Type} `{LawfulSnapshot T} `{!BatchStore T} (s : T) (Hok : store_ok s).
Context (Hst : staking_ok (content s)) (receipt : PenaltyReceipt) (Hr : valid_receipt receipt).
Abbreviation validator := (Evidence_Validator (Receipt_Evidence receipt)).
Abbreviation marker := (stakingSlashKey (Receipt_Evidence receipt)).

Lemma marker_nonempty : marker ≠ [].
Proof. rewrite stakingSlashKey_eq by done. auto. Qed.

(** What a penalty writes, or that it was applied before. *)
Lemma slashing_writes_total :
  match content s StakingName marker with
  | Some _ => slashing_writes s None receipt = Ok None
  | None => ∃ pairs, listing StakingName (content s StakingName) pairs ∧
      slashing_writes s None receipt =
        Ok (Some (slash_head receipt ++ (slash_write receipt <$> delegationsForValidator pairs validator)))
  end.
Proof.
  destruct Hr as [Hv Ht Hh Hp Hpow]. unfold slashing_writes.
  rewrite (bool_decide_eq_false_2 (validator = "")) by done.
  rewrite (bool_decide_eq_false_2 (Receipt_PreviousPower receipt = 0)) by lia.
  rewrite (bool_decide_eq_false_2 (Receipt_PreviousPower receipt < _)) by lia.
  cbn [orb negb check mbind result_bind]. pose proof marker_nonempty as Hm.
  rewrite (bool_decide_eq_false_2 (length marker = 0%nat)) by (by intros ?%nil_length_inv).
  cbn [negb check mbind result_bind]. rewrite get_optional_total by auto. cbn [mbind result_bind].
  destruct (content s StakingName marker); [done|].
  destruct (ExportNamespace_listing s StakingName Hok staking_valid) as (export & pairs & -> & HE & HL).
  exists pairs. split; [done|]. rewrite HE. cbn [mbind result_bind]. unfold slash_head. by rewrite <-app_assoc.
Qed.

Context (pairs : list KVPair) (HL : listing StakingName (content s StakingName) pairs).
Abbreviation ds := (delegationsForValidator pairs validator).
Abbreviation ws := (slash_head receipt ++ (slash_write receipt <$> ds)).
Abbreviation c := (content s).

Lemma slash_keys : write_key <$> (slash_write receipt <$> ds) = (λ d, (StakingName, delegation_key d)) <$> ds.
Proof. rewrite <-list_fmap_compose. apply list_fmap_ext. intros i d _. apply slash_write_key. Qed.

Lemma slash_keys_NoDup : NoDup (write_key <$> (slash_write receipt <$> ds)).
Proof.
  rewrite slash_keys. pose proof (delegation_keys_NoDup c pairs HL validator) as Hnd.
  apply (NoDup_fmap_2 (pair StakingName)) in Hnd.
  by rewrite <-list_fmap_compose in Hnd.
Qed.

Lemma delegation_u64 d : d ∈ ds → is_u64 (delegation_stake d).
Proof. rewrite (delegations_listed c) by done. by intros (_ & _ & _ & [_ ?]%decodeUint64_Ok & _). Qed.

Lemma slash_stakes d w :
  name_ok d → name_ok w →
  uint_at (writes_content ws c) (stakeKey d w) =
    if decide (w = validator) then slashed_stake receipt (uint_at c (stakeKey d w)) else uint_at c (stakeKey d w).
Proof.
  intros Hd Hw. rewrite writes_content_app. pose proof (slash_head_keys receipt Hr d w) as Hh.
  destruct (decide ((StakingName, stakeKey d w) ∈ write_key <$> (slash_write receipt <$> ds))) as [Hin|Hout].
  - rewrite slash_keys in Hin. apply list_elem_of_fmap in Hin as (r & Hk%place_inj & Hrd).
    pose proof Hrd as (Hn1 & Hn2 & Hval & Hdec & _)%(delegations_listed c pairs HL).
    unfold delegation_key in Hk. rewrite Hval in Hk.
    apply stakeKey_inj in Hk as [-> ->]; [|done..]. rewrite decide_True by done.
    assert (uint_at c (stakeKey (delegation_delegator r) validator) = delegation_stake r) as ->.
    { unfold delegation_key in Hdec. rewrite Hval in Hdec. by apply decodeUint64_Ok in Hdec as [-> _]. }
    rewrite <-slash_write_value by (done || by apply delegation_u64). unfold uint_at. f_equal. f_equal.
    pose proof (writes_content_in _ (writes_content (slash_head receipt) c) (slash_write receipt r) slash_keys_NoDup
      ltac:(by apply list_elem_of_fmap_2)) as HI.
    pose proof (slash_write_key receipt r) as Hwk. unfold write_key in Hwk. injection Hwk as Hwn Hwk.
    rewrite Hwn, Hwk in HI. unfold delegation_key in HI. by rewrite Hval in HI.
  - unfold uint_at. rewrite !writes_content_out by done. fold (uint_at c (stakeKey d w)).
    case_decide as Hv; [|done]. subst w. assert (uint_at c (stakeKey d validator) = 0) as ->; [|done].
    destruct (decide (uint_at c (stakeKey d validator) = 0)) as [|Hnz]; [done|]. exfalso. apply Hout.
    pose proof (ok_number _ Hst (stakeKey d validator) ltac:(left; by eexists _, _)) as Hread. unfold readable in Hread.
    destruct (decodeUint64 (default [] (c StakingName (stakeKey d validator)))) as [x|] eqn:Ex; [|done].
    rewrite slash_keys. apply (list_elem_of_fmap_2 (λ d, (StakingName, delegation_key d)) _ (mkDelegation d validator x)).
    apply (delegations_listed c); [done|]. split_and!; try done. cbn.
    apply decodeUint64_Ok in Ex as [-> _]. done.
Qed.

(** Both sums lose what the delegations lose. *)
Definition slash_loss : Z := sumZ (delegation_stake <$> ds) - sumZ (slashed_stake receipt ∘ delegation_stake <$> ds).

Lemma slash_gains counted :
  (∀ d w, name_ok d → name_ok w → w = validator → counted (StakingName, stakeKey d w) = true) →
  sumZ (gain_of counted c <$> (slash_write receipt <$> ds)) = - slash_loss.
Proof.
  intros Hc. unfold slash_loss.
  assert (∀ l, l ⊆ ds → sumZ (gain_of counted c <$> (slash_write receipt <$> l)) =
    sumZ (slashed_stake receipt ∘ delegation_stake <$> l) - sumZ (delegation_stake <$> l)) as Hl.
  2:{ rewrite (Hl ds) by done. lia. }
  induction l as [|d l IH]; intros Hsub; [done|]. cbn [fmap list_fmap]. rewrite !sumZ_cons.
  rewrite IH by (intros x Hx; apply Hsub; by right). unfold gain_of, worth_at, worth. rewrite slash_write_key.
  assert (d ∈ ds) as Hin by (apply Hsub; by left).
  pose proof Hin as (Hn1 & Hn2 & Hval & Hdec & _)%(delegations_listed c pairs HL).
  cbn [fst snd]. unfold delegation_key in *. rewrite Hval in *. rewrite Hc by done.
  pose proof (slash_write_value receipt Hr d (delegation_u64 d Hin)) as HV. cbn [compose].
  apply decodeUint64_Ok in Hdec as [Hdec _]. rewrite <-HV, Hdec.
  destruct (write_value (slash_write receipt d)), (c StakingName (stakeKey (delegation_delegator d) validator));
    cbn [from_option default id]; change (be_decode []) with 0; lia.
Qed.

Lemma slash_loss_bounds :
  0 ≤ slash_loss ∧
  (sumZ (delegation_stake <$> ds) ≤ Receipt_PreviousPower receipt →
   sumZ (delegation_stake <$> ds) - slash_loss ≤ Receipt_RemainingPower receipt).
Proof.
  assert (Forall (λ d, 0 ≤ delegation_stake d) ds) as Hpos.
  { apply Forall_forall. intros d [? _]%delegation_u64. done. }
  pose proof Hr as [_ _ _ _ Hp]. unfold slash_loss. generalize dependent ds. intros l Hpos. split.
  - clear -Hpos Hr. induction Hpos as [|d l Hd Hl IH]; [done|]. cbn [fmap list_fmap compose]. rewrite !sumZ_cons.
    pose proof (slashed_stake_range receipt (delegation_stake d) Hr Hd). unfold compose in *. lia.
  - intros Hle. assert (sumZ (slashed_stake receipt ∘ delegation_stake <$> l) * Receipt_PreviousPower receipt ≤
      sumZ (delegation_stake <$> l) * Receipt_RemainingPower receipt) as Hb; [|nia].
    clear Hle. induction Hpos as [|d l Hd Hl IH]; [done|]. cbn [fmap list_fmap compose]. rewrite !sumZ_cons.
    unfold compose in *. unfold slashed_stake at 1. pose proof (Z.mul_div_le (delegation_stake d * Receipt_RemainingPower receipt)
      (Receipt_PreviousPower receipt) ltac:(lia)). lia.
Qed.

Lemma slash_total counted n :
  (∀ p, counted p = true → p.1 = BankName ∨ p.1 = StakingName) →
  (∀ d w, name_ok d → name_ok w → w = validator → counted (StakingName, stakeKey d w) = true) →
  Forall (λ w, ¬ counts counted w) (slash_head receipt) →
  total_of counted c n → total_of counted (writes_content ws c) (n - slash_loss).
Proof.
  intros Hns Hc Hh Hn. rewrite <-Z.add_opp_r, <-(slash_gains counted) by done.
  apply total_counted_writes; [done| |apply slash_keys_NoDup|done].
  rewrite filter_app, (filter_none _ _ Hh). cbn [app].
  assert (Forall (counts counted) (slash_write receipt <$> ds)) as Hall.
  { apply Forall_fmap, Forall_forall. intros d Hin. unfold counts, compose. rewrite slash_write_key.
    apply (delegations_listed c) in Hin as (Hn1 & Hn2 & Hval & _); [|done]. unfold delegation_key. by apply Hc; rewrite ?Hval. }
  clear -Hall. induction Hall as [|w l Hw Hl IH]; [done|]. by rewrite filter_cons_True, IH.
Qed.
End penalty.

(** ** A penalty is applied once and in proportion *)

Section penalties.
Context {T : Type} `{LawfulSnapshot T} `{!BatchStore T}.

Lemma slash_head_uncounted counted receipt :
  valid_receipt receipt → (∀ k, coin_key k = false → counted (StakingName, k) = false) →
  Forall (λ w, ¬ counts counted w) (slash_head receipt).
Proof.
  intros Hr Hc.
  assert (∀ k v, coin_key k = false → ¬ counts counted (mkWrite StakingName k v false)) as Hw.
  { intros k v Hk. unfold counts, write_key. cbn [KW_Namespace KW_Key]. by rewrite Hc. }
  unfold slash_head. rewrite stakingSlashKey_eq by done.
  repeat (apply Forall_cons; split; [apply Hw; first [apply coin_key_validator|
    unfold coin_key; by rewrite string_of_bytes_of_string]|]).
  case_bool_decide; [|done]. apply Forall_singleton, Hw, coin_key_validator.
Qed.

(** The writes next to the stakes leave the bank alone. *)
Lemma slash_head_bank receipt c k : writes_content (slash_head receipt) c BankName k = c BankName k.
Proof.
  apply writes_content_out. unfold slash_head. intros (w & Hw & Hin)%list_elem_of_fmap.
  rewrite elem_of_app, !elem_of_cons, elem_of_nil in Hin. destruct Hin as [[->|[->|[]]]|Hin]; [done..|].
  case_bool_decide; [by apply list_elem_of_singleton in Hin as ->|by apply elem_of_nil in Hin].
Qed.

(** What a penalty takes from the stakes is burnt. *)
Lemma slash_burns (s : T) receipt pairs c' n m :
  let v := Evidence_Validator (Receipt_Evidence receipt) in
  staking_ok (content s) → valid_receipt receipt → listing StakingName (content s StakingName) pairs →
  same_content c'
    (writes_content (slash_head receipt ++ (slash_write receipt <$> delegationsForValidator pairs v)) (content s)) →
  supply (content s) n → staked v (content s) m →
  ∃ burnt, 0 ≤ burnt ∧ supply c' (n - burnt) ∧ staked v c' (m - burnt) ∧
    (m ≤ Receipt_PreviousPower receipt → m - burnt ≤ Receipt_RemainingPower receipt).
Proof.
  intros v Hst Hr HL Hc Hn Hm. exists (slash_loss receipt pairs).
  assert (m = sumZ (delegation_stake <$> delegationsForValidator pairs v)) as ->.
  { eapply total_unique; [exact Hm|]. apply staked_delegations; [|apply Hst|done].
    destruct Hn as (mb & _ & Hb & _). by exists mb. }
  pose proof (slash_loss_bounds s receipt Hr pairs HL) as [Hl0 Hl1].
  split; [done|]. split; [|split; [|exact Hl1]].
  - eapply total_ext; [symmetry; exact Hc|]. apply (slash_total s receipt Hr pairs HL); [apply coin_place_namespace| | |done].
    + intros d w _ _ _. unfold coin_place. cbn. by rewrite coin_key_stake.
    + apply slash_head_uncounted; [done|]. intros k Hk. unfold coin_place. cbn [fst snd]. by rewrite Hk.
  - eapply total_ext; [symmetry; exact Hc|].
    apply (slash_total s receipt Hr pairs HL); [apply stake_place_namespace| | |done].
    + intros d w Hd Hw ->. rewrite stake_place_key by done. by apply bool_decide_eq_true.
    + apply slash_head_uncounted; [done|]. intros k Hk. apply stake_place_other.
      intros d w ->. by rewrite coin_key_stake in Hk.
Qed.

(** C36: Slashing takes from every delegation in proportion, and once.  A penalty
    for complete evidence that was not applied before succeeds; the power of the
    validator is what the receipt says remains, every stake with the validator
    is scaled by remaining over previous power, rounded down, every other stake
    and all balances stay.  The coins taken are burnt, and stakes the previous
    power covered are covered by the remaining power.  Applying the penalty
    again changes nothing. *)
Theorem slash_scales_once (s : T) receipt :
  let v := Evidence_Validator (Receipt_Evidence receipt) in
  store_ok s → staking_ok (content s) → valid_receipt receipt →
  content s StakingName (stakingSlashKey (Receipt_Evidence receipt)) = None →
  ∃ s', ApplySlashingPenalty (Some s) None receipt = (Some s', Ok tt) ∧ store_ok s' ∧ staking_ok (content s') ∧
    uint_at (content s') (validatorPowerKey v) = Receipt_RemainingPower receipt ∧
    (∀ d w, name_ok d → name_ok w →
      uint_at (content s') (stakeKey d w) =
        if decide (w = v)
        then uint_at (content s) (stakeKey d w) * Receipt_RemainingPower receipt / Receipt_PreviousPower receipt
        else uint_at (content s) (stakeKey d w)) ∧
    (∀ k, content s' BankName k = content s BankName k) ∧
    (∀ n m, supply (content s) n → staked v (content s) m →
      ∃ burnt, 0 ≤ burnt ∧ supply (content s') (n - burnt) ∧ staked v (content s') (m - burnt) ∧
        (m ≤ Receipt_PreviousPower receipt → m - burnt ≤ Receipt_RemainingPower receipt)) ∧
    ApplySlashingPenalty (Some s') None receipt = (Some s', Ok tt).
Proof.
  intros v Hok Hst Hr Hnew. unfold ApplySlashingPenalty at 1.
  pose proof (slashing_writes_total s Hok receipt Hr) as HW. rewrite Hnew in HW. destruct HW as (pairs & HL & HW).
  rewrite HW. pose proof (slashing_writes_valid _ _ _ _ HW) as Hvalid.
  destruct (atomic_content s Hok _ Hvalid) as (s' & -> & Hok' & Hc). exists s'. split; [done|]. split; [done|].
  set (ws := slash_head receipt ++ _) in *.
  assert (∀ ns k, (ns, k) ∉ (λ d, (StakingName, delegation_key d)) <$> delegationsForValidator pairs v →
    valid_namespace ns → content s' ns k = writes_content (slash_head receipt) (content s) ns k) as Hhead.
  { intros ns k Hk Hns. rewrite Hc by done. subst ws. rewrite writes_content_app.
    apply writes_content_out. by rewrite slash_keys. }
  assert (∀ k, (∀ d w, k ≠ stakeKey d w) →
    (StakingName, k) ∉ (λ d, (StakingName, delegation_key d)) <$> delegationsForValidator pairs v) as Hnk.
  { intros k Hk (d & Hd%place_inj & _)%list_elem_of_fmap. by apply Hk in Hd. }
  split_and!.
  - eapply staking_ok_ext; [symmetry; exact Hc|]. apply staking_ok_harmless; [|done]. apply Forall_app.
    split; [by apply slash_head_harmless|]. apply Forall_fmap, Forall_true. intros d. apply slash_write_harmless.
  - unfold uint_at. rewrite Hhead by (auto || (apply Hnk; intros; other_key)).
    rewrite (writes_at _ _ _ (encodeUint64 (Receipt_RemainingPower receipt))).
    + apply encodeUint64_decode. destruct Hr as [_ _ _ _ ?]. unfold is_u64. lia.
    + by apply slash_head_NoDup.
    + apply elem_of_app. left. by left.
  - intros d w Hd Hw. unfold uint_at at 1. rewrite Hc by auto. by apply slash_stakes.
  - intros k. rewrite Hhead by (auto || (by intros (d & ? & _)%list_elem_of_fmap)).
    apply slash_head_bank.
  - intros n m Hn Hm. by eapply slash_burns.
  - unfold ApplySlashingPenalty. pose proof (slashing_writes_total s' Hok' receipt Hr) as HW'.
    assert (content s' StakingName (stakingSlashKey (Receipt_Evidence receipt)) = Some (encodeSlashMarker receipt)) as Hm.
    { rewrite Hhead by (auto || (apply Hnk; rewrite stakingSlashKey_eq by done; intros; other_key)).
      apply writes_at; [by apply slash_head_NoDup|]. apply elem_of_app. left. right. by left. }
    rewrite Hm in HW'. by rewrite HW'.
Qed.
End penalties.
