(* ===== verification/Ibc.v ===== *)
(** * Inter-chain packets ([src/ibc/ibc.go])

    Light clients of other chains, connections and channels with their
    handshakes, and packets: sent once with the next sequence of the channel,
    then acknowledged or timed out.  The records are kept as JSON in the
    namespace [ibc] of the application store. *)

From S2P Require Import Prelude GoLib Sha256 Merkle Types Strconv TxTags Text Json JsonPrint Economics Address CanonicalTx.
From S2P Require Import JsonCodec FairOrdering Validator SignBytes StateProof Store.

Definition IbcNamespace : string := "ibc".

Definition StateInit : string := "init".
Definition StateTryOpen : string := "tryopen".
Definition StateOpen : string := "open".

Definition OrderingOrdered : string := "ordered".
Definition OrderingUnordered : string := "unordered".

Definition ErrInvalidClient := ErrNew "ibc.ErrInvalidClient".
Definition ErrInvalidConnection := ErrNew "ibc.ErrInvalidConnection".
Definition ErrInvalidChannel := ErrNew "ibc.ErrInvalidChannel".
Definition ErrInvalidTransition := ErrNew "ibc.ErrInvalidTransition".
Definition ErrInvalidPacket := ErrNew "ibc.ErrInvalidPacket".
Definition ErrInvalidAck := ErrNew "ibc.ErrInvalidAck".
Definition ibc_ErrInvalidProof := ErrNew "ibc.ErrInvalidProof".
Definition ErrClientNotFound := ErrNew "ibc.ErrClientNotFound".
Definition ErrClientFrozen := ErrNew "ibc.ErrClientFrozen".
Definition ErrClientExpired := ErrNew "ibc.ErrClientExpired".
Definition ErrStaleClientUpdate := ErrNew "ibc.ErrStaleClientUpdate".
Definition ErrUnauthorizedClientUpdate := ErrNew "ibc.ErrUnauthorizedClientUpdate".
Definition ErrChannelNotOpen := ErrNew "ibc.ErrChannelNotOpen".
Definition ErrConnectionNotOpen := ErrNew "ibc.ErrConnectionNotOpen".
Definition ErrUnexpectedPacketSequence := ErrNew "ibc.ErrUnexpectedPacketSequence".
Definition ErrPacketAlreadyExists := ErrNew "ibc.ErrPacketAlreadyExists".
Definition ErrPacketAcked := ErrNew "ibc.ErrPacketAcked".
Definition ErrPacketTimedOut := ErrNew "ibc.ErrPacketTimedOut".
Definition ErrPacketNotTimedOut := ErrNew "ibc.ErrPacketNotTimedOut".
Definition ibc_ErrStoreMissing := ErrNew "ibc.ErrStoreMissing".
Definition ErrAtomicStoreRequired := ErrNew "ibc.ErrAtomicStoreRequired".

(** ** Records *)

Record ClientState := mkClient {
  Client_ClientID : string;
  Client_ChainID : string;
  Client_LatestHeight : Height;
  Client_ValidatorSetHash : Hash;
  Client_LatestStateRoot : Hash;
  Client_Frozen : bool;
  Client_TrustingPeriodHeight : Z;
  Client_Authority : string
}.

Record ConnectionState := mkConnection {
  Connection_ConnectionID : string;
  Connection_ClientID : string;
  Connection_Counterparty : string;
  Connection_State : string
}.

Record ChannelState := mkChannel {
  Channel_PortID : string;
  Channel_ChannelID : string;
  Channel_ConnectionID : string;
  Channel_Counterparty : string;
  Channel_Ordering : string;
  Channel_State : string
}.

Record Packet := mkPacket {
  Packet_Sequence : Z;
  Packet_SourcePort : string;
  Packet_SourceChannel : string;
  Packet_DestinationPort : string;
  Packet_DestinationChannel : string;
  Packet_Data : bytes;
  Packet_TimeoutHeight : Z
}.

Record PacketReceipt := mkPacketReceipt {
  PR_Packet : Packet;
  PR_CommitHeight : Height;
  PR_Acknowledged : bool;
  PR_Ack : bytes;
  PR_AckHeight : Height;
  PR_TimedOut : bool;
  PR_TimeoutAt : Height
}.

(** ** JSON *)

#[global] Instance client_json : JsonRecord ClientState := {|
  json_zero := mkClient "" "" 0 zero_hash zero_hash false 0 "";
  json_fields :=
    [("client_id", field_of decode_string Client_ClientID (λ '(mkClient _ b c d e f g h) x, mkClient x b c d e f g h));
     ("chain_id", field_of decode_string Client_ChainID (λ '(mkClient a _ c d e f g h) x, mkClient a x c d e f g h));
     ("latest_height", field_of decode_uint Client_LatestHeight (λ '(mkClient a b _ d e f g h) x, mkClient a b x d e f g h));
     ("validator_set_hash",
      field_of decode_hash Client_ValidatorSetHash (λ '(mkClient a b c _ e f g h) x, mkClient a b c x e f g h));
     ("latest_state_root",
      field_of decode_hash Client_LatestStateRoot (λ '(mkClient a b c d _ f g h) x, mkClient a b c d x f g h));
     ("frozen", field_of decode_bool Client_Frozen (λ '(mkClient a b c d e _ g h) x, mkClient a b c d e x g h));
     ("trusting_period_height",
      field_of decode_uint Client_TrustingPeriodHeight (λ '(mkClient a b c d e f _ h) x, mkClient a b c d e f x h));
     ("authority", field_of decode_string Client_Authority (λ '(mkClient a b c d e f g _) x, mkClient a b c d e f g x))];
  json_members c :=
    [("client_id", JString (Client_ClientID c)); ("chain_id", JString (Client_ChainID c));
     ("latest_height", json_uint (Client_LatestHeight c));
     ("validator_set_hash", json_hash (Client_ValidatorSetHash c));
     ("latest_state_root", json_hash (Client_LatestStateRoot c))] ++
    unless (negb (Client_Frozen c)) "frozen" (JBool (Client_Frozen c)) ++
    unless (bool_decide (Client_TrustingPeriodHeight c = 0)) "trusting_period_height"
      (json_uint (Client_TrustingPeriodHeight c)) ++
    unless (bool_decide (Client_Authority c = "")) "authority" (JString (Client_Authority c))
|}.

#[global] Instance connection_json : JsonRecord ConnectionState := {|
  json_zero := mkConnection "" "" "" "";
  json_fields :=
    [("connection_id",
      field_of decode_string Connection_ConnectionID (λ '(mkConnection _ b c d) x, mkConnection x b c d));
     ("client_id", field_of decode_string Connection_ClientID (λ '(mkConnection a _ c d) x, mkConnection a x c d));
     ("counterparty",
      field_of decode_string Connection_Counterparty (λ '(mkConnection a b _ d) x, mkConnection a b x d));
     ("state", field_of decode_string Connection_State (λ '(mkConnection a b c _) x, mkConnection a b c x))];
  json_members c :=
    [("connection_id", JString (Connection_ConnectionID c)); ("client_id", JString (Connection_ClientID c));
     ("counterparty", JString (Connection_Counterparty c)); ("state", JString (Connection_State c))]
|}.

#[global] Instance channel_json : JsonRecord ChannelState := {|
  json_zero := mkChannel "" "" "" "" "" "";
  json_fields :=
    [("port_id", field_of decode_string Channel_PortID (λ '(mkChannel _ b c d e f) x, mkChannel x b c d e f));
     ("channel_id", field_of decode_string Channel_ChannelID (λ '(mkChannel a _ c d e f) x, mkChannel a x c d e f));
     ("connection_id",
      field_of decode_string Channel_ConnectionID (λ '(mkChannel a b _ d e f) x, mkChannel a b x d e f));
     ("counterparty",
      field_of decode_string Channel_Counterparty (λ '(mkChannel a b c _ e f) x, mkChannel a b c x e f));
     ("ordering", field_of decode_string Channel_Ordering (λ '(mkChannel a b c d _ f) x, mkChannel a b c d x f));
     ("state", field_of decode_string Channel_State (λ '(mkChannel a b c d e _) x, mkChannel a b c d e x))];
  json_members c :=
    [("port_id", JString (Channel_PortID c)); ("channel_id", JString (Channel_ChannelID c));
     ("connection_id", JString (Channel_ConnectionID c)); ("counterparty", JString (Channel_Counterparty c));
     ("ordering", JString (Channel_Ordering c)); ("state", JString (Channel_State c))]
|}.

#[global] Instance packet_json : JsonRecord Packet := {|
  json_zero := mkPacket 0 "" "" "" "" [] 0;
  json_fields :=
    [("sequence", field_of decode_uint Packet_Sequence (λ '(mkPacket _ b c d e f g) x, mkPacket x b c d e f g));
     ("source_port", field_of decode_string Packet_SourcePort (λ '(mkPacket a _ c d e f g) x, mkPacket a x c d e f g));
     ("source_channel",
      field_of decode_string Packet_SourceChannel (λ '(mkPacket a b _ d e f g) x, mkPacket a b x d e f g));
     ("destination_port",
      field_of decode_string Packet_DestinationPort (λ '(mkPacket a b c _ e f g) x, mkPacket a b c x e f g));
     ("destination_channel",
      field_of decode_string Packet_DestinationChannel (λ '(mkPacket a b c d _ f g) x, mkPacket a b c d x f g));
     ("data", field_of (λ _, decode_bytes) Packet_Data (λ '(mkPacket a b c d e _ g) x, mkPacket a b c d e x g));
     ("timeout_height",
      field_of decode_uint Packet_TimeoutHeight (λ '(mkPacket a b c d e f _) x, mkPacket a b c d e f x))];
  json_members p :=
    [("sequence", json_uint (Packet_Sequence p)); ("source_port", JString (Packet_SourcePort p));
     ("source_channel", JString (Packet_SourceChannel p)); ("destination_port", JString (Packet_DestinationPort p));
     ("destination_channel", JString (Packet_DestinationChannel p)); ("data", json_bytes (Packet_Data p))] ++
    unless (bool_decide (Packet_TimeoutHeight p = 0)) "timeout_height" (json_uint (Packet_TimeoutHeight p))
|}.

#[global] Instance packet_receipt_json : JsonRecord PacketReceipt := {|
  json_zero := mkPacketReceipt json_zero 0 false [] 0 false 0;
  json_fields :=
    [("packet", field_of (λ p value, of_json value p) PR_Packet
        (λ '(mkPacketReceipt _ b c d e f g) x, mkPacketReceipt x b c d e f g));
     ("commit_height",
      field_of decode_uint PR_CommitHeight (λ '(mkPacketReceipt a _ c d e f g) x, mkPacketReceipt a x c d e f g));
     ("acknowledged",
      field_of decode_bool PR_Acknowledged (λ '(mkPacketReceipt a b _ d e f g) x, mkPacketReceipt a b x d e f g));
     ("ack", field_of (λ _, decode_bytes) PR_Ack (λ '(mkPacketReceipt a b c _ e f g) x, mkPacketReceipt a b c x e f g));
     ("ack_height",
      field_of decode_uint PR_AckHeight (λ '(mkPacketReceipt a b c d _ f g) x, mkPacketReceipt a b c d x f g));
     ("timed_out",
      field_of decode_bool PR_TimedOut (λ '(mkPacketReceipt a b c d e _ g) x, mkPacketReceipt a b c d e x g));
     ("timeout_at",
      field_of decode_uint PR_TimeoutAt (λ '(mkPacketReceipt a b c d e f _) x, mkPacketReceipt a b c d e f x))];
  json_members r :=
    [("packet", to_json (PR_Packet r)); ("commit_height", json_uint (PR_CommitHeight r))] ++
    unless (negb (PR_Acknowledged r)) "acknowledged" (JBool (PR_Acknowledged r)) ++
    unless (bool_decide (PR_Ack r = [])) "ack" (json_bytes (PR_Ack r)) ++
    unless (bool_decide (PR_AckHeight r = 0)) "ack_height" (json_uint (PR_AckHeight r)) ++
    unless (negb (PR_TimedOut r)) "timed_out" (JBool (PR_TimedOut r)) ++
    unless (bool_decide (PR_TimeoutAt r = 0)) "timeout_at" (json_uint (PR_TimeoutAt r))
|}.

(** ** Keys *)

Definition clientKey (clientID : string) : bytes := bytes_of_string ("clients/" ++ clientID).
Definition connectionKey (connectionID : string) : bytes := bytes_of_string ("connections/" ++ connectionID).
Definition channelKey (portID channelID : string) : bytes :=
  bytes_of_string ("channels/" ++ portID ++ "/" ++ channelID).
Definition nextSequenceKey (portID channelID : string) : bytes :=
  bytes_of_string ("next-sequence/" ++ portID ++ "/" ++ channelID).
Definition packetCommitmentKey (packet : Packet) : bytes :=
  bytes_of_string ("packets/" ++ Packet_SourcePort packet ++ "/" ++ Packet_SourceChannel packet ++ "/" ++
                   format_uint (Packet_Sequence packet)).

(** [fmt.Sprintf("%020d", height)] *)
Definition pad20 (height : Z) : string :=
  let digits := format_uint height in (str_repeat "0" (20 - String.length digits) ++ digits)%string.

Definition packetTimeoutHeightPrefix (height : Z) : bytes :=
  bytes_of_string ("packet-timeouts/" ++ pad20 height ++ "/").
Definition packetTimeoutIndexKey (packet : Packet) : bytes :=
  packetTimeoutHeightPrefix (Packet_TimeoutHeight packet) ++ packetCommitmentKey packet.

(** The part of an index key from the first ["/packets/"], without the slash. *)
Fixpoint after_separator (s : string) : option string :=
  match s with
  | EmptyString => None
  | String a rest => if has_prefix s "/packets/" then Some rest else after_separator rest
  end.
Definition packetTimeoutIndexPacketKey (key : bytes) : bytes :=
  match after_separator (string_of_bytes key) with Some rest => bytes_of_string rest | None => [] end.

(** ** Checks *)

Definition validateClient (client : ClientState) : result unit :=
  check ErrInvalidClient
    (negb (bool_decide (Client_ClientID client = "") || bool_decide (Client_ChainID client = "") ||
           bool_decide (Client_LatestHeight client = 0) ||
           bool_decide (Client_ValidatorSetHash client = zero_hash))) ≫= λ _,
  check ErrInvalidClient
    (negb (bool_decide (0 < Client_TrustingPeriodHeight client) &&
           bool_decide (max_u64 - Client_TrustingPeriodHeight client < Client_LatestHeight client))).

Definition clientExpired (client : ClientState) (currentHeight : Height) : bool :=
  if bool_decide (currentHeight = 0) || bool_decide (Client_TrustingPeriodHeight client = 0) then false
  else bool_decide (wrap64 (Client_LatestHeight client + Client_TrustingPeriodHeight client) < currentHeight).

Definition validatePacket (packet : Packet) : result unit :=
  check ErrInvalidPacket
    (negb (bool_decide (Packet_Sequence packet = 0) || bool_decide (Packet_SourcePort packet = "") ||
           bool_decide (Packet_SourceChannel packet = "") || bool_decide (Packet_DestinationPort packet = "") ||
           bool_decide (Packet_DestinationChannel packet = "") || bool_decide (Packet_Data packet = []))).

Definition validHandshakeState (state : string) : bool :=
  bool_decide (state = StateInit) || bool_decide (state = StateTryOpen) || bool_decide (state = StateOpen).

Definition validChannelOrdering (ordering : string) : bool :=
  bool_decide (ordering = OrderingOrdered) || bool_decide (ordering = OrderingUnordered).

Definition validTransition (from to : string) : bool :=
  if bool_decide (from = StateInit) then bool_decide (to = StateOpen)
  else if bool_decide (from = StateTryOpen) then bool_decide (to = StateOpen)
  else false.

#[global] Instance Packet_eq_dec : EqDecision Packet.
Proof. solve_decision. Defined.

Definition samePacket (left right : Packet) : bool :=
  bool_decide (Packet_Sequence left = Packet_Sequence right) &&
  bool_decide (Packet_SourcePort left = Packet_SourcePort right) &&
  bool_decide (Packet_SourceChannel left = Packet_SourceChannel right) &&
  bool_decide (Packet_DestinationPort left = Packet_DestinationPort right) &&
  bool_decide (Packet_DestinationChannel left = Packet_DestinationChannel right) &&
  bool_decide (Packet_Data left = Packet_Data right) &&
  bool_decide (Packet_TimeoutHeight left = Packet_TimeoutHeight right).

(** [errors.Join(ErrInvalidProof, err)] *)
Definition join_invalid_proof {A} (r : result A) : result A :=
  match r with Ok a => Ok a | Err e => Err (ErrWrap [ibc_ErrInvalidProof; e] "") end.

Definition validateClientUpdateProof (client : ClientState) (latestHeight : Height) (latestStateRoot : Hash)
    (proof : QueryProof) : result unit :=
  check ErrInvalidClient
    (negb (bool_decide (Client_ClientID client = "") || bool_decide (Client_ChainID client = "") ||
           bool_decide (latestHeight = 0) || bool_decide (latestStateRoot = zero_hash))) ≫= λ _,
  check ibc_ErrInvalidProof
    (negb (bool_decide (QP_ChainID proof ≠ Client_ChainID client) || bool_decide (QP_Height proof ≠ latestHeight) ||
           bool_decide (QP_StateRoot proof ≠ latestStateRoot))) ≫= λ _,
  check ibc_ErrInvalidProof
    (negb (bool_decide (QP_Namespace proof = "") || bool_decide (QP_Key proof = []))) ≫= λ _,
  join_invalid_proof (Query_Verify proof (Client_ChainID client) latestHeight latestStateRoot).

(** ** The keeper *)

Section keeper.
Context {T : Type} `{!StateStore T} `{!SnapshotStore T}.

(** [getJSON]: whether the record was found, and the record. *)
Definition getJSON {R} `{!JsonRecord R} (store : T) (ctx : Ctx) (key : bytes) : bool * result R :=
  match store_Get store ctx IbcNamespace key with
  | Err e => if errors_is e ErrKeyNotFound then (false, Ok json_zero) else (false, Err e)
  | Ok encoded => (true, unmarshal_json encoded)
  end.

Definition setJSON {R} `{!JsonRecord R} (store : T) (ctx : Ctx) (key : bytes) (value : R) : T * result unit :=
  store_Set store ctx IbcNamespace key (marshal_json value).

(** The record, or the error for a record that is not there. *)
Definition found_or {R} (missing : error) (p : bool * result R) : result R :=
  value ← p.2; check missing p.1 ≫= λ _, Ok value.

(** Run a change of the store when the checks before it pass. *)
Definition after {A} (store : T) (r : result A) (change : A → T * result unit) : T * result unit :=
  match r with Err e => (store, Err e) | Ok a => change a end.

Definition SetClient (store : T) (ctx : Ctx) (client : ClientState) : T * result unit :=
  after store (validateClient client) (λ _, setJSON store ctx (clientKey (Client_ClientID client)) client).

Definition Client (store : T) (ctx : Ctx) (clientID : string) : bool * result ClientState :=
  getJSON store ctx (clientKey clientID).

(** The checks of [updateClient] and the client it stores. *)
Definition updated_client (client : ClientState) (latestHeight : Height)
    (validatorSetHash latestStateRoot : Hash) (authority : string) : result ClientState :=
  check ErrInvalidClient
    (negb (bool_decide (Client_ClientID client = "") || bool_decide (latestHeight = 0) ||
           bool_decide (validatorSetHash = zero_hash) || bool_decide (latestStateRoot = zero_hash))) ≫= λ _,
  check ErrClientFrozen (negb (Client_Frozen client)) ≫= λ _,
  check ErrUnauthorizedClientUpdate
    (negb (bool_decide (Client_Authority client ≠ "") && bool_decide (authority ≠ Client_Authority client))) ≫= λ _,
  check ErrStaleClientUpdate (negb (bool_decide (latestHeight ≤ Client_LatestHeight client))) ≫= λ _,
  Ok (mkClient (Client_ClientID client) (Client_ChainID client) latestHeight validatorSetHash latestStateRoot
        (Client_Frozen client) (Client_TrustingPeriodHeight client) (Client_Authority client)).

Definition updateClient (store : T) (ctx : Ctx) (client : ClientState) (latestHeight : Height)
    (validatorSetHash latestStateRoot : Hash) (authority : string) : T * result unit :=
  after store (updated_client client latestHeight validatorSetHash latestStateRoot authority)
    (SetClient store ctx).

Definition UpdateClientWithProof (store : T) (ctx : Ctx) (clientID : string) (latestHeight : Height)
    (validatorSetHash latestStateRoot : Hash) (proof : QueryProof) (authority : string) : T * result unit :=
  after store
    (client ← found_or ErrClientNotFound (Client store ctx clientID);
     validateClientUpdateProof client latestHeight latestStateRoot proof ≫= λ _, Ok client)
    (λ client, updateClient store ctx client latestHeight validatorSetHash latestStateRoot authority).

Definition UpdateClientWithAuthority (store : T) (ctx : Ctx) (clientID : string) (latestHeight : Height)
    (validatorSetHash latestStateRoot : Hash) (authority : string) : T * result unit :=
  after store
    (check ErrInvalidClient
       (negb (bool_decide (clientID = "") || bool_decide (latestHeight = 0) ||
              bool_decide (validatorSetHash = zero_hash) || bool_decide (latestStateRoot = zero_hash))) ≫= λ _,
     found_or ErrClientNotFound (Client store ctx clientID))
    (λ client, updateClient store ctx client latestHeight validatorSetHash latestStateRoot authority).

Definition UpdateClient (store : T) (ctx : Ctx) (clientID : string) (latestHeight : Height)
    (validatorSetHash latestStateRoot : Hash) : T * result unit :=
  UpdateClientWithAuthority store ctx clientID latestHeight validatorSetHash latestStateRoot "".

Definition FreezeClient (store : T) (ctx : Ctx) (clientID : string) : T * result unit :=
  after store
    (check ErrInvalidClient (bool_decide (clientID ≠ "")) ≫= λ _,
     found_or ErrClientNotFound (Client store ctx clientID))
    (λ client, SetClient store ctx
       (mkClient (Client_ClientID client) (Client_ChainID client) (Client_LatestHeight client)
          (Client_ValidatorSetHash client) (Client_LatestStateRoot client) true
          (Client_TrustingPeriodHeight client) (Client_Authority client))).

Definition ClientExpired (store : T) (ctx : Ctx) (clientID : string) (currentHeight : Height) : result bool :=
  client ← found_or ErrClientNotFound (Client store ctx clientID); Ok (clientExpired client currentHeight).

(** *** Connections and channels *)

Definition SetConnection (store : T) (ctx : Ctx) (connection : ConnectionState) : T * result unit :=
  after store
    (check ErrInvalidConnection
       (negb (bool_decide (Connection_ConnectionID connection = "") ||
              bool_decide (Connection_ClientID connection = "") ||
              bool_decide (Connection_Counterparty connection = "") ||
              negb (validHandshakeState (Connection_State connection)))))
    (λ _, setJSON store ctx (connectionKey (Connection_ConnectionID connection)) connection).

Definition Connection (store : T) (ctx : Ctx) (connectionID : string) : bool * result ConnectionState :=
  getJSON store ctx (connectionKey connectionID).

Definition UpdateConnectionState (store : T) (ctx : Ctx) (connectionID expectedState nextState : string)
    : T * result unit :=
  after store
    (check ErrInvalidConnection
       (negb (bool_decide (connectionID = "") || negb (validHandshakeState expectedState) ||
              negb (validHandshakeState nextState))) ≫= λ _,
     connection ← found_or ErrKeyNotFound (Connection store ctx connectionID);
     check ErrInvalidTransition
       (negb (bool_decide (Connection_State connection ≠ expectedState) ||
              negb (validTransition expectedState nextState))) ≫= λ _,
     Ok connection)
    (λ connection, SetConnection store ctx
       (mkConnection (Connection_ConnectionID connection) (Connection_ClientID connection)
          (Connection_Counterparty connection) nextState)).

Definition SetChannel (store : T) (ctx : Ctx) (channel : ChannelState) : T * result unit :=
  after store
    (check ErrInvalidChannel
       (negb (bool_decide (Channel_PortID channel = "") || bool_decide (Channel_ChannelID channel = "") ||
              bool_decide (Channel_ConnectionID channel = "") || bool_decide (Channel_Counterparty channel = "") ||
              negb (validChannelOrdering (Channel_Ordering channel)) ||
              negb (validHandshakeState (Channel_State channel)))))
    (λ _, setJSON store ctx (channelKey (Channel_PortID channel) (Channel_ChannelID channel)) channel).

Definition Channel (store : T) (ctx : Ctx) (portID channelID : string) : bool * result ChannelState :=
  getJSON store ctx (channelKey portID channelID).

Definition UpdateChannelState (store : T) (ctx : Ctx) (portID channelID expectedState nextState : string)
    : T * result unit :=
  after store
    (check ErrInvalidChannel
       (negb (bool_decide (portID = "") || bool_decide (channelID = "") ||
              negb (validHandshakeState expectedState) || negb (validHandshakeState nextState))) ≫= λ _,
     channel ← found_or ErrKeyNotFound (Channel store ctx portID channelID);
     check ErrInvalidTransition
       (negb (bool_decide (Channel_State channel ≠ expectedState) ||
              negb (validTransition expectedState nextState))) ≫= λ _,
     Ok channel)
    (λ channel, SetChannel store ctx
       (mkChannel (Channel_PortID channel) (Channel_ChannelID channel) (Channel_ConnectionID channel)
          (Channel_Counterparty channel) (Channel_Ordering channel) nextState)).

Definition validatePacketPath (store : T) (ctx : Ctx) (packet : Packet) : result unit :=
  channel ← found_or ErrInvalidChannel (Channel store ctx (Packet_SourcePort packet) (Packet_SourceChannel packet));
  check ErrChannelNotOpen (bool_decide (Channel_State channel = StateOpen)) ≫= λ _,
  check ErrInvalidChannel (bool_decide (Channel_Counterparty channel = Packet_DestinationChannel packet)) ≫= λ _,
  connection ← found_or ErrInvalidConnection (Connection store ctx (Channel_ConnectionID channel));
  check ErrConnectionNotOpen (bool_decide (Connection_State connection = StateOpen)) ≫= λ _,
  found_or ErrClientNotFound (Client store ctx (Connection_ClientID connection)) ≫= λ _, Ok tt.

(** *** Packets *)

Definition nextSequence (store : T) (ctx : Ctx) (portID channelID : string) : result Z :=
  match store_Get store ctx IbcNamespace (nextSequenceKey portID channelID) with
  | Err e => if errors_is e ErrKeyNotFound then Ok 1 else Err e
  | Ok encoded =>
      match parse_uint (string_of_bytes encoded) with
      | None => Err ErrUnexpectedPacketSequence
      | Some sequence => check ErrUnexpectedPacketSequence (bool_decide (sequence ≠ 0)) ≫= λ _, Ok sequence
      end
  end.

Definition Keeper_PacketReceipt (store : T) (ctx : Ctx) (packet : Packet) : bool * result PacketReceipt :=
  getJSON store ctx (packetCommitmentKey packet).

(** The checks of [SendPacket] and its writes. *)
Definition send_writes (store : T) (ctx : Ctx) (height : Height) (packet : Packet) : result (list KVWrite) :=
  validatePacket packet ≫= λ _,
  validatePacketPath store ctx packet ≫= λ _,
  (Keeper_PacketReceipt store ctx packet).2 ≫= λ _,
  check ErrPacketAlreadyExists (negb (Keeper_PacketReceipt store ctx packet).1) ≫= λ _,
  expectedSequence ← nextSequence store ctx (Packet_SourcePort packet) (Packet_SourceChannel packet);
  check ErrUnexpectedPacketSequence (bool_decide (Packet_Sequence packet = expectedSequence)) ≫= λ _,
  let receipt := mkPacketReceipt packet height false [] 0 false 0 in
  Ok ([mkWrite IbcNamespace (packetCommitmentKey packet) (marshal_json receipt) false;
       mkWrite IbcNamespace (nextSequenceKey (Packet_SourcePort packet) (Packet_SourceChannel packet))
         (bytes_of_string (format_uint (wrap64 (Packet_Sequence packet + 1)))) false] ++
      (if bool_decide (0 < Packet_TimeoutHeight packet)
       then [mkWrite IbcNamespace (packetTimeoutIndexKey packet) (packetCommitmentKey packet) false]
       else [])).

Definition SendPacket (store : T) (ctx : Ctx) (height : Height) (packet : Packet) : T * result unit :=
  after store (send_writes store ctx height packet)
    (λ writes, match store_SetBatch with
               | Some batch => batch store ctx writes
               | None => (store, Err ErrAtomicStoreRequired)
               end).

(** The checks of [AcknowledgePacket] and the receipt it stores. *)
Definition acked_receipt (store : T) (ctx : Ctx) (height : Height) (packet : Packet) (ack : bytes)
    : result PacketReceipt :=
  validatePacket packet ≫= λ _,
  validatePacketPath store ctx packet ≫= λ _,
  check ErrInvalidAck (bool_decide (ack ≠ [])) ≫= λ _,
  receipt ← found_or ErrKeyNotFound (getJSON store ctx (packetCommitmentKey packet));
  check ErrPacketTimedOut (negb (PR_TimedOut receipt)) ≫= λ _,
  check ErrPacketAcked (negb (PR_Acknowledged receipt)) ≫= λ _,
  Ok (mkPacketReceipt (PR_Packet receipt) (PR_CommitHeight receipt) true ack height (PR_TimedOut receipt)
        (PR_TimeoutAt receipt)).

Definition AcknowledgePacket (store : T) (ctx : Ctx) (height : Height) (packet : Packet) (ack : bytes)
    : T * result unit :=
  after store (acked_receipt store ctx height packet ack)
    (λ receipt,
      let expires := bool_decide (0 < Packet_TimeoutHeight (PR_Packet receipt)) in
      match store_SetBatch with
      | Some batch =>
          batch store ctx
            (mkWrite IbcNamespace (packetCommitmentKey packet) (marshal_json receipt) false ::
             (if expires then [mkWrite IbcNamespace (packetTimeoutIndexKey (PR_Packet receipt)) [] true] else []))
      | None =>
          match setJSON store ctx (packetCommitmentKey packet) receipt with
          | (store, Err e) => (store, Err e)
          | (store, Ok _) =>
              if expires then store_Delete store ctx IbcNamespace (packetTimeoutIndexKey (PR_Packet receipt))
              else (store, Ok tt)
          end
      end).

(** The checks of [TimeoutPacket] and the receipt it stores. *)
Definition expired_receipt (store : T) (ctx : Ctx) (height : Height) (packet : Packet) : result PacketReceipt :=
  validatePacket packet ≫= λ _,
  validatePacketPath store ctx packet ≫= λ _,
  check ErrPacketNotTimedOut
    (negb (bool_decide (Packet_TimeoutHeight packet = 0) || bool_decide (height < Packet_TimeoutHeight packet))) ≫= λ _,
  receipt ← found_or ErrKeyNotFound (getJSON store ctx (packetCommitmentKey packet));
  check ErrPacketAcked (negb (PR_Acknowledged receipt)) ≫= λ _,
  check ErrPacketTimedOut (negb (PR_TimedOut receipt)) ≫= λ _,
  Ok (mkPacketReceipt (PR_Packet receipt) (PR_CommitHeight receipt) (PR_Acknowledged receipt) (PR_Ack receipt)
        (PR_AckHeight receipt) true height).

Definition TimeoutPacket (store : T) (ctx : Ctx) (height : Height) (packet : Packet) : T * result unit :=
  after store (expired_receipt store ctx height packet)
    (λ receipt,
      match store_SetBatch with
      | Some batch =>
          batch store ctx
            [mkWrite IbcNamespace (packetCommitmentKey packet) (marshal_json receipt) false;
             mkWrite IbcNamespace (packetTimeoutIndexKey (PR_Packet receipt)) [] true]
      | None =>
          match setJSON store ctx (packetCommitmentKey packet) receipt with
          | (store, Err e) => (store, Err e)
          | (store, Ok _) => store_Delete store ctx IbcNamespace (packetTimeoutIndexKey (PR_Packet receipt))
          end
      end).

(** The loop over the entries of the timeout index. *)
Fixpoint timeout_receipts (store : T) (ctx : Ctx) (height : Height) (pairs : list KVPair)
    : result (list PacketReceipt) :=
  match pairs with
  | [] => Ok []
  | entry :: pairs =>
      let packetKey := packetTimeoutIndexPacketKey (KV_Key entry) in
      check ErrInvalidPacket (bool_decide (packetKey ≠ [])) ≫= λ _,
      let '(found, r) := getJSON store ctx packetKey in
      receipt ← r;
      receipts ← timeout_receipts store ctx height pairs;
      Ok (if negb found || PR_Acknowledged receipt || PR_TimedOut receipt ||
             bool_decide (Packet_TimeoutHeight (PR_Packet receipt) ≠ height)
          then receipts else receipt :: receipts)
  end.

Definition TimeoutReceiptsAt (store : T) (ctx : Ctx) (height : Height) : result (list PacketReceipt) :=
  check ErrInvalidPacket (bool_decide (height ≠ 0)) ≫= λ _,
  match store_ExportPrefix with
  | None => Err ibc_ErrStoreMissing
  | Some export =>
      pairs ← export store ctx IbcNamespace (packetTimeoutHeightPrefix height);
      timeout_receipts store ctx height pairs
  end.

(** *** Proofs *)

Definition VerifyClientProofAt (store : T) (ctx : Ctx) (clientID : string) (currentHeight : Height)
    (proof : QueryProof) : result unit :=
  client ← found_or ErrClientNotFound (Client store ctx clientID);
  check ErrClientFrozen (negb (Client_Frozen client)) ≫= λ _,
  check ErrClientExpired (negb (clientExpired client currentHeight)) ≫= λ _,
  check ibc_ErrInvalidProof (bool_decide (Client_LatestStateRoot client ≠ zero_hash)) ≫= λ _,
  check ibc_ErrInvalidProof (bool_decide (QP_Height proof = Client_LatestHeight client)) ≫= λ _,
  join_invalid_proof
    (Query_Verify proof (Client_ChainID client) (Client_LatestHeight client) (Client_LatestStateRoot client)).

Definition VerifyClientProof (store : T) (ctx : Ctx) (clientID : string) (proof : QueryProof) : result unit :=
  VerifyClientProofAt store ctx clientID 0 proof.

(** [verifiedPacketReceiptProofAt]; [VerifyPacketCommitmentProofAt] makes the
    same checks and drops the receipt. *)
Definition verifiedPacketReceiptProofAt (store : T) (ctx : Ctx) (clientID : string) (currentHeight : Height)
    (packet : Packet) (proof : QueryProof) : result PacketReceipt :=
  validatePacket packet ≫= λ _,
  VerifyClientProofAt store ctx clientID currentHeight proof ≫= λ _,
  check ibc_ErrInvalidProof
    (negb (bool_decide (QP_Namespace proof ≠ IbcNamespace) ||
           bool_decide (QP_Key proof ≠ packetCommitmentKey packet) || negb (QP_Exists proof))) ≫= λ _,
  receipt ← join_invalid_proof (unmarshal_json (QP_Value proof));
  check ibc_ErrInvalidProof
    (negb (negb (samePacket (PR_Packet receipt) packet) || bool_decide (PR_CommitHeight receipt = 0))) ≫= λ _,
  Ok receipt.

Definition VerifyPacketCommitmentProofAt (store : T) (ctx : Ctx) (clientID : string) (currentHeight : Height)
    (packet : Packet) (proof : QueryProof) : result unit :=
  verifiedPacketReceiptProofAt store ctx clientID currentHeight packet proof ≫= λ _, Ok tt.

Definition VerifyPacketCommitmentProof (store : T) (ctx : Ctx) (clientID : string) (packet : Packet)
    (proof : QueryProof) : result unit := VerifyPacketCommitmentProofAt store ctx clientID 0 packet proof.

Definition VerifyPacketAcknowledgementProofAt (store : T) (ctx : Ctx) (clientID : string) (currentHeight : Height)
    (packet : Packet) (proof : QueryProof) (ack : bytes) : result unit :=
  check ErrInvalidAck (bool_decide (ack ≠ [])) ≫= λ _,
  receipt ← verifiedPacketReceiptProofAt store ctx clientID currentHeight packet proof;
  check ibc_ErrInvalidProof
    (negb (negb (PR_Acknowledged receipt) || bool_decide (PR_AckHeight receipt = 0) ||
           bool_decide (PR_Ack receipt ≠ ack))).

Definition VerifyPacketAcknowledgementProof (store : T) (ctx : Ctx) (clientID : string) (packet : Packet)
    (proof : QueryProof) (ack : bytes) : result unit :=
  VerifyPacketAcknowledgementProofAt store ctx clientID 0 packet proof ack.

Definition VerifyPacketTimeoutProofAt (store : T) (ctx : Ctx) (clientID : string) (currentHeight : Height)
    (packet : Packet) (proof : QueryProof) : result unit :=
  validatePacket packet ≫= λ _,
  VerifyClientProofAt store ctx clientID currentHeight proof ≫= λ _,
  check ibc_ErrInvalidProof
    (negb (bool_decide (QP_Namespace proof ≠ IbcNamespace) ||
           bool_decide (QP_Key proof ≠ packetCommitmentKey packet))) ≫= λ _,
  if negb (QP_Exists proof) then Ok tt
  else
    receipt ← join_invalid_proof (unmarshal_json (QP_Value proof));
    check ibc_ErrInvalidProof
      (negb (negb (samePacket (PR_Packet receipt) packet) || PR_Acknowledged receipt)).

Definition VerifyPacketTimeoutProof (store : T) (ctx : Ctx) (clientID : string) (packet : Packet)
    (proof : QueryProof) : result unit := VerifyPacketTimeoutProofAt store ctx clientID 0 packet proof.

Definition AcknowledgePacketWithProof (store : T) (ctx : Ctx) (height : Height) (clientID : string)
    (packet : Packet) (proof : QueryProof) (ack : bytes) : T * result unit :=
  after store
    (check ErrInvalidClient (bool_decide (clientID ≠ "")) ≫= λ _,
     VerifyPacketAcknowledgementProofAt store ctx clientID height packet proof ack)
    (λ _, AcknowledgePacket store ctx height packet ack).

Definition TimeoutPacketWithProof (store : T) (ctx : Ctx) (height : Height) (clientID : string)
    (packet : Packet) (proof : QueryProof) : T * result unit :=
  after store
    (check ErrInvalidClient (bool_decide (clientID ≠ "")) ≫= λ _,
     VerifyPacketTimeoutProofAt store ctx clientID height packet proof)
    (λ _, TimeoutPacket store ctx height packet).
End keeper.
