(* ===== verification/IbcModule.v ===== *)
(** * The inter-chain module ([src/modules/ibc/ibc.go])

    Transactions that create and update clients, open connections and channels,
    and send, acknowledge and time out packets; the end of a block times out
    the packets whose height has come. *)

From S2P Require Import Prelude GoLib Sha256 Merkle Types Strconv TxTags Text Json JsonPrint JsonCodec Economics Address.
From S2P Require Import CanonicalTx FairOrdering Validator SignBytes StateProof ProofJson Store Staged Bank Ante Events App Ibc.

Definition IbcName : string := "ibc".

Definition clientCreateGasCost : Z := 20.
Definition clientUpdateGasCost : Z := 20.
Definition connectionOpenGasCost : Z := 15.
Definition connectionAckGasCost : Z := 10.
Definition channelOpenGasCost : Z := 15.
Definition channelAckGasCost : Z := 10.
Definition packetSendGasCost : Z := 25.
Definition packetAckGasCost : Z := 20.
Definition packetTimeoutGasCost : Z := 20.

Definition latestBeginHeightKey : bytes := bytes_of_string "meta/latest_begin_height".

Definition ErrInvalidIBCTx := ErrNew "modules/ibc.ErrInvalidIBCTx".
Definition ErrInvalidIBCQuery := ErrNew "modules/ibc.ErrInvalidIBCQuery".
Definition ErrIBCStoreMissing := ErrNew "modules/ibc.ErrStoreMissing".
Definition ErrBase64 := ErrNew "base64".

Variant IbcModule : Set := mkIbcModule.

(** ** Arguments of transactions *)

Definition parseHeight (value : string) : result Height :=
  match parse_uint value with
  | None => Err ErrInvalidIBCTx
  | Some height => check ErrInvalidIBCTx (bool_decide (height ≠ 0)) ≫= λ _, Ok height
  end.

Definition parseHash (value : string) : result Hash :=
  match hex_decode value with
  | None => Err ErrInvalidIBCTx
  | Some decoded => check ErrInvalidIBCTx (bool_decide (length decoded = 32%nat)) ≫= λ _, Ok (hash_of_bytes decoded)
  end.

Definition decodePacketData (value : string) : result bytes :=
  match base64_raw_decode value with
  | Some data => Ok data
  | None => match base64_decode value with Some data => Ok data | None => Err ErrBase64 end
  end.

Definition decodeProofData (value : string) : result QueryProof :=
  data ← decodePacketData value; unmarshal_json data.

(** The sequence and the optional timeout height of a packet. *)
Definition parse_sequence (value : string) : result Z :=
  match parse_uint value with
  | None => Err ErrInvalidIBCTx
  | Some sequence => check ErrInvalidIBCTx (bool_decide (sequence ≠ 0)) ≫= λ _, Ok sequence
  end.

Definition parse_timeout (rest : list string) : result Z :=
  match rest with
  | [] => Ok 0
  | value :: _ => match parse_uint value with None => Err ErrInvalidIBCTx | Some height => Ok height end
  end.

Definition packetFromArgs (args : list string) : result Packet :=
  match args with
  | sequence :: sourcePort :: sourceChannel :: destinationPort :: destinationChannel :: data :: rest =>
      check ErrInvalidIBCTx (bool_decide (length rest ≤ 1)%nat) ≫= λ _,
      sequence ← parse_sequence sequence;
      data ← decodePacketData data;
      timeoutHeight ← parse_timeout rest;
      let packet := mkPacket sequence sourcePort sourceChannel destinationPort destinationChannel data timeoutHeight in
      validatePacket packet ≫= λ _, Ok packet
  | _ => Err ErrInvalidIBCTx
  end.

(** The arguments before the last [n], and those. *)
Definition init_args (n : nat) (args : list string) : list string := take (length args - n) args.
Definition arg_from_end (n : nat) (args : list string) : string := default "" (args !! (length args - n)%nat).

Definition packetAckFromArgs (args : list string) : result (Packet * bytes) :=
  check ErrInvalidIBCTx (bool_decide (length args = 7%nat) || bool_decide (length args = 8%nat)) ≫= λ _,
  packet ← packetFromArgs (init_args 1 args);
  match decodePacketData (arg_from_end 1 args) with
  | Err _ => Err ErrInvalidAck
  | Ok ack => check ErrInvalidAck (bool_decide (ack ≠ [])) ≫= λ _, Ok (packet, ack)
  end.

Definition packetAckProofFromArgs (args : list string) : result (Packet * bytes * string * QueryProof) :=
  check ErrInvalidIBCTx (bool_decide (length args = 9%nat) || bool_decide (length args = 10%nat)) ≫= λ _,
  '(packet, ack) ← packetAckFromArgs (init_args 2 args);
  let clientID := arg_from_end 2 args in
  check ErrInvalidClient (bool_decide (clientID ≠ "")) ≫= λ _,
  proof ← decodeProofData (arg_from_end 1 args);
  Ok (packet, ack, clientID, proof).

Definition packetTimeoutProofFromArgs (args : list string) : result (Packet * string * QueryProof) :=
  check ErrInvalidIBCTx (bool_decide (length args = 9%nat)) ≫= λ _,
  packet ← packetFromArgs (init_args 2 args);
  let clientID := arg_from_end 2 args in
  check ErrInvalidClient (bool_decide (clientID ≠ "")) ≫= λ _,
  proof ← decodeProofData (arg_from_end 1 args);
  Ok (packet, clientID, proof).

Definition clientAuthority (tags : gmap string string) : string :=
  let authority := trim_space (default "" (tags !! "authority")) in
  if bool_decide (authority ≠ "") then authority else trim_space (default "" (tags !! "signer")).

Definition PacketQueryPath (packet : Packet) : string :=
  (IbcName ++ "/packet/" ++ format_uint (Packet_Sequence packet) ++ "/" ++ Packet_SourcePort packet ++ "/" ++
   Packet_SourceChannel packet ++ "/" ++ Packet_DestinationPort packet ++ "/" ++ Packet_DestinationChannel packet)%string.

(** ** Gas *)

Definition is_action (action : string) (names : list string) : bool := bool_decide (action ∈ names).

Definition Ibc_EstimateGas (tx : Tx) : result Z :=
  match ParseCanonicalTx tx with
  | Err _ => Err ErrInvalidIBCTx
  | Ok canonical =>
      check ErrInvalidIBCTx (bool_decide (CTx_Module canonical = IbcName)) ≫= λ _,
      let action := CTx_Action canonical in
      if is_action action ["client-create"] then Ok clientCreateGasCost
      else if is_action action ["client-update"] then Ok clientUpdateGasCost
      else if is_action action ["connection-open"; "connection-open-init"; "connection-open-try"] then
        Ok connectionOpenGasCost
      else if is_action action ["connection-open-ack"; "connection-open-confirm"] then Ok connectionAckGasCost
      else if is_action action ["channel-open"; "channel-open-init"; "channel-open-try"] then Ok channelOpenGasCost
      else if is_action action ["channel-open-ack"; "channel-open-confirm"] then Ok channelAckGasCost
      else if is_action action ["packet-send"] then Ok packetSendGasCost
      else if is_action action ["packet-ack"; "packet-ack-proof"] then Ok packetAckGasCost
      else if is_action action ["packet-timeout"; "packet-timeout-proof"] then Ok packetTimeoutGasCost
      else Err ErrInvalidIBCTx
  end.

(** ** Delivery *)

Section delivery.
Context {T : Type} `{!StateStore T} `{!SnapshotStore T}.
Context (error_text : error → string).

(** Store, gas meter and result. *)
Abbreviation delivery := (T * option GasMeter * Result)%type.

Definition resultFromError (r : result unit) : Result :=
  match r with Err e => result_code 4 (error_text e) | Ok _ => result_code 0 "" end.

(** [return resultFromError(err)] after a call of the keeper. *)
Definition from_keeper (gas : option GasMeter) (p : T * result unit) : delivery :=
  (p.1, gas, resultFromError p.2).

(** [if err := ctx.ConsumeGas(cost); err != nil { return ... }] *)
Definition consume_gas (store : T) (gas : option GasMeter) (cost : Z) (run : option GasMeter → delivery) : delivery :=
  match Gas_Consume gas cost with
  | (gas, Err e) => (store, gas, result_code 6 (error_text e))
  | (gas, Ok _) => run gas
  end.

(** [if err != nil { return types.Result{Code: code, ...} }] *)
Definition or_code {A} (code : Z) (store : T) (gas : option GasMeter) (r : result A) (run : A → delivery) : delivery :=
  match r with Err e => (store, gas, result_code code (error_text e)) | Ok a => run a end.

Definition invalid_tx (store : T) (gas : option GasMeter) : delivery :=
  (store, gas, result_code 2 (error_text ErrInvalidIBCTx)).

Definition parse_root (rest : list string) : result Hash :=
  match rest with [] => Ok zero_hash | value :: _ => parseHash value end.

(** The case ["client-create"] of [DeliverTx]. *)
Definition deliverClientCreate (store : T) (gas : option GasMeter) (ctx : Ctx) (args : list string)
    (authority : string) : delivery :=
  consume_gas store gas clientCreateGasCost (λ gas,
    match args with
    | clientID :: chainID :: height :: hash :: rest =>
        if bool_decide (1 < length rest)%nat then invalid_tx store gas
        else
          or_code 3 store gas (parseHeight height) (λ height,
          or_code 3 store gas (parseHash hash) (λ hash,
          or_code 3 store gas (parse_root rest) (λ stateRoot,
          from_keeper gas
            (SetClient store ctx (mkClient clientID chainID height hash stateRoot false 0 authority)))))
    | _ => invalid_tx store gas
    end).

Definition deliverClientUpdate (store : T) (gas : option GasMeter) (ctx : Ctx) (args : list string)
    (authority : string) : delivery :=
  consume_gas store gas clientUpdateGasCost (λ gas,
    match args with
    | clientID :: height :: validatorSetHash :: stateRoot :: rest =>
        if bool_decide (1 < length rest)%nat then invalid_tx store gas
        else
          or_code 3 store gas (parseHeight height) (λ height,
          or_code 3 store gas (parseHash validatorSetHash) (λ validatorSetHash,
          or_code 3 store gas (parseHash stateRoot) (λ stateRoot,
          or_code 4 store gas (found_or ErrClientNotFound (Client store ctx clientID)) (λ client,
          match rest with
          | value :: _ =>
              or_code 3 store gas (decodeProofData value) (λ proof,
              from_keeper gas
                (UpdateClientWithProof store ctx clientID height validatorSetHash stateRoot proof authority))
          | [] =>
              if bool_decide (Client_Authority client = "")
              then (store, gas, result_code 4 (error_text ibc_ErrInvalidProof))
              else from_keeper gas
                     (UpdateClientWithAuthority store ctx clientID height validatorSetHash stateRoot authority)
          end))))
    | _ => invalid_tx store gas
    end).

Definition deliverConnectionOpen (store : T) (gas : option GasMeter) (ctx : Ctx) (args : list string)
    (state : string) : delivery :=
  consume_gas store gas connectionOpenGasCost (λ gas,
    match args with
    | [connectionID; clientID; counterparty] =>
        from_keeper gas (SetConnection store ctx (mkConnection connectionID clientID counterparty state))
    | _ => invalid_tx store gas
    end).

Definition deliverConnectionTransition (store : T) (gas : option GasMeter) (ctx : Ctx) (args : list string)
    (expectedState nextState : string) : delivery :=
  consume_gas store gas connectionAckGasCost (λ gas,
    match args with
    | [connectionID] => from_keeper gas (UpdateConnectionState store ctx connectionID expectedState nextState)
    | _ => invalid_tx store gas
    end).

Definition deliverChannelOpen (store : T) (gas : option GasMeter) (ctx : Ctx) (args : list string)
    (state : string) : delivery :=
  consume_gas store gas channelOpenGasCost (λ gas,
    match args with
    | [portID; channelID; connectionID; counterparty; ordering] =>
        from_keeper gas (SetChannel store ctx (mkChannel portID channelID connectionID counterparty ordering state))
    | _ => invalid_tx store gas
    end).

Definition deliverChannelTransition (store : T) (gas : option GasMeter) (ctx : Ctx) (args : list string)
    (expectedState nextState : string) : delivery :=
  consume_gas store gas channelAckGasCost (λ gas,
    match args with
    | [portID; channelID] => from_keeper gas (UpdateChannelState store ctx portID channelID expectedState nextState)
    | _ => invalid_tx store gas
    end).

(** The cases of [DeliverTx] for packets. *)
Definition deliverPacket (store : T) (gas : option GasMeter) (ctx : Ctx) (height : Height) (action : string)
    (args : list string) : delivery :=
  if bool_decide (action = "packet-send") then
    consume_gas store gas packetSendGasCost (λ gas,
      or_code 3 store gas (packetFromArgs args) (λ packet,
      from_keeper gas (SendPacket store ctx height packet)))
  else if bool_decide (action = "packet-ack") then
    consume_gas store gas packetAckGasCost (λ gas,
      or_code 3 store gas (packetAckFromArgs args) (λ '(packet, ack),
      from_keeper gas (AcknowledgePacket store ctx height packet ack)))
  else if bool_decide (action = "packet-ack-proof") then
    consume_gas store gas packetAckGasCost (λ gas,
      or_code 3 store gas (packetAckProofFromArgs args) (λ '(packet, ack, clientID, proof),
      from_keeper gas (AcknowledgePacketWithProof store ctx height clientID packet proof ack)))
  else if bool_decide (action = "packet-timeout") then
    consume_gas store gas packetTimeoutGasCost (λ gas,
      or_code 3 store gas (packetFromArgs args) (λ packet,
      from_keeper gas (TimeoutPacket store ctx height packet)))
  else if bool_decide (action = "packet-timeout-proof") then
    consume_gas store gas packetTimeoutGasCost (λ gas,
      or_code 3 store gas (packetTimeoutProofFromArgs args) (λ '(packet, clientID, proof),
      from_keeper gas (TimeoutPacketWithProof store ctx height clientID packet proof)))
  else invalid_tx store gas.

(** The switch of [DeliverTx]. *)
Definition deliver_action (store : T) (gas : option GasMeter) (ctx : Ctx) (height : Height) (action : string)
    (args : list string) (tags : gmap string string) : delivery :=
  if bool_decide (action = "client-create") then deliverClientCreate store gas ctx args (clientAuthority tags)
  else if bool_decide (action = "client-update") then deliverClientUpdate store gas ctx args (clientAuthority tags)
  else if is_action action ["connection-open"; "connection-open-init"] then
    deliverConnectionOpen store gas ctx args StateInit
  else if bool_decide (action = "connection-open-try") then deliverConnectionOpen store gas ctx args StateTryOpen
  else if bool_decide (action = "connection-open-ack") then
    deliverConnectionTransition store gas ctx args StateInit StateOpen
  else if bool_decide (action = "connection-open-confirm") then
    deliverConnectionTransition store gas ctx args StateTryOpen StateOpen
  else if is_action action ["channel-open"; "channel-open-init"] then
    deliverChannelOpen store gas ctx args StateInit
  else if bool_decide (action = "channel-open-try") then deliverChannelOpen store gas ctx args StateTryOpen
  else if bool_decide (action = "channel-open-ack") then
    deliverChannelTransition store gas ctx args StateInit StateOpen
  else if bool_decide (action = "channel-open-confirm") then
    deliverChannelTransition store gas ctx args StateTryOpen StateOpen
  else deliverPacket store gas ctx height action args.

Definition Ibc_DeliverTx (store : option T) (gas : option GasMeter) (ctx : Ctx) (height : Height) (tx : Tx)
    : option T * option GasMeter * Result :=
  match store with
  | None => (None, gas, result_code 1 (error_text ErrIBCStoreMissing))
  | Some st =>
      match ParseCanonicalTx tx with
      | Err _ => (store, gas, result_code 2 (error_text ErrInvalidIBCTx))
      | Ok canonical =>
          if bool_decide (CTx_Module canonical = IbcName) then
            let '(st, gas, r) :=
              deliver_action st gas ctx height (CTx_Action canonical) (CTx_Args canonical) (CTx_Tags canonical) in
            (Some st, gas, r)
          else (store, gas, result_code 2 (error_text ErrInvalidIBCTx))
      end
  end.

(** ** Blocks *)

Definition Ibc_BeginBlock (store : option T) (ctx : Ctx) (contextHeight : Height) (header : Header)
    : option T * result unit :=
  match store with
  | None => (None, Ok tt)
  | Some st =>
      let height := if bool_decide (Header_Height header = 0) then contextHeight else Header_Height header in
      if bool_decide (height = 0) then (store, Ok tt)
      else
        let '(st, r) := store_Set st ctx IbcNamespace latestBeginHeightKey (bytes_of_string (format_uint height)) in
        (Some st, r)
  end.

(** The loop over the receipts whose packets expire. *)
Fixpoint sweep_receipts (store : T) (ctx : Ctx) (height : Height) (receipts : list PacketReceipt) : T * result unit :=
  match receipts with
  | [] => (store, Ok tt)
  | receipt :: receipts =>
      match TimeoutPacket store ctx height (PR_Packet receipt) with
      | (store, Err e) =>
          if negb (errors_is e ErrPacketTimedOut) && negb (errors_is e ErrPacketAcked) then (store, Err e)
          else sweep_receipts store ctx height receipts
      | (store, Ok _) => sweep_receipts store ctx height receipts
      end
  end.

Definition sweepExpiredPackets (store : T) (ctx : Ctx) (height : Height) : T * result unit :=
  after store (TimeoutReceiptsAt store ctx height) (sweep_receipts store ctx height).

Definition Ibc_EndBlock (store : option T) (ctx : Ctx) (height : Height) : option T * result unit :=
  match store with
  | None => (None, Ok tt)
  | Some st =>
      if bool_decide (height = 0) then (store, Ok tt)
      else let '(st, r) := sweepExpiredPackets st ctx height in (Some st, r)
  end.

(** ** Genesis *)

(** The loop over the entries of the genesis. *)
Fixpoint init_records (store : T) (ctx : Ctx) (entries : list (string * bytes)) : T * result unit :=
  match entries with
  | [] => (store, Ok tt)
  | (rawKey, rawValue) :: entries =>
      let '(store, r) :=
        if has_prefix rawKey (IbcName ++ ":client:") then
          after store (unmarshal_json rawValue) (λ client, SetClient store ctx client)
        else if has_prefix rawKey (IbcName ++ ":connection:") then
          after store (unmarshal_json rawValue) (λ connection, SetConnection store ctx connection)
        else if has_prefix rawKey (IbcName ++ ":channel:") then
          after store (unmarshal_json rawValue) (λ channel, SetChannel store ctx channel)
        else (store, Ok tt) in
      match r with Err e => (store, Err e) | Ok _ => init_records store ctx entries end
  end.

Definition Ibc_InitGenesis (order : MapOrder string bytes) (store : option T) (ctx : Ctx)
    (genesis : gmap string bytes) : option T * result unit :=
  match store with
  | None => (None, Ok tt)
  | Some store => let '(store, r) := init_records store ctx (order genesis) in (Some store, r)
  end.

(** ** Queries *)

Record CapabilityReport := mkCapabilities {
  Cap_Protocol : string;
  Cap_NativeVexoIBC : bool;
  Cap_CosmosIBCCompatible : bool;
  Cap_ProofFormat : string;
  Cap_ClientProofs : bool;
  Cap_ClientFreeze : bool;
  Cap_AuthorityBoundUpdates : bool;
  Cap_ConnectionHandshakeStates : list string;
  Cap_ChannelHandshakeStates : list string;
  Cap_OrderedChannels : bool;
  Cap_UnorderedChannels : bool;
  Cap_PacketAcknowledgementProofs : bool;
  Cap_PacketTimeoutProofs : bool;
  Cap_PacketTimeoutSweep : bool;
  Cap_CompatibilityTarget : string
}.

Definition Capabilities : CapabilityReport :=
  mkCapabilities "vexo-native-ibc-v1" true false "vexo-queryproof" true true true
    [StateInit; StateTryOpen; StateOpen] [StateInit; StateTryOpen; StateOpen] true true true true true
    "Vexo state-proof bridge semantics, not Cosmos ICS/IBC wire compatibility".

Definition capabilities_json (c : CapabilityReport) : json :=
  JObject
    [("protocol", JString (Cap_Protocol c)); ("native_vexo_ibc", JBool (Cap_NativeVexoIBC c));
     ("cosmos_ibc_compatible", JBool (Cap_CosmosIBCCompatible c)); ("proof_format", JString (Cap_ProofFormat c));
     ("client_proofs", JBool (Cap_ClientProofs c)); ("client_freeze", JBool (Cap_ClientFreeze c));
     ("authority_bound_updates", JBool (Cap_AuthorityBoundUpdates c));
     ("connection_handshake_states", JArray (JString <$> Cap_ConnectionHandshakeStates c));
     ("channel_handshake_states", JArray (JString <$> Cap_ChannelHandshakeStates c));
     ("ordered_channels", JBool (Cap_OrderedChannels c)); ("unordered_channels", JBool (Cap_UnorderedChannels c));
     ("packet_acknowledgement_proofs", JBool (Cap_PacketAcknowledgementProofs c));
     ("packet_timeout_proofs", JBool (Cap_PacketTimeoutProofs c));
     ("packet_timeout_sweep", JBool (Cap_PacketTimeoutSweep c));
     ("compatibility_target", JString (Cap_CompatibilityTarget c))].

(** The answer for a record the keeper looked up. *)
Definition answer_record {R} `{!JsonRecord R} (p : bool * result R) : Z * bytes * string :=
  match p with
  | (false, _) => (3, [], "IBC state not found")
  | (true, Err e) => if errors_is e ErrKeyNotFound then (3, [], "IBC state not found") else (4, [], error_text e)
  | (true, Ok value) => (0, marshal_json value, "")
  end.

Definition Ibc_Query (store : option T) (ctx : Ctx) (path : list string) : Z * bytes * string :=
  let invalid := (2, [], error_text ErrInvalidIBCQuery) in
  match path with
  | [] => invalid
  | kind :: args =>
      if bool_decide (kind = "capabilities") then
        if bool_decide (args = []) then (0, marshal (capabilities_json Capabilities), "") else invalid
      else
        match store with
        | None => (1, [], error_text ErrIBCStoreMissing)
        | Some store =>
            match args with
            | [id] =>
                if bool_decide (kind = "client") then answer_record (Client store ctx id)
                else if bool_decide (kind = "connection") then answer_record (Connection store ctx id)
                else invalid
            | [portID; channelID] =>
                if bool_decide (kind = "channel") then answer_record (Channel store ctx portID channelID) else invalid
            | [sequence; sourcePort; sourceChannel; destinationPort; destinationChannel] =>
                if bool_decide (kind = "packet") then
                  match parse_sequence sequence with
                  | Err _ => invalid
                  | Ok sequence =>
                      answer_record (Keeper_PacketReceipt store ctx
                        (mkPacket sequence sourcePort sourceChannel destinationPort destinationChannel
                           (bytes_of_string "query") 0))
                  end
                else invalid
            | _ => invalid
            end
        end
  end.
End delivery.

(** ** Events *)

(** The packet an action is about, its acknowledgement, and the event. *)
Definition event_packet (action : string) (args : list string) : option (result (Packet * bytes) * string) :=
  let plain r := packet ← r; Ok (packet, []) in
  if bool_decide (action = "packet-send") then Some (plain (packetFromArgs args), "send")
  else if bool_decide (action = "packet-ack") then Some (packetAckFromArgs args, "ack")
  else if bool_decide (action = "packet-ack-proof") then
    Some ('(packet, ack, _, _) ← packetAckProofFromArgs args; Ok (packet, ack), "ack")
  else if bool_decide (action = "packet-timeout") then Some (plain (packetFromArgs args), "timeout")
  else if bool_decide (action = "packet-timeout-proof") then
    Some ('(packet, _, _) ← packetTimeoutProofFromArgs args; Ok (packet, []), "timeout")
  else None.

Definition packetEventAttributes (action : string) (args : list string) : option (list Attribute) :=
  match event_packet action args with
  | Some (Ok (packet, ack), packetEvent) =>
      let sequence := format_uint (Packet_Sequence packet) in
      let packetID := (Packet_SourcePort packet ++ "/" ++ Packet_SourceChannel packet ++ "/" ++ sequence)%string in
      Some ([mkAttribute "ibc_packet_event" packetEvent true; mkAttribute "ibc_packet_id" packetID true;
             mkAttribute "ibc_sequence" sequence true;
             mkAttribute "ibc_source_port" (Packet_SourcePort packet) true;
             mkAttribute "ibc_source_channel" (Packet_SourceChannel packet) true;
             mkAttribute "ibc_destination_port" (Packet_DestinationPort packet) true;
             mkAttribute "ibc_destination_channel" (Packet_DestinationChannel packet) true;
             mkAttribute "ibc_data" (base64_raw_encode (Packet_Data packet)) false] ++
            (if bool_decide (0 < Packet_TimeoutHeight packet)
             then [mkAttribute "ibc_timeout_height" (format_uint (Packet_TimeoutHeight packet)) true] else []) ++
            (if bool_decide (ack ≠ []) then [mkAttribute "ibc_ack" (base64_raw_encode ack) false] else []))
  | _ => None
  end.

Definition Ibc_Events (tx : Tx) (result : Result) : list Event :=
  if bool_decide (Result_Code result ≠ 0) then []
  else
    match ParseCanonicalTx tx with
    | Err _ => []
    | Ok canonical =>
        if bool_decide (CTx_Module canonical = IbcName) then
          let id := match CTx_Args canonical with [] => [] | id :: _ => [mkAttribute "id" id true] end in
          [mkEvent ("ibc_" ++ CTx_Action canonical)
             ([mkAttribute "module" IbcName true; mkAttribute "action" (CTx_Action canonical) true] ++ id ++
              default [] (packetEventAttributes (CTx_Action canonical) (CTx_Args canonical)))]
        else []
    end.

(** ** The module interface *)

#[global] Instance ibc_ops (error_text : error → string) (order : MapOrder string bytes) : ModuleOps IbcModule := {|
  mod_Name _ := IbcName;
  mod_InitGenesis _ _ _ module actx store genesis :=
    let '(store, r) := Ibc_InitGenesis order store (actx_Ctx actx) genesis in (module, store, r);
  mod_BeginBlock _ _ _ module actx store header :=
    let '(store, r) := Ibc_BeginBlock store (actx_Ctx actx) (actx_Height actx) header in (module, store, r);
  mod_DeliverTx _ _ _ module actx store gas tx :=
    let '(store, gas, r) := Ibc_DeliverTx error_text store gas (actx_Ctx actx) (actx_Height actx) tx in
    (module, store, gas, r);
  mod_EndBlock _ _ _ module actx store :=
    let '(store, r) := Ibc_EndBlock store (actx_Ctx actx) (actx_Height actx) in (module, store, r);
  mod_EstimateGas _ _ _ _ := Some (λ _ _ tx, Ibc_EstimateGas tx);
  mod_ValidateTx _ _ _ _ := None;
  mod_Events _ _ _ _ := Some (λ _ _ tx result, Ibc_Events tx result);
  mod_ValidatorUpdates _ _ _ _ := None;
  mod_Query _ _ _ _ := Some (λ actx store path _, Ibc_Query error_text store (actx_Ctx actx) path);
  mod_BindStore _ _ _ _ := None;
  mod_CloneModule _ := None
|}.
