(* ===== verification/IbcLaws.v ===== *)
(** * JSON of inter-chain records

    The records of [Ibc] are read back from their JSON. *)

From S2P Require Import Prelude GoLib Sha256 Merkle Types Strconv TxTags Text Json JsonPrint Economics Address CanonicalTx.
From S2P Require Import JsonCodec FairOrdering Validator SignBytes StateProof Store Ibc.

Definition packet_ok (p : Packet) : Prop := is_u64 (Packet_Sequence p) ∧ is_u64 (Packet_TimeoutHeight p).

#[global] Program Instance packet_lawful : LawfulJson Packet := {|
  json_ok := packet_ok;
  clean_record p := mkPacket (Packet_Sequence p) (sanitize (Packet_SourcePort p)) (sanitize (Packet_SourceChannel p))
    (sanitize (Packet_DestinationPort p)) (sanitize (Packet_DestinationChannel p)) (Packet_Data p)
    (Packet_TimeoutHeight p);
  json_depth := 2
|}.
Next Obligation. intros p [Hs Ht]. json_printable. Qed.
Next Obligation. intros p. json_nesting. Qed.
Next Obligation. done. Qed.
Next Obligation. intros p [Hs Ht]. json_record. Qed.

Definition packet_receipt_ok (r : PacketReceipt) : Prop :=
  packet_ok (PR_Packet r) ∧ is_u64 (PR_CommitHeight r) ∧ is_u64 (PR_AckHeight r) ∧ is_u64 (PR_TimeoutAt r).

#[global] Program Instance packet_receipt_lawful : LawfulJson PacketReceipt := {|
  json_ok := packet_receipt_ok;
  clean_record r := mkPacketReceipt (clean_record (PR_Packet r)) (PR_CommitHeight r) (PR_Acknowledged r) (PR_Ack r)
    (PR_AckHeight r) (PR_TimedOut r) (PR_TimeoutAt r);
  json_depth := 3
|}.
Next Obligation. intros r (Hp & Hc & Ha & Ht). json_printable. Qed.
Next Obligation. intros p. json_nesting. Qed.
Next Obligation. done. Qed.
Next Obligation. intros p (Hp & Hc & Ha & Ht). json_record. Qed.

Definition client_ok (c : ClientState) : Prop :=
  is_u64 (Client_LatestHeight c) ∧ is_u64 (Client_TrustingPeriodHeight c).

#[global] Program Instance client_lawful : LawfulJson ClientState := {|
  json_ok := client_ok;
  clean_record c := mkClient (sanitize (Client_ClientID c)) (sanitize (Client_ChainID c)) (Client_LatestHeight c)
    (Client_ValidatorSetHash c) (Client_LatestStateRoot c) (Client_Frozen c) (Client_TrustingPeriodHeight c)
    (sanitize (Client_Authority c));
  json_depth := 2
|}.
Next Obligation. intros c [Hh Ht]. json_printable. Qed.
Next Obligation. intros c. json_nesting. Qed.
Next Obligation. done. Qed.
Next Obligation. intros c [Hh Ht]. json_record. Qed.

#[global] Program Instance connection_lawful : LawfulJson ConnectionState := {|
  json_ok _ := True;
  clean_record c := mkConnection (sanitize (Connection_ConnectionID c)) (sanitize (Connection_ClientID c))
    (sanitize (Connection_Counterparty c)) (sanitize (Connection_State c));
  json_depth := 1
|}.
Next Obligation. intros c _. json_printable. Qed.
Next Obligation. intros c. json_nesting. Qed.
Next Obligation. done. Qed.
Next Obligation. intros c _. json_record. Qed.

#[global] Program Instance channel_lawful : LawfulJson ChannelState := {|
  json_ok _ := True;
  clean_record c := mkChannel (sanitize (Channel_PortID c)) (sanitize (Channel_ChannelID c))
    (sanitize (Channel_ConnectionID c)) (sanitize (Channel_Counterparty c)) (sanitize (Channel_Ordering c))
    (sanitize (Channel_State c));
  json_depth := 1
|}.
Next Obligation. intros c _. json_printable. Qed.
Next Obligation. intros c. json_nesting. Qed.
Next Obligation. done. Qed.
Next Obligation. intros c _. json_record. Qed.
