(* ===== verification/IbcRun.v ===== *)
(** * What inter-chain transactions change ([src/modules/ibc/ibc.go])

    Every step of the inter-chain module is a list of changes of its namespace,
    each of one of three kinds: a record of a client, connection or channel is
    stored, the next packet of a channel is sent, or a pending packet is settled.
    So the module keeps the promise of [LawfulModule]. *)

From S2P Require Import Prelude GoLib Sha256 Merkle Types Strconv TxTags Text Json JsonPrint JsonCodec Economics Address.
From S2P Require Import CanonicalTx FairOrdering Validator SignBytes StateProof ProofJson Store Staged Bank Ante Events App.
From S2P Require Import BlockExecution Evidence Slashing Staking StakingStore Ibc IbcModule IbcLaws.

(** ** Changes *)

(** The namespace of the module. *)
Abbreviation View := (bytes → option bytes).

Definition view_after (ws : list KVWrite) (v : View) : View := writes_content ws (λ _, v) IbcNamespace.

Definition stored {R} `{!JsonRecord R} (v : View) (k : bytes) : option R :=
  encoded ← v k; match unmarshal_json encoded with Ok r => Some r | Err _ => None end.

(** Keys of clients, connections, channels and the height of the last block. *)
Definition record_key (k : bytes) : bool :=
  existsb (has_prefix (string_of_bytes k)) ["clients/"; "connections/"; "channels/"; "meta/"].

(** The sequence the next packet of a channel must have. *)
Definition next_of (v : View) (portID channelID : string) : option Z :=
  match v (nextSequenceKey portID channelID) with
  | None => Some 1
  | Some encoded =>
      n ← parse_uint (string_of_bytes encoded); if bool_decide (n = 0) then None else Some n
  end.

Definition send_batch (h : Height) (p : Packet) : list KVWrite :=
  [mkWrite IbcNamespace (packetCommitmentKey p) (marshal_json (mkPacketReceipt p h false [] 0 false 0)) false;
   mkWrite IbcNamespace (nextSequenceKey (Packet_SourcePort p) (Packet_SourceChannel p))
     (bytes_of_string (format_uint (wrap64 (Packet_Sequence p + 1)))) false] ++
  (if bool_decide (0 < Packet_TimeoutHeight p)
   then [mkWrite IbcNamespace (packetTimeoutIndexKey p) (packetCommitmentKey p) false] else []).

(** A receipt after its packet was acknowledged or timed out. *)
Definition receipt_acked (h : Height) (ack : bytes) (r : PacketReceipt) : PacketReceipt :=
  mkPacketReceipt (PR_Packet r) (PR_CommitHeight r) true ack h (PR_TimedOut r) (PR_TimeoutAt r).
Definition receipt_expired (h : Height) (r : PacketReceipt) : PacketReceipt :=
  mkPacketReceipt (PR_Packet r) (PR_CommitHeight r) (PR_Acknowledged r) (PR_Ack r) (PR_AckHeight r) true h.
Definition pending_receipt (r : PacketReceipt) : Prop := PR_Acknowledged r = false ∧ PR_TimedOut r = false.

(** The receipt under a key, and the entry of its packet in the timeout index
    dropped; a receipt without timeout may have none. *)
Definition settle_batch (k : bytes) (r : PacketReceipt) (indexed : bool) : list KVWrite :=
  mkWrite IbcNamespace k (marshal_json r) false ::
  (if indexed then [mkWrite IbcNamespace (packetTimeoutIndexKey (PR_Packet r)) [] true] else []).

(** The names of the channel of a packet are UTF-8, and kept as they are. *)
Definition clean_names (p : Packet) : Prop :=
  sanitize (Packet_SourcePort p) = Packet_SourcePort p ∧ sanitize (Packet_SourceChannel p) = Packet_SourceChannel p.

(** The flag tells whether all packets sent have such names. *)
Inductive ibc_change (u : bool) (h : Height) (v : View) : list KVWrite → Prop :=
| change_record k b : record_key k = true → ibc_change u h v [mkWrite IbcNamespace k b false]
| change_send p :
    packet_ok p → (u = true → clean_names p) → validatePacket p = Ok tt → v (packetCommitmentKey p) = None →
    next_of v (Packet_SourcePort p) (Packet_SourceChannel p) = Some (Packet_Sequence p) →
    ibc_change u h v (send_batch h p)
| change_settle p r r' indexed :
    stored v (packetCommitmentKey p) = Some r → pending_receipt r →
    r' = receipt_expired h r ∨ (∃ ack, ack ≠ [] ∧ r' = receipt_acked h ack r) →
    (0 < Packet_TimeoutHeight (PR_Packet r) → indexed = true) →
    ibc_change u h v (settle_batch (packetCommitmentKey p) r' indexed).

(** A list of changes, one after the other. *)
Fixpoint ibc_changes (u : bool) (h : Height) (v : View) (ops : list StoreOp) : Prop :=
  match ops with
  | [] => True
  | op :: ops => ibc_change u h v (op_writes op) ∧ ibc_changes u h (view_after (op_writes op) v) ops
  end.

(** ** Views *)

Lemma view_after_ext ws (v v' : View) k : v k = v' k → view_after ws v k = view_after ws v' k.
Proof. intros Hv. unfold view_after. by apply writes_content_ext. Qed.

Lemma view_content ws (c : Content) k : writes_content ws c IbcNamespace k = view_after ws (c IbcNamespace) k.
Proof. unfold view_after. by apply writes_content_ext. Qed.

Lemma ibc_change_ext u h (v v' : View) ws : (∀ k, v k = v' k) → ibc_change u h v ws → ibc_change u h v' ws.
Proof.
  intros Hv. destruct 1 as [k b Hk|p Hp Hu Hval Hn Hs|p r r' indexed Hr Hpend Hset Hi].
  - by apply change_record.
  - apply change_send; [done|done|done|by rewrite <-Hv|]. unfold next_of in *. by rewrite <-Hv.
  - eapply change_settle; [|done..]. unfold stored in *. by rewrite <-Hv.
Qed.

Lemma ibc_changes_ext u h (v v' : View) ops : (∀ k, v k = v' k) → ibc_changes u h v ops → ibc_changes u h v' ops.
Proof.
  revert v v'. induction ops as [|op ops IH]; intros v v' Hv; [done|]. cbn [ibc_changes]. intros [H1 H2].
  split; [by eapply ibc_change_ext|]. eapply IH; [|exact H2]. intros k. by apply view_after_ext.
Qed.

Lemma view_after_app ws ws' v k : view_after (ws ++ ws') v k = view_after ws' (view_after ws v) k.
Proof. unfold view_after. rewrite writes_content_app. by apply writes_content_ext. Qed.

Lemma ibc_changes_app u h v ops ops' :
  ibc_changes u h v ops → ibc_changes u h (view_after (ops ≫= op_writes) v) ops' → ibc_changes u h v (ops ++ ops').
Proof.
  revert v. induction ops as [|op ops IH]; intros v; [done|]. cbn [app ibc_changes mbind list_bind].
  intros [H1 H2] H3. split; [done|]. apply IH; [done|]. eapply ibc_changes_ext; [|exact H3].
  intros k. apply view_after_app.
Qed.

Lemma packetTimeoutIndexKey_nonempty p : packetTimeoutIndexKey p ≠ [].
Proof. done. Qed.
#[global] Hint Resolve packetTimeoutIndexKey_nonempty : core.

Lemma ibc_valid : valid_namespace IbcNamespace.
Proof. by split. Qed.
#[global] Hint Resolve ibc_valid : core.

(** A valid write in the namespace of the module. *)
Definition own_write (w : KVWrite) : Prop := KW_Namespace w = IbcNamespace ∧ KW_Key w ≠ [].

Lemma own_write_valid w : own_write w → valid_write w.
Proof. intros [Hn Hk]. by split; [rewrite Hn|]. Qed.

Lemma record_key_nonempty k : record_key k = true → k ≠ [].
Proof. by intros Hk ->. Qed.

Lemma ibc_change_own u h v ws : ibc_change u h v ws → Forall own_write ws.
Proof.
  destruct 1 as [k b Hk|p|p r r' indexed].
  - apply Forall_singleton. split; [done|]. by apply record_key_nonempty.
  - unfold send_batch. repeat (apply Forall_cons; split; [by split; cbn; auto|]).
    case_bool_decide; [|done]. apply Forall_singleton. by split; cbn; auto.
  - unfold settle_batch. apply Forall_cons. split; [by split; cbn; auto|]. destruct indexed; [|done].
    apply Forall_singleton. by split; cbn; auto.
Qed.

(** ** Runs *)

Section runs.
Context {T1 T2 : Type} `{LawfulSnapshot T1} `{!BatchStore T1} `{LawfulSnapshot T2} `{!BatchStore T2}.

(** Two runs with the same outcome that make the same changes. *)
Definition ibc_run (u : bool) (h : Height) (s1 : T1) (s2 : T2) (p1 : T1 * result unit) (p2 : T2 * result unit) : Prop :=
  ∃ ops r, Forall valid_op ops ∧ ibc_changes u h (content s1 IbcNamespace) ops ∧
    p1 = (run_ops s1 ops, r) ∧ p2 = (run_ops s2 ops, r).

Lemma ibc_run_refl u h s1 s2 r : ibc_run u h s1 s2 (s1, r) (s2, r).
Proof. by exists [], r. Qed.

(** A run after another. *)
Lemma ibc_run_trans u h (s1 : T1) (s2 : T2) p1 p2 (f1 : T1 → result unit → T1 * result unit)
    (f2 : T2 → result unit → T2 * result unit) :
  store_sim s1 s2 → ibc_run u h s1 s2 p1 p2 →
  (∀ s1' s2' r, store_sim s1' s2' → ibc_run u h s1' s2' (f1 s1' r) (f2 s2' r)) →
  ibc_run u h s1 s2 (f1 p1.1 p1.2) (f2 p2.1 p2.2).
Proof.
  intros Hs (ops & r & Hv & Hc & -> & ->) Hf. cbn [fst snd].
  pose proof (run_ops_sim s1 s2 ops Hs Hv) as Hs'.
  destruct (Hf _ _ r Hs') as (ops' & r' & Hv' & Hc' & -> & ->).
  exists (ops ++ ops'), r'. split; [by apply Forall_app|]. split.
  - apply ibc_changes_app; [done|]. eapply ibc_changes_ext; [|exact Hc']. intros k.
    destruct Hs as (Hok1 & _). destruct (run_ops_content s1 ops) as [_ HR]; [apply has_batch|done..|].
    rewrite HR by auto. apply view_content.
  - unfold run_ops. by rewrite !foldl_app.
Qed.

Context (u : bool) (h : Height) (s1 : T1) (s2 : T2) (Hs : store_sim s1 s2).

Lemma after_run {A} (r1 r2 : result A) f1 f2 :
  r1 = r2 → (∀ a, r1 = Ok a → ibc_run u h s1 s2 (f1 a) (f2 a)) →
  ibc_run u h s1 s2 (after s1 r1 f1) (after s2 r2 f2).
Proof.
  intros <- Hf. unfold after. destruct r1 as [a|e]; [by apply Hf|]. apply ibc_run_refl.
Qed.

(** ** Reads *)

Lemma getJSON_view {T R} `{LawfulSnapshot T} `{!JsonRecord R} (s : T) k :
  store_ok s → k ≠ [] →
  getJSON s None k =
    match content s IbcNamespace k with
    | None => (false, Ok json_zero)
    | Some encoded => (true, unmarshal_json (R:=R) encoded)
    end.
Proof. intros Hok Hk. unfold getJSON. rewrite Get_total by auto. by destruct (content s _ k). Qed.

Lemma getJSON_sim {R} `{!JsonRecord R} k : k ≠ [] → getJSON (R:=R) s1 None k = getJSON s2 None k.
Proof. intros Hk. unfold getJSON. by rewrite (Get_sim s1 s2) by auto. Qed.

Lemma Client_sim id : Client s1 None id = Client s2 None id.
Proof. by apply getJSON_sim; auto. Qed.
Lemma Connection_sim id : Connection s1 None id = Connection s2 None id.
Proof. by apply getJSON_sim; auto. Qed.
Lemma Channel_sim port id : Channel s1 None port id = Channel s2 None port id.
Proof. by apply getJSON_sim; auto. Qed.

Lemma validatePacketPath_sim p : validatePacketPath s1 None p = validatePacketPath s2 None p.
Proof.
  unfold validatePacketPath. rewrite Channel_sim. destruct (found_or _ _) as [channel|e]; [|done].
  cbn [mbind result_bind]. rewrite Connection_sim. destruct (check _ _); [|done]. cbn [mbind result_bind].
  destruct (check _ _); [|done]. cbn [mbind result_bind].
  destruct (found_or _ (Connection _ _ _)) as [connection|e]; [|done]. cbn [mbind result_bind]. by rewrite Client_sim.
Qed.

(** ** Writes *)

Lemma setJSON_run {R} `{!JsonRecord R} k (r : R) :
  record_key k = true → ibc_run u h s1 s2 (setJSON s1 None k r) (setJSON s2 None k r).
Proof.
  intros Hk. pose proof Hs as (Hok1 & Hok2 & _). pose proof (record_key_nonempty k Hk) as Hne.
  unfold setJSON. rewrite !store_Set_op by auto. exists [OpSet IbcNamespace k (marshal_json r)], (Ok tt).
  split; [by repeat constructor|]. split; [|done]. split; [by apply change_record|done].
Qed.

Lemma batch_run (b1 : T1 → Ctx → list KVWrite → T1 * result unit) b2 ws :
  store_SetBatch = Some b1 → store_SetBatch = Some b2 → ibc_change u h (content s1 IbcNamespace) ws →
  ibc_run u h s1 s2 (b1 s1 None ws) (b2 s2 None ws).
Proof.
  intros E1 E2 Hc. pose proof Hs as (Hok1 & Hok2 & _).
  assert (Forall valid_write ws) as Hv.
  { eapply Forall_impl; [by eapply ibc_change_own|]. apply own_write_valid. }
  pose proof (apply_writes_op s1 ws Hok1 Hv) as A1. pose proof (apply_writes_op s2 ws Hok2 Hv) as A2.
  unfold apply_writes in A1, A2. rewrite E1 in A1. rewrite E2 in A2. rewrite A1, A2.
  exists [OpBatch ws], (Ok tt). split; [by apply Forall_singleton|done].
Qed.

(** ** The keeper *)

Lemma record_keys s prefix :
  prefix ∈ ["clients/"; "connections/"; "channels/"; "meta/"] → record_key (bytes_of_string (prefix ++ s)) = true.
Proof.
  intros Hp. unfold record_key. rewrite string_of_bytes_of_string. apply existsb_exists. exists prefix.
  split; [by apply list_elem_of_In|apply has_prefix_app].
Qed.

Lemma SetClient_run c : ibc_run u h s1 s2 (SetClient s1 None c) (SetClient s2 None c).
Proof. apply after_run; [done|]. intros _ _. apply setJSON_run, record_keys. set_solver. Qed.

Lemma SetConnection_run c : ibc_run u h s1 s2 (SetConnection s1 None c) (SetConnection s2 None c).
Proof. apply after_run; [done|]. intros _ _. apply setJSON_run, record_keys. set_solver. Qed.

Lemma SetChannel_run c : ibc_run u h s1 s2 (SetChannel s1 None c) (SetChannel s2 None c).
Proof. apply after_run; [done|]. intros _ _. apply setJSON_run, record_keys. set_solver. Qed.

Lemma updateClient_run c height hash root authority :
  ibc_run u h s1 s2 (updateClient s1 None c height hash root authority) (updateClient s2 None c height hash root authority).
Proof. apply after_run; [done|]. intros c' _. apply SetClient_run. Qed.

Lemma UpdateClientWithProof_run id height hash root proof authority :
  ibc_run u h s1 s2 (UpdateClientWithProof s1 None id height hash root proof authority)
    (UpdateClientWithProof s2 None id height hash root proof authority).
Proof. apply after_run; [by rewrite Client_sim|]. intros c _. apply updateClient_run. Qed.

Lemma UpdateClientWithAuthority_run id height hash root authority :
  ibc_run u h s1 s2 (UpdateClientWithAuthority s1 None id height hash root authority)
    (UpdateClientWithAuthority s2 None id height hash root authority).
Proof. apply after_run; [by rewrite Client_sim|]. intros c _. apply updateClient_run. Qed.

Lemma UpdateConnectionState_run id expected next :
  ibc_run u h s1 s2 (UpdateConnectionState s1 None id expected next) (UpdateConnectionState s2 None id expected next).
Proof. apply after_run; [by rewrite Connection_sim|]. intros c _. apply SetConnection_run. Qed.

Lemma UpdateChannelState_run port id expected next :
  ibc_run u h s1 s2 (UpdateChannelState s1 None port id expected next)
    (UpdateChannelState s2 None port id expected next).
Proof. apply after_run; [by rewrite Channel_sim|]. intros c _. apply SetChannel_run. Qed.

Lemma nextSequence_view {T} `{LawfulSnapshot T} (s : T) port id n :
  store_ok s → nextSequence s None port id = Ok n → next_of (content s IbcNamespace) port id = Some n.
Proof.
  intros Hok. unfold nextSequence, next_of. rewrite Get_total by auto.
  destruct (content s IbcNamespace _) as [encoded|]; [|by intros [= <-]].
  destruct (parse_uint _) as [m|]; [|done]. cbn [mbind option_bind]. intros HN. result_inv HN.
  rewrite bool_decide_eq_false_2; [congruence|]. by apply bool_decide_eq_true in HN0.
Qed.

Lemma send_writes_change {T} `{LawfulSnapshot T} (s : T) p ws :
  store_ok s → packet_ok p → (u = true → clean_names p) → send_writes s None h p = Ok ws → ibc_change u h (content s IbcNamespace) ws.
Proof.
  intros Hok Hp Hu HW. unfold send_writes, Keeper_PacketReceipt in HW. rewrite getJSON_view in HW by auto.
  result_inv HW. subst ws. apply bool_decide_eq_true in HW5 as Hseq. destruct r.
  apply change_send; [done..| |].
  - destruct (content s IbcNamespace (packetCommitmentKey p)); [done|done].
  - rewrite Hseq. by apply nextSequence_view.
Qed.

Lemma SendPacket_run p :
  packet_ok p → (u = true → clean_names p) → ibc_run u h s1 s2 (SendPacket s1 None h p) (SendPacket s2 None h p).
Proof.
  intros Hp Hu. pose proof Hs as (Hok1 & Hok2 & _). apply after_run.
  - unfold send_writes, Keeper_PacketReceipt, nextSequence.
    by rewrite validatePacketPath_sim, getJSON_sim, (Get_sim s1 s2) by auto.
  - intros ws HW. apply send_writes_change in HW; [|done..].
    pose proof (has_batch (T:=T1)). pose proof (has_batch (T:=T2)).
    destruct (store_SetBatch (S:=T1)) as [b1|] eqn:E1; [|done]. destruct (store_SetBatch (S:=T2)) as [b2|] eqn:E2; [|done].
    by apply batch_run.
Qed.

Lemma found_stored {T} `{LawfulSnapshot T} (s : T) missing k (r : PacketReceipt) :
  store_ok s → k ≠ [] → found_or missing (getJSON s None k) = Ok r → stored (content s IbcNamespace) k = Some r.
Proof.
  intros Hok Hk HF. rewrite getJSON_view in HF by done. unfold stored, found_or in *.
  destruct (content s IbcNamespace k) as [encoded|]; [|by result_inv HF]. cbn [fst snd mbind option_bind] in *.
  destruct (unmarshal_json encoded) as [x|e]; [|done]. cbn in HF. congruence.
Qed.

Lemma AcknowledgePacket_run p ack :
  ibc_run u h s1 s2 (AcknowledgePacket s1 None h p ack) (AcknowledgePacket s2 None h p ack).
Proof.
  pose proof Hs as (Hok1 & Hok2 & _). apply after_run.
  { unfold acked_receipt. by rewrite validatePacketPath_sim, getJSON_sim by auto. }
  intros r HR. pose proof (has_batch (T:=T1)). pose proof (has_batch (T:=T2)).
  destruct (store_SetBatch (S:=T1)) as [b1|] eqn:E1; [|done]. destruct (store_SetBatch (S:=T2)) as [b2|] eqn:E2; [|done].
  apply batch_run; [done..|]. unfold acked_receipt in HR. result_inv HR. subst r.
  apply negb_true_iff in HR4, HR5. apply found_stored in HR3; [|by auto..].
  eapply (change_settle _ _ _ p _ _ (bool_decide (0 < Packet_TimeoutHeight (PR_Packet r3)))); [done|done| |].
  - right. exists ack. split; [by apply bool_decide_eq_true in HR2|done].
  - intros Ht. by apply bool_decide_eq_true.
Qed.

Lemma TimeoutPacket_run p : ibc_run u h s1 s2 (TimeoutPacket s1 None h p) (TimeoutPacket s2 None h p).
Proof.
  pose proof Hs as (Hok1 & Hok2 & _). apply after_run.
  { unfold expired_receipt. by rewrite validatePacketPath_sim, getJSON_sim by auto. }
  intros r HR. pose proof (has_batch (T:=T1)). pose proof (has_batch (T:=T2)).
  destruct (store_SetBatch (S:=T1)) as [b1|] eqn:E1; [|done]. destruct (store_SetBatch (S:=T2)) as [b2|] eqn:E2; [|done].
  apply batch_run; [done..|]. unfold expired_receipt in HR. result_inv HR. subst r.
  apply negb_true_iff in HR4, HR5. apply found_stored in HR3; [|by auto..].
  eapply (change_settle _ _ _ p _ _ true); [done|done|by left|done].
Qed.
End runs.

(** ** Deliveries *)

Lemma packetFromArgs_ok args p : packetFromArgs args = Ok p → packet_ok p.
Proof.
  unfold packetFromArgs. destruct args as [|a0 [|a1 [|a2 [|a3 [|a4 [|a5 rest]]]]]]; try done.
  intros HP. result_inv HP. subst p. split; cbn.
  - unfold parse_sequence in HP1. destruct (parse_uint a0) as [n|] eqn:E; [|done]. result_inv HP1. subst.
    by eapply parse_uint_u64.
  - unfold parse_timeout in HP3. destruct rest as [|a rest]; [injection HP3 as <-; done|].
    destruct (parse_uint a) as [n|] eqn:E; [|done]. injection HP3 as <-. by eapply parse_uint_u64.
Qed.

Lemma packetFromArgs_clean args p :
  Forall (λ a, sanitize a = a) args → packetFromArgs args = Ok p → clean_names p.
Proof.
  unfold packetFromArgs. destruct args as [|a0 [|a1 [|a2 [|a3 [|a4 [|a5 rest]]]]]]; try done.
  intros Ha HP. result_inv HP. subst p. rewrite !Forall_cons in Ha. by destruct Ha as (_ & ? & ? & _).
Qed.

Section deliveries.
Context {T1 T2 : Type} `{LawfulSnapshot T1} `{!BatchStore T1} `{LawfulSnapshot T2} `{!BatchStore T2}.
Context (error_text : error → string) (u : bool) (h : Height) (s1 : T1) (s2 : T2) (Hs : store_sim s1 s2).

Definition ibc_delivery (d1 : T1 * option GasMeter * Result) (d2 : T2 * option GasMeter * Result) : Prop :=
  ∃ ops gas r, Forall valid_op ops ∧ ibc_changes u h (content s1 IbcNamespace) ops ∧
    d1 = (run_ops s1 ops, gas, r) ∧ d2 = (run_ops s2 ops, gas, r).

Lemma delivery_refl gas r : ibc_delivery (s1, gas, r) (s2, gas, r).
Proof. by exists [], gas, r. Qed.

Lemma from_keeper_run gas p1 p2 :
  ibc_run u h s1 s2 p1 p2 → ibc_delivery (from_keeper error_text gas p1) (from_keeper error_text gas p2).
Proof. intros (ops & r & Hv & Hc & -> & ->). by eexists ops, gas, _. Qed.

Lemma consume_gas_run gas cost f1 f2 :
  (∀ gas, ibc_delivery (f1 gas) (f2 gas)) →
  ibc_delivery (consume_gas error_text s1 gas cost f1) (consume_gas error_text s2 gas cost f2).
Proof.
  intros Hf. unfold consume_gas. destruct (Gas_Consume gas cost) as [gas' [_|e]]; [apply Hf|]. apply delivery_refl.
Qed.

Lemma or_code_run {A} code gas (r1 r2 : result A) f1 f2 :
  r1 = r2 → (∀ a, r1 = Ok a → ibc_delivery (f1 a) (f2 a)) →
  ibc_delivery (or_code error_text code s1 gas r1 f1) (or_code error_text code s2 gas r2 f2).
Proof. intros <- Hf. unfold or_code. destruct r1 as [a|e]; [by apply Hf|]. apply delivery_refl. Qed.

Lemma deliverClientCreate_run gas args authority :
  ibc_delivery (deliverClientCreate error_text s1 gas None args authority)
    (deliverClientCreate error_text s2 gas None args authority).
Proof.
  apply consume_gas_run. intros g. destruct args as [|a0 [|a1 [|a2 [|a3 rest]]]]; try apply delivery_refl.
  case_bool_decide; [apply delivery_refl|]. do 3 (apply or_code_run; [done|]; intros ? _).
  by apply from_keeper_run, SetClient_run.
Qed.

Lemma deliverClientUpdate_run gas args authority :
  ibc_delivery (deliverClientUpdate error_text s1 gas None args authority)
    (deliverClientUpdate error_text s2 gas None args authority).
Proof.
  apply consume_gas_run. intros g. destruct args as [|a0 [|a1 [|a2 [|a3 rest]]]]; try apply delivery_refl.
  case_bool_decide; [apply delivery_refl|]. do 3 (apply or_code_run; [done|]; intros ? _).
  apply or_code_run; [by rewrite (Client_sim s1 s2)|]. intros client _. destruct rest as [|value rest].
  - case_bool_decide; [apply delivery_refl|]. by apply from_keeper_run, UpdateClientWithAuthority_run.
  - apply or_code_run; [done|]. intros proof _. by apply from_keeper_run, UpdateClientWithProof_run.
Qed.

Lemma deliverConnectionOpen_run gas args state :
  ibc_delivery (deliverConnectionOpen error_text s1 gas None args state)
    (deliverConnectionOpen error_text s2 gas None args state).
Proof.
  apply consume_gas_run. intros g. destruct args as [|? [|? [|? [|? ?]]]]; try apply delivery_refl.
  by apply from_keeper_run, SetConnection_run.
Qed.

Lemma deliverConnectionTransition_run gas args expected next :
  ibc_delivery (deliverConnectionTransition error_text s1 gas None args expected next)
    (deliverConnectionTransition error_text s2 gas None args expected next).
Proof.
  apply consume_gas_run. intros g. destruct args as [|? [|? ?]]; try apply delivery_refl.
  by apply from_keeper_run, UpdateConnectionState_run.
Qed.

Lemma deliverChannelOpen_run gas args state :
  ibc_delivery (deliverChannelOpen error_text s1 gas None args state)
    (deliverChannelOpen error_text s2 gas None args state).
Proof.
  apply consume_gas_run. intros g. destruct args as [|? [|? [|? [|? [|? [|? ?]]]]]]; try apply delivery_refl.
  by apply from_keeper_run, SetChannel_run.
Qed.

Lemma deliverChannelTransition_run gas args expected next :
  ibc_delivery (deliverChannelTransition error_text s1 gas None args expected next)
    (deliverChannelTransition error_text s2 gas None args expected next).
Proof.
  apply consume_gas_run. intros g. destruct args as [|? [|? [|? ?]]]; try apply delivery_refl.
  by apply from_keeper_run, UpdateChannelState_run.
Qed.

(** Proofs of other chains are checked against the stored client. *)
Lemma VerifyClientProofAt_sim id height proof :
  VerifyClientProofAt s1 None id height proof = VerifyClientProofAt s2 None id height proof.
Proof. unfold VerifyClientProofAt. by rewrite (Client_sim s1 s2). Qed.

Lemma AcknowledgePacketWithProof_run id p proof ack :
  ibc_run u h s1 s2 (AcknowledgePacketWithProof s1 None h id p proof ack) (AcknowledgePacketWithProof s2 None h id p proof ack).
Proof.
  apply after_run; [|intros _ _; by apply AcknowledgePacket_run].
  unfold VerifyPacketAcknowledgementProofAt, verifiedPacketReceiptProofAt. by rewrite VerifyClientProofAt_sim.
Qed.

Lemma TimeoutPacketWithProof_run id p proof :
  ibc_run u h s1 s2 (TimeoutPacketWithProof s1 None h id p proof) (TimeoutPacketWithProof s2 None h id p proof).
Proof.
  apply after_run; [|intros _ _; by apply TimeoutPacket_run].
  unfold VerifyPacketTimeoutProofAt. by rewrite VerifyClientProofAt_sim.
Qed.

Lemma deliverPacket_run gas action args :
  (u = true → Forall (λ a, sanitize a = a) args) →
  ibc_delivery (deliverPacket error_text s1 gas None h action args) (deliverPacket error_text s2 gas None h action args).
Proof.
  intros Hu. unfold deliverPacket. repeat case_bool_decide; try apply delivery_refl;
    apply consume_gas_run; intros g; (apply or_code_run; [done|]).
  - intros p Hp. apply from_keeper_run, SendPacket_run; [done|by eapply packetFromArgs_ok|].
    intros Hut. by eapply packetFromArgs_clean; [apply Hu|].
  - intros [p ack] _. by apply from_keeper_run, AcknowledgePacket_run.
  - intros [[[p ack] id] proof] _. apply from_keeper_run, AcknowledgePacketWithProof_run.
  - intros p _. by apply from_keeper_run, TimeoutPacket_run.
  - intros [[p id] proof] _. apply from_keeper_run, TimeoutPacketWithProof_run.
Qed.

Lemma deliver_action_run gas action args tags :
  (u = true → Forall (λ a, sanitize a = a) args) →
  ibc_delivery (deliver_action error_text s1 gas None h action args tags)
    (deliver_action error_text s2 gas None h action args tags).
Proof.
  intros Hu. unfold deliver_action, is_action.
  case_bool_decide; [apply deliverClientCreate_run|]. case_bool_decide; [apply deliverClientUpdate_run|].
  do 2 (case_bool_decide; [apply deliverConnectionOpen_run|]).
  do 2 (case_bool_decide; [apply deliverConnectionTransition_run|]).
  do 2 (case_bool_decide; [apply deliverChannelOpen_run|]).
  do 2 (case_bool_decide; [apply deliverChannelTransition_run|]).
  by apply deliverPacket_run.
Qed.
End deliveries.

(** ** Blocks *)

Section blocks.
Context {T1 T2 : Type} `{LawfulSnapshot T1} `{!BatchStore T1} `{LawfulSnapshot T2} `{!BatchStore T2}.

Lemma export_prefix_sim (s1 : T1) (s2 : T2) ns prefix :
  store_sim s1 s2 → valid_namespace ns →
  ∃ e1 e2, store_ExportPrefix (S:=T1) = Some e1 ∧ store_ExportPrefix (S:=T2) = Some e2 ∧
    e1 s1 None ns prefix = e2 s2 None ns prefix.
Proof.
  intros (Hok1 & Hok2 & Hc) Hns.
  destruct (ExportPrefix_listing s1 ns prefix Hok1 Hns) as (e1 & p1 & E1 & R1 & L1).
  destruct (ExportPrefix_listing s2 ns prefix Hok2 Hns) as (e2 & p2 & E2 & R2 & L2).
  exists e1, e2. split; [done|]. split; [done|]. rewrite R1, R2. f_equal.
  apply (listing_unique ns _ _ _ _ L1 L2). intros k. unfold with_prefix. by rewrite (Hc _ k Hns).
Qed.

Lemma timeout_receipts_sim (s1 : T1) (s2 : T2) h pairs :
  store_sim s1 s2 → timeout_receipts s1 None h pairs = timeout_receipts s2 None h pairs.
Proof.
  intros Hs. induction pairs as [|entry pairs IH]; [done|]. cbn [timeout_receipts]. rewrite IH.
  case_bool_decide as Hk; [|done]. cbn [check mbind result_bind]. by rewrite (getJSON_sim s1 s2).
Qed.

Lemma TimeoutReceiptsAt_sim (s1 : T1) (s2 : T2) h :
  store_sim s1 s2 → TimeoutReceiptsAt s1 None h = TimeoutReceiptsAt s2 None h.
Proof.
  intros Hs. unfold TimeoutReceiptsAt.
  destruct (export_prefix_sim s1 s2 IbcNamespace (packetTimeoutHeightPrefix h)) as (e1 & e2 & -> & -> & ->); [done|auto|].
  destruct (check _ _); [|done]. cbn [mbind result_bind]. destruct (e2 s2 None _ _); [|done].
  by apply timeout_receipts_sim.
Qed.

Lemma sweep_receipts_run u h receipts (s1 : T1) (s2 : T2) :
  store_sim s1 s2 → ibc_run u h s1 s2 (sweep_receipts s1 None h receipts) (sweep_receipts s2 None h receipts).
Proof.
  revert s1 s2. induction receipts as [|r receipts IH]; intros s1 s2 Hs; [apply ibc_run_refl|]. cbn [sweep_receipts].
  set (f := λ {T} `{!StateStore T} `{!SnapshotStore T} (s : T) (x : result unit),
    match x with
    | Err e => if negb (errors_is e ErrPacketTimedOut) && negb (errors_is e ErrPacketAcked) then (s, Err e)
               else sweep_receipts s None h receipts
    | Ok _ => sweep_receipts s None h receipts
    end).
  pose proof (ibc_run_trans u h s1 s2 _ _ (f T1 _ _) (f T2 _ _) Hs (TimeoutPacket_run u h s1 s2 Hs (PR_Packet r))) as HT.
  destruct (TimeoutPacket s1 None h (PR_Packet r)) as [s1' r1]. destruct (TimeoutPacket s2 None h (PR_Packet r)) as [s2' r2].
  cbn [fst snd] in HT. unfold f in HT. destruct r1, r2; apply HT; (intros t1 t2 [x|x] Ht; [by apply IH|]);
    cbv beta iota; (destruct (negb (errors_is x _) && _); [apply ibc_run_refl|by apply IH]).
Qed.

Lemma sweepExpiredPackets_run u h (s1 : T1) (s2 : T2) :
  store_sim s1 s2 → ibc_run u h s1 s2 (sweepExpiredPackets s1 None h) (sweepExpiredPackets s2 None h).
Proof.
  intros Hs. apply after_run; [by apply TimeoutReceiptsAt_sim|]. intros receipts _. by apply sweep_receipts_run.
Qed.

Lemma begin_run u h height (s1 : T1) (s2 : T2) :
  store_sim s1 s2 →
  ibc_run u h s1 s2 (store_Set s1 None IbcNamespace latestBeginHeightKey (bytes_of_string (format_uint height)))
    (store_Set s2 None IbcNamespace latestBeginHeightKey (bytes_of_string (format_uint height))).
Proof.
  intros (Hok1 & Hok2 & _). rewrite !store_Set_op by auto.
  exists [OpSet IbcNamespace latestBeginHeightKey (bytes_of_string (format_uint height))], (Ok tt).
  split; [by apply Forall_singleton, Forall_singleton|]. split; [|done].
  split; [by apply change_record|done].
Qed.

Lemma ibc_run_alike u h (s1 : T1) (s2 : T2) p1 p2 :
  ibc_run u h s1 s2 p1 p2 → ∃ s1' s2' r, p1 = (s1', r) ∧ p2 = (s2', r) ∧ alike s1 s2 (Some s1') (Some s2').
Proof. intros (ops & r & Hv & _ & -> & ->). eexists _, _, _. split; [done|]. split; [done|]. by exists ops. Qed.
End blocks.

#[global] Program Instance ibc_lawful (error_text : error → string) (order : MapOrder string bytes)
    : LawfulModule (ModuleOps0 := ibc_ops error_text order) IbcModule := {| mod_ok _ := True |}.
Next Obligation. intros. apply ibc_valid. Qed.
Next Obligation.
  intros error_text order T1 ?????? T2 ?????? module actx s1 s2 header _ Hctx Hs.
  cbn [mod_BeginBlock ibc_ops]. rewrite Hctx. unfold Ibc_BeginBlock.
  set (height := if bool_decide (Header_Height header = 0) then actx_Height actx else Header_Height header).
  destruct (bool_decide (height = 0)); [unchanged|].
  destruct (ibc_run_alike false 0 s1 s2 _ _ (begin_run false 0 height s1 s2 Hs)) as (s1' & s2' & r & -> & -> & Ha).
  by eexists _, _, _, _.
Qed.
Next Obligation.
  intros error_text order T1 ?????? T2 ?????? module actx s1 s2 gas tx _ Hctx Hs.
  cbn [mod_DeliverTx ibc_ops]. rewrite Hctx. unfold Ibc_DeliverTx.
  destruct (ParseCanonicalTx tx) as [canonical|e]; [|unchanged]. case_bool_decide; [|unchanged].
  destruct (deliver_action_run error_text false (actx_Height actx) s1 s2 Hs gas (CTx_Action canonical) (CTx_Args canonical)
    (CTx_Tags canonical)) as (ops & gas' & r & Hv & _ & -> & ->); [done|].
  eexists _, _, _, _, _. split; [done|]. split; [done|]. split; [done|]. by exists ops.
Qed.
Next Obligation.
  intros error_text order T1 ?????? T2 ?????? module actx s1 s2 _ Hctx Hs.
  cbn [mod_EndBlock ibc_ops]. rewrite Hctx. unfold Ibc_EndBlock. case_bool_decide; [unchanged|].
  destruct (ibc_run_alike false _ s1 s2 _ _ (sweepExpiredPackets_run false (actx_Height actx) s1 s2 Hs))
    as (s1' & s2' & r & -> & -> & Ha). by eexists _, _, _, _.
Qed.
Next Obligation. done. Qed.
Next Obligation. done. Qed.
