(* ===== verification/IbcPackets.v ===== *)
(** * The life of a packet ([src/ibc/ibc.go], [src/modules/ibc/ibc.go])

    Whatever transactions and blocks the inter-chain module runs, the packets of
    a channel are numbered without gaps, a packet that was sent stays on record,
    and it is acknowledged or timed out at most once and never both.  The sweep
    at the end of a block settles every packet whose height has come. *)

From S2P Require Import Prelude GoLib Sha256 Merkle Types Strconv TxTags Text Json JsonPrint JsonCodec Economics Address.
From S2P Require Import CanonicalTx FairOrdering Validator SignBytes StateProof ProofJson Store Staged Bank Ante Events App.
From S2P Require Import BlockExecution Evidence Slashing Staking StakingStore StakingLedger Utf8 Ibc IbcModule IbcLaws IbcRun.

(** ** Keys *)

(** The packets of a channel are kept under its port and name. *)
Definition channel_path (portID channelID : string) : string := (portID ++ "/" ++ channelID)%string.
Definition packet_path (p : Packet) : string := channel_path (Packet_SourcePort p) (Packet_SourceChannel p).

Definition packet_key (path : string) (n : Z) : bytes :=
  bytes_of_string ("packets/" ++ path ++ "/" ++ format_uint n).
Definition counter_key (path : string) : bytes := bytes_of_string ("next-sequence/" ++ path).


Lemma packetCommitmentKey_eq p : packetCommitmentKey p = packet_key (packet_path p) (Packet_Sequence p).
Proof.
  unfold packetCommitmentKey, packet_key, packet_path, channel_path. by rewrite !string_app_assoc.
Qed.

Lemma packet_key_nat path n : ∃ m, 0 ≤ m ∧ packet_key path n = packet_key path m.
Proof. exists (Z.of_N (Z.to_N n)). split; [lia|]. unfold packet_key, format_uint. by rewrite N2Z.id. Qed.

Lemma nextSequenceKey_eq portID channelID : nextSequenceKey portID channelID = counter_key (channel_path portID channelID).
Proof. done. Qed.

Lemma packet_key_inj path path' n n' :
  0 ≤ n → 0 ≤ n' → packet_key path n = packet_key path' n' → path = path' ∧ n = n'.
Proof.
  intros Hn Hn' Hk. apply (inj bytes_of_string), string_app_inj, last_slash_inj in Hk as [-> Hf];
    [|apply format_uint_no_slash..]. by apply format_uint_inj in Hf.
Qed.

Lemma counter_key_inj path path' : counter_key path = counter_key path' → path = path'.
Proof. intros Hk. by apply (inj bytes_of_string), string_app_inj in Hk. Qed.

(** The kinds of keys. *)
Inductive key_kind := KRecord | KPacket | KCounter | KIndex | KOther.
#[global] Instance key_kind_eq_dec : EqDecision key_kind.
Proof. solve_decision. Defined.

Definition kind_of (k : bytes) : key_kind :=
  let s := string_of_bytes k in
  if record_key k then KRecord
  else if has_prefix s "packets/" then KPacket
  else if has_prefix s "next-sequence/" then KCounter
  else if has_prefix s "packet-timeouts/" then KIndex
  else KOther.

Lemma kind_record k : record_key k = true → kind_of k = KRecord.
Proof. unfold kind_of. by intros ->. Qed.

Lemma kind_packet path n : kind_of (packet_key path n) = KPacket.
Proof. unfold kind_of, record_key, packet_key. rewrite string_of_bytes_of_string. by destruct path. Qed.

Lemma kind_counter path : kind_of (counter_key path) = KCounter.
Proof. unfold kind_of, record_key, counter_key. rewrite string_of_bytes_of_string. by destruct path. Qed.

Lemma kind_index p : kind_of (packetTimeoutIndexKey p) = KIndex.
Proof.
  unfold packetTimeoutIndexKey, packetTimeoutHeightPrefix, packetCommitmentKey. rewrite <-bytes_of_string_app.
  unfold kind_of, record_key. rewrite string_of_bytes_of_string, !string_app_assoc. by destruct (pad20 _).
Qed.

(** ** The record of packets *)

(** The number after the last packet of a channel, zero when all are used. *)
Definition counter (v : View) (path : string) : Z :=
  match v (counter_key path) with None => 1 | Some b => default 0 (parse_uint (string_of_bytes b)) end.

Definition sent (v : View) (path : string) (n : Z) : Prop :=
  1 ≤ n < (if bool_decide (counter v path = 0) then two64 else counter v path).

(** A receipt under the number [n]. *)
Definition receipt_fits (n : Z) (r : PacketReceipt) : Prop :=
  packet_receipt_ok r ∧ clean_record r = r ∧ Packet_Sequence (PR_Packet r) = n ∧
  ¬ (PR_Acknowledged r = true ∧ PR_TimedOut r = true).

(** Packets are numbered from one without gaps, and each has one receipt. *)
Record packets_ok (v : View) : Prop := {
  packets_counter path b :
    v (counter_key path) = Some b → ∃ n, is_u64 n ∧ b = bytes_of_string (format_uint n);
  packets_numbered path n : 0 ≤ n → is_Some (v (packet_key path n)) ↔ sent v path n;
  packets_receipt path n b :
    0 ≤ n → v (packet_key path n) = Some b → ∃ r, unmarshal_json b = Ok r ∧ receipt_fits n r
}.

(** What was sent stays as it was sent, and what was settled stays settled. *)
Definition evolves (v v' : View) : Prop :=
  ∀ path n r, 0 ≤ n → stored v (packet_key path n) = Some r →
    ∃ r', stored v' (packet_key path n) = Some r' ∧ PR_Packet r' = PR_Packet r ∧
      PR_CommitHeight r' = PR_CommitHeight r ∧ (¬ pending_receipt r → r' = r).

#[global] Instance evolves_preorder : PreOrder evolves.
Proof.
  split.
  - intros v path n r _ Hr. by exists r.
  - intros v1 v2 v3 H12 H23 path n r Hn Hr. destruct (H12 path n r Hn Hr) as (r2 & Hr2 & Hp2 & Hc2 & Hs2).
    destruct (H23 path n r2 Hn Hr2) as (r3 & Hr3 & Hp3 & Hc3 & Hs3). exists r3.
    split_and!; [done|congruence|congruence|]. intros Hnp. rewrite <-(Hs2 Hnp). apply Hs3. by rewrite (Hs2 Hnp).
Qed.

Lemma counter_u64 v path : packets_ok v → is_u64 (counter v path).
Proof.
  intros Hv. unfold counter. destruct (v (counter_key path)) as [b|] eqn:E; [|done].
  destruct (packets_counter v Hv path b E) as (n & Hn & ->). rewrite string_of_bytes_of_string.
  by rewrite parse_uint_format.
Qed.

Lemma counter_same (v v' : View) path : v' (counter_key path) = v (counter_key path) → counter v' path = counter v path.
Proof. unfold counter. by intros ->. Qed.

Lemma next_of_counter v portID channelID n :
  next_of v portID channelID = Some n → n ≠ 0 ∧ counter v (channel_path portID channelID) = n.
Proof.
  unfold next_of, counter. rewrite nextSequenceKey_eq. destruct (v _) as [b|]; [|by intros [= <-]].
  destruct (parse_uint _) as [m|]; [|done]. cbn. case_bool_decide; [done|]. by intros [= <-].
Qed.

(** Changes of other keys. *)
Lemma packets_same (v v' : View) :
  (∀ k, kind_of k = KPacket ∨ kind_of k = KCounter → v' k = v k) → packets_ok v → packets_ok v' ∧ evolves v v'.
Proof.
  intros Hk Hv.
  assert (∀ path n, v' (packet_key path n) = v (packet_key path n)) as Hp by (intros; apply Hk; left; apply kind_packet).
  assert (∀ path, v' (counter_key path) = v (counter_key path)) as Hc by (intros; apply Hk; right; apply kind_counter).
  split.
  - split; intros path.
    + intros b. rewrite Hc. by apply packets_counter.
    + intros n Hn. unfold sent. rewrite Hp, (counter_same v v') by done. by apply packets_numbered.
    + intros n b Hn. rewrite Hp. by apply packets_receipt.
  - intros path n r Hn Hr. exists r. split_and!; [|done..]. unfold stored in *. by rewrite Hp.
Qed.

(** ** Each change keeps the record *)

Definition view_set (k : bytes) (o : option bytes) (v : View) : View := λ k', if decide (k = k') then o else v k'.

Lemma view_after_cons k b (d : bool) ws v k' :
  view_after (mkWrite IbcNamespace k b d :: ws) v k' =
  view_after ws (view_set k (if d then None else Some b) v) k'.
Proof.
  unfold view_after, writes_content. cbn [foldl]. apply writes_content_ext. unfold write_content, view_set. cbn.
  destruct (decide (k = k')), (decide (IbcNamespace = IbcNamespace ∧ k = k')); naive_solver.
Qed.

Lemma view_set_eq k o v : view_set k o v k = o.
Proof. unfold view_set. by rewrite decide_True. Qed.
Lemma view_set_ne k o v k' : k ≠ k' → view_set k o v k' = v k'.
Proof. intros Hk. unfold view_set. by rewrite decide_False. Qed.
Lemma view_set_kind k o v k' : kind_of k ≠ kind_of k' → view_set k o v k' = v k'.
Proof. intros Hk. apply view_set_ne. congruence. Qed.

(** What sending changes among packets and counters. *)
Lemma send_view h p v k :
  kind_of k ≠ KIndex →
  view_after (send_batch h p) v k =
  view_set (counter_key (packet_path p)) (Some (bytes_of_string (format_uint (wrap64 (Packet_Sequence p + 1)))))
    (view_set (packetCommitmentKey p) (Some (marshal_json (mkPacketReceipt p h false [] 0 false 0))) v) k.
Proof.
  intros Hk. unfold send_batch. cbn [app]. rewrite !view_after_cons. case_bool_decide; [|done].
  rewrite view_after_cons. apply view_set_kind. rewrite kind_index. congruence.
Qed.

Lemma settle_view k r (indexed : bool) v k' :
  kind_of k' ≠ KIndex →
  view_after (settle_batch k r indexed) v k' = view_set k (Some (marshal_json r)) v k'.
Proof.
  intros Hk. unfold settle_batch. rewrite view_after_cons. destruct indexed; [|done].
  rewrite view_after_cons. apply view_set_kind. rewrite kind_index. congruence.
Qed.

Lemma packet_set_packet path n path' n' o v :
  0 ≤ n → 0 ≤ n' →
  view_set (packet_key path n) o v (packet_key path' n') =
  if decide (path = path' ∧ n = n') then o else v (packet_key path' n').
Proof.
  intros Hn Hn'. destruct (decide (path = path' ∧ n = n')) as [[-> ->]|Hne]; [apply view_set_eq|].
  apply view_set_ne. intros Hk. by apply packet_key_inj in Hk.
Qed.

(** A receipt the keeper stores is read back. *)
Lemma receipt_read_back n r :
  packet_receipt_ok r → Packet_Sequence (PR_Packet r) = n → ¬ (PR_Acknowledged r = true ∧ PR_TimedOut r = true) →
  unmarshal_json (marshal_json r) = Ok (clean_record r) ∧ receipt_fits n (clean_record r).
Proof.
  intros Hr Hn Hs. split; [by apply unmarshal_marshal_json|]. split; [done|]. split; [|done].
  destruct r as [[? ? ? ? ? ? ?] ? ? ? ? ? ?]. unfold clean_record, packet_receipt_lawful, packet_lawful. cbn.
  by rewrite !sanitize_idem.
Qed.

(** The numbers below the next one. *)
Lemma next_bound n n' :
  is_u64 n → n ≠ 0 →
  1 ≤ n' < (if bool_decide (wrap64 (n + 1) = 0) then two64 else wrap64 (n + 1)) ↔ 1 ≤ n' < n ∨ n' = n.
Proof.
  unfold is_u64, wrap64, two64. intros Hn H0. destruct (decide (n = 18446744073709551615)) as [->|Hm].
  - rewrite bool_decide_eq_true_2 by done. lia.
  - rewrite Z.mod_small by lia. rewrite bool_decide_eq_false_2 by lia. lia.
Qed.

Section changes.
Context (u : bool) (h : Height) (v : View) (Hh : is_u64 h) (Hv : packets_ok v).

Lemma send_fresh p n :
  packet_ok p → next_of v (Packet_SourcePort p) (Packet_SourceChannel p) = Some n →
  n ≠ 0 ∧ is_u64 n ∧ counter v (packet_path p) = n.
Proof.
  intros Hp [Hn Hc]%next_of_counter. split; [done|]. split; [|done]. rewrite <-Hc. by apply counter_u64.
Qed.

Lemma send_keeps p :
  packet_ok p → v (packetCommitmentKey p) = None →
  next_of v (Packet_SourcePort p) (Packet_SourceChannel p) = Some (Packet_Sequence p) →
  packets_ok (view_after (send_batch h p) v) ∧ evolves v (view_after (send_batch h p) v).
Proof.
  intros Hp Hfresh Hnext. destruct (send_fresh p _ Hp Hnext) as (Hn0 & Hn & Hc).
  rewrite packetCommitmentKey_eq in Hfresh. set (n := Packet_Sequence p) in *. set (path := packet_path p) in *.
  set (r := mkPacketReceipt p h false [] 0 false 0).
  destruct (receipt_read_back n r) as [Hread Hfits]; [by split_and!|done|by intros [? _]|].
  assert (∀ path' n', 0 ≤ n' → view_after (send_batch h p) v (packet_key path' n') =
    if decide (path = path' ∧ n = n') then Some (marshal_json r) else v (packet_key path' n')) as Hpk.
  { intros path' n' Hn'. rewrite send_view by (by rewrite kind_packet).
    rewrite view_set_kind by (by rewrite kind_packet, kind_counter). rewrite packetCommitmentKey_eq.
    apply packet_set_packet; [apply Hn|done]. }
  assert (∀ path', view_after (send_batch h p) v (counter_key path') =
    if decide (path = path') then Some (bytes_of_string (format_uint (wrap64 (n + 1)))) else v (counter_key path')) as Hck.
  { intros path'. rewrite send_view by (by rewrite kind_counter). fold path. destruct (decide (path = path')) as [->|Hne].
    - apply view_set_eq.
    - rewrite view_set_ne by (intros Hk; by apply counter_key_inj in Hk). apply view_set_kind.
      by rewrite packetCommitmentKey_eq, kind_packet, kind_counter. }
  split.
  - split.
    + intros path' b. rewrite Hck. destruct (decide (path = path')); [|by apply packets_counter].
      intros [= <-]. exists (wrap64 (n + 1)). split; [apply wrap64_u64|done].
    + intros path' n' Hn'. rewrite Hpk by done. unfold sent. destruct (decide (path = path')) as [<-|Hne].
      * assert (counter (view_after (send_batch h p) v) path = wrap64 (n + 1)) as ->.
        { unfold counter. rewrite Hck, decide_True by done. rewrite string_of_bytes_of_string.
          by rewrite parse_uint_format by apply wrap64_u64. }
        rewrite next_bound by done. pose proof (packets_numbered v Hv path n' Hn') as Hold. unfold sent in Hold.
        rewrite Hc, bool_decide_eq_false_2 in Hold by done. destruct (decide _) as [[_ <-]|Hd].
        -- split; [by right|done].
        -- rewrite Hold. split; [by left|]. intros [?| ->]; [done|]. by destruct Hd.
      * rewrite decide_False by (by intros [? _]). rewrite (counter_same v) by (by rewrite Hck, decide_False).
        by apply packets_numbered.
    + intros path' n' b Hn'. rewrite Hpk by done. destruct (decide _) as [[_ <-]|_]; [|by apply packets_receipt].
      intros [= <-]. by exists (clean_record r).
  - intros path' n' r' Hn' Hr'. exists r'. split_and!; [|done..]. unfold stored in *. rewrite Hpk by done.
    destruct (decide _) as [[<- <-]|_]; [|done]. by rewrite Hfresh in Hr'.
Qed.

(** A settled receipt differs from the pending one in its outcome only. *)
Lemma settled_receipt n r r' :
  receipt_fits n r → pending_receipt r → r' = receipt_expired h r ∨ (∃ ack, ack ≠ [] ∧ r' = receipt_acked h ack r) →
  PR_Packet r' = PR_Packet r ∧ PR_CommitHeight r' = PR_CommitHeight r ∧
  unmarshal_json (marshal_json r') = Ok r' ∧ receipt_fits n r'.
Proof.
  intros ((Hpk & Hch & Hah & Hta) & Hclean & Hseq & _) [Ha Ht] Hset.
  assert (clean_record (PR_Packet r) = PR_Packet r) as Hcp by exact (f_equal PR_Packet Hclean).
  assert (packet_receipt_ok r' ∧ clean_record r' = r' ∧ PR_Packet r' = PR_Packet r ∧
    PR_CommitHeight r' = PR_CommitHeight r ∧ ¬ (PR_Acknowledged r' = true ∧ PR_TimedOut r' = true))
    as (Hok & Hcl & Hp & Hc & Hone).
  { destruct Hset as [->|(ack & _ & ->)]; unfold receipt_expired, receipt_acked, packet_receipt_ok;
      cbn [clean_record packet_receipt_lawful PR_Packet PR_CommitHeight PR_Acknowledged PR_Ack PR_AckHeight
        PR_TimedOut PR_TimeoutAt]; rewrite Hcp, ?Ha, ?Ht; split_and!; try done; by intros []. }
  destruct (receipt_read_back n r' Hok) as [Hread Hfits]; [by rewrite Hp|done|]. by rewrite Hcl in *.
Qed.

Lemma settle_keeps p r r' indexed :
  stored v (packetCommitmentKey p) = Some r → pending_receipt r →
  r' = receipt_expired h r ∨ (∃ ack, ack ≠ [] ∧ r' = receipt_acked h ack r) →
  packets_ok (view_after (settle_batch (packetCommitmentKey p) r' indexed) v) ∧
  evolves v (view_after (settle_batch (packetCommitmentKey p) r' indexed) v).
Proof.
  intros Hr Hpend Hset. rewrite packetCommitmentKey_eq in *.
  destruct (packet_key_nat (packet_path p) (Packet_Sequence p)) as (n & Hn & Hk). rewrite Hk in *. clear Hk.
  set (path := packet_path p) in *. unfold stored in Hr. destruct (v (packet_key path n)) as [b|] eqn:Eb; [|done].
  destruct (packets_receipt v Hv path n b Hn Eb) as (r0 & Hb & Hfits0).
  cbn [mbind option_bind] in Hr. rewrite Hb in Hr. injection Hr as ->.
  destruct (settled_receipt n r r') as (Hp' & Hc' & Hread & Hfits); [done|done|done|].
  set (v' := view_after _ v).
  assert (∀ path' n', 0 ≤ n' → v' (packet_key path' n') =
    if decide (path = path' ∧ n = n') then Some (marshal_json r') else v (packet_key path' n')) as Hpk.
  { intros path' n' Hn'. unfold v'. rewrite settle_view by (by rewrite kind_packet). by apply packet_set_packet. }
  assert (∀ path', v' (counter_key path') = v (counter_key path')) as Hck.
  { intros path'. unfold v'. rewrite settle_view by (by rewrite kind_counter).
    apply view_set_kind. by rewrite kind_packet, kind_counter. }
  split.
  - split; intros path'.
    + intros b'. rewrite Hck. by apply packets_counter.
    + intros n' Hn'. rewrite Hpk by done. unfold sent. rewrite (counter_same v v') by done.
      destruct (decide _) as [[<- <-]|_]; [|by apply packets_numbered].
      split; [intros _; by apply packets_numbered; [..|exists b]|done].
    + intros n' b' Hn'. rewrite Hpk by done. destruct (decide _) as [[_ <-]|_]; [|by apply packets_receipt].
      intros [= <-]. by exists r'.
  - intros path' n' x Hn' Hx. unfold stored in *. rewrite Hpk by done. destruct (decide _) as [[<- <-]|_].
    + rewrite Eb in Hx. cbn [mbind option_bind] in Hx |- *. rewrite Hb in Hx. injection Hx as <-. exists r'. rewrite Hread.
      by split_and!.
    + by exists x.
Qed.

Lemma change_keeps ws :
  ibc_change u h v ws → packets_ok (view_after ws v) ∧ evolves v (view_after ws v).
Proof.
  destruct 1 as [k b Hk|p Hp _ _ Hn Hs|p r r' indexed Hr Hpend Hset _].
  - apply packets_same; [|done]. intros k' Hk'. rewrite view_after_cons. apply view_set_kind.
    rewrite (kind_record k Hk). by destruct Hk' as [-> | ->].
  - by apply send_keeps.
  - by eapply settle_keeps.
Qed.
End changes.

Lemma changes_keep u h v ops :
  is_u64 h → packets_ok v → ibc_changes u h v ops →
  packets_ok (view_after (ops ≫= op_writes) v) ∧ evolves v (view_after (ops ≫= op_writes) v).
Proof.
  intros Hh. revert v. induction ops as [|op ops IH]; intros v Hv; cbn [ibc_changes mbind list_bind]; [done|].
  intros [H1 H2]. destruct (change_keeps u h v Hh Hv _ H1) as [Hv1 He1]. destruct (IH _ Hv1 H2) as [Hv2 He2].
  pose proof (view_after_app (op_writes op) (ops ≫= op_writes) v) as Happ.
  split.
  - eapply packets_same; [|exact Hv2]. intros k _. apply Happ.
  - etrans; [exact He1|]. etrans; [exact He2|]. eapply packets_same; [|exact Hv2]. intros k _. apply Happ.
Qed.

(** ** The timeout index *)

Definition index_key (t : Z) (path : string) (n : Z) : bytes := packetTimeoutHeightPrefix t ++ packet_key path n.

Lemma packetTimeoutIndexKey_eq p :
  packetTimeoutIndexKey p = index_key (Packet_TimeoutHeight p) (packet_path p) (Packet_Sequence p).
Proof. unfold packetTimeoutIndexKey, index_key. by rewrite packetCommitmentKey_eq. Qed.

Lemma kind_index_key t path n : kind_of (index_key t path n) = KIndex.
Proof.
  unfold index_key, packetTimeoutHeightPrefix, packet_key. rewrite <-bytes_of_string_app.
  unfold kind_of, record_key. rewrite string_of_bytes_of_string, !string_app_assoc. by destruct (pad20 _).
Qed.

Lemma parse_zeros m s : parse_digits 0 (str_repeat "0" m ++ s) = parse_digits 0 s.
Proof. induction m as [|m IH]; [done|]. exact IH. Qed.

Lemma pad20_inj t t' : is_u64 t → is_u64 t' → pad20 t = pad20 t' → t = t'.
Proof.
  intros Ht Ht' Heq. apply (f_equal (parse_digits 0)) in Heq. unfold pad20 in Heq. rewrite !parse_zeros in Heq.
  pose proof (parse_uint_format t Ht) as H1. pose proof (parse_uint_format t' Ht') as H2. unfold parse_uint in *.
  destruct (format_uint t); [done|]. destruct (format_uint t'); [done|]. congruence.
Qed.

Lemma pad20_no_slash t : str_elem "/" (pad20 t) = false.
Proof.
  unfold pad20. rewrite str_elem_app, format_uint_no_slash, orb_false_r.
  by induction (20 - String.length (format_uint t))%nat.
Qed.

Lemma no_slash_inj (s s' t t' : string) :
  str_elem "/" s = false → str_elem "/" s' = false → (s ++ String "/" t = s' ++ String "/" t')%string → s = s' ∧ t = t'.
Proof.
  revert s'. induction s as [|a s IH]; intros [|b s'] Hs Hs'.
  - by intros [= ->].
  - rewrite string_cons_app. intros [= <- _]. done.
  - rewrite string_cons_app. intros [= -> _]. done.
  - rewrite !string_cons_app. cbn [str_elem] in Hs, Hs'. apply orb_false_iff in Hs as [_ Hs], Hs' as [_ Hs'].
    intros [= -> Heq]. by destruct (IH s' Hs Hs' Heq) as [-> ->].
Qed.

Lemma index_key_inj t path n t' path' n' :
  is_u64 t → is_u64 t' → 0 ≤ n → 0 ≤ n' → index_key t path n = index_key t' path' n' → t = t' ∧ path = path' ∧ n = n'.
Proof.
  intros Ht Ht' Hn Hn'. unfold index_key, packetTimeoutHeightPrefix, packet_key. rewrite <-!bytes_of_string_app.
  intros Hk%(inj bytes_of_string). rewrite !string_app_assoc in Hk. apply string_app_inj in Hk.
  change ("/" ++ ?x)%string with (String "/" x) in Hk at 1 3.
  apply no_slash_inj in Hk as [Hp Hk]; [|apply pad20_no_slash..]. apply pad20_inj in Hp; [|done..].
  split; [done|]. apply packet_key_inj; [done..|]. unfold packet_key. by rewrite Hk.
Qed.

(** The packet of an entry of the index. *)
Lemma after_separator_skip d s : str_elem "/" d = false → after_separator (d ++ s) = after_separator s.
Proof.
  induction d as [|a d IH]; intros Hd; [done|]. cbn [str_elem] in Hd.
  apply orb_false_iff in Hd as [Ha%bool_decide_eq_false Hd]. rewrite string_cons_app. cbn [after_separator].
  replace (has_prefix _ _) with false; [by apply IH|]. unfold has_prefix. cbn [String.prefix].
  by destruct (ascii_dec "/" a).
Qed.

Lemma after_separator_index d s :
  str_elem "/" d = false → has_prefix d "p" = false →
  after_separator ("packet-timeouts/" ++ d ++ "/packets/" ++ s) = Some ("packets/" ++ s)%string.
Proof.
  intros Hd Hp. change ("packet-timeouts/" ++ ?x)%string with ("packet-timeouts" ++ String "/" x)%string.
  rewrite after_separator_skip by done. cbn [after_separator]. replace (has_prefix _ _) with false.
  - rewrite after_separator_skip by done. by destruct s.
  - destruct d as [|a d]; [done|]. rewrite string_cons_app. unfold has_prefix in *. cbn [String.prefix] in *.
    destruct (ascii_dec "/" "/"); [|done]. destruct (ascii_dec "p" a); [by destruct d|done].
Qed.

Lemma pad20_no_p t : is_u64 t → has_prefix (pad20 t) "p" = false.
Proof.
  intros Ht. unfold pad20. destruct (20 - String.length (format_uint t))%nat; [|done].
  destruct (format_uint_digits t Ht) as (a & d & -> & Hd & _). cbn [str_forall] in Hd.
  apply andb_true_iff in Hd as [Hd _]. unfold has_prefix. change (str_repeat "0" 0 ++ ?x)%string with x. cbn [String.prefix].
  destruct (ascii_dec "p" a) as [<-|]; [done|done].
Qed.

Lemma index_packet_key t path n : is_u64 t → packetTimeoutIndexPacketKey (index_key t path n) = packet_key path n.
Proof.
  intros Ht. unfold packetTimeoutIndexPacketKey, index_key, packetTimeoutHeightPrefix, packet_key.
  rewrite <-bytes_of_string_app, string_of_bytes_of_string, !string_app_assoc.
  change ("/" ++ "packets/" ++ ?x)%string with ("/packets/" ++ x)%string.
  rewrite after_separator_index; [done|apply pad20_no_slash|by apply pad20_no_p].
Qed.

(** Receipts are under the names of their packets, and every pending packet
    with a timeout is in the index. *)
Record book_ok (v : View) : Prop := {
  book_packets : packets_ok v;
  book_named path n r : 0 ≤ n → stored v (packet_key path n) = Some r → packet_path (PR_Packet r) = path;
  book_indexed path n r :
    0 ≤ n → stored v (packet_key path n) = Some r → pending_receipt r → 0 < Packet_TimeoutHeight (PR_Packet r) →
    is_Some (v (index_key (Packet_TimeoutHeight (PR_Packet r)) path n))
}.

Lemma stored_fits v path n r : packets_ok v → 0 ≤ n → stored v (packet_key path n) = Some r → receipt_fits n r.
Proof.
  intros Hv Hn. unfold stored. destruct (v (packet_key path n)) as [b|] eqn:E; [|done].
  destruct (packets_receipt v Hv path n b Hn E) as (r' & Hb & Hf). cbn [mbind option_bind]. rewrite Hb. by intros [= <-].
Qed.

Lemma book_same (v v' : View) : (∀ k, kind_of k ≠ KRecord → v' k = v k) → book_ok v → book_ok v'.
Proof.
  intros Hk [Hv Hn Hi].
  assert (∀ path n, v' (packet_key path n) = v (packet_key path n)) as Hp by (intros; apply Hk; by rewrite kind_packet).
  split.
  - eapply packets_same; [|exact Hv]. intros k [Hkk|Hkk]; apply Hk; by rewrite Hkk.
  - intros path n r. unfold stored. rewrite Hp. apply Hn.
  - intros path n r. unfold stored. rewrite Hp. rewrite (Hk (index_key _ _ _)) by (by rewrite kind_index_key). apply Hi.
Qed.

Section book.
Context (h : Height) (v : View) (Hh : is_u64 h) (Hb : book_ok v).

Lemma send_index p t path n :
  is_Some (v (index_key t path n)) → is_Some (view_after (send_batch h p) v (index_key t path n)).
Proof.
  intros Hi. unfold send_batch. cbn [app]. rewrite !view_after_cons. set (v2 := view_set _ _ (view_set _ _ v)).
  assert (is_Some (v2 (index_key t path n))) as Hi2.
  { unfold v2. rewrite !view_set_kind; [done|..]; rewrite kind_index_key, ?packetCommitmentKey_eq, ?kind_packet;
      rewrite ?nextSequenceKey_eq, ?kind_counter; done. }
  case_bool_decide; [|done]. rewrite view_after_cons. unfold view_after, writes_content, view_set. cbn [foldl].
  by destruct (decide _).
Qed.

Lemma send_own_index p :
  0 < Packet_TimeoutHeight p →
  is_Some (view_after (send_batch h p) v (index_key (Packet_TimeoutHeight p) (packet_path p) (Packet_Sequence p))).
Proof.
  intros Ht. unfold send_batch. cbn [app]. rewrite !view_after_cons, bool_decide_eq_true_2 by done.
  rewrite view_after_cons, packetTimeoutIndexKey_eq. unfold view_after, writes_content, view_set. cbn [foldl].
  by rewrite decide_True.
Qed.

Lemma send_book p :
  packet_ok p → clean_names p → v (packetCommitmentKey p) = None →
  next_of v (Packet_SourcePort p) (Packet_SourceChannel p) = Some (Packet_Sequence p) →
  book_ok (view_after (send_batch h p) v).
Proof.
  intros Hp [Hport Hchan] Hfresh Hnext. destruct Hb as [Hv Hn Hi].
  destruct (send_fresh v Hv p _ Hp Hnext) as (_ & Hseq & _).
  destruct (receipt_read_back (Packet_Sequence p) (mkPacketReceipt p h false [] 0 false 0)) as [Hread _];
    [by split_and!|done|by intros [? _]|].
  assert (∀ path n r, 0 ≤ n → stored (view_after (send_batch h p) v) (packet_key path n) = Some r →
    path = packet_path p ∧ n = Packet_Sequence p ∧ PR_Packet r = clean_record p ∨ stored v (packet_key path n) = Some r) as Hst.
  { intros path n r Hn'. unfold stored. rewrite send_view by (by rewrite kind_packet).
    rewrite view_set_kind by (by rewrite kind_packet, kind_counter). rewrite packetCommitmentKey_eq.
    rewrite packet_set_packet by (done || apply Hseq). destruct (decide _) as [[<- <-]|_]; [|by right].
    cbn [mbind option_bind]. rewrite Hread. intros [= <-]. by left. }
  assert (packet_path (clean_record p) = packet_path p) as Hpath.
  { unfold packet_path. cbn [clean_record packet_lawful Packet_SourcePort Packet_SourceChannel]. by rewrite Hport, Hchan. }
  split.
  - by apply (send_keeps h v Hh Hv).
  - intros path n r Hn' Hr. destruct (Hst path n r Hn' Hr) as [(-> & -> & ->)|Hr']; [done|by eapply Hn].
  - intros path n r Hn' Hr Hpend Ht. destruct (Hst path n r Hn' Hr) as [(-> & -> & Epk)|Hr'].
    + rewrite Epk in *. exact (send_own_index p Ht).
    + by apply send_index, Hi.
Qed.

Lemma settle_book p r r' indexed :
  stored v (packetCommitmentKey p) = Some r → pending_receipt r →
  r' = receipt_expired h r ∨ (∃ ack, ack ≠ [] ∧ r' = receipt_acked h ack r) →
  book_ok (view_after (settle_batch (packetCommitmentKey p) r' indexed) v).
Proof.
  intros Hr Hpend Hset. destruct Hb as [Hv Hn Hi].
  destruct (settle_keeps h v Hh Hv p r r' indexed Hr Hpend Hset) as [Hv' _].
  rewrite packetCommitmentKey_eq in *. destruct (packet_key_nat (packet_path p) (Packet_Sequence p)) as (m & Hm & Hk).
  rewrite Hk in *. clear Hk. set (path0 := packet_path p) in *.
  pose proof (stored_fits v path0 m r Hv Hm Hr) as Hfits.
  destruct (settled_receipt h Hh m r r' Hfits Hpend Hset) as (Hp' & _ & Hread & _).
  pose proof (Hn path0 m r Hm Hr) as Hpath.
  assert (¬ pending_receipt r') as Hdone by (destruct Hset as [->|(ack & _ & ->)]; by intros []).
  set (v' := view_after _ v) in *.
  assert (∀ path n x, 0 ≤ n → stored v' (packet_key path n) = Some x →
    path = path0 ∧ n = m ∧ x = r' ∨ (path0, m) ≠ (path, n) ∧ stored v (packet_key path n) = Some x) as Hst.
  { intros path n x Hn'. unfold stored, v'. rewrite settle_view by (by rewrite kind_packet).
    rewrite packet_set_packet by done. destruct (decide _) as [[<- <-]|Hne].
    - cbn [mbind option_bind]. rewrite Hread. intros [= <-]. by left.
    - intros Hx. right. split; [|done]. intros [= -> ->]. by destruct Hne. }
  split; [done| |].
  - intros path n x Hn' Hx. destruct (Hst path n x Hn' Hx) as [(-> & -> & ->)|[_ Hx']]; [by rewrite Hp'|by eapply Hn].
  - intros path n x Hn' Hx Hpx Ht. destruct (Hst path n x Hn' Hx) as [(-> & -> & ->)|[Hne Hx']]; [done|].
    pose proof (Hi path n x Hn' Hx' Hpx Ht) as Hix. unfold v', settle_batch. rewrite view_after_cons.
    set (v1 := view_set _ _ v).
    assert (v1 (index_key (Packet_TimeoutHeight (PR_Packet x)) path n) =
      v (index_key (Packet_TimeoutHeight (PR_Packet x)) path n)) as H1
      by (apply view_set_kind; by rewrite kind_packet, kind_index_key).
    destruct indexed; [rewrite view_after_cons|]; unfold view_after, writes_content; cbn [foldl]; [|by rewrite H1].
    rewrite view_set_ne, H1; [done|]. rewrite packetTimeoutIndexKey_eq, Hp', Hpath.
    pose proof (stored_fits v path n x Hv Hn' Hx') as (((_ & Hxt) & _) & _ & Hxs & _).
    destruct Hfits as (((_ & Hrt) & _) & _ & Hrs & _). rewrite Hrs.
    intros (_ & <- & <-)%index_key_inj; done.
Qed.

Lemma change_book ws : ibc_change true h v ws → book_ok (view_after ws v).
Proof.
  destruct 1 as [k b Hk|p Hp Hu _ Hn Hs|p r r' indexed Hr Hpend Hset _].
  - eapply book_same; [|exact Hb]. intros k' Hk'. rewrite view_after_cons. apply view_set_kind.
    rewrite (kind_record k Hk). congruence.
  - apply send_book; auto.
  - by eapply settle_book.
Qed.
End book.

Lemma changes_book h v ops :
  is_u64 h → book_ok v → ibc_changes true h v ops → book_ok (view_after (ops ≫= op_writes) v).
Proof.
  intros Hh. revert v. induction ops as [|op ops IH]; intros v Hv; cbn [ibc_changes mbind list_bind]; [done|].
  intros [H1 H2]. pose proof (change_book h v Hh Hv _ H1) as Hv1. eapply book_same; [|exact (IH _ Hv1 H2)].
  intros k _. apply view_after_app.
Qed.
