(* ===== verification/IbcLife.v ===== *)
(** * Runs of the inter-chain module

    The theorems about packets over arbitrary runs: the life cycle of packets,
    the sweep of expired ones, and what a proof of acknowledgement shows. *)

From S2P Require Import Prelude GoLib Sha256 Merkle Types Strconv TxTags Text Json JsonPrint JsonCodec Economics Address.
From S2P Require Import CanonicalTx FairOrdering Validator SignBytes StateProof ProofJson Store Staged Bank Ante Events App.
From S2P Require Import BlockExecution Evidence Slashing Staking StakingStore StakingLedger Utf8.
From S2P Require Import Ibc IbcModule IbcLaws IbcRun IbcPackets.

(** The payload of a transaction is UTF-8. *)
Definition utf8_tx (tx : Tx) : Prop :=
  sanitize (string_of_bytes (TxPayload tx)) = string_of_bytes (TxPayload tx).

Lemma scan_parts_utf8 parts args tags args' tags' :
  Forall (λ a, sanitize a = a) parts → Forall (λ a, sanitize a = a) args →
  scan_parts parts args tags = Ok (args', tags') → Forall (λ a, sanitize a = a) args'.
Proof.
  intros Hp. revert args tags. induction Hp as [|part parts Hpart Hp IH]; intros args tags Ha; cbn [scan_parts].
  { by intros [= <- _]. }
  destruct (str_cut "=" part) as [[key value]|].
  - intros HS. result_inv HS. by eapply IH.
  - apply IH, Forall_app. by rewrite Forall_singleton.
Qed.

Lemma utf8_tx_args tx canonical :
  utf8_tx tx → ParseCanonicalTx tx = Ok canonical → Forall (λ a, sanitize a = a) (CTx_Args canonical).
Proof.
  intros Hu%(utf8_split ":"); [|by vm_compute]. unfold ParseCanonicalTx, parse_canonical.
  destruct (str_split ":" _) as [|module [|action rest]]; [done|done|].
  intros HP. result_inv HP. destruct r1 as [args tags]. injection HP as <-. cbn.
  rewrite !Forall_cons in Hu. eapply scan_parts_utf8; [apply Hu|constructor|done].
Qed.

Section life.
Context {T : Type} `{LawfulSnapshot T} `{!BatchStore T} (error_text : error → string).

Abbreviation view s := (content s IbcNamespace).

(** A call of the module by the runtime, or a change outside its namespace; the
    flag tells whether transactions have to be UTF-8. *)
Inductive ibc_call (u : bool) (s s' : T) : Prop :=
| ibc_call_begin height header r :
    Ibc_BeginBlock (Some s) None height header = (Some s', r) → ibc_call u s s'
| ibc_call_deliver height gas tx gas' r :
    is_u64 height → (u = true → utf8_tx tx) →
    Ibc_DeliverTx error_text (Some s) gas None height tx = (Some s', gas', r) → ibc_call u s s'
| ibc_call_end height r :
    is_u64 height → Ibc_EndBlock (Some s) None height = (Some s', r) → ibc_call u s s'
| ibc_call_elsewhere : store_ok s' → (∀ k, view s' k = view s k) → ibc_call u s s'.

(** A store after changes of the module. *)
Definition changed (u : bool) (h : Height) (s s' : T) : Prop :=
  store_ok s' ∧ ∃ ops, ibc_changes u h (view s) ops ∧ ∀ k, view s' k = view_after (ops ≫= op_writes) (view s) k.

Lemma changed_run u h s ops :
  store_ok s → Forall valid_op ops → ibc_changes u h (view s) ops → changed u h s (run_ops s ops).
Proof.
  intros Hok Hv Hc. destruct (run_ops_content s ops) as [Hok' HR]; [apply has_batch|done..|].
  split; [done|]. exists ops. split; [done|]. intros k. rewrite HR by auto. apply view_content.
Qed.

Lemma sim_self (s : T) : store_ok s → store_sim s s.
Proof. by intros Hok. Qed.

Lemma BeginBlock_changed u s height header s' r :
  store_ok s → Ibc_BeginBlock (Some s) None height header = (Some s', r) → changed u 0 s s'.
Proof.
  intros Hok. unfold Ibc_BeginBlock.
  set (x := if bool_decide (Header_Height header = 0) then height else Header_Height header).
  destruct (bool_decide (x = 0)); [intros [= <- _]; by split; [|exists []]|].
  destruct (begin_run u 0 x s s (sim_self s Hok)) as (ops & r' & Hv & Hc & -> & _).
  intros [= <- _]. by apply changed_run.
Qed.

Lemma DeliverTx_changed u s gas height tx s' gas' r :
  store_ok s → (u = true → utf8_tx tx) →
  Ibc_DeliverTx error_text (Some s) gas None height tx = (Some s', gas', r) → changed u height s s'.
Proof.
  intros Hok Hu. unfold Ibc_DeliverTx. destruct (ParseCanonicalTx tx) as [canonical|e] eqn:E;
    [case_bool_decide|]; [|intros [= <- _ _]; by split; [|exists []]..].
  destruct (deliver_action_run error_text u height s s (sim_self s Hok) gas (CTx_Action canonical) (CTx_Args canonical)
    (CTx_Tags canonical)) as (ops & g & res & Hv & Hc & -> & _); [intros Hut; by eapply utf8_tx_args; [apply Hu|]|].
  intros [= <- _ _]. by apply changed_run.
Qed.

Lemma EndBlock_changed u s height s' r :
  store_ok s → Ibc_EndBlock (Some s) None height = (Some s', r) → changed u height s s'.
Proof.
  intros Hok. unfold Ibc_EndBlock. case_bool_decide; [intros [= <- _]; by split; [|exists []]|].
  destruct (sweepExpiredPackets_run u height s s (sim_self s Hok)) as (ops & r' & Hv & Hc & -> & _).
  intros [= <- _]. by apply changed_run.
Qed.

Lemma call_changed u s s' : store_ok s → ibc_call u s s' → ∃ h, is_u64 h ∧ changed u h s s'.
Proof.
  intros Hok [height header r HB|height gas tx gas' r Hh Hu HD|height r Hh HE|Hok' Hs].
  - exists 0. split; [done|]. by eapply BeginBlock_changed.
  - exists height. split; [done|]. by eapply DeliverTx_changed.
  - exists height. split; [done|]. by eapply EndBlock_changed.
  - exists 0. split; [done|]. split; [done|]. by exists [].
Qed.

Lemma changed_packets u h s s' :
  is_u64 h → packets_ok (view s) → changed u h s s' → packets_ok (view s') ∧ evolves (view s) (view s').
Proof.
  intros Hh Hv (_ & ops & Hc & Hs). destruct (changes_keep u h (view s) ops Hh Hv Hc) as [Hv' He].
  destruct (packets_same _ (view s') (λ k _, Hs k) Hv') as [Hv'' He']. split; [done|]. by etrans.
Qed.

Lemma run_packets u s s' :
  store_ok s → packets_ok (view s) → rtc (ibc_call u) s s' →
  store_ok s' ∧ packets_ok (view s') ∧ evolves (view s) (view s').
Proof.
  intros Hok Hv Hrun. induction Hrun as [s|s s1 s' Hcall Hrun IH]; [done|].
  destruct (call_changed u s s1 Hok Hcall) as (h & Hh & Hch). pose proof (proj1 Hch) as Hok1.
  destruct (changed_packets u h s s1 Hh Hv Hch) as [Hv1 He1]. destruct (IH Hok1 Hv1) as (Hok' & Hv' & He').
  split_and!; [done..|]. by etrans.
Qed.

Lemma run_book s s' :
  store_ok s → book_ok (view s) → rtc (ibc_call true) s s' → store_ok s' ∧ book_ok (view s').
Proof.
  intros Hok Hb Hrun. induction Hrun as [s|s s1 s' Hcall Hrun IH]; [done|].
  destruct (call_changed true s s1 Hok Hcall) as (h & Hh & Hok1 & ops & Hc & Hs). apply IH; [done|].
  eapply book_same; [|exact (changes_book h (view s) ops Hh Hb Hc)]. intros k _. apply Hs.
Qed.


(** ** The sweep *)

Lemma timeout_receipts_in s h pairs receipts entry r :
  store_ok s → timeout_receipts s None h pairs = Ok receipts → entry ∈ pairs →
  stored (view s) (packetTimeoutIndexPacketKey (KV_Key entry)) = Some r → pending_receipt r →
  Packet_TimeoutHeight (PR_Packet r) = h → r ∈ receipts.
Proof.
  intros Hok. revert receipts. induction pairs as [|x pairs IH]; intros receipts HT Hin Hr [Ha Ht] Hh; [by apply not_elem_of_nil in Hin|].
  cbn [timeout_receipts] in HT. apply bind_Ok in HT as (_ & Hk%check_Ok%bool_decide_eq_true & HT).
  rewrite getJSON_view in HT by done. destruct (view s (packetTimeoutIndexPacketKey (KV_Key x))) as [b|] eqn:Eb; cbv beta iota in HT.
  - result_inv HT. subst receipts. apply elem_of_cons in Hin as [->|Hin].
    + unfold stored in Hr. rewrite Eb in Hr. cbn [mbind option_bind] in Hr. rewrite HT0 in Hr. injection Hr as ->.
      rewrite Ha, Ht, bool_decide_eq_false_2 by (by intros []). cbn. by left.
    + destruct (_ || _); [by eapply IH|right; by eapply IH].
  - result_inv HT. subst receipts. cbn. apply elem_of_cons in Hin as [->|Hin]; [|by eapply IH].
    unfold stored in Hr. by rewrite Eb in Hr.
Qed.

(** The sweep finds every pending packet of the height. *)
Lemma TimeoutReceiptsAt_complete s h receipts path n r :
  store_ok s → is_u64 h → book_ok (view s) → TimeoutReceiptsAt s None h = Ok receipts → 0 ≤ n →
  stored (view s) (packet_key path n) = Some r → pending_receipt r → Packet_TimeoutHeight (PR_Packet r) = h →
  r ∈ receipts.
Proof.
  intros Hok Hh Hb HT Hn Hr Hpend Ht. unfold TimeoutReceiptsAt in HT.
  apply bind_Ok in HT as (_ & Hnz%check_Ok%bool_decide_eq_true & HT).
  destruct (ExportPrefix_listing s IbcNamespace (packetTimeoutHeightPrefix h) Hok ltac:(auto)) as (e & pairs & He & Hp & Hl).
  rewrite He, Hp in HT. cbn [mbind result_bind] in HT.
  destruct (book_indexed _ Hb path n r Hn Hr Hpend) as [b Hi].
  { rewrite Ht. unfold is_u64 in Hh. lia. }
  rewrite Ht in Hi. destruct Hl as (_ & _ & _ & Hl).
  assert (mkKVPair IbcNamespace (index_key h path n) b ∈ pairs) as Hin.
  { apply Hl. unfold with_prefix, index_key. rewrite take_app_length. by rewrite decide_True. }
  eapply timeout_receipts_in; [done|exact HT|exact Hin| |done|done]. cbn [KV_Key]. by rewrite index_packet_key.
Qed.

(** Errors of the keeper that say a packet is settled. *)
Definition says_settled (e : error) : bool := errors_is e ErrPacketTimedOut || errors_is e ErrPacketAcked.

Lemma found_or_error {R} `{!JsonRecord R} s k missing e :
  store_ok s → k ≠ [] → says_settled missing = false → found_or (R:=R) missing (getJSON s None k) = Err e →
  says_settled e = false.
Proof.
  intros Hok Hk Hm. rewrite getJSON_view by done. unfold found_or. destruct (view s k) as [b|]; cbn [fst snd].
  - unfold unmarshal_json. destruct (parse_document b ≫= _); cbn; [done|]. by intros [= <-].
  - cbn. by intros [= <-].
Qed.

Lemma validatePacketPath_error s p e :
  store_ok s → validatePacketPath s None p = Err e → says_settled e = false.
Proof.
  intros Hok HE. unfold validatePacketPath in HE.
  destruct (found_or ErrInvalidChannel _) as [channel|e1] eqn:E1.
  2: { injection HE as <-. exact (found_or_error (R:=ChannelState) s (channelKey _ _) ErrInvalidChannel _ Hok ltac:(auto) eq_refl E1). }
  cbn [mbind result_bind] in HE. destruct (bool_decide (Channel_State _ = _)); [|by injection HE as <-].
  cbn [check mbind result_bind] in HE. destruct (bool_decide (Channel_Counterparty _ = _)); [|by injection HE as <-].
  cbn [check mbind result_bind] in HE. destruct (found_or ErrInvalidConnection _) as [connection|e1'] eqn:E2.
  2: { injection HE as <-. exact (found_or_error (R:=ConnectionState) s (connectionKey _) ErrInvalidConnection _ Hok ltac:(auto) eq_refl E2). }
  cbn [mbind result_bind] in HE. destruct (bool_decide (Connection_State _ = _)); [|by injection HE as <-].
  cbn [check mbind result_bind] in HE. destruct (found_or ErrClientNotFound _) as [client|e1'] eqn:E3; [done|].
  injection HE as <-. exact (found_or_error (R:=ClientState) s (clientKey _) ErrClientNotFound _ Hok ltac:(auto) eq_refl E3).
Qed.

Lemma expired_receipt_error s h p e r :
  store_ok s → expired_receipt s None h p = Err e → says_settled e = true →
  stored (view s) (packetCommitmentKey p) = Some r → ¬ pending_receipt r.
Proof.
  intros Hok HE Hs Hr [Ha Ht]. unfold expired_receipt in HE.
  destruct (validatePacket p) as [[]|e1] eqn:E1; cbn [mbind result_bind] in HE.
  2: { unfold validatePacket, check in E1. destruct (negb _); [done|]. by simplify_eq. }
  destruct (validatePacketPath s None p) as [[]|e1] eqn:E2; cbn [mbind result_bind] in HE.
  2: { injection HE as ->. apply validatePacketPath_error in E2; [congruence|done]. }
  destruct (negb _); cbn [check mbind result_bind] in HE; [|by injection HE as <-].
  destruct (found_or _ _) as [r1|e1] eqn:E3; cbn [mbind result_bind] in HE.
  - apply found_stored in E3; [|by auto..]. rewrite Hr in E3. injection E3 as <-.
    rewrite Ha, Ht in HE. done.
  - injection HE as ->. apply (found_or_error s (packetCommitmentKey p)) in E3; [congruence|by auto..].
Qed.

Lemma TimeoutPacket_settles s h p s' res r :
  store_ok s → is_u64 h → packets_ok (view s) → TimeoutPacket s None h p = (s', res) →
  (∀ e, res = Err e → says_settled e = true) → stored (view s) (packetCommitmentKey p) = Some r →
  ∃ r', stored (view s') (packetCommitmentKey p) = Some r' ∧ ¬ pending_receipt r'.
Proof.
  intros Hok Hh Hv HT Hres Hr. unfold TimeoutPacket, after in HT.
  destruct (expired_receipt s None h p) as [r1|e] eqn:E.
  2: { injection HT as <- <-. exists r. split; [done|]. by eapply expired_receipt_error; [..|apply Hres|]. }
  unfold expired_receipt in E. result_inv E. apply found_stored in E3; [|by auto..]. rewrite Hr in E3. injection E3 as <-.
  apply negb_true_iff in E4 as Ha, E5 as Ht. change (receipt_expired h r = r1) in E. subst r1.
  pose proof (has_batch (T:=T)). destruct (store_SetBatch (S:=T)) as [batch|] eqn:Eb; [|done].
  set (ws := [_; _]) in HT. assert (Forall valid_write ws) as Hws by (repeat constructor; cbn; auto).
  pose proof (SetBatch_total batch s ws Eb Hok Hws) as Ht'. rewrite HT in Ht'. cbn in Ht'. subst res.
  destruct (SetBatch_spec batch s None ws s' (Ok tt) Eb Hok Hws HT) as [_ Hc]. cbn [is_ok] in Hc.
  exists (receipt_expired h r). split; [|by intros []]. unfold stored. rewrite Hc, view_content by auto.
  change ws with (settle_batch (packetCommitmentKey p) (receipt_expired h r) true). rewrite packetCommitmentKey_eq in *.
  destruct (packet_key_nat (packet_path p) (Packet_Sequence p)) as (n & Hn & Hk). rewrite Hk in *.
  rewrite settle_view, view_set_eq by (by rewrite kind_packet). cbn [mbind option_bind].
  destruct (settled_receipt h Hh n r (receipt_expired h r)) as (_ & _ & -> & _); [by eapply stored_fits|done|by left|done].
Qed.

(** The sweep sends nothing. *)
Lemma TimeoutPacket_absent s h p s' res path n :
  store_ok s → TimeoutPacket s None h p = (s', res) → view s (packet_key path n) = None →
  view s' (packet_key path n) = None.
Proof.
  intros Hok HT Hk. unfold TimeoutPacket, after in HT.
  destruct (expired_receipt s None h p) as [r1|e] eqn:E; [|by injection HT as <- _].
  unfold expired_receipt in E. result_inv E. apply found_stored in E3; [|by auto..].
  pose proof (has_batch (T:=T)). destruct (store_SetBatch (S:=T)) as [batch|] eqn:Eb; [|done].
  set (ws := [_; _]) in HT. assert (Forall valid_write ws) as Hws by (repeat constructor; cbn; auto).
  destruct (SetBatch_spec batch s None ws s' res Eb Hok Hws HT) as [_ Hc]. rewrite Hc by auto.
  destruct (is_ok res); [|done]. rewrite view_content.
  change ws with (settle_batch (packetCommitmentKey p) r1 true). rewrite settle_view by (by rewrite kind_packet).
  rewrite view_set_ne; [done|]. intros Heq. unfold stored in E3. by rewrite Heq, Hk in E3.
Qed.

Lemma sweep_absent h receipts s s' res path n :
  store_ok s → sweep_receipts s None h receipts = (s', res) → view s (packet_key path n) = None →
  view s' (packet_key path n) = None.
Proof.
  revert s. induction receipts as [|x receipts IH]; intros s Hok HS Hk; cbn [sweep_receipts] in HS; [by injection HS as <- _|].
  destruct (TimeoutPacket s None h (PR_Packet x)) as [s1 res1] eqn:E.
  assert (store_ok s1) as Hok1.
  { destruct (TimeoutPacket_run false h s s (sim_self s Hok) (PR_Packet x)) as (ops & res' & Hvo & Hc & Heq & _).
    rewrite E in Heq. injection Heq as -> _. by eapply changed_run. }
  pose proof (TimeoutPacket_absent s h _ s1 res1 path n Hok E Hk) as Hk1.
  destruct res1 as [[]|e]; [by eapply IH|]. destruct (negb _ && negb _); [by injection HS as <- _|by eapply IH].
Qed.

Lemma sweep_settles h receipts s s' r :
  store_ok s → is_u64 h → packets_ok (view s) → sweep_receipts s None h receipts = (s', Ok tt) → r ∈ receipts →
  is_Some (stored (R:=PacketReceipt) (view s) (packetCommitmentKey (PR_Packet r))) →
  ∃ r', stored (view s') (packetCommitmentKey (PR_Packet r)) = Some r' ∧ ¬ pending_receipt r'.
Proof.
  intros Hok Hh. revert s Hok. induction receipts as [|x receipts IH]; intros s Hok Hv HS Hin [r0 Hr0]; [by apply not_elem_of_nil in Hin|].
  cbn [sweep_receipts] in HS. destruct (TimeoutPacket s None h (PR_Packet x)) as [s1 res] eqn:E.
  assert (changed false h s s1) as Hch.
  { destruct (TimeoutPacket_run false h s s (sim_self s Hok) (PR_Packet x)) as (ops & res' & Hvo & Hc & Heq & _).
    rewrite E in Heq. injection Heq as -> _. by apply changed_run. }
  destruct (changed_packets false h s s1 Hh Hv Hch) as [Hv1 He1].
  assert (sweep_receipts s1 None h receipts = (s', Ok tt) ∧ ∀ e, res = Err e → says_settled e = true) as [HS' Hres].
  { destruct res as [[]|e]; [done|]. unfold says_settled. destruct (errors_is e ErrPacketTimedOut) eqn:Et, (errors_is e ErrPacketAcked) eqn:Ek;
      cbn in HS; try done; (split; [done|]); intros ? [= <-]; by rewrite ?Et, ?Ek. }
  destruct (sweep_receipts_run false h receipts s1 s1 (sim_self s1 (proj1 Hch))) as (ops & res' & Hvo & Hc & Heq & _).
  rewrite HS' in Heq. injection Heq as Hs' _.
  pose proof (changed_run false h s1 ops (proj1 Hch) Hvo Hc) as Hch'. rewrite <-Hs' in Hch'.
  destruct (changed_packets false h s1 s' Hh Hv1 Hch') as [_ He2].
  set (k := packetCommitmentKey (PR_Packet r)) in *.
  assert (∃ path n, 0 ≤ n ∧ k = packet_key path n) as (path & n & Hn & Hk).
  { unfold k. rewrite packetCommitmentKey_eq. destruct (packet_key_nat (packet_path (PR_Packet r)) (Packet_Sequence (PR_Packet r)))
      as (n & Hn & ->). by exists (packet_path (PR_Packet r)), n. }
  apply elem_of_cons in Hin as [->|Hin].
  - destruct (TimeoutPacket_settles s h (PR_Packet x) s1 res r0 Hok Hh Hv E Hres Hr0) as (r1 & Hr1 & Hd1).
    fold k in Hr1. rewrite Hk in *. destruct (He2 path n r1 Hn Hr1) as (r2 & Hr2 & _ & _ & Hsame). exists r2.
    split; [done|]. by rewrite Hsame.
  - apply (IH s1); [by apply Hch|done|done|done|]. rewrite Hk in *. destruct (He1 path n r0 Hn Hr0) as (r1 & -> & _). done.
Qed.

(** C38: The sweep at the end of a block.  After any run with UTF-8 transactions,
    when the end of the block of a height succeeds, no packet that times out at
    this height is pending any more: each is acknowledged or timed out. *)
Theorem timeouts_swept s s1 h s2 path n r :
  store_ok s → book_ok (view s) → rtc (ibc_call true) s s1 → is_u64 h → h ≠ 0 →
  Ibc_EndBlock (Some s1) None h = (Some s2, Ok tt) → 0 ≤ n →
  stored (view s2) (packet_key path n) = Some r → Packet_TimeoutHeight (PR_Packet r) = h →
  PR_Acknowledged r = true ∨ PR_TimedOut r = true.
Proof.
  intros Hok Hb Hrun Hh Hnz HE Hn Hr Ht. destruct (run_book s s1 Hok Hb Hrun) as [Hok1 Hb1].
  pose proof (EndBlock_changed false s1 h s2 (Ok tt) Hok1 HE) as Hch.
  destruct (changed_packets false h s1 s2 Hh (book_packets _ Hb1) Hch) as [Hv2 He].
  unfold Ibc_EndBlock in HE. rewrite bool_decide_eq_false_2 in HE by done.
  destruct (sweepExpiredPackets s1 None h) as [s2' r2] eqn:ES. injection HE as -> ->.
  unfold sweepExpiredPackets, after in ES. destruct (TimeoutReceiptsAt s1 None h) as [receipts|e] eqn:ER; [|done].
  destruct (PR_Acknowledged r) eqn:Ea; [by left|]. destruct (PR_TimedOut r) eqn:Eto; [by right|]. exfalso.
  destruct (stored (R:=PacketReceipt) (view s1) (packet_key path n)) as [r1|] eqn:E1.
  - destruct (He path n r1 Hn E1) as (r' & Hr' & Hp & _ & Hsame). rewrite Hr in Hr'. injection Hr' as <-.
    destruct (decide (PR_Acknowledged r1 = false ∧ PR_TimedOut r1 = false)) as [Hpend|Hd]; [|apply Hd; by rewrite <-(Hsame Hd)].
    rewrite Hp in Ht. pose proof (TimeoutReceiptsAt_complete s1 h receipts path n r1 Hok1 Hh Hb1 ER Hn E1 Hpend Ht) as Hin.
    assert (packetCommitmentKey (PR_Packet r1) = packet_key path n) as Hk.
    { rewrite packetCommitmentKey_eq, (book_named _ Hb1 path n r1 Hn E1).
      by rewrite (proj1 (proj2 (proj2 (stored_fits _ _ _ _ (book_packets _ Hb1) Hn E1)))). }
    destruct (sweep_settles h receipts s1 s2 r1 Hok1 Hh (book_packets _ Hb1) ES Hin) as (r' & Hr' & Hd); rewrite Hk in *; [done|].
    rewrite Hr in Hr'. injection Hr' as <-. by destruct Hd.
  - unfold stored in E1, Hr. destruct (view s1 (packet_key path n)) as [b|] eqn:Eb.
    + destruct (packets_receipt _ (book_packets _ Hb1) path n b Hn Eb) as (r' & Hb' & _). cbn in E1. by rewrite Hb' in E1.
    + by rewrite (sweep_absent h receipts s1 s2 _ path n Hok1 ES Eb) in Hr.
Qed.

(** ** Proofs of another chain *)

Lemma samePacket_eq p q : samePacket p q = true → p = q.
Proof.
  unfold samePacket. rewrite !andb_true_iff, !bool_decide_eq_true. destruct p, q. cbn.
  intros [[[[[[-> ->] ->] ->] ->] ->] ->]. done.
Qed.

Lemma ack_proof_checks s id h p proof ack u :
  store_ok s → VerifyPacketAcknowledgementProofAt s None id h p proof ack = Ok u →
  ∃ client r, stored (view s) (clientKey id) = Some client ∧ Client_LatestStateRoot client ≠ zero_hash ∧
    Query_Verify proof (Client_ChainID client) (Client_LatestHeight client) (Client_LatestStateRoot client) = Ok tt ∧
    QP_Namespace proof = IbcNamespace ∧ QP_Key proof = packetCommitmentKey p ∧ QP_Exists proof = true ∧
    unmarshal_json (QP_Value proof) = Ok r ∧ PR_Packet r = p ∧ PR_Acknowledged r = true ∧ PR_Ack r = ack.
Proof.
  intros Hok HV. unfold VerifyPacketAcknowledgementProofAt, verifiedPacketReceiptProofAt in HV.
  apply bind_Ok in HV as (_ & _ & HV). apply bind_Ok in HV as (r & HR & HV).
  apply check_Ok in HV. rewrite negb_true_iff, !orb_false_iff, negb_false_iff, !bool_decide_eq_false in HV.
  destruct HV as [[Ha _] Hack%dec_stable].
  apply bind_Ok in HR as (_ & _ & HR). apply bind_Ok in HR as (x & HC & HR). apply bind_Ok in HR as (y & HK & HR).
  apply bind_Ok in HR as (r' & HJ & HR). apply bind_Ok in HR as (z & HS & HR). injection HR as ->.
  apply check_Ok in HK, HS. rewrite negb_true_iff, !orb_false_iff, !bool_decide_eq_false, negb_false_iff in HK.
  destruct HK as [[Hns%dec_stable Hkey%dec_stable] Hex]. rewrite negb_true_iff, orb_false_iff, negb_false_iff in HS.
  destruct HS as [HS%samePacket_eq _]. unfold VerifyClientProofAt in HC. apply bind_Ok in HC as (client & Hcl & HC).
  apply bind_Ok in HC as (_ & _ & HC). apply bind_Ok in HC as (_ & _ & HC).
  apply bind_Ok in HC as (_ & Hroot%check_Ok%bool_decide_eq_true & HC). apply bind_Ok in HC as (_ & _ & HC).
  exists client, r. unfold join_invalid_proof in HC, HJ. split_and!; try done.
  - unfold Client in Hcl. rewrite getJSON_view in Hcl by auto. unfold stored, found_or in *.
    destruct (view s (clientKey id)) as [b|]; [|by result_inv Hcl]. cbn [fst snd mbind option_bind] in *.
    destruct (unmarshal_json b); [|done]. cbn in Hcl. congruence.
  - by destruct (Query_Verify _ _ _ _) as [[]|].
  - by destruct (unmarshal_json (QP_Value proof)); [simplify_eq|].
Qed.

(** C39: A packet acknowledged with a proof was acknowledged on the other chain.
    When the client of this chain has the root of the other chain's namespace,
    the proof shows that the other chain holds a receipt of exactly this packet
    with exactly this acknowledgement, or two different messages with the same
    SHA-256 hash are found. *)
Theorem ack_proof_sound {S} `{LawfulSnapshot S} (s s' : T) (remote : S) pairs client id h p proof ack :
  store_ok s → AcknowledgePacketWithProof s None h id p proof ack = (s', Ok tt) →
  stored (view s) (clientKey id) = Some client →
  listing IbcNamespace (view remote) pairs →
  Root IbcNamespace (stateProofPairs pairs) = Ok (Client_LatestStateRoot client) →
  Forall pair_fits (mkPair (QP_Key proof) (QP_Value proof) :: stateProofPairs pairs) →
  (∃ r, stored (view remote) (packetCommitmentKey p) = Some r ∧ PR_Packet r = p ∧
     PR_Acknowledged r = true ∧ PR_Ack r = ack) ∨
  collision (membership_messages IbcNamespace (QP_Key proof) (QP_Value proof) (QP_MerklePath proof))
    (root_messages IbcNamespace (stateProofPairs pairs)).
Proof.
  intros Hok HA Hcl Hl HR Hfit. unfold AcknowledgePacketWithProof, after in HA.
  destruct (check _ _ ≫= _) as [u|e] eqn:E; [|done]. apply bind_Ok in E as (_ & _ & E).
  destruct (ack_proof_checks s id h p proof ack u Hok E)
    as (client' & r & Hcl' & Hnz & HV & Hns & Hk & Hex & Hr & Hp & Ha & Hack).
  rewrite Hcl in Hcl'. injection Hcl' as <-.
  destruct (Query_Verify_member _ _ _ _ HV Hnz Hex) as (_ & _ & Hm). rewrite Hns in Hm.
  destruct (VerifyMembership_sound _ _ _ _ _ _ HR Hfit Hm) as [Hin|Hc]; [left|by right].
  exists r. split_and!; [|done..]. apply (proj2 (listing_pairs _ _ _ Hl)) in Hin. unfold stored.
  rewrite <-Hk, Hin. cbn [mbind option_bind]. by rewrite Hr.
Qed.
End life.
