(* ===== verification/IbcExample.v ===== *)
(** * Examples of the inter-chain module

    Two chains with a channel between them: packets are sent, acknowledged with
    and without a proof, and time out.  Two examples show what the module does
    not check: anybody can reset a channel, which makes the sweep and with it the
    block fail, and a packet times out at whatever height a transaction names. *)

From S2P Require Import Prelude GoLib Sha256 Merkle Types Strconv TxTags Text Json JsonPrint JsonCodec Economics Address.
From S2P Require Import CanonicalTx FairOrdering Validator SignBytes StateProof ProofJson Store Staged Bank Ante Events App.
From S2P Require Import BlockExecution Evidence Slashing Staking StakingStore StakingLedger Utf8.
From S2P Require Import Ibc IbcModule IbcLaws IbcRun IbcPackets IbcLife.

Lemma stored_none {R} `{!JsonRecord R} (v : View) k : v k = None → stored (R:=R) v k = None.
Proof. unfold stored. by intros ->. Qed.

(** A chain without records of the module is in order. *)
Lemma book_ok_fresh (v : View) : (∀ k, v k = None) → book_ok v.
Proof.
  intros Hv. split; [split|..].
  - intros path b. by rewrite Hv.
  - intros path n Hn. unfold sent, counter. rewrite !Hv, bool_decide_eq_false_2 by done. split; [by intros []|lia].
  - intros path n b _. by rewrite Hv.
  - intros path n r _. by rewrite stored_none.
  - intros path n r _. by rewrite stored_none.
Qed.

Module IbcExample.
Import BankExample BlockExample.

Definition run (s : gmap bytes bytes) (tx : Tx) : gmap bytes bytes :=
  default ∅ (Ibc_DeliverTx plain_text (Some s) None None 5 tx).1.1.
Definition code (s : gmap bytes bytes) (tx : Tx) : Z :=
  Result_Code (Ibc_DeliverTx plain_text (Some s) None None 5 tx).2.

Definition tx (text : string) : Tx := bytes_of_string text.
Definition ones : string := hex_encode (replicate 32 x01).

(** A client of the other chain, a connection and a channel. *)
Definition handshake (root : Hash) : list Tx :=
  [tx ("ibc:client-create:client:chain-b:5:" ++ ones ++ ":" ++ hex_encode (hash_bytes root) ++ ":signer=relayer");
   tx "ibc:connection-open:conn:client:conn-b"; tx "ibc:connection-open-ack:conn";
   tx "ibc:channel-open:port:chan:conn:chan-b:unordered"; tx "ibc:channel-open-ack:port:chan"].

(** The first packet times out at height nine, the second one never. *)
Definition sends : list Tx :=
  [tx "ibc:packet-send:1:port:chan:port-b:chan-b:aGk:9"; tx "ibc:packet-send:2:port:chan:port-b:chan-b:aGk"].
Definition ack_tx : Tx := tx "ibc:packet-ack:2:port:chan:port-b:chan-b:aGk:b2s".

Definition sent_store : gmap bytes bytes := foldl run ∅ (handshake zero_hash ++ sends).
Definition acked_store : gmap bytes bytes := run sent_store ack_tx.

Lemma empty_view k : content (∅ : gmap bytes bytes) IbcNamespace k = None.
Proof. apply lookup_empty. Qed.

Lemma deliver_call (u : bool) (s : gmap bytes bytes) (t : Tx) : (u = true → utf8_tx t) → ibc_call plain_text u s (run s t).
Proof.
  intros Hu. unfold run. destruct (Ibc_DeliverTx plain_text (Some s) None None 5 t) as [[o gas] r] eqn:E.
  assert (∃ s', o = Some s') as [s' ->].
  { unfold Ibc_DeliverTx in E. destruct (ParseCanonicalTx t); [|injection E as <- _ _; by exists s].
    destruct (bool_decide _); [|injection E as <- _ _; by exists s].
    destruct (deliver_action _ _ _ _ _ _ _ _) as [[s' g] x]. injection E as <- _ _. by exists s'. }
  by eapply (ibc_call_deliver plain_text u s _ 5 None t gas r).
Qed.

Lemma runs (u : bool) (s : gmap bytes bytes) txs : (u = true → Forall utf8_tx txs) → rtc (ibc_call plain_text u) s (foldl run s txs).
Proof.
  revert s. induction txs as [|t txs IH]; intros s Hu; [done|]. cbn [foldl]. eapply rtc_l.
  - apply deliver_call. intros Ht. by specialize (Hu Ht); apply Forall_cons in Hu as [? _].
  - apply IH. intros Ht. by specialize (Hu Ht); apply Forall_cons in Hu as [_ ?].
Qed.

#[export] Instance utf8_tx_dec t : Decision (utf8_tx t).
Proof. unfold utf8_tx. apply _. Defined.

Lemma sends_utf8 : Forall utf8_tx (handshake zero_hash ++ sends).
Proof. apply (bool_decide_eq_true_1 (Forall utf8_tx _)). vm_compute. reflexivity. Qed.

Lemma sent_runs u : rtc (ibc_call plain_text u) ∅ sent_store.
Proof. unfold sent_store. apply runs. intros _. exact sends_utf8. Qed.

Lemma acked_runs : rtc (ibc_call plain_text false) ∅ acked_store.
Proof. unfold acked_store. eapply rtc_r; [apply sent_runs|]. apply deliver_call. discriminate. Qed.

Lemma empty_book : book_ok (content (∅ : gmap bytes bytes) IbcNamespace).
Proof. apply book_ok_fresh. exact empty_view. Qed.


(** The block of height nine times the first packet out. *)
Lemma sweep_check :
  match Ibc_EndBlock (Some sent_store) None 9 with
  | (Some s2, Ok _) =>
      bool_decide ((Packet_TimeoutHeight ∘ PR_Packet) <$> stored (content s2 IbcNamespace) (packet_key "port/chan" 1) = Some 9)
  | _ => false
  end = true.
Proof. vm_compute. reflexivity. Qed.

Lemma nine_u64 : is_u64 9.
Proof. by vm_compute. Qed.

Lemma timeouts_swept_witness :
  ∃ s2 r, Ibc_EndBlock (Some sent_store) None 9 = (Some s2, Ok tt) ∧
    stored (content s2 IbcNamespace) (packet_key "port/chan" 1) = Some r ∧
    (PR_Acknowledged r = true ∨ PR_TimedOut r = true).
Proof.
  pose proof sweep_check as Hc. destruct (Ibc_EndBlock (Some sent_store) None 9) as [[s2|] [[]|e]] eqn:E; try discriminate Hc.
  apply bool_decide_eq_true in Hc. destruct (stored (content s2 IbcNamespace) (packet_key "port/chan" 1)) as [r|] eqn:Er; [|discriminate Hc].
  exists s2, r. split; [reflexivity|]. split; [exact Er|].
  refine (timeouts_swept plain_text ∅ sent_store 9 s2 "port/chan" 1 r I empty_book (sent_runs true) _ _ E _ Er _).
  - exact nine_u64.
  - discriminate.
  - discriminate.
  - exact (Some_inj _ _ Hc).
Defined.

(** ** A proof of acknowledgement *)

Definition ok_or {A} (a : A) (r : result A) : A := match r with Ok x => x | Err _ => a end.

(** The other chain has acknowledged the second packet. *)
Definition remote_pairs : list KVPair :=
  ok_or [] (LevelDB_ExportNamespace acked_store None IbcNamespace).
Definition remote_root : Hash := ok_or zero_hash (Root IbcNamespace (stateProofPairs remote_pairs)).

Definition packet2 : Packet := mkPacket 2 "port" "chan" "port-b" "chan-b" (bytes_of_string "hi") 0.
Definition ack_proof : QueryProof :=
  ok_or json_zero
    (BuildFromPairs "chain-b" 5 IbcNamespace (packetCommitmentKey packet2) (stateProofPairs remote_pairs) remote_root).

Definition local_store : gmap bytes bytes := foldl run ∅ (handshake remote_root ++ sends).
Definition local_client : ClientState := default json_zero (stored (content local_store IbcNamespace) (clientKey "client")).

Lemma remote_listing : listing IbcNamespace (content acked_store IbcNamespace) remote_pairs.
Proof.
  destruct (ExportNamespace_listing acked_store IbcNamespace) as (export & pairs & E & HE & Hl); [exact I|exact ibc_valid|].
  injection E as <-. unfold remote_pairs. by rewrite HE.
Qed.

Lemma local_client_stored : stored (content local_store IbcNamespace) (clientKey "client") = Some local_client.
Proof.
  assert (bool_decide (is_Some (stored (R:=ClientState) (content local_store IbcNamespace) (clientKey "client"))) = true) as Hs
    by (vm_compute; reflexivity).
  apply bool_decide_eq_true in Hs as [c Hc]. unfold local_client. rewrite Hc. exact eq_refl.
Qed.

Lemma remote_root_ok : Root IbcNamespace (stateProofPairs remote_pairs) = Ok (Client_LatestStateRoot local_client).
Proof. vm_compute. reflexivity. Qed.

Lemma remote_fits : Forall pair_fits (mkPair (QP_Key ack_proof) (QP_Value ack_proof) :: stateProofPairs remote_pairs).
Proof. apply (bool_decide_eq_true_1 (Forall pair_fits _)). vm_compute. reflexivity. Qed.

Lemma ack_accepted :
  is_ok (AcknowledgePacketWithProof local_store None 5 "client" packet2 ack_proof (bytes_of_string "ok")).2 = true.
Proof. vm_compute. reflexivity. Qed.

Lemma ack_proof_sound_witness :
  (∃ r, stored (content acked_store IbcNamespace) (packetCommitmentKey packet2) = Some r ∧ PR_Packet r = packet2 ∧
     PR_Acknowledged r = true ∧ PR_Ack r = bytes_of_string "ok") ∨
  collision (membership_messages IbcNamespace (QP_Key ack_proof) (QP_Value ack_proof) (QP_MerklePath ack_proof))
    (root_messages IbcNamespace (stateProofPairs remote_pairs)).
Proof.
  pose proof ack_accepted as Hok.
  destruct (AcknowledgePacketWithProof local_store None 5 "client" packet2 ack_proof (bytes_of_string "ok"))
    as [s' [[]|e]] eqn:E; [|discriminate Hok].
  exact (ack_proof_sound local_store s' acked_store remote_pairs local_client "client" 5 packet2 ack_proof
    (bytes_of_string "ok") I E local_client_stored remote_listing remote_root_ok remote_fits).
Defined.

(** ** What is not checked *)

(** Anybody can send a channel back to its first state, although it is open
    and has packets on the way.  When one of them times out the end of the block
    fails, and with it the block. *)
Example channel_reset_halts :
  code sent_store (tx "ibc:channel-open:port:chan:conn:chan-b:unordered") = 0 ∧
  (Ibc_EndBlock (Some (run sent_store (tx "ibc:channel-open:port:chan:conn:chan-b:unordered"))) None 9).2 =
    Err ErrChannelNotOpen.
Proof. split; vm_compute; reflexivity. Qed.

(** A packet without timeout is timed out by a transaction that names a height
    of its own, and without any proof. *)
Example early_timeout :
  code sent_store (tx "ibc:packet-timeout:2:port:chan:port-b:chan-b:aGk:1") = 0 ∧
  (λ r, (PR_TimedOut r, Packet_TimeoutHeight (PR_Packet r))) <$>
    stored (content (run sent_store (tx "ibc:packet-timeout:2:port:chan:port-b:chan-b:aGk:1")) IbcNamespace)
      (packet_key "port/chan" 2) = Some (true, 0).
Proof. split; vm_compute; reflexivity. Qed.
End IbcExample.
