(* ===== verification/StakingExample.v ===== *)
(** * Examples of the staking module

    A chain where alice has ten coins: they delegate four of them, undelegate one,
    a block ends, and the validator is slashed by half.  A second example shows
    two delegations whose records share one key. *)

From S2P Require Import Prelude GoLib Sha256 Merkle Types Strconv TxTags Text Json JsonPrint Economics Address CanonicalTx.
From S2P Require Import FairOrdering Validator SignBytes StateProof Store Staged Bank Ante Events App.
From S2P Require Import BlockExecution Evidence Slashing Staking StakingStore StakingLedger StakingFees.
From S2P Require Import StakingRun StakingSlash.

(** A chain without records of the module is well formed. *)
Lemma staking_ok_fresh c :
  (∀ a, no_legacy c a) → (∀ k, c StakingName k = None) → staking_ok c.
Proof.
  intros Hb Hs. split; [done| | |].
  - intros x. exists []. unfold entries_of, uint_at. rewrite !Hs. by repeat constructor.
  - intros v. unfold uint_at. by rewrite Hs.
  - intros k _. unfold readable. by rewrite Hs.
Qed.

Module StakingExample.
Import BankExample BlockExample.

Definition policy : StakingModule := NewModuleWithPolicy (mkStakingPolicy 10 "" 0).
Definition stake_tx : Tx := bytes_of_string "staking:delegate:alice:val:4:a2V5".
Definition unstake_tx : Tx := bytes_of_string "staking:undelegate:alice:val:1".

Definition run (p : StakingModule * gmap bytes bytes) (tx : Tx) : StakingModule * gmap bytes bytes :=
  let '(m, o, _, _) := Staking_DeliverTx plain_text p.1 (Some p.2) None None 5 tx in (m, default ∅ o).

Definition delegated := run (policy, bank0) stake_tx.
Definition undelegated := run delegated unstake_tx.

Lemma run_call p tx :
  is_ok (from_option (λ _, Ok tt) (Err ErrInvalidStakingTx)
    (Staking_DeliverTx plain_text p.1 (Some p.2) None None 5 tx).1.1.2) = true →
  staking_call plain_text canonical_order p (run p tx).
Proof.
  destruct p as [m s]. unfold run. cbn [fst snd].
  destruct (Staking_DeliverTx _ _ _ _ _ _ _) as [[[m' [s'|]] gas] r] eqn:E; [|done].
  intros _. by apply (call_deliver plain_text canonical_order m s None 5 tx m' s' gas r).
Qed.

Lemma stake_runs : rtc (staking_call plain_text canonical_order) (policy, bank0) undelegated.
Proof.
  eapply rtc_l; [apply (run_call _ stake_tx); vm_compute; reflexivity|].
  eapply rtc_l; [apply (run_call delegated unstake_tx); vm_compute; reflexivity|]. apply rtc_refl.
Qed.

Definition alice_write : KVWrite := mkWrite BankName (balanceKey "alice") (encodeBalanceBig 10) false.

Lemma bank0_content :
  same_content (content bank0) (write_content alice_write (content (∅ : gmap bytes bytes))).
Proof.
  pose proof (Set_spec (∅ : gmap bytes bytes) None BankName (balanceKey "alice") (encodeBalanceBig 10)
    bank0 (Ok tt)) as Hset.
  apply Hset; auto. vm_compute. reflexivity.
Qed.

Lemma empty_content ns k : content (∅ : gmap bytes bytes) ns k = None.
Proof. apply lookup_empty. Qed.

Lemma bank0_ok : staking_ok (content bank0).
Proof.
  eapply staking_ok_ext; [symmetry; exact bank0_content|]. apply staking_ok_fresh.
  - intros a. destruct (decide (balanceKey a = bytes_of_string a)) as [?|Ha]; [by left|]. right.
    rewrite write_other, ?empty_content; [done|]. intros Heq%place_inj. apply Ha.
    assert (a = "alice") as ->; [|by vm_compute]. apply bytes_of_string_inj. rewrite <-Heq. by vm_compute.
  - intros k. by rewrite write_other, ?empty_content.
Qed.

Lemma bank0_supply : supply (content bank0) 10.
Proof.
  eapply total_ext; [symmetry; exact bank0_content|].
  assert (supply (content (∅ : gmap bytes bytes)) 0) as Hz.
  { exists ∅, ∅. split_and!; [intros; apply empty_content..|by vm_compute]. }
  apply (total_write _ coin_place_namespace alice_write) in Hz.
  by replace 10 with (0 + gain (content (∅ : gmap bytes bytes)) alice_write) by (vm_compute; reflexivity).
Qed.

Lemma policy_ok : staking_module_ok policy.
Proof. by apply NewModuleWithPolicy_ok. Qed.


(** The validator with power four is to lose half of it. *)
Definition half : PenaltyReceipt :=
  mkReceipt (mkEvidence "double_sign" "val" 5 0 [x01]) (mkPenalty "0.5" 0) 4 2.

Lemma half_valid : valid_receipt half.
Proof. split; try discriminate. by cbn. Qed.

Lemma run_ok m s tx :
  store_ok s → staking_ok (content s) → staking_module_ok m → staking_ok (content (run (m, s) tx).2).
Proof.
  intros Hok Hst Hm. unfold run. cbn [fst snd].
  destruct (Staking_DeliverTx _ _ _ _ _ _ _) as [[[m' o] gas] r] eqn:E.
  apply Staking_DeliverTx_good in E as (s' & -> & _ & _ & Hst' & _); done.
Qed.

Lemma delegated_ok : staking_ok (content delegated.2).
Proof. apply run_ok; [exact I|exact bank0_ok|exact policy_ok]. Qed.

(** Half of the four coins alice staked are taken. *)
Lemma slash_scales_once_witness :
  ∃ s', ApplySlashingPenalty (Some delegated.2) None half = (Some s', Ok tt) ∧
    uint_at (content s') (stakeKey "alice" "val") = 2.
Proof.
  destruct (slash_scales_once delegated.2 half) as (s' & Hrun & _ & _ & _ & Hstake & _).
  - exact I.
  - exact delegated_ok.
  - exact half_valid.
  - vm_compute. reflexivity.
  - exists s'. split; [exact Hrun|]. etrans; [apply (Hstake "alice" "val"); by split|]. vm_compute. reflexivity.
Defined.

(** Mallory, known as [a], stakes with a validator [b/c]; alice stakes with [c].
    The record of the first stake is the record of a stake of [a/b] with [c]:
    undelegating that takes the power of [c], while the stake of alice remains. *)
Definition collision : StakingModule * gmap bytes bytes :=
  foldl run (policy, (setBalanceBig bank0 None "a" 4).1)
    [bytes_of_string "staking:delegate:a:b/c:4:a2V5"; bytes_of_string "staking:delegate:alice:c:4:a2V5";
     bytes_of_string "staking:undelegate:a/b:c:4"].

Example stake_keys_collide :
  ValidatorPower collision.2 None "c" = Ok 0 ∧ Stake collision.2 None "alice" "c" = Ok 4 ∧
  ValidatorPower collision.2 None "b/c" = Ok 4 ∧ Stake collision.2 None "a" "b/c" = Ok 0.
Proof. by vm_compute. Qed.
End StakingExample.
