(* ===== verification/Supply.v ===== *)
(** * The supply of coins over a chain of blocks

    Bank, fees, staking and the runtime together.  A module promises how many
    coins a transaction it delivers creates ([CoinModule]); bank and staking keep
    the promise, and any chain of finalized blocks over such modules changes the
    sum of all balances, stakes, unbondings and rewards by exactly the coins the
    transactions and the fees created. *)

From S2P Require Import Prelude GoLib Sha256 Merkle Types Strconv TxTags Text Json JsonPrint Economics Address CanonicalTx.
From S2P Require Import FairOrdering Validator SignBytes StateProof Store Staged Bank Ante Events App.
From S2P Require Import BlockExecution Evidence Slashing Staking StakingStore StakingLedger StakingFees.
From S2P Require Import StakingRun StakingSlash StakingExample JsonCodec ProofJson Ibc IbcModule IbcLaws IbcRun.

(** ** Amounts are not negative *)

Lemma parseDecimalAmountBig_nonneg number unit amount :
  0 ≤ Unit_Factor unit → parseDecimalAmountBig number unit = Ok amount → 0 ≤ amount.
Proof.
  intros Hf HP. unfold parseDecimalAmountBig in HP. result_inv HP.
  assert (∀ s, 0 ≤ big_of_string s) as Hn by (intros s; by apply big_digits_nonneg).
  repeat match goal with
         | H : context [match ?x with _ => _ end] |- _ => destruct x; cbn in H
         end; result_inv HP; subst; try done;
    repeat match goal with |- context [big_of_string ?s] => pose proof (Hn s); generalize dependent (big_of_string s) end;
    intros; nia.
Qed.

Lemma ParseAmountBig_nonneg input amount : ParseAmountBig input = Ok amount → 0 ≤ amount.
Proof.
  unfold ParseAmountBig. case_bool_decide; [done|]. destruct (decimalDigits _).
  { intros [= <-]. by apply big_digits_nonneg. }
  assert (Forall (λ unit, 0 ≤ Unit_Factor unit) Units) as HU by (by repeat constructor).
  induction HU as [|unit units Hu HU IH]; [done|]. cbn [parse_units].
  destruct (cut_suffix _ _); [by apply parseDecimalAmountBig_nonneg|exact IH].
Qed.

Lemma fee_nonneg tx : 0 ≤ metaFeeBig (ParseTxMeta tx).
Proof.
  unfold metaFeeBig, ParseTxMeta. cbn. destruct (TxAmountBigTag tx "fee") as [fee|] eqn:E; [|done]. cbn.
  unfold TxAmountBigTag in E. destruct (TxTag tx "fee") as [value|]; [|done]. cbn in E.
  destruct (ParseAmountBig value) eqn:EP; [|done]. injection E as <-. by eapply ParseAmountBig_nonneg.
Qed.

(** ** Issuing coins *)

(** The content after [d] coins were issued. *)
Definition issued (d : Z) (c c' : Content) : Prop :=
  staking_ok c' ∧ ∀ n, supply c n → supply c' (n + d).

Lemma issued_none c : staking_ok c → issued 0 c c.
Proof. intros Hc. split; [done|]. intros n. by rewrite Z.add_0_r. Qed.

Lemma issued_trans d d' c c' c'' : issued d c c' → issued d' c' c'' → issued (d + d') c c''.
Proof. intros [_ H1] [Hok H2]. split; [done|]. intros n Hn. rewrite Z.add_assoc. by apply H2, H1. Qed.

Lemma keeps_coins_issued c c' : keeps_coins c c' → issued 0 c c'.
Proof. intros [Hok Hs]. split; [done|]. intros n Hn. rewrite Z.add_0_r. by apply Hs. Qed.

Lemma issued_ext d c c' c'' : same_content c'' c' → issued d c c' → issued d c c''.
Proof.
  intros Hc [Hok Hs]. split; [by eapply staking_ok_ext; [symmetry; exact Hc|]|].
  intros n Hn. eapply total_ext; [symmetry; exact Hc|]. by apply Hs.
Qed.

(** A new balance for one account, and for two accounts that may be the same. *)
Lemma issued_balance c a x :
  staking_ok c → 0 ≤ x →
  issued (x - balance_of c a) c (write_content (mkWrite BankName (balanceKey a) (encodeBalanceBig x) false) c).
Proof.
  intros Hc Hx. split.
  - apply (staking_ok_harmless [mkWrite BankName (balanceKey a) (encodeBalanceBig x) false]); [all_harmless|done].
  - intros n Hn. apply (total_write _ coin_place_namespace (mkWrite BankName (balanceKey a) (encodeBalanceBig x) false)) in Hn.
    by rewrite gain_bank, encodeBalanceBig_decode in Hn.
Qed.

Lemma issued_transfer c a b amount :
  staking_ok c → 0 ≤ amount ≤ balance_of c a →
  issued (if decide (balanceKey a = balanceKey b) then amount else 0) c
    (writes_content
      [mkWrite BankName (balanceKey a) (encodeBalanceBig (balance_of c a - amount)) false;
       mkWrite BankName (balanceKey b) (encodeBalanceBig (balance_of c b + amount)) false] c).
Proof.
  intros Hc Ha. pose proof (key_balance_nonneg c (balanceKey b)) as Hb. unfold balance_of in *.
  pose proof (issued_balance c a (balance_of c a - amount) Hc) as H1. unfold balance_of in H1.
  specialize (H1 ltac:(lia)). set (w1 := mkWrite BankName (balanceKey a) _ false) in *.
  pose proof (issued_balance (write_content w1 c) b (balance_of c b + amount) (proj1 H1)) as H2.
  unfold balance_of in H2. specialize (H2 ltac:(lia)). pose proof (issued_trans _ _ _ _ _ H1 H2) as H12.
  unfold w1 in H12 at 1. rewrite key_balance_write, encodeBalanceBig_decode in H12 by lia.
  match type of H12 with issued ?d _ _ => replace (if decide (balanceKey a = balanceKey b) then amount else 0) with d end;
    [done|]. destruct (decide (balanceKey a = balanceKey b)) as [Heq|Hne].
  - rewrite decide_True, Heq by done. lia.
  - rewrite decide_False by (by intros [_ ?]). lia.
Qed.

(** Writes to other namespaces issue nothing. *)
Definition foreign (w : KVWrite) : Prop := KW_Namespace w ≠ BankName ∧ KW_Namespace w ≠ StakingName.

Lemma issued_foreign ws c : Forall foreign ws → staking_ok c → issued 0 c (writes_content ws c).
Proof.
  intros Hws Hc. assert (same_ledger c (writes_content ws c)) as Hl.
  { split; intros k; symmetry; apply writes_content_out; intros (w & Hw & Hin)%list_elem_of_fmap;
      rewrite Forall_forall in Hws; destruct (Hws w Hin); unfold write_key in Hw; naive_solver. }
  split; [by eapply staking_ok_ledger|]. intros n (mb & ms & Hb & Hs & ->). rewrite Z.add_0_r.
  destruct Hl as [Hlb Hls]. exists mb, ms. split_and!; [intros k; by rewrite <-Hlb|intros k; by rewrite <-Hls|done].
Qed.

Section stores.
Context {T : Type} `{LawfulSnapshot T} `{!BatchStore T}.

(** A store in good order after [d] coins were issued. *)
Definition after_issue (d : Z) (s s' : T) : Prop := store_ok s' ∧ issued d (content s) (content s').

Lemma after_issue_none s : store_ok s → staking_ok (content s) → after_issue 0 s s.
Proof. intros Hok Hst. split; [done|]. by apply issued_none. Qed.

Lemma after_issue_trans d d' s s' s'' : after_issue d s s' → after_issue d' s' s'' → after_issue (d + d') s s''.
Proof. intros [_ Hi] [Hok Hi']. split; [done|]. by eapply issued_trans. Qed.

Lemma good_store_issue s s' : good_store s s' → after_issue 0 s s'.
Proof. intros [Hok Hk]. split; [done|]. by apply keeps_coins_issued. Qed.

Context (s : T) (Hok : store_ok s) (Hst : staking_ok (content s)).

Lemma batch_issue ws d :
  Forall valid_write ws → issued d (content s) (writes_content ws (content s)) →
  ∃ s', apply_writes s None ws = (s', Ok tt) ∧ after_issue d s s'.
Proof.
  intros Hv Hi. rewrite apply_writes_op by done. eexists. split; [done|].
  destruct (run_ops_content s [OpBatch ws]) as [Hok' Hc]; [apply has_batch|done|by constructor|].
  cbn [mbind list_bind op_writes] in Hc. rewrite app_nil_r in Hc. split; [done|]. by eapply issued_ext.
Qed.

Lemma bankBalanceBig_Ok d x :
  d ≠ "" → bankBalanceBig s None d = Ok x → x = balance_of (content s) d.
Proof.
  intros Hd HB. unfold bankBalanceBig in HB. rewrite bankBalanceKey_eq, !Get_total in HB by auto.
  unfold balance_of, key_balance. destruct (content s BankName (balanceKey d)) as [v|] eqn:E; cbn in HB.
  - repeat case_bool_decide; try done; [|congruence]. injection HB as <-. by destruct v.
  - assert (content s BankName (bytes_of_string d) = None) as Hn
      by (destruct (ok_bank _ Hst d) as [Heq|Hn]; [by rewrite <-Heq|done]).
    rewrite Hn in HB. assert (Ok 0 = Ok x) as HB0 by exact HB. congruence.
Qed.

(** A fee creates coins when the payer is the collector. *)
Definition fee_issues (config : AnteConfig) (tx : Tx) : Z :=
  if isEthereumRawTx tx then 0
  else
    let meta := ParseTxMeta tx in
    if decide (balanceKey (Meta_Signer meta) = balanceKey (fee_collector config)) then metaFeeBig meta else 0.

Lemma collectFee_issues config meta s' r :
  0 ≤ metaFeeBig meta → collectFee config s None meta = (s', r) →
  after_issue
    (if is_ok r then
       if decide (balanceKey (Meta_Signer meta) = balanceKey (fee_collector config)) then metaFeeBig meta else 0
     else 0) s s'.
Proof.
  intros Hfee. unfold collectFee. destruct (fee_writes config s None meta) as [[ws|]|e] eqn:E.
  - pose proof (fee_writes_valid _ _ _ _ _ E) as Hv. unfold fee_writes in E. case_bool_decide; [done|].
    result_inv E. apply bool_decide_eq_true in E0. apply bankBalanceBig_Ok in E1 as ->; [|done].
    apply bankBalanceBig_Ok in E3 as ->; [|auto]. subst ws. rewrite !bankBalanceKey_eq in *. guard_inv E2.
    destruct (batch_issue _ _ Hv (issued_transfer (content s) (Meta_Signer meta) (fee_collector config) (metaFeeBig meta)
      Hst ltac:(lia))) as (s1 & -> & Hi). by intros [= <- <-].
  - unfold fee_writes in E. destruct (bool_decide (metaFeeBig meta = 0)) eqn:E0; [|by result_inv E].
    apply bool_decide_eq_true in E0. intros [= <- <-]. cbn [is_ok]. rewrite E0.
    destruct (decide _); by apply after_issue_none.
  - intros [= <- <-]. by apply after_issue_none.
Qed.

Lemma set_foreign ns k v s' r :
  ns ≠ BankName → ns ≠ StakingName → valid_namespace ns → k ≠ [] →
  store_Set s None ns k v = (s', r) → after_issue 0 s s'.
Proof.
  intros Hb Hs Hns Hk HS. apply Set_spec in HS as [Hok' Hc]; [|done..]. split; [done|].
  eapply issued_ext; [exact Hc|]. destruct (is_ok r); [|by apply issued_none].
  apply (issued_foreign [mkWrite ns k v false]); [|done]. by apply Forall_singleton.
Qed.

Lemma IndexBlock_foreign height txEvents s' r :
  IndexBlock s None height txEvents = (s', r) → after_issue 0 s s'.
Proof.
  unfold IndexBlock. destruct (index_block height 0 txEvents []) as [ws|e] eqn:E;
    [|intros [= <- <-]; by apply after_issue_none].
  destruct (bool_decide (ws = [])); [intros [= <- <-]; by apply after_issue_none|].
  pose proof (index_block_valid _ _ _ E) as Hv.
  destruct (batch_issue ws 0 Hv) as (s1 & -> & Hi); [|by intros [= <- <-]].
  apply issued_foreign; [|done]. apply index_block_own in E; [|done].
  eapply Forall_impl; [exact E|]. intros w [Hns _]. unfold foreign. by rewrite Hns.
Qed.
End stores.

Section fees.
Context {T : Type} `{LawfulSnapshot T} `{!BatchStore T}.

(** What a transaction creates after its delivery. *)
Lemma AfterTx_issues config (s : T) tx o r :
  store_ok s → staking_ok (content s) → Ante_AfterTx config (Some s) None tx = (o, r) →
  ∃ s', o = Some s' ∧ store_ok s' ∧ staking_ok (content s') ∧
    (is_ok r = true → after_issue (fee_issues config tx) s s').
Proof.
  intros Hok Hst. unfold Ante_AfterTx.
  destruct (if negb (isEthereumRawTx tx) then _ else _) as [s1 r1] eqn:E.
  assert (after_issue (if is_ok r1 then fee_issues config tx else 0) s s1) as Hi.
  { unfold fee_issues. destruct (isEthereumRawTx tx); cbn [negb] in E.
    - injection E as <- <-. by apply after_issue_none.
    - apply (collectFee_issues s Hok Hst) in E; [done|apply fee_nonneg]. }
  assert (∀ r' : result unit, (is_ok r' = true → is_ok r1 = true) →
    ∃ s', Some s1 = Some s' ∧ store_ok s' ∧ staking_ok (content s') ∧
      (is_ok r' = true → after_issue (fee_issues config tx) s s')) as Hdone.
  { intros r' Hr. exists s1. split_and!; [done|apply Hi|apply Hi|]. intros Hr'. by rewrite Hr in Hi. }
  destruct r1 as [u|e]; [|intros [= <- <-]; by apply Hdone].
  destruct (_ || _) eqn:Eg; [intros [= <- <-]; by apply Hdone|].
  destruct (_ && _); [intros [= <- <-]; by apply Hdone|]. clear Hdone.
  unfold Account_SetSequence. apply orb_false_iff in Eg as [-> _].
  destruct (store_Set s1 None AuthName _ _) as [s2 r2] eqn:Eset. intros [= <- <-].
  apply set_foreign in Eset; [|by auto; apply Hi..].
  pose proof (after_issue_trans _ _ _ _ _ Hi Eset) as Hi2. rewrite Z.add_0_r in Hi2.
  exists s2. split_and!; [done|apply Eset|apply Eset|done].
Qed.
End fees.

(** ** What a module promises about coins *)

(** A step leaves the name of a module as it was. *)
Class CoinModule (M : Type) `{LawfulModule M} := {
  (** the coins a payload creates when the module delivers it *)
  issues : M → Tx → Z;
  begin_coins `{LawfulSnapshot T} `{!BatchStore T} m actx (s : T) header m' o r :
    mod_ok m → actx_Ctx actx = None → store_ok s → staking_ok (content s) →
    mod_BeginBlock m actx (Some s) header = (m', o, r) →
    ∃ s', o = Some s' ∧ after_issue 0 s s' ∧ mod_Name m' = mod_Name m ∧ ∀ tx, issues m' tx = issues m tx;
  deliver_coins `{LawfulSnapshot T} `{!BatchStore T} m actx (s : T) gas tx m' o gas' r :
    mod_ok m → actx_Ctx actx = None → is_u64 (actx_Height actx) → store_ok s → staking_ok (content s) →
    mod_DeliverTx m actx (Some s) gas tx = (m', o, gas', r) →
    ∃ s', o = Some s' ∧ after_issue (if bool_decide (Result_Code r = 0) then issues m tx else 0) s s' ∧
      mod_Name m' = mod_Name m ∧ ∀ tx, issues m' tx = issues m tx;
  end_coins `{LawfulSnapshot T} `{!BatchStore T} m actx (s : T) m' o r :
    mod_ok m → actx_Ctx actx = None → store_ok s → staking_ok (content s) →
    mod_EndBlock m actx (Some s) = (m', o, r) →
    ∃ s', o = Some s' ∧ after_issue 0 s s' ∧ mod_Name m' = mod_Name m ∧ ∀ tx, issues m' tx = issues m tx
}.

(** ** The bank *)

(** A mint creates its amount, and so does a payment to oneself. *)
Definition bank_issues (tx : Tx) : Z :=
  match bankTxParts tx with
  | [_; _; _; value] => match bank_parseAmountBig value with Ok amount => amount | Err _ => 0 end
  | [_; _; from; to; value] =>
      if decide (balanceKey from = balanceKey to)
      then match bank_parseAmountBig value with Ok amount => amount | Err _ => 0 end
      else 0
  | _ => 0
  end.

Section bank.
Context {T : Type} `{LawfulSnapshot T} `{!BatchStore T}.
Context (s : T) (Hok : store_ok s) (Hst : staking_ok (content s)).

Lemma mint_issues to amount s' r :
  mint s None to amount = (s', r) → after_issue (if is_ok r then amount else 0) s s'.
Proof.
  unfold mint, setBalanceBig. destruct (_ || _) eqn:Eg; [intros [= <- <-]; by apply after_issue_none|].
  apply orb_false_iff in Eg as [Hto%bool_decide_eq_false Ha%bool_decide_eq_false].
  destruct (BalanceBig s None to) as [balance|e] eqn:E; [|intros [= <- <-]; by apply after_issue_none].
  apply BalanceBig_Ok in E as [-> [Hb _]]; [|done|done|done|apply Hst].
  destruct (bool_decide _); [intros [= <- <-]; by apply after_issue_none|].
  destruct (_ || _); [intros [= <- <-]; by apply after_issue_none|].
  intros HS. apply Set_spec in HS as [Hok' Hc]; [|auto..]. split; [done|]. eapply issued_ext; [exact Hc|].
  destruct (is_ok r); [|by apply issued_none].
  replace amount with (balance_of (content s) to + amount - balance_of (content s) to) at 1 by lia.
  apply issued_balance; [done|lia].
Qed.

Lemma send_issues from to amount s' r :
  send s None from to amount = (s', r) →
  after_issue (if is_ok r then if decide (balanceKey from = balanceKey to) then amount else 0 else 0) s s'.
Proof.
  intros HS. apply send_spec in HS as [Hok' Hr]; [|done|done|apply has_batch|apply Hst..].
  split; [done|]. destruct r as [u|e].
  - destruct Hr as (Hf & Ht & Ha & _ & Hc). eapply issued_ext; [exact Hc|]. apply issued_transfer; [done|lia].
  - eapply issued_ext; [exact Hr|]. by apply issued_none.
Qed.
End bank.

Lemma Bank_DeliverTx_issues {T} `{LawfulSnapshot T} `{!BatchStore T} error_text module (s : T) gas tx o gas' r :
  store_ok s → staking_ok (content s) →
  Bank_DeliverTx error_text module (Some s) gas None tx = (o, gas', r) →
  ∃ s', o = Some s' ∧ after_issue (if bool_decide (Result_Code r = 0) then bank_issues tx else 0) s s'.
Proof.
  intros Hok Hst. pose proof (after_issue_none s Hok Hst) as Hnone. unfold Bank_DeliverTx, bank_issues.
  assert (∀ g code text i, code ≠ 0 → (Some s, g, result_code code text) = (o, gas', r) →
    ∃ s', o = Some s' ∧ after_issue (if bool_decide (Result_Code r = 0) then i else 0) s s') as Hfail.
  { intros g code text i Hc [= <- <- <-]. exists s. split; [done|]. cbn. by rewrite bool_decide_eq_false_2. }
  destruct (bankTxParts tx) as [|name rest]; [by apply Hfail|].
  destruct (bool_decide (name ≠ BankName)); [by apply Hfail|].
  destruct rest as [|action [|a [|b [|c [|? ?]]]]]; try by apply Hfail.
  - destruct (bool_decide (action = "mint")); [|by apply Hfail].
    destruct (Gas_Consume gas mintGasCost) as [g [u|e]]; [|by apply Hfail].
    destruct (bank_parseAmountBig b) as [amount|e]; [|by apply Hfail].
    destruct (authorizeMint module tx); [|by apply Hfail].
    destruct (mint s None a amount) as [s1 r1] eqn:E. apply mint_issues in E; [|done..].
    destruct r1; intros [= <- <- <-]; by exists s1.
  - destruct (bool_decide (action = "send")); [|by apply Hfail].
    destruct (Gas_Consume gas sendGasCost) as [g [u|e]]; [|by apply Hfail].
    destruct (bank_parseAmountBig c) as [amount|e]; [|by apply Hfail].
    destruct (send s None a b amount) as [s1 r1] eqn:E. apply send_issues in E; [|done..].
    destruct r1; intros [= <- <- <-]; by exists s1.
Qed.

#[global] Program Instance bank_coins (error_text : error → string) (order : MapOrder string bytes)
    : CoinModule (H := bank_lawful error_text order) BankModule := {| issues _ := bank_issues |}.
Next Obligation.
  cbn. intros ?? T ?????? m actx s header m' o r _ _ Hok Hst [= <- <- _].
  exists s. split_and!; [done|by apply after_issue_none|done|done].
Qed.
Next Obligation.
  cbn [mod_DeliverTx bank_ops]. intros error_text order T ?????? m actx s gas tx m' o gas' r _ Hctx _ Hok Hst.
  rewrite Hctx. destruct (Bank_DeliverTx _ _ _ _ _ _) as [[o1 g1] r1] eqn:E. intros [= <- <- <- <-].
  apply Bank_DeliverTx_issues in E as (s' & -> & Hi); [|done..]. by exists s'.
Qed.
Next Obligation.
  cbn. intros ?? T ?????? m actx s m' o r _ _ Hok Hst [= <- <- _].
  exists s. split_and!; [done|by apply after_issue_none|done|done].
Qed.

(** ** Staking *)

Lemma issue_zero {T} `{LawfulSnapshot T} (b : bool) (s s' : T) : after_issue 0 s s' → after_issue (if b then 0 else 0) s s'.
Proof. by destruct b. Qed.

#[global] Program Instance staking_coins (error_text : error → string)
    (genesis_order : MapOrder string bytes) (order : MapOrder string Z)
    : CoinModule (H := staking_lawful error_text genesis_order order) StakingModule := {| issues _ _ := 0 |}.
Next Obligation.
  cbn. intros ??? T ?????? m actx s header m' o r _ _ Hok Hst [= <- <- _].
  exists s. split_and!; [done|by apply after_issue_none|done|done].
Qed.
Next Obligation.
  cbn [mod_DeliverTx staking_ops]. intros error_text ? order T ?????? m actx s gas tx m' o gas' r Hm Hctx Hh Hok Hst.
  rewrite Hctx. intros HD.
  apply Staking_DeliverTx_good in HD as (s' & -> & _ & Hi%good_store_issue); [|done..].
  exists s'. split_and!; [done|by apply issue_zero|done|done].
Qed.
Next Obligation.
  cbn [mod_EndBlock staking_ops]. intros error_text ? order T ?????? m actx s m' o r Hm Hctx Hok Hst.
  rewrite Hctx. destruct (Staking_EndBlock order m (Some s) None) as [o1 r1] eqn:E. intros [= <- <- <-].
  apply Staking_EndBlock_good in E as (s' & -> & Hi%good_store_issue); [|done..]. by exists s'.
Qed.

(** ** Inter-chain packets *)

Lemma sim_refl {T} `{LawfulSnapshot T} (s : T) : store_ok s → store_sim s s.
Proof. by intros Hok. Qed.

Lemma ibc_changes_foreign u h v ops : ibc_changes u h v ops → Forall foreign (ops ≫= op_writes).
Proof.
  revert v. induction ops as [|op ops IH]; intros v; [done|]. cbn [ibc_changes mbind list_bind]. intros [H1 H2].
  apply Forall_app. split; [|by eapply IH]. eapply Forall_impl; [by eapply ibc_change_own|].
  intros w [Hn _]. unfold foreign. by rewrite Hn.
Qed.

Lemma ibc_changes_issue {T} `{LawfulSnapshot T} `{!BatchStore T} u h (s : T) ops :
  store_ok s → staking_ok (content s) → Forall valid_op ops → ibc_changes u h (content s IbcNamespace) ops →
  after_issue 0 s (run_ops s ops).
Proof.
  intros Hok Hst Hv Hc. destruct (run_ops_content s ops) as [Hok' HR]; [apply has_batch|done..|].
  split; [done|]. eapply issued_ext; [exact HR|]. apply issued_foreign; [|done]. by eapply ibc_changes_foreign.
Qed.

#[global] Program Instance ibc_coins (error_text : error → string) (order : MapOrder string bytes)
    : CoinModule (H := ibc_lawful error_text order) IbcModule := {| issues _ _ := 0 |}.
Next Obligation.
  cbn [mod_BeginBlock ibc_ops]. intros error_text order T ?????? m actx s header m' o r _ Hctx Hok Hst.
  rewrite Hctx. unfold Ibc_BeginBlock.
  set (height := if bool_decide (Header_Height header = 0) then actx_Height actx else Header_Height header).
  destruct (bool_decide (height = 0)).
  { intros [= <- <- <-]. exists s. split_and!; [done|by apply after_issue_none|done|done]. }
  destruct (begin_run false 0 height s s (sim_refl s Hok)) as (ops & r' & Hv & Hc & -> & _). intros [= <- <- <-].
  eexists. split_and!; [done|by eapply ibc_changes_issue|done|done].
Qed.
Next Obligation.
  cbn [mod_DeliverTx ibc_ops]. intros error_text order T ?????? m actx s gas tx m' o gas' r _ Hctx _ Hok Hst.
  rewrite Hctx. unfold Ibc_DeliverTx.
  destruct (ParseCanonicalTx tx) as [canonical|e]; [case_bool_decide|].
  - destruct (deliver_action_run error_text false (actx_Height actx) s s (sim_refl s Hok) gas (CTx_Action canonical)
      (CTx_Args canonical) (CTx_Tags canonical)) as (ops & g & res & Hv & Hc & -> & _); [done|].
    intros [= <- <- <- <-]. eexists. split_and!; [done|by eapply issue_zero, ibc_changes_issue|done|done].
  - intros [= <- <- <- <-]. exists s. split_and!; [done|by apply issue_zero, after_issue_none|done|done].
  - intros [= <- <- <- <-]. exists s. split_and!; [done|by apply issue_zero, after_issue_none|done|done].
Qed.
Next Obligation.
  cbn [mod_EndBlock ibc_ops]. intros error_text order T ?????? m actx s m' o r _ Hctx Hok Hst.
  rewrite Hctx. unfold Ibc_EndBlock. case_bool_decide.
  { intros [= <- <- <-]. exists s. split_and!; [done|by apply after_issue_none|done|done]. }
  destruct (sweepExpiredPackets_run false (actx_Height actx) s s (sim_refl s Hok)) as (ops & r' & Hv & Hc & -> & _).
  intros [= <- <- <-]. eexists. split_and!; [done|by eapply ibc_changes_issue|done|done].
Qed.

#[global] Program Instance sum_coins {M1 M2} `{CoinModule M1} `{CoinModule M2} : CoinModule (M1 + M2) := {|
  issues m := match m with inl m => issues m | inr m => issues m end
|}.
Next Obligation.
  intros M1 M2 ?????? T ?????? [m|m] actx s header m' o r Hm Hctx Hok Hst; cbn [mod_BeginBlock sum_ops];
    destruct (mod_BeginBlock m actx (Some s) header) as [[m1 o1] r1] eqn:E; intros [= <- <- <-];
    apply begin_coins in E; done.
Qed.
Next Obligation.
  intros M1 M2 ?????? T ?????? [m|m] actx s gas tx m' o gas' r Hm Hctx Hh Hok Hst; cbn [mod_DeliverTx sum_ops];
    destruct (mod_DeliverTx m actx (Some s) gas tx) as [[[m1 o1] g1] r1] eqn:E; intros [= <- <- <- <-];
    apply deliver_coins in E; done.
Qed.
Next Obligation.
  intros M1 M2 ?????? T ?????? [m|m] actx s m' o r Hm Hctx Hok Hst; cbn [mod_EndBlock sum_ops];
    destruct (mod_EndBlock m actx (Some s)) as [[m1 o1] r1] eqn:E; intros [= <- <- <-];
    apply end_coins in E; done.
Qed.

(** ** Blocks *)

Section blocks.
Context {M T : Type} `{CoinModule M} `{LawfulSnapshot T} `{!BatchStore T}.
Context (ed25519_Verify : PublicKey → bytes → Signature → bool).

(** Modules with the same names that create the same coins. *)
Definition same_module (m m' : M) : Prop := mod_Name m' = mod_Name m ∧ ∀ tx, issues m' tx = issues m tx.

#[global] Instance same_module_preorder : PreOrder same_module.
Proof.
  split; [by split|]. intros m1 m2 m3 [Hn Hi] [Hn' Hi']. split; [congruence|].
  intros tx. by rewrite Hi', Hi.
Qed.

Lemma same_modules_refl ms : Forall2 same_module ms ms.
Proof. by apply Forall_Forall2_diag, Forall_true. Qed.

(** The coins a transaction creates: by its payload, and by its fee. *)
Definition tx_issues (router : Router) (ante : option AnteConfig) (ms : list M) (tx : Tx) : Z :=
  match RouteTx router (TxPayload tx) ms with
  | Ok index => from_option (λ m, issues m (TxPayload tx)) 0 (ms !! index)
  | Err _ => 0
  end + from_option (λ config, fee_issues config tx) 0 ante.

Lemma find_module_same name ms ms' i :
  Forall2 same_module ms ms' → find_module name ms' i = find_module name ms i.
Proof.
  intros Hs. revert i. induction Hs as [|m m' ms ms' [Hn _] _ IH]; intros i; [done|]. cbn [find_module].
  by rewrite Hn, IH.
Qed.

Lemma RouteTx_same router tx ms ms' : Forall2 same_module ms ms' → RouteTx router tx ms' = RouteTx router tx ms.
Proof.
  intros Hs. unfold RouteTx. destruct router.
  - by destruct Hs.
  - destruct (str_cut _ _) as [[name rest]|]; [|done]. by rewrite (find_module_same name ms ms').
Qed.

Lemma tx_issues_same router ante ms ms' tx :
  Forall2 same_module ms ms' → tx_issues router ante ms' tx = tx_issues router ante ms tx.
Proof.
  intros Hs. unfold tx_issues. rewrite (RouteTx_same router _ ms ms') by done.
  destruct (RouteTx router (TxPayload tx) ms) as [i|]; [|done].
  destruct (ms !! i) as [m|] eqn:E.
  - destruct (Forall2_lookup_l _ _ _ _ _ Hs E) as (m' & -> & _ & Hi). cbn. by rewrite Hi.
  - apply lookup_ge_None in E. rewrite (Forall2_length _ _ _ Hs) in E. by rewrite (lookup_ge_None_2 ms').
Qed.

Lemma txs_issues_same router ante ms ms' (txs : list Tx) :
  Forall2 same_module ms ms' → tx_issues router ante ms' <$> txs = tx_issues router ante ms <$> txs.
Proof. intros Hs. apply list_fmap_ext. intros ? x _. by apply tx_issues_same. Qed.

(** What a part of a block leaves behind. *)
Definition block_part (ms : list M) (d : Z) (s : T) (ms' : list M) (o : option T) : Prop :=
  ∃ s', o = Some s' ∧ after_issue d s s' ∧ Forall mod_ok ms' ∧ Forall2 same_module ms ms'.

Lemma block_part_none ms s :
  Forall mod_ok ms → store_ok s → staking_ok (content s) → block_part ms 0 s ms (Some s).
Proof. intros Hm Hok Hst. exists s. split_and!; [done|by apply after_issue_none|done|apply same_modules_refl]. Qed.

Lemma block_part_trans ms d s ms' s' d' ms'' o :
  block_part ms d s ms' (Some s') → block_part ms' d' s' ms'' o → block_part ms (d + d') s ms'' o.
Proof.
  intros (? & [= <-] & Hi & _ & Hs) (s'' & -> & Hi' & Hm & Hs'). exists s''.
  split_and!; [done|by eapply after_issue_trans|done|by etrans].
Qed.

Context (actx : AppContext) (Hctx : actx_Ctx actx = None).

Lemma block_part_cons m m1 ms ms' s s1 o :
  mod_ok m1 → same_module m m1 → after_issue 0 s s1 → block_part ms 0 s1 ms' o →
  block_part (m :: ms) 0 s (m1 :: ms') o.
Proof.
  intros Hm Hs Hi (s' & -> & Hi' & Hms & Hss). exists s'.
  split_and!; [done|exact (after_issue_trans 0 0 _ _ _ Hi Hi')|by constructor|by constructor].
Qed.

Lemma begin_blocks_coins header ms s ms' o r :
  Forall mod_ok ms → store_ok s → staking_ok (content s) →
  begin_blocks actx header ms (Some s) = (ms', o, r) → block_part ms 0 s ms' o.
Proof.
  intros Hms. revert s ms' o r. induction Hms as [|m ms Hm Hms IH]; intros s ms' o r Hok Hst; cbn [begin_blocks].
  { intros [= <- <- _]. by apply block_part_none. }
  destruct (begin_alike m actx s s header Hm Hctx (sim_refl s Hok)) as (m1 & o1 & _ & r1 & E & _ & Hm1 & _).
  rewrite E. apply begin_coins in E as (s1 & -> & Hi & Hs); [|done..].
  destruct r1 as [u|e]; [|intros [= <- <- _]; eapply block_part_cons, block_part_none; by try apply Hi].
  destruct (begin_blocks actx header ms (Some s1)) as [[ms2 o2] r2] eqn:E2. intros [= <- <- _].
  apply IH in E2; [|apply Hi..]. by eapply block_part_cons.
Qed.

Lemma end_blocks_coins ms s ms' o r :
  Forall mod_ok ms → store_ok s → staking_ok (content s) →
  end_blocks actx ms (Some s) = (ms', o, r) → block_part ms 0 s ms' o.
Proof.
  intros Hms. revert s ms' o r. induction Hms as [|m ms Hm Hms IH]; intros s ms' o r Hok Hst; cbn [end_blocks].
  { intros [= <- <- _]. by apply block_part_none. }
  destruct (end_alike m actx s s Hm Hctx (sim_refl s Hok)) as (m1 & o1 & _ & r1 & E & _ & Hm1 & _).
  rewrite E. apply end_coins in E as (s1 & -> & Hi & Hs); [|done..].
  destruct r1 as [u|e]; [|intros [= <- <- _]; eapply block_part_cons, block_part_none; by try apply Hi].
  destruct (end_blocks actx ms (Some s1)) as [[ms2 o2] r2] eqn:E2. intros [= <- <- _].
  apply IH in E2; [|apply Hi..]. by eapply block_part_cons.
Qed.

Context (Hh : is_u64 (actx_Height actx)).

Lemma deliver_tx_coins router ante ms s tx ms' o r :
  Forall mod_ok ms → store_ok s → staking_ok (content s) →
  deliver_tx ed25519_Verify router ante actx ms (Some s) tx = (ms', o, r) → is_ok r = true →
  block_part ms (tx_issues router ante ms tx) s ms' o.
Proof.
  intros Hms Hok Hst. unfold deliver_tx, tx_issues.
  destruct (before_tx _ _ _ _ _) as [gas|e]; [|by intros [= <- <- <-]]. cbn [mbind result_bind].
  destruct (RouteTx router (TxPayload tx) ms) as [i|e]; [|by intros [= <- <- <-]]. cbn [mbind result_bind].
  destruct (ms !! i) as [m|] eqn:Em; [|by intros [= <- <- <-]]. pose proof (Forall_lookup_1 _ _ _ _ Hms Em) as Hm.
  destruct (deliver_alike m actx s s gas (TxPayload tx) Hm Hctx (sim_refl s Hok)) as (m1 & o1 & _ & g1 & r1 & E & _ & Hm1 & _).
  rewrite E. apply deliver_coins in E as (s1 & -> & Hi & Hs); [|done..].
  destruct (decide (Result_Code r1 = 0)) as [Hr|Hr]; [|by rewrite bool_decide_eq_true_2; [intros [= <- <- <-]|]].
  rewrite bool_decide_eq_true_2 in Hi by done. rewrite bool_decide_eq_false_2 by (by intros ?).
  assert (Forall2 same_module ms (<[i := m1]> ms)) as Hsame.
  { rewrite <-(list_insert_id ms i m Em) at 1. apply Forall2_insert; [apply same_modules_refl|done]. }
  assert (∀ d s2, after_issue d s1 s2 →
    block_part ms (issues m (TxPayload tx) + d) s (<[i := m1]> ms) (Some s2)) as Hdone.
  { intros d s2 Hi2. exists s2. split_and!; [done|by eapply after_issue_trans|by apply Forall_insert|done]. }
  unfold after_tx. rewrite Hctx. cbn [from_option]. destruct ante as [config|]; cbn [from_option].
  - destruct (Ante_AfterTx config (Some s1) None tx) as [o2 r2] eqn:EA.
    apply AfterTx_issues in EA as (s2 & -> & _ & _ & Hi2); [|apply Hi..].
    destruct r2; [|by intros [= <- <- <-]]. intros [= <- <- <-] _. by apply Hdone, Hi2.
  - intros [= <- <- <-] _. apply Hdone, after_issue_none; apply Hi.
Qed.

Lemma deliver_txs_coins router ante ms s txs ms' o r :
  Forall mod_ok ms → store_ok s → staking_ok (content s) →
  deliver_txs ed25519_Verify router ante actx ms (Some s) txs = (ms', o, r) → is_ok r = true →
  block_part ms (sumZ (tx_issues router ante ms <$> txs)) s ms' o.
Proof.
  revert ms s ms' o r. induction txs as [|tx txs IH]; intros ms s ms' o r Hms Hok Hst; cbn [deliver_txs].
  { intros [= <- <- <-] _. by apply block_part_none. }
  destruct (deliver_tx _ _ _ _ _ _ _) as [[ms1 o1] r1] eqn:E.
  destruct r1 as [delivered|e]; [|by intros [= <- <- <-]].
  apply deliver_tx_coins in E as Hp; [|done..]. pose proof Hp as (s1 & -> & Hi & Hms1 & Hs1).
  destruct (deliver_txs _ _ _ _ _ _ _) as [[ms2 o2] r2] eqn:E2. intros [= <- <- <-] Hr.
  apply IH in E2; [|done|apply Hi|apply Hi|by destruct r2]. cbn [fmap list_fmap]. rewrite sumZ_cons.
  eapply block_part_trans; [exact Hp|].
  by rewrite <-(txs_issues_same router ante ms ms1).
Qed.
End blocks.

(** ** Chains *)

Section chains.
Context {M T : Type} `{CoinModule M} `{LawfulSnapshot T} `{!BatchStore T} `{!RootStore T}.
Context (error_text : error → string) (ed25519_Verify : PublicKey → bytes → Signature → bool).

Lemma execute_block_coins (rt : Runtime M T) block s ms o r :
  Forall mod_ok (rt_modules rt) → is_u64 (Header_Height (Block_Header block)) →
  store_ok s → staking_ok (content s) →
  execute_block ed25519_Verify rt None block (Some s) = (ms, o, r) → is_ok r = true →
  block_part (rt_modules rt) (sumZ (tx_issues (rt_router rt) (rt_ante rt) (rt_modules rt) <$> Block_Txs block)) s ms o.
Proof.
  intros Hms Hh Hok Hst. unfold execute_block. set (actx := newContext rt None _ _).
  destruct (begin_blocks actx _ _ _) as [[ms1 o1] r1] eqn:E1. apply begin_blocks_coins in E1 as Hp1; [|done..].
  destruct r1 as [u|e]; [|by intros [= <- <- <-]]. pose proof Hp1 as (s1 & -> & Hi1 & Hms1 & Hs1).
  destruct (deliver_txs _ _ _ _ _ _ _) as [[ms2 o2] r2] eqn:E2.
  destruct r2 as [delivered|e]; [|by intros [= <- <- <-]].
  apply deliver_txs_coins in E2 as Hp2; [|done..|apply Hi1|apply Hi1|done].
  pose proof Hp2 as (s2 & -> & Hi2 & Hms2 & Hs2).
  destruct (end_blocks _ _ _) as [[ms3 o3] r3] eqn:E3.
  apply end_blocks_coins in E3 as Hp3; [|done..|apply Hi2|apply Hi2].
  destruct r3 as [u3|e]; [|by intros [= <- <- <-]]. pose proof Hp3 as (s3 & -> & Hi3 & Hms3 & Hs3).
  destruct (index_store _ _ _ _) as [o4 r4] eqn:E4. destruct r4 as [u4|e]; [|by intros [= <- <- <-]].
  intros [= <- <- <-] _.
  assert (block_part ms3 0 s3 ms3 o4) as Hp4.
  { unfold index_store in E4. destruct store_Root; [|injection E4 as <-; apply block_part_none; [done|apply Hi3..]].
    destruct (IndexBlock _ _ _ _) as [s4 r4] eqn:E5. injection E4 as <- _.
    apply IndexBlock_foreign in E5; [|apply Hi3..]. exists s4. split_and!; [done..|apply same_modules_refl]. }
  pose proof (block_part_trans _ _ _ _ _ _ _ _ (block_part_trans _ _ _ _ _ _ _ _
    (block_part_trans _ _ _ _ _ _ _ _ Hp1 Hp2) Hp3) Hp4) as Hp.
  rewrite !Z.add_0_r, Z.add_0_l in Hp.
  by rewrite <-(txs_issues_same _ _ (rt_modules rt) ms1).
Qed.

(** The blocks a runtime finalized, one after the other. *)
Inductive chain : Runtime M T → list Block → Runtime M T → Prop :=
| chain_nil rt : chain rt [] rt
| chain_block rt block rt1 response blocks rt2 :
    is_u64 (Header_Height (Block_Header block)) →
    FinalizeBlock error_text ed25519_Verify rt None block = (rt1, Ok response) →
    chain rt1 blocks rt2 → chain rt (block :: blocks) rt2.

(** C34: The supply of coins over a chain.  Any chain of finalized blocks, with
    any transactions of the bank and of staking, with fees and their
    distribution, changes the sum of all balances, stakes, unbondings and
    rewards by exactly the coins the transactions created: minted amounts,
    payments of an account to itself, and fees the collector pays to itself.
    All other transactions, fees and block ends move coins only. *)
Theorem chain_supply rt blocks rt' s n :
  chain rt blocks rt' → Forall mod_ok (rt_modules rt) → rt_store rt = Some s →
  store_ok s → staking_ok (content s) → supply (content s) n →
  ∃ s', rt_store rt' = Some s' ∧ store_ok s' ∧ staking_ok (content s') ∧
    supply (content s')
      (n + sumZ (tx_issues (rt_router rt) (rt_ante rt) (rt_modules rt) <$> (blocks ≫= Block_Txs))).
Proof.
  intros Hchain. revert s n. induction Hchain as [rt|rt block rt1 response blocks rt2 Hh HF Hchain IH];
    intros s n Hms Hrt Hok Hst Hn.
  { exists s. split_and!; [done..|]. cbn. change (sumZ []) with 0. by rewrite Z.add_0_r. }
  unfold FinalizeBlock in HF. destruct (accept_block _ _ _ _ _); [|done]. rewrite Hrt in HF.
  destruct (execute_block _ _ _ _ _) as [[ms o] r] eqn:E. destruct r as [resp|e]; [|done]. injection HF as <- _.
  apply execute_block_coins in E as (s1 & -> & [Hok1 [Hst1 Hn1]] & Hms1 & Hs1); [|done..].
  destruct (IH s1 _ Hms1 eq_refl Hok1 Hst1 (Hn1 n Hn)) as (s2 & Hrt2 & Hok2 & Hst2 & Hn2).
  exists s2. split_and!; [done..|]. cbn [mbind list_bind]. rewrite fmap_app, sumZ_app, Z.add_assoc.
  cbn [rt_router rt_ante rt_modules rt_set_store rt_set_modules CommitStagedBlock] in Hn2.
  by rewrite <-(txs_issues_same _ _ (rt_modules rt) ms (blocks ≫= Block_Txs)).
Qed.
End chains.

(** ** A block of both modules *)

Module SupplyExample.
Import BankExample AnteExample BlockExample StakingExample.
#[local] Existing Instance leveldb_roots.
#[local] Existing Instance plain_bank.
#[local] Existing Instance plain_bank_lawful.
#[export] Instance plain_staking : ModuleOps StakingModule := staking_ops plain_text canonical_order canonical_order.
#[export] Instance plain_staking_lawful : LawfulModule StakingModule :=
  staking_lawful plain_text canonical_order canonical_order.
#[export] Instance plain_bank_coins : CoinModule BankModule := bank_coins plain_text canonical_order.
#[export] Instance plain_staking_coins : CoinModule StakingModule :=
  staking_coins plain_text canonical_order canonical_order.

Definition both_runtime : Runtime (BankModule + StakingModule) (gmap bytes bytes) :=
  mkRuntime "vexo" 0 [inl (mkBankModule ""); inr policy] PrefixRouter (Some open_config) (Some bank0) 0 zero_hash 0 0.

(** Alice pays three coins to bob, stakes two, and pays one to itself. *)
Definition both_block : Block :=
  mkBlock pay_header
    [pay "1"; bytes_of_string "staking:delegate:alice:val:2:a2V5:fee=1:signer=alice:nonce=2";
     bytes_of_string "bank:send:alice:alice:1:fee=1:signer=alice:nonce=3"].

Lemma both_finalized : is_ok (FinalizeBlock plain_text no_verify both_runtime None both_block).2 = true.
Proof. vm_compute. reflexivity. Qed.

(** There are eleven coins after the block: the payment to itself made one. *)
Lemma chain_supply_witness :
  ∃ rt' s', chain plain_text no_verify both_runtime [both_block] rt' ∧ rt_store rt' = Some s' ∧
    supply (content s') 11.
Proof.
  pose proof both_finalized as Hok.
  destruct (FinalizeBlock plain_text no_verify both_runtime None both_block) as [rt' [response|e]] eqn:E; [|discriminate Hok].
  assert (chain plain_text no_verify both_runtime [both_block] rt') as Hc.
  { eapply chain_block; [|exact E|apply chain_nil]. split; [discriminate|reflexivity]. }
  destruct (chain_supply plain_text no_verify both_runtime [both_block] rt' bank0 10 Hc) as (s' & Hrt & _ & _ & Hsup).
  - repeat constructor; apply policy_ok.
  - reflexivity.
  - exact I.
  - exact bank0_ok.
  - exact bank0_supply.
  - exists rt', s'. split; [exact Hc|]. split; [exact Hrt|].
    replace 11 with (10 + sumZ (tx_issues (rt_router both_runtime) (rt_ante both_runtime) (rt_modules both_runtime) <$>
      ([both_block] ≫= Block_Txs))) by (vm_compute; reflexivity). exact Hsup.
Defined.
End SupplyExample.
