(* ===== verification/Timeouts.v ===== *)
(** * Pacemaker and timeout certificates ([src/consensus/pacemaker.go],
    [src/consensus/timeout.go])

    The collector keeps one timeout vote per height, round and validator and
    builds a certificate from the votes of a round; the pacemaker moves to the
    round after a certified timeout.  The order in which Go ranges over a map
    of votes is a parameter. *)

From S2P Require Import Prelude GoLib Sha256 Types Validator SignBytes BlockTree Evidence.

Definition ErrStaleTimeoutCert := ErrNew "consensus.ErrStaleTimeoutCert".
Definition ErrConflictingTimeoutVote := ErrNew "consensus.ErrConflictingTimeoutVote".
Definition ErrUnknownValidator := ErrNew "consensus.ErrUnknownValidator".
Definition ErrNoQuorum := ErrNew "consensus.ErrNoQuorum".
Definition ErrAggregateRequired := ErrNew "consensus.ErrAggregateRequired".
Definition ErrMissingSignature := ErrNew "consensus.ErrMissingSignature".

(** The interface [aggregateSigner]. *)
Abbreviation Aggregator := (option (list Signature → result AggregateSignature)).

(** ** Pacemaker *)

Record Pacemaker := mkPacemaker {
  pm_height : Height;
  pm_round : Round
}.

Definition NewPacemaker (height : Height) (round : Round) : Pacemaker := mkPacemaker height round.

Definition AdvanceRound (pacemaker : Pacemaker) (timeoutCert : TimeoutCert) : result Pacemaker :=
  if bool_decide (TC_Height timeoutCert < pm_height pacemaker) then Err ErrStaleTimeoutCert
  else if bool_decide (pm_height pacemaker < TC_Height timeoutCert)
  then Ok (mkPacemaker (TC_Height timeoutCert) (wrap64 (TC_Round timeoutCert + 1)))
  else if bool_decide (TC_Round timeoutCert < pm_round pacemaker) then Err ErrStaleTimeoutCert
  else Ok (mkPacemaker (pm_height pacemaker) (wrap64 (TC_Round timeoutCert + 1))).

Definition AdvanceHeight (pacemaker : Pacemaker) (height : Height) : Pacemaker :=
  if bool_decide (pm_height pacemaker < height) then mkPacemaker height 0 else pacemaker.

(** ** Nested maps *)

(** [if _, found := m[k]; !found { m[k] = make(...) }] *)
Definition ensure {K V} `{Countable K} (k : K) (d : V) (m : gmap K V) : gmap K V :=
  match m !! k with Some _ => m | None => <[k := d]> m end.

Lemma lookup_ensure {K V} `{Countable K} (k k' : K) (d : V) m :
  ensure k d m !! k' = if decide (k = k') then Some (default d (m !! k)) else m !! k'.
Proof.
  unfold ensure. destruct (m !! k) as [v|] eqn:E; case_decide; subst; simpl;
    rewrite ?lookup_insert_eq, ?lookup_insert_ne by done; done.
Qed.

(** An update under a key that was just ensured. *)
Lemma lookup_alter_ensure {K V} `{Countable K} (k k' : K) (d : V) f m :
  alter f k (ensure k d m) !! k' =
  if decide (k = k') then Some (f (default d (m !! k))) else m !! k'.
Proof.
  rewrite lookup_alter, !lookup_ensure. case_decide; [subst|done]. by rewrite decide_True.
Qed.

(** ** Timeout collector *)

Abbreviation TimeoutVotes := (gmap Height (gmap Round (gmap ValidatorID TimeoutVote))).

Record TimeoutCollector := mkTimeoutCollector {
  tc_validatorSet : ValidatorSet;
  tc_aggregator : Aggregator;
  tc_votes : TimeoutVotes
}.

Definition NewTimeoutCollectorWithAggregator (vs : ValidatorSet) (aggregator : Aggregator)
    : TimeoutCollector := mkTimeoutCollector vs aggregator ∅.

Definition tc_set_votes (collector : TimeoutCollector) (votes : TimeoutVotes) : TimeoutCollector :=
  mkTimeoutCollector (tc_validatorSet collector) (tc_aggregator collector) votes.

Definition votesForRound (collector : TimeoutCollector) (height : Height) (round : Round)
    : gmap ValidatorID TimeoutVote :=
  match tc_votes collector !! height with
  | None => ∅
  | Some rounds => default ∅ (rounds !! round)
  end.

(** [TimeoutCollector.ensureMaps] *)
Definition timeout_ensureMaps (votes : TimeoutVotes) (height : Height) (round : Round)
    : TimeoutVotes :=
  alter (ensure round ∅) height (ensure height ∅ votes).

(** [TimeoutCollector.AddVote] *)
Definition Timeout_AddVote (collector : TimeoutCollector) (vote : TimeoutVote)
    : TimeoutCollector * result unit :=
  match Set_Get (tc_validatorSet collector) (TimeoutVote_ValidatorID vote) with
  | None => (collector, Err ErrUnknownValidator)
  | Some _ =>
      let h := TimeoutVote_Height vote in let r := TimeoutVote_Round vote in
      let collector := tc_set_votes collector (timeout_ensureMaps (tc_votes collector) h r) in
      match votesForRound collector h r !! TimeoutVote_ValidatorID vote with
      | Some previous =>
          if negb (sameQC (TimeoutVote_HighQC previous) (TimeoutVote_HighQC vote))
          then (collector, Err ErrConflictingTimeoutVote)
          else (collector, Ok tt)
      | None =>
          (tc_set_votes collector
             (alter (alter (insert (TimeoutVote_ValidatorID vote) vote) r) h (tc_votes collector)),
           Ok tt)
      end
  end.

(** [TimeoutCollector.ConflictingVote] *)
Definition ConflictingVote (collector : TimeoutCollector) (vote : TimeoutVote)
    : option TimeoutVote :=
  previous ← votesForRound collector (TimeoutVote_Height vote) (TimeoutVote_Round vote)
               !! TimeoutVote_ValidatorID vote;
  if sameQC (TimeoutVote_HighQC previous) (TimeoutVote_HighQC vote) then None
  else Some previous.

(** A collected signature. *)
Record signedVote := mkSignedVote {
  signed_validatorID : ValidatorID;
  signed_signature : Signature
}.

Definition allSignaturesPresent (signatures : list Signature) : bool :=
  bool_decide (signatures ≠ []) && forallb (λ s, bool_decide (length s ≠ 0%nat)) signatures.

(** The tail of [BuildTimeoutCert] and [buildQuorumCert]: sort the votes by
    validator and aggregate the signatures. *)
Definition aggregate_votes (aggregator : Aggregator) (votes : list signedVote)
    : result (Bitmap * AggregateSignature) :=
  let votes := sort_by signed_validatorID String.le votes in
  let signers := signed_validatorID <$> votes in
  let signatures := signed_signature <$> votes in
  match aggregator with
  | None => Err ErrAggregateRequired
  | Some aggregate =>
      check ErrMissingSignature (allSignaturesPresent signatures) ≫= λ _,
      aggregateSignature ← aggregate signatures;
      Ok (bytes_of_string (str_join "," signers), aggregateSignature)
  end.

(** The loop of [BuildTimeoutCert]: voting power, signatures and best
    certificate of the votes of known validators. *)
Fixpoint collect_timeouts (vs : ValidatorSet) (entries : list (ValidatorID * TimeoutVote))
    (votingPower : VotingPower) (highQC : QuorumCert) (votes : list signedVote)
    : result (VotingPower * QuorumCert * list signedVote) :=
  match entries with
  | [] => Ok (votingPower, highQC, votes)
  | (validatorID, vote) :: entries =>
      match Set_Get vs validatorID with
      | None => collect_timeouts vs entries votingPower highQC votes
      | Some validatorInfo =>
          votingPower ← AddVotingPower votingPower (Validator_VotingPower validatorInfo);
          collect_timeouts vs entries votingPower
            (if isBetterQC (TimeoutVote_HighQC vote) highQC then TimeoutVote_HighQC vote else highQC)
            (votes ++ [mkSignedVote validatorID (TimeoutVote_Signature vote)])
      end
  end.

Definition BuildTimeoutCert (order : MapOrder ValidatorID TimeoutVote)
    (collector : TimeoutCollector) (height : Height) (round : Round) : result TimeoutCert :=
  let roundVotes := votesForRound collector height round in
  if bool_decide (size roundVotes = 0%nat) then Err ErrNoQuorum
  else
    '(votingPower, highQC, votes) ←
      collect_timeouts (tc_validatorSet collector) (order roundVotes) 0 zero_QC [];
    check ErrNoQuorum
      (HasTwoThirdsQuorum votingPower (Set_TotalVotingPower (tc_validatorSet collector))) ≫= λ _,
    '(signers, aggregateSignature) ← aggregate_votes (tc_aggregator collector) votes;
    Ok (mkTimeoutCert height round highQC signers aggregateSignature).
