(* ===== verification/StateMachine.v ===== *)
(** * The consensus state machine ([src/consensus/state_machine.go])

    One validator's view of the chained protocol: proposals extend the block
    tree, votes are collected into quorum certificates, the best certificate
    the machine has built is its lock, and the three-chain rule commits.  Each
    exported method is a function from the machine to the machine and a result;
    the mutex makes the methods atomic.  Signature verification, aggregation
    and the evidence codec are parameters; the order of Go's map iterations is
    given with each call. *)

From S2P Require Import Prelude GoLib Sha256 Types Strconv TxTags FairOrdering Validator SignBytes.
From S2P Require Import DataAvailability BlockTree Evidence Timeouts.

Definition ErrConflictingVote := ErrNew "consensus.ErrConflictingVote".
Definition ErrInvalidProposal := ErrNew "consensus.ErrInvalidProposal".
Definition ErrStaleProposal := ErrNew "consensus.ErrStaleProposal".
Definition ErrInvalidVote := ErrNew "consensus.ErrInvalidVote".
Definition ErrUnknownVoteBlock := ErrNew "consensus.ErrUnknownVoteBlock".
Definition ErrStaleVote := ErrNew "consensus.ErrStaleVote".
Definition ErrUnsafeProposal := ErrNew "consensus.ErrUnsafeProposal".
Definition ErrUnexpectedProposer := ErrNew "consensus.ErrUnexpectedProposer".
Definition ErrUnsafeVote := ErrNew "consensus.ErrUnsafeVote".

(** The outcome of a call whose [Extends] loop does not end. *)
Definition Diverges := ErrNew "runtime.diverges".

Inductive Phase := PhasePropose | PhaseVote | PhaseCommit.

Record Status := mkStatus {
  Status_ChainID : string;
  Status_Height : Height;
  Status_Round : Round;
  Status_Phase : Phase;
  Status_LastFinalized : Hash;
  Status_ValidatorSetHash : Hash;
  Status_LastTimeoutCert : TimeoutCert
}.

Definition set_view (s : Status) (h : Height) (r : Round) (p : Phase) : Status :=
  mkStatus (Status_ChainID s) h r p (Status_LastFinalized s) (Status_ValidatorSetHash s)
    (Status_LastTimeoutCert s).
Definition set_finalized (s : Status) (hash : Hash) : Status :=
  mkStatus (Status_ChainID s) (Status_Height s) (Status_Round s) (Status_Phase s) hash
    (Status_ValidatorSetHash s) (Status_LastTimeoutCert s).
Definition set_setHash (s : Status) (hash : Hash) : Status :=
  mkStatus (Status_ChainID s) (Status_Height s) (Status_Round s) (Status_Phase s)
    (Status_LastFinalized s) hash (Status_LastTimeoutCert s).
Definition set_timeoutCert (s : Status) (tc : TimeoutCert) : Status :=
  mkStatus (Status_ChainID s) (Status_Height s) (Status_Round s) (Status_Phase s)
    (Status_LastFinalized s) (Status_ValidatorSetHash s) tc.

(** The interface [signatureVerifier]. *)
Abbreviation SignatureVerifier := (option (PublicKey → bytes → Signature → bool)).

(** The fields that do not change after [NewStateMachine]. *)
Record Config := mkConfig {
  cfg_chainID : string;
  cfg_hashBlock : Block → Hash;
  cfg_signatures : SignatureVerifier;
  cfg_aggregator : Aggregator;
  cfg_enforceProposerSelection : bool
}.

Abbreviation VoteMap := (gmap Height (gmap Round (gmap Hash (gmap ValidatorID Vote)))).
Abbreviation VotedMap := (gmap Height (gmap Round (gmap ValidatorID Vote))).

Record StateMachine := mkStateMachine {
  sm_config : Config;
  sm_validatorSet : ValidatorSet;
  sm_status : Status;
  sm_votes : VoteMap;
  sm_votedVotes : VotedMap;
  sm_evidence : list Evidence;
  sm_timeouts : TimeoutCollector;
  sm_pacemaker : Pacemaker;
  sm_blockTree : BlockTree;
  sm_lockedQC : QuorumCert;
  sm_committed : list CommitDecision;
  sm_committedSet : gset Hash;
  sm_commitIndex : CommitIndex
}.

(** ** Field updates *)

Definition set_status (m : StateMachine) s := mkStateMachine (sm_config m) (sm_validatorSet m) s
  (sm_votes m) (sm_votedVotes m) (sm_evidence m) (sm_timeouts m) (sm_pacemaker m)
  (sm_blockTree m) (sm_lockedQC m) (sm_committed m) (sm_committedSet m) (sm_commitIndex m).
Definition set_vote_maps (m : StateMachine) v vv := mkStateMachine (sm_config m)
  (sm_validatorSet m) (sm_status m) v vv (sm_evidence m) (sm_timeouts m) (sm_pacemaker m)
  (sm_blockTree m) (sm_lockedQC m) (sm_committed m) (sm_committedSet m) (sm_commitIndex m).
Definition add_evidence (m : StateMachine) e := mkStateMachine (sm_config m)
  (sm_validatorSet m) (sm_status m) (sm_votes m) (sm_votedVotes m) (sm_evidence m ++ [e])
  (sm_timeouts m) (sm_pacemaker m) (sm_blockTree m) (sm_lockedQC m) (sm_committed m)
  (sm_committedSet m) (sm_commitIndex m).
Definition set_timeouts (m : StateMachine) t := mkStateMachine (sm_config m)
  (sm_validatorSet m) (sm_status m) (sm_votes m) (sm_votedVotes m) (sm_evidence m) t
  (sm_pacemaker m) (sm_blockTree m) (sm_lockedQC m) (sm_committed m) (sm_committedSet m)
  (sm_commitIndex m).
Definition set_pacemaker (m : StateMachine) p := mkStateMachine (sm_config m)
  (sm_validatorSet m) (sm_status m) (sm_votes m) (sm_votedVotes m) (sm_evidence m)
  (sm_timeouts m) p (sm_blockTree m) (sm_lockedQC m) (sm_committed m) (sm_committedSet m)
  (sm_commitIndex m).
Definition set_tree (m : StateMachine) t := mkStateMachine (sm_config m)
  (sm_validatorSet m) (sm_status m) (sm_votes m) (sm_votedVotes m) (sm_evidence m)
  (sm_timeouts m) (sm_pacemaker m) t (sm_lockedQC m) (sm_committed m) (sm_committedSet m)
  (sm_commitIndex m).
Definition set_locked (m : StateMachine) qc := mkStateMachine (sm_config m)
  (sm_validatorSet m) (sm_status m) (sm_votes m) (sm_votedVotes m) (sm_evidence m)
  (sm_timeouts m) (sm_pacemaker m) (sm_blockTree m) qc (sm_committed m) (sm_committedSet m)
  (sm_commitIndex m).
Definition set_commits (m : StateMachine) c cs ci := mkStateMachine (sm_config m)
  (sm_validatorSet m) (sm_status m) (sm_votes m) (sm_votedVotes m) (sm_evidence m)
  (sm_timeouts m) (sm_pacemaker m) (sm_blockTree m) (sm_lockedQC m) c cs ci.
Definition set_set (m : StateMachine) vs t := mkStateMachine (sm_config m) vs
  (sm_status m) (sm_votes m) (sm_votedVotes m) (sm_evidence m) t (sm_pacemaker m)
  (sm_blockTree m) (sm_lockedQC m) (sm_committed m) (sm_committedSet m) (sm_commitIndex m).

(** ** Construction and configuration *)

(** [StateMachineConfig]; nil interfaces are [None]. *)
Record StateMachineConfig := mkSMConfig {
  SMC_ChainID : string;
  SMC_ValidatorSet : option ValidatorSet;
  SMC_HashBlock : option (Block → Hash);
  SMC_Signatures : SignatureVerifier;
  SMC_Aggregator : Aggregator;
  SMC_EnforceProposerSelection : bool
}.

Definition NewStateMachine (config : StateMachineConfig) : result StateMachine :=
  if bool_decide (SMC_ChainID config = "") then Err (ErrNew "chain id is required")
  else match SMC_ValidatorSet config with
  | None => Err (ErrNew "validator set is required")
  | Some vs =>
      let hashBlock := default HashBlock (SMC_HashBlock config) in
      Ok (mkStateMachine
        (mkConfig (SMC_ChainID config) hashBlock (SMC_Signatures config)
           (SMC_Aggregator config) (SMC_EnforceProposerSelection config))
        vs
        (mkStatus (SMC_ChainID config) 0 0 PhasePropose zero_hash (Set_Hash vs) zero_TC)
        ∅ ∅ [] (NewTimeoutCollectorWithAggregator vs (SMC_Aggregator config))
        (NewPacemaker 0 0) NewBlockTree zero_QC [] ∅ ∅)
  end.

Definition StartRound (m : StateMachine) (height : Height) (round : Round) : StateMachine :=
  set_pacemaker (set_status m (set_view (sm_status m) height round PhasePropose))
    (NewPacemaker height round).

Definition UpdateValidatorSet (m : StateMachine) (validatorSet : option ValidatorSet)
    : StateMachine * result unit :=
  match validatorSet with
  | None => (m, Err (ErrNew "validator set is required"))
  | Some vs =>
      (set_status (set_set m vs (NewTimeoutCollectorWithAggregator vs (cfg_aggregator (sm_config m))))
         (set_setHash (sm_status m) (Set_Hash vs)), Ok tt)
  end.

(** The registry's [ValidatorSet(ctx, height)] is the argument. *)
Definition UpdateValidatorSetFromRegistry (m : StateMachine)
    (lookup : result (option ValidatorSet)) : StateMachine * result unit :=
  match lookup with
  | Err e => (m, Err e)
  | Ok vs => UpdateValidatorSet m vs
  end.

(** ** Signatures *)

Definition unsignedConsensusSignature (kind : string) (validatorID : ValidatorID)
    (signBytes : bytes) : Signature :=
  hash_bytes (sha256 (bytes_of_string kind ++ [x00] ++ bytes_of_string validatorID ++ [x00]
                      ++ signBytes)).

(** The common body of [verifyProposalSignature], [verifyVoteSignature] and
    [verifyTimeoutVoteSignature]. *)
Definition verify_signature (m : StateMachine) (invalid : error) (kind domain : string)
    (id : ValidatorID) (signBytes : bytes) (signature : Signature) : result unit :=
  match cfg_signatures (sm_config m) with
  | None => Ok tt
  | Some verify =>
      if bool_decide (length signature = 0%nat) then Err (ErrWrap [invalid] ("missing " +:+ kind))
      else match Set_Get (sm_validatorSet m) id with
      | None => Err ErrUnknownValidator
      | Some validatorInfo =>
          message ← DomainMessage domain signBytes;
          check (ErrWrap [invalid] ("invalid " +:+ kind))
            (verify (Validator_PublicKey validatorInfo) message signature)
      end
  end.

Definition verifyProposalSignature (m : StateMachine) (proposal : Proposal) : result unit :=
  verify_signature m ErrInvalidProposal "proposal signature" DomainConsensusProposal
    (Proposal_Proposer proposal) (ProposalSignBytes proposal) (Proposal_Signature proposal).

Definition verifyVoteSignature (m : StateMachine) (vote : Vote) : result unit :=
  verify_signature m ErrInvalidVote "vote signature" DomainConsensusVote
    (Vote_ValidatorID vote) (VoteSignBytes vote) (Vote_Signature vote).

Definition verifyTimeoutVoteSignature (m : StateMachine) (vote : TimeoutVote) : result unit :=
  verify_signature m ErrInvalidVote "timeout vote signature" DomainConsensusTimeoutVote
    (TimeoutVote_ValidatorID vote) (TimeoutVoteSignBytes vote) (TimeoutVote_Signature vote).

Definition ensureVoteSignature (m : StateMachine) (vote : Vote) : Vote :=
  if bool_decide (cfg_signatures (sm_config m) ≠ None) || bool_decide (Vote_Signature vote ≠ [])
  then vote
  else mkVote (Vote_Height vote) (Vote_Round vote) (Vote_BlockHash vote) (Vote_ValidatorID vote)
         (unsignedConsensusSignature "unsigned-vote" (Vote_ValidatorID vote) (VoteSignBytes vote)).

Definition ensureTimeoutVoteSignature (m : StateMachine) (vote : TimeoutVote) : TimeoutVote :=
  if bool_decide (cfg_signatures (sm_config m) ≠ None) ||
     bool_decide (TimeoutVote_Signature vote ≠ [])
  then vote
  else mkTimeoutVote (TimeoutVote_Height vote) (TimeoutVote_Round vote)
         (TimeoutVote_ValidatorID vote) (TimeoutVote_HighQC vote)
         (unsignedConsensusSignature "unsigned-timeout-vote" (TimeoutVote_ValidatorID vote)
            (TimeoutVoteSignBytes vote)).

(** ** Safety predicates *)

(** [Extends], with the loop that does not end as an error. *)
Definition extends (tree : BlockTree) (descendant ancestor : Hash) : result bool :=
  match Extends tree descendant ancestor with Some b => Ok b | None => Err Diverges end.

Definition isSafeProposal (m : StateMachine) (proposal : Proposal) : result bool :=
  if bool_decide (QC_Height (sm_lockedQC m) = 0) then Ok true
  else if bool_decide (QC_Height (sm_lockedQC m) ≤ QC_Height (Proposal_JustifyQC proposal))
  then Ok true
  else
    let parentHash := Header_PreviousBlockHash (Block_Header (Proposal_Block proposal)) in
    if bool_decide (parentHash = QC_BlockHash (sm_lockedQC m)) then Ok true
    else extends (sm_blockTree m) parentHash (QC_BlockHash (sm_lockedQC m)).

Definition isSafeVoteTarget (m : StateMachine) (node : BlockNode) : result bool :=
  if bool_decide (QC_Height (sm_lockedQC m) = 0) then Ok true
  else if bool_decide (QC_Height (sm_lockedQC m) ≤ QC_Height (Node_JustifyQC node)) then Ok true
  else if bool_decide (Node_Hash node = QC_BlockHash (sm_lockedQC m)) then Ok true
  else extends (sm_blockTree m) (Node_Hash node) (QC_BlockHash (sm_lockedQC m)).

Definition IsAncestorOfHighQC (m : StateMachine) (blockHash : Hash) : result bool :=
  let highQC := tree_highQC (sm_blockTree m) in
  if bool_decide (QC_BlockHash highQC = zero_hash) || bool_decide (blockHash = zero_hash)
  then Ok false
  else if bool_decide (blockHash = QC_BlockHash highQC) then Ok true
  else extends (sm_blockTree m) (QC_BlockHash highQC) blockHash.

Definition proposalQC (m : StateMachine) : result QuorumCert :=
  let highQC := tree_highQC (sm_blockTree m) in
  if bool_decide (QC_Height highQC = 0) then Ok (sm_lockedQC m)
  else if bool_decide (QC_Height (sm_lockedQC m) = 0) then Ok highQC
  else
    ext ← extends (sm_blockTree m) (QC_BlockHash highQC) (QC_BlockHash (sm_lockedQC m));
    if ext : bool then Ok highQC
    else if isBetterQC (sm_lockedQC m) highQC then Ok (sm_lockedQC m)
    else Ok (sm_lockedQC m).

Definition updateLockedQC (m : StateMachine) (qc : QuorumCert) : StateMachine :=
  if bool_decide (QC_Height qc = 0) || bool_decide (QC_BlockHash qc = zero_hash) then m
  else if isBetterQC qc (sm_lockedQC m) then set_locked m qc
  else m.

Definition validateProposer (m : StateMachine) (height : Height) (round : Round)
    (proposer : ValidatorID) : result unit :=
  if negb (cfg_enforceProposerSelection (sm_config m)) then Ok tt
  else match SelectProposer (Set_List (sm_validatorSet m)) height round with
  | None => Err (ErrWrap [ErrUnexpectedProposer] "no active validators")
  | Some expected =>
      check (ErrWrap [ErrUnexpectedProposer] "height round expected actual")
        (bool_decide (expected = proposer))
  end.

Definition orderingSalt (m : StateMachine) (height : Height) : bytes :=
  HeightSalt (cfg_chainID (sm_config m)) height.

(** ** Commits *)

(** [sort.Slice] by height of the decisions. *)
Definition sort_commits (l : list CommitDecision) : list CommitDecision :=
  sort_by Decision_CommittedHeight Z.le l.

Definition applyCommitRule (m : StateMachine) (candidate : CommitCandidate)
    : StateMachine * result CommitDecision :=
  match Decide candidate with
  | Err e => (m, Err e)
  | Ok decision =>
      if bool_decide (Decision_CommittedBlockHash decision ∈ sm_committedSet m)
      then (m, Ok decision)
      else match CommitIndex_Record (sm_commitIndex m) (Decision_CommittedHeight decision)
                   (Decision_CommittedBlockHash decision) with
      | Err e => (m, Err e)
      | Ok index =>
          let committed := sort_commits (sm_committed m ++ [decision]) in
          let m := set_commits m committed
                     ({[Decision_CommittedBlockHash decision]} ∪ sm_committedSet m) index in
          let last := default decision (last committed) in
          (set_status m (set_finalized (sm_status m) (Decision_CommittedBlockHash last)),
           Ok decision)
      end
  end.

Definition ApplyCommitRule := applyCommitRule.

(** The loop of [applyKnownCommitRules] over the hashes of the tree. *)
Fixpoint apply_rules (m : StateMachine) (hashes : list Hash) : StateMachine * result unit :=
  match hashes with
  | [] => (m, Ok tt)
  | blockHash :: hashes =>
      match Tree_CommitCandidate (sm_blockTree m) blockHash with
      | None => apply_rules m hashes
      | Some candidate =>
          let '(m, r) := applyCommitRule m candidate in
          match r with
          | Ok _ => apply_rules m hashes
          | Err e =>
              if negb (errors_is e ErrCommitRuleNotSatisfied) then (m, Err e)
              else apply_rules m hashes
          end
      end
  end.

Definition applyKnownCommitRules (order : MapOrder Hash BlockNode) (m : StateMachine)
    : StateMachine * result unit :=
  apply_rules m (order (tree_blocks (sm_blockTree m))).*1.

(** ** Votes *)

Definition ensureVoteMaps (m : StateMachine) (height : Height) (round : Round) (blockHash : Hash)
    : StateMachine :=
  set_vote_maps m
    (alter (λ rounds, alter (ensure blockHash ∅) round (ensure round ∅ rounds)) height
       (ensure height ∅ (sm_votes m)))
    (alter (ensure round ∅) height (ensure height ∅ (sm_votedVotes m))).

Definition votesForBlock (m : StateMachine) (height : Height) (round : Round) (blockHash : Hash)
    : gmap ValidatorID Vote :=
  match sm_votes m !! height with
  | None => ∅
  | Some rounds =>
      match rounds !! round with
      | None => ∅
      | Some blocks => default ∅ (blocks !! blockHash)
      end
  end.

(** [machine.votedVotes[height][round][id]]; reading a nil map finds nothing. *)
Definition voted (m : StateMachine) (height : Height) (round : Round) (id : ValidatorID)
    : option Vote :=
  rounds ← sm_votedVotes m !! height; ids ← rounds !! round; ids !! id.

Section machine.
Context `{!EvidenceCodec}.

Definition recordVote (m : StateMachine) (vote : Vote) : StateMachine * result unit :=
  let h := Vote_Height vote in let r := Vote_Round vote in
  let b := Vote_BlockHash vote in let id := Vote_ValidatorID vote in
  let m := ensureVoteMaps m h r b in
  match voted m h r id with
  | Some previousVote =>
      if bool_decide (Vote_BlockHash previousVote ≠ b) then
        (match NewConflictingVoteEvidence previousVote vote with
         | Ok evidence => add_evidence m evidence
         | Err _ => m
         end, Err ErrConflictingVote)
      else
        (set_vote_maps m (alter (alter (alter (insert id vote) b) r) h (sm_votes m))
           (alter (alter (insert id vote) r) h (sm_votedVotes m)), Ok tt)
  | None =>
      (set_vote_maps m (alter (alter (alter (insert id vote) b) r) h (sm_votes m))
         (alter (alter (insert id vote) r) h (sm_votedVotes m)), Ok tt)
  end.

(** The loop of [buildQuorumCert] over the votes of known validators. *)
Fixpoint collect_votes (vs : ValidatorSet) (entries : list (ValidatorID * Vote))
    (votingPower : VotingPower) (votes : list signedVote)
    : result (VotingPower * list signedVote) :=
  match entries with
  | [] => Ok (votingPower, votes)
  | (validatorID, vote) :: entries =>
      match Set_Get vs validatorID with
      | None => collect_votes vs entries votingPower votes
      | Some validatorInfo =>
          votingPower ← AddVotingPower votingPower (Validator_VotingPower validatorInfo);
          collect_votes vs entries votingPower
            (votes ++ [mkSignedVote validatorID (Vote_Signature vote)])
      end
  end.

Definition hasQuorum (power total : VotingPower) : bool := HasTwoThirdsQuorum power total.

Definition buildQuorumCert (order : MapOrder ValidatorID Vote) (m : StateMachine)
    (height : Height) (round : Round) (blockHash : Hash) : result QuorumCert :=
  let blockVotes := votesForBlock m height round blockHash in
  if bool_decide (size blockVotes = 0%nat) then Err ErrNoQuorum
  else
    '(votingPower, votes) ← collect_votes (sm_validatorSet m) (order blockVotes) 0 [];
    check ErrNoQuorum (hasQuorum votingPower (Set_TotalVotingPower (sm_validatorSet m))) ≫= λ _,
    '(signers, aggregateSignature) ← aggregate_votes (cfg_aggregator (sm_config m)) votes;
    Ok (mkQuorumCert height round blockHash signers aggregateSignature votingPower).

Definition BuildQuorumCert := buildQuorumCert.

Definition validateVote (m : StateMachine) (vote : Vote) : result unit :=
  check (ErrWrap [ErrInvalidVote] "missing height") (bool_decide (Vote_Height vote ≠ 0)) ≫= λ _,
  check (ErrWrap [ErrInvalidVote] "missing block hash")
    (bool_decide (Vote_BlockHash vote ≠ zero_hash)) ≫= λ _,
  verifyVoteSignature m vote ≫= λ _,
  check ErrStaleVote
    (negb (bool_decide (0 < Status_Height (sm_status m)) &&
           bool_decide (Vote_Height vote < Status_Height (sm_status m)))) ≫= λ _,
  check ErrStaleVote
    (negb (bool_decide (Vote_Height vote = Status_Height (sm_status m)) &&
           bool_decide (Vote_Round vote < Status_Round (sm_status m)))) ≫= λ _,
  match Tree_Get (sm_blockTree m) (Vote_BlockHash vote) with
  | None => Err (ErrWrap [ErrInvalidVote; ErrUnknownVoteBlock] "")
  | Some node =>
      check (ErrWrap [ErrInvalidVote] "target height mismatch")
        (bool_decide (Header_Height (Block_Header (Node_Block node)) = Vote_Height vote)) ≫= λ _,
      safe ← isSafeVoteTarget m node;
      check ErrUnsafeVote safe
  end.

Definition set_phase (m : StateMachine) (phase : Phase) : StateMachine :=
  set_status m (set_view (sm_status m) (Status_Height (sm_status m))
                  (Status_Round (sm_status m)) phase).

(** The end of [OnVote]: a certificate the vote completes is put into the tree
    and may become the lock. *)
Definition certify_vote (order : MapOrder ValidatorID Vote) (m : StateMachine) (vote : Vote)
    : StateMachine * result unit :=
  match buildQuorumCert order m (Vote_Height vote) (Vote_Round vote) (Vote_BlockHash vote) with
  | Err _ => (m, Ok tt)
  | Ok qc =>
      match Tree_SetQuorumCert (sm_blockTree m) qc with
      | Err setErr =>
          if negb (errors_is setErr ErrBlockNotFound) then (m, Err setErr)
          else (set_phase m PhaseCommit, Ok tt)
      | Ok tree => (set_phase (updateLockedQC (set_tree m tree) qc) PhaseCommit, Ok tt)
      end
  end.

Definition OnVote (order : MapOrder ValidatorID Vote) (ctx : Ctx) (m : StateMachine) (vote : Vote)
    : StateMachine * result unit :=
  match ctx_guard ctx with
  | Err e => (m, Err e)
  | Ok _ =>
      match Set_Get (sm_validatorSet m) (Vote_ValidatorID vote) with
      | None => (m, Err ErrUnknownValidator)
      | Some _ =>
          let vote := ensureVoteSignature m vote in
          match validateVote m vote with
          | Err e => (m, Err e)
          | Ok _ =>
              let '(m, r) := recordVote m vote in
              match r with
              | Err e => (m, Err e)
              | Ok _ => certify_vote order m vote
              end
          end
      end
  end.

(** ** Timeouts *)

Definition OnTimeoutVote (order : MapOrder ValidatorID TimeoutVote) (ctx : Ctx) (m : StateMachine)
    (vote : TimeoutVote) : StateMachine * result TimeoutCert :=
  match ctx_guard ctx with
  | Err e => (m, Err e)
  | Ok _ =>
      let vote := ensureTimeoutVoteSignature m vote in
      match verifyTimeoutVoteSignature m vote with
      | Err e => (m, Err e)
      | Ok _ =>
          let conflicting := ConflictingVote (sm_timeouts m) vote in
          let '(timeouts, r) := Timeout_AddVote (sm_timeouts m) vote in
          let m := set_timeouts m timeouts in
          match r with
          | Err e =>
              (match conflicting with
               | Some previous =>
                   if errors_is e ErrConflictingTimeoutVote then
                     match NewConflictingTimeoutVoteEvidence previous vote with
                     | Ok evidence => add_evidence m evidence
                     | Err _ => m
                     end
                   else m
               | None => m
               end, Err e)
          | Ok _ =>
              match BuildTimeoutCert order (sm_timeouts m) (TimeoutVote_Height vote)
                      (TimeoutVote_Round vote) with
              | Err e => (m, Err e)
              | Ok timeoutCert =>
                  match AdvanceRound (sm_pacemaker m) timeoutCert with
                  | Err e => (m, Err e)
                  | Ok pacemaker =>
                      let m := set_pacemaker m pacemaker in
                      let m := set_tree m
                                 (ObserveQuorumCert (sm_blockTree m) (TC_HighQC timeoutCert)) in
                      (set_status m
                         (set_timeoutCert
                            (set_view (sm_status m) (pm_height pacemaker) (pm_round pacemaker)
                               PhasePropose) timeoutCert), Ok timeoutCert)
                  end
              end
          end
      end
  end.

(** ** Proposals *)

Definition set_header (block : Block) (header : Header) : Block := mkBlock header (Block_Txs block).

(** The header assignments of [CreateProposal] before the transactions are
    ordered. *)
Definition proposal_header (m : StateMachine) (header : Header) (justifyQC : QuorumCert) : Header :=
  mkHeader (cfg_chainID (sm_config m)) (Header_Height header) (Header_TimeUnixNano header)
    (if bool_decide (Header_PreviousBlockHash header = zero_hash) &&
        bool_decide (0 < QC_Height justifyQC)
     then QC_BlockHash justifyQC else Header_PreviousBlockHash header)
    (Header_AppHash header) (Set_Hash (sm_validatorSet m)) (Header_ConsensusHash header)
    (Header_TxRoot header).

Definition CreateProposal (m : StateMachine) (block : Block) (round : Round)
    (proposer : ValidatorID) (justifyQC : QuorumCert) : result Proposal :=
  match Set_Get (sm_validatorSet m) proposer with
  | None => Err ErrUnknownValidator
  | Some _ =>
      validateProposer m (Header_Height (Block_Header block)) round proposer ≫= λ _,
      justifyQC ← (if bool_decide (QC_Height justifyQC = 0) then proposalQC m else Ok justifyQC);
      let header := proposal_header m (Block_Header block) justifyQC in
      let txs := SortTxsWithSalt (orderingSalt m (Header_Height header)) (Block_Txs block) in
      let block := mkBlock (set_TxRoot header (TxRoot txs)) txs in
      let block :=
        if bool_decide (Header_ConsensusHash (Block_Header block) = zero_hash) &&
           bool_decide (Block_Txs block ≠ [])
        then AttachCommitment block else block in
      Ok (mkProposal block round proposer justifyQC [])
  end.

(** The checks of [OnProposal] that only read the machine. *)
Definition validateProposal (m : StateMachine) (proposal : Proposal) : result unit :=
  let block := Proposal_Block proposal in
  let header := Block_Header block in
  let justifyQC := Proposal_JustifyQC proposal in
  match Set_Get (sm_validatorSet m) (Proposal_Proposer proposal) with
  | None => Err ErrUnknownValidator
  | Some _ =>
      validateProposer m (Header_Height header) (Proposal_Round proposal)
        (Proposal_Proposer proposal) ≫= λ _,
      verifyProposalSignature m proposal ≫= λ _,
      check (ErrWrap [] "proposal chain id mismatch")
        (bool_decide (Header_ChainID header = cfg_chainID (sm_config m))) ≫= λ _,
      check (ErrWrap [ErrInvalidProposal] "missing height")
        (bool_decide (Header_Height header ≠ 0)) ≫= λ _,
      check (ErrWrap [ErrInvalidProposal] "validator set hash mismatch")
        (bool_decide (Header_ValidatorSetHash header = Set_Hash (sm_validatorSet m))) ≫= λ _,
      check (ErrWrap [ErrInvalidProposal] "transaction ordering mismatch")
        (IsOrderedWithSalt (orderingSalt m (Header_Height header)) (Block_Txs block)) ≫= λ _,
      match DA_Verify header (Block_Txs block) with
      | Err _ => Err (ErrWrap [ErrInvalidProposal] "data availability")
      | Ok _ => Ok tt
      end ≫= λ _,
      check (ErrWrap [ErrInvalidProposal] "justify qc height exceeds proposal height")
        (negb (bool_decide (0 < QC_Height justifyQC) &&
               bool_decide (Header_Height header < QC_Height justifyQC))) ≫= λ _,
      check (ErrWrap [ErrInvalidProposal] "justify qc must match parent block")
        (negb (bool_decide (0 < QC_Height justifyQC) &&
               bool_decide (QC_BlockHash justifyQC ≠ Header_PreviousBlockHash header)))
  end.

(** The proposal is behind the machine's view. *)
Definition is_stale (m : StateMachine) (proposal : Proposal) : bool :=
  let height := Header_Height (Block_Header (Proposal_Block proposal)) in
  bool_decide (height < Status_Height (sm_status m)) ||
  (bool_decide (height = Status_Height (sm_status m)) &&
   bool_decide (Proposal_Round proposal < Status_Round (sm_status m))).

(** The block is in the tree with a certificate. *)
Definition is_certified (m : StateMachine) (blockHash : Hash) : bool :=
  match Tree_Get (sm_blockTree m) blockHash with
  | Some known => bool_decide (0 < QC_Height (Node_QuorumCert known))
  | None => false
  end.

(** A step that may fail followed by another on the machine it leaves. *)
Definition then_ {A B} (step : StateMachine * result A) (k : StateMachine → StateMachine * result B)
    : StateMachine * result B :=
  match step with
  | (m, Ok _) => k m
  | (m, Err e) => (m, Err e)
  end.

Definition insert_proposal (m : StateMachine) (proposal : Proposal) : StateMachine :=
  set_tree m (Tree_Insert (sm_blockTree m) (Proposal_Block proposal)
                (cfg_hashBlock (sm_config m) (Proposal_Block proposal))
                (Proposal_JustifyQC proposal)).

Definition OnProposal (order : MapOrder Hash BlockNode) (ctx : Ctx) (m : StateMachine)
    (proposal : Proposal) : StateMachine * result unit :=
  match ctx_guard ctx ≫= λ _, validateProposal m proposal with
  | Err e => (m, Err e)
  | Ok _ =>
      let blockHash := cfg_hashBlock (sm_config m) (Proposal_Block proposal) in
      if is_certified m blockHash then
        then_ (applyKnownCommitRules order m) (λ m, (m, Err ErrStaleProposal))
      else if is_stale m proposal then
        then_ (applyKnownCommitRules order (insert_proposal m proposal))
          (λ m, (m, Err ErrStaleProposal))
      else match isSafeProposal m proposal with
      | Err e => (m, Err e)
      | Ok false => (m, Err ErrUnsafeProposal)
      | Ok true =>
          then_ (applyKnownCommitRules order (insert_proposal m proposal)) (λ m,
            (set_status m
               (set_view (sm_status m) (Header_Height (Block_Header (Proposal_Block proposal)))
                  (Proposal_Round proposal) PhaseVote), Ok tt))
      end
  end.

(** ** Observed commits and queries *)

Definition ObserveCommittedBlock (m : StateMachine) (block : Block) (quorumCert : QuorumCert)
    : StateMachine * result unit :=
  let blockHash := cfg_hashBlock (sm_config m) block in
  if bool_decide (QC_Height quorumCert ≠ Header_Height (Block_Header block)) ||
     bool_decide (QC_BlockHash quorumCert ≠ blockHash)
  then (m, Err ErrInvalidBlockCert)
  else
    let m :=
      match Tree_Get (sm_blockTree m) blockHash with
      | Some _ => m
      | None => set_tree m (Tree_Insert (sm_blockTree m) block blockHash zero_QC)
      end in
    match Tree_SetQuorumCert (sm_blockTree m) quorumCert with
    | Err e => (m, Err e)
    | Ok tree => (updateLockedQC (set_tree m tree) quorumCert, Ok tt)
    end.

(** [HighQC] with a context that may be nil. *)
Definition HighQC (ctx : option Ctx) (m : StateMachine) : QuorumCert :=
  match ctx with
  | Some (Some _) => zero_QC
  | _ => tree_highQC (sm_blockTree m)
  end.

Definition Machine_Evidence (m : StateMachine) : list Evidence := sm_evidence m.
Definition CommitDecisions (m : StateMachine) : list CommitDecision := sm_committed m.
End machine.
