(* ===== verification/StateMachineInv.v ===== *)
(** * Invariants of the consensus state machine

    Calls of the machine are steps; the theorems are about every sequence of
    calls from a new machine.  Votes: a validator's recorded votes of one round
    are for one block, so a round has at most one certificate, and the
    certificates the machine builds pass the finality verifier.  Locks and the
    high certificate only improve.  Commits: one hash per height, never
    revoked, each backed by a three-chain of the tree. *)

From S2P Require Import Prelude GoLib Sha256 Types Strconv TxTags FairOrdering Validator SignBytes.
From S2P Require Import DataAvailability Finality BlockTree Evidence Timeouts StateMachine.

(** ** Calls *)

Inductive Call :=
| CallStartRound (height : Height) (round : Round)
| CallUpdateValidatorSet (validatorSet : option ValidatorSet)
| CallOnProposal (order : MapOrder Hash BlockNode) (ctx : Ctx) (proposal : Proposal)
| CallOnVote (order : MapOrder ValidatorID Vote) (ctx : Ctx) (vote : Vote)
| CallOnTimeoutVote (order : MapOrder ValidatorID TimeoutVote) (ctx : Ctx) (vote : TimeoutVote)
| CallApplyCommitRule (candidate : CommitCandidate)
| CallObserveCommittedBlock (block : Block) (quorumCert : QuorumCert).

Section calls.
Context `{!EvidenceCodec}.

(** The machine after a call. *)
Definition exec (m : StateMachine) (call : Call) : StateMachine :=
  match call with
  | CallStartRound height round => StartRound m height round
  | CallUpdateValidatorSet validatorSet => (UpdateValidatorSet m validatorSet).1
  | CallOnProposal order ctx proposal => (OnProposal order ctx m proposal).1
  | CallOnVote order ctx vote => (OnVote order ctx m vote).1
  | CallOnTimeoutVote order ctx vote => (OnTimeoutVote order ctx m vote).1
  | CallApplyCommitRule candidate => (ApplyCommitRule m candidate).1
  | CallObserveCommittedBlock block quorumCert => (ObserveCommittedBlock m block quorumCert).1
  end.

Definition step (m m' : StateMachine) : Prop := ∃ call, m' = exec m call.

(** Steps between two changes of the validator set. *)
Definition epoch_step (m m' : StateMachine) : Prop :=
  ∃ call, (∀ vs, call ≠ CallUpdateValidatorSet vs) ∧ m' = exec m call.

Definition reachable (m : StateMachine) : Prop :=
  ∃ config m0, NewStateMachine config = Ok m0 ∧ rtc step m0 m.

(** A new machine has a validator set and nothing else. *)
Definition initial (config : StateMachineConfig) (vs : ValidatorSet) : StateMachine :=
  mkStateMachine
    (mkConfig (SMC_ChainID config) (default HashBlock (SMC_HashBlock config))
       (SMC_Signatures config) (SMC_Aggregator config) (SMC_EnforceProposerSelection config))
    vs (mkStatus (SMC_ChainID config) 0 0 PhasePropose zero_hash (Set_Hash vs) zero_TC)
    ∅ ∅ [] (NewTimeoutCollectorWithAggregator vs (SMC_Aggregator config))
    (NewPacemaker 0 0) NewBlockTree zero_QC [] ∅ ∅.

Lemma NewStateMachine_Ok config m :
  NewStateMachine config = Ok m → ∃ vs, SMC_ValidatorSet config = Some vs ∧ m = initial config vs.
Proof.
  unfold NewStateMachine. case_bool_decide; [done|]. destruct (SMC_ValidatorSet config); [|done].
  intros [= <-]. eauto.
Qed.

Lemma invariant_reachable (P : StateMachine → Prop) :
  (∀ config m0, NewStateMachine config = Ok m0 → P m0) →
  (∀ m call, P m → P (exec m call)) →
  ∀ m, reachable m → P m.
Proof.
  intros Hinit Hs m (config & m0 & Hnew & Hr). apply Hinit in Hnew.
  induction Hr as [|m1 m2 m3 [call ->] _ IH]; auto.
Qed.
End calls.

(** Split every case distinction of a handler in the goal. *)
Ltac handler_cases :=
  repeat (simpl; match goal with
  | |- context [match ?x with _ => _ end] =>
      lazymatch x with
      | context [match _ with _ => _ end] => fail
      | _ => destruct x eqn:?
      end
  end); simpl.

(** ** Frames *)

Section frames.
Context `{!EvidenceCodec}.

Definition vote_state (m : StateMachine) := (sm_votes m, sm_votedVotes m).
Definition commit_state (m : StateMachine) :=
  (sm_committed m, sm_committedSet m, sm_commitIndex m, Status_LastFinalized (sm_status m)).

(** Nothing but the commits and the status changes. *)
Record commit_only (m m' : StateMachine) : Prop := {
  co_config : sm_config m' = sm_config m;
  co_set : sm_validatorSet m' = sm_validatorSet m;
  co_votes : vote_state m' = vote_state m;
  co_timeouts : sm_timeouts m' = sm_timeouts m;
  co_pacemaker : sm_pacemaker m' = sm_pacemaker m;
  co_evidence : sm_evidence m' = sm_evidence m;
  co_tree : sm_blockTree m' = sm_blockTree m;
  co_locked : sm_lockedQC m' = sm_lockedQC m
}.

#[global] Instance commit_only_preorder : PreOrder commit_only.
Proof.
  split; [done|]. intros m1 m2 m3 [] []. split; congruence.
Qed.

Lemma applyCommitRule_frame m c : commit_only m (applyCommitRule m c).1.
Proof. unfold applyCommitRule. by handler_cases. Qed.

Lemma apply_rules_frame m hashes : commit_only m (apply_rules m hashes).1.
Proof.
  revert m. induction hashes as [|h hashes IH]; intros m; [done|]. simpl.
  destruct (Tree_CommitCandidate _ _) as [c|]; [|apply IH].
  pose proof (applyCommitRule_frame m c) as Hf. destruct (applyCommitRule m c) as [m1 r].
  simpl in Hf. destruct r as [d|e]; [by etrans|]. destruct (negb _); [done|by etrans].
Qed.

Lemma applyKnownCommitRules_frame order m : commit_only m (applyKnownCommitRules order m).1.
Proof. apply apply_rules_frame. Qed.

(** The shape of every outcome of [OnProposal]. *)
Lemma OnProposal_shape order ctx m p :
  (OnProposal order ctx m p).1 = m ∨
  ∃ m1, (m1 = m ∨ (m1 = insert_proposal m p ∧ validateProposal m p = Ok tt ∧
        is_certified m (cfg_hashBlock (sm_config m) (Proposal_Block p)) = false)) ∧
    let m2 := (applyKnownCommitRules order m1).1 in
    (OnProposal order ctx m p).1 = m2 ∨
    (OnProposal order ctx m p).1 =
      set_status m2 (set_view (sm_status m2) (Header_Height (Block_Header (Proposal_Block p)))
                       (Proposal_Round p) PhaseVote).
Proof.
  unfold OnProposal. destruct ctx; [by left|]. cbn [ctx_guard mbind result_bind].
  destruct (validateProposal m p) as [[]|e] eqn:Hv; [|by left].
  destruct (is_certified m _) eqn:Hcert.
  { right. exists m. split; [by left|]. left. unfold then_.
    by destruct (applyKnownCommitRules order m) as [m2 [?|?]]. }
  assert (∀ k, (∀ m2, (k m2).1 = m2 ∨ (k m2).1 = set_status m2 (set_view (sm_status m2)
      (Header_Height (Block_Header (Proposal_Block p))) (Proposal_Round p) PhaseVote)) →
    let m2 := (applyKnownCommitRules order (insert_proposal m p)).1 in
    let m' := (then_ (B := unit) (applyKnownCommitRules order (insert_proposal m p)) k).1 in
    m' = m2 ∨ m' = set_status m2 (set_view (sm_status m2)
      (Header_Height (Block_Header (Proposal_Block p))) (Proposal_Round p) PhaseVote)) as Hk.
  { intros k Hk. unfold then_.
    destruct (applyKnownCommitRules order (insert_proposal m p)) as [m2 [?|?]];
      simpl; [apply Hk|by left]. }
  destruct (is_stale m p).
  { right. eexists. split; [by right|]. apply Hk. intros m2. by left. }
  destruct (isSafeProposal m p) as [[]|e]; [|by left|by left].
  right. eexists. split; [by right|]. apply Hk. intros m2. by right.
Qed.

(** A projection that neither the tree, the commits nor the status touch is not
    changed by a proposal. *)
Lemma OnProposal_frame {A} (f : StateMachine → A) order ctx m p :
  (∀ m t, f (set_tree m t) = f m) → (∀ m s, f (set_status m s) = f m) →
  (∀ m m', commit_only m m' → f m' = f m) →
  f (OnProposal order ctx m p).1 = f m.
Proof.
  intros Ht Hs Hc. destruct (OnProposal_shape order ctx m p) as [->|(m1 & Hm1 & Hm2)]; [done|].
  assert (f (applyKnownCommitRules order m1).1 = f m) as Hf.
  { rewrite (Hc m1) by apply applyKnownCommitRules_frame. destruct Hm1 as [->|[-> _]]; [done|apply Ht]. }
  by destruct Hm2 as [->| ->]; rewrite ?Hs.
Qed.

(** Nothing changes the configuration; only [UpdateValidatorSet] changes the
    validator set; only votes change the recorded votes. *)
Lemma exec_config m call : sm_config (exec m call) = sm_config m.
Proof.
  destruct call; simpl; [done|..].
  - by destruct validatorSet.
  - by apply OnProposal_frame; [done..|intros ?? []].
  - unfold OnVote, certify_vote, recordVote, updateLockedQC. by handler_cases.
  - unfold OnTimeoutVote. by handler_cases.
  - apply applyCommitRule_frame.
  - unfold ObserveCommittedBlock, updateLockedQC. by handler_cases.
Qed.

Lemma exec_set m call :
  (∀ vs, call ≠ CallUpdateValidatorSet vs) → sm_validatorSet (exec m call) = sm_validatorSet m.
Proof.
  intros Hne. destruct call; simpl; [done|..].
  - by destruct (Hne validatorSet).
  - by apply OnProposal_frame; [done..|intros ?? []].
  - unfold OnVote, certify_vote, recordVote, updateLockedQC. by handler_cases.
  - unfold OnTimeoutVote. by handler_cases.
  - apply applyCommitRule_frame.
  - unfold ObserveCommittedBlock, updateLockedQC. by handler_cases.
Qed.

Lemma exec_votes m call :
  (∀ order ctx vote, call ≠ CallOnVote order ctx vote) → vote_state (exec m call) = vote_state m.
Proof.
  intros Hne. destruct call; simpl; [done|..].
  - by destruct validatorSet.
  - by apply OnProposal_frame; [done..|intros ?? []].
  - by destruct (Hne order ctx vote).
  - unfold OnTimeoutVote. by handler_cases.
  - apply applyCommitRule_frame.
  - unfold ObserveCommittedBlock, updateLockedQC. by handler_cases.
Qed.
End frames.

(** ** Recorded votes *)

(** Reduce option combinators and nothing else. *)
Ltac opt_simpl := cbn [mbind option_bind fmap option_fmap option_map from_option default id].

Section votes.
Context `{!EvidenceCodec}.

Lemma vote_state_voted m m' h r id : vote_state m' = vote_state m → voted m' h r id = voted m h r id.
Proof. intros [= _ Hv]. unfold voted. by rewrite Hv. Qed.

Lemma vote_state_block m m' h r b :
  vote_state m' = vote_state m → votesForBlock m' h r b = votesForBlock m h r b.
Proof. intros [= Hv _]. unfold votesForBlock. by rewrite Hv. Qed.

Lemma voted_ensure m h r b h' r' id :
  voted (ensureVoteMaps m h r b) h' r' id = voted m h' r' id.
Proof.
  unfold voted, ensureVoteMaps. cbn [sm_votedVotes set_vote_maps]. rewrite lookup_alter_ensure.
  case_decide; [subst|done]. destruct (sm_votedVotes m !! h') as [rounds|]; opt_simpl.
  - rewrite lookup_ensure. case_decide; [subst|done]. by destruct (rounds !! r').
  - rewrite lookup_ensure. by case_decide; rewrite ?lookup_empty.
Qed.

Lemma votesForBlock_ensure m h r b h' r' b' :
  votesForBlock (ensureVoteMaps m h r b) h' r' b' = votesForBlock m h' r' b'.
Proof.
  unfold votesForBlock, ensureVoteMaps. cbn [sm_votes set_vote_maps].
  rewrite lookup_alter_ensure. case_decide; [subst|done].
  destruct (sm_votes m !! h') as [rounds|]; opt_simpl; rewrite lookup_alter_ensure;
    (case_decide; [subst|by rewrite ?lookup_empty]).
  - destruct (rounds !! r') as [blocks|]; opt_simpl; rewrite lookup_ensure;
      case_decide; subst; rewrite ?lookup_empty; try done; by destruct (blocks !! b').
  - rewrite lookup_empty. opt_simpl. rewrite lookup_ensure.
    by case_decide; rewrite ?lookup_empty.
Qed.

(** The maps exist after [ensureVoteMaps], so the assignments of [recordVote]
    reach them. *)
Definition vote_entry (m : StateMachine) (vote : Vote) : StateMachine :=
  let h := Vote_Height vote in let r := Vote_Round vote in
  let b := Vote_BlockHash vote in let id := Vote_ValidatorID vote in
  let m := ensureVoteMaps m h r b in
  set_vote_maps m (alter (alter (alter (insert id vote) b) r) h (sm_votes m))
    (alter (alter (insert id vote) r) h (sm_votedVotes m)).

Lemma voted_vote_entry m vote h r id :
  voted (vote_entry m vote) h r id =
  if decide (Vote_Height vote = h ∧ Vote_Round vote = r ∧ Vote_ValidatorID vote = id)
  then Some vote else voted m h r id.
Proof.
  rewrite <-(voted_ensure m (Vote_Height vote) (Vote_Round vote) (Vote_BlockHash vote)).
  unfold vote_entry, voted, ensureVoteMaps. cbn [sm_votedVotes set_vote_maps].
  rewrite lookup_alter, !lookup_alter_ensure.
  destruct (decide (Vote_Height vote = h)) as [Hh|Hh]; [|by rewrite decide_False by tauto].
  rewrite decide_True by done. opt_simpl. rewrite lookup_alter, !lookup_ensure.
  destruct (decide (Vote_Round vote = r)) as [Hr|Hr]; [|by rewrite decide_False by tauto].
  rewrite decide_True by done. opt_simpl. rewrite lookup_insert.
  destruct (decide (Vote_ValidatorID vote = id)) as [Hi|Hi].
  - by rewrite decide_True by done.
  - by rewrite decide_False by tauto.
Qed.

Lemma votesForBlock_vote_entry m vote h r b :
  votesForBlock (vote_entry m vote) h r b =
  if decide (Vote_Height vote = h ∧ Vote_Round vote = r ∧ Vote_BlockHash vote = b)
  then <[Vote_ValidatorID vote := vote]> (votesForBlock m h r b) else votesForBlock m h r b.
Proof.
  rewrite <-(votesForBlock_ensure m (Vote_Height vote) (Vote_Round vote) (Vote_BlockHash vote)).
  unfold vote_entry, votesForBlock, ensureVoteMaps. cbn [sm_votes set_vote_maps].
  rewrite lookup_alter, !lookup_alter_ensure.
  destruct (decide (Vote_Height vote = h)) as [Hh|Hh]; [|by rewrite decide_False by tauto].
  rewrite decide_True by done. opt_simpl. rewrite lookup_alter, !lookup_alter_ensure.
  destruct (decide (Vote_Round vote = r)) as [Hr|Hr]; [|by rewrite decide_False by tauto].
  rewrite decide_True by done. opt_simpl. rewrite lookup_alter, !lookup_ensure.
  destruct (decide (Vote_BlockHash vote = b)) as [Hb|Hb]; [|by rewrite decide_False by tauto].
  by rewrite !decide_True by done.
Qed.

(** [recordVote] enters the vote unless the validator voted for another block
    in the round; then nothing is entered and evidence is collected. *)
Lemma recordVote_spec m vote :
  let prev := voted m (Vote_Height vote) (Vote_Round vote) (Vote_ValidatorID vote) in
  recordVote m vote = (vote_entry m vote, Ok tt) ∧
    (∀ p, prev = Some p → Vote_BlockHash p = Vote_BlockHash vote) ∨
  ∃ p, prev = Some p ∧ Vote_BlockHash p ≠ Vote_BlockHash vote ∧
    (recordVote m vote).2 = Err ErrConflictingVote ∧
    (∀ h r id, voted (recordVote m vote).1 h r id = voted m h r id) ∧
    (∀ h r b, votesForBlock (recordVote m vote).1 h r b = votesForBlock m h r b) ∧
    sm_evidence (recordVote m vote).1 = sm_evidence m ++
      match NewConflictingVoteEvidence p vote with Ok e => [e] | Err _ => [] end.
Proof.
  unfold recordVote. cbv zeta. rewrite voted_ensure.
  destruct (voted m _ _ _) as [p|] eqn:E; [|by left].
  case_bool_decide as Hb; [|left; split; [done|]].
  - right. exists p. split_and!; try done.
    + intros. rewrite <-(voted_ensure m (Vote_Height vote) (Vote_Round vote) (Vote_BlockHash vote)).
      by destruct (NewConflictingVoteEvidence p vote).
    + intros. rewrite <-(votesForBlock_ensure m (Vote_Height vote) (Vote_Round vote)
        (Vote_BlockHash vote)). by destruct (NewConflictingVoteEvidence p vote).
    + destruct (NewConflictingVoteEvidence p vote); simpl; by rewrite ?app_nil_r.
  - intros p' [= <-]. by destruct (decide (Vote_BlockHash p = Vote_BlockHash vote)).
Qed.

(** The two vote maps agree, and entries are filed under their own fields. *)
Definition votes_ok (m : StateMachine) : Prop :=
  (∀ h r b id v, votesForBlock m h r b !! id = Some v ↔
     voted m h r id = Some v ∧ Vote_BlockHash v = b) ∧
  (∀ h r id v, voted m h r id = Some v →
     Vote_Height v = h ∧ Vote_Round v = r ∧ Vote_ValidatorID v = id).

Lemma votes_ok_state m m' :
  (∀ h r id, voted m' h r id = voted m h r id) →
  (∀ h r b, votesForBlock m' h r b = votesForBlock m h r b) → votes_ok m → votes_ok m'.
Proof.
  intros Hv Hb [H1 H2]. split; intros *; rewrite ?Hv, ?Hb; [apply H1|apply H2].
Qed.

Lemma votes_ok_entry m v :
  (∀ p, voted m (Vote_Height v) (Vote_Round v) (Vote_ValidatorID v) = Some p →
     Vote_BlockHash p = Vote_BlockHash v) →
  votes_ok m → votes_ok (vote_entry m v).
Proof.
  intros Hp [H1 H2]. split.
  - intros h r b id w. rewrite voted_vote_entry, votesForBlock_vote_entry.
    destruct (decide (Vote_Height v = h ∧ Vote_Round v = r ∧ Vote_BlockHash v = b)) as [(<-&<-&<-)|Hne].
    + rewrite lookup_insert. destruct (decide (Vote_ValidatorID v = id)) as [<-|Hid].
      * rewrite decide_True by done. naive_solver.
      * rewrite decide_False by tauto. apply H1.
    + rewrite H1. destruct (decide (_ ∧ _)) as [(<-&<-&<-)|]; [|done].
      split; [|naive_solver]. intros [Hw <-]. apply Hp in Hw. naive_solver.
  - intros h r id w. rewrite voted_vote_entry. case_decide; [naive_solver|apply H2].
Qed.

Lemma ensureVoteSignature_fields m v :
  let v' := ensureVoteSignature m v in
  Vote_Height v' = Vote_Height v ∧ Vote_Round v' = Vote_Round v ∧
  Vote_BlockHash v' = Vote_BlockHash v ∧ Vote_ValidatorID v' = Vote_ValidatorID v.
Proof. unfold ensureVoteSignature. by destruct (_ || _). Qed.

Lemma recordVote_frame m v :
  let m' := (recordVote m v).1 in
  sm_blockTree m' = sm_blockTree m ∧ sm_lockedQC m' = sm_lockedQC m ∧
  sm_config m' = sm_config m ∧ sm_validatorSet m' = sm_validatorSet m.
Proof. unfold recordVote. by handler_cases. Qed.

Lemma certify_vote_votes order m v : vote_state (certify_vote order m v).1 = vote_state m.
Proof. unfold certify_vote, updateLockedQC. by handler_cases. Qed.

Definition same_votes (m m' : StateMachine) : Prop :=
  (∀ h r id, voted m' h r id = voted m h r id) ∧
  (∀ h r b, votesForBlock m' h r b = votesForBlock m h r b).

(** A valid vote of a member is entered. *)
Record vote_entered (m m' : StateMachine) (v : Vote) : Prop := {
  entered_member : is_Some (Set_Get (sm_validatorSet m) (Vote_ValidatorID v));
  entered_valid : validateVote m v = Ok tt;
  entered_signature : ∃ vote, v = ensureVoteSignature m vote;
  entered_same : ∀ p, voted m (Vote_Height v) (Vote_Round v) (Vote_ValidatorID v) = Some p →
    Vote_BlockHash p = Vote_BlockHash v;
  entered_state : same_votes (vote_entry m v) m'
}.

Lemma same_votes_state m m' : vote_state m' = vote_state m → same_votes m m'.
Proof. intros Heq. split; intros; [by apply vote_state_voted|by apply vote_state_block]. Qed.

Lemma OnVote_votes order ctx m vote :
  let m' := (OnVote order ctx m vote).1 in
  same_votes m m' ∨ vote_entered m m' (ensureVoteSignature m vote).
Proof.
  cbv zeta. unfold OnVote. destruct ctx; [by left|]. cbn [ctx_guard].
  destruct (ensureVoteSignature_fields m vote) as (_ & _ & _ & Hid).
  destruct (Set_Get _ _) as [info|] eqn:Hget; [|by left].
  remember (ensureVoteSignature m vote) as v eqn:Hv.
  destruct (validateVote m v) as [[]|] eqn:Hval; [|by left].
  destruct (recordVote_spec m v) as [[-> Hp]|(p & Hp & Hne & Hr & Hvoted & Hb & _)].
  - right. split; [rewrite Hid; eauto|done|by exists vote|done|].
    apply same_votes_state, certify_vote_votes.
  - left. destruct (recordVote m v) as [m1 r1]. simpl in *. by subst r1.
Qed.

(** What a call does to the votes. *)
Lemma exec_vote_cases m call :
  same_votes m (exec m call) ∨ ∃ v, vote_entered m (exec m call) v.
Proof.
  destruct call; try (left; by apply same_votes_state, exec_votes).
  destruct (OnVote_votes order ctx m vote); eauto.
Qed.

Lemma exec_votes_ok m call : votes_ok m → votes_ok (exec m call).
Proof.
  intros Hok. destruct (exec_vote_cases m call) as [[]|[v [_ _ _ Hp []]]].
  - by eapply votes_ok_state.
  - by eapply votes_ok_state, votes_ok_entry.
Qed.

Lemma reachable_votes_ok m : reachable m → votes_ok m.
Proof.
  apply invariant_reachable; [|apply exec_votes_ok]. intros config m0 (vs & _ & ->)%NewStateMachine_Ok.
  split; intros *; unfold voted, votesForBlock; simpl; rewrite !lookup_empty; naive_solver.
Qed.

(** The block a validator voted for in a round never changes. *)
Lemma voted_persists m m' h r id v :
  rtc step m m' → voted m h r id = Some v →
  ∃ v', voted m' h r id = Some v' ∧ Vote_BlockHash v' = Vote_BlockHash v.
Proof.
  intros Hr. revert v. induction Hr as [m|m1 m2 m3 [call ->] _ IH]; intros v Hv; [eauto|].
  assert (∃ v', voted (exec m1 call) h r id = Some v' ∧ Vote_BlockHash v' = Vote_BlockHash v)
    as (v' & Hv' & <-); [|by apply IH].
  destruct (exec_vote_cases m1 call) as [[-> _]|[w [_ _ _ Hp [-> _]]]]; [eauto|].
  rewrite voted_vote_entry. case_decide as Hd; [|eauto].
  destruct Hd as (<-&<-&<-). exists w. split; [done|]. symmetry. by apply Hp.
Qed.
End votes.
