(* ===== verification/Certificates.v ===== *)
(** * Certificates built from votes

    What [buildQuorumCert] and [BuildTimeoutCert] put into a certificate,
    whatever the iteration order of the vote map; that a round has at most one
    quorum certificate; that the finality verifier accepts the machine's
    certificates. *)

From S2P Require Import Prelude GoLib Sha256 Types Strconv TxTags FairOrdering Validator SignBytes.
From S2P Require Import DataAvailability Finality BlockTree Evidence Timeouts StateMachine.
From S2P Require Import StateMachineInv.

Section collecting.
Context (vs : ValidatorSet) `{!LawfulSet vs}.

(** The entries of members. *)
Definition members {V} (entries : list (ValidatorID * V)) : list (ValidatorID * V) :=
  filter (λ e, is_Some (Set_Get vs e.1)) entries.

Lemma members_ids {V} (entries : list (ValidatorID * V)) :
  (members entries).*1 ⊆ set_ids vs.
Proof.
  intros id (e & -> & [He _]%list_elem_of_filter)%list_elem_of_fmap. by apply elem_of_set_ids.
Qed.

Lemma members_NoDup {V} (entries : list (ValidatorID * V)) :
  NoDup entries.*1 → NoDup (members entries).*1.
Proof.
  intros Hnd. eapply sublist_NoDup; [done|]. unfold members.
  induction entries as [|e entries IH]; [done|]. rewrite filter_cons.
  apply NoDup_cons in Hnd as [_ Hnd]. case_decide; simpl; constructor; auto.
Qed.

Lemma power_add id v p p' :
  Set_Get vs id = Some v → is_u64 p → AddVotingPower p (Validator_VotingPower v) = Ok p' →
  p' = p + power_of vs id ∧ is_u64 p'.
Proof.
  intros Hget Hp [-> Hlt]%AddVotingPower_Ok; [|done|by eapply Set_Get_u64].
  unfold power_of. rewrite Hget. split; [done|]. pose proof (Set_Get_u64 vs id v Hget).
  unfold is_u64 in *. lia.
Qed.

Lemma collect_votes_Ok entries p votes p' votes' :
  is_u64 p → collect_votes vs entries p votes = Ok (p', votes') →
  p' = p + weight (power_of vs) (members entries).*1 ∧ is_u64 p' ∧
  votes' = votes ++ ((λ e, mkSignedVote e.1 (Vote_Signature e.2)) <$> members entries).
Proof.
  revert p votes. induction entries as [|[id v] entries IH]; intros p votes Hp; simpl.
  { intros [= <- <-]. rewrite app_nil_r. split_and!; [|done..]. rewrite weight_nil. lia. }
  unfold members. rewrite filter_cons. simpl.
  destruct (Set_Get vs id) as [info|] eqn:Hget; [|rewrite decide_False by (by intros []); by apply IH].
  rewrite decide_True by eauto. intros H. result_inv H.
  apply (power_add id info) in H0 as [-> Hu]; [|done..].
  apply IH in H as (-> & Hu' & ->); [|done]. csimpl. rewrite weight_cons, <-(assoc_L (++)).
  split_and!; [unfold members; lia|done|done].
Qed.

(** The best of the collected high certificates. *)
Definition best_qc (qc : QuorumCert) (votes : list TimeoutVote) : QuorumCert :=
  foldl (λ high vote, if isBetterQC (TimeoutVote_HighQC vote) high
                      then TimeoutVote_HighQC vote else high) qc votes.

Lemma collect_timeouts_Ok entries p high votes p' high' votes' :
  is_u64 p → collect_timeouts vs entries p high votes = Ok (p', high', votes') →
  p' = p + weight (power_of vs) (members entries).*1 ∧ is_u64 p' ∧
  high' = best_qc high (members entries).*2 ∧
  votes' = votes ++ ((λ e, mkSignedVote e.1 (TimeoutVote_Signature e.2)) <$> members entries).
Proof.
  revert p high votes. induction entries as [|[id v] entries IH]; intros p high votes Hp; simpl.
  { intros [= <- <- <-]. rewrite app_nil_r. split_and!; [|done..]. rewrite weight_nil. lia. }
  unfold members. rewrite filter_cons. simpl.
  destruct (Set_Get vs id) as [info|] eqn:Hget; [|rewrite decide_False by (by intros []); by apply IH].
  rewrite decide_True by eauto. intros H. result_inv H.
  apply (power_add id info) in H0 as [-> Hu]; [|done..].
  apply IH in H as (-> & Hu' & -> & ->); [|done]. csimpl. rewrite weight_cons, <-(assoc_L (++)).
  split_and!; [unfold members; lia|done|done|done].
Qed.
End collecting.

(** The aggregation step: the signers are the sorted names, the signature is
    the aggregate of their signatures in that order. *)
Lemma aggregate_votes_Ok aggregator votes signers sig :
  aggregate_votes aggregator votes = Ok (signers, sig) →
  ∃ aggregate, aggregator = Some aggregate ∧
    let sorted := sort_by signed_validatorID String.le votes in
    signers = EncodeSigners (signed_validatorID <$> sorted) ∧
    Forall (λ v, signed_signature v ≠ []) votes ∧ votes ≠ [] ∧
    aggregate (signed_signature <$> sorted) = Ok sig.
Proof.
  unfold aggregate_votes. destruct aggregator as [aggregate|]; [|done]. intros H. result_inv H.
  exists aggregate. split; [done|]. cbv zeta. simplify_eq.
  unfold allSignaturesPresent in H0. apply andb_true_iff in H0 as [Hne Hall].
  apply bool_decide_eq_true in Hne. split_and!; [done| | |done].
  - apply Forall_forall. intros v Hv. rewrite forallb_forall in Hall.
    specialize (Hall (signed_signature v)). rewrite bool_decide_eq_true in Hall.
    intros Hnil. apply Hall; [|by rewrite Hnil].
    apply list_elem_of_In, list_elem_of_fmap_2, elem_of_sort_by, Hv.
  - by intros ->.
Qed.

(** ** Quorum certificates *)

Section certificates.
Context `{!EvidenceCodec}.

(** The recorded votes for a block by members, in some order. *)
Definition member_votes (order : MapOrder ValidatorID Vote) (m : StateMachine) h r b :=
  members (sm_validatorSet m) (order (votesForBlock m h r b)).

Definition signed_votes (votes : list (ValidatorID * Vote)) : list signedVote :=
  (λ e, mkSignedVote e.1 (Vote_Signature e.2)) <$> votes.

(** The signers of a certificate: the members who voted, sorted. *)
Definition cert_signers (votes : list (ValidatorID * Vote)) : list ValidatorID :=
  signed_validatorID <$> sort_by signed_validatorID String.le (signed_votes votes).

Lemma cert_signers_perm votes : cert_signers votes ≡ₚ votes.*1.
Proof. unfold cert_signers, signed_votes. rewrite sort_by_perm, <-list_fmap_compose. done. Qed.

Lemma buildQuorumCert_Ok order m h r b qc :
  LawfulSet (sm_validatorSet m) →
  buildQuorumCert order m h r b = Ok qc →
  let votes := member_votes order m h r b in
  QC_Height qc = h ∧ QC_Round qc = r ∧ QC_BlockHash qc = b ∧
  QC_Signers qc = EncodeSigners (cert_signers votes) ∧
  QC_VotingPower qc = weight (power_of (sm_validatorSet m)) votes.*1 ∧
  HasTwoThirdsQuorum (QC_VotingPower qc) (Set_TotalVotingPower (sm_validatorSet m)) = true ∧
  Forall (λ e, Vote_Signature e.2 ≠ []) votes ∧
  ∃ aggregate, cfg_aggregator (sm_config m) = Some aggregate ∧
    aggregate (signed_signature <$> sort_by signed_validatorID String.le (signed_votes votes))
      = Ok (QC_Signature qc).
Proof.
  intros Hlaw Hb votes. unfold buildQuorumCert in Hb. cbv zeta in Hb.
  case_bool_decide; [done|]. result_inv Hb. destruct r0 as [power sv]. result_inv Hb.
  destruct r1 as [signers sig]. result_inv Hb. subst qc.
  apply collect_votes_Ok in Hb0 as (-> & _ & ->); [|done..]. rewrite Z.add_0_l, app_nil_l in *.
  apply aggregate_votes_Ok in Hb2 as (aggregate & Ha & Hs & Hall & _ & Hagg).
  rewrite Forall_fmap in Hall. unfold hasQuorum in Hb1. simpl. split_and!; try done.
  by exists aggregate.
Qed.

(** Who signed a certificate voted for its block. *)
Lemma member_votes_NoDup order m h r b : NoDup (member_votes order m h r b).*1.
Proof. apply members_NoDup, map_range_NoDup. Qed.

Lemma elem_of_member_votes order m h r b id v :
  (id, v) ∈ member_votes order m h r b →
  votesForBlock m h r b !! id = Some v ∧ is_Some (Set_Get (sm_validatorSet m) id).
Proof.
  unfold member_votes, members. rewrite list_elem_of_filter, elem_of_map_range. naive_solver.
Qed.

(** C2: one certificate per round.  In any run from a new machine, certificates
    that the machine builds for one height and round, at any two points with
    the same validator set, are for the same block: a validator's first vote of
    a round fixes its block, and two quorums share a validator. *)
Theorem one_certificate_per_round m1 m2 o1 o2 h r b1 b2 q1 q2 :
  reachable m1 → rtc step m1 m2 → sm_validatorSet m2 = sm_validatorSet m1 →
  LawfulSet (sm_validatorSet m1) → unsaturated (sm_validatorSet m1) →
  buildQuorumCert o1 m1 h r b1 = Ok q1 → buildQuorumCert o2 m2 h r b2 = Ok q2 →
  b1 = b2.
Proof.
  intros Hr Hsteps Hset Hlaw Hunsat H1 H2.
  assert (reachable m2) as Hr2.
  { destruct Hr as (config & m0 & Hnew & Hr). exists config, m0. split; [done|by etrans]. }
  apply buildQuorumCert_Ok in H1 as (_ & _ & _ & _ & Hp1 & Hq1 & _); [|done].
  apply buildQuorumCert_Ok in H2 as (_ & _ & _ & _ & Hp2 & Hq2 & _); [|by rewrite Hset].
  rewrite Hset in Hp2, Hq2. rewrite Hp1 in Hq1. rewrite Hp2 in Hq2.
  destruct (quorum_overlap (sm_validatorSet m1) (member_votes o1 m1 h r b1).*1
    (member_votes o2 m2 h r b2).*1) as [Hpos Hle]; try done.
  - apply member_votes_NoDup.
  - apply member_votes_NoDup.
  - by apply members_ids.
  - unfold member_votes. rewrite Hset. by apply members_ids.
  - destruct (filter _ _) as [|id l] eqn:Hf; [rewrite weight_nil in Hle; lia|].
    assert (id ∈ filter (.∈ (member_votes o2 m2 h r b2).*1) (member_votes o1 m1 h r b1).*1)
      as [Hin2 Hin1]%list_elem_of_filter by (rewrite Hf; by left).
    apply list_elem_of_fmap in Hin1 as ([id1 v1] & -> & [Hv1 _]%elem_of_member_votes).
    apply list_elem_of_fmap in Hin2 as ([id2 v2] & Heq & [Hv2 _]%elem_of_member_votes).
    simpl in Heq. subst id2.
    apply (reachable_votes_ok m1 Hr) in Hv1 as [Hv1 <-].
    apply (reachable_votes_ok m2 Hr2) in Hv2 as [Hv2 <-].
    destruct (voted_persists _ _ _ _ _ _ Hsteps Hv1) as (v' & Hv' & <-). congruence.
Qed.

(** ** The finality verifier accepts the machine's certificates *)

(** A recorded vote is valid: of a member, for a block, and signed. *)
Definition vote_valid (m : StateMachine) (v : Vote) : Prop :=
  Vote_Height v ≠ 0 ∧ Vote_BlockHash v ≠ zero_hash ∧
  ∃ info, Set_Get (sm_validatorSet m) (Vote_ValidatorID v) = Some info ∧
    match cfg_signatures (sm_config m) with
    | None => True
    | Some verify => ∃ message,
        DomainMessage DomainConsensusVote (VoteSignBytes v) = Ok message ∧
        verify (Validator_PublicKey info) message (Vote_Signature v) = true
    end.

Definition votes_valid (m : StateMachine) : Prop :=
  ∀ h r id v, voted m h r id = Some v → vote_valid m v.

Lemma verifyVoteSignature_valid m v info verify :
  Set_Get (sm_validatorSet m) (Vote_ValidatorID v) = Some info →
  cfg_signatures (sm_config m) = Some verify → verifyVoteSignature m v = Ok tt →
  ∃ message, DomainMessage DomainConsensusVote (VoteSignBytes v) = Ok message ∧
    verify (Validator_PublicKey info) message (Vote_Signature v) = true.
Proof.
  intros Hget Hsig. unfold verifyVoteSignature, verify_signature. rewrite Hsig, Hget.
  case_bool_decide; [done|]. intros Hv. result_inv Hv. eauto.
Qed.

Lemma validateVote_valid m v :
  is_Some (Set_Get (sm_validatorSet m) (Vote_ValidatorID v)) → validateVote m v = Ok tt →
  vote_valid m v.
Proof.
  intros [info Hget] Hv. unfold validateVote in Hv. result_inv Hv. destruct r1.
  rewrite bool_decide_eq_true in Hv0, Hv1. split_and!; [done..|]. exists info. split; [done|].
  destruct (cfg_signatures (sm_config m)) as [verify|] eqn:Hsig; [|done].
  by eapply verifyVoteSignature_valid.
Qed.

Lemma epoch_votes_valid m m' :
  rtc epoch_step m m' → votes_valid m → votes_valid m' ∧ sm_config m' = sm_config m ∧
    sm_validatorSet m' = sm_validatorSet m.
Proof.
  induction 1 as [|m1 m2 m3 (call & Hne & ->) _ IH]; intros Hv; [done|].
  pose proof (exec_config m1 call) as Hc. pose proof (exec_set m1 call Hne) as Hs.
  assert (votes_valid (exec m1 call)) as Hv2; [|destruct (IH Hv2) as (? & -> & ->); done].
  intros h r id v. unfold vote_valid. rewrite Hc, Hs.
  destruct (exec_vote_cases m1 call) as [[-> _]|[w [Hm Hw _ _ [-> _]]]]; [by apply Hv|].
  rewrite voted_vote_entry. case_decide; [|by apply Hv]. intros [= <-].
  by apply validateVote_valid.
Qed.

Lemma epoch_steps m m' : rtc epoch_step m m' → rtc step m m'.
Proof. apply rtc_subrel. intros ?? (call & _ & ->). by exists call. Qed.

(** What an aggregation scheme promises: the aggregate of valid signatures of
    one message is non-empty and verifies for the same keys. *)
Definition aggregate_complete (verify : PublicKey → bytes → Signature → bool)
    (aggregate : list Signature → result AggregateSignature) (verifyAggregate : AggregateVerifier) :=
  ∀ keys message sigs sig,
    Forall2 (λ key s, verify key message s = true) keys sigs → sigs ≠ [] →
    aggregate sigs = Ok sig → sig ≠ [] ∧ verifyAggregate keys message sig = true.

Lemma signer_keys_verify vs (verify : PublicKey → bytes → Signature → bool) message (l : list signedVote) :
  Forall (λ sv, ∃ info, Set_Get vs (signed_validatorID sv) = Some info ∧
            verify (Validator_PublicKey info) message (signed_signature sv) = true) l →
  Forall2 (λ (key : PublicKey) (s : Signature), verify key message s = true)
    (signer_keys vs (signed_validatorID <$> l)) (signed_signature <$> l).
Proof.
  induction 1 as [|sv l (info & Hget & Hv) _ IH]; [constructor|].
  unfold signer_keys. csimpl. rewrite Hget. csimpl. by constructor.
Qed.

(** The signed votes of a certificate verify over one message. *)
Lemma member_votes_verify order m h r b verify message :
  votes_ok m → votes_valid m → cfg_signatures (sm_config m) = Some verify →
  DomainMessage DomainConsensusVote (signbytes_Vote h r b) = Ok message →
  Forall (λ sv, ∃ info, Set_Get (sm_validatorSet m) (signed_validatorID sv) = Some info ∧
            verify (Validator_PublicKey info) message (signed_signature sv) = true)
    (sort_by signed_validatorID String.le (signed_votes (member_votes order m h r b))).
Proof.
  intros [Hok Hfields] Hvalid Hsig Hmsg. rewrite sort_by_perm. apply Forall_fmap, Forall_forall.
  intros [id v] [Hv _]%elem_of_member_votes. simpl. apply Hok in Hv as [Hv <-].
  destruct (Hvalid _ _ _ _ Hv) as (_ & _ & info & Hget & Hver). rewrite Hsig in Hver.
  destruct (Hfields _ _ _ _ Hv) as (<- & <- & <-). exists info. split; [done|].
  destruct Hver as (message' & Hm' & Hver). unfold VoteSignBytes in Hm'. congruence.
Qed.

(** Membership ids the certificate encoding can carry. *)
Definition encodable_ids (vs : ValidatorSet) : Prop :=
  Forall (λ id, id ≠ "" ∧ str_elem "," id = false) (set_ids vs).

(** A certificate has a signer, and is for a block. *)
Lemma built_signers_nonempty order m h r b qc :
  LawfulSet (sm_validatorSet m) → buildQuorumCert order m h r b = Ok qc →
  sort_by signed_validatorID String.le (signed_votes (member_votes order m h r b)) ≠ [].
Proof.
  intros Hlaw (_ & _ & _ & _ & Hp & Hq & _)%buildQuorumCert_Ok Hnil; [|done].
  rewrite Hp, <-cert_signers_perm in Hq. unfold cert_signers in Hq. rewrite Hnil in Hq.
  apply HasTwoThirdsQuorum_iff in Hq; [|apply total_u64, _]. simpl in Hq. rewrite weight_nil in Hq.
  lia.
Qed.

Lemma built_nonzero order m h r b qc :
  votes_ok m → votes_valid m → LawfulSet (sm_validatorSet m) →
  buildQuorumCert order m h r b = Ok qc → b ≠ zero_hash.
Proof.
  intros [Hok _] Hvalid Hlaw Hb. apply built_signers_nonempty in Hb; [|done].
  destruct (member_votes order m h r b) as [|[id v] l] eqn:E; [done|].
  assert ((id, v) ∈ member_votes order m h r b) as [Hv _]%elem_of_member_votes
    by (rewrite E; by left).
  apply Hok in Hv as [Hv <-]. by destruct (Hvalid _ _ _ _ Hv) as (_ & ? & _).
Qed.

Lemma built_certified order m h r b qc verify verifyAggregate aggregate :
  votes_ok m → votes_valid m → LawfulSet (sm_validatorSet m) →
  encodable_ids (sm_validatorSet m) →
  cfg_signatures (sm_config m) = Some verify → cfg_aggregator (sm_config m) = Some aggregate →
  aggregate_complete verify aggregate verifyAggregate →
  buildQuorumCert order m h r b = Ok qc →
  certified (sm_validatorSet m)
    (Some (DomainAggregateVerifier_VerifyAggregate verifyAggregate DomainConsensusVote))
    qc h b (signbytes_Vote h r b) (cert_signers (member_votes order m h r b)).
Proof.
  intros Hok Hvalid Hlaw Hids Hsig Hagg Hcomplete Hb.
  pose proof (built_signers_nonempty _ _ _ _ _ _ Hlaw Hb) as Hnonempty.
  apply buildQuorumCert_Ok in Hb as (Hh & _ & Hbh & Hs & Hp & Hq & Hne & aggregate' & Ha & Hsum);
    [|done]. rewrite Hagg in Ha. injection Ha as <-.
  destruct (DomainMessage_Ok DomainConsensusVote (signbytes_Vote h r b)) as [message Hmsg]; [done|].
  assert (cert_signers (member_votes order m h r b) ⊆ set_ids (sm_validatorSet m)) as Hsub.
  { rewrite cert_signers_perm. by apply members_ids. }
  pose proof (member_votes_verify order m h r b verify message Hok Hvalid Hsig Hmsg) as Hall.
  apply signer_keys_verify in Hall.
  destruct (Hcomplete _ _ _ (QC_Signature qc) Hall) as [Hsigne Hver]; [|done|].
  { by intros Hnil%fmap_nil_inv. }
  split; try done.
  - rewrite Hs. apply ParseSigners_spec. split; [done|]. apply Forall_forall. intros id Hid.
    unfold encodable_ids in Hids. rewrite Forall_forall in Hids. by apply Hids, Hsub.
  - rewrite cert_signers_perm. apply member_votes_NoDup.
  - by rewrite cert_signers_perm, <-Hp.
  - right. by rewrite cert_signers_perm.
  - unfold DomainAggregateVerifier_VerifyAggregate. by rewrite Hmsg.
Qed.

End certificates.

(** ** Timeout certificates *)

Lemma best_qc_max qc votes :
  (∀ v, v ∈ votes → qc_le (TimeoutVote_HighQC v) (best_qc qc votes)) ∧
  qc_le qc (best_qc qc votes) ∧
  (best_qc qc votes = qc ∨ ∃ v, v ∈ votes ∧ best_qc qc votes = TimeoutVote_HighQC v).
Proof.
  revert qc. induction votes as [|v votes IH]; intros qc.
  { split_and!; [by intros v ?%not_elem_of_nil|done|by left]. }
  set (qc' := if isBetterQC (TimeoutVote_HighQC v) qc then TimeoutVote_HighQC v else qc).
  change (best_qc qc (v :: votes)) with (best_qc qc' votes). destruct (IH qc') as (Hall & Hle & Hin).
  assert (qc_le qc qc' ∧ qc_le (TimeoutVote_HighQC v) qc' ∧
          (qc' = qc ∨ qc' = TimeoutVote_HighQC v)) as (H1 & H2 & H3).
  { unfold qc'. destruct (isBetterQC _ _) eqn:E.
    - apply isBetterQC_iff in E. split_and!; [unfold qc_lt, qc_le in *; lia|done|by right].
    - split_and!; [done| |by left]. assert (¬ qc_lt qc (TimeoutVote_HighQC v)) as Hn.
      { rewrite <-isBetterQC_iff. by rewrite E. }
      unfold qc_lt, qc_le in *. lia. }
  split_and!.
  - intros w [->|Hw]%elem_of_cons; [by etrans|by apply Hall].
  - by etrans.
  - destruct Hin as [Hin|(w & Hw & Hin)]; [|right; exists w; split; [by right|done]].
    destruct H3 as [H3|H3]; rewrite H3 in Hin at 2; rewrite Hin; [by left|].
    right. exists v. split; [by left|done].
Qed.

(** Specification of a timeout certificate of a collector. *)
Record timeout_certified (c : TimeoutCollector) (h : Height) (r : Round) (tc : TimeoutCert)
    (votes : list (ValidatorID * TimeoutVote)) : Prop := {
  tcert_view : TC_Height tc = h ∧ TC_Round tc = r;
  tcert_votes : ∀ id v, (id, v) ∈ votes ↔
    votesForRound c h r !! id = Some v ∧ is_Some (Set_Get (tc_validatorSet c) id);
  tcert_nodup : NoDup votes.*1;
  tcert_quorum :
    HasTwoThirdsQuorum (weight (power_of (tc_validatorSet c)) votes.*1)
      (Set_TotalVotingPower (tc_validatorSet c)) = true;
  tcert_signers : TC_Signers tc = EncodeSigners (sort_by id String.le votes.*1);
  tcert_high : ∀ v, v ∈ votes.*2 → qc_le (TimeoutVote_HighQC v) (TC_HighQC tc);
  tcert_high_voted : TC_HighQC tc = zero_QC ∨ ∃ v, v ∈ votes.*2 ∧ TC_HighQC tc = TimeoutVote_HighQC v
}.

Lemma BuildTimeoutCert_Ok order c h r tc :
  LawfulSet (tc_validatorSet c) → BuildTimeoutCert order c h r = Ok tc →
  timeout_certified c h r tc (members (tc_validatorSet c) (order (votesForRound c h r))).
Proof.
  intros Hlaw Hb. unfold BuildTimeoutCert in Hb. cbv zeta in Hb.
  case_bool_decide; [done|]. result_inv Hb. destruct r0 as [[power high] sv]. result_inv Hb.
  destruct r1 as [signers sig]. result_inv Hb. subst tc.
  apply collect_timeouts_Ok in Hb0 as (-> & _ & -> & ->); [|done..].
  rewrite Z.add_0_l, app_nil_l in *.
  apply aggregate_votes_Ok in Hb2 as (aggregate & _ & Hs & _).
  set (votes := members _ _) in *.
  assert (NoDup votes.*1) as Hnd by (apply members_NoDup, map_range_NoDup).
  destruct (best_qc_max zero_QC votes.*2) as (Hall & _ & Hin).
  split; try done.
  - intros id v. unfold votes, members. rewrite list_elem_of_filter, elem_of_map_range. naive_solver.
  - simpl. rewrite Hs. f_equal. apply (StronglySorted_unique String.le).
    + apply sort_by_sorted; apply _.
    + rewrite <-(list_fmap_id (sort_by _ _ _)). apply sort_by_sorted; apply _.
    + rewrite !sort_by_perm, <-list_fmap_compose. done.
Qed.

(** An accepted certificate is not behind the pacemaker. *)
Lemma AdvanceRound_Ok pm tc pm' :
  AdvanceRound pm tc = Ok pm' →
  pm' = mkPacemaker (TC_Height tc) (wrap64 (TC_Round tc + 1)) ∧
  (pm_height pm < TC_Height tc ∨ pm_height pm = TC_Height tc ∧ pm_round pm ≤ TC_Round tc).
Proof.
  unfold AdvanceRound. repeat case_bool_decide; try done; intros [= <-]; [split; [done|lia]|].
  assert (pm_height pm = TC_Height tc) as -> by lia. split; [done|lia].
Qed.

(** A timeout certificate is backed by a quorum and moves the view on.
    When [OnTimeoutVote] returns a certificate, members with two thirds of the
    power timed out in its round, its high certificate is the best of theirs,
    and the machine is in the next round, later than its pacemaker's old round
    unless the round counter wraps; the lock is untouched. *)
Theorem timeout_certificate_advances `{!EvidenceCodec} order ctx m vote m' tc :
  LawfulSet (tc_validatorSet (sm_timeouts m)) →
  OnTimeoutVote order ctx m vote = (m', Ok tc) →
  (∃ votes, timeout_certified (sm_timeouts m') (TimeoutVote_Height vote) (TimeoutVote_Round vote)
              tc votes) ∧
  Status_Height (sm_status m') = TimeoutVote_Height vote ∧
  Status_Round (sm_status m') = wrap64 (TimeoutVote_Round vote + 1) ∧
  Status_LastTimeoutCert (sm_status m') = tc ∧
  sm_pacemaker m' = mkPacemaker (Status_Height (sm_status m')) (Status_Round (sm_status m')) ∧
  (0 ≤ TimeoutVote_Round vote < max_u64 →
     pm_height (sm_pacemaker m) < pm_height (sm_pacemaker m') ∨
     pm_height (sm_pacemaker m) = pm_height (sm_pacemaker m') ∧
     pm_round (sm_pacemaker m) < pm_round (sm_pacemaker m')) ∧
  sm_lockedQC m' = sm_lockedQC m.
Proof.
  intros Hlaw Hon. unfold OnTimeoutVote in Hon. destruct ctx; [done|]. cbn [ctx_guard] in Hon.
  set (v := ensureTimeoutVoteSignature m vote) in *.
  assert (TimeoutVote_Height v = TimeoutVote_Height vote ∧
          TimeoutVote_Round v = TimeoutVote_Round vote) as [Hh Hr]
    by (unfold v, ensureTimeoutVoteSignature; by destruct (_ || _)).
  destruct (verifyTimeoutVoteSignature m v); [|done].
  assert (tc_validatorSet (Timeout_AddVote (sm_timeouts m) v).1 = tc_validatorSet (sm_timeouts m))
    as Hset by (unfold Timeout_AddVote; by handler_cases).
  destruct (Timeout_AddVote (sm_timeouts m) v) as [timeouts [[]|]] eqn:Hadd; [|done].
  simpl in *. destruct (BuildTimeoutCert _ _ _ _) as [tc'|] eqn:Hbuild; [|done].
  destruct (AdvanceRound _ _) as [pacemaker|] eqn:Hadv; [|done].
  injection Hon as <- <-. simpl.
  apply BuildTimeoutCert_Ok in Hbuild; [|by rewrite Hset]. rewrite Hh, Hr in Hbuild.
  destruct (tcert_view _ _ _ _ _ Hbuild) as [Hth Htr].
  apply AdvanceRound_Ok in Hadv as [-> Hle]. rewrite Hth, Htr in *. simpl.
  split_and!; try done.
  - by eexists.
  - intros Hb. rewrite wrap64_small by (unfold is_u64, two64, max_u64 in *; lia). lia.
Qed.
