(* ===== verification/Commits.v ===== *)
(** * Commits of the state machine

    The committed blocks of a machine: one per height, in height order, never
    revoked, and each backed by three consecutive blocks of the tree; after an
    accepted proposal every three-chain of the tree is committed.  Locks and the
    high certificate never get worse. *)

From S2P Require Import Prelude GoLib Sha256 Types Strconv TxTags FairOrdering Validator SignBytes.
From S2P Require Import DataAvailability BlockTree Evidence Timeouts StateMachine StateMachineInv.

Lemma StronglySorted_lt (l : list Z) : StronglySorted Z.le l → NoDup l → StronglySorted Z.lt l.
Proof.
  induction 1 as [|x l Hs IH Hall]; intros Hnd; [constructor|].
  apply NoDup_cons in Hnd as [Hx Hnd]. constructor; [by apply IH|].
  rewrite Forall_forall in *. intros y Hy. specialize (Hall y Hy).
  assert (x ≠ y) by (by intros ->). lia.
Qed.

Lemma StronglySorted_lt_NoDup (l : list Z) : StronglySorted Z.lt l → NoDup l.
Proof.
  induction 1 as [|x l Hs IH Hall]; constructor; [|done].
  rewrite Forall_forall in Hall. intros Hx%Hall. lia.
Qed.

(** ** The commit history *)

(** Consistency of the commits: in height order with one block per height, the
    set and the index agree with the list, and the status names the highest. *)
Record commits_ok (m : StateMachine) : Prop := {
  commits_sorted : StronglySorted Z.lt (Decision_CommittedHeight <$> sm_committed m);
  commits_set : ∀ hash, hash ∈ sm_committedSet m ↔
    ∃ d, d ∈ sm_committed m ∧ Decision_CommittedBlockHash d = hash;
  commits_index : ∀ h hash, sm_commitIndex m !! h = Some hash ↔
    ∃ d, d ∈ sm_committed m ∧ Decision_CommittedHeight d = h ∧
         Decision_CommittedBlockHash d = hash;
  commits_last : Status_LastFinalized (sm_status m) =
    match last (sm_committed m) with
    | Some d => Decision_CommittedBlockHash d
    | None => zero_hash
    end
}.

Lemma commits_ok_state m m' : commit_state m' = commit_state m → commits_ok m → commits_ok m'.
Proof.
  unfold commit_state. intros [= H1 H2 H3 H4] [Hs Hset Hi Hl].
  split; rewrite ?H1, ?H2, ?H3, ?H4; done.
Qed.

(** Two commits of one height are the same. *)
Lemma commits_unique m d1 d2 :
  commits_ok m → d1 ∈ sm_committed m → d2 ∈ sm_committed m →
  Decision_CommittedHeight d1 = Decision_CommittedHeight d2 → d1 = d2.
Proof.
  intros Hok H1 H2 Heq. pose proof (StronglySorted_lt_NoDup _ (commits_sorted m Hok)) as Hnd.
  apply list_elem_of_lookup in H1 as [i Hi], H2 as [j Hj].
  assert (i = j) as ->; [|congruence].
  eapply (NoDup_lookup (Decision_CommittedHeight <$> sm_committed m));
    [done|by rewrite list_lookup_fmap, Hi|]. rewrite list_lookup_fmap, Hj. simpl. by rewrite Heq.
Qed.

(** The effect of the commit rule: nothing, or a new decision of a fresh
    height. *)
Lemma applyCommitRule_cases m c :
  let m' := (applyCommitRule m c).1 in
  commits_ok m →
  (m' = m ∧ match (applyCommitRule m c).2 with
            | Ok d => three_chain c d ∧ Decision_CommittedBlockHash d ∈ sm_committedSet m
            | Err e => e = ErrCommitRuleNotSatisfied ∧ (∀ d, ¬ three_chain c d) ∨
                       e = ErrConflictingCommit ∧ ∃ d d', three_chain c d ∧
                         d' ∈ sm_committed m ∧
                         Decision_CommittedHeight d' = Decision_CommittedHeight d ∧
                         Decision_CommittedBlockHash d' ≠ Decision_CommittedBlockHash d
            end) ∨
  ∃ d, (applyCommitRule m c).2 = Ok d ∧ three_chain c d ∧
    Decision_CommittedBlockHash d ∉ sm_committedSet m ∧
    sm_commitIndex m !! Decision_CommittedHeight d = None ∧
    sm_committed m' = sort_commits (sm_committed m ++ [d]) ∧
    sm_committedSet m' = {[Decision_CommittedBlockHash d]} ∪ sm_committedSet m ∧
    sm_commitIndex m' =
      <[Decision_CommittedHeight d := Decision_CommittedBlockHash d]> (sm_commitIndex m) ∧
    Status_LastFinalized (sm_status m') =
      match last (sm_committed m') with
      | Some d => Decision_CommittedBlockHash d
      | None => zero_hash
      end.
Proof.
  cbv zeta. intros Hok. unfold applyCommitRule. destruct (Decide c) as [d|e] eqn:Hd; last first.
  { left. split; [done|]. simpl. left. split; [by eapply Decide_Err|].
    intros d Hc%Decide_iff. congruence. }
  apply Decide_iff in Hd. case_bool_decide as Hin; [by left|].
  unfold CommitIndex_Record. destruct (sm_commitIndex m !! _) as [hash|] eqn:Hidx.
  - left. apply (commits_index m Hok) in Hidx as (d' & Hd' & Hh & Hhash).
    rewrite bool_decide_eq_true_2; [|intros ->; apply Hin, (commits_set m Hok); eauto].
    split; [done|]. right. split; [done|]. exists d, d'. split_and!; [done..|].
    intros Heq. apply Hin, (commits_set m Hok). eauto.
  - right. exists d. split_and!; try done. simpl.
    destruct (last (sort_commits (sm_committed m ++ [d]))) eqn:Hlast; [done|].
    apply last_None in Hlast. assert (d ∈ sort_commits (sm_committed m ++ [d])) as Hel.
    { apply elem_of_sort_by, elem_of_app. right. by left. }
    rewrite Hlast in Hel. by apply not_elem_of_nil in Hel.
Qed.

Lemma applyCommitRule_ok m c : commits_ok m → commits_ok (applyCommitRule m c).1.
Proof.
  intros Hok. destruct (applyCommitRule_cases m c Hok) as [[-> _]|
    (d & _ & _ & Hnew & Hidx & Hc & Hs & Hi & Hl)]; [done|].
  generalize dependent (applyCommitRule m c).1. intros m' Hc Hs Hi Hl.
  assert (∀ x, x ∈ sm_committed m' ↔ x = d ∨ x ∈ sm_committed m) as Hel.
  { intros x. rewrite Hc. unfold sort_commits. rewrite elem_of_sort_by. set_solver. }
  split; [| | |done].
  - rewrite Hc. apply StronglySorted_lt; [apply sort_by_sorted; apply _|].
    unfold sort_commits. rewrite sort_by_perm, fmap_app. apply NoDup_app. split_and!.
    + apply StronglySorted_lt_NoDup, commits_sorted, Hok.
    + intros h (d' & -> & Hd')%list_elem_of_fmap. simpl. intros [Heq|[]%not_elem_of_nil]%elem_of_cons.
      assert (sm_commitIndex m !! Decision_CommittedHeight d = Some (Decision_CommittedBlockHash d'))
        as ?; [|congruence]. apply (commits_index m Hok). eauto.
    + apply NoDup_singleton.
  - intros hash. rewrite Hs, elem_of_union, elem_of_singleton, (commits_set m Hok).
    setoid_rewrite Hel. naive_solver.
  - intros h hash. rewrite Hi, lookup_insert. setoid_rewrite Hel. case_decide as Heq.
    + subst h. split; [naive_solver|]. intros (d' & [->|Hd'] & Hh & <-); [done|].
      assert (sm_commitIndex m !! Decision_CommittedHeight d = Some (Decision_CommittedBlockHash d'))
        as ?; [|congruence]. apply (commits_index m Hok). eauto.
    + rewrite (commits_index m Hok). naive_solver.
Qed.

(** A step that commits: consistency is kept, old commits stay, and new ones
    satisfy the rule for a candidate of [P]. *)
Record commit_step (P : CommitCandidate → Prop) (m m' : StateMachine) : Prop := {
  cs_ok : commits_ok m';
  cs_grow : ∀ d, d ∈ sm_committed m → d ∈ sm_committed m';
  cs_new : ∀ d, d ∈ sm_committed m' → d ∈ sm_committed m ∨ ∃ c, P c ∧ three_chain c d
}.

Lemma commit_step_state P m m' :
  commits_ok m → commit_state m' = commit_state m → commit_step P m m'.
Proof.
  intros Hok Heq. assert (sm_committed m' = sm_committed m) as Hc by (by injection Heq).
  split; [by eapply commits_ok_state|by rewrite Hc|rewrite Hc; auto].
Qed.

Lemma commit_step_trans P m1 m2 m3 :
  commit_step P m1 m2 → commit_step P m2 m3 → commit_step P m1 m3.
Proof.
  intros [_ Hg1 Hn1] [Hok Hg2 Hn2]. split; [done|auto|].
  intros d [Hd|?]%Hn2; [by apply Hn1|by right].
Qed.

Lemma commit_step_weaken (P Q : CommitCandidate → Prop) m m' :
  (∀ c, P c → Q c) → commit_step P m m' → commit_step Q m m'.
Proof. intros HPQ [Hok Hg Hn]. split; [done..|]. intros d [?|(c & ? & ?)]%Hn; eauto. Qed.

Lemma applyCommitRule_step m c : commits_ok m → commit_step (.= c) m (applyCommitRule m c).1.
Proof.
  intros Hok. pose proof (applyCommitRule_ok m c Hok) as Hok'.
  destruct (applyCommitRule_cases m c Hok) as [[Heq _]|(d & _ & Hd & _ & _ & Hc & _)].
  { rewrite Heq. by apply commit_step_state. }
  assert (∀ x, x ∈ sm_committed (applyCommitRule m c).1 ↔ x = d ∨ x ∈ sm_committed m) as Hel.
  { intros x. rewrite Hc. unfold sort_commits. rewrite elem_of_sort_by. set_solver. }
  split; [done|intros x Hx; apply Hel; by right|].
  intros x [->|Hx]%Hel; [|by left]. right. by exists c.
Qed.

Lemma apply_rules_step m hashes :
  commits_ok m →
  commit_step (λ c, ∃ h, h ∈ hashes ∧ Tree_CommitCandidate (sm_blockTree m) h = Some c) m
    (apply_rules m hashes).1.
Proof.
  revert m. induction hashes as [|h hashes IH]; intros m Hok; [by apply commit_step_state|]. simpl.
  assert (∀ m1, commits_ok m1 → sm_blockTree m1 = sm_blockTree m → commit_step
    (λ c, ∃ h', h' ∈ h :: hashes ∧ Tree_CommitCandidate (sm_blockTree m) h' = Some c) m1
    (apply_rules m1 hashes).1) as Hrest.
  { intros m1 Hok1 Ht. eapply commit_step_weaken; [|by apply IH].
    rewrite Ht. intros c (h' & Hh' & Hc). exists h'. split; [by right|done]. }
  destruct (Tree_CommitCandidate _ h) as [c|] eqn:Hc; [|by apply Hrest].
  pose proof (applyCommitRule_step m c Hok) as Hstep.
  eapply (commit_step_weaken _
    (λ c, ∃ h', h' ∈ h :: hashes ∧ Tree_CommitCandidate (sm_blockTree m) h' = Some c)) in Hstep;
    [|intros ? ->; exists h; split; [by left|done]].
  pose proof (applyCommitRule_frame m c) as [_ _ _ _ _ _ Ht _].
  destruct (applyCommitRule m c) as [m1 r]. simpl in *.
  assert (commit_step (λ c, ∃ h', h' ∈ h :: hashes ∧
      Tree_CommitCandidate (sm_blockTree m) h' = Some c) m (apply_rules m1 hashes).1).
  { eapply commit_step_trans; [done|]. apply Hrest; [by eapply cs_ok|done]. }
  destruct r; [done|]. by destruct (negb _).
Qed.

(** When the rules were applied without a conflict, every three-chain of the
    tree is committed; the only error is a conflict with an earlier commit. *)
Lemma apply_rules_complete m hashes :
  commits_ok m →
  match (apply_rules m hashes).2 with
  | Ok _ => ∀ h c d, h ∈ hashes → Tree_CommitCandidate (sm_blockTree m) h = Some c →
      three_chain c d → Decision_CommittedBlockHash d ∈ sm_committedSet (apply_rules m hashes).1
  | Err e => e = ErrConflictingCommit
  end.
Proof.
  revert m. induction hashes as [|h hashes IH]; intros m Hok.
  { simpl. by intros h c d ?%not_elem_of_nil. }
  simpl. destruct (Tree_CommitCandidate _ h) as [c|] eqn:Hc; last first.
  { specialize (IH m Hok). destruct (apply_rules m hashes).2; [|done].
    intros h' c d [->|Hh]%elem_of_cons Hc'; [congruence|]. by eapply IH. }
  pose proof (applyCommitRule_frame m c) as [_ _ _ _ _ _ Ht _].
  pose proof (applyCommitRule_ok m c Hok) as Hok1.
  assert (match (applyCommitRule m c).2 with
          | Ok d => three_chain c d ∧
              Decision_CommittedBlockHash d ∈ sm_committedSet (applyCommitRule m c).1
          | Err e => e = ErrCommitRuleNotSatisfied ∧ (∀ d, ¬ three_chain c d) ∨
              e = ErrConflictingCommit
          end) as Hr.
  { destruct (applyCommitRule_cases m c Hok) as [[-> Hr]|(d & -> & Hd & _ & _ & _ & -> & _)];
      [destruct (applyCommitRule m c).2; tauto|]. split; [done|set_solver]. }
  destruct (applyCommitRule m c) as [m1 r]. simpl in *. specialize (IH m1 Hok1).
  pose proof (apply_rules_step m1 hashes Hok1) as Hstep.
  assert (∀ hash, hash ∈ sm_committedSet m1 → hash ∈ sm_committedSet (apply_rules m1 hashes).1)
    as Hgrow.
  { intros hash (d & Hd & <-)%(commits_set m1 Hok1). apply (commits_set _ (cs_ok _ _ _ Hstep)).
    exists d. split; [by apply (cs_grow _ _ _ Hstep)|done]. }
  rewrite Ht in IH. destruct r as [d|e].
  - destruct (apply_rules m1 hashes).2; [|done].
    intros h' c' d' [->|Hh]%elem_of_cons Hc' Hd'; [|by eapply IH].
    assert (d' = d) as ->; [|by apply Hgrow, Hr].
    assert (c' = c) as -> by congruence. destruct Hr as [Hr _].
    unfold three_chain in Hr, Hd'. destruct_and!. congruence.
  - destruct Hr as [[-> Hno]| ->]; [|done]. simpl.
    destruct (apply_rules m1 hashes).2; [|done].
    intros h' c' d' [->|Hh]%elem_of_cons Hc' Hd'; [|by eapply IH].
    assert (c' = c) as -> by congruence. by destruct (Hno d').
Qed.

(** ** The tree *)

(** A well-formed node: filed under its block's hash, its parent is the header's,
    its certificate is for it, and its justification is for its parent. *)
Record node_ok (hashBlock : Block → Hash) (hash : Hash) (node : BlockNode) : Prop := {
  node_hash : Node_Hash node = hash ∧ hashBlock (Node_Block node) = hash;
  node_parent : Node_ParentHash node = Header_PreviousBlockHash (Block_Header (Node_Block node));
  node_cert : 0 < QC_Height (Node_QuorumCert node) →
    QC_BlockHash (Node_QuorumCert node) = hash ∧
    QC_Height (Node_QuorumCert node) = Header_Height (Block_Header (Node_Block node));
  node_justify : 0 < QC_Height (Node_JustifyQC node) →
    QC_BlockHash (Node_JustifyQC node) = Node_ParentHash node ∧
    QC_Height (Node_JustifyQC node) ≤ Header_Height (Block_Header (Node_Block node))
}.

Definition tree_ok (m : StateMachine) : Prop :=
  ∀ hash node, Tree_Get (sm_blockTree m) hash = Some node →
    node_ok (cfg_hashBlock (sm_config m)) hash node.

Lemma tree_ok_blocks m m' :
  sm_config m' = sm_config m →
  tree_blocks (sm_blockTree m') = tree_blocks (sm_blockTree m) → tree_ok m → tree_ok m'.
Proof.
  intros Hc Hb Hok hash node. unfold Tree_Get. rewrite Hc, Hb. apply Hok.
Qed.

(** Inserting a block that has no certificate yet. *)
Lemma Tree_Insert_ok hashBlock tree block qc :
  (∀ hash node, Tree_Get tree hash = Some node → node_ok hashBlock hash node) →
  (∀ node, Tree_Get tree (hashBlock block) = Some node → ¬ 0 < QC_Height (Node_QuorumCert node)) →
  (0 < QC_Height qc →
     QC_BlockHash qc = Header_PreviousBlockHash (Block_Header block) ∧
     QC_Height qc ≤ Header_Height (Block_Header block)) →
  ∀ hash node, Tree_Get (Tree_Insert tree block (hashBlock block) qc) hash = Some node →
    node_ok hashBlock hash node.
Proof.
  intros Hok Huncert Hqc hash node. unfold Tree_Insert, Tree_Get.
  rewrite ObserveQuorumCert_blocks. simpl. rewrite lookup_insert.
  case_decide as Heq; [|apply Hok]. subst hash. intros [= <-].
  unfold insert_node. split; simpl; try done.
  destruct (tree_blocks tree !! hashBlock block) as [old|] eqn:E; [|done]. intros Hpos.
  by destruct (Huncert old E).
Qed.

Lemma Tree_SetQuorumCert_ok hashBlock tree qc tree' :
  (∀ hash node, Tree_Get tree hash = Some node → node_ok hashBlock hash node) →
  Tree_SetQuorumCert tree qc = Ok tree' →
  ∀ hash node, Tree_Get tree' hash = Some node → node_ok hashBlock hash node.
Proof.
  intros Hok Hset. unfold Tree_SetQuorumCert in Hset. destruct (_ || _); [done|].
  destruct (Tree_Get tree _) as [old|] eqn:E; [|done]. case_bool_decide as Hh; [done|].
  injection Hset as <-. intros hash node. unfold Tree_Get.
  rewrite ObserveQuorumCert_blocks. simpl. rewrite lookup_insert.
  case_decide as Heq; [|apply Hok]. subst hash. intros [= <-].
  destruct (Hok _ _ E) as [Hhash Hparent _ Hjust].
  by split; simpl.
Qed.

Section exec.
Context `{!EvidenceCodec}.

Lemma validateProposal_justify m p :
  validateProposal m p = Ok tt → 0 < QC_Height (Proposal_JustifyQC p) →
  QC_BlockHash (Proposal_JustifyQC p) =
    Header_PreviousBlockHash (Block_Header (Proposal_Block p)) ∧
  QC_Height (Proposal_JustifyQC p) ≤ Header_Height (Block_Header (Proposal_Block p)).
Proof.
  intros Hv Hpos. unfold validateProposal in Hv.
  destruct (Set_Get _ _); [|done]. result_inv Hv.
  rewrite negb_true_iff, andb_false_iff, !bool_decide_eq_false in Hv, Hv7.
  destruct Hv as [?|Hb]; [lia|]. destruct Hv7 as [?|Hh]; [lia|].
  apply dec_stable in Hb. split; [done|lia].
Qed.

Lemma insert_proposal_ok m p :
  tree_ok m → validateProposal m p = Ok tt →
  is_certified m (cfg_hashBlock (sm_config m) (Proposal_Block p)) = false →
  tree_ok (insert_proposal m p).
Proof.
  intros Hok Hv Hc. unfold tree_ok, insert_proposal. simpl. apply Tree_Insert_ok; [done| |].
  - intros node Hn. unfold is_certified in Hc. rewrite Hn in Hc. by apply bool_decide_eq_false in Hc.
  - by eapply validateProposal_justify.
Qed.

(** A call that certifies: the tree takes a certificate, which may become the
    lock. *)
Record certifies (m m' : StateMachine) (qc : QuorumCert) : Prop := {
  cert_config : sm_config m' = sm_config m;
  cert_tree : Tree_SetQuorumCert (sm_blockTree m) qc = Ok (sm_blockTree m');
  cert_locked : sm_lockedQC m' = sm_lockedQC m ∧ qc_le qc (sm_lockedQC m) ∨
                sm_lockedQC m' = qc ∧ qc_lt (sm_lockedQC m) qc
}.

Lemma certifies_update m tree qc :
  Tree_SetQuorumCert (sm_blockTree m) qc = Ok tree →
  certifies m (updateLockedQC (set_tree m tree) qc) qc.
Proof.
  intros Hset. assert (bool_decide (QC_Height qc = 0) || bool_decide (QC_BlockHash qc = zero_hash)
    = false) as Hnz.
  { unfold Tree_SetQuorumCert in Hset. by destruct (_ || _). }
  unfold updateLockedQC. rewrite Hnz. simpl. destruct (isBetterQC qc (sm_lockedQC m)) eqn:Hb.
  - apply isBetterQC_iff in Hb. split; simpl; [done..|by right].
  - split; simpl; [done..|left]. split; [done|].
    assert (¬ qc_lt (sm_lockedQC m) qc) as Hn by (rewrite <-isBetterQC_iff; by rewrite Hb).
    unfold qc_lt, qc_le in *. lia.
Qed.

(** A vote leaves tree and lock alone, or certifies. *)
Lemma OnVote_tree order ctx m vote :
  let m' := (OnVote order ctx m vote).1 in
  sm_blockTree m' = sm_blockTree m ∧ sm_lockedQC m' = sm_lockedQC m ∨
  ∃ m1 qc, sm_blockTree m1 = sm_blockTree m ∧ sm_lockedQC m1 = sm_lockedQC m ∧
    sm_config m1 = sm_config m ∧ sm_validatorSet m1 = sm_validatorSet m ∧
    vote_state m' = vote_state m1 ∧
    buildQuorumCert order m1 (Vote_Height vote) (Vote_Round vote) (Vote_BlockHash vote) = Ok qc ∧
    certifies m1 m' qc.
Proof.
  cbv zeta. unfold OnVote. destruct ctx; [by left|]. cbn [ctx_guard].
  destruct (Set_Get _ _) as [info|]; [|by left].
  destruct (ensureVoteSignature_fields m vote) as (Hh & Hr & Hb & _).
  destruct (validateVote _ _); [|by left].
  destruct (recordVote_frame m (ensureVoteSignature m vote)) as (Ht & Hl & Hc & Hs).
  destruct (recordVote m _) as [m1 [[]|]]; [|by left]. simpl in *.
  unfold certify_vote. rewrite Hh, Hr, Hb.
  destruct (buildQuorumCert _ _ _ _ _) as [qc|] eqn:Hqc; [|by left].
  destruct (Tree_SetQuorumCert _ _) as [tree|] eqn:Hset; last first.
  { left. by destruct (negb _). }
  right. exists m1, qc. split_and!; [done..| |done|].
  - unfold updateLockedQC. by handler_cases.
  - by destruct (certifies_update m1 tree qc Hset).
Qed.

Lemma exec_tree_ok m call : tree_ok m → tree_ok (exec m call).
Proof.
  intros Hok. destruct call; simpl.
  - done.
  - by destruct validatorSet.
  - destruct (OnProposal_shape order ctx m proposal) as [->|(m1 & Hm1 & Hm2)]; [done|].
    assert (tree_ok m1) as Hok1.
    { destruct Hm1 as [->|(-> & Hv & Hc)]; [done|by apply insert_proposal_ok]. }
    assert (tree_ok (applyKnownCommitRules order m1).1).
    { destruct (applyKnownCommitRules_frame order m1) as [Hc _ _ _ _ _ Ht _].
      eapply tree_ok_blocks; [exact Hc|by rewrite Ht|done]. }
    destruct Hm2 as [->| ->]; done.
  - pose proof (exec_config m (CallOnVote order ctx vote)) as Hc. simpl in Hc.
    destruct (OnVote_tree order ctx m vote) as [[Ht _]|(m1 & qc & Ht & _ & _ & _ & _ & _ & Hcert)].
    + eapply tree_ok_blocks; [done|by rewrite Ht|done].
    + intros hash node. rewrite Hc. eapply Tree_SetQuorumCert_ok; [apply Hok|].
      rewrite <-Ht. apply Hcert.
  - eapply (tree_ok_blocks m); [apply (exec_config m (CallOnTimeoutVote order ctx vote))| |done].
    unfold OnTimeoutVote. handler_cases; try done. apply ObserveQuorumCert_blocks.
  - destruct (applyCommitRule_frame m candidate) as [Hc _ _ _ _ _ Ht _].
    eapply tree_ok_blocks; [exact Hc|exact (f_equal tree_blocks Ht)|done].
  - unfold ObserveCommittedBlock. destruct (_ || _) eqn:E; [done|].
    apply orb_false_iff in E as [Hh Hb]. rewrite !bool_decide_eq_false in Hh, Hb.
    set (m1 := match Tree_Get _ _ with Some _ => _ | None => _ end).
    assert (tree_ok m1 ∧ sm_config m1 = sm_config m) as [Hok1 Hc1].
    { unfold m1. destruct (Tree_Get _ _) as [n|] eqn:Hget; [done|]. split; [|done].
      unfold tree_ok. simpl. apply Tree_Insert_ok; [done| |done]. intros node. by rewrite Hget. }
    destruct (Tree_SetQuorumCert (sm_blockTree m1) quorumCert) as [tree|] eqn:Hset; [|done].
    simpl. destruct (certifies_update m1 tree quorumCert Hset) as [Hc Ht _].
    intros hash node. rewrite Hc. eapply Tree_SetQuorumCert_ok; [apply Hok1|exact Ht].
Qed.

(** ** Commits of a run *)

Lemma exec_commit_step m call :
  commits_ok m →
  commit_step (λ c, call = CallApplyCommitRule c ∨
                    ∃ h, Tree_CommitCandidate (sm_blockTree (exec m call)) h = Some c)
    m (exec m call).
Proof.
  intros Hok. destruct call; simpl.
  - by apply commit_step_state.
  - destruct validatorSet; by apply commit_step_state.
  - destruct (OnProposal_shape order ctx m proposal) as [->|(m1 & Hm1 & Hm2)];
      [by apply commit_step_state|].
    assert (commits_ok m1 ∧ commit_state m1 = commit_state m) as [Hok1 Hst1].
    { destruct Hm1 as [->|(-> & _)]; [done|]. split; [|done].
      by eapply (commits_ok_state m). }
    pose proof (apply_rules_step m1 (order (tree_blocks (sm_blockTree m1))).*1 Hok1) as Hstep.
    fold (applyKnownCommitRules order m1) in Hstep.
    destruct (applyKnownCommitRules_frame order m1) as [_ _ _ _ _ _ Ht _].
    generalize dependent (applyKnownCommitRules order m1).1. intros m2 Hm2 Hstep Ht.
    apply (commit_step_trans _ m m1); [by apply commit_step_state|].
    apply (commit_step_trans _ m1 m2).
    + eapply commit_step_weaken; [|exact Hstep]. intros c (h & _ & Hc). right. exists h.
      rewrite <-Hc, <-Ht. by destruct Hm2 as [->| ->].
    + apply commit_step_state; [by eapply cs_ok|]. by destruct Hm2 as [->| ->].
  - apply commit_step_state; [done|].
    unfold OnVote, certify_vote, recordVote, updateLockedQC. by handler_cases.
  - apply commit_step_state; [done|]. unfold OnTimeoutVote. by handler_cases.
  - eapply commit_step_weaken; [|by apply applyCommitRule_step]. intros c ->. by left.
  - apply commit_step_state; [done|].
    unfold ObserveCommittedBlock, updateLockedQC. by handler_cases.
Qed.

Lemma reachable_commits_ok m : reachable m → commits_ok m.
Proof.
  apply invariant_reachable.
  - intros config m0 (vs & _ & ->)%NewStateMachine_Ok. split; simpl.
    + constructor.
    + intros hash. split; [set_solver|]. by intros (d & ?%not_elem_of_nil & _).
    + intros h hash. rewrite lookup_empty. split; [done|]. by intros (d & ?%not_elem_of_nil & _).
    + done.
  - intros m1 call Hok. eapply cs_ok, exec_commit_step, Hok.
Qed.

Lemma reachable_tree_ok m : reachable m → tree_ok m.
Proof.
  apply invariant_reachable; [|apply exec_tree_ok].
  intros config m0 (vs & _ & ->)%NewStateMachine_Ok hash node. unfold Tree_Get. simpl.
  by rewrite lookup_empty.
Qed.

Lemma reachable_steps m m' : reachable m → rtc step m m' → reachable m'.
Proof. intros (config & m0 & Hnew & Hr) Hs. exists config, m0. split; [done|by etrans]. Qed.

(** C6: the commit history is consistent in every reachable machine: the
    committed decisions are in strictly increasing height, the committed set and
    the height index describe exactly these decisions, and the status names the
    highest one. *)
Theorem commit_history_consistent m : reachable m → commits_ok m.
Proof. apply reachable_commits_ok. Qed.

(** C4: commits are final.  A decision a machine has taken is never dropped or
    replaced: it stays in the history after any further calls, and every
    decision of that height is the same decision. *)
Theorem commits_are_final m m' d :
  reachable m → rtc step m m' → d ∈ sm_committed m →
  d ∈ sm_committed m' ∧
  ∀ d', d' ∈ sm_committed m' →
    Decision_CommittedHeight d' = Decision_CommittedHeight d → d' = d.
Proof.
  intros Hr Hs Hd. pose proof (reachable_steps _ _ Hr Hs) as Hr'.
  assert (d ∈ sm_committed m') as Hd'.
  { apply reachable_commits_ok in Hr as Hok. clear Hr Hr'.
    induction Hs as [|m1 m2 m3 [call ->] _ IH]; [done|].
    destruct (exec_commit_step m1 call Hok) as [Hok2 Hgrow _]. apply IH; auto. }
  split; [done|]. intros d' Hin Heq.
  eapply commits_unique; [by apply reachable_commits_ok|done..].
Qed.

(** Three consecutive blocks of the tree, each justified by a certificate of its
    parent; the first one is the decision's. *)
Definition chain_of_three (tree : BlockTree) (d : CommitDecision) : Prop :=
  ∃ hash node parent,
    Tree_Get tree hash = Some node ∧ Tree_Get tree (Node_ParentHash node) = Some parent ∧
    Node_ParentHash parent = Decision_CommittedBlockHash d ∧
    hash ≠ zero_hash ∧ Node_ParentHash node ≠ zero_hash ∧ Node_ParentHash parent ≠ zero_hash ∧
    0 < Decision_CommittedHeight d ∧ Decision_CommittedHeight d + 2 < two64 ∧
    Header_Height (Block_Header (Node_Block parent)) = Decision_CommittedHeight d + 1 ∧
    Header_Height (Block_Header (Node_Block node)) = Decision_CommittedHeight d + 2 ∧
    QC_BlockHash (Node_JustifyQC node) = Node_ParentHash node ∧
    QC_Height (Node_JustifyQC node) = Header_Height (Block_Header (Node_Block parent)) ∧
    Node_JustifyQC parent = Decision_CommitQC d ∧
    QC_BlockHash (Decision_CommitQC d) = Decision_CommittedBlockHash d ∧
    QC_Height (Decision_CommitQC d) = Decision_CommittedHeight d.

(** The certificate heights of the tree are machine integers. *)
Definition tree_typed (tree : BlockTree) : Prop :=
  ∀ hash node, Tree_Get tree hash = Some node → is_u64 (QC_Height (Node_JustifyQC node)).

(** A successor that did not wrap. *)
Lemma wrap64_succ x h : is_u64 h → (x = wrap64 (h + 1) ∧ x ≠ 0) ↔ (x = h + 1 ∧ x < two64).
Proof.
  intros Hh. unfold is_u64 in Hh. destruct (decide (h + 1 = two64)) as [Heq|Hne].
  - rewrite Heq. change (wrap64 two64) with 0. lia.
  - rewrite wrap64_small by (unfold is_u64; lia). unfold is_u64 in *. lia.
Qed.

(** A commit candidate of the tree that satisfies the rule is a chain of three
    blocks, and the other way around. *)
Lemma candidate_chain hashBlock tree d :
  (∀ hash node, Tree_Get tree hash = Some node → node_ok hashBlock hash node) → tree_typed tree →
  (∃ hash c, Tree_CommitCandidate tree hash = Some c ∧ three_chain c d) ↔ chain_of_three tree d.
Proof.
  intros Hok Htyped. split.
  - intros (hash & c & Hc & Hd). unfold Tree_CommitCandidate in Hc.
    destruct (Tree_Get tree hash) as [node|] eqn:Hn; [|done]. simpl in Hc.
    case_bool_decide as Hj; [done|].
    destruct (Tree_Get tree (QC_BlockHash (Node_JustifyQC node))) as [parent|] eqn:Hp; [|done].
    simpl in Hc. case_bool_decide as Hj'; [done|]. injection Hc as <-.
    unfold three_chain in Hd. simpl in Hd. destruct Hd as (H1&H2&H3&_&_&H6&_&H8&H9&H10&H11&H12&->).
    pose proof (Htyped _ _ Hn). pose proof (Htyped _ _ Hp) as Hpu.
    destruct (proj1 (wrap64_succ _ _ Hpu) (conj H11 H9)) as [Hph1 Hph2].
    assert (is_u64 (Header_Height (Block_Header (Node_Block parent)))) as Hu
      by (unfold is_u64 in *; lia).
    destruct (proj1 (wrap64_succ _ _ Hu) (conj H12 H8)) as [Hnh1 Hnh2]. unfold is_u64 in *.
    destruct (Hok _ _ Hn) as [[Hnh _] _ _ Hnj], (Hok _ _ Hp) as [[Hph _] _ _ Hpj].
    destruct Hnj as [Hnj _]; [lia|]. destruct Hpj as [Hpj _]; [lia|].
    exists hash, node, parent. simpl. rewrite <-Hnj, <-Hpj. rewrite Hnh in H1.
    split_and!; try done; try lia; congruence.
  - destruct d as [dh dhash dqc].
    intros (hash & node & parent & Hn & Hp & Hg & H1 & H2 & H3 & H4 & H5 & H6 & H7 & H8 & H9 & H10
      & H11 & H12). simpl in *. subst dqc dhash.
    destruct (Hok _ _ Hn) as [[Hnh _] _ _ _], (Hok _ _ Hp) as [[Hph _] _ _ _].
    exists hash. unfold Tree_CommitCandidate. rewrite Hn. simpl. rewrite H8, Hp. simpl.
    rewrite !bool_decide_eq_false_2 by lia.
    eexists. split; [done|]. unfold three_chain. simpl.
    destruct (proj2 (wrap64_succ (dh + 1) dh ltac:(unfold is_u64; lia)) ltac:(lia)) as [Hw1 _].
    destruct (proj2 (wrap64_succ (dh + 2) (dh + 1) ltac:(unfold is_u64; lia)) ltac:(lia)) as [Hw2 _].
    rewrite H6, H7, H12. split_and!; try done; try lia; congruence.
Qed.

(** An accepted proposal has run the commit rules to the end. *)
Lemma OnProposal_Ok order ctx m p m' :
  OnProposal order ctx m p = (m', Ok tt) →
  validateProposal m p = Ok tt ∧ isSafeProposal m p = Ok true ∧
  is_certified m (cfg_hashBlock (sm_config m) (Proposal_Block p)) = false ∧
  (applyKnownCommitRules order (insert_proposal m p)).2 = Ok tt ∧
  let m2 := (applyKnownCommitRules order (insert_proposal m p)).1 in
  m' = set_status m2 (set_view (sm_status m2) (Header_Height (Block_Header (Proposal_Block p)))
                        (Proposal_Round p) PhaseVote).
Proof.
  unfold OnProposal. destruct ctx; [done|]. cbn [ctx_guard mbind result_bind].
  destruct (validateProposal m p) as [[]|]; [|done]. unfold then_.
  destruct (is_certified m _); [by destruct (applyKnownCommitRules order m) as [? []]|].
  destruct (is_stale m p); [by destruct (applyKnownCommitRules _ _) as [? []]|].
  destruct (isSafeProposal m p) as [[]|]; [|done..].
  destruct (applyKnownCommitRules _ _) as [m2 [[]|]]; [|done]. by intros [= <-].
Qed.


(** ** Locks *)

Lemma certifies_high m m' qc :
  certifies m m' qc → qc_le (tree_highQC (sm_blockTree m)) (tree_highQC (sm_blockTree m')) ∧
    qc_le (sm_lockedQC m) (sm_lockedQC m').
Proof.
  intros [_ Ht Hl]. split.
  - unfold Tree_SetQuorumCert in Ht. destruct (_ || _); [done|].
    destruct (Tree_Get _ _); [|done]. case_bool_decide; [done|]. injection Ht as <-.
    apply ObserveQuorumCert_le.
  - destruct Hl as [[-> _]|[-> Hlt]]; [done|]. unfold qc_lt, qc_le in *. lia.
Qed.

Lemma exec_monotone m call :
  qc_le (sm_lockedQC m) (sm_lockedQC (exec m call)) ∧
  qc_le (tree_highQC (sm_blockTree m)) (tree_highQC (sm_blockTree (exec m call))).
Proof.
  destruct call; simpl.
  - done.
  - by destruct validatorSet.
  - destruct (OnProposal_shape order ctx m proposal) as [->|(m1 & Hm1 & Hm2)]; [done|].
    destruct (applyKnownCommitRules_frame order m1) as [_ _ _ _ _ _ Ht Hl].
    assert (sm_lockedQC m1 = sm_lockedQC m ∧
      qc_le (tree_highQC (sm_blockTree m)) (tree_highQC (sm_blockTree m1))) as [Hl1 Hh1].
    { destruct Hm1 as [->|(-> & _)]; [done|]. split; [done|]. apply ObserveQuorumCert_le. }
    destruct Hm2 as [->| ->]; simpl; by rewrite Hl, Ht, Hl1.
  - destruct (OnVote_tree order ctx m vote) as [[-> ->]|(m1 & qc & Ht & Hl & _ & _ & _ & _ & Hc)];
      [done|]. apply certifies_high in Hc as [Hhigh Hlock]. by rewrite Ht, Hl in *.
  - unfold OnTimeoutVote. handler_cases; try done. split; [done|]. apply ObserveQuorumCert_high.
  - destruct (applyCommitRule_frame m candidate) as [_ _ _ _ _ _ Ht Hl].
    unfold ApplyCommitRule. by rewrite Ht, Hl.
  - unfold ObserveCommittedBlock. destruct (_ || _); [done|].
    set (m1 := match Tree_Get _ _ with Some _ => _ | None => _ end).
    assert (sm_lockedQC m1 = sm_lockedQC m ∧ tree_highQC (sm_blockTree m1) =
      tree_highQC (sm_blockTree m)) as [Hl Hh] by (unfold m1; by destruct (Tree_Get _ _)).
    destruct (Tree_SetQuorumCert (sm_blockTree m1) quorumCert) as [tree|] eqn:Hset; simpl;
      [|by rewrite Hl, Hh].
    pose proof (certifies_high _ _ _ (certifies_update m1 tree quorumCert Hset)) as [H1 H2].
    by rewrite Hl, Hh in *.
Qed.

(** Blocks stay in the tree. *)
Definition tree_grows (t t' : BlockTree) : Prop :=
  ∀ h, is_Some (Tree_Get t h) → is_Some (Tree_Get t' h).

#[local] Instance tree_grows_preorder : PreOrder tree_grows.
Proof. split; [by intros t h|intros t1 t2 t3 H1 H2 h Hh; by apply H2, H1]. Qed.

Lemma Observe_grows t qc : tree_grows t (ObserveQuorumCert t qc).
Proof. intros h. unfold Tree_Get. by rewrite ObserveQuorumCert_blocks. Qed.

Lemma insert_grows t hash node high qc :
  tree_grows t (ObserveQuorumCert (mkBlockTree (<[hash := node]> (tree_blocks t)) high) qc).
Proof.
  intros h. unfold Tree_Get. rewrite ObserveQuorumCert_blocks. simpl.
  rewrite lookup_insert. case_decide; [eauto|done].
Qed.

Lemma SetQuorumCert_grows t qc t' :
  Tree_SetQuorumCert t qc = Ok t' → tree_grows t t' ∧ is_Some (Tree_Get t' (QC_BlockHash qc)).
Proof.
  unfold Tree_SetQuorumCert. destruct (_ || _); [done|].
  destruct (Tree_Get t _) as [node|] eqn:E; [|done]. case_bool_decide; [done|]. intros [= <-].
  pose proof (insert_grows t (QC_BlockHash qc) (set_node_QC node qc) (tree_highQC t) qc) as Hg.
  split; [exact Hg|]. apply Hg. by rewrite E.
Qed.

(** The lock is for a block of the tree. *)
Definition lock_known (m : StateMachine) : Prop :=
  sm_lockedQC m = zero_QC ∨ is_Some (Tree_Get (sm_blockTree m) (QC_BlockHash (sm_lockedQC m))).

Lemma lock_known_grows m m' :
  tree_grows (sm_blockTree m) (sm_blockTree m') → sm_lockedQC m' = sm_lockedQC m →
  lock_known m → lock_known m'.
Proof. intros Hg Hl [Hz|Hk]; unfold lock_known; rewrite Hl; [by left|right; by apply Hg]. Qed.

Lemma certifies_lock_known m m' qc : certifies m m' qc → lock_known m → lock_known m'.
Proof.
  intros [_ Ht Hl] Hk. apply SetQuorumCert_grows in Ht as [Hg Hqc].
  destruct Hl as [[Hl _]|[Hl _]]; [by eapply lock_known_grows|]. right. by rewrite Hl.
Qed.

Lemma exec_lock_known m call : lock_known m → lock_known (exec m call).
Proof.
  intros Hk. destruct call; simpl.
  - done.
  - by destruct validatorSet.
  - destruct (OnProposal_shape order ctx m proposal) as [->|(m1 & Hm1 & Hm2)]; [done|].
    destruct (applyKnownCommitRules_frame order m1) as [_ _ _ _ _ _ Ht Hl].
    assert (lock_known m1) as Hk1.
    { destruct Hm1 as [->|(-> & _)]; [done|]. apply (lock_known_grows m); [|done..].
      apply insert_grows. }
    unfold lock_known. destruct Hm2 as [->| ->]; simpl; by rewrite Ht, Hl.
  - destruct (OnVote_tree order ctx m vote) as [[Ht Hl]|(m1 & qc & Ht & Hl & _ & _ & _ & _ & Hc)].
    + unfold lock_known. by rewrite Ht, Hl.
    + eapply certifies_lock_known; [exact Hc|]. unfold lock_known. by rewrite Ht, Hl.
  - apply (lock_known_grows m); [| |done]; unfold OnTimeoutVote; handler_cases; try done.
    apply Observe_grows.
  - destruct (applyCommitRule_frame m candidate) as [_ _ _ _ _ _ Ht Hl].
    unfold lock_known, ApplyCommitRule. by rewrite Ht, Hl.
  - unfold ObserveCommittedBlock. destruct (_ || _); [done|].
    set (m1 := match Tree_Get _ _ with Some _ => _ | None => _ end).
    assert (lock_known m1) as Hk1.
    { apply (lock_known_grows m); [|by unfold m1; destruct (Tree_Get _ _)|done].
      unfold m1. destruct (Tree_Get _ _); [done|]. apply insert_grows. }
    destruct (Tree_SetQuorumCert (sm_blockTree m1) quorumCert) as [tree|] eqn:Hset; simpl; [|done].
    eapply certifies_lock_known, Hk1. by apply certifies_update.
Qed.

(** C7: locks only move forward.  Along any run the lock and the high
    certificate never get worse in height and round, and the lock is always the
    certificate of a block that is in the tree. *)
Theorem locks_move_forward m m' :
  reachable m → rtc step m m' →
  qc_le (sm_lockedQC m) (sm_lockedQC m') ∧
  qc_le (tree_highQC (sm_blockTree m)) (tree_highQC (sm_blockTree m')) ∧ lock_known m'.
Proof.
  intros Hr Hs. pose proof (reachable_steps _ _ Hr Hs) as Hr'. split_and!; [..|].
  - clear Hr Hr'. induction Hs as [|m1 m2 m3 [call ->] _ IH]; [done|].
    etrans; [|exact IH]. apply exec_monotone.
  - clear Hr Hr'. induction Hs as [|m1 m2 m3 [call ->] _ IH]; [done|].
    etrans; [|exact IH]. apply exec_monotone.
  - revert Hr'. apply invariant_reachable; [|apply exec_lock_known].
    intros config m0 (vs & _ & ->)%NewStateMachine_Ok. by left.
Qed.

(** A target that respects a lock: nothing is locked, the target's justification
    is at least as high, or the target descends from the locked block. *)
Definition respects_lock (m : StateMachine) (justify : QuorumCert) (target : Hash) : Prop :=
  QC_Height (sm_lockedQC m) = 0 ∨
  QC_Height (sm_lockedQC m) ≤ QC_Height justify ∨
  is_ancestor (sm_blockTree m) target (QC_BlockHash (sm_lockedQC m)).

Lemma extends_Ok tree descendant ancestor :
  extends tree descendant ancestor = Ok true → is_ancestor tree descendant ancestor.
Proof.
  unfold extends. pose proof (Extends_spec tree descendant ancestor) as Hs.
  destruct (Extends tree descendant ancestor) as [b|]; [|done]. intros [= ->]. by apply Hs.
Qed.

Lemma isSafeVoteTarget_Ok m node :
  isSafeVoteTarget m node = Ok true → respects_lock m (Node_JustifyQC node) (Node_Hash node).
Proof.
  unfold isSafeVoteTarget, respects_lock. case_bool_decide as H1; [by left|].
  case_bool_decide as H2; [by right; left|]. intros Hs. right. right.
  case_bool_decide as H3; [rewrite H3; apply rtc_refl|]. by apply extends_Ok.
Qed.

(** Accepted votes respect the lock.  A vote that [OnVote] accepts is by a
    member for a known block at its height, not behind the machine's view, and
    its block respects the lock the machine holds: it is justified at least as
    high as the lock or descends from the locked block. *)
Theorem accepted_vote_respects_lock order ctx m vote m' :
  reachable m → OnVote order ctx m vote = (m', Ok tt) →
  ∃ node, Tree_Get (sm_blockTree m) (Vote_BlockHash vote) = Some node ∧
    is_Some (Set_Get (sm_validatorSet m) (Vote_ValidatorID vote)) ∧
    Header_Height (Block_Header (Node_Block node)) = Vote_Height vote ∧
    Vote_Height vote ≠ 0 ∧
    (Status_Height (sm_status m) ≤ Vote_Height vote ∨ Status_Height (sm_status m) ≤ 0) ∧
    (Vote_Height vote = Status_Height (sm_status m) →
       Status_Round (sm_status m) ≤ Vote_Round vote) ∧
    respects_lock m (Node_JustifyQC node) (Vote_BlockHash vote).
Proof.
  intros Hr Hon. unfold OnVote in Hon. destruct ctx; [done|]. cbn [ctx_guard] in Hon.
  destruct (ensureVoteSignature_fields m vote) as (Hh & Hrd & Hb & _).
  destruct (Set_Get _ _) as [info|]; [|done].
  destruct (validateVote _ _) as [[]|] eqn:Hv; [|done]. clear Hon.
  unfold validateVote in Hv. rewrite Hh, Hrd, Hb in Hv. result_inv Hv.
  destruct (Tree_Get _ _) as [node|] eqn:Hn; [|done]. result_inv Hv. subst.
  match goal with Hs : isSafeVoteTarget _ _ = _ |- _ => apply isSafeVoteTarget_Ok in Hs end.
  destruct (reachable_tree_ok m Hr _ _ Hn) as [[Hnh _] _ _ _]. rewrite Hnh in *.
  rewrite ?negb_true_iff, ?andb_false_iff, ?bool_decide_eq_true, ?bool_decide_eq_false in *.
  exists node. split_and!; try done; lia || eauto.
Qed.
End exec.
