(* ===== verification/Proposals.v ===== *)
(** * Proposals, conflicting votes and forged certificates

    A proposal that [CreateProposal] makes passes every check of [OnProposal];
    a vote that conflicts with a recorded one is rejected and leaves evidence
    that verifies. *)

From S2P Require Import Prelude GoLib Sha256 Types Strconv TxTags FairOrdering Validator SignBytes.
From S2P Require Import DataAvailability BlockTree Evidence Timeouts StateMachine StateMachineInv.
From S2P Require Import Commits.

Section proposals.
Context `{!EvidenceCodec}.

Definition sign_proposal (p : Proposal) (signature : Signature) : Proposal :=
  mkProposal (Proposal_Block p) (Proposal_Round p) (Proposal_Proposer p) (Proposal_JustifyQC p)
    signature.

(** A proposal that extends the certificate [proposalQC] picks is safe. *)
Lemma proposalQC_safe m qc p :
  proposalQC m = Ok qc → Proposal_JustifyQC p = qc →
  (0 < QC_Height qc → Header_PreviousBlockHash (Block_Header (Proposal_Block p)) = QC_BlockHash qc) →
  0 ≤ QC_Height (tree_highQC (sm_blockTree m)) →
  isSafeProposal m p = Ok true.
Proof.
  intros Hqc Hj Hprev Hhigh. unfold isSafeProposal. rewrite Hj.
  destruct (bool_decide _) eqn:Hl; [done|]. apply bool_decide_eq_false in Hl.
  destruct (bool_decide (_ ≤ _)) eqn:Hle; [done|]. apply bool_decide_eq_false in Hle.
  unfold proposalQC in Hqc. rewrite (bool_decide_eq_false_2 _ Hl) in Hqc.
  case_bool_decide as Hh. { injection Hqc as <-. lia. }
  result_inv Hqc. destruct r as [].
  - injection Hqc as <-. rewrite Hprev by lia. by case_bool_decide.
  - destruct (isBetterQC _ _); injection Hqc as <-; lia.
Qed.

Lemma CreateProposal_Ok m block round proposer qc p :
  CreateProposal m block round proposer qc = Ok p →
  is_Some (Set_Get (sm_validatorSet m) proposer) ∧
  validateProposer m (Header_Height (Block_Header block)) round proposer = Ok tt ∧
  Proposal_Round p = round ∧ Proposal_Proposer p = proposer ∧
  (if bool_decide (QC_Height qc = 0) then proposalQC m else Ok qc) = Ok (Proposal_JustifyQC p) ∧
  let txs := SortTxsWithSalt (orderingSalt m (Header_Height (Block_Header block)))
               (Block_Txs block) in
  Block_Txs (Proposal_Block p) = txs ∧
  let header := proposal_header m (Block_Header block) (Proposal_JustifyQC p) in
  Block_Header (Proposal_Block p) =
    (if bool_decide (Header_ConsensusHash header = zero_hash) && bool_decide (txs ≠ [])
     then set_ConsensusHash (set_TxRoot header (TxRoot txs)) (Commitment txs)
     else set_TxRoot header (TxRoot txs)).
Proof.
  unfold CreateProposal. destruct (Set_Get _ _) eqn:Hget; [|done]. intros Hc. result_inv Hc.
  destruct r. subst p. cbn [Proposal_JustifyQC Proposal_Round Proposal_Proposer Proposal_Block].
  split_and!; [eauto|done..| |]; by destruct (_ && _).
Qed.

(** The header of a created proposal. *)
Lemma created_header m block round proposer qc p :
  CreateProposal m block round proposer qc = Ok p →
  Header_ConsensusHash (Block_Header block) = zero_hash →
  let header := Block_Header (Proposal_Block p) in
  Header_ChainID header = cfg_chainID (sm_config m) ∧
  Header_Height header = Header_Height (Block_Header block) ∧
  Header_ValidatorSetHash header = Set_Hash (sm_validatorSet m) ∧
  Header_TxRoot header = TxRoot (Block_Txs (Proposal_Block p)) ∧
  Header_PreviousBlockHash header =
    (if bool_decide (Header_PreviousBlockHash (Block_Header block) = zero_hash) &&
        bool_decide (0 < QC_Height (Proposal_JustifyQC p))
     then QC_BlockHash (Proposal_JustifyQC p)
     else Header_PreviousBlockHash (Block_Header block)) ∧
  Header_ConsensusHash header =
    (if bool_decide (Block_Txs (Proposal_Block p) ≠ [])
     then Commitment (Block_Txs (Proposal_Block p)) else zero_hash).
Proof.
  intros (_ & _ & _ & _ & _ & Htxs & Hheader)%CreateProposal_Ok Hcons. cbv zeta in *.
  rewrite <-Htxs in Hheader. rewrite Hheader. clear Hheader Htxs.
  assert (Header_ConsensusHash (proposal_header m (Block_Header block) (Proposal_JustifyQC p))
    = zero_hash) as Hz by exact Hcons.
  rewrite Hz, (bool_decide_eq_true_2 (zero_hash = zero_hash)) by done. rewrite andb_true_l.
  destruct (bool_decide (Block_Txs (Proposal_Block p) ≠ [])); by split_and!.
Qed.

Lemma DA_Verify_created header (txs : list bytes) :
  Header_ConsensusHash header =
    (if bool_decide (txs ≠ []) then Commitment txs else zero_hash) →
  Commitment txs ≠ zero_hash → DA_Verify header txs = Ok tt.
Proof.
  intros Hc Hnz. unfold DA_Verify. rewrite Hc. case_bool_decide as Hne.
  - rewrite (bool_decide_eq_false_2 _ Hnz). by rewrite (bool_decide_eq_true_2 (_ = _)) by done.
  - subst. by rewrite (bool_decide_eq_true_2 (zero_hash = zero_hash)) by done.
Qed.

(** Every outcome of a proposal that passes the checks. *)
Lemma OnProposal_outcome order m p :
  commits_ok m → validateProposal m p = Ok tt → isSafeProposal m p = Ok true →
  (OnProposal order None m p).2 = Ok tt ∨
  (OnProposal order None m p).2 = Err ErrStaleProposal ∨
  (OnProposal order None m p).2 = Err ErrConflictingCommit.
Proof.
  intros Hok Hv Hs. unfold OnProposal. cbn [ctx_guard mbind result_bind]. rewrite Hv, Hs.
  assert (∀ m1, commits_ok m1 → match (applyKnownCommitRules order m1).2 with
    Ok _ => True | Err e => e = ErrConflictingCommit end) as Hrules.
  { intros m1 Hok1. pose proof (apply_rules_complete m1 (order (tree_blocks (sm_blockTree m1))).*1
      Hok1) as Hc. fold (applyKnownCommitRules order m1) in Hc.
    by destruct (applyKnownCommitRules order m1).2. }
  pose proof (Hrules m Hok) as H1.
  pose proof (Hrules (insert_proposal m p) ltac:(by eapply (commits_ok_state m))) as H2.
  unfold then_. destruct (is_certified m _).
  { destruct (applyKnownCommitRules order m) as [m1 [[]|]]; naive_solver. }
  destruct (applyKnownCommitRules order (insert_proposal m p)) as [m1 [[]|]];
    destruct (is_stale m p); naive_solver.
Qed.


(** ** Conflicting votes *)

(** The proof of a vote pair survives the JSON encoding. *)
Definition pair_encodes (first second : Vote) : Prop :=
  ∃ proof, marshal_votes (mkConflictingVoteProof first second) = Ok proof ∧
           unmarshal_votes proof = Ok (mkConflictingVoteProof first second).

(** C9: a double vote is caught.  When a valid vote of a member names another
    block than its recorded vote of that round, [OnVote] refuses it, records
    nothing, and appends evidence that names the validator, height and round and
    that the evidence verifier accepts. *)
Theorem conflicting_vote_caught order m vote prev m' r :
  reachable m →
  is_Some (Set_Get (sm_validatorSet m) (Vote_ValidatorID vote)) →
  validateVote m (ensureVoteSignature m vote) = Ok tt →
  voted m (Vote_Height vote) (Vote_Round vote) (Vote_ValidatorID vote) = Some prev →
  Vote_BlockHash prev ≠ Vote_BlockHash vote →
  pair_encodes prev (ensureVoteSignature m vote) →
  OnVote order None m vote = (m', r) →
  r = Err ErrConflictingVote ∧ same_votes m m' ∧
  ∃ evidence, sm_evidence m' = sm_evidence m ++ [evidence] ∧
    VerifyConflictingVoteEvidence evidence = Ok tt ∧
    Evidence_Validator evidence = Vote_ValidatorID vote ∧
    Evidence_Height evidence = Vote_Height vote ∧ Evidence_Round evidence = Vote_Round vote.
Proof.
  intros Hr [info Hget] Hv Hprev Hne (proof & Hm & Hu) Hon.
  destruct (ensureVoteSignature_fields m vote) as (Hh & Hrd & Hb & Hid).
  destruct (proj2 (reachable_votes_ok m Hr) _ _ _ _ Hprev) as (Hph & Hpr & Hpid).
  unfold OnVote in Hon. cbn [ctx_guard] in Hon. rewrite Hget, Hv in Hon.
  remember (ensureVoteSignature m vote) as v eqn:Heq.
  assert (NewConflictingVoteEvidence prev v = Ok (mkEvidence EvidenceConflictingVote
    (Vote_ValidatorID prev) (Vote_Height prev) (Vote_Round prev) proof)) as Hev.
  { unfold NewConflictingVoteEvidence. rewrite Hh, Hrd, Hb, Hid, Hm. by bool_decide_all. }
  destruct (recordVote_spec m v) as [[_ Hsame]|(p & Hp & _ & Hres & Hvoted & Hvb & Hevs)].
  { rewrite Hh, Hrd, Hid, Hb in Hsame. by destruct Hne, (Hsame _ Hprev). }
  rewrite Hh, Hrd, Hid, Hprev in Hp. injection Hp as <-.
  destruct (recordVote m v) as [m1 r1]. simpl in *. subst r1. injection Hon as <- <-.
  split; [done|]. split; [done|]. rewrite Hev in Hevs. eexists. split; [exact Hevs|].
  apply NewConflictingVoteEvidence_verifies in Hev as (Hver & _).
  - by split_and!.
  - intros proof' Hm'. congruence.
Qed.
End proposals.
