(* ===== verification/MachineExample.v ===== *)
(** * Runs of the state machine

    An honest run of four validators through three heights, evaluated by the
    kernel: it instantiates the hypotheses of the theorems on the machine.  A
    second run has one faulty proposer and no votes at all, and commits. *)

From S2P Require Import Prelude GoLib Sha256 Types Strconv TxTags FairOrdering Validator SignBytes.
From S2P Require Import DataAvailability Finality BlockTree Evidence Timeouts StateMachine.
From S2P Require Import StateMachineInv Certificates Commits Proposals.

Module MachineExample.
Import FinalityExample(set, set_lawful, set_unsaturated).

(** A transparent signature scheme. *)
Definition sign (key : PublicKey) (message : bytes) : Signature := x01 :: key ++ message.
Definition verify (key : PublicKey) (message : bytes) (signature : Signature) : bool :=
  bool_decide (signature = sign key message).
Definition aggregate (signatures : list Signature) : result AggregateSignature :=
  Ok (concat signatures).
Definition verifyAggregate : AggregateVerifier := λ keys message signature,
  bool_decide (signature = concat ((λ key, sign key message) <$> keys)).

Lemma aggregate_ok : aggregate_complete verify aggregate verifyAggregate.
Proof.
  intros keys message sigs sig Hall Hne [= <-].
  assert (sigs = (λ key, sign key message) <$> keys) as ->.
  { clear Hne. induction Hall as [|key s keys sigs Hs _ IH]; [done|]. csimpl.
    apply bool_decide_eq_true in Hs. by rewrite Hs, <-IH. }
  split; [|by apply bool_decide_eq_true]. by destruct keys.
Qed.

Definition config : StateMachineConfig :=
  mkSMConfig "vexo" (Some set) None (Some verify) (Some aggregate) true.

Definition m0 : StateMachine := initial config set.

Lemma m0_new : NewStateMachine config = Ok m0.
Proof. reflexivity. Qed.

Definition key_of (id : ValidatorID) : PublicKey :=
  match Set_Get set id with Some v => Validator_PublicKey v | None => [] end.

(** Sign over a domain. *)
Definition signature (id : ValidatorID) (domain : string) (message : bytes) : Signature :=
  match DomainMessage domain message with Ok m => sign (key_of id) m | Err _ => [] end.

Definition vote (id : ValidatorID) (height : Height) (round : Round) (block : Hash) : Vote :=
  mkVote height round block id
    (signature id DomainConsensusVote (signbytes_Vote height round block)).

Definition signed (p : Proposal) : Proposal :=
  sign_proposal p (signature (Proposal_Proposer p) DomainConsensusProposal (ProposalSignBytes p)).

Definition empty_header (height : Height) : Header :=
  mkHeader "" height 0 zero_hash zero_hash zero_hash zero_hash zero_hash.
Definition zero_proposal : Proposal := mkProposal (mkBlock (empty_header 0) []) 0 "" zero_QC [].

(** The proposal an honest proposer makes on a machine. *)
Definition propose (m : StateMachine) (height : Height) (id : ValidatorID) (txs : list bytes)
    : Proposal :=
  match CreateProposal m (mkBlock (empty_header height) txs) 0 id zero_QC with
  | Ok p => signed p
  | Err _ => zero_proposal
  end.

(** The block of height one, and another one by the same proposer. *)
Definition p1 : Proposal := propose m0 1 "v1" [[x61]; [x62]; [x63]].
Definition b1 : Hash := HashBlock (Proposal_Block p1).
Definition p1' : Proposal := propose m0 1 "v1" [].
Definition b1' : Hash := HashBlock (Proposal_Block p1').

(** A codec for one pair of votes. *)
Definition vote_pair : ConflictingVoteProof :=
  mkConflictingVoteProof (vote "v1" 1 0 b1) (vote "v1" 1 0 b1').
#[export] Instance evidence_codec : EvidenceCodec := {|
  marshal_votes p :=
    if bool_decide (CVP_First p = CVP_First vote_pair) &&
       bool_decide (CVP_Second p = CVP_Second vote_pair)
    then Ok [x01] else Err (ErrNew "json");
  unmarshal_votes b := if bool_decide (b = [x01]) then Ok vote_pair else Err (ErrNew "json");
  marshal_timeout_votes _ := Err (ErrNew "json");
  unmarshal_timeout_votes _ := Err (ErrNew "json")
|}.

Definition run (m : StateMachine) (calls : list Call) : StateMachine := foldl exec m calls.

Lemma run_steps m calls : rtc step m (run m calls).
Proof.
  revert m. induction calls as [|c calls IH]; intros m; [apply rtc_refl|].
  eapply rtc_l; [by exists c|apply IH].
Qed.

Lemma run_reachable calls : reachable (run m0 calls).
Proof. exists config, m0. split; [apply m0_new|apply run_steps]. Qed.

Lemma run_app m calls calls' : run m (calls ++ calls') = run (run m calls) calls'.
Proof. apply foldl_app. Qed.

Definition fixed_set (calls : list Call) : Prop :=
  Forall (λ c, ∀ vs, c ≠ CallUpdateValidatorSet vs) calls.

Lemma run_set m calls : fixed_set calls → sm_validatorSet (run m calls) = sm_validatorSet m.
Proof.
  intros Hall. revert m. induction Hall as [|c calls Hc _ IH]; intros m; [done|].
  change (sm_validatorSet (run (exec m c) calls) = sm_validatorSet m).
  rewrite IH. by apply exec_set.
Qed.

Lemma run_epoch m calls : fixed_set calls → rtc epoch_step m (run m calls).
Proof.
  intros Hall. revert m. induction Hall as [|c calls Hc _ IH]; intros m; [apply rtc_refl|].
  eapply rtc_l; [by exists c|apply IH].
Qed.

Definition cast (height : Height) (block : Hash) (ids : list ValidatorID) : list Call :=
  (λ id, CallOnVote canonical_order None (vote id height 0 block)) <$> ids.

(** Height one: a proposal and three votes. *)
Definition calls1 : list Call := [CallOnProposal canonical_order None p1].
Definition m1 : StateMachine := run m0 calls1.
Definition calls2 : list Call := calls1 ++ cast 1 b1 ["v1"; "v2"; "v3"].
Definition m2 : StateMachine := run m0 calls2.

(** Height two and three. *)
Definition p2 : Proposal := propose m2 2 "v2" [].
Definition b2 : Hash := HashBlock (Proposal_Block p2).
Definition round2 : list Call :=
  CallOnProposal canonical_order None p2 :: cast 2 b2 ["v4"; "v1"; "v2"].
Definition calls3 : list Call := calls2 ++ round2.
Definition m3 : StateMachine := run m0 calls3.
Definition p3 : Proposal := propose m3 3 "v3" [].
Definition calls4 : list Call := calls3 ++ [CallOnProposal canonical_order None p3].
Definition m4 : StateMachine := run m0 calls4.

(** Both proposals of height one and a vote for the first. *)
Definition calls_e : list Call :=
  calls1 ++ CallOnProposal canonical_order None p1' :: cast 1 b1 ["v1"].
Definition me : StateMachine := run m0 calls_e.

(** Timeouts of two validators in round zero of height one. *)
Definition timeout_vote (id : ValidatorID) (qc : QuorumCert) : TimeoutVote :=
  let v := mkTimeoutVote 1 0 id qc [] in
  mkTimeoutVote 1 0 id qc (signature id DomainConsensusTimeoutVote (TimeoutVoteSignBytes v)).
Definition calls_t : list Call :=
  calls2 ++ ((λ id, CallOnTimeoutVote canonical_order None (timeout_vote id zero_QC)) <$> ["v1"; "v2"]).
Definition mt : StateMachine := run m0 calls_t.

Definition built (m : StateMachine) (height : Height) (block : Hash) : QuorumCert :=
  match buildQuorumCert canonical_order m height 0 block with Ok qc => qc | Err _ => zero_QC end.

Lemma calls2_fixed : fixed_set calls2.
Proof. by repeat constructor. Qed.
Lemma calls3_fixed : fixed_set calls3.
Proof. by repeat constructor. Qed.

Lemma m2_set : sm_validatorSet m2 = set.
Proof. exact (run_set m0 calls2 calls2_fixed). Qed.
Lemma m3_set : sm_validatorSet m3 = set.
Proof. exact (run_set m0 calls3 calls3_fixed). Qed.

Lemma m2_m3 : rtc step m2 m3.
Proof. unfold m2, m3, calls3. rewrite run_app. apply run_steps. Qed.
Lemma m3_m4 : rtc step m3 m4.
Proof. unfold m3, m4, calls4. rewrite run_app. apply run_steps. Qed.
End MachineExample.
Import MachineExample FinalityExample(set, set_lawful, set_unsaturated).

Lemma one_certificate_per_round_witness :
  is_ok (buildQuorumCert canonical_order m2 1 0 b1) = true ∧ b1 = b1.
Proof.
  split; [by vm_compute|].
  apply (one_certificate_per_round m2 m3 canonical_order canonical_order 1 0 b1 b1
    (built m2 1 b1) (built m3 1 b1)).
  - exact (run_reachable calls2).
  - exact m2_m3.
  - by rewrite m2_set, m3_set.
  - rewrite m2_set. exact set_lawful.
  - rewrite m2_set. exact set_unsaturated.
  - vm_compute. reflexivity.
  - vm_compute. reflexivity.
Defined.


Lemma pair_snd {A B} (p : A * B) b : p.2 = b → p = (p.1, b).
Proof. destruct p. by intros <-. Qed.

Definition last_timeout : TimeoutVote := timeout_vote "v3" (built m2 1 b1).
Definition ok_or {A} (d : A) (r : result A) : A := match r with Ok a => a | Err _ => d end.
Definition last_cert : TimeoutCert :=
  ok_or zero_TC (OnTimeoutVote canonical_order None mt last_timeout).2.

Lemma last_timeout_ok : (OnTimeoutVote canonical_order None mt last_timeout).2 = Ok last_cert.
Proof. vm_compute. reflexivity. Qed.

Lemma mt_set : tc_validatorSet (sm_timeouts mt) = set.
Proof. vm_compute. reflexivity. Qed.

Lemma timeout_certificate_advances_witness :
  Status_Height (sm_status (OnTimeoutVote canonical_order None mt last_timeout).1) =
  TimeoutVote_Height last_timeout.
Proof.
  pose proof (timeout_certificate_advances canonical_order None mt last_timeout
    (OnTimeoutVote canonical_order None mt last_timeout).1 last_cert) as Hadv.
  rewrite mt_set in Hadv.
  exact (proj1 (proj2 (Hadv set_lawful (pair_snd _ _ last_timeout_ok)))).
Defined.

Lemma commit_history_consistent_witness : commits_ok m4 ∧ length (sm_committed m4) = 1%nat.
Proof.
  split; [exact (commit_history_consistent m4 (run_reachable calls4))|vm_compute; reflexivity].
Defined.

Definition d1 : CommitDecision := mkCommitDecision 1 b1 (built m2 1 b1).

Lemma m4_committed : sm_committed m4 = [d1].
Proof. vm_compute. reflexivity. Qed.

Lemma m4_m5 : rtc step m4 (exec m4 (CallStartRound 4 0)).
Proof. apply rtc_once. by exists (CallStartRound 4 0). Qed.

Lemma commits_are_final_witness : d1 ∈ sm_committed (exec m4 (CallStartRound 4 0)).
Proof.
  refine (proj1 (commits_are_final m4 (exec m4 (CallStartRound 4 0)) d1
    (run_reachable calls4) m4_m5 _)).
  rewrite m4_committed. by left.
Defined.

Lemma m3_p3 : (OnProposal canonical_order None m3 p3).2 = Ok tt.
Proof. vm_compute. reflexivity. Qed.

Definition m3' : StateMachine := (OnProposal canonical_order None m3 p3).1.

Lemma m3_p3_eq : OnProposal canonical_order None m3 p3 = (m3', Ok tt).
Proof. exact (pair_snd _ _ m3_p3). Qed.

Lemma tree_typed_check tree :
  bool_decide (map_Forall (λ _ node, is_u64 (QC_Height (Node_JustifyQC node))) (tree_blocks tree))
    = true → tree_typed tree.
Proof. intros Hall%bool_decide_eq_true_1 hash node Hn. exact (Hall hash node Hn). Qed.

Lemma m3_p3_typed : tree_typed (sm_blockTree m3').
Proof. apply tree_typed_check. vm_compute. reflexivity. Qed.

Lemma m3'_committed : sm_committed m3' = [d1].
Proof. vm_compute. reflexivity. Qed.


Lemma locks_move_forward_witness :
  qc_le (sm_lockedQC m2) (sm_lockedQC m3) ∧ QC_Height (sm_lockedQC m3) = 2.
Proof.
  split; [exact (proj1 (locks_move_forward m2 m3 (run_reachable calls2) m2_m3))|].
  vm_compute. reflexivity.
Defined.

(** A fourth vote for the block of height two. *)
Definition late_vote : Vote := vote "v3" 2 0 b2.

Lemma m3_late : (OnVote canonical_order None m3 late_vote).2 = Ok tt.
Proof. vm_compute. reflexivity. Qed.

Definition m3_voted : StateMachine := (OnVote canonical_order None m3 late_vote).1.

Lemma m3_late_eq : OnVote canonical_order None m3 late_vote = (m3_voted, Ok tt).
Proof. exact (pair_snd _ _ m3_late). Qed.

Lemma accepted_vote_respects_lock_witness :
  ∃ node, Tree_Get (sm_blockTree m3) (Vote_BlockHash late_vote) = Some node ∧
    respects_lock m3 (Node_JustifyQC node) (Vote_BlockHash late_vote).
Proof.
  pose proof (accepted_vote_respects_lock canonical_order None m3 late_vote m3_voted
    (run_reachable calls3) m3_late_eq) as (node & Hn & _ & _ & _ & _ & _ & Hl).
  exists node. split; [exact Hn|exact Hl].
Defined.

(** The unsigned proposal of height one. *)
Definition block1 : Block := mkBlock (empty_header 1) [[x61]; [x62]; [x63]].
Definition created1 : Proposal := ok_or zero_proposal (CreateProposal m0 block1 0 "v1" zero_QC).
Definition created1_sig : Signature :=
  signature "v1" DomainConsensusProposal (ProposalSignBytes created1).


(** The second vote of "v1". *)
Definition double_vote : Vote := vote "v1" 1 0 b1'.
Definition me' : StateMachine := (OnVote canonical_order None me double_vote).1.

Lemma double_vote_err : (OnVote canonical_order None me double_vote).2 = Err ErrConflictingVote.
Proof. vm_compute. reflexivity. Qed.

Lemma double_vote_eq :
  OnVote canonical_order None me double_vote = (me', Err ErrConflictingVote).
Proof. exact (pair_snd _ _ double_vote_err). Qed.

Lemma double_vote_ensure : ensureVoteSignature me double_vote = double_vote.
Proof. vm_compute. reflexivity. Qed.

Lemma conflicting_vote_caught_witness :
  ∃ evidence, sm_evidence me' = sm_evidence me ++ [evidence] ∧
    VerifyConflictingVoteEvidence evidence = Ok tt.
Proof.
  pose proof (conflicting_vote_caught canonical_order me double_vote (vote "v1" 1 0 b1) me'
    (Err ErrConflictingVote) (run_reachable calls_e)) as Hcaught.
  rewrite double_vote_ensure in Hcaught.
  destruct Hcaught as (_ & _ & evidence & He & Hv & _).
  - vm_compute. eexists. reflexivity.
  - vm_compute. reflexivity.
  - vm_compute. reflexivity.
  - assert (bool_decide (Vote_BlockHash (vote "v1" 1 0 b1) = Vote_BlockHash double_vote) = false)
      as Hb by (vm_compute; reflexivity).
    exact (bool_decide_eq_false_1 _ Hb).
  - exists [x01]. split; vm_compute; reflexivity.
  - exact double_vote_eq.
  - exists evidence. split; [exact He|exact Hv].
Defined.

(** ** Forged certificates *)

Module ForgedRun.
(** A certificate nobody signed. *)
Definition forged (height : Height) (block : Hash) : QuorumCert :=
  mkQuorumCert height 0 block [] [] 0.

(** A proposal of "v1" in a round of which it is the proposer. *)
Definition block (height : Height) (parent : Hash) : Block :=
  mkBlock (mkHeader "vexo" height 0 parent zero_hash (Set_Hash set) zero_hash zero_hash) [].
Definition proposal (height : Height) (round : Round) (parent : Hash) (qc : QuorumCert) : Proposal :=
  signed (mkProposal (block height parent) round "v1" qc []).

Definition f1 : Hash := HashBlock (block 1 zero_hash).
Definition f2 : Hash := HashBlock (block 2 f1).
Definition calls : list Call :=
  CallOnProposal canonical_order None <$>
    [proposal 1 0 zero_hash zero_QC; proposal 2 3 f1 (forged 1 f1); proposal 3 2 f2 (forged 2 f2)].
End ForgedRun.

